(* ===== verification/_CoqProject ===== *)
-Q . S2P
Prelude.v
Text.v
Topic.v
Filter.v
Runtime.v
Message.v
Framing.v
Writer.v
Interest.v
PeerDirectory.v
Membership.v
Handshake.v
SeenIds.v
TopicChannel.v
TopicMap.v
Groups.v
MessageStore.v
Broker.v
BrokerSpec.v
Fingerprint.v
TopicAcl.v
PeerTopicFilter.v
RateLimit.v
Redelivery.v
Metrics.v
DeadLetter.v
Persistence.v
Async.v
Publishing.v
PeerLinks.v
Forwarder.v
Access.v
World.v
Connection.v
ConnectionSpec.v
Handlers.v
Relay.v
Delivery.v
Acknowledged.v
Mesh.v
Gossip.v
LinkUp.v
Subscribing.v
Peering.v
Reload.v
Restart.v
NodeConfig.v
Tls.v
Serve.v
Utf8.v
MetricsServer.v
Client.v
EndToEnd.v
ClientOptions.v
Startup.v
Daemon.v
ClientRun.v
