(* ===== verification/Prelude.v ===== *)
(** * thoth-mesh: a verification library for a federated publish/subscribe mesh

    thoth-mesh is a message broker in Rust. A node holds topics, clients publish
    and subscribe over framed CBOR, nodes link up to one another and pass a
    publish on to the peers that asked for it. This library is a shallow
    embedding of its crates: one file per component, pure functions for pure
    code, explicit state for the rest, and theorems about what each component
    promises and about the node they make up.

    ** The program and the files that model it

    The core crate, [src/crates/thoth-mesh-core]:
    - [Text] and [Utf8]: Rust's strings as lists of Unicode scalar values, the
      operations of [str] the crates use, and [from_utf8];
    - [Topic], [Filter]: topic names and wildcard filters, their validation and
      matching ([topic.rs], [filter.rs]);
    - [Message]: identifiers, every message kind, the envelope ([message.rs],
      [peer.rs], [envelope.rs]);
    - [Framing]: the length-prefixed frames ([framing.rs], [async_framing.rs]);
      [Writer]: the task that writes a connection's channel to its socket.

    The mesh crate, [src/crates/thoth-mesh]: [Interest] (reference counts per
    filter), [PeerDirectory] (who can be dialed), [Membership] (who is
    connected), [Handshake] (the exchange of [Hello]s).

    The broker crate, [src/crates/thoth-mesh-broker/src/lib.rs]: [SeenIds] (the
    dedup window), [TopicChannel] (ring, retained message and broadcast channel
    of a topic), [TopicMap] (the bounded map of them), [Groups] (consumer
    groups and leases), [MessageStore] (the trait of the durable store as a
    class with laws), [Broker] (the struct and every method of it),
    [BrokerSpec] (what it promises its subscribers) and [Publishing] (publishes
    that overlap).

    The TLS crate, [src/crates/thoth-mesh-tls]: [Fingerprint] (identities of
    certificates) and [Tls] (what the two configurations are built from, the
    streams, and [tls_config.rs] of the node).

    The node crate, [src/crates/thoth-mesh-node]:
    - who may do what: [TopicAcl], [PeerTopicFilter], [RateLimit], [Access];
    - delivery: [Redelivery] (acknowledgements), [Forwarder] (the tasks between
      the broker and a connection), [DeadLetter] (dead letters and the two
      sweeps, [dead_letter.rs], [work_queue.rs], [ttl.rs]);
    - storage: [Persistence] (the SQLite store, which implements
      [MessageStore]), [Restart] (a node refilled from it);
    - the shared state: [PeerLinks] (the registry of links), [World] (what every
      connection shares, [shared.rs] and the heap behind its [Arc]s);
    - connections: [Async] (what an [async fn] is here), [Connection] (every
      handler of [connection.rs], its read loop and its end), [ConnectionSpec]
      (all of them together), [Handlers], [Subscribing], [LinkUp] and [Gossip]
      (what single handlers do), [Serve] (from an accepted or dialed socket to a connection);
    - the mesh: [Relay] (what one node passes on) and [Mesh] (nodes, the wires
      between them and the messages in flight);
    - [Delivery]: broker, forwarder and writer of one subscription together,
      while the rest of the node goes on; [Acknowledged]: an acknowledging
      forwarder, its pending deliveries and its sweeps;
    - [Peering] (outbound dialing), [Reload] (the applier of a live reload),
      [NodeConfig] (command line and config file, [main.rs], [config.rs]),
      [Metrics], [MetricsServer] ([metrics_server.rs], [health.rs]),
      [Startup] (from the options to a node that serves, [lib.rs], and the
      tasks it leaves in the background) and [Daemon] (the process: [main], and
      what [SIGHUP] does).

    The client, [src/crates/thoth-mesh-cli]: [Client] (its commands against one
    connection), [ClientOptions] (what it connects with) and [ClientRun] (a
    command from start to end, and what it prints). [EndToEnd] puts a client at
    the far end of a node's connection.

    ** How the parts interact

    A [Broker] owns two [TopicMap]s over one heap of [TopicChannel]s, the
    [Groups] and the [SeenIds]; it talks to its store through the class
    [MessageStore], whose laws [Persistence] proves of the SQLite store. A
    [Hub] is a broker with the outgoing channels, the counters and the
    identifiers drawn: [DeadLetter], [Forwarder] and [PeerLinks] are steps on
    it. A [World] is a hub with the registry of links, the directory, the
    membership, the interest counts and the heap of connections; [Connection]
    is [Proc]esses over a [World]. [Reload] runs the applier between the
    sections of those processes. [Startup] builds the [World] from what
    [NodeConfig] accepts, with the broker [Restart] describes and the TLS
    configurations of [Tls]; [Daemon] puts [NodeConfig], [Startup] and [Reload]
    together. A [Line] of [Delivery] is a [Hub] with one forwarder's [Task] and
    the writer of its connection, an [Account] of [Acknowledged] one with the
    books of a forwarder. A [Mesh] is a list of [World]s: its steps run the
    handlers and the forwarders of each, and carry what they send over the wires
    between them.

    ** What the theorems show

    - From end to end: [EndToEnd.terminal_shows_the_stream], that a subscribing
      client prints what was published, [Delivery.subscriber_reads_the_stream],
      what is on its socket at any time, and [Delivery.stream_gets_there], that
      it gets there. These are about forwarders that do not wait for
      acknowledgements and filters with room in their map. A forwarder that
      falls further behind than its channel holds loses messages, as ADR-0024
      says; the theorems go on through such a lag and say what it still owes.
    - Of the whole node: [ConnectionSpec.interest_covers_subscriptions], that
      the interest count of a filter never falls below the connections
      subscribed to it under any interleaving in which no reload sweeps between
      the two sections of a subscribe; [Startup.start_serves],
      [Startup.spawned_catches_up] (also while others use the node) and [NodeConfig.options_well_formed], what it
      starts with; [Reload.reload_applies] and [Daemon.hangup_is_restart], that
      a reload leaves what a restart would.
    - Of the mesh: [Mesh.mesh_delivers_once], that a message crosses each relay
      at most once, whatever cycles the links form, and has reached everything
      it can reach once the mesh is quiet.
    - Of delivery: [BrokerSpec.subscription_receives_every_match] over any
      history of operations; [Publishing.overlapping_publishes_deliver] when
      publishes overlap; [TopicChannel.channel_no_gap_no_duplicate] at the seam
      of backlog and channel; [Forwarder.forwarder_stream_exact] through lags;
      [Writer.reader_gets_what_was_sent] on the wire;
      [Acknowledged.delivered_at_least_once], the books of an acknowledging
      subscription, and of a single delivery
      [Redelivery.unacked_delivery_resent_exactly]; the groups' and the sweeps'
      theorems, that nothing handed out is lost without being counted or
      dead-lettered, and that dead-lettering ends;
      [Persistence.persisted_log_reloads] across a restart.
    - Of access: [Handlers.publish_gate], [Subscribing.subscribe_gate],
      [Subscribing.unsubscribe_gate], [Handlers.reconcile_leaves_permitted],
      [LinkUp.hello_gate], [Serve.tls_connections_vouched],
      [Serve.dialed_peer_admitted], [Tls.tls_build_identity],
      [TopicAcl.topic_acl_parse_spec], [RateLimit.rate_limit_isolates],
      [MetricsServer.scrape_needs_token].
    - Of the small components: refinement of an abstract specification
      ([Interest], [Membership], [PeerDirectory], [SeenIds], [Filter]), round
      trips ([Framing], [Handshake], [Metrics], [Fingerprint]) and bounds
      ([Framing], [Peering], [Groups], [TopicMap]).
    - Of the client: [Client.raw_output_is_the_payloads],
      [Client.request_gets_its_reply], [ClientRun.publish_command].

    Some theorems are counterexamples, where the code does less than its
    comments say: [ConnectionSpec.sweep_in_between_loses_interest],
    [Handlers.failed_ack_leaks_interest],
    [LinkUp.second_hello_leaves_first_connected],
    [TopicMap.full_live_map_orphans_newcomer],
    [Forwarder.wildcard_lag_recovery_repeats], [Reload.reload_misses_a_link],
    [Peering.timed_out_dial_resets_backoff], [Peering.slot_wait_resets_backoff],
    [Peering.first_retry_after_one_second], [Mesh.mutual_interest_survives],
    [Tls.ipv6_host_keeps_its_brackets], [Startup.late_rehydration_goes_back],
    [Restart.overlap_changes_on_restart].

    ** Modelling choices

    - Concurrency. A method of [Broker] is one step; its longest, [publish],
      gives way at its locks and while the store writes, and [Publishing] has it
      section by section, which is how a connection's handler runs it. The
      publishes of dead letters, of the sweeps and of [Mesh] are one step. A
      handler of a connection is a [Proc]: a list of sections, each one critical
      section or a run of operations on what only its task owns, and the
      scheduler of [Async] interleaves sections of any tasks. A forwarder's
      [task_step] goes from one [await] to the next: to read, to subscribe again
      after a lag, to send, to record a position, to sweep and to dead-letter
      one message are steps of their own.
    - Reading. A receiver is the list of what was sent to it and it has not read
      ([BrokerSpec.queue]). tokio keeps only as much of that as the channel
      holds: a read of a longer list answers [Lagged] and cuts it to that, as
      [BrokerSpec.answers] has it.
    - Writing. What a connection's socket answers to a write is a parameter of
      [Writer], [Framing] and [Client]; [Delivery] and the conversations of
      [Client] are about sockets that take what is written,
      [ClientRun.publish_command] about any.
    - Sharing. An [Arc], a channel, a [JoinHandle] or a [Notify] is an index
      into a heap of the state that holds it. A dropped one stays in the heap.
    - Maps. A [HashMap] is a [gmap]; where the code iterates over one, the order
      is that of [map_to_list], and no theorem depends on it. Queues and rings
      are lists, oldest first.
    - Numbers. Counters are 64-bit and wrap; lengths that the code bounds are
      [nat]; [f64] is the standard's binary64 ([SpecFloat]); an [Instant] and a
      [Duration] are whole nanoseconds.
    - Failure. A [Result] is [Result], a panic is a value of its own where the
      code can meet one, and what an [io::Error] says is kept as a structured
      value where its text is composed.
    - Code outside [src/]. The CBOR codec, SQLite's failures, the TOML parser,
      rustls and its PEM parser, SHA-256, the [uuid] crate's generator and tokio's
      broadcast channel are parameters, with named laws where a theorem relies
      on them; each has a small reference instance, at which the witnesses
      evaluate.

    ** Fuel

    Loops that are not structural take fuel, bounded by the length of what they
    consume: [Filter.matches_loop] (segments of the filter,
    [Filter.matches_loop_segments]), [Framing.read_frames] (bytes,
    [Framing.read_frames_ok]), [Client.drain] and [Client.recv_until] (bytes
    left on the connection, [Client.drain_total], [Client.recv_until_total]),
    [MetricsServer.read_headers] (bytes left in the request,
    [MetricsServer.read_headers_total]) and [Metrics.digits] (decimal digits
    of 64 bits). The totality lemmas show that this is enough. The read loop of
    a connection and the loops of the background tasks do not end by
    themselves: they are step relations.

    ** Not modelled

    Binding, the listener's [accept] and the TCP connect, which are the
    operating system's: what they answer is an argument. The verification of a
    certificate chain and the TLS records, which are rustls's. The list of join
    handles a node spawned for tests collects, clap's parsing of the command
    line and its shell completions, the installation of signal handlers and
    tracing. The [Debug] instances. Tests, the benchmark example and packaging. *)

From stdpp Require Export base tactics decidable option list list_numbers gmap sets fin_maps countable numbers sorting.
From Stdlib Require Export ZArith Lia.

(** ** Notations *)

Declare Scope thoth_scope.
Delimit Scope thoth_scope with thoth.

(** ** The state monad of the effectful code *)

Definition ST (S A : Type) : Type := S → A * S.

#[export] Instance ST_ret S : MRet (ST S) := λ A a s, (a, s).
#[export] Instance ST_bind S : MBind (ST S) := λ A B f m s, let '(a, s') := m s in f a s'.

Definition get_st {S} : ST S S := λ s, (s, s).
Definition put_st {S} (s' : S) : ST S () := λ _, ((), s').
Definition modify {S} (f : S → S) : ST S () := λ s, ((), f s).
Definition gets {S A} (f : S → A) : ST S A := λ s, (f s, s).

Lemma st_bind {S A B} (m : ST S A) (f : A → ST S B) s : (m ≫= f) s = f (m s).1 (m s).2.
Proof. unfold mbind, ST_bind. by destruct (m s). Qed.

(** A loop over a list whose body runs in the state monad ([for x in l]). *)
Fixpoint for_each {S A} (l : list A) (f : A → ST S ()) : ST S () :=
  match l with
  | [] => mret ()
  | x :: l' => λ s, for_each l' f (f x s).2
  end.

Lemma for_each_inv {S A} (P : S → Prop) (f : A → ST S ()) l s :
  (∀ x s, P s → P (f x s).2) → P s → P (for_each l f s).2.
Proof. intros Hf. revert s; induction l as [|x l IH]; intros s Hs; [done|]. cbn. by apply IH, Hf. Qed.

(** ** Machine integers: the [AtomicU64] counters wrap *)

Definition fetch_add (n c : Z) : Z := ((c + n) `mod` 2 ^ 64)%Z.

(** ** Results, as Rust has them *)

Inductive Result (A E : Type) : Type :=
| Ok (a : A)
| Err (e : E).
Arguments Ok {A E} a.
Arguments Err {A E} e.

Definition is_ok {A E} (r : Result A E) : bool :=
  match r with Ok _ => true | Err _ => false end.

Lemma is_ok_true {A E} (r : Result A E) : is_ok r = true → ∃ a, r = Ok a.
Proof. destruct r as [a|e]; [by exists a|done]. Qed.

(** [Option::unwrap_or]. *)
Definition unwrap_or {A} (d : A) (o : option A) : A :=
  match o with Some a => a | None => d end.

(** [Result::map_err] and the [?] operator. *)
Definition map_err {A E F} (f : E → F) (r : Result A E) : Result A F :=
  match r with Ok a => Ok a | Err e => Err (f e) end.
Definition and_then {A B E} (r : Result A E) (f : A → Result B E) : Result B E :=
  match r with Ok a => f a | Err e => Err e end.

Notation "'let?' x ':=' r 'in' k" := (and_then r (λ x, k))
  (at level 10, x pattern, r at level 100, k at level 200) : thoth_scope.
Open Scope thoth_scope.

(** The development's hint database: preservation of the containers' shape. *)
Create HintDb thoth.

(** ** Tactics of the development *)

(** Case analysis on the matches and ifs of the goal, with equations, then the
    library's simplification. *)
Ltac case_goal :=
  repeat (case_match; simplify_eq/=; try done).

(** Turn boolean tests of the context and the goal into propositions. *)
Ltac to_prop :=
  do 2 rewrite ?andb_true_iff, ?andb_false_iff, ?orb_true_iff, ?orb_false_iff, ?negb_true_iff,
    ?negb_false_iff in *;
  rewrite ?bool_decide_eq_true, ?bool_decide_eq_false, ?Nat.ltb_lt, ?Nat.ltb_ge, ?Nat.leb_le,
    ?Nat.leb_gt, ?Nat.eqb_eq, ?Nat.eqb_neq, ?Z.ltb_lt, ?Z.ltb_ge, ?Z.leb_le, ?Z.leb_gt, ?Z.eqb_eq,
    ?Z.eqb_neq in *.

(** ** Lists: [Iterator::position], [VecDeque::remove], [Vec::retain] *)

Section lists.
Context {A : Type}.
Implicit Types (p : A → bool) (l : list A) (x : A).

Fixpoint position p l : option nat :=
  match l with
  | [] => None
  | x :: l' => if p x then Some 0 else S <$> position p l'
  end.

(** [Vec::retain] keeps the elements satisfying the predicate. *)
Fixpoint retain p l : list A :=
  match l with
  | [] => []
  | x :: l' => if p x then x :: retain p l' else retain p l'
  end.

Lemma position_Some p l i :
  position p l = Some i →
  ∃ x, l !! i = Some x ∧ p x = true ∧ ∀ j y, l !! j = Some y → j < i → p y = false.
Proof.
  revert i; induction l as [|x l IH]; intros i; simpl; [done|].
  destruct (p x) eqn:Hp; intros Hi; simplify_eq.
  - exists x; split_and!; [done..|]. intros; lia.
  - destruct (position p l) as [k|]; simplify_eq/=.
    destruct (IH k eq_refl) as (y & ? & ? & Hmin). exists y; split_and!; [done..|].
    intros [|j] z Hz Hj; simplify_eq/=; [done|]. apply (Hmin j); [done|lia].
Qed.

Lemma position_None p l x : position p l = None → x ∈ l → p x = false.
Proof.
  induction l as [|y l IH]; simpl; [intros _ ?%not_elem_of_nil; done|].
  destruct (p y) eqn:Hp; [done|]. destruct (position p l); [done|].
  intros _ [->|?]%elem_of_cons; auto.
Qed.

Lemma position_is_Some p l x : x ∈ l → p x = true → is_Some (position p l).
Proof.
  intros Hx Hp. destruct (position p l) eqn:E; [eauto|].
  pose proof (position_None p l x E Hx). congruence.
Qed.

Lemma position_all_false p l : (∀ x, x ∈ l → p x = false) → position p l = None.
Proof.
  intros H. destruct (position p l) as [i|] eqn:E; [|done].
  destruct (position_Some _ _ _ E) as (x & Hx%list_elem_of_lookup_2 & Hp & _).
  apply H in Hx. congruence.
Qed.

Lemma position_app_l p l k i : position p l = Some i → position p (l ++ k) = Some i.
Proof.
  revert i; induction l as [|x l IH]; intros i; simpl; [done|].
  destruct (p x); [done|]. destruct (position p l) as [j|]; simpl; [|done].
  intros [= <-]. by rewrite (IH j).
Qed.

Lemma position_app_r p l k :
  position p l = None → position p (l ++ k) = (λ i, length l + i) <$> position p k.
Proof.
  induction l as [|x l IH]; simpl; intros H; [by destruct (position p k)|].
  destruct (p x); [done|]. destruct (position p l); [done|].
  rewrite IH by done. by destruct (position p k).
Qed.

Lemma elem_of_retain p l x : x ∈ retain p l ↔ x ∈ l ∧ p x = true.
Proof.
  induction l as [|y l IH]; simpl; [set_solver|].
  destruct (p y) eqn:Hp; rewrite ?elem_of_cons, IH; intuition congruence.
Qed.

Lemma NoDup_retain p l : NoDup l → NoDup (retain p l).
Proof.
  induction 1 as [|y l Hy Hl IH]; simpl; [constructor|].
  destruct (p y); [|done]. constructor; [|done]. rewrite elem_of_retain. tauto.
Qed.

Lemma length_retain p l : length (retain p l) ≤ length l.
Proof. induction l as [|y l IH]; simpl; [lia|]. destruct (p y); simpl; lia. Qed.

Lemma retain_all p l : (∀ x, x ∈ l → p x = true) → retain p l = l.
Proof.
  induction l as [|y l IH]; simpl; intros H; [done|].
  rewrite (H y), IH; [done|..]; intros; try apply H; set_solver.
Qed.

Lemma retain_app p l k : retain p (l ++ k) = retain p l ++ retain p k.
Proof. induction l as [|y l IH]; simpl; [done|]. rewrite IH. by destruct (p y). Qed.

Lemma NoDup_fmap_filter {X Y} (f : X → Y) (p : X → bool) (l : list X) : NoDup (f <$> l) → NoDup (f <$> List.filter p l).
Proof.
  induction l as [|x l IH]; [done|]. rewrite fmap_cons. intros [Hx Hl]%NoDup_cons. cbn. destruct (p x); [|by apply IH].
  rewrite fmap_cons. constructor; [|by apply IH]. intros (y & Hy & Hin)%list_elem_of_fmap. apply Hx. rewrite Hy. apply list_elem_of_fmap_2.
  rewrite list_elem_of_In in Hin |- *. by apply List.filter_In in Hin as [? _].
Qed.

Lemma NoDup_delete l i : NoDup l → NoDup (delete i l).
Proof. intros Hl. eapply sublist_NoDup; [exact Hl|apply sublist_delete]. Qed.

Lemma elem_of_delete_NoDup l i x y :
  NoDup l → l !! i = Some x → y ∈ delete i l ↔ y ∈ l ∧ y ≠ x.
Proof.
  revert i; induction l as [|z l IH]; intros i Hl Hi; [done|].
  inversion Hl as [|? ? Hz Hl']; subst. destruct i as [|i]; simplify_eq/=.
  - set_solver.
  - apply list_elem_of_lookup_2 in Hi as Hx. rewrite !elem_of_cons, (IH i) by done.
    intuition congruence.
Qed.
End lists.

#[export] Hint Resolve NoDup_delete NoDup_retain : thoth.

(** ** The last [n] elements of a list: what a bounded queue keeps *)

Section window.
Context {A : Type}.
Implicit Types (l : list A).

Definition window (n : nat) l : list A := drop (length l - n) l.

Lemma length_window n l : length (window n l) = length l `min` n.
Proof. unfold window. rewrite length_drop. lia. Qed.

Lemma window_all n l : length l ≤ n → window n l = l.
Proof. intros. unfold window. replace (length l - n) with 0 by lia. done. Qed.

Lemma window_sublist n l : sublist (window n l) l.
Proof. apply sublist_drop. Qed.

Lemma elem_of_window n l x : x ∈ window n l → x ∈ l.
Proof.
  intros Hx. rewrite <-(take_drop (length l - n) l), elem_of_app. auto.
Qed.

Lemma window_suffix n l : ∃ k, l = k ++ window n l.
Proof. exists (take (length l - n) l). symmetry. apply take_drop. Qed.

(** Pushing on the kept part and cutting again is pushing on the whole. *)
Lemma window_app n l k : window n (window n l ++ k) = window n (l ++ k).
Proof.
  unfold window. rewrite !length_app, length_drop.
  destruct (decide (length l ≤ n)).
  { replace (length l - n) with 0 by lia. rewrite drop_0, Nat.sub_0_r. done. }
  replace (drop (length l - n) l ++ k) with (drop (length l - n) (l ++ k))
    by by rewrite drop_app_le by lia.
  rewrite drop_drop. f_equal. lia.
Qed.

(** The way the queues do it: push, then pop the front once over [n]. *)
Lemma window_push n l x :
  length l ≤ n → (if n <? length (l ++ [x]) then tail (l ++ [x]) else l ++ [x]) = window n (l ++ [x]).
Proof.
  intros Hl. unfold window. rewrite length_app. simpl.
  destruct (Nat.ltb_spec n (length l + 1)).
  - replace (length l + 1 - n) with 1 by lia. by destruct (l ++ [x]).
  - replace (length l + 1 - n) with 0 by lia. done.
Qed.
End window.

(** ** [sort_by_key]: a stable sort on an integer key *)

Section sort_by_key.
Context {A : Type} (key : A → Z).

Fixpoint insert_by_key (x : A) (l : list A) : list A :=
  match l with
  | [] => [x]
  | y :: l' => if (key x <=? key y)%Z then x :: l else y :: insert_by_key x l'
  end.

Fixpoint sort_by_key (l : list A) : list A :=
  match l with
  | [] => []
  | x :: l' => insert_by_key x (sort_by_key l')
  end.

Definition key_le (x y : A) : Prop := (key x ≤ key y)%Z.

Lemma insert_by_key_perm x l : insert_by_key x l ≡ₚ x :: l.
Proof.
  induction l as [|y l IH]; simpl; [done|]. case_match; [done|]. rewrite IH. constructor.
Qed.

Lemma sort_by_key_perm l : sort_by_key l ≡ₚ l.
Proof. induction l as [|x l IH]; simpl; [done|]. by rewrite insert_by_key_perm, IH. Qed.

Lemma elem_of_sort_by_key x l : x ∈ sort_by_key l ↔ x ∈ l.
Proof. by rewrite sort_by_key_perm. Qed.

Lemma insert_by_key_sorted x l :
  StronglySorted key_le l → StronglySorted key_le (insert_by_key x l).
Proof.
  induction 1 as [|y l Hl IH Hy]; simpl; [repeat constructor|].
  destruct (key x <=? key y)%Z eqn:E; to_prop.
  - constructor; [by constructor|]. constructor; [done|].
    eapply Forall_impl; [exact Hy|]. unfold key_le; intros; lia.
  - constructor; [done|]. rewrite insert_by_key_perm. constructor; [unfold key_le; lia|done].
Qed.

Lemma sort_by_key_sorted l : StronglySorted key_le (sort_by_key l).
Proof. induction l; simpl; [constructor|]. by apply insert_by_key_sorted. Qed.

(** A list already in order is left alone. *)
Lemma sort_by_key_id l : StronglySorted key_le l → sort_by_key l = l.
Proof.
  induction 1 as [|x l Hl IH Hx]; simpl; [done|]. rewrite IH.
  destruct l as [|y l]; simpl; [done|]. inversion Hx; subst. unfold key_le in *.
  destruct (key x <=? key y)%Z eqn:E; to_prop; [done|lia].
Qed.
End sort_by_key.
#[export] Hint Resolve sort_by_key_sorted : thoth.

(** ** Big-endian bytes of a fixed width *)

Section big_endian.
Local Open Scope Z_scope.

(** The [n] low bytes of [z], most significant first. *)
Fixpoint be_split (n : nat) (z : Z) : list Z :=
  match n with
  | O => []
  | S n' => be_split n' (Z.shiftr z 8) ++ [Z.land z 255]
  end.

Definition be_combine (l : list Z) : Z :=
  fold_left (λ acc b, Z.lor (Z.shiftl acc 8) b) l 0.

Definition is_byte (b : Z) : Prop := 0 ≤ b < 256.

Lemma land_255 z : Z.land z 255 = z `mod` 256.
Proof. change 255 with (Z.ones 8). by rewrite Z.land_ones. Qed.

Lemma length_be_split n z : length (be_split n z) = n.
Proof.
  revert z; induction n as [|n IH]; intros z; simpl; [done|].
  rewrite length_app, IH. simpl; lia.
Qed.

Lemma be_split_bytes n z : Forall is_byte (be_split n z).
Proof.
  revert z; induction n as [|n IH]; intros z; simpl; [constructor|].
  apply Forall_app; split; [apply IH|]. repeat constructor; unfold is_byte.
  all: rewrite land_255; apply Z.mod_pos_bound; lia.
Qed.

Lemma be_combine_app l b : be_combine (l ++ [b]) = Z.lor (Z.shiftl (be_combine l) 8) b.
Proof. unfold be_combine. by rewrite fold_left_app. Qed.

Lemma shiftl_lor_add a b : is_byte b → Z.lor (Z.shiftl a 8) b = a * 256 + b.
Proof.
  intros Hb. rewrite Z.shiftl_mul_pow2 by lia. change (2 ^ 8) with 256.
  rewrite <-Z.lxor_lor, <-Z.add_nocarry_lxor; [done|..].
  all: apply Z.bits_inj'; intros n Hn; rewrite Z.land_spec, Z.bits_0;
    destruct (decide (n < 8)).
  1,3: replace (a * 256) with (a * 2 ^ 8) by lia; by rewrite Z.mul_pow2_bits_low.
  all: rewrite (Z.bits_above_log2 b); [apply andb_false_r|unfold is_byte in *; lia|].
  all: destruct (decide (b = 0)) as [->|]; [simpl; lia|].
  all: apply Z.lt_le_trans with 8; [|lia]; apply Z.log2_lt_pow2; unfold is_byte in *; lia.
Qed.

Lemma be_combine_split n z : be_combine (be_split n z) = z `mod` 2 ^ (8 * Z.of_nat n).
Proof.
  revert z; induction n as [|n IH]; intros z; simpl be_split.
  { by rewrite Z.mod_1_r. }
  rewrite be_combine_app, IH, shiftl_lor_add.
  2:{ pose proof (be_split_bytes 1 z) as H. by inversion H. }
  rewrite Z.shiftr_div_pow2, land_255 by lia.
  replace (8 * Z.of_nat (S n)) with (8 + 8 * Z.of_nat n) by lia.
  rewrite Z.pow_add_r, Z.rem_mul_r by lia. change (2 ^ 8) with 256.
  rewrite Z.mul_comm, Z.add_comm. done.
Qed.

Lemma be_combine_bound l :
  Forall is_byte l → 0 ≤ be_combine l < 2 ^ (8 * Z.of_nat (length l)).
Proof.
  induction l as [|b l IH] using rev_ind; [by vm_compute|].
  intros [Hl Hb]%Forall_app. inversion Hb as [|? ? Hb']; subst. specialize (IH Hl).
  rewrite be_combine_app, shiftl_lor_add, length_app by done. simpl.
  replace (8 * Z.of_nat (length l + 1)) with (8 + 8 * Z.of_nat (length l)) by lia.
  rewrite Z.pow_add_r by lia. change (2 ^ 8) with 256. unfold is_byte in *. nia.
Qed.

Lemma be_split_combine l : Forall is_byte l → be_split (length l) (be_combine l) = l.
Proof.
  induction l as [|b l IH] using rev_ind; [done|].
  intros [Hl Hb]%Forall_app. inversion Hb as [|? ? Hb']; subst. specialize (IH Hl).
  rewrite be_combine_app, shiftl_lor_add, length_app by done.
  replace (length l + length [b])%nat with (S (length l)) by (simpl; lia). simpl.
  unfold is_byte in Hb'. rewrite Z.shiftr_div_pow2, land_255 by lia.
  change (2 ^ 8) with 256. f_equal; [|f_equal].
  - rewrite Z.div_add_l, Z.div_small, Z.add_0_r by lia. done.
  - rewrite Z.add_comm, Z.mod_add, Z.mod_small by lia; lia.
Qed.
End big_endian.
