(* ===== verification/Text.v ===== *)
(** * Rust text

    What the source uses of [char] and [str]. A [String] is its sequence of
    Unicode scalar values (the [chars()] view); [str_len] is its length in
    bytes, which is what Rust's [str::len] returns. Splitting at an ASCII
    separator, trimming and ASCII case folding act on that sequence. *)

From S2P Require Import Prelude.
From Stdlib Require Strings.String Strings.Ascii.
Export Strings.String.StringSyntax.

Abbreviation rchar := Z (only parsing).
Abbreviation rstr := (list Z) (only parsing).
Abbreviation bytes := (list Z) (only parsing).

(** A literal of the source as a Rust string. *)
Definition lit (s : String.string) : rstr :=
  (λ a, Z.of_N (Ascii.N_of_ascii a)) <$> String.list_ascii_of_string s.
Arguments lit s%_string_scope.

(** The number of bytes [c] takes in UTF-8. *)
Definition utf8_len (c : rchar) : nat :=
  if (c <? 0x80)%Z then 1 else if (c <? 0x800)%Z then 2
  else if (c <? 0x10000)%Z then 3 else 4.

Definition str_len (s : rstr) : nat := sum_list_with utf8_len s.

(** ** Character classes *)

Definition in_range (lo hi c : Z) : bool := (lo <=? c)%Z && (c <=? hi)%Z.

Definition is_ascii_digit (c : rchar) : bool := in_range 48 57 c.
Definition is_ascii_upper (c : rchar) : bool := in_range 65 90 c.
Definition is_ascii_lower (c : rchar) : bool := in_range 97 122 c.
Definition is_ascii_alphanumeric (c : rchar) : bool :=
  is_ascii_digit c || is_ascii_upper c || is_ascii_lower c.
Definition is_ascii_hexdigit (c : rchar) : bool :=
  is_ascii_digit c || in_range 65 70 c || in_range 97 102 c.

(** Unicode [White_Space], which is what [str::trim] strips. *)
Definition is_whitespace (c : rchar) : bool :=
  in_range 9 13 c || (c =? 32)%Z || (c =? 0x85)%Z || (c =? 0xA0)%Z || (c =? 0x1680)%Z
  || in_range 0x2000 0x200A c || (c =? 0x2028)%Z || (c =? 0x2029)%Z || (c =? 0x202F)%Z
  || (c =? 0x205F)%Z || (c =? 0x3000)%Z.

Definition to_ascii_lowercase (s : rstr) : rstr :=
  (λ c, if is_ascii_upper c then (c + 32)%Z else c) <$> s.
Definition eq_ignore_ascii_case (a b : rstr) : bool :=
  bool_decide (to_ascii_lowercase a = to_ascii_lowercase b).

Fixpoint trim_start (s : rstr) : rstr :=
  match s with
  | [] => []
  | c :: s' => if is_whitespace c then trim_start s' else s
  end.
Definition trim (s : rstr) : rstr := reverse (trim_start (reverse (trim_start s))).

(** ** [str::split] at one character, and its inverse *)

Fixpoint split_on (sep : rchar) (s : rstr) : list rstr :=
  match s with
  | [] => [[]]
  | c :: s' =>
      if (c =? sep)%Z then [] :: split_on sep s'
      else match split_on sep s' with
           | seg :: segs => (c :: seg) :: segs
           | [] => [[c]]
           end
  end.

Fixpoint join (sep : rstr) (segs : list rstr) : rstr :=
  match segs with
  | [] => []
  | [seg] => seg
  | seg :: segs' => seg ++ sep ++ join sep segs'
  end.

(** [str::cmp]: byte order, which for UTF-8 is the order of the scalar values. *)
Fixpoint str_leb (a b : rstr) : bool :=
  match a, b with
  | [], _ => true
  | _ :: _, [] => false
  | x :: a', y :: b' => (x <? y)%Z || ((x =? y)%Z && str_leb a' b')
  end.

(** ** Lemmas *)

Lemma split_on_not_nil sep s : split_on sep s ≠ [].
Proof. destruct s as [|c s]; simpl; [done|]. case_match; [done|]. by destruct (split_on sep s). Qed.

Lemma split_on_cons_ne sep c s :
  c ≠ sep → ∃ seg segs, split_on sep s = seg :: segs ∧ split_on sep (c :: s) = (c :: seg) :: segs.
Proof.
  intros Hc. simpl. destruct (split_on sep s) as [|seg segs] eqn:E.
  - by destruct (split_on_not_nil sep s).
  - exists seg, segs. split; [done|]. destruct (Z.eqb_spec c sep); done.
Qed.

Lemma join_split sep s : join [sep] (split_on sep s) = s.
Proof.
  induction s as [|c s IH]; [done|]. destruct (decide (c = sep)) as [->|Hc].
  - simpl. rewrite Z.eqb_refl. destruct (split_on sep s) as [|seg segs] eqn:E.
    + by destruct (split_on_not_nil sep s).
    + rewrite <-IH. done.
  - destruct (split_on_cons_ne sep c s Hc) as (seg & segs & E & ->). rewrite E in IH.
    destruct segs; simpl in *; by rewrite IH.
Qed.

Lemma split_on_no_sep sep s : Forall (λ seg, sep ∉ seg) (split_on sep s).
Proof.
  induction s as [|c s IH]; simpl; [repeat constructor; set_solver|].
  destruct (Z.eqb_spec c sep); [constructor; [set_solver|done]|].
  destruct (split_on sep s) as [|seg segs]; inversion IH; subst.
  - repeat constructor. set_solver.
  - constructor; [set_solver|done].
Qed.

Lemma split_on_single sep s : sep ∉ s → split_on sep s = [s].
Proof.
  induction s as [|c s IH]; intros Hs; [done|]. simpl.
  rewrite IH by set_solver. destruct (Z.eqb_spec c sep); set_solver.
Qed.

Lemma split_on_app sep s t : sep ∉ s → split_on sep (s ++ sep :: t) = s :: split_on sep t.
Proof.
  induction s as [|c s IH]; intros Hs; simpl; [by rewrite Z.eqb_refl|].
  rewrite IH by set_solver. destruct (Z.eqb_spec c sep); set_solver.
Qed.

Lemma split_join sep segs :
  segs ≠ [] → Forall (λ seg, sep ∉ seg) segs → split_on sep (join [sep] segs) = segs.
Proof.
  intros _H Hall. induction Hall as [|seg segs Hseg Hsegs IH]; [done|].
  destruct segs as [|seg' segs]; [by apply split_on_single|].
  change (split_on sep (seg ++ sep :: join [sep] (seg' :: segs)) = seg :: seg' :: segs).
  rewrite split_on_app by done. by rewrite IH.
Qed.

Lemma elem_of_split_char sep s seg c : seg ∈ split_on sep s → c ∈ seg → c ∈ s.
Proof.
  revert seg; induction s as [|d s IH]; intros seg; simpl.
  - intros ->%list_elem_of_singleton. done.
  - rewrite elem_of_cons. destruct (Z.eqb_spec d sep).
    + intros [->|Hseg]%elem_of_cons; [by intros ?%not_elem_of_nil|eauto].
    + destruct (split_on sep s) as [|seg' segs]; intros Hseg.
      * apply list_elem_of_singleton in Hseg as ->. intros ?%list_elem_of_singleton; auto.
      * apply elem_of_cons in Hseg as [->|Hseg]; [|eauto using list_elem_of_further].
        intros [->|?]%elem_of_cons; eauto using list_elem_of_here.
Qed.

Lemma str_len_app s t : str_len (s ++ t) = str_len s + str_len t.
Proof. unfold str_len. induction s as [|c s IH]; simpl; [done|]. rewrite IH. lia. Qed.

Lemma utf8_len_pos c : 1 ≤ utf8_len c.
Proof. unfold utf8_len. repeat case_match; lia. Qed.

Lemma str_len_ge_length s : length s ≤ str_len s.
Proof.
  unfold str_len. induction s as [|c s IH]; simpl; [lia|]. pose proof (utf8_len_pos c). lia.
Qed.

Lemma str_leb_trans a b c : str_leb a b = true → str_leb b c = true → str_leb a c = true.
Proof.
  revert b c; induction a as [|x a IH]; intros [|y b] [|z c]; try done. simpl. rewrite !orb_true_iff, !andb_true_iff.
  rewrite !Z.ltb_lt, !Z.eqb_eq. intros [?|[-> Hab]] [?|[-> Hbc]]; [left; lia|left; lia|left; lia|right].
  split; [done|]. by eapply IH.
Qed.

Lemma str_leb_antisym a b : str_leb a b = true → str_leb b a = true → a = b.
Proof.
  revert b; induction a as [|x a IH]; intros [|y b]; try done. simpl. rewrite !orb_true_iff, !andb_true_iff.
  rewrite !Z.ltb_lt, !Z.eqb_eq. intros [?|[-> Hab]] [?|[? Hba]]; try lia. f_equal. by apply IH.
Qed.

Lemma str_leb_total (a b : rstr) : str_leb a b = true ∨ str_leb b a = true.
Proof.
  revert b; induction a as [|x a IH]; intros [|y b]; simpl; auto.
  destruct (IH b); destruct (Z.lt_trichotomy x y) as [?|[->|?]];
    rewrite ?orb_true_iff, ?andb_true_iff, ?Z.ltb_lt, ?Z.eqb_eq; auto.
Qed.

Example split_lit : split_on 46 (lit "a.b..c") = [lit "a"; lit "b"; []; lit "c"].
Proof. reflexivity. Qed.
Example trim_lit : trim (lit "  a b ") = lit "a b".
Proof. reflexivity. Qed.
