(* ===== verification/Topic.v ===== *)
(** * Topic names ([thoth-mesh-core/src/topic.rs])

    A [Topic] wraps its string; [from_str] and [try_from] are its only
    constructors, so [wf] holds of every topic the program handles. *)

From S2P Require Import Prelude.
From S2P Require Import Text.

Definition MAX_TOPIC_LEN : nat := 256.

Record Topic := MkTopic { as_str : rstr }.

#[export] Instance Topic_eq_dec : EqDecision Topic.
Proof. solve_decision. Defined.
#[export] Instance Topic_countable : Countable Topic :=
  inj_countable' as_str MkTopic (λ '(MkTopic _), eq_refl).

(** [TopicError] of [error.rs]. *)
Inductive TopicError : Type :=
| Empty
| TooLong (len max : nat)
| InvalidChar (c : rchar).

(** [c.is_ascii_alphanumeric() || matches!(c, '.' | '-' | '_' | '/')] *)
Definition is_valid_topic_char (c : rchar) : bool :=
  is_ascii_alphanumeric c || (c =? 46)%Z || (c =? 45)%Z || (c =? 95)%Z || (c =? 47)%Z.

Definition validate (s : rstr) : Result () TopicError :=
  if bool_decide (s = []) then Err Empty
  else if MAX_TOPIC_LEN <? str_len s then Err (TooLong (str_len s) MAX_TOPIC_LEN)
  else match List.find (λ c, negb (is_valid_topic_char c)) s with
       | Some c => Err (InvalidChar c)
       | None => Ok ()
       end.

Definition from_str (s : rstr) : Result Topic TopicError :=
  let? _ := validate s in Ok (MkTopic s).

Definition try_from (s : rstr) : Result Topic TopicError :=
  let? _ := validate s in Ok (MkTopic s).

(** What every topic built by the constructors satisfies. *)
Definition wf (t : Topic) : Prop := validate (as_str t) = Ok ().

(** [validate] accepts exactly the non-empty strings of at most 256 bytes over
    the topic alphabet. *)
Lemma topic_validate_ok s :
  validate s = Ok () ↔
  s ≠ [] ∧ str_len s ≤ MAX_TOPIC_LEN ∧ ∀ c, c ∈ s → is_valid_topic_char c = true.
Proof.
  unfold validate. case_bool_decide; [naive_solver|].
  destruct (Nat.ltb_spec MAX_TOPIC_LEN (str_len s)).
  { split; [done|]. intros (_ & ? & _). lia. }
  destruct (List.find _ s) as [c|] eqn:E.
  - apply find_some in E as [Hin Hc]. split; [done|]. intros (_ & _ & Hall).
    apply list_elem_of_In, Hall in Hin. by rewrite Hin in Hc.
  - split; [|done]. intros _. split_and!; [done..|]. intros c Hc%list_elem_of_In.
    apply (find_none _ _ E), negb_false_iff in Hc. done.
Qed.

Lemma topic_from_str_ok s t : from_str s = Ok t ↔ t = MkTopic s ∧ wf t.
Proof.
  unfold from_str, wf. destruct (validate s) as [[]|e] eqn:E; simpl.
  - split; [intros [= <-]; done|]. by intros [-> _].
  - split; [done|]. intros [-> H]. simpl in H. congruence.
Qed.

Lemma sep_is_valid_topic_char : is_valid_topic_char 46 = true.
Proof. done. Qed.
