(* ===== verification/Filter.v ===== *)
(** * Topic filters ([thoth-mesh-core/src/filter.rs])

    A filter is a dot-separated list of segments; [+] stands for one segment
    and a final [#] for the rest. [matches] is the loop of the source over two
    indices; [covers] says what it computes. *)

From S2P Require Import Prelude.
From S2P Require Import Text.
From S2P Require Import Topic.

Definition SEGMENT_SEPARATOR : rchar := 46%Z.
Definition SINGLE_LEVEL_WILDCARD : rstr := lit "+".
Definition MULTI_LEVEL_WILDCARD : rstr := lit "#".

Record TopicFilter := MkFilter { as_str : rstr }.

#[export] Instance TopicFilter_eq_dec : EqDecision TopicFilter.
Proof. solve_decision. Defined.
#[export] Instance TopicFilter_countable : Countable TopicFilter :=
  inj_countable' as_str MkFilter (λ '(MkFilter _), eq_refl).

Inductive TopicFilterError : Type :=
| Empty
| TooLong (len max : nat)
| InvalidChar (c : rchar)
| MultiLevelWildcardNotLast.

Definition segments (s : rstr) : list rstr := split_on SEGMENT_SEPARATOR s.

Definition is_wildcard (seg : rstr) : bool :=
  bool_decide (seg = SINGLE_LEVEL_WILDCARD) || bool_decide (seg = MULTI_LEVEL_WILDCARD).

Definition is_literal (f : TopicFilter) : bool :=
  negb (existsb is_wildcard (segments (as_str f))).

(** [None] on a pattern. The [expect] of the source would also end here, were
    a literal filter ever not a topic: [as_topic_None] shows it never is. *)
Definition as_topic (f : TopicFilter) : option Topic :=
  if is_literal f then
    match Topic.from_str (as_str f) with
    | Ok t => Some t
    | Err _ => None
    end
  else None.

(** The [while fi < filter_segments.len()] loop; [fuel] bounds its iterations. *)
Fixpoint matches_loop (fuel : nat) (fs ts : list rstr) (fi ti : nat) : bool :=
  match fuel with
  | O => false
  | S fuel' =>
      match fs !! fi with
      | None => bool_decide (ti = length ts)
      | Some segment =>
          if bool_decide (segment = MULTI_LEVEL_WILDCARD) then true
          else match ts !! ti with
               | None => false
               | Some topic_segment =>
                   if negb (bool_decide (segment = SINGLE_LEVEL_WILDCARD))
                      && negb (bool_decide (segment = topic_segment))
                   then false
                   else matches_loop fuel' fs ts (S fi) (S ti)
               end
      end
  end.

Definition matches (f : TopicFilter) (t : Topic) : bool :=
  let fs := segments (as_str f) in
  let ts := segments (Topic.as_str t) in
  matches_loop (S (length fs)) fs ts 0 0.

(** The [for (i, segment) in segments.iter().enumerate()] loop of [validate]. *)
Fixpoint validate_segments (i last : nat) (segs : list rstr) : Result () TopicFilterError :=
  match segs with
  | [] => Ok ()
  | seg :: segs' =>
      if bool_decide (seg = MULTI_LEVEL_WILDCARD) then
        if negb (i =? last) then Err MultiLevelWildcardNotLast
        else validate_segments (S i) last segs'
      else if bool_decide (seg = SINGLE_LEVEL_WILDCARD) then validate_segments (S i) last segs'
      else match List.find (λ c, negb (is_valid_topic_char c)) seg with
           | Some c => Err (InvalidChar c)
           | None => validate_segments (S i) last segs'
           end
  end.

Definition validate (s : rstr) : Result () TopicFilterError :=
  if bool_decide (s = []) then Err Empty
  else if MAX_TOPIC_LEN <? str_len s then Err (TooLong (str_len s) MAX_TOPIC_LEN)
  else let segs := segments s in validate_segments 0 (length segs - 1) segs.

Definition from_topic (t : Topic) : TopicFilter := MkFilter (Topic.as_str t).

Definition from_str (s : rstr) : Result TopicFilter TopicFilterError :=
  let? _ := validate s in Ok (MkFilter s).

Definition try_from (s : rstr) : Result TopicFilter TopicFilterError :=
  let? _ := validate s in Ok (MkFilter s).

Definition wf (f : TopicFilter) : Prop := validate (as_str f) = Ok ().

(** ** What [validate] accepts *)

Definition literal_segment (seg : rstr) : Prop := ∀ c, c ∈ seg → is_valid_topic_char c = true.

Lemma find_invalid_None seg :
  List.find (λ c, negb (is_valid_topic_char c)) seg = None ↔ literal_segment seg.
Proof.
  split.
  - intros E c Hc%list_elem_of_In. by apply (find_none _ _ E), negb_false_iff in Hc.
  - intros Hall. destruct (List.find _ seg) as [c|] eqn:E; [|done].
    apply find_some in E as [Hin%list_elem_of_In Hc]. by rewrite (Hall c Hin) in Hc.
Qed.

Lemma multi_not_literal : ¬ literal_segment MULTI_LEVEL_WILDCARD.
Proof. intros Hl. specialize (Hl 35%Z (list_elem_of_here _ _)). done. Qed.

Lemma single_not_literal : ¬ literal_segment SINGLE_LEVEL_WILDCARD.
Proof. intros Hl. specialize (Hl 43%Z (list_elem_of_here _ _)). done. Qed.

(** What the loop asks of the segment at index [i]. *)
Definition segment_ok (i last : nat) (seg : rstr) : Prop :=
  (seg = MULTI_LEVEL_WILDCARD ∧ i = last) ∨ seg = SINGLE_LEVEL_WILDCARD ∨ literal_segment seg.

Lemma validate_segments_cons i last seg segs :
  validate_segments i last (seg :: segs) = Ok () ↔
  segment_ok i last seg ∧ validate_segments (S i) last segs = Ok ().
Proof.
  unfold segment_ok. simpl. case_bool_decide as Hm.
  { subst seg. destruct (Nat.eqb_spec i last); simpl; [tauto|].
    split; [done|]. intros [[[_ ?]|[?|?%multi_not_literal]] _]; done. }
  case_bool_decide as Hs; [tauto|].
  destruct (List.find _ seg) as [c|] eqn:E.
  - split; [done|]. intros [[[??]|[?|Hl%find_invalid_None]] _]; congruence.
  - apply find_invalid_None in E. tauto.
Qed.

Lemma validate_segments_ok i last segs :
  validate_segments i last segs = Ok () ↔
  ∀ j seg, segs !! j = Some seg → segment_ok (i + j) last seg.
Proof.
  revert i; induction segs as [|seg segs IH]; intros i; [done|].
  rewrite validate_segments_cons, IH. split.
  - intros [H0 Hr] [|j] x Hx; simplify_eq/=; [by rewrite Nat.add_0_r|].
    rewrite <-Nat.add_succ_comm. by apply Hr.
  - intros H. split; [specialize (H 0 seg eq_refl); by rewrite Nat.add_0_r in H|].
    intros j x Hx. rewrite Nat.add_succ_comm. by apply (H (S j)).
Qed.

Lemma filter_validate_ok s :
  validate s = Ok () ↔
  s ≠ [] ∧ str_len s ≤ MAX_TOPIC_LEN ∧ validate_segments 0 (length (segments s) - 1) (segments s) = Ok ().
Proof.
  unfold validate. case_bool_decide; [intuition congruence|].
  destruct (Nat.ltb_spec MAX_TOPIC_LEN (str_len s)); [|tauto].
  split; [done|]. intros (_ & ? & _). lia.
Qed.

Lemma filter_from_str_ok s f : from_str s = Ok f ↔ f = MkFilter s ∧ wf f.
Proof.
  unfold from_str, wf. destruct (validate s) as [[]|e] eqn:E; simpl.
  - split; [intros [= <-]; done|]. by intros [-> _].
  - split; [done|]. intros [-> H]. simpl in H. congruence.
Qed.

(** ** Literal filters are topics *)

Lemma is_literal_spec f :
  is_literal f = true ↔ ∀ seg, seg ∈ segments (as_str f) → is_wildcard seg = false.
Proof.
  unfold is_literal. rewrite negb_true_iff, <-not_true_iff_false, existsb_exists. unfold not. split.
  - intros H seg Hseg%list_elem_of_In. destruct (is_wildcard seg) eqn:E; [|done].
    exfalso. apply H. exists seg. done.
  - intros H (seg & Hseg%list_elem_of_In & Hw). rewrite H in Hw; done.
Qed.

Lemma is_wildcard_false seg :
  is_wildcard seg = false ↔ seg ≠ SINGLE_LEVEL_WILDCARD ∧ seg ≠ MULTI_LEVEL_WILDCARD.
Proof. unfold is_wildcard. to_prop. done. Qed.

Lemma wf_segment f j seg :
  wf f → segments (as_str f) !! j = Some seg →
  segment_ok j (length (segments (as_str f)) - 1) seg.
Proof. intros (_ & _ & H)%filter_validate_ok. by apply (proj1 (validate_segments_ok _ _ _) H). Qed.

Lemma elem_of_segments c s : c ∈ s → c = SEGMENT_SEPARATOR ∨ ∃ seg, seg ∈ segments s ∧ c ∈ seg.
Proof.
  unfold segments. induction s as [|d s IH]; [by intros ?%not_elem_of_nil|].
  destruct (decide (d = SEGMENT_SEPARATOR)) as [->|Hd].
  - intros [->|Hc]%elem_of_cons; [auto|]. simpl.
    destruct (IH Hc) as [?|(seg & ? & ?)]; eauto using list_elem_of_further.
  - destruct (split_on_cons_ne _ _ s Hd) as (seg & segs & E & ->). rewrite E in IH.
    intros [->|Hc]%elem_of_cons; [right; eauto using list_elem_of_here|].
    destruct (IH Hc) as [?|(seg' & [->|?]%elem_of_cons & ?)]; [auto|right..].
    + exists (d :: seg). eauto using list_elem_of_here, list_elem_of_further.
    + eauto using list_elem_of_further.
Qed.

Lemma literal_wf f : is_literal f = true → wf f → Topic.wf (MkTopic (as_str f)).
Proof.
  intros Hlit Hwf. pose proof (proj1 (filter_validate_ok _) Hwf) as (? & ? & _).
  apply Topic.topic_validate_ok; simpl. split_and!; [done..|]. intros c Hc.
  destruct (elem_of_segments c _ Hc) as [->|(seg & Hseg & Hcs)]; [done|].
  pose proof (proj1 (is_wildcard_false _) (proj1 (is_literal_spec f) Hlit _ Hseg)) as Hw.
  apply list_elem_of_lookup in Hseg as [j Hj].
  destruct (wf_segment f j seg Hwf Hj) as [[??]|[?|Hl]]; [tauto..|auto].
Qed.

Lemma topic_literal t : Topic.wf t → is_literal (from_topic t) = true.
Proof.
  intros (_ & _ & Hall)%Topic.topic_validate_ok. apply is_literal_spec.
  intros seg Hseg. apply is_wildcard_false. split; intros ->.
  - by specialize (Hall 43%Z (elem_of_split_char _ _ _ _ Hseg (list_elem_of_here _ _))).
  - by specialize (Hall 35%Z (elem_of_split_char _ _ _ _ Hseg (list_elem_of_here _ _))).
Qed.

Lemma topic_wf t : Topic.wf t → wf (from_topic t).
Proof.
  intros Hwf. pose proof (proj1 (Topic.topic_validate_ok _) Hwf) as (? & ? & Hall).
  apply filter_validate_ok. simpl. split_and!; [done..|].
  apply validate_segments_ok. intros j seg Hseg%list_elem_of_lookup_2. right; right.
  intros c Hc. eauto using elem_of_split_char.
Qed.

(** The conversions of the source: a filter without wildcards is a topic (its
    [expect] cannot fail), a topic is such a filter, and nothing is lost. *)
Lemma as_topic_literal f :
  wf f → as_topic f = if is_literal f then Some (MkTopic (as_str f)) else None.
Proof.
  intros Hwf. unfold as_topic. destruct (is_literal f) eqn:E; [|done].
  by rewrite (proj2 (Topic.topic_from_str_ok (as_str f) _) (conj eq_refl (literal_wf f E Hwf))).
Qed.

Lemma as_topic_from_topic t : Topic.wf t → as_topic (from_topic t) = Some t.
Proof.
  intros Hwf. rewrite as_topic_literal, topic_literal by auto using topic_wf.
  by destruct t.
Qed.

(** ** What [matches] computes *)

(** One filter segment accepts one topic segment. *)
Definition segment_accepts (fseg tseg : rstr) : Prop :=
  fseg = SINGLE_LEVEL_WILDCARD ∨ fseg = tseg.

(** The declarative reading of a filter: segment by segment, unless it ends in
    [#], which takes whatever (and possibly nothing) remains of the topic. *)
Definition covers (fs ts : list rstr) : Prop :=
  (MULTI_LEVEL_WILDCARD ∉ fs ∧ Forall2 segment_accepts fs ts)
  ∨ ∃ fs' ts' rest, fs = fs' ++ [MULTI_LEVEL_WILDCARD] ∧ ts = ts' ++ rest
      ∧ MULTI_LEVEL_WILDCARD ∉ fs' ∧ Forall2 segment_accepts fs' ts'.

(** The loop without its indices. *)
Fixpoint match_segments (fs ts : list rstr) : bool :=
  match fs, ts with
  | [], [] => true
  | [], _ :: _ => false
  | fseg :: fs', ts =>
      if bool_decide (fseg = MULTI_LEVEL_WILDCARD) then true
      else match ts with
           | [] => false
           | tseg :: ts' => bool_decide (segment_accepts fseg tseg) && match_segments fs' ts'
           end
  end.

Lemma matches_loop_segments fuel fs ts fi ti :
  length fs - fi < fuel → ti ≤ length ts →
  matches_loop fuel fs ts fi ti = match_segments (drop fi fs) (drop ti ts).
Proof.
  revert fi ti; induction fuel as [|fuel IH]; intros fi ti Hfuel Hti; [lia|]. simpl.
  destruct (fs !! fi) as [fseg|] eqn:Hf.
  - rewrite (drop_S fs fseg fi Hf). simpl. case_bool_decide as Hm; [done|].
    apply lookup_lt_Some in Hf. destruct (ts !! ti) as [tseg|] eqn:Ht.
    + rewrite (drop_S ts tseg ti Ht). apply lookup_lt_Some in Ht.
      rewrite <-IH by lia. unfold segment_accepts.
      repeat case_bool_decide; simpl; try tauto.
    + apply lookup_ge_None in Ht. by rewrite drop_ge.
  - apply lookup_ge_None in Hf. rewrite (drop_ge fs) by done. simpl.
    destruct (drop ti ts) as [|x l] eqn:Hd.
    + apply (f_equal length) in Hd. rewrite length_drop in Hd. simpl in Hd.
      apply bool_decide_eq_true. lia.
    + apply (f_equal length) in Hd. rewrite length_drop in Hd. simpl in Hd.
      apply bool_decide_eq_false. lia.
Qed.

(** A [#] can only be the last segment. *)
Definition multi_last (fs : list rstr) : Prop :=
  ∀ j, fs !! j = Some MULTI_LEVEL_WILDCARD → S j = length fs.

Lemma multi_last_tail f fs : multi_last (f :: fs) → multi_last fs.
Proof. intros H j Hj. specialize (H (S j) Hj). simpl in H. lia. Qed.

Lemma multi_last_head fs : multi_last (MULTI_LEVEL_WILDCARD :: fs) → fs = [].
Proof. intros H. specialize (H 0 eq_refl). destruct fs; simpl in H; [done|lia]. Qed.

Lemma match_segments_covers fs ts :
  multi_last fs → match_segments fs ts = true ↔ covers fs ts.
Proof.
  revert ts; induction fs as [|f fs IH]; intros ts Hfs.
  { unfold covers. destruct ts as [|t ts]; simpl; (split; [try done; left|]).
    - split; [apply not_elem_of_nil|constructor].
    - done.
    - intros [[_ H]|(fs' & ? & ? & H & _)]; [inversion H|by destruct fs']. }
  simpl. case_bool_decide as Hm.
  { subst f. apply multi_last_head in Hfs as ->. split; [|done]. intros _. right.
    exists [], [], ts. split_and!; [done..|apply not_elem_of_nil|constructor]. }
  specialize (IH (drop 1 ts) (multi_last_tail _ _ Hfs)).
  destruct ts as [|t ts]; simpl in *.
  - split; [done|]. intros [[_ H]|([|g fs'] & ts' & ? & H & Hts & _ & H')]; simplify_eq/=.
    + inversion H.
    + symmetry in Hts. apply app_eq_nil in Hts as [-> _]. inversion H'.
  - rewrite drop_0 in IH. rewrite andb_true_iff, bool_decide_eq_true, IH. unfold covers. split.
    + intros [Hacc [[Hn H]|(fs' & ts' & rest & -> & -> & Hn & H)]].
      * left. rewrite not_elem_of_cons. split; [done|by constructor].
      * right. exists (f :: fs'), (t :: ts'), rest. rewrite not_elem_of_cons.
        split_and!; [done..|by constructor].
    + intros [[Hn H]|([|g fs'] & [|t' ts'] & rest & Hf & Ht & Hn & H)]; simplify_eq/=.
      * inversion H; subst. apply not_elem_of_cons in Hn as [_ Hn]. auto.
      * inversion H.
      * inversion H; subst. apply not_elem_of_cons in Hn as [_ Hn].
        split; [done|right; eauto 8].
Qed.

Lemma wf_multi_last f : wf f → multi_last (segments (as_str f)).
Proof.
  intros Hwf j Hj. destruct (wf_segment f j _ Hwf Hj) as [[_ ->]|[?|?%multi_not_literal]]; [|done..].
  apply lookup_lt_Some in Hj. lia.
Qed.

Lemma matches_covers f t :
  wf f → matches f t = true ↔ covers (segments (as_str f)) (segments (Topic.as_str t)).
Proof.
  intros Hwf. unfold matches. rewrite matches_loop_segments by lia.
  rewrite !drop_0. apply match_segments_covers. by apply wf_multi_last.
Qed.

Lemma accepts_literal fs ts :
  (∀ seg, seg ∈ fs → is_wildcard seg = false) → Forall2 segment_accepts fs ts → fs = ts.
Proof.
  intros Hfs. induction 1 as [|f t fs ts Hft Hall IH]; [done|].
  destruct Hft as [->| ->].
  - by specialize (Hfs _ (list_elem_of_here _ _)).
  - f_equal. apply IH. intros. apply Hfs. by apply list_elem_of_further.
Qed.

Lemma accepts_refl fs : Forall2 segment_accepts fs fs.
Proof. apply Forall2_same_length_lookup. split; [done|]. intros; simplify_eq. by right. Qed.

(** A literal filter matches its own topic and no other. *)
Lemma matches_literal f t :
  wf f → is_literal f = true → matches f t = true ↔ Topic.as_str t = as_str f.
Proof.
  intros Hwf Hlit. rewrite matches_covers by done. pose proof (proj1 (is_literal_spec f) Hlit) as Hl.
  assert (MULTI_LEVEL_WILDCARD ∉ segments (as_str f)) as Hm.
  { intros Hin%Hl. done. }
  split.
  - intros [[_ H]|(fs' & ts' & rest & Hf & _)].
    + apply accepts_literal in H; [|done]. unfold segments in H.
      by rewrite <-(join_split SEGMENT_SEPARATOR (as_str f)), H, join_split.
    + destruct Hm. rewrite Hf. apply elem_of_app; right. apply list_elem_of_here.
  - intros Ht. left. rewrite Ht. split; [done|apply accepts_refl].
Qed.

(** ** The properties of filters *)

(** C31: a filter accepted by the parser matches a topic exactly when it
    covers it segment by segment, [+] standing for any one segment and a final
    [#] for any remainder, the empty one included. *)
Theorem matches_spec (s : rstr) (f : TopicFilter) (t : Topic) :
  from_str s = Ok f →
  matches f t = true ↔ covers (split_on SEGMENT_SEPARATOR s) (split_on SEGMENT_SEPARATOR (Topic.as_str t)).
Proof. intros [-> Hwf]%filter_from_str_ok. by apply matches_covers. Qed.

Lemma matches_spec_witness :
  from_str (lit "sensors.+.#") = Ok (MkFilter (lit "sensors.+.#"))
  ∧ covers [lit "sensors"; lit "+"; lit "#"] [lit "sensors"; lit "lab"].
Proof.
  split; [by vm_compute|].
  apply (matches_spec (lit "sensors.+.#") (MkFilter (lit "sensors.+.#")) (MkTopic (lit "sensors.lab")));
    by vm_compute.
Defined.

(** An accepted filter without wildcards is a topic (the [expect] of
    [as_topic] never fires) that converts back to it and is the only topic it
    matches; a pattern has no topic; and every topic is such a filter. *)
Theorem literal_filter_is_topic (s : rstr) (f : TopicFilter) :
  from_str s = Ok f →
  (is_literal f = false → as_topic f = None)
  ∧ (is_literal f = true → ∃ t, as_topic f = Some t ∧ Topic.from_str s = Ok t ∧ from_topic t = f
       ∧ ∀ t', matches f t' = true ↔ t' = t).
Proof.
  intros [-> Hwf]%filter_from_str_ok. rewrite as_topic_literal by done. split; intros Hlit; rewrite Hlit; [done|].
  exists (MkTopic s). split_and!; [done| |done|].
  - apply Topic.topic_from_str_ok. split; [done|]. by apply (literal_wf (MkFilter s)).
  - intros [s']. rewrite matches_literal by done. simpl. split; [by intros ->|by intros [= ->]].
Qed.

Lemma literal_filter_is_topic_witness :
  from_str (lit "a.b") = Ok (MkFilter (lit "a.b")) ∧ matches (MkFilter (lit "a.b")) (MkTopic (lit "a.c")) = false.
Proof.
  pose proof (literal_filter_is_topic (lit "a.b") (MkFilter (lit "a.b")) eq_refl) as [_ H].
  split; [by vm_compute|]. destruct (H eq_refl) as (t & Ht & _ & _ & Hm).
  injection Ht as <-. apply not_true_is_false. intros E%Hm. by vm_compute in E.
Defined.
