(* ===== verification/Runtime.v ===== *)
(** * The libraries the program runs on

    [tokio]'s channels and the [uuid] crate are not part of the repository.
    Each is a class of operations, the parameter of every definition that uses
    it, next to a class of laws that states the documented behaviour the code
    relies on. [Reference] has list-based operations that satisfy the laws. *)

From S2P Require Import Prelude.
From S2P Require Import Text.

(** An [std::io::Error], by its message. *)
Abbreviation io_error := rstr (only parsing).

(** ** The [uuid] crate

    [now_v7 n] is the [n]-th identifier the process draws. *)
Class Uuids := {
  now_v7 : nat → Z;
  from_custom_bytes : bytes → Z;
  uuid_timestamp : Type;
  get_timestamp : Z → option uuid_timestamp;
  to_unix : uuid_timestamp → Z * Z;
}.

(** The version nibble of a UUID: the high half of its byte 6. *)
Definition uuid_version (u : Z) : Z := Z.land (Z.shiftr u 76) 15.

Class UuidLaws `{Uuids} := {
  now_v7_range n : (0 ≤ now_v7 n < 2 ^ 128)%Z;
  now_v7_version n : uuid_version (now_v7 n) = 7%Z;
  now_v7_monotone n m : n < m → (Z.of_nat m < 2 ^ 48)%Z → (now_v7 n < now_v7 m)%Z;
  from_custom_bytes_range b :
    length b = 16 → Forall is_byte b → (0 ≤ from_custom_bytes b < 2 ^ 128)%Z;
  from_custom_bytes_version b :
    length b = 16 → Forall is_byte b → uuid_version (from_custom_bytes b) = 8%Z;
  get_timestamp_v7 u : uuid_version u = 7%Z → is_Some (get_timestamp u);
  get_timestamp_v8 u : uuid_version u = 8%Z → get_timestamp u = None;
}.

(** ** [tokio::sync::mpsc]

    The channels live in one store; a sender is the identity of its channel,
    which is what [Sender::same_channel] compares. [try_send] says whether the
    channel took the message: it does not when it is full or closed. *)
Class Mpsc (A : Type) := {
  mpsc_store : Type;
  try_send : nat → A → ST mpsc_store bool;
  is_closed : mpsc_store → nat → bool;
}.
Arguments mpsc_store A {_}.

(** [queued s c] is what [c] has accepted and not yet handed to its receiver. *)
Class MpscLaws (A : Type) `{Mpsc A} := {
  queued : mpsc_store A → nat → list A;
  try_send_accepted c a s s' :
    try_send c a s = (true, s') →
    is_closed s c = false ∧ queued s' c = queued s c ++ [a]
    ∧ (∀ c', c' ≠ c → queued s' c' = queued s c') ∧ (∀ c', is_closed s' c' = is_closed s c');
  try_send_refused c a s s' : try_send c a s = (false, s') → s' = s;
  (** One channel's room is not another's. *)
  try_send_room c a s s' c' b :
    try_send c a s = (true, s') → c' ≠ c → (try_send c' b s').1 = (try_send c' b s).1;
  (** [channel] takes no capacity below one. *)
  try_send_empty c a s : is_closed s c = false → queued s c = [] → (try_send c a s).1 = true;
}.

(** The receiving half: [recv] when something is there to be received, and the
    end of the [Receiver]. *)
Class MpscReceiver (A : Type) `{Mpsc A} := {
  take_next : nat → ST (mpsc_store A) (option A);
  close_receiver : nat → mpsc_store A → mpsc_store A;
}.

Class MpscReceiverLaws (A : Type) `{MpscReceiver A} `{!MpscLaws A} := {
  take_next_spec c s r s' :
    take_next c s = (r, s') →
    match queued s c with
    | [] => r = None ∧ s' = s
    | a :: q => r = Some a ∧ queued s' c = q ∧ (∀ c', c' ≠ c → queued s' c' = queued s c')
        ∧ ∀ c', is_closed s' c' = is_closed s c'
    end;
  close_receiver_spec c s :
    is_closed (close_receiver c s) c = true
    ∧ ∀ c', c' ≠ c → is_closed (close_receiver c s) c' = is_closed s c' ∧ queued (close_receiver c s) c' = queued s c';
}.

(** ** [tokio::sync::broadcast]

    [broadcast_channel] is the state a sender shares with its receivers;
    [send] answers how many receivers got the message, [None] being the
    [SendError] of a channel without receivers. *)
Inductive RecvResult (A : Type) : Type :=
| Received (a : A)
| Lagged (skipped : nat)
| Pending.
Arguments Received {A} a.
Arguments Lagged {A} skipped.
Arguments Pending {A}.

Class Broadcast (A : Type) := {
  broadcast_channel : Type;
  channel : nat → broadcast_channel;
  subscribe_receiver : ST broadcast_channel nat;
  receiver_count : broadcast_channel → nat;
  send : A → ST broadcast_channel (option nat);
  recv : nat → ST broadcast_channel (RecvResult A);
  drop_receiver : nat → broadcast_channel → broadcast_channel;
}.
Arguments broadcast_channel A {_}.

(** [unread b] maps each live receiver to what was sent since it subscribed
    and that it has neither read nor been told it lost. A receiver with more
    than the capacity unread is told how many it lost, the oldest ones. *)
Class BroadcastLaws (A : Type) `{Broadcast A} := {
  unread : broadcast_channel A → gmap nat (list A);
  capacity : broadcast_channel A → nat;
  channel_unread n : unread (channel n) = ∅;
  channel_capacity n : capacity (channel n) = n;
  subscribe_receiver_spec b r b' :
    subscribe_receiver b = (r, b') →
    unread b !! r = None ∧ unread b' = <[r := []]> (unread b) ∧ capacity b' = capacity b;
  receiver_count_spec b : receiver_count b = size (unread b);
  send_spec a b r b' :
    send a b = (r, b') →
    r = (if decide (unread b = ∅) then None else Some (size (unread b)))
    ∧ unread b' = (λ q, q ++ [a]) <$> unread b ∧ capacity b' = capacity b;
  recv_spec i q b r b' :
    unread b !! i = Some q → recv i b = (r, b') →
    capacity b' = capacity b
    ∧ if decide (capacity b < length q)
      then r = Lagged (length q - capacity b)
           ∧ unread b' = <[i := drop (length q - capacity b) q]> (unread b)
      else match q with
           | [] => r = Pending ∧ b' = b
           | a :: q' => r = Received a ∧ unread b' = <[i := q']> (unread b)
           end;
  drop_receiver_spec i b :
    unread (drop_receiver i b) = delete i (unread b) ∧ capacity (drop_receiver i b) = capacity b;
}.

(** ** Operations that satisfy the laws

    Plain lists, for the witnesses: nothing else in the development depends on
    them. *)
Module Reference.

Definition ref_uuids : Uuids := {|
  now_v7 n := ((Z.of_nat n `mod` 2 ^ 48) * 2 ^ 80 + 7 * 2 ^ 76 + 2 ^ 63)%Z;
  from_custom_bytes b :=
    let z := be_combine b in (z / 2 ^ 80 * 2 ^ 80 + 8 * 2 ^ 76 + z `mod` 2 ^ 76)%Z;
  uuid_timestamp := Z;
  get_timestamp u := if (uuid_version u =? 7)%Z then Some (u / 2 ^ 80)%Z else None;
  to_unix ms := ((ms / 1000)%Z, (ms `mod` 1000 * 1000000)%Z);
|}.

Lemma version_of_parts hi v lo :
  (0 ≤ v < 16)%Z → (0 ≤ lo < 2 ^ 76)%Z → uuid_version (hi * 2 ^ 80 + v * 2 ^ 76 + lo) = v.
Proof.
  intros Hv Hlo. unfold uuid_version. rewrite Z.shiftr_div_pow2 by lia.
  change 15%Z with (Z.ones 4). rewrite Z.land_ones by lia.
  replace (hi * 2 ^ 80 + v * 2 ^ 76 + lo)%Z with ((hi * 16 + v) * 2 ^ 76 + lo)%Z by lia.
  rewrite Z.div_add_l, (Z.div_small lo), Z.add_0_r, Z.add_comm, Z.mod_add, Z.mod_small by lia. done.
Qed.

Lemma ref_uuid_laws : @UuidLaws ref_uuids.
Proof.
  split; cbn [now_v7 from_custom_bytes get_timestamp ref_uuids].
  - intros n. pose proof (Z.mod_pos_bound (Z.of_nat n) (2 ^ 48) ltac:(lia)). lia.
  - intros n. by apply version_of_parts.
  - intros n m Hnm Hm. rewrite !Z.mod_small by lia. lia.
  - intros b Hl Hb%be_combine_bound. rewrite Hl in Hb.
    pose proof (Z.mod_pos_bound (be_combine b) (2 ^ 76) ltac:(lia)).
    assert (be_combine b / 2 ^ 80 < 2 ^ 48)%Z by (apply Z.div_lt_upper_bound; lia).
    assert (0 ≤ be_combine b / 2 ^ 80)%Z by (apply Z.div_pos; lia). lia.
  - intros b _ _. apply version_of_parts; [lia|]. apply Z.mod_pos_bound. lia.
  - intros u Hu. rewrite Hu. by eexists.
  - intros u Hu. by rewrite Hu.
Qed.

(** A channel is its capacity, whether its receiver is gone, and its queue. *)
Record Chan (A : Type) := MkChan { chan_cap : nat; chan_closed : bool; chan_queue : list A }.
Arguments MkChan {A}.
Arguments chan_cap {A}.
Arguments chan_closed {A}.
Arguments chan_queue {A}.

Definition ref_mpsc (A : Type) : Mpsc A := {|
  mpsc_store := gmap nat (Chan A);
  try_send c a s :=
    match s !! c with
    | Some ch =>
        if negb (chan_closed ch) && (length (chan_queue ch) <? Nat.max 1 (chan_cap ch))
        then (true, <[c := MkChan (chan_cap ch) false (chan_queue ch ++ [a])]> s)
        else (false, s)
    | None => (false, s)
    end;
  is_closed s c := from_option chan_closed true (s !! c);
|}.

Program Definition ref_mpsc_laws (A : Type) : @MpscLaws A (ref_mpsc A) :=
  @Build_MpscLaws A (ref_mpsc A) (λ s c, from_option chan_queue [] (s !! c)) _ _ _ _.
Next Obligation.
  intros A c a s s'. simpl in *. destruct (s !! c) as [[cap cl q]|] eqn:E; simpl; [|done].
  destruct cl, (length q <? Nat.max 1 cap); intros; simplify_eq/=.
  split_and!; try done.
  - by rewrite lookup_insert_eq.
  - intros c' Hc. by rewrite lookup_insert_ne.
  - intros c'. destruct (decide (c = c')) as [->|]; [by rewrite lookup_insert_eq, E|].
    by rewrite lookup_insert_ne.
Qed.
Next Obligation. intros A c a s s'. simpl in *. repeat case_match; by intros [= <-]. Qed.
Next Obligation.
  intros A c a s s' c' b. simpl in *. destruct (s !! c) as [ch|]; [|done]. destruct (_ && _); [|done]. intros [= <-] Hc.
  rewrite lookup_insert_ne by done. destruct (s !! c') as [ch'|]; [|done]. by destruct (_ && _).
Qed.
Next Obligation.
  intros A c a s. simpl in *. destruct (s !! c) as [[cap cl q]|]; simpl; [|discriminate]. intros -> ->. cbn [length negb andb].
  destruct (Nat.ltb_spec 0 (Nat.max 1 cap)); [done|lia].
Qed.

Definition ref_mpsc_receiver (A : Type) : @MpscReceiver A (ref_mpsc A) := {|
  take_next c (s : mpsc_store A) :=
    match s !! c with
    | Some (MkChan cap cl (a :: q)) => (Some a, <[c := MkChan cap cl q]> s)
    | _ => (None, s)
    end;
  close_receiver c (s : mpsc_store A) := <[c := MkChan 0 true []]> s;
|}.

Program Definition ref_mpsc_receiver_laws (A : Type) :
    @MpscReceiverLaws A (ref_mpsc A) (ref_mpsc_receiver A) (ref_mpsc_laws A) :=
  @Build_MpscReceiverLaws A (ref_mpsc A) (ref_mpsc_receiver A) (ref_mpsc_laws A) _ _.
Next Obligation.
  intros A c s r s'. simpl in *. destruct (s !! c) as [[cap cl [|a q]]|] eqn:E; simpl; intros [= <- <-]; [done| |done].
  split; [done|]. rewrite lookup_insert_eq. split; [done|]. split; intros c'; [intros Hc; by rewrite lookup_insert_ne|].
  destruct (decide (c = c')) as [->|]; [by rewrite lookup_insert_eq, E|by rewrite lookup_insert_ne].
Qed.
Next Obligation.
  intros A c s. simpl in *. rewrite lookup_insert_eq. split; [done|]. intros c' Hc. by rewrite !lookup_insert_ne.
Qed.

Definition ref_broadcast (A : Type) : Broadcast A := {|
  broadcast_channel := nat * gmap nat (list A);
  channel n := (n, ∅);
  subscribe_receiver b := let r := fresh (dom b.2) in (r, (b.1, <[r := []]> b.2));
  receiver_count b := size b.2;
  send a b :=
    ((if decide (b.2 = ∅) then None else Some (size b.2)), (b.1, (λ q, q ++ [a]) <$> b.2));
  recv i b :=
    match b.2 !! i with
    | None | Some [] => (Pending, b)
    | Some (a :: q') =>
        let q := a :: q' in
        if decide (b.1 < length q)
        then (Lagged (length q - b.1), (b.1, <[i := drop (length q - b.1) q]> b.2))
        else (Received a, (b.1, <[i := q']> b.2))
    end;
  drop_receiver i b := (b.1, delete i b.2);
|}.

Program Definition ref_broadcast_laws (A : Type) : @BroadcastLaws A (ref_broadcast A) :=
  @Build_BroadcastLaws A (ref_broadcast A) snd fst _ _ _ _ _ _ _.
Next Obligation. done. Qed.
Next Obligation. done. Qed.
Next Obligation.
  intros A [n m] r b' [= <- <-]. simpl. split_and!; [|done..].
  apply not_elem_of_dom, is_fresh.
Qed.
Next Obligation. done. Qed.
Next Obligation. intros A a [n m] r b' [= <- <-]. done. Qed.
Next Obligation.
  intros A i q [n m] r b'; simpl. intros ->.
  destruct q as [|a q]; simpl.
  - by intros [= <- <-].
  - destruct (decide (n < S (length q))); by intros [= <- <-].
Qed.
Next Obligation. done. Qed.
End Reference.
