(* ===== verification/Message.v ===== *)
(** * Identities, messages and envelopes
      ([thoth-mesh-core/src/message.rs], [peer.rs], [envelope.rs])

    A UUID is its 16 bytes read as a big-endian 128-bit integer, so the derived
    order of [MessageId] (the lexicographic order of the bytes) is the order of
    the integers: [bytes_order]. *)

From S2P Require Import Prelude.
From S2P Require Import Text.
From S2P Require Import Topic.
From S2P Require Import Filter.
From S2P Require Import Runtime.

Abbreviation Topic := Topic.Topic (only parsing).
Abbreviation TopicFilter := Filter.TopicFilter (only parsing).

Module MessageId.
Record MessageId := MkMessageId { uuid : Z }.

#[export] Instance MessageId_eq_dec : EqDecision MessageId.
Proof. solve_decision. Defined.
#[export] Instance MessageId_countable : Countable MessageId :=
  inj_countable' uuid MkMessageId (λ '(MkMessageId _), eq_refl).

(** The [n]-th identifier drawn by the process. *)
Definition new `{Uuids} (n : nat) : MessageId := MkMessageId (now_v7 n).

(** Seconds and nanoseconds since the epoch. *)
Definition timestamp `{Uuids} (m : MessageId) : option (Z * Z) := option_map to_unix (get_timestamp (uuid m)).

Definition as_bytes (m : MessageId) : bytes := be_split 16 (uuid m).
Definition from_bytes (b : bytes) : MessageId := MkMessageId (be_combine b).

(** The derived [Ord]. *)
Definition leb (a b : MessageId) : bool := (uuid a <=? uuid b)%Z.
Definition ltb (a b : MessageId) : bool := (uuid a <? uuid b)%Z.

(** The 128 bits of a UUID. *)
Definition wf (m : MessageId) : Prop := (0 ≤ uuid m < 2 ^ 128)%Z.
End MessageId.
Export (hints) MessageId.
Abbreviation MessageId := MessageId.MessageId (only parsing).

Module PeerId.
Record PeerId := MkPeerId { uuid : Z }.

#[export] Instance PeerId_eq_dec : EqDecision PeerId.
Proof. solve_decision. Defined.
#[export] Instance PeerId_countable : Countable PeerId :=
  inj_countable' uuid MkPeerId (λ '(MkPeerId _), eq_refl).

Definition new `{Uuids} (n : nat) : PeerId := MkPeerId (now_v7 n).

(** The fingerprint's first 16 bytes, as a version 8 UUID. *)
Definition from_fingerprint `{Uuids} (fingerprint : bytes) : PeerId :=
  MkPeerId (from_custom_bytes (take 16 fingerprint)).

Definition as_bytes (p : PeerId) : bytes := be_split 16 (uuid p).
Definition from_bytes (b : bytes) : PeerId := MkPeerId (be_combine b).

Definition wf (p : PeerId) : Prop := (0 ≤ uuid p < 2 ^ 128)%Z.
End PeerId.
Export (hints) PeerId.
Abbreviation PeerId := PeerId.PeerId (only parsing).

Record PeerAdvert := MkPeerAdvert { advert_peer_id : PeerId; advert_listen_addr : rstr }.

Record PeerSummary := MkPeerSummary {
  summary_peer_id : PeerId;
  summary_listen_addr : option rstr;
}.

Record MetricsSummary := MkMetricsSummary {
  peers_connected : Z;
  messages_published : Z;
  forwarder_lag_total : Z;
  topic_acl_rejections_total : Z;
  metrics_auth_rejections_total : Z;
  peer_topic_acl_rejections_total : Z;
  replayed_messages_total : Z;
  lag_recovered_total : Z;
  topic_evictions_total : Z;
  pattern_evictions_total : Z;
  membership_evictions_total : Z;
  peer_directory_evictions_total : Z;
  redelivered_messages_total : Z;
  delivery_ack_timeouts_total : Z;
  persist_failures_total : Z;
  expired_messages_total : Z;
  dead_lettered_messages_total : Z;
  publish_rate_limit_rejections_total : Z;
  rate_limit_principal_evictions_total : Z;
}.

Record TopicSummary := MkTopicSummary {
  topic_summary_topic : Topic;
  topic_summary_subscribers : Z;
  topic_summary_messages_buffered : Z;
}.

Inductive MessageKind : Type :=
| Publish (topic : Topic) (payload : bytes) (retain : bool) (content_type : option rstr)
    (reply_to : option Topic) (in_reply_to : option MessageId)
| Subscribe (filter : TopicFilter) (ack : bool) (group : option rstr) (durable : bool)
| Unsubscribe (filter : TopicFilter)
| Ack (in_reply_to : MessageId)
| Error (in_reply_to : option MessageId) (message : rstr)
| Hello (listen_addr : option rstr)
| PeerAnnounce (peers : list PeerAdvert)
| StatusRequest
| StatusReply (in_reply_to : MessageId) (node_id : PeerId) (listen_addr : option rstr)
    (peers : list PeerSummary) (metrics : MetricsSummary)
| TopicsRequest
| TopicsReply (in_reply_to : MessageId) (topics : list TopicSummary).

(** ** Envelopes *)

Definition PROTOCOL_VERSION : Z := 1.

Record Envelope := MkEnvelope {
  version : Z;
  id : MessageId;
  sender : PeerId;
  kind : MessageKind;
}.

#[export] Instance MetricsSummary_eq_dec : EqDecision MetricsSummary.
Proof. solve_decision. Defined.
#[export] Instance PeerAdvert_eq_dec : EqDecision PeerAdvert.
Proof. solve_decision. Defined.
#[export] Instance PeerSummary_eq_dec : EqDecision PeerSummary.
Proof. solve_decision. Defined.
#[export] Instance TopicSummary_eq_dec : EqDecision TopicSummary.
Proof. solve_decision. Defined.
#[export] Instance MessageKind_eq_dec : EqDecision MessageKind.
Proof. solve_decision. Defined.
#[export] Instance Envelope_eq_dec : EqDecision Envelope.
Proof. solve_decision. Defined.

Module Envelope.
(** [n] is the index of the identifier [MessageId::new] draws. *)
Definition new `{Uuids} (n : nat) (sender : PeerId) (kind : MessageKind) : Envelope :=
  MkEnvelope PROTOCOL_VERSION (MessageId.new n) sender kind.

(** CBOR is [ciborium]'s: writing may fail, and so may reading what it did
    not write. *)
Section codec.
Context {CborError : Type}.
Context (into_writer : Envelope → Result bytes CborError).
Context (from_reader : bytes → Result Envelope CborError).

Definition to_bytes (e : Envelope) : Result bytes CborError :=
  let? b := into_writer e in Ok b.
Definition from_bytes (b : bytes) : Result Envelope CborError :=
  let? e := from_reader b in Ok e.
End codec.
End Envelope.

(** [matches!(kind, MessageKind::Publish { .. })], and its fields. *)
Definition publish_topic (k : MessageKind) : option Topic :=
  match k with Publish t _ _ _ _ _ => Some t | _ => None end.

(** ** Lemmas *)

(** An identifier that was drawn has a time in it. *)
Lemma timestamp_is_present `{UuidLaws} n : is_Some (MessageId.timestamp (MessageId.new n)).
Proof. unfold MessageId.timestamp, MessageId.new. cbn [MessageId.uuid]. destruct (get_timestamp_v7 (now_v7 n) (now_v7_version n)) as [t ->]. by eexists. Qed.

Lemma MessageId_from_as_bytes m : MessageId.wf m → MessageId.from_bytes (MessageId.as_bytes m) = m.
Proof.
  destruct m as [u]. unfold MessageId.wf, MessageId.from_bytes, MessageId.as_bytes; simpl MessageId.uuid.
  intros Hu. rewrite be_combine_split. f_equal. by apply Z.mod_small.
Qed.

Lemma MessageId_as_from_bytes b :
  length b = 16 → Forall is_byte b → MessageId.as_bytes (MessageId.from_bytes b) = b.
Proof. intros Hl Hb. unfold MessageId.as_bytes. simpl MessageId.uuid. rewrite <-Hl. by apply be_split_combine. Qed.

Lemma PeerId_from_as_bytes p : PeerId.wf p → PeerId.from_bytes (PeerId.as_bytes p) = p.
Proof.
  destruct p as [u]. unfold PeerId.wf, PeerId.from_bytes, PeerId.as_bytes; simpl PeerId.uuid.
  intros Hu. rewrite be_combine_split. f_equal. by apply Z.mod_small.
Qed.

Lemma MessageId_leb_refl m : MessageId.leb m m = true.
Proof. apply Z.leb_le. lia. Qed.

(** The lexicographic order of byte strings is the order of the integers they
    spell, at equal lengths. *)
Lemma be_combine_cons x l :
  Forall is_byte l → be_combine (x :: l) = (x * 2 ^ (8 * Z.of_nat (length l)) + be_combine l)%Z.
Proof.
  induction l as [|y l IH] using rev_ind; intros Hl.
  { unfold be_combine. cbn [fold_left]. rewrite Z.shiftl_0_l, Z.lor_0_l. cbn -[Z.mul]. lia. }
  apply Forall_app in Hl as [Hl Hy]. inversion Hy as [|? ? Hy']; subst.
  change (x :: l ++ [y]) with ((x :: l) ++ [y]).
  rewrite !be_combine_app, !shiftl_lor_add, IH, length_app by done. simpl length.
  replace (8 * Z.of_nat (length l + 1))%Z with (8 + 8 * Z.of_nat (length l))%Z by lia.
  rewrite Z.pow_add_r by lia. lia.
Qed.

Lemma str_leb_be_combine a b :
  length a = length b → Forall is_byte a → Forall is_byte b →
  str_leb a b = (be_combine a <=? be_combine b)%Z.
Proof.
  intros Hl Ha; revert b Hl; induction Ha as [|x a Hx Ha IH]; intros [|y b] Hl Hb; try done.
  inversion Hb as [|? ? Hy Hb']; subst. simpl in Hl. injection Hl as Hl.
  rewrite !be_combine_cons by done. rewrite <-Hl. simpl. rewrite (IH b) by done.
  pose proof (be_combine_bound a Ha) as Ba. pose proof (be_combine_bound b Hb') as Bb.
  rewrite <-Hl in Bb. set (w := (2 ^ (8 * Z.of_nat (length a)))%Z) in *.
  destruct (Z.ltb_spec x y), (Z.eqb_spec x y); simpl; apply eq_true_iff_eq;
    rewrite ?Z.leb_le; try nia.
Qed.

(** The byte form of well-formed identifiers orders as they do. *)
Lemma as_bytes_leb a b :
  MessageId.wf a → MessageId.wf b → str_leb (MessageId.as_bytes a) (MessageId.as_bytes b) = MessageId.leb a b.
Proof.
  intros Ha Hb. unfold MessageId.as_bytes, MessageId.wf in *.
  rewrite str_leb_be_combine by (rewrite ?length_be_split; auto using be_split_bytes).
  by rewrite !be_combine_split, !Z.mod_small.
Qed.

Lemma as_bytes_length m : length (MessageId.as_bytes m) = 16.
Proof. apply length_be_split. Qed.

Lemma new_ltb `{UuidLaws} n m :
  n < m → (Z.of_nat m < 2 ^ 48)%Z → MessageId.ltb (MessageId.new n) (MessageId.new m) = true.
Proof. intros. apply Z.ltb_lt, now_v7_monotone; done. Qed.

(** Concrete messages, for the witnesses. *)
Module Sample.
Definition peer (n : Z) : PeerId := PeerId.MkPeerId n.
Definition mid (n : Z) : MessageId := MessageId.MkMessageId n.
Definition topic (s : rstr) : Topic := Topic.MkTopic s.
Definition filter (s : rstr) : TopicFilter := Filter.MkFilter s.
Definition publish (n : Z) (t : rstr) (payload : bytes) (retain : bool) : Envelope :=
  MkEnvelope PROTOCOL_VERSION (mid n) (peer 1) (Publish (topic t) payload retain None None None).

(** A codec of a few envelopes: their numbers in a list. *)
Definition encode (l : list Envelope) (e : Envelope) : Result bytes () :=
  match position (λ x, bool_decide (x = e)) l with Some i => Ok [Z.of_nat i] | None => Err () end.
Definition decode (l : list Envelope) (b : bytes) : Result Envelope () :=
  match b with
  | [z] => match l !! Z.to_nat z with Some e => Ok e | None => Err () end
  | _ => Err ()
  end.

Lemma sample_codec l e b : encode l e = Ok b → decode l b = Ok e.
Proof.
  unfold encode. destruct (position _ l) as [i|] eqn:Hp; [|done]. intros [= <-]. unfold decode.
  apply position_Some in Hp as (x & Hx & Heq%bool_decide_eq_true & _). by rewrite Nat2Z.id, Hx, Heq.
Qed.
End Sample.

(** ** The properties of identities *)

(** The bytes of a [MessageId] compare as byte strings exactly as the
    identifiers do, they round-trip, and identifiers drawn later are greater:
    what a store that ranges over [as_bytes] keys relies on. *)
Theorem message_id_bytes_order `{UuidLaws} (a b : MessageId) (n m : nat) :
  MessageId.wf a → MessageId.wf b → n < m → (Z.of_nat m < 2 ^ 48)%Z →
  str_leb (MessageId.as_bytes a) (MessageId.as_bytes b) = MessageId.leb a b
  ∧ MessageId.from_bytes (MessageId.as_bytes a) = a
  ∧ str_leb (MessageId.as_bytes (MessageId.new m)) (MessageId.as_bytes (MessageId.new n)) = false.
Proof.
  intros Ha Hb Hnm Hm. split_and!; [by apply as_bytes_leb|by apply MessageId_from_as_bytes|].
  rewrite as_bytes_leb by apply now_v7_range. apply Z.leb_gt. by apply now_v7_monotone.
Qed.

Lemma message_id_bytes_order_witness :
  let U := Reference.ref_uuids in
  str_leb (MessageId.as_bytes (MessageId.MkMessageId 7)) (MessageId.as_bytes (MessageId.MkMessageId 256))
  = true.
Proof.
  intros U.
  destruct (@message_id_bytes_order U Reference.ref_uuid_laws (MessageId.MkMessageId 7)
    (MessageId.MkMessageId 256) 0 1) as [H _]; [split; simpl; lia..|lia|lia|].
  rewrite H. reflexivity.
Defined.

(** An identity derived from a certificate depends on the first
    16 bytes of its fingerprint only, is a version 8 UUID, survives its byte
    form, and is never one that a process drew for itself (version 7). *)
Theorem fingerprint_identity `{UuidLaws} (fp fp' : bytes) (n : nat) :
  length fp = 32 → Forall is_byte fp → take 16 fp = take 16 fp' →
  PeerId.from_fingerprint fp' = PeerId.from_fingerprint fp
  ∧ uuid_version (PeerId.uuid (PeerId.from_fingerprint fp)) = 8%Z
  ∧ PeerId.from_bytes (PeerId.as_bytes (PeerId.from_fingerprint fp)) = PeerId.from_fingerprint fp
  ∧ PeerId.from_fingerprint fp ≠ PeerId.new n.
Proof.
  intros Hl Hb Heq. unfold PeerId.from_fingerprint. rewrite <-Heq.
  assert (length (take 16 fp) = 16) as Hl16 by (rewrite length_take; lia).
  assert (Forall is_byte (take 16 fp)) as Hb16 by by apply Forall_take.
  split_and!; [done|by apply from_custom_bytes_version| |].
  - apply PeerId_from_as_bytes. by apply from_custom_bytes_range.
  - intros [= E]. pose proof (now_v7_version n) as H7.
    rewrite <-E, from_custom_bytes_version in H7; done.
Qed.

Lemma fingerprint_identity_witness :
  let U := Reference.ref_uuids in
  PeerId.from_fingerprint (replicate 32 171%Z) ≠ PeerId.new 5.
Proof.
  intros U.
  apply (@fingerprint_identity U Reference.ref_uuid_laws (replicate 32 171%Z) (replicate 32 171%Z) 5);
    [reflexivity| |reflexivity].
  repeat constructor; done.
Defined.
