(* ===== verification/Framing.v ===== *)
(** * Length-prefixed frames ([thoth-mesh-core/src/framing.rs], [async_framing.rs])

    Readers and writers are the [Read]/[Write] implementations the caller
    passes in: their operations are section variables, and the state they are
    left in is threaded. The last section instantiates them with the standard
    library's [Vec<u8>] and [&[u8]] and follows whole streams of frames. *)

From S2P Require Import Prelude.
From S2P Require Import Text.
From S2P Require Import Runtime.

Open Scope Z_scope.
Open Scope thoth_scope.

Definition MAX_FRAME_LEN : Z := 16 * 1024 * 1024.
Definition u32_MAX : Z := 2 ^ 32 - 1.

Inductive FramingError (IoError : Type) : Type :=
| Io (e : IoError)
| FrameTooLarge (len max : Z).
Arguments Io {IoError} e.
Arguments FrameTooLarge {IoError} len max.

(** [u32::try_from] *)
Definition u32_try_from (n : Z) : option Z := if n <=? u32_MAX then Some n else None.

Definition to_be_bytes (len : Z) : bytes := be_split 4 len.
Definition from_be_bytes (b : bytes) : Z := be_combine b.

Section framing.
Context {W R IoError : Type}.
Context (write_all : bytes → ST W (Result () IoError)).
Context (read_exact : nat → ST R (Result bytes IoError)).

Definition write_frame (payload : bytes) : ST W (Result () (FramingError IoError)) := λ w,
  match u32_try_from (Z.of_nat (length payload)) with
  | None => (Err (FrameTooLarge u32_MAX MAX_FRAME_LEN), w)
  | Some len =>
      if len >? MAX_FRAME_LEN then (Err (FrameTooLarge len MAX_FRAME_LEN), w)
      else match write_all (to_be_bytes len) w with
           | (Err e, w) => (Err (Io e), w)
           | (Ok _, w) =>
               match write_all payload w with
               | (Err e, w) => (Err (Io e), w)
               | (Ok _, w) => (Ok (), w)
               end
           end
  end.

Definition read_frame : ST R (Result bytes (FramingError IoError)) := λ r,
  match read_exact 4 r with
  | (Err e, r) => (Err (Io e), r)
  | (Ok len_bytes, r) =>
      let len := from_be_bytes len_bytes in
      if len >? MAX_FRAME_LEN then (Err (FrameTooLarge len MAX_FRAME_LEN), r)
      else match read_exact (Z.to_nat len) r with
           | (Err e, r) => (Err (Io e), r)
           | (Ok payload, r) => (Ok payload, r)
           end
  end.
End framing.

(** The [async] variants run the same steps over [AsyncRead]/[AsyncWrite],
    whose operations answer once their future resolves. *)
Module AsyncFraming.
Section async_framing.
Context {W R IoError : Type}.
Context (write_all : bytes → ST W (Result () IoError)).
Context (read_exact : nat → ST R (Result bytes IoError)).

Definition write_frame (payload : bytes) : ST W (Result () (FramingError IoError)) :=
  match u32_try_from (Z.of_nat (length payload)) with
  | None => mret (Err (FrameTooLarge u32_MAX MAX_FRAME_LEN))
  | Some len =>
      if len >? MAX_FRAME_LEN then mret (Err (FrameTooLarge len MAX_FRAME_LEN))
      else r ← write_all (to_be_bytes len);
           match r with
           | Err e => mret (Err (Io e))
           | Ok _ => r ← write_all payload; mret (map_err Io r)
           end
  end.

Definition read_frame : ST R (Result bytes (FramingError IoError)) :=
  r ← read_exact 4;
  match r with
  | Err e => mret (Err (Io e))
  | Ok len_bytes =>
      let len := from_be_bytes len_bytes in
      if len >? MAX_FRAME_LEN then mret (Err (FrameTooLarge len MAX_FRAME_LEN))
      else r ← read_exact (Z.to_nat len); mret (map_err Io r)
  end.
End async_framing.
End AsyncFraming.

(** ** Over a growing buffer and a slice *)

(** [impl Write for Vec<u8>] never fails. *)
Definition vec_write_all (b : bytes) : ST bytes (Result () io_error) := λ w, (Ok (), w ++ b).

(** [impl Read for &[u8]]: short input is [UnexpectedEof] and is consumed. *)
Definition slice_read_exact (n : nat) : ST bytes (Result bytes io_error) := λ r,
  if (length r <? n)%nat then (Err (lit "failed to fill whole buffer"), [])
  else (Ok (take n r), drop n r).

Definition vec_write_frame : bytes → ST bytes (Result () (FramingError io_error)) :=
  write_frame vec_write_all.
Definition slice_read_frame : ST bytes (Result bytes (FramingError io_error)) :=
  read_frame slice_read_exact.

(** A sender that writes its payloads one after the other, stopping at the
    first failure, and a receiver that reads frames until one fails. *)
Fixpoint write_frames (payloads : list bytes) : ST bytes (Result () (FramingError io_error)) :=
  match payloads with
  | [] => mret (Ok ())
  | p :: ps => r ← vec_write_frame p; match r with Ok _ => write_frames ps | Err e => mret (Err e) end
  end.

Fixpoint read_frames (fuel : nat) (stream : bytes) : list bytes :=
  match fuel with
  | O => []
  | S fuel' =>
      match slice_read_frame stream with
      | (Ok p, rest) => p :: read_frames fuel' rest
      | (Err _, _) => []
      end
  end.

Definition frame (payload : bytes) : bytes := to_be_bytes (Z.of_nat (length payload)) ++ payload.

#[global] Arguments slice_read_frame : simpl never.
#[global] Arguments vec_write_frame : simpl never.
#[global] Arguments frame : simpl never.

(** ** Lemmas *)

Lemma to_be_bytes_length n : length (to_be_bytes n) = 4%nat.
Proof. apply length_be_split. Qed.

Lemma from_to_be_bytes n : 0 ≤ n < 2 ^ 32 → from_be_bytes (to_be_bytes n) = n.
Proof. intros. unfold from_be_bytes, to_be_bytes. rewrite be_combine_split. by apply Z.mod_small. Qed.

Lemma vec_write_frame_ok p w :
  Z.of_nat (length p) ≤ MAX_FRAME_LEN → vec_write_frame p w = (Ok (), w ++ frame p).
Proof.
  intros Hp. unfold vec_write_frame, write_frame, u32_try_from, u32_MAX, MAX_FRAME_LEN in *.
  destruct (Z.leb_spec (Z.of_nat (length p)) (2 ^ 32 - 1)); [|lia].
  rewrite Z.gtb_ltb. destruct (Z.ltb_spec (16 * 1024 * 1024) (Z.of_nat (length p))); [lia|].
  simpl. unfold frame. by rewrite <-app_assoc.
Qed.

Lemma vec_write_frame_too_large p w :
  MAX_FRAME_LEN < Z.of_nat (length p) → ∃ len, vec_write_frame p w = (Err (FrameTooLarge len MAX_FRAME_LEN), w).
Proof.
  intros Hp. unfold vec_write_frame, write_frame, u32_try_from.
  destruct (_ <=? _); [|eauto]. rewrite Z.gtb_ltb.
  destruct (Z.ltb_spec MAX_FRAME_LEN (Z.of_nat (length p))); [eauto|lia].
Qed.

Lemma slice_read_exact_app n a rest :
  length a = n → slice_read_exact n (a ++ rest) = (Ok a, rest).
Proof.
  intros <-. unfold slice_read_exact. rewrite length_app.
  destruct (Nat.ltb_spec (length a + length rest) (length a)); [lia|].
  by rewrite take_app_length, drop_app_length.
Qed.

Lemma slice_read_exact_short n r : (length r < n)%nat → ∃ e, slice_read_exact n r = (Err e, []).
Proof. intros. unfold slice_read_exact. destruct (Nat.ltb_spec (length r) n); [eauto|lia]. Qed.

Lemma slice_read_frame_frame p rest :
  Z.of_nat (length p) ≤ MAX_FRAME_LEN → slice_read_frame (frame p ++ rest) = (Ok p, rest).
Proof.
  intros Hp. unfold slice_read_frame, read_frame, frame. rewrite <-app_assoc.
  rewrite slice_read_exact_app by apply to_be_bytes_length.
  unfold MAX_FRAME_LEN in *. rewrite from_to_be_bytes by lia. rewrite Z.gtb_ltb.
  destruct (Z.ltb_spec (16 * 1024 * 1024) (Z.of_nat (length p))); [lia|].
  by rewrite Nat2Z.id, slice_read_exact_app.
Qed.

Lemma write_frames_ok ps w :
  Forall (λ p, Z.of_nat (length p) ≤ MAX_FRAME_LEN) ps →
  write_frames ps w = (Ok (), w ++ concat (frame <$> ps)).
Proof.
  intros Hps. revert w; induction Hps as [|p ps Hp Hps IH]; intros w; simpl.
  - by rewrite app_nil_r.
  - unfold mbind, ST_bind. rewrite vec_write_frame_ok by done. by rewrite IH, <-app_assoc.
Qed.

Lemma slice_read_frame_nil : ∃ e, slice_read_frame [] = (Err (Io e), []).
Proof. vm_compute. eauto. Qed.

Lemma read_frames_nil fuel : read_frames fuel [] = [].
Proof. by destruct fuel. Qed.

Lemma read_frames_ok ps fuel :
  (length ps ≤ fuel)%nat → Forall (λ p, Z.of_nat (length p) ≤ MAX_FRAME_LEN) ps →
  read_frames fuel (concat (frame <$> ps)) = ps.
Proof.
  intros Hf Hps. revert fuel Hf; induction Hps as [|p ps Hp Hps IH]; intros fuel Hf.
  - apply read_frames_nil.
  - destruct fuel as [|fuel]; [simpl in Hf; lia|].
    change (concat (frame <$> p :: ps)) with (frame p ++ concat (frame <$> ps)).
    cbn [read_frames]. rewrite slice_read_frame_frame by done.
    rewrite IH; [done|]. simpl in Hf. lia.
Qed.

(** ** The properties of the framing *)

(** C32: payloads written one after the other as frames come back, in
    order and intact, when read off the stream with whatever follows it; the
    limit of 16 MiB is all a payload has to respect. *)
Theorem frames_roundtrip (payloads : list bytes) (w rest : bytes) (p : bytes) :
  Forall (λ p, Z.of_nat (length p) ≤ MAX_FRAME_LEN) (p :: payloads) →
  ∃ stream, write_frames payloads w = (Ok (), w ++ stream)
    ∧ read_frames (length payloads) stream = payloads
    ∧ ∃ hd, vec_write_frame p w = (Ok (), w ++ hd) ∧ slice_read_frame (hd ++ rest) = (Ok p, rest).
Proof.
  intros [Hp Hps]%Forall_cons_1. exists (concat (frame <$> payloads)).
  split_and!; [by apply write_frames_ok|by apply read_frames_ok|].
  exists (frame p). split; [by apply vec_write_frame_ok|by apply slice_read_frame_frame].
Qed.

Lemma frames_roundtrip_witness :
  ∃ stream, write_frames [[1; 2]; []; [3]] [9] = (Ok (), [9] ++ stream)
    ∧ read_frames 3 stream = [[1; 2]; []; [3]].
Proof.
  destruct (frames_roundtrip [[1; 2]; []; [3]] [9] [] []) as (stream & ? & ? & _).
  - repeat constructor; by vm_compute.
  - exists stream. done.
Defined.

(** C33: a payload over the limit is refused before a byte is
    written, a length prefix over the limit before a payload byte is read or
    allocated, and a stream cut short is an i/o error; both framers agree. *)
Theorem frame_bounds (payload w stream : bytes) (len : Z) :
  MAX_FRAME_LEN < Z.of_nat (length payload) → MAX_FRAME_LEN < len < 2 ^ 32 →
  (∃ n, vec_write_frame payload w = (Err (FrameTooLarge n MAX_FRAME_LEN), w))
  ∧ slice_read_frame (to_be_bytes len ++ stream) = (Err (FrameTooLarge len MAX_FRAME_LEN), stream)
  ∧ (∀ p cut, Z.of_nat (length p) ≤ MAX_FRAME_LEN → (cut < length (frame p))%nat →
       ∃ e, slice_read_frame (take cut (frame p)) = (Err (Io e), []))
  ∧ (∀ p w', AsyncFraming.write_frame vec_write_all p w' = vec_write_frame p w')
  ∧ (∀ s, AsyncFraming.read_frame slice_read_exact s = slice_read_frame s).
Proof.
  intros Hp Hlen. split_and!.
  - by apply vec_write_frame_too_large.
  - unfold slice_read_frame, read_frame. rewrite slice_read_exact_app by apply to_be_bytes_length.
    unfold MAX_FRAME_LEN in *. rewrite from_to_be_bytes by lia. rewrite Z.gtb_ltb.
    destruct (Z.ltb_spec (16 * 1024 * 1024) len); [done|lia].
  - intros p cut Hle Hcut. unfold slice_read_frame, read_frame, frame in *.
    rewrite length_app, to_be_bytes_length in Hcut.
    destruct (decide (cut < 4)%nat) as [Hlt|Hge].
    + destruct (slice_read_exact_short 4 (take cut (to_be_bytes (Z.of_nat (length p)) ++ p))) as [e ->];
        [rewrite length_take; lia|eauto].
    + rewrite take_app_ge, to_be_bytes_length by (rewrite to_be_bytes_length; lia).
      rewrite slice_read_exact_app by apply to_be_bytes_length.
      unfold MAX_FRAME_LEN in *. rewrite from_to_be_bytes by lia. rewrite Z.gtb_ltb.
      destruct (Z.ltb_spec (16 * 1024 * 1024) (Z.of_nat (length p))); [lia|].
      rewrite Nat2Z.id.
      destruct (slice_read_exact_short (length p) (take (cut - 4) p)) as [e ->];
        [rewrite length_take; lia|eauto].
  - intros p w'. unfold AsyncFraming.write_frame, vec_write_frame, write_frame.
    destruct (u32_try_from _); [|done]. by destruct (_ >? _).
  - intros s. unfold AsyncFraming.read_frame, slice_read_frame, read_frame, mbind, ST_bind.
    destruct (slice_read_exact 4 s) as [[b|e] r]; [|done]. destruct (_ >? _); [done|].
    by destruct (slice_read_exact _ r) as [[?|?] ?].
Qed.

Lemma frame_bounds_witness :
  slice_read_frame ([1; 0; 0; 1] ++ [7; 7])
  = (Err (FrameTooLarge (MAX_FRAME_LEN + 1) MAX_FRAME_LEN), [7; 7])
  ∧ ∃ e, slice_read_frame [0; 0; 0; 2; 5] = (Err (Io e), []).
Proof.
  destruct (frame_bounds (replicate (Z.to_nat (MAX_FRAME_LEN + 1)) 0) [] [7; 7] (MAX_FRAME_LEN + 1))
    as (_ & Hbig & Hcut & _).
  - rewrite length_replicate, Z2Nat.id by (unfold MAX_FRAME_LEN; lia). lia.
  - unfold MAX_FRAME_LEN. lia.
  - split; [exact Hbig|]. apply (Hcut [5; 5] 5%nat); [by vm_compute|simpl; lia].
Defined.
