(* ===== verification/Writer.v ===== *)
(** * The task that writes a connection ([write_loop] and [send_envelope] of
      [thoth-mesh-node/src/connection.rs])

    It owns the receiving half of the connection's outgoing channel and the
    writing half of its socket. One step is one turn of its loop; [hung_up]
    says that every sender is gone, so that [recv] answers [None]. *)

From S2P Require Import Prelude.
From S2P Require Import Text.
From S2P Require Import Runtime.
From S2P Require Import Message.
From S2P Require Import Framing.

#[local] Open Scope nat_scope.

(** [e] is [b] on the wire, without its length. *)
Definition encoded {CborError} (into_writer : Envelope → Result bytes CborError) (e : Envelope) (b : bytes) : Prop :=
  into_writer e = Ok b ∧ (Z.of_nat (length b) ≤ MAX_FRAME_LEN)%Z.
Definition framed (bs : list bytes) : bytes := concat (frame <$> bs).

Lemma framed_app bs cs : framed (bs ++ cs) = framed bs ++ framed cs.
Proof. unfold framed. by rewrite fmap_app, concat_app. Qed.
Lemma framed_cons b bs : framed (b :: bs) = frame b ++ framed bs.
Proof. done. Qed.

Lemma framed_length bs : length bs ≤ length (framed bs).
Proof.
  induction bs as [|b bs IH]; [done|]. rewrite framed_cons, length_app. unfold frame.
  rewrite length_app, to_be_bytes_length. cbn. lia.
Qed.

(** ** The loop *)

Inductive Progress : Type := Waiting | Wrote | Finished.

Section writer.
Context `{MpscReceiver Envelope} {CborError W : Type} (into_writer : Envelope → Result bytes CborError)
  (write_all : bytes → ST W (Result () io_error)).

Definition send_envelope (envelope : Envelope) : ST W bool :=
  match Envelope.to_bytes into_writer envelope with
  | Ok b => r ← AsyncFraming.write_frame write_all b; mret (is_ok r)
  | Err _ => mret false
  end.

Definition write_step (outgoing_rx : nat) (hung_up : bool) : ST (mpsc_store Envelope * W) Progress := λ '(s, w),
  match take_next outgoing_rx s with
  | (Some envelope, s1) =>
      let '(sent, w1) := send_envelope envelope w in
      if sent : bool then (Wrote, (s1, w1)) else (Finished, (close_receiver outgoing_rx s1, w1))
  | (None, s1) => if hung_up then (Finished, (close_receiver outgoing_rx s1, w)) else (Waiting, (s1, w))
  end.
End writer.

(** ** What the other end reads *)

Section transport.
Context `{MpscReceiver Envelope} `{!MpscLaws Envelope} `{!MpscReceiverLaws Envelope}.
Context {CborError : Type} (into_writer : Envelope → Result bytes CborError) (from_reader : bytes → Result Envelope CborError).
Context (codec : ∀ e b, into_writer e = Ok b → from_reader b = Ok e).
#[local] Abbreviation encoded := (encoded into_writer).

(** The channels, the bytes written so far, whether the loop has ended, and
    everything the channel has accepted. *)
Record Pipe := MkPipe {
  p_store : mpsc_store Envelope;
  p_wire : bytes;
  p_done : bool;
  p_accepted : list Envelope;
}.

(** Anybody sends on the channel, or on another; the loop takes a turn. *)
Inductive pipe_step (out : nat) : Pipe → Pipe → Prop :=
| PipeSend e s s' w d l :
    try_send out e s = (true, s') → pipe_step out (MkPipe s w d l) (MkPipe s' w d (l ++ [e]))
| PipeOther c e r s s' w d l :
    c ≠ out → try_send c e s = (r, s') → pipe_step out (MkPipe s w d l) (MkPipe s' w d l)
| PipeTurn hung_up p s s' w w' l :
    write_step into_writer vec_write_all out hung_up (s, w) = (p, (s', w')) →
    pipe_step out (MkPipe s w false l) (MkPipe s' w' (match p with Finished => true | _ => false end) l).

Inductive pipe_steps (out : nat) : Pipe → Pipe → Prop :=
| PipeRefl p : pipe_steps out p p
| PipeTrans p p' p'' : pipe_steps out p p' → pipe_step out p' p'' → pipe_steps out p p''.

Lemma send_envelope_spec e w :
  (∃ b, encoded e b ∧ send_envelope into_writer vec_write_all e w = (true, w ++ frame b))
  ∨ (∀ b, ¬ encoded e b) ∧ send_envelope into_writer vec_write_all e w = (false, w).
Proof.
  unfold send_envelope, Envelope.to_bytes. destruct (into_writer e) as [b|err] eqn:Hb; cbn [and_then].
  2:{ right. split; [|done]. intros b [Hb' _]. congruence. }
  destruct (Z.le_gt_cases (Z.of_nat (length b)) MAX_FRAME_LEN) as [Hle|Hgt].
  - left. exists b. split; [done|]. unfold mbind, ST_bind, AsyncFraming.write_frame, u32_try_from, u32_MAX, MAX_FRAME_LEN in *.
    destruct (Z.leb_spec (Z.of_nat (length b)) (2 ^ 32 - 1)); [|lia].
    destruct (Z.gtb_spec (Z.of_nat (length b)) (16 * 1024 * 1024)); [lia|].
    unfold mbind, ST_bind, vec_write_all, frame. cbn. by rewrite <-app_assoc.
  - right. split; [intros b' [Hb' ?]; rewrite Hb in Hb'; injection Hb' as <-; lia|].
    unfold mbind, ST_bind, AsyncFraming.write_frame, u32_try_from. destruct (_ <=? _)%Z; [|done].
    destruct (Z.gtb_spec (Z.of_nat (length b)) MAX_FRAME_LEN); [done|lia].
Qed.

(** [rest] is what the writer has not written: what the channel still holds,
    or, once the loop has ended, what it could not write and the rest. *)
Definition unwritten (out : nat) (p : Pipe) (rest : list Envelope) : Prop :=
  if p_done p then is_closed (p_store p) out = true ∧ ∀ e, head rest = Some e → ∀ b, ¬ encoded e b
  else rest = queued (p_store p) out.

Definition in_order (out : nat) (p : Pipe) : Prop :=
  ∃ written bs rest, Forall2 encoded written bs ∧ p_wire p = framed bs ∧ p_accepted p = written ++ rest
    ∧ unwritten out p rest.

Lemma turn_in_order out hung_up s w l :
  in_order out (MkPipe s w false l) →
  let '(p, (s', w')) := write_step into_writer vec_write_all out hung_up (s, w) in
  in_order out (MkPipe s' w' (match p with Finished => true | _ => false end) l).
Proof.
  intros (written & bs & rest & Hbs & Hw & Hl & Hrest). unfold unwritten in Hrest. cbn in *. subst rest.
  unfold write_step. destruct (take_next out s) as [r s1] eqn:Ht. apply take_next_spec in Ht.
  destruct (queued s out) as [|e q] eqn:Hq.
  - destruct Ht as [-> ->]. destruct hung_up; exists written, bs, []; unfold unwritten; cbn.
    + split; [done|]. split; [done|]. split; [done|]. split; [apply close_receiver_spec|done].
    + by rewrite Hq.
  - destruct Ht as (-> & Hq1 & _ & _). destruct (send_envelope_spec e w) as [(b & Hb & ->)|[Hno ->]].
    + exists (written ++ [e]), (bs ++ [b]), q. unfold unwritten. cbn. split; [by apply Forall2_app; [|constructor]|].
      split; [rewrite framed_app, Hw; unfold framed; cbn; by rewrite app_nil_r|]. by rewrite <-app_assoc.
    + exists written, bs, (e :: q). unfold unwritten. cbn. split; [done|]. split; [done|]. split; [done|].
      split; [apply close_receiver_spec|]. by intros ? [= <-].
Qed.

Lemma pipe_step_in_order out p p' : pipe_step out p p' → in_order out p → in_order out p'.
Proof.
  destruct 1 as [e s s' w d l Hs|c e r s s' w d l Hc Hs|hung_up p s s' w w' l Hs].
  - apply try_send_accepted in Hs as (Ho & Hq & _ & Hcl). intros (written & bs & rest & Hbs & Hw & Hl & Hrest).
    exists written, bs, (rest ++ [e]). split; [done|]. split; [done|]. cbn in *. split; [by rewrite Hl, app_assoc|].
    unfold unwritten in *. cbn in *. destruct d; [by destruct Hrest; congruence|]. by rewrite Hq, Hrest.
  - intros (written & bs & rest & Hbs & Hw & Hl & Hrest). exists written, bs, rest. do 3 (split; [done|]).
    unfold unwritten in *. cbn in *. destruct r.
    + apply try_send_accepted in Hs as (_ & _ & Hq & Hcl). by rewrite Hq, Hcl by done.
    + by apply try_send_refused in Hs as ->.
  - intros Hi. pose proof (turn_in_order out hung_up s w l Hi) as Ht. by rewrite Hs in Ht.
Qed.

(** The reader gets frames back as the messages they encode. *)
Lemma framed_reads written bs :
  Forall2 encoded written bs → from_reader <$> read_frames (length (framed bs)) (framed bs) = Ok <$> written.
Proof.
  intros Hbs. unfold framed. rewrite read_frames_ok.
  - clear -Hbs codec. induction Hbs as [|e b l bs [Hb _] _ IH]; [done|]. cbn. by rewrite (codec e b Hb), IH.
  - apply framed_length.
  - clear -Hbs. induction Hbs as [|e b l bs [_ Hb] _ IH]; constructor; done.
Qed.

(** What the other end of a connection reads. Whoever sends on
    the connection's channel and however the writing task takes its turns
    between them, the frames on the socket are those of a prefix of what the
    channel has accepted, in order, each once and intact, and the reader
    decodes them as it. While the task runs the rest is still in the channel.
    It ends only when every sender is gone and all is written, or at a message
    that has no encoding or does not fit a frame; from then on the channel
    takes nothing more. *)
Theorem reader_gets_what_was_sent out s p :
  queued s out = [] → pipe_steps out (MkPipe s [] false []) p →
  ∃ received rest, p_accepted p = received ++ rest
    ∧ from_reader <$> read_frames (length (p_wire p)) (p_wire p) = Ok <$> received
    ∧ unwritten out p rest
    ∧ (p_done p = true → ∀ e, (try_send out e (p_store p)).1 = false).
Proof.
  intros Hq Hs.
  assert (in_order out p) as (written & bs & rest & Hbs & Hw & Hl & Hrest).
  { remember (MkPipe s [] false []) as p0 eqn:Hp. induction Hs as [p|p p' p'' _ IH Hstep]; subst.
    - exists [], [], []. unfold unwritten. cbn. by rewrite Hq.
    - eapply pipe_step_in_order; [exact Hstep|]. by apply IH. }
  exists written, rest. split; [done|]. split; [rewrite Hw; by apply framed_reads|]. split; [done|].
  intros Hd e. unfold unwritten in Hrest. rewrite Hd in Hrest. destruct Hrest as [Hc _].
  destruct (try_send out e (p_store p)) as [[] s'] eqn:Hs'; [|done]. apply try_send_accepted in Hs' as [Ho _]. congruence.
Qed.
End transport.

(** Two messages accepted, the first written, the second still queued. *)
Lemma reader_gets_what_was_sent_witness :
  let M := Reference.ref_mpsc Envelope in
  let R := Reference.ref_mpsc_receiver Envelope in
  let e n := Sample.publish n (lit "a") [7%Z] false in
  let l := [e 1%Z; e 2%Z] in
  let s0 := {[0 := Reference.MkChan 8 false []]} in
  let s2 := (try_send 0 (e 2%Z) (try_send 0 (e 1%Z) s0).2).2 in
  let t := write_step (Sample.encode l) vec_write_all 0 false (s2, []) in
  Sample.decode l <$> read_frames (length t.2.2) t.2.2 = [Ok (e 1%Z)].
Proof.
  intros M R e l s0 s2 t.
  destruct (@reader_gets_what_was_sent M R (Reference.ref_mpsc_laws Envelope) (Reference.ref_mpsc_receiver_laws Envelope) _
    (Sample.encode l) (Sample.decode l) (Sample.sample_codec l) 0 s0 (MkPipe t.2.1 t.2.2 false [e 1%Z; e 2%Z]))
    as (received & rest & Ha & Hr & Hu & _); [done| |].
  - eapply PipeTrans; [eapply PipeTrans; [eapply PipeTrans; [apply PipeRefl|]|]|].
    + apply PipeSend. reflexivity.
    + apply PipeSend. reflexivity.
    + apply (PipeTurn _ _ false Wrote). reflexivity.
  - unfold unwritten in Hu. cbn [p_done] in Hu. assert (rest = [e 2%Z]) as -> by (rewrite Hu; by vm_compute).
    refine (eq_trans Hr _). destruct received as [|x [|y received]]; [done|by injection Ha as <-|].
    apply (f_equal length) in Ha. rewrite length_app in Ha. cbn in Ha. lia.
Defined.
