(* ===== verification/Interest.v ===== *)
(** * Aggregate topic interest ([thoth-mesh/src/interest.rs])

    How many connections of the node want each filter. The abstract state is a
    plain counter per filter, [balance] of the operations so far;
    [interest_refines_balance] is the contract the peer links rely on: an
    operation answers [true] exactly at a 0-1 or 1-0 transition. *)

From S2P Require Import Prelude.
From S2P Require Import Text.
From S2P Require Import Filter.

Record Interest := MkInterest { counts : gmap TopicFilter nat }.

Definition new : Interest := MkInterest ∅.

Definition subscribe (filter : TopicFilter) : ST Interest bool := λ s,
  let count := S (default 0 (counts s !! filter)) in
  (count =? 1, MkInterest (<[filter := count]> (counts s))).

Definition unsubscribe (filter : TopicFilter) : ST Interest bool := λ s,
  match counts s !! filter with
  | None => (false, s)
  | Some count =>
      if count =? 0 then (false, s)
      else
        let count := count - 1 in
        if count =? 0 then (true, MkInterest (delete filter (counts s)))
        else (false, MkInterest (<[filter := count]> (counts s)))
  end.

Definition snapshot (s : Interest) : list TopicFilter := (map_to_list (counts s)).*1.

Definition is_interested (s : Interest) (filter : TopicFilter) : bool :=
  bool_decide (is_Some (counts s !! filter)).

(** No recorded count is zero: [unsubscribe] removes the entry instead. *)
Definition wf (s : Interest) : Prop := ∀ f n, counts s !! f = Some n → n ≠ 0.

Definition count (s : Interest) (f : TopicFilter) : nat := default 0 (counts s !! f).

(** ** The abstract counter *)

Inductive Op : Type :=
| Sub (f : TopicFilter)
| Unsub (f : TopicFilter).

Definition exec (o : Op) : ST Interest bool :=
  match o with Sub f => subscribe f | Unsub f => unsubscribe f end.

Fixpoint exec_all (ops : list Op) (s : Interest) : Interest :=
  match ops with [] => s | o :: ops' => exec_all ops' (exec o s).2 end.

(** Wants minus releases of [f], a release with nothing to release counting for
    nothing. *)
Definition bump (f : TopicFilter) (n : nat) (o : Op) : nat :=
  match o with
  | Sub g => if decide (g = f) then S n else n
  | Unsub g => if decide (g = f) then n - 1 else n
  end.
Definition balance (f : TopicFilter) (ops : list Op) : nat := fold_left (bump f) ops 0.

(** ** Lemmas *)

Lemma interest_wf_new : wf new.
Proof. intros f n. simpl. by rewrite lookup_empty. Qed.

Lemma subscribe_wf f s : wf s → wf (subscribe f s).2.
Proof. intros Hs g n. simpl. rewrite lookup_insert_Some. intros [[_ H]|[_ H]]; [lia|by apply (Hs g)]. Qed.

Lemma unsubscribe_wf f s : wf s → wf (unsubscribe f s).2.
Proof.
  intros Hs. unfold unsubscribe. destruct (counts s !! f) as [c|]; [|done].
  destruct (Nat.eqb_spec c 0); [done|]. destruct (Nat.eqb_spec (c - 1) 0); intros g m; simpl.
  - rewrite lookup_delete_Some. intros [_ H]. by apply (Hs g).
  - rewrite lookup_insert_Some. intros [[_ H]|[_ H]]; [lia|by apply (Hs g)].
Qed.
#[export] Hint Resolve interest_wf_new subscribe_wf unsubscribe_wf : thoth.

Lemma count_subscribe f g s :
  count (subscribe f s).2 g = if decide (f = g) then S (count s g) else count s g.
Proof.
  unfold count. simpl. case_decide as H; [subst; by rewrite lookup_insert_eq|].
  by rewrite lookup_insert_ne.
Qed.

Lemma count_unsubscribe f g s :
  count (unsubscribe f s).2 g = if decide (f = g) then count s g - 1 else count s g.
Proof.
  unfold count, unsubscribe. destruct (counts s !! f) as [c|] eqn:Hc.
  - destruct (Nat.eqb_spec c 0); [|destruct (Nat.eqb_spec (c - 1) 0)]; simpl;
      (case_decide as H; [subst g|]); rewrite ?lookup_delete_eq, ?lookup_insert_eq,
      ?lookup_delete_ne, ?lookup_insert_ne, ?Hc by done; simpl; lia.
  - simpl. case_decide; subst; rewrite ?Hc; done.
Qed.

Lemma subscribe_answer f s : (subscribe f s).1 = (count s f =? 0).
Proof. unfold count. simpl. by destruct (default 0 _). Qed.

Lemma unsubscribe_answer f s : (unsubscribe f s).1 = (count s f =? 1).
Proof.
  unfold count, unsubscribe. destruct (counts s !! f) as [c|]; [|done]. simpl.
  destruct c as [|[|c]]; done.
Qed.

Lemma is_interested_count s f : wf s → is_interested s f = negb (count s f =? 0).
Proof.
  intros Hs. unfold is_interested, count. destruct (counts s !! f) as [c|] eqn:Hc; [|done].
  apply Hs in Hc. rewrite bool_decide_true by eauto. simpl. by destruct c.
Qed.

Lemma elem_of_snapshot s f : f ∈ snapshot s ↔ is_interested s f = true.
Proof.
  unfold snapshot, is_interested. rewrite bool_decide_eq_true, list_elem_of_fmap. split.
  - intros ([g n] & -> & Hin%elem_of_map_to_list). eauto.
  - intros [n Hn]. exists (f, n). by rewrite elem_of_map_to_list.
Qed.

Lemma snapshot_NoDup s : NoDup (snapshot s).
Proof. apply NoDup_fst_map_to_list. Qed.

Lemma exec_all_app ops ops' s : exec_all (ops ++ ops') s = exec_all ops' (exec_all ops s).
Proof. revert s; induction ops; intros; simpl; auto. Qed.

Lemma count_exec o f s : count (exec o s).2 f = bump f (count s f) o.
Proof. destruct o; simpl exec; rewrite ?count_subscribe, ?count_unsubscribe; done. Qed.

Lemma exec_wf o s : wf s → wf (exec o s).2.
Proof. intros. destruct o; [by apply subscribe_wf|by apply unsubscribe_wf]. Qed.

Lemma exec_all_spec ops s f :
  wf s → wf (exec_all ops s) ∧ count (exec_all ops s) f = fold_left (bump f) ops (count s f).
Proof.
  revert s; induction ops as [|o ops IH]; intros s Hs; [done|]. simpl.
  rewrite <-(count_exec o f s). apply IH. by apply exec_wf.
Qed.

(** ** The property of the registry *)

(** Whatever the connections did so far, a filter is in the
    snapshot a new link is sent exactly while more connections want it than
    have released it; [subscribe] answers [true] exactly when it makes the
    first, [unsubscribe] exactly when it drops the last, so the answers are
    the 0-1 and 1-0 transitions and nothing else is announced. *)
Theorem interest_refines_balance (ops : list Op) (f : TopicFilter) :
  let s := exec_all ops new in
  (f ∈ snapshot s ↔ 0 < balance f ops)
  ∧ is_interested s f = (0 <? balance f ops)
  ∧ NoDup (snapshot s)
  ∧ (subscribe f s).1 = (balance f ops =? 0)
  ∧ (unsubscribe f s).1 = (balance f ops =? 1)
  ∧ balance f (ops ++ [Sub f]) = S (balance f ops)
  ∧ balance f (ops ++ [Unsub f]) = balance f ops - 1.
Proof.
  intros s. destruct (exec_all_spec ops new f interest_wf_new) as [Hwf Hc].
  change (count new f) with 0 in Hc. fold s in Hwf, Hc. fold (balance f ops) in Hc.
  assert (is_interested s f = (0 <? balance f ops)) as Hi.
  { rewrite is_interested_count, Hc by done. by destruct (balance f ops). }
  rewrite elem_of_snapshot, subscribe_answer, unsubscribe_answer, Hi, Hc, Nat.ltb_lt.
  unfold balance. rewrite !fold_left_app. simpl. rewrite !decide_True by done.
  split_and!; try done. apply snapshot_NoDup.
Qed.
