(* ===== verification/PeerDirectory.v ===== *)
(** * Every peer known to be dialable ([thoth-mesh/src/peer_directory.rs])

    A map with a touch-order queue, capped. The abstract specification is a
    least-recently-used cache over the whole history: [recency] lists the
    distinct peers ever recorded, oldest touch first, and the directory holds
    the last [DEFAULT_PEER_DIRECTORY_CAPACITY] of it. *)

From S2P Require Import Prelude.
From S2P Require Import Text.
From S2P Require Import Message.

Definition DEFAULT_PEER_DIRECTORY_CAPACITY : nat := 4096.

Record PeerDirectory := MkPeerDirectory {
  known : gmap PeerId rstr;
  order : list PeerId;
  evictions_total : Z;
}.

Definition new : PeerDirectory := MkPeerDirectory ∅ [] 0.

Definition record (peer_id : PeerId) (listen_addr : rstr) : ST PeerDirectory bool := λ s,
  let is_new := negb (bool_decide (is_Some (known s !! peer_id))) in
  let known1 := <[peer_id := listen_addr]> (known s) in
  let order1 :=
    if is_new then order s ++ [peer_id]
    else retain (λ id, negb (bool_decide (id = peer_id))) (order s) ++ [peer_id] in
  if DEFAULT_PEER_DIRECTORY_CAPACITY <? length order1 then
    match order1 with
    | oldest :: order2 =>
        (is_new, MkPeerDirectory (delete oldest known1) order2 (fetch_add 1 (evictions_total s)))
    | [] => (is_new, MkPeerDirectory known1 order1 (evictions_total s))
    end
  else (is_new, MkPeerDirectory known1 order1 (evictions_total s)).

Definition snapshot_excluding (s : PeerDirectory) (exclude : PeerId) : list (PeerId * rstr) :=
  List.filter (λ p, negb (bool_decide (p.1 = exclude))) (map_to_list (known s)).

Definition evictions (s : PeerDirectory) : Z := evictions_total s.

(** The queue lists exactly the known peers, once each, within the capacity. *)
Definition wf (s : PeerDirectory) : Prop :=
  NoDup (order s) ∧ (∀ p, p ∈ order s ↔ is_Some (known s !! p))
  ∧ length (order s) ≤ DEFAULT_PEER_DIRECTORY_CAPACITY.

(** ** The abstract cache *)

Definition touch (p : PeerId) (l : list PeerId) : list PeerId :=
  retain (λ id, negb (bool_decide (id = p))) l ++ [p].

Definition recency (h : list (PeerId * rstr)) : list PeerId := fold_left (λ l x, touch x.1 l) h [].

(** The address of [p] last recorded. *)
Definition last_addr (h : list (PeerId * rstr)) (p : PeerId) : option rstr :=
  fold_left (λ a x, if decide (x.1 = p) then Some x.2 else a) h None.

Fixpoint record_all (h : list (PeerId * rstr)) (s : PeerDirectory) : PeerDirectory :=
  match h with [] => s | (p, a) :: h' => record_all h' (record p a s).2 end.

(** ** Lemmas *)

Lemma elem_of_touch p q l : q ∈ touch p l ↔ q = p ∨ (q ∈ l ∧ q ≠ p).
Proof.
  unfold touch. rewrite elem_of_app, elem_of_retain, list_elem_of_singleton, negb_true_iff,
    bool_decide_eq_false. tauto.
Qed.

Lemma touch_NoDup p l : NoDup l → NoDup (touch p l).
Proof.
  intros Hl. apply NoDup_app. split_and!; [by apply NoDup_retain| |apply NoDup_singleton].
  intros q [_ Hq]%elem_of_retain ->%list_elem_of_singleton. by rewrite bool_decide_true in Hq.
Qed.

Lemma retain_ne_absent (p : PeerId) l :
  p ∉ l → retain (λ id, negb (bool_decide (id = p))) l = l.
Proof.
  intros Hp. apply retain_all. intros q Hq. apply negb_true_iff, bool_decide_eq_false. congruence.
Qed.

Lemma touch_absent p l : p ∉ l → touch p l = l ++ [p].
Proof. intros. unfold touch. by rewrite retain_ne_absent. Qed.

Lemma length_retain_ne (p : PeerId) l :
  NoDup l → p ∈ l → S (length (retain (λ id, negb (bool_decide (id = p))) l)) = length l.
Proof.
  induction 1 as [|q l Hq Hl IH]; [by intros ?%not_elem_of_nil|].
  intros Hp%elem_of_cons. simpl. case_bool_decide as Hqp; simpl.
  - subst q. by rewrite retain_ne_absent.
  - destruct Hp as [->|Hp]; [done|]. by rewrite IH.
Qed.

Lemma length_touch p l :
  NoDup l → length (touch p l) = if decide (p ∈ l) then length l else S (length l).
Proof.
  intros Hl. case_decide as Hp.
  - rewrite <-(length_retain_ne p l) by done. unfold touch. rewrite length_app. simpl. lia.
  - rewrite touch_absent, length_app by done. simpl. lia.
Qed.

Lemma retain_drop_present (p : PeerId) l k :
  NoDup l → p ∈ drop k l →
  retain (λ id, negb (bool_decide (id = p))) (drop k l)
  = drop k (retain (λ id, negb (bool_decide (id = p))) l).
Proof.
  revert l; induction k as [|k IH]; intros l Hl Hp; [by rewrite !drop_0|].
  destruct l as [|q l]; [done|]. apply NoDup_cons in Hl as [Hq Hl]. simpl in *.
  assert (p ∈ l) by (rewrite <-(take_drop k l), elem_of_app; auto).
  rewrite bool_decide_false by congruence. simpl. by apply IH.
Qed.

(** The cache of the touched history is the touched cache. *)
Lemma window_touch n p l :
  0 < n → NoDup l → window n (touch p (window n l)) = window n (touch p l).
Proof.
  intros Hn Hl. unfold window at 2. set (k := length l - n).
  assert (NoDup (drop k l)) as Hd by (eapply sublist_NoDup, sublist_drop; done).
  destruct (decide (p ∈ drop k l)) as [Hp|Hp].
  - assert (p ∈ l) as Hpl by (rewrite <-(take_drop k l), elem_of_app; auto).
    pose proof (length_retain_ne p l Hl Hpl) as Hlen.
    pose proof (length_retain_ne p _ Hd Hp) as Hlen'. rewrite length_drop in Hlen'.
    unfold window. rewrite !length_touch, !decide_True by done. unfold touch.
    rewrite retain_drop_present, length_drop by done. fold k.
    replace (length l - k - n) with 0 by lia. rewrite drop_0.
    by rewrite drop_app_le by lia.
  - destruct (decide (length l < n)) as [Hs|Hs].
    { unfold k. replace (length l - n) with 0 by lia. by rewrite drop_0. }
    rewrite (touch_absent p (drop k l)) by done. unfold window.
    rewrite length_app, length_drop. simpl.
    replace (length l - k + 1 - n) with 1 by lia. rewrite length_touch by done.
    rewrite drop_app_le by (rewrite length_drop; lia). rewrite drop_drop.
    case_decide as Hpl.
    + pose proof (length_retain_ne p l Hl Hpl). unfold touch. fold k.
      rewrite <-(take_drop k l) at 2. rewrite <-(take_drop k l) in Hl, Hpl.
      rewrite retain_app, (retain_ne_absent p (drop k l)) by done.
      apply elem_of_app in Hpl as [Hpl|]; [|done]. apply NoDup_app in Hl as (Hl & _).
      pose proof (length_retain_ne p _ Hl Hpl) as Hlen. rewrite length_take in Hlen.
      rewrite <-app_assoc, drop_app_ge by lia.
      rewrite drop_app_le by (rewrite length_drop; lia). rewrite drop_drop. do 2 f_equal. lia.
    + rewrite touch_absent by done. replace (S (length l) - n) with (k + 1) by lia.
      by rewrite drop_app_le by lia.
Qed.

Lemma wf_new : wf new.
Proof.
  split_and!; simpl; [constructor| |lia]. intros p. rewrite lookup_empty.
  split; [by intros ?%not_elem_of_nil|by intros [? ?]].
Qed.

(** One recording touches the queue, keeps what fits, and forgets the rest. *)
Lemma record_spec p a s :
  wf s →
  (record p a s).1 = negb (bool_decide (p ∈ order s))
  ∧ order (record p a s).2 = window DEFAULT_PEER_DIRECTORY_CAPACITY (touch p (order s))
  ∧ ∀ q, known (record p a s).2 !! q =
      if decide (q ∈ window DEFAULT_PEER_DIRECTORY_CAPACITY (touch p (order s)))
      then if decide (q = p) then Some a else known s !! q else None.
Proof.
  intros (Hnd & Hdom & Hlen). unfold record.
  rewrite <-(bool_decide_ext _ _ (Hdom p)).
  set (order1 := if negb (bool_decide (p ∈ order s)) then _ else _).
  assert (order1 = touch p (order s)) as ->.
  { unfold order1. case_bool_decide; simpl; [done|]. by rewrite touch_absent. }
  pose proof (touch_NoDup p _ Hnd) as Hnd1.
  assert (∀ q, q ∈ touch p (order s) ↔ is_Some (<[p:=a]> (known s) !! q)) as Hdom1.
  { intros q. rewrite elem_of_touch, Hdom, lookup_insert_is_Some. intuition congruence. }
  assert (∀ q, q ∉ touch p (order s) → known s !! q = None) as Hout.
  { intros q Hq. rewrite elem_of_touch, Hdom in Hq. destruct (known s !! q) eqn:E; [|done].
    destruct Hq. destruct (decide (q = p)); eauto. }
  assert (∀ q, <[p:=a]> (known s) !! q = if decide (q = p) then Some a else known s !! q) as Hins.
  { intros q. case_decide; [subst; by rewrite lookup_insert_eq|by rewrite lookup_insert_ne]. }
  pose proof (length_touch p _ Hnd) as Hl1.
  destruct (Nat.ltb_spec DEFAULT_PEER_DIRECTORY_CAPACITY (length (touch p (order s)))) as [Hover|Hfit].
  - destruct (touch p (order s)) as [|oldest order2] eqn:E; [simpl in Hover; lia|].
    assert (window DEFAULT_PEER_DIRECTORY_CAPACITY (oldest :: order2) = order2) as ->.
    { unfold window. replace (_ - _) with 1; [done|].
      destruct (decide (p ∈ order s)); simpl length in *; lia. }
    simpl. split_and!; [done..|]. intros q. apply NoDup_cons in Hnd1 as [Hold _].
    destruct (decide (q = oldest)) as [->|Hne].
    + by rewrite lookup_delete_eq, decide_False.
    + rewrite lookup_delete_ne, Hins by done. destruct (decide (q ∈ order2)) as [Hq|Hq]; [done|].
      specialize (Hout q). rewrite not_elem_of_cons in Hout.
      rewrite decide_False; [by apply Hout|]. intros ->.
      assert (p ∈ oldest :: order2) as [|]%elem_of_cons; [|done..].
      rewrite <-E, elem_of_touch. auto.
  - rewrite window_all by done. simpl. split_and!; [done..|]. intros q. rewrite Hins.
    destruct (decide (q ∈ touch p (order s))) as [Hq|Hq]; [done|]. rewrite decide_False; [by apply Hout|].
    intros ->. destruct Hq. rewrite elem_of_touch. auto.
Qed.

Lemma record_wf p a s : wf s → wf (record p a s).2.
Proof.
  intros Hwf. destruct (record_spec p a s Hwf) as (_ & Ho & Hk). destruct Hwf as (Hnd & Hdom & _).
  unfold wf. rewrite Ho. split_and!.
  - eapply sublist_NoDup; [by apply (touch_NoDup p)|apply sublist_drop].
  - intros q. rewrite Hk. case_decide as Hq; [|by split; [|intros [? ?]]].
    split; [intros _|done]. case_decide; [eauto|]. apply Hdom.
    apply elem_of_window, elem_of_touch in Hq as [?|[? _]]; done.
  - rewrite length_window. lia.
Qed.
#[export] Hint Resolve wf_new record_wf : thoth.

Lemma record_all_app h h' s : record_all (h ++ h') s = record_all h' (record_all h s).
Proof. revert s; induction h as [|[p a] h IH]; intros; simpl; auto. Qed.

Lemma recency_snoc h p a : recency (h ++ [(p, a)]) = touch p (recency h).
Proof. unfold recency. by rewrite fold_left_app. Qed.

Lemma recency_NoDup h : NoDup (recency h).
Proof.
  induction h as [|[p a] h IH] using rev_ind; [constructor|]. rewrite recency_snoc. by apply touch_NoDup.
Qed.

Lemma capacity_pos : 0 < DEFAULT_PEER_DIRECTORY_CAPACITY.
Proof. unfold DEFAULT_PEER_DIRECTORY_CAPACITY. lia. Qed.

Lemma record_all_spec h :
  let s := record_all h new in
  wf s ∧ order s = window DEFAULT_PEER_DIRECTORY_CAPACITY (recency h)
  ∧ ∀ q, known s !! q = if decide (q ∈ order s) then last_addr h q else None.
Proof.
  induction h as [|[p a] h (Hwf & Ho & Hk)] using rev_ind.
  { split_and!; [apply wf_new|done|]. intros q. rewrite decide_False by apply not_elem_of_nil. apply lookup_empty. }
  rewrite record_all_app. simpl. set (s := record_all h new) in *.
  destruct (record_spec p a s Hwf) as (_ & Ho' & Hk').
  split_and!; [by apply record_wf| |].
  - rewrite Ho', Ho, recency_snoc. apply window_touch; [apply capacity_pos|apply recency_NoDup].
  - intros q. rewrite Hk', <-Ho'. case_decide as Hq; [|done].
    unfold last_addr. rewrite fold_left_app. fold (last_addr h q). simpl.
    destruct (decide (q = p)) as [->|Hne]; [by rewrite decide_True|].
    rewrite (decide_False (P := p = q)) by congruence. rewrite Hk, decide_True; [done|].
    rewrite Ho' in Hq. apply elem_of_window, elem_of_touch in Hq as [?|[? _]]; done.
Qed.

(** ** The property of the directory *)

(** The directory is a least-recently-recorded cache of the whole
    gossip history: it knows exactly the last 4096 distinct peers recorded (so
    never more), each at the address recorded last, [snapshot_excluding] lists
    them without the excluded one, and [record] answers [true] exactly for a
    peer it does not currently know. *)
Theorem directory_is_lru (h : list (PeerId * rstr)) (p : PeerId) (a : rstr) :
  let s := record_all h new in
  order s = window DEFAULT_PEER_DIRECTORY_CAPACITY (recency h)
  ∧ length (order s) ≤ DEFAULT_PEER_DIRECTORY_CAPACITY ∧ NoDup (order s)
  ∧ (∀ q b, known s !! q = Some b ↔ q ∈ order s ∧ last_addr h q = Some b)
  ∧ (∀ q b, (q, b) ∈ snapshot_excluding s p ↔ known s !! q = Some b ∧ q ≠ p)
  ∧ (record p a s).1 = negb (bool_decide (p ∈ order s)).
Proof.
  intros s. destruct (record_all_spec h) as (Hwf & Ho & Hk). fold s in Hwf, Ho, Hk.
  pose proof Hwf as (Hnd & _ & Hlen). split_and!; [done..| | |].
  - intros q b. rewrite Hk. case_decide; intuition congruence.
  - intros q b. unfold snapshot_excluding. rewrite list_elem_of_In, filter_In, <-list_elem_of_In.
    rewrite elem_of_map_to_list. simpl. to_prop. done.
  - by apply record_spec.
Qed.
