(* ===== verification/Membership.v ===== *)
(** * Connection state of every remembered peer ([thoth-mesh/src/membership.rs])

    The invariant [wf] is the comment of the source made precise: the eviction
    queue lists exactly the disconnected peers, so popping it never forgets a
    connected one. *)

From S2P Require Import Prelude.
From S2P Require Import Text.
From S2P Require Import Message.

Definition DEFAULT_MEMBERSHIP_DISCONNECTED_CAPACITY : nat := 4096.

Record PeerStatus := MkPeerStatus { connected : bool; listen_addr : option rstr }.

Record Membership := MkMembership {
  peers : gmap PeerId PeerStatus;
  disconnected_order : list PeerId;
  disconnected_evictions_total : Z;
}.

Definition new : Membership := MkMembership ∅ [] 0.

Definition mark_connected (peer_id : PeerId) (addr : option rstr) (s : Membership) : Membership :=
  MkMembership (<[peer_id := MkPeerStatus true addr]> (peers s))
    (retain (λ id, negb (bool_decide (id = peer_id))) (disconnected_order s))
    (disconnected_evictions_total s).

Definition mark_disconnected (peer_id : PeerId) (s : Membership) : Membership :=
  match peers s !! peer_id with
  | None => s
  | Some status =>
      let was_connected := connected status in
      let peers1 := <[peer_id := MkPeerStatus false (listen_addr status)]> (peers s) in
      if was_connected then
        let order1 := disconnected_order s ++ [peer_id] in
        if DEFAULT_MEMBERSHIP_DISCONNECTED_CAPACITY <? length order1 then
          match order1 with
          | oldest :: order2 =>
              MkMembership (delete oldest peers1) order2 (fetch_add 1 (disconnected_evictions_total s))
          | [] => MkMembership peers1 order1 (disconnected_evictions_total s)
          end
        else MkMembership peers1 order1 (disconnected_evictions_total s)
      else MkMembership peers1 (disconnected_order s) (disconnected_evictions_total s)
  end.

Definition is_reachable (s : Membership) (peer_id : PeerId) : bool :=
  match peers s !! peer_id with Some status => connected status | None => false end.

Definition snapshot (s : Membership) : gmap PeerId PeerStatus := peers s.

Definition connected_count (s : Membership) : nat :=
  length (List.filter (λ p, connected p.2) (map_to_list (peers s))).

Definition disconnected_evictions (s : Membership) : Z := disconnected_evictions_total s.

Definition wf (s : Membership) : Prop :=
  NoDup (disconnected_order s)
  ∧ (∀ p, p ∈ disconnected_order s ↔ ∃ st, peers s !! p = Some st ∧ connected st = false)
  ∧ length (disconnected_order s) ≤ DEFAULT_MEMBERSHIP_DISCONNECTED_CAPACITY.

(** ** Histories of connections *)

Inductive Event : Type :=
| Up (p : PeerId) (addr : option rstr)
| Down (p : PeerId).

Definition apply_event (e : Event) (s : Membership) : Membership :=
  match e with Up p a => mark_connected p a s | Down p => mark_disconnected p s end.

Definition replay (h : list Event) : Membership := fold_left (λ s e, apply_event e s) h new.

(** What the last event about [p] says. *)
Definition last_up (p : PeerId) (h : list Event) : bool :=
  fold_left (λ b e, match e with
                    | Up q _ => if decide (q = p) then true else b
                    | Down q => if decide (q = p) then false else b
                    end) h false.

(** ** Lemmas *)

Lemma membership_wf_new : wf new.
Proof.
  split_and!; simpl; [constructor| |lia]. intros p. rewrite lookup_empty.
  split; [by intros ?%not_elem_of_nil|by intros (? & ? & _)].
Qed.

Lemma mark_connected_wf p a s : wf s → wf (mark_connected p a s).
Proof.
  intros (Hnd & Hq & Hlen). split_and!; simpl.
  - by apply NoDup_retain.
  - intros q. rewrite elem_of_retain, Hq, negb_true_iff, bool_decide_eq_false.
    destruct (decide (q = p)) as [->|].
    + rewrite lookup_insert_eq. split; [by intros [_ ?]|]. by intros (st & [= <-] & ?).
    + rewrite lookup_insert_ne by done. tauto.
  - etrans; [apply length_retain|done].
Qed.

Lemma mark_disconnected_wf p s : wf s → wf (mark_disconnected p s).
Proof.
  intros (Hnd & Hq & Hlen). unfold mark_disconnected.
  destruct (peers s !! p) as [[c a]|] eqn:Hp; [|done]. simpl.
  set (peers1 := <[p:=_]> (peers s)).
  assert (∀ q, (∃ st, peers1 !! q = Some st ∧ connected st = false)
    ↔ q = p ∨ ∃ st, peers s !! q = Some st ∧ connected st = false) as Hpeers1.
  { intros q. unfold peers1. destruct (decide (q = p)) as [->|].
    - rewrite lookup_insert_eq. split; [auto|eauto].
    - rewrite lookup_insert_ne by done. tauto. }
  destruct c.
  - assert (p ∉ disconnected_order s) as Hp'.
    { rewrite Hq. intros (st & ? & ?); simplify_eq. }
    assert (NoDup (disconnected_order s ++ [p])) as Hnd1.
    { apply NoDup_app. split_and!; [done| |apply NoDup_singleton].
      by intros q ? ->%list_elem_of_singleton. }
    assert (∀ q, q ∈ disconnected_order s ++ [p] ↔ ∃ st, peers1 !! q = Some st ∧ connected st = false)
      as Hq1.
    { intros q. rewrite Hpeers1, elem_of_app, Hq, list_elem_of_singleton. tauto. }
    pose proof (length_app (disconnected_order s) [p]) as Hl. simpl in Hl.
    destruct (Nat.ltb_spec DEFAULT_MEMBERSHIP_DISCONNECTED_CAPACITY (length (disconnected_order s ++ [p]))) as [Hover|].
    + destruct (disconnected_order s ++ [p]) as [|oldest order2]; [simpl in Hover; lia|].
      apply NoDup_cons in Hnd1 as [Hold Hnd1]. split_and!; simpl; [done| |simpl in Hl; lia].
      intros q. specialize (Hq1 q). rewrite elem_of_cons in Hq1.
      destruct (decide (q = oldest)) as [->|].
      * rewrite lookup_delete_eq. split; [done|by intros (? & ? & _)].
      * rewrite lookup_delete_ne by done. tauto.
    + by split_and!.
  - split_and!; simpl; [done| |done]. intros q. rewrite Hpeers1, Hq.
    split; [auto|]. intros [->|?]; [eauto|done].
Qed.
#[export] Hint Resolve membership_wf_new mark_connected_wf mark_disconnected_wf : thoth.

Lemma reachable_connected p q a s :
  is_reachable (mark_connected p a s) q = if decide (p = q) then true else is_reachable s q.
Proof.
  unfold is_reachable; simpl. case_decide as H; [subst; by rewrite lookup_insert_eq|].
  by rewrite lookup_insert_ne.
Qed.

(** The evicted peer is disconnected, so reachability never suffers. *)
Lemma reachable_disconnected p q s :
  wf s → is_reachable (mark_disconnected p s) q = if decide (p = q) then false else is_reachable s q.
Proof.
  intros Hwf. pose proof (mark_disconnected_wf p s Hwf) as Hwf1. revert Hwf1.
  destruct Hwf as (Hnd & Hq & _). unfold is_reachable, mark_disconnected.
  destruct (peers s !! p) as [[c a]|] eqn:Hp.
  2:{ intros _. case_decide; [subst; by rewrite Hp|done]. }
  simpl. set (peers1 := <[p:=_]> (peers s)).
  assert (match peers1 !! q with Some st => connected st | None => false end
    = if decide (p = q) then false
      else match peers s !! q with Some st => connected st | None => false end) as H1.
  { unfold peers1. case_decide as H; [subst; by rewrite lookup_insert_eq|by rewrite lookup_insert_ne]. }
  destruct c; [|done].
  destruct (Nat.ltb _ _); [|done]. destruct (disconnected_order s ++ [p]) as [|oldest order2] eqn:E; [done|].
  intros _. simpl. destruct (decide (oldest = q)) as [->|].
  - rewrite lookup_delete_eq. case_decide as Hpq; [done|].
    assert (q ∈ disconnected_order s ++ [p]) as Hin by (rewrite E; apply list_elem_of_here).
    rewrite elem_of_app, Hq, list_elem_of_singleton in Hin.
    destruct Hin as [(st & -> & ?)|?]; congruence.
  - by rewrite lookup_delete_ne.
Qed.

Lemma replay_snoc h e : replay (h ++ [e]) = apply_event e (replay h).
Proof. unfold replay. by rewrite fold_left_app. Qed.

Lemma replay_wf h : wf (replay h).
Proof.
  induction h as [|e h IH] using rev_ind; [apply membership_wf_new|]. rewrite replay_snoc.
  destruct e; simpl; auto with thoth.
Qed.

Lemma replay_reachable h p : is_reachable (replay h) p = last_up p h.
Proof.
  induction h as [|e h IH] using rev_ind; [done|]. rewrite replay_snoc.
  unfold last_up. rewrite fold_left_app. fold (last_up p h). rewrite <-IH.
  destruct e; simpl; [apply reachable_connected|apply reachable_disconnected, replay_wf].
Qed.

Lemma filter_split_length {A} (f : A → bool) l :
  length (List.filter f l) + length (List.filter (λ x, negb (f x)) l) = length l.
Proof. induction l as [|x l IH]; simpl; [done|]. destruct (f x); simpl; lia. Qed.

(** The entries are the connected peers and at most a capacity of others. *)
Lemma size_peers_bound s :
  wf s → size (peers s) = connected_count s + length (disconnected_order s).
Proof.
  intros (Hnd & Hq & _). unfold connected_count. rewrite <-length_map_to_list.
  rewrite <-(filter_split_length (λ p, connected p.2)). f_equal.
  rewrite <-(length_fmap fst). apply Permutation_length. apply NoDup_Permutation; [|done|].
  - pose proof (NoDup_fst_map_to_list (peers s)) as Hfst.
    induction (map_to_list (peers s)) as [|x l IH]; simpl in *; [constructor|].
    apply NoDup_cons in Hfst as [Hx Hl]. destruct (negb (connected x.2)); simpl; [|by apply IH].
    constructor; [|by apply IH]. intros (y & Hy & Hin)%list_elem_of_fmap. apply Hx.
    rewrite Hy. apply list_elem_of_fmap_2. by apply list_elem_of_In, filter_In, proj1, list_elem_of_In in Hin.
  - intros p. rewrite Hq, list_elem_of_fmap. split.
    + intros ([p' st] & -> & Hin). apply list_elem_of_In, filter_In in Hin as [Hin Hc].
      apply list_elem_of_In, elem_of_map_to_list in Hin. simpl in Hc. apply negb_true_iff in Hc. eauto.
    + intros (st & Hst & Hc). exists (p, st). split; [done|].
      apply list_elem_of_In, filter_In. rewrite <-list_elem_of_In, elem_of_map_to_list. simpl.
      by rewrite Hc.
Qed.

(** ** The property of the registry *)

(** Whatever came up and went down so far, a peer counts as
    reachable exactly when the last thing that happened to it is that it came
    up - eviction never touches a connected peer - and what is remembered is
    the connected peers plus at most 4096 disconnected ones, each queued once. *)
Theorem membership_tracks_events (h : list Event) (p : PeerId) :
  let s := replay h in
  is_reachable s p = last_up p h
  ∧ (p ∈ disconnected_order s ↔ ∃ st, snapshot s !! p = Some st ∧ connected st = false)
  ∧ NoDup (disconnected_order s)
  ∧ size (snapshot s) ≤ connected_count s + DEFAULT_MEMBERSHIP_DISCONNECTED_CAPACITY
  ∧ is_reachable (mark_connected p None s) p = true
  ∧ is_reachable (mark_disconnected p s) p = false.
Proof.
  intros s. pose proof (replay_wf h) as Hwf. fold s in Hwf.
  rewrite reachable_connected, reachable_disconnected, !decide_True by done.
  destruct Hwf as (Hnd & Hq & Hlen) eqn:E. split_and!; [apply replay_reachable|apply Hq|done| |done..].
  unfold snapshot. rewrite size_peers_bound by done. lia.
Qed.
