(* ===== verification/Handshake.v ===== *)
(** * The peer handshake ([thoth-mesh/src/handshake.rs])

    The stream is what the caller passes, with the operations of the framing;
    the codec is [ciborium]'s. *)

From S2P Require Import Prelude.
From S2P Require Import Text.
From S2P Require Import Runtime.
From S2P Require Import Message.
From S2P Require Import Framing.

Record PeerInfo := MkPeerInfo {
  peer_id : PeerId;
  listen_addr : option rstr;
  hello_id : MessageId;
}.

Inductive HandshakeError (IoError CborError : Type) : Type :=
| Framing (e : FramingError IoError)
| Decode (e : CborError)
| Encode (e : CborError)
| UnexpectedMessage (k : MessageKind).
Arguments Framing {IoError CborError} e.
Arguments Decode {IoError CborError} e.
Arguments Encode {IoError CborError} e.
Arguments UnexpectedMessage {IoError CborError} k.

(** [n] is the index of the identifier the new envelope draws. *)
Definition hello `{Uuids} (n : nat) (sender : PeerId) (addr : option rstr) : Envelope :=
  Envelope.new n sender (Hello addr).

Section handshake.
Context {S IoError CborError : Type}.
Context (write_all : bytes → ST S (Result () IoError)).
Context (read_exact : nat → ST S (Result bytes IoError)).
Context (into_writer : Envelope → Result bytes CborError).
Context (from_reader : bytes → Result Envelope CborError).

Definition send (envelope : Envelope) : ST S (Result () (HandshakeError IoError CborError)) :=
  match Envelope.to_bytes into_writer envelope with
  | Err e => mret (Err (Encode e))
  | Ok b => r ← AsyncFraming.write_frame write_all b; mret (map_err Framing r)
  end.

Definition recv_hello : ST S (Result PeerInfo (HandshakeError IoError CborError)) :=
  r ← AsyncFraming.read_frame read_exact;
  match r with
  | Err e => mret (Err (Framing e))
  | Ok b =>
      match Envelope.from_bytes from_reader b with
      | Err e => mret (Err (Decode e))
      | Ok envelope =>
          match kind envelope with
          | Hello addr => mret (Ok (MkPeerInfo (sender envelope) addr (id envelope)))
          | other => mret (Err (UnexpectedMessage other))
          end
      end
  end.

Definition dial_handshake `{Uuids} (n : nat) (my_id : PeerId) (my_listen_addr : option rstr) :
    ST S (Result PeerInfo (HandshakeError IoError CborError)) :=
  r ← send (hello n my_id my_listen_addr);
  match r with
  | Err e => mret (Err e)
  | Ok _ => recv_hello
  end.
End handshake.

(** A duplex stream: what was written, and what is left to read. *)
Definition duplex : Type := bytes * bytes.
Definition duplex_write_all (b : bytes) : ST duplex (Result () io_error) := λ s,
  (Ok (), (s.1 ++ b, s.2)).
Definition duplex_read_exact (n : nat) : ST duplex (Result bytes io_error) := λ s,
  let '(r, rest) := slice_read_exact n s.2 in (r, (s.1, rest)).

(** ** Lemmas *)

Lemma duplex_write_frame b out inp :
  (Z.of_nat (length b) ≤ MAX_FRAME_LEN)%Z →
  AsyncFraming.write_frame duplex_write_all b (out, inp) = (Ok (), (out ++ frame b, inp)).
Proof.
  intros Hb. unfold AsyncFraming.write_frame, u32_try_from, u32_MAX, MAX_FRAME_LEN in *.
  destruct (Z.leb_spec (Z.of_nat (length b)) (2 ^ 32 - 1)); [|lia].
  rewrite Z.gtb_ltb. destruct (Z.ltb_spec (16 * 1024 * 1024) (Z.of_nat (length b))); [lia|].
  unfold mbind, ST_bind, duplex_write_all, frame. cbn [fst snd map_err]. by rewrite <-app_assoc.
Qed.

Lemma duplex_read_frame b out rest :
  (Z.of_nat (length b) ≤ MAX_FRAME_LEN)%Z →
  AsyncFraming.read_frame duplex_read_exact (out, frame b ++ rest) = (Ok b, (out, rest)).
Proof.
  intros Hb. unfold AsyncFraming.read_frame, mbind, ST_bind, duplex_read_exact, frame. cbn [fst snd].
  rewrite <-app_assoc, slice_read_exact_app by apply to_be_bytes_length.
  unfold MAX_FRAME_LEN in *. rewrite from_to_be_bytes by lia. rewrite Z.gtb_ltb.
  destruct (Z.ltb_spec (16 * 1024 * 1024) (Z.of_nat (length b))); [lia|].
  rewrite Nat2Z.id. cbn [fst snd]. by rewrite slice_read_exact_app.
Qed.

(** ** The property of the handshake *)

Section properties.
Context `{Uuids} {CborError : Type}.
Context (into_writer : Envelope → Result bytes CborError).
Context (from_reader : bytes → Result Envelope CborError).

(** What [ciborium] documents: reading what it wrote gives the value back. *)
Definition codec_roundtrip : Prop := ∀ e b, into_writer e = Ok b → from_reader b = Ok e.

Definition dial (n : nat) (me : PeerId) (addr : option rstr) :=
  dial_handshake duplex_write_all duplex_read_exact into_writer from_reader n me addr.

(** The dialer puts exactly its framed [Hello] on the wire, then
    takes from the reply its sender, listen address and id when it is a
    [Hello], refuses any other message by its kind, and leaves what follows
    the reply unread. The peer that reads the dialer's frame learns the
    dialer's own identity and address. *)
Theorem handshake_exchanges_identities (n : nat) (me : PeerId) (addr : option rstr)
    (reply : Envelope) (b b' out rest : bytes) :
  codec_roundtrip →
  into_writer (hello n me addr) = Ok b → into_writer reply = Ok b' →
  (Z.of_nat (length b) ≤ MAX_FRAME_LEN)%Z → (Z.of_nat (length b') ≤ MAX_FRAME_LEN)%Z →
  dial n me addr (out, frame b' ++ rest)
  = (match kind reply with
     | Hello a => Ok (MkPeerInfo (sender reply) a (id reply))
     | k => Err (UnexpectedMessage k)
     end, (out ++ frame b, rest))
  ∧ recv_hello duplex_read_exact from_reader (out, frame b ++ rest)
    = (Ok (MkPeerInfo me addr (MessageId.new n)), (out, rest)).
Proof.
  intros Hc Hb Hb' Hl Hl'.
  assert (∀ e c out rest, into_writer e = Ok c → (Z.of_nat (length c) ≤ MAX_FRAME_LEN)%Z →
    recv_hello duplex_read_exact from_reader (out, frame c ++ rest)
    = (match kind e with
       | Hello a => Ok (MkPeerInfo (sender e) a (id e))
       | k => Err (UnexpectedMessage k)
       end, (out, rest))) as Hrecv.
  { intros e c out' rest' He Hlc. unfold recv_hello, mbind, ST_bind.
    rewrite duplex_read_frame by done. unfold Envelope.from_bytes. rewrite (Hc e c He).
    cbn [and_then]. by destruct (kind e). }
  split; [|by rewrite (Hrecv (hello n me addr) b out rest Hb Hl)].
  unfold dial, dial_handshake, send, Envelope.to_bytes. rewrite Hb. cbn [and_then].
  unfold mbind at 1, ST_bind at 1. unfold mbind at 1, ST_bind at 1.
  rewrite duplex_write_frame by done. cbn [map_err mret ST_ret]. by apply Hrecv.
Qed.
End properties.

(** The witness runs the theorem with a codec that numbers one envelope. *)
Lemma handshake_exchanges_identities_witness :
  let U := Reference.ref_uuids in
  let me := PeerId.MkPeerId 3 in
  let e := hello 1 me None in
  let enc (x : Envelope) : Result bytes () := if decide (x = e) then Ok [42%Z] else Err () in
  let dec (b : bytes) : Result Envelope () := if decide (b = [42%Z]) then Ok e else Err () in
  dial enc dec 1 me None ([], frame [42%Z]) = (Ok (MkPeerInfo me None (MessageId.new 1)), (frame [42%Z], [])).
Proof.
  intros U me e enc dec.
  assert (enc e = Ok [42%Z]) as He by (unfold enc; by rewrite decide_True).
  refine (proj1 (handshake_exchanges_identities enc dec 1 me None e [42%Z] [42%Z] [] []
    _ He He _ _)); [|by vm_compute..].
  intros x b. unfold enc. case_decide; [|done]. intros [= <-]. unfold dec.
  rewrite decide_True by done. congruence.
Defined.
