(* ===== verification/SeenIds.v ===== *)
(** * Duplicate detection ([SeenIds] of [thoth-mesh-broker/src/lib.rs])

    A bounded record of recently seen identifiers: [window_of_accepted] states
    it as a sliding window over the identifiers accepted so far. *)

From S2P Require Import Prelude.
From S2P Require Import Message.

Definition DEFAULT_DEDUP_CAPACITY : nat := 4096.

Record SeenIds := MkSeenIds {
  capacity : nat;
  order : list MessageId;
  set : gset MessageId;
}.

Definition new (capacity : nat) : SeenIds := MkSeenIds capacity [] ∅.

Definition record (id : MessageId) : ST SeenIds bool := λ s,
  if bool_decide (id ∈ set s) then (false, s)
  else
    let set1 := {[id]} ∪ set s in
    let order1 := order s ++ [id] in
    if capacity s <? length order1 then
      match order1 with
      | oldest :: order2 => (true, MkSeenIds (capacity s) order2 (set1 ∖ {[oldest]}))
      | [] => (true, MkSeenIds (capacity s) order1 set1)
      end
    else (true, MkSeenIds (capacity s) order1 set1).

(** The queue lists the set, once each, within the capacity. *)
Definition wf (s : SeenIds) : Prop :=
  NoDup (order s) ∧ (∀ i, i ∈ set s ↔ i ∈ order s) ∧ length (order s) ≤ capacity s.

(** ** The abstract window: what was accepted, in order *)

Definition accept (n : nat) (acc : list MessageId) (id : MessageId) : list MessageId :=
  if decide (id ∈ window n acc) then acc else acc ++ [id].
Definition accepted (n : nat) (ids : list MessageId) : list MessageId :=
  fold_left (accept n) ids [].

Fixpoint record_all (ids : list MessageId) (s : SeenIds) : SeenIds :=
  match ids with [] => s | i :: ids' => record_all ids' (record i s).2 end.

(** ** Lemmas *)

Lemma seen_wf_new n : wf (new n).
Proof. split_and!; simpl; [constructor|set_solver|lia]. Qed.

Lemma record_seen id s : wf s → (record id s).1 = negb (bool_decide (id ∈ order s)).
Proof.
  intros (_ & Hset & _). unfold record. rewrite (bool_decide_ext _ _ (Hset id)).
  case_bool_decide; [done|]. destruct (capacity s <? _); [|done]. by destruct (order s ++ [id]).
Qed.

Lemma record_order id s :
  wf s →
  order (record id s).2
  = (if decide (id ∈ order s) then order s else window (capacity s) (order s ++ [id]))
  ∧ capacity (record id s).2 = capacity s.
Proof.
  intros (Hnd & Hset & Hlen). unfold record. rewrite (bool_decide_ext _ _ (Hset id)).
  case_bool_decide as Hin; [by rewrite decide_True|]. rewrite decide_False by done.
  unfold window. rewrite length_app. simpl.
  destruct (Nat.ltb_spec (capacity s) (length (order s) + 1)).
  - replace (length (order s) + 1 - capacity s) with 1 by lia. by destruct (order s ++ [id]).
  - replace (length (order s) + 1 - capacity s) with 0 by lia. done.
Qed.

Lemma seen_record_wf id s : wf s → wf (record id s).2.
Proof.
  intros Hwf. destruct (record_order id s Hwf) as [Ho Hc]. unfold wf. rewrite Ho, Hc. clear Ho Hc.
  destruct Hwf as (Hnd & Hset & Hlen).
  unfold record. rewrite (bool_decide_ext _ _ (Hset id)).
  case_bool_decide as Hin; [by rewrite decide_True|]. rewrite decide_False by done.
  assert (NoDup (order s ++ [id])) as Hnd1.
  { apply NoDup_app. split_and!; [done| |apply NoDup_singleton].
    by intros q ? ->%list_elem_of_singleton. }
  assert (∀ i, i ∈ {[id]} ∪ set s ↔ i ∈ order s ++ [id]) as Hset1.
  { intros i. rewrite elem_of_union, elem_of_singleton, Hset, elem_of_app, list_elem_of_singleton. tauto. }
  split_and!.
  - eapply sublist_NoDup; [exact Hnd1|apply sublist_drop].
  - unfold window. rewrite length_app. simpl.
    destruct (Nat.ltb_spec (capacity s) (length (order s) + 1)).
    + replace (length (order s) + 1 - capacity s) with 1 by lia.
      destruct (order s ++ [id]) as [|x l]; simpl; [apply Hset1|].
      intros i. apply NoDup_cons in Hnd1 as [Hx _]. rewrite drop_0, elem_of_difference, Hset1,
        elem_of_cons, elem_of_singleton. intuition congruence.
    + replace (length (order s) + 1 - capacity s) with 0 by lia. apply Hset1.
  - rewrite length_window. lia.
Qed.
#[export] Hint Resolve seen_wf_new seen_record_wf : thoth.

Lemma accept_in n acc id : id ∈ window n acc → accept n acc id = acc.
Proof. intros. unfold accept. by rewrite decide_True. Qed.

Lemma record_all_window ids n s acc :
  wf s → capacity s = n → order s = window n acc →
  let s' := record_all ids s in
  wf s' ∧ capacity s' = n ∧ order s' = window n (fold_left (accept n) ids acc).
Proof.
  revert s acc; induction ids as [|i ids IH]; intros s acc Hwf Hcap Ho; [done|]. simpl.
  destruct (record_order i s Hwf) as [Ho' Hc']. apply IH; [by apply seen_record_wf|congruence|].
  rewrite Ho', Hcap, Ho. unfold accept. destruct (decide (i ∈ window n acc)); [done|apply window_app].
Qed.

(** ** The property *)

(** After any sequence of publishes the record holds exactly the last
    [capacity] identifiers it accepted: an identifier is refused exactly when it
    is one of those, recording it once makes the very next copy a duplicate,
    and memory stays within the capacity. *)
Theorem window_of_accepted (n : nat) (ids : list MessageId) (id : MessageId) :
  let s := record_all ids (new n) in
  order s = window n (accepted n ids)
  ∧ (∀ i, i ∈ set s ↔ i ∈ window n (accepted n ids))
  ∧ length (order s) ≤ n ∧ NoDup (order s)
  ∧ (record id s).1 = negb (bool_decide (id ∈ window n (accepted n ids)))
  ∧ (n ≠ 0 → (record id (record id s).2).1 = false).
Proof.
  intros s. destruct (record_all_window ids n (new n) [] (seen_wf_new n) eq_refl eq_refl)
    as (Hwf & Hcap & Ho). fold s in Hwf, Hcap, Ho. fold (accepted n ids) in Ho.
  pose proof (seen_record_wf id s Hwf) as Hwf'. destruct (record_order id s Hwf) as [Ho' _].
  rewrite !record_seen, Ho by done. destruct Hwf as (Hnd & Hset & Hlen).
  split_and!; [done|by intros i; rewrite Hset, Ho|rewrite length_window; lia|by rewrite <-Ho|done|].
  intros Hn. rewrite Ho', Hcap. apply negb_false_iff, bool_decide_eq_true.
  case_decide; [done|]. unfold window. rewrite length_app. simpl.
  rewrite drop_app_le by lia. apply elem_of_app. right. apply list_elem_of_here.
Qed.

Lemma window_of_accepted_witness :
  let i n := MessageId.MkMessageId n in
  let s := record_all [i 1; i 2; i 1; i 3]%Z (new 2) in
  order s = [i 2; i 3]%Z ∧ (record (i 1%Z) (record (i 1%Z) s).2).1 = false.
Proof.
  intros i s. destruct (window_of_accepted 2 [i 1; i 2; i 1; i 3]%Z (i 1%Z)) as (H & _ & _ & _ & _ & H2).
  split; [exact H|by apply H2].
Defined.
