(* ===== verification/TopicChannel.v ===== *)
(** * One topic's channel: replay buffer, retained message, live receivers
      ([TopicChannel] and [ChannelState] of [thoth-mesh-broker/src/lib.rs])

    [publish] and [subscribe] run under the channel's lock, so a concurrent
    history is a sequence of operations: [step]. The abstract state of a channel
    is the list of everything published on it, and the invariant [tracks] says
    what the buffer, the retained message and the unread queues are of it. *)

From S2P Require Import Prelude.
From S2P Require Import Text.
From S2P Require Import Runtime.
From S2P Require Import Message.

Definition DEFAULT_TOPIC_CHANNEL_CAPACITY : nat := 256.
Definition DEFAULT_REPLAY_BUFFER_CAPACITY : nat := 1024.

(** [backlog.iter().any(|e| e.id == x.id)] *)
Definition has_id (l : list Envelope) (i : MessageId) : bool :=
  existsb (λ e, bool_decide (id e = i)) l.

(** [matches!(&envelope.kind, MessageKind::Publish { payload, .. } if payload.is_empty())] *)
Definition empty_payload (e : Envelope) : bool :=
  match kind e with
  | Publish _ payload _ _ _ _ => bool_decide (payload = [])
  | _ => false
  end.

Section topic_channel.
Context `{Broadcast Envelope}.

Record TopicChannel := MkTopicChannel {
  channel_sender : broadcast_channel Envelope;
  buffer : list Envelope;
  retained : option Envelope;
}.

Definition new : TopicChannel :=
  MkTopicChannel (channel DEFAULT_TOPIC_CHANNEL_CAPACITY) [] None.

Definition subscribe : ST TopicChannel (list Envelope * nat) := λ s,
  let '(receiver, sender) := subscribe_receiver (channel_sender s) in
  let backlog := buffer s in
  let backlog :=
    match retained s with
    | Some r => if negb (has_id backlog (id r)) then r :: backlog else backlog
    | None => backlog
    end in
  ((backlog, receiver), MkTopicChannel sender (buffer s) (retained s)).

Definition retained_snapshot (s : TopicChannel) : option Envelope := retained s.

Definition publish (envelope : Envelope) (retain : bool) : ST TopicChannel nat := λ s,
  let buffer1 := buffer s ++ [envelope] in
  let buffer2 :=
    if DEFAULT_REPLAY_BUFFER_CAPACITY <? length buffer1 then tail buffer1 else buffer1 in
  let retained1 :=
    if retain then if empty_payload envelope then None else Some envelope else retained s in
  let '(sent, sender) := send envelope (channel_sender s) in
  (default 0 sent, MkTopicChannel sender buffer2 retained1).

(** The receiver's side, and dropping it (which is unsubscribing). *)
Definition recv_channel (r : nat) : ST TopicChannel (RecvResult Envelope) := λ s,
  let '(res, sender) := recv r (channel_sender s) in
  (res, MkTopicChannel sender (buffer s) (retained s)).
Definition drop_channel (r : nat) (s : TopicChannel) : TopicChannel :=
  MkTopicChannel (drop_receiver r (channel_sender s)) (buffer s) (retained s).

(** ** Histories *)

(** A channel next to the receivers handed out and not yet dropped, and to
    everything published on it, flagged with [retain]. *)
Record Config := MkConfig {
  chan : TopicChannel;
  handles : list nat;
  log : list (Envelope * bool);
}.

Inductive step : Config → Config → Prop :=
| StepPublish s rs h e keep :
    step (MkConfig s rs h) (MkConfig (publish e keep s).2 rs (h ++ [(e, keep)]))
| StepSubscribe s rs h :
    step (MkConfig s rs h) (MkConfig (subscribe s).2 ((subscribe s).1.2 :: rs) h)
| StepRecv s rs h r :
    r ∈ rs → step (MkConfig s rs h) (MkConfig (recv_channel r s).2 rs h)
| StepDrop s rs h r :
    step (MkConfig s rs h)
      (MkConfig (drop_channel r s) (retain (λ x, negb (bool_decide (x = r))) rs) h).

Inductive reachable : Config → Prop :=
| ReachNew : reachable (MkConfig new [] [])
| ReachStep c c' : reachable c → step c c' → reachable c'.

(** The last value kept: set by a retained publish, cleared by an empty one. *)
Definition retained_of (h : list (Envelope * bool)) : option Envelope :=
  fold_left (λ r x, if x.2 : bool then if empty_payload x.1 then None else Some x.1 else r) h None.

Context `{!BroadcastLaws Envelope}.

Definition unread_queues (s : TopicChannel) : gmap nat (list Envelope) := unread (channel_sender s).

(** Every receiver's unread queue is a suffix of the history. *)
Definition tracks (s : TopicChannel) (h : list (Envelope * bool)) : Prop :=
  buffer s = window DEFAULT_REPLAY_BUFFER_CAPACITY h.*1
  ∧ retained s = retained_of h
  ∧ capacity (channel_sender s) = DEFAULT_TOPIC_CHANNEL_CAPACITY
  ∧ ∀ r q, unread_queues s !! r = Some q → q `suffix_of` h.*1.

(** ** Lemmas *)

Lemma has_id_true l i : has_id l i = true ↔ ∃ e, e ∈ l ∧ id e = i.
Proof.
  unfold has_id. rewrite existsb_exists. split.
  - intros (e & Hin%list_elem_of_In & He%bool_decide_eq_true). eauto.
  - intros (e & Hin%list_elem_of_In & He). exists e. by rewrite bool_decide_eq_true.
Qed.

Lemma publish_fields e retain s :
  let s' := (publish e retain s).2 in
  buffer s' = (if DEFAULT_REPLAY_BUFFER_CAPACITY <? length (buffer s ++ [e])
               then tail (buffer s ++ [e]) else buffer s ++ [e])
  ∧ retained s' = (if retain then if empty_payload e then None else Some e else retained s)
  ∧ channel_sender s' = (send e (channel_sender s)).2.
Proof. unfold publish. by destruct (send e (channel_sender s)). Qed.

(** How many receivers a publish reaches: all of them. *)
Lemma publish_sent e retain s : (publish e retain s).1 = size (unread_queues s).
Proof.
  unfold publish, unread_queues. destruct (send e (channel_sender s)) as [r b'] eqn:E.
  apply send_spec in E as (-> & _ & _). simpl. case_decide as Hu; [|done]. by rewrite Hu, map_size_empty.
Qed.

Lemma publish_unread e retain s :
  unread_queues (publish e retain s).2 = (λ q, q ++ [e]) <$> unread_queues s.
Proof.
  unfold unread_queues. destruct (publish_fields e retain s) as (_ & _ & ->).
  destruct (send e (channel_sender s)) as [r b'] eqn:E. simpl. by apply send_spec in E as (_ & -> & _).
Qed.

Lemma publish_receiver_count e retain s :
  receiver_count (channel_sender (publish e retain s).2) = receiver_count (channel_sender s).
Proof.
  rewrite !receiver_count_spec.
  change (size (unread_queues (publish e retain s).2) = size (unread_queues s)).
  by rewrite publish_unread, map_size_fmap.
Qed.

Lemma subscribe_spec s :
  let '((backlog, r), s') := subscribe s in
  backlog = (match retained s with
             | Some x => if negb (has_id (buffer s) (id x)) then x :: buffer s else buffer s
             | None => buffer s
             end)
  ∧ buffer s' = buffer s ∧ retained s' = retained s
  ∧ capacity (channel_sender s') = capacity (channel_sender s)
  ∧ unread_queues s !! r = None ∧ unread_queues s' = <[r := []]> (unread_queues s).
Proof.
  unfold subscribe, unread_queues. destruct (subscribe_receiver (channel_sender s)) as [r b'] eqn:E.
  apply subscribe_receiver_spec in E as (Hr & Hu & Hc). by split_and!.
Qed.

Lemma recv_unread r s q :
  unread_queues s !! r = Some q →
  ∃ q', unread_queues (recv_channel r s).2 = <[r := q']> (unread_queues s) ∧ q' `suffix_of` q
    ∧ capacity (channel_sender (recv_channel r s).2) = capacity (channel_sender s).
Proof.
  intros Hq. unfold recv_channel, unread_queues in *.
  destruct (recv r (channel_sender s)) as [res b'] eqn:E. simpl.
  destruct (recv_spec r q _ _ _ Hq E) as [Hc Hcase]. destruct (decide _) in Hcase.
  - destruct Hcase as [_ ->]. eexists. split_and!; [done| |done].
    exists (take (length q - capacity (channel_sender s)) q). by rewrite take_drop.
  - destruct q as [|a q].
    + destruct Hcase as [_ ->]. exists []. split_and!; [|done..]. by rewrite insert_id.
    + destruct Hcase as [_ ->]. exists q. split_and!; [done| |done]. by exists [a].
Qed.

Lemma tracks_new : tracks new [].
Proof.
  unfold tracks, unread_queues. simpl. rewrite channel_unread, channel_capacity.
  split_and!; [done..|]. intros r q. by rewrite lookup_empty.
Qed.

Lemma fst_snoc (h : list (Envelope * bool)) e b : (h ++ [(e, b)]).*1 = h.*1 ++ [e].
Proof. by rewrite fmap_app. Qed.

Lemma tracks_publish e retain s h :
  tracks s h → tracks (publish e retain s).2 (h ++ [(e, retain)]).
Proof.
  intros (Hb & Hr & Hc & Hu). destruct (publish_fields e retain s) as (Hb' & Hr' & Hs').
  unfold tracks. rewrite Hb', Hr', Hb, Hr, publish_unread, fst_snoc. split_and!.
  - rewrite window_push; [apply window_app|]. rewrite length_window. lia.
  - unfold retained_of. by rewrite fold_left_app.
  - rewrite Hs'. destruct (send e (channel_sender s)) as [x b'] eqn:E. simpl.
    apply send_spec in E as (_ & _ & ->). done.
  - intros r q. rewrite lookup_fmap_Some. intros (q' & <- & [k Hk]%Hu). exists k.
    by rewrite Hk, app_assoc.
Qed.

Lemma tracks_subscribe s h : tracks s h → tracks (subscribe s).2 h.
Proof.
  intros (Hb & Hr & Hc & Hu). pose proof (subscribe_spec s) as Hs.
  destruct (subscribe s) as [[backlog r] s']. destruct Hs as (_ & Hb' & Hr' & Hc' & _ & Hu').
  simpl. unfold tracks. rewrite Hb', Hr', Hc', Hu'. split_and!; [done..|].
  intros i q. rewrite lookup_insert_Some. intros [[_ <-]|[_ Hq]]; [apply suffix_nil|by eapply Hu].
Qed.

Lemma tracks_recv r s h :
  is_Some (unread_queues s !! r) → tracks s h → tracks (recv_channel r s).2 h.
Proof.
  intros [q Hq] (Hb & Hr & Hc & Hu). destruct (recv_unread r s q Hq) as (q' & Hu' & Hsuf & Hc').
  assert (buffer (recv_channel r s).2 = buffer s ∧ retained (recv_channel r s).2 = retained s) as [Hb' Hr'].
  { unfold recv_channel. by destruct (recv r (channel_sender s)). }
  unfold tracks. rewrite Hb', Hr', Hc', Hu'. split_and!; [done..|].
  intros i q0. rewrite lookup_insert_Some. intros [[_ <-]|[_ Hi]]; [|by eapply Hu].
  etrans; [done|by eapply Hu].
Qed.

Lemma tracks_drop r s h : tracks s h → tracks (drop_channel r s) h.
Proof.
  intros (Hb & Hr & Hc & Hu). unfold tracks, drop_channel, unread_queues in *. simpl.
  destruct (drop_receiver_spec r (channel_sender s)) as [-> ->]. split_and!; [done..|].
  intros i q [_ Hi]%lookup_delete_Some. by eapply Hu.
Qed.

(** The receivers handed out are the live ones. *)
Definition config_ok (c : Config) : Prop :=
  tracks (chan c) (log c) ∧ ∀ r, r ∈ handles c ↔ is_Some (unread_queues (chan c) !! r).

Lemma step_config_ok c c' : config_ok c → step c c' → config_ok c'.
Proof.
  intros Hok Hstep; revert Hok; destruct Hstep as [s rs h e keep|s rs h|s rs h r Hr|s rs h r];
    intros [Ht Hh]; split; cbn [chan handles log] in *.
  - by apply tracks_publish.
  - intros r. by rewrite publish_unread, lookup_fmap, fmap_is_Some.
  - by apply tracks_subscribe.
  - pose proof (subscribe_spec s) as Hs. destruct (subscribe s) as [[backlog x] s'].
    destruct Hs as (_ & _ & _ & _ & _ & Hu). simpl. intros r.
    rewrite Hu, elem_of_cons, Hh, lookup_insert_is_Some. destruct (decide (x = r)); intuition congruence.
  - apply tracks_recv; [by apply Hh|done].
  - intros i. rewrite Hh. apply Hh in Hr as [q Hq].
    destruct (recv_unread r s q Hq) as (q' & -> & _ & _). rewrite lookup_insert_is_Some.
    destruct (decide (r = i)) as [->|]; [|intuition congruence]. split; eauto.
  - by apply tracks_drop.
  - intros i. rewrite elem_of_retain, Hh, negb_true_iff, bool_decide_eq_false.
    unfold unread_queues. simpl. destruct (drop_receiver_spec r (channel_sender s)) as [-> _].
    destruct (decide (i = r)) as [->|].
    + rewrite lookup_delete_eq. split; [by intros [_ ?]|by intros [? ?]].
    + rewrite lookup_delete_ne by done. tauto.
Qed.

Lemma reachable_ok c : reachable c → config_ok c.
Proof.
  induction 1 as [|c c' _ IH Hstep]; [|by eapply step_config_ok].
  split; [apply tracks_new|]. intros r. simpl. unfold unread_queues. simpl.
  rewrite channel_unread, lookup_empty. split; [by intros ?%not_elem_of_nil|by intros [? ?]].
Qed.

Definition publish_all (l : list (Envelope * bool)) (s : TopicChannel) : TopicChannel :=
  fold_left (λ s x, (publish x.1 x.2 s).2) l s.

Lemma publish_all_unread l s r q :
  unread_queues s !! r = Some q → unread_queues (publish_all l s) !! r = Some (q ++ l.*1).
Proof.
  revert s q; induction l as [|[e b] l IH]; intros s q Hq; simpl; [by rewrite app_nil_r|].
  rewrite (IH _ (q ++ [e])); [by rewrite <-app_assoc|]. rewrite publish_unread, lookup_fmap, Hq. done.
Qed.

(** What a lagging receiver lost is still in the replay buffer, as long as it
    is not further behind than the buffer is long. *)
Lemma lagged_in_buffer s h r q :
  tracks s h → unread_queues s !! r = Some q → length q ≤ DEFAULT_REPLAY_BUFFER_CAPACITY →
  q `suffix_of` buffer s.
Proof.
  intros (Hb & _ & _ & Hu) Hq Hle. destruct (Hu r q Hq) as [k Hk]. rewrite Hb.
  exists (window (DEFAULT_REPLAY_BUFFER_CAPACITY - length q) k). rewrite Hk.
  unfold window. rewrite length_app.
  destruct (decide (length k ≤ DEFAULT_REPLAY_BUFFER_CAPACITY - length q)).
  - replace (length k - _) with 0 by lia. by replace (length k + length q - _) with 0 by lia.
  - rewrite drop_app_le by lia. do 2 f_equal. lia.
Qed.

(** ** The property of a channel *)

(** C24: after any interleaving of publishes, subscribes, reads and drops
    the replay buffer is the last 1024 envelopes published, the retained
    message is the last one set and not cleared, and a new subscriber's backlog
    (that buffer, behind the retained message once it has left the window)
    followed by what its receiver will yield is everything published since, in
    order, with nothing missing and nothing repeated. *)
Theorem channel_no_gap_no_duplicate (c : Config) (l : list (Envelope * bool)) :
  reachable c →
  buffer (chan c) = window DEFAULT_REPLAY_BUFFER_CAPACITY (log c).*1
  ∧ retained_snapshot (chan c) = retained_of (log c)
  ∧ let '((backlog, r), s') := subscribe (chan c) in
    backlog = (match retained_of (log c) with
               | Some x => if has_id (buffer (chan c)) (id x) then [] else [x]
               | None => []
               end) ++ window DEFAULT_REPLAY_BUFFER_CAPACITY (log c).*1
    ∧ r ∉ handles c
    ∧ unread_queues (publish_all l s') !! r = Some l.*1.
Proof.
  intros Hc. destruct (reachable_ok c Hc) as [(Hb & Hr & _ & _) Hh]. split_and!; [done..|].
  pose proof (subscribe_spec (chan c)) as Hs. destruct (subscribe (chan c)) as [[backlog r] s'].
  destruct Hs as (-> & _ & _ & _ & Hfresh & Hu). rewrite <-Hr, <-Hb. split_and!.
  - destruct (retained (chan c)) as [x|]; [|done].
    by destruct (has_id (buffer (chan c)) (id x)).
  - rewrite Hh, Hfresh. by intros [? ?].
  - rewrite (publish_all_unread l s' r []); [done|]. by rewrite Hu, lookup_insert_eq.
Qed.

(** A live receiver's unread queue is a suffix of what was published, so
    reading it yields the envelopes in order; it is told it lagged only once
    more than 256 are unread, and then whatever it skipped, in order, is still
    in the replay buffer for the forwarder to recover, unless it was more than
    1024 behind. *)
Theorem lag_is_recoverable (c : Config) (r : nat) :
  reachable c → r ∈ handles c →
  ∃ q, q `suffix_of` (log c).*1
    ∧ match (recv_channel r (chan c)).1 with
      | Pending => q = []
      | Received e => ∃ q', q = e :: q'
          ∧ unread_queues (recv_channel r (chan c)).2 !! r = Some q'
      | Lagged n => DEFAULT_TOPIC_CHANNEL_CAPACITY < length q ∧ n = length q - DEFAULT_TOPIC_CHANNEL_CAPACITY
          ∧ unread_queues (recv_channel r (chan c)).2 !! r = Some (drop n q)
          ∧ (length q ≤ DEFAULT_REPLAY_BUFFER_CAPACITY →
             ∃ pre, buffer (recv_channel r (chan c)).2 = pre ++ take n q ++ drop n q)
      end.
Proof.
  intros Hc Hr. destruct (reachable_ok c Hc) as [Ht Hh]. apply Hh in Hr as [q Hq].
  exists q. split; [by eapply Ht|]. pose proof (lagged_in_buffer _ _ r q Ht Hq) as Hbuf.
  destruct Ht as (_ & _ & Hcap & _). unfold recv_channel, unread_queues in *.
  destruct (recv r (channel_sender (chan c))) as [res b'] eqn:E.
  destruct (recv_spec r q _ _ _ Hq E) as [_ Hcase]. rewrite Hcap in Hcase. simpl.
  destruct (decide (DEFAULT_TOPIC_CHANNEL_CAPACITY < length q)) as [Hlag|Hlag].
  - destruct Hcase as [-> ->]. rewrite lookup_insert_eq, take_drop. split_and!; [done..|].
    intros [pre Hpre]%Hbuf. eauto.
  - destruct q as [|a q']; destruct Hcase as [-> Hu]; [done|]. exists q'.
    by rewrite Hu, lookup_insert_eq.
Qed.
End topic_channel.

Lemma channel_no_gap_no_duplicate_witness :
  let B := Reference.ref_broadcast Envelope in
  let e n := Sample.publish n (lit "a") [7%Z] true in
  let s := (publish (e 1%Z) true (@new B)).2 in
  (subscribe s).1.1 = [e 1%Z]
  ∧ unread_queues (H := B) (BroadcastLaws0 := Reference.ref_broadcast_laws Envelope)
      (publish_all [(e 2%Z, false); (e 3%Z, true)] (subscribe s).2) !! (subscribe s).1.2
    = Some [e 2%Z; e 3%Z].
Proof.
  intros B e s.
  destruct (@channel_no_gap_no_duplicate B (Reference.ref_broadcast_laws Envelope)
    (MkConfig s [] [(e 1%Z, true)]) [(e 2%Z, false); (e 3%Z, true)]) as (_ & _ & Hs).
  - apply (ReachStep (MkConfig new [] [])); [apply ReachNew|]. apply (StepPublish new [] []).
  - destruct Hs as (_ & _ & Hu). split; [reflexivity|exact Hu].
Defined.

Lemma lag_is_recoverable_witness :
  let B := Reference.ref_broadcast Envelope in
  let e n := Sample.publish n (lit "a") [7%Z] false in
  let s := (publish (e 1%Z) false (subscribe (@new B)).2).2 in
  ∃ q, q `suffix_of` [e 1%Z] ∧ (recv_channel (subscribe (@new B)).1.2 s).1 = Received (e 1%Z) ∧ q ≠ [].
Proof.
  intros B e s.
  destruct (@lag_is_recoverable B (Reference.ref_broadcast_laws Envelope)
    (MkConfig s [(subscribe (@new B)).1.2] [(e 1%Z, false)]) (subscribe (@new B)).1.2) as (q & Hq & Hr).
  - apply (ReachStep (MkConfig (subscribe new).2 [(subscribe new).1.2] [])).
    + apply (ReachStep (MkConfig new [] [])); [apply ReachNew|]. apply (StepSubscribe new [] []).
    + apply (StepPublish _ _ [] (e 1%Z) false).
  - apply list_elem_of_here.
  - exists q. split_and!; [exact Hq|reflexivity|]. destruct Hr as (q' & -> & _). done.
Defined.
