(* ===== verification/TopicMap.v ===== *)
(** * Capped map of channels ([TopicMap] of [thoth-mesh-broker/src/lib.rs])

    The channels are [Arc]s: they live in an append-only heap and the map holds
    their indices, so a channel that the map forgot and someone still holds is
    a channel like any other, only unreachable by key. *)

From S2P Require Import Prelude.
From S2P Require Import Runtime.
From S2P Require Import Message.
From S2P Require Import TopicChannel.

Definition DEFAULT_TOPIC_MAP_CAPACITY : nat := 4096.

Section topic_map.
Context `{Broadcast Envelope} {K : Type} `{Countable K}.

Record TopicMap := MkTopicMap {
  map : gmap K nat;
  order : list K;
}.

Definition new : TopicMap := MkTopicMap ∅ [].

(** [channel.sender.receiver_count()] of the channel at an index. *)
Definition receivers (heap : list TopicChannel) (arc : nat) : nat :=
  match heap !! arc with Some ch => receiver_count (channel_sender ch) | None => 0 end.

Definition touch (key : K) (m : TopicMap) : TopicMap :=
  match position (λ queued, bool_decide (queued = key)) (order m) with
  | Some pos =>
      match order m !! pos with
      | Some entry => MkTopicMap (map m) (delete pos (order m) ++ [entry])
      | None => m
      end
  | None => m
  end.

(** [map.get(key).is_some_and(|channel| channel.sender.receiver_count() == 0)] *)
Definition evictable (heap : list TopicChannel) (m : TopicMap) (key : K) : bool :=
  match map m !! key with Some arc => receivers heap arc =? 0 | None => false end.

Definition evict_over_capacity (heap : list TopicChannel) (m : TopicMap) (evictions : Z) : TopicMap * Z :=
  if size (map m) <=? DEFAULT_TOPIC_MAP_CAPACITY then (m, evictions)
  else match position (evictable heap m) (order m) with
       | None => (m, evictions)
       | Some pos =>
           match order m !! pos with
           | Some key =>
               (MkTopicMap (delete key (map m)) (delete pos (order m)), fetch_add 1 evictions)
           | None => (m, evictions)
           end
       end.

Definition get_or_insert (key : K) (m : TopicMap) (heap : list TopicChannel) (evictions : Z) :
    nat * (TopicMap * list TopicChannel * Z) :=
  match map m !! key with
  | Some arc => (arc, (touch key m, heap, evictions))
  | None =>
      let arc := length heap in
      let heap1 := heap ++ [TopicChannel.new] in
      let m1 := MkTopicMap (<[key := arc]> (map m)) (order m ++ [key]) in
      let '(m2, evictions1) := evict_over_capacity heap1 m1 evictions in
      (arc, (m2, heap1, evictions1))
  end.

Definition iter (m : TopicMap) : list (K * nat) := map_to_list (map m).

(** The queue lists the keys once each, no two keys share a channel, and the
    map is within its capacity. *)
Definition wf (m : TopicMap) (heap : list TopicChannel) : Prop :=
  NoDup (order m) ∧ (∀ k, k ∈ order m ↔ is_Some (map m !! k))
  ∧ (∀ k a, map m !! k = Some a → a < length heap)
  ∧ (∀ k k' a, map m !! k = Some a → map m !! k' = Some a → k = k')
  ∧ size (map m) ≤ DEFAULT_TOPIC_MAP_CAPACITY.

(** ** Lemmas *)

Lemma topic_map_wf_new heap : wf new heap.
Proof.
  split_and!; simpl; [constructor| |intros k a; by rewrite lookup_empty|..].
  - intros k. rewrite lookup_empty. split; [by intros ?%not_elem_of_nil|by intros [? ?]].
  - intros k k' a. by rewrite lookup_empty.
  - rewrite map_size_empty. unfold DEFAULT_TOPIC_MAP_CAPACITY. lia.
Qed.

Lemma touch_spec key m :
  key ∈ order m → NoDup (order m) →
  map (touch key m) = map m
  ∧ order (touch key m) = retain (λ k, negb (bool_decide (k = key))) (order m) ++ [key].
Proof.
  intros Hin Hnd. unfold touch.
  destruct (position_is_Some (λ q, bool_decide (q = key)) (order m) key Hin) as [pos Hpos].
  { by apply bool_decide_eq_true. }
  rewrite Hpos. destruct (position_Some _ _ _ Hpos) as (x & Hx & ->%bool_decide_eq_true & _).
  rewrite Hx. simpl. split; [done|]. f_equal. clear Hin Hpos. revert pos Hx.
  induction Hnd as [|y l Hy Hl IH]; intros pos Hx; [done|]. destruct pos as [|pos]; simpl in *.
  - injection Hx as ->. rewrite bool_decide_true by done. simpl. symmetry. apply retain_all.
    intros z Hz. apply negb_true_iff, bool_decide_eq_false. congruence.
  - apply list_elem_of_lookup_2 in Hx as Hk. rewrite bool_decide_false by congruence. simpl.
    f_equal. by apply IH.
Qed.

Lemma touch_wf key m heap : is_Some (map m !! key) → wf m heap → wf (touch key m) heap.
Proof.
  intros Hk (Hnd & Hq & Ha & Hinj & Hsz). apply Hq in Hk as Hin.
  destruct (touch_spec key m Hin Hnd) as [Hm Ho]. unfold wf. rewrite Hm, Ho. split_and!; [|..|done|done|done].
  - apply NoDup_app. split_and!; [by apply NoDup_retain| |apply NoDup_singleton].
    intros q [_ Hq']%elem_of_retain ->%list_elem_of_singleton. by rewrite bool_decide_true in Hq'.
  - intros k. rewrite <-Hq, elem_of_app, elem_of_retain, list_elem_of_singleton, negb_true_iff,
      bool_decide_eq_false. destruct (decide (k = key)); intuition congruence.
Qed.

Lemma receivers_app heap c a : a < length heap → receivers (heap ++ [c]) a = receivers heap a.
Proof. intros. unfold receivers. by rewrite lookup_app_l. Qed.

(** The shape of a fresh insertion, before eviction. *)
Definition inserted (key : K) (m : TopicMap) (heap : list TopicChannel) : TopicMap :=
  MkTopicMap (<[key := length heap]> (map m)) (order m ++ [key]).

Context `{!BroadcastLaws Envelope}.

Lemma receivers_fresh heap : receivers (heap ++ [TopicChannel.new]) (length heap) = 0.
Proof.
  unfold receivers. rewrite lookup_app_r, Nat.sub_diag by lia. simpl.
  by rewrite receiver_count_spec, channel_unread, map_size_empty.
Qed.

(** [wf] but for the bound. *)
Definition indexed (m : TopicMap) (heap : list TopicChannel) : Prop :=
  NoDup (order m) ∧ (∀ k, k ∈ order m ↔ is_Some (map m !! k))
  ∧ (∀ k a, map m !! k = Some a → a < length heap)
  ∧ (∀ k k' a, map m !! k = Some a → map m !! k' = Some a → k = k').

Lemma wf_indexed m heap : wf m heap ↔ indexed m heap ∧ size (map m) ≤ DEFAULT_TOPIC_MAP_CAPACITY.
Proof. unfold wf, indexed. tauto. Qed.

Lemma inserted_indexed key m heap :
  indexed m heap → map m !! key = None → indexed (inserted key m heap) (heap ++ [TopicChannel.new]).
Proof.
  intros (Hnd & Hq & Ha & Hinj) Hkey. split_and!.
  - simpl. apply NoDup_app. split_and!; [done| |apply NoDup_singleton].
    intros q Hin ->%list_elem_of_singleton. apply Hq in Hin as [? ?]. congruence.
  - intros k. simpl. rewrite elem_of_app, list_elem_of_singleton, Hq, lookup_insert_is_Some.
    destruct (decide (key = k)); intuition congruence.
  - intros k a. simpl. rewrite length_app, lookup_insert_Some. simpl. intros [[_ <-]|[_ Hk%Ha]]; lia.
  - intros k k' a. simpl. rewrite !lookup_insert_Some.
    intros [[-> <-]|[_ Hk]] [[-> Ha']|[_ Hk']]; [done| | |by eapply Hinj]; apply Ha in Hk || apply Ha in Hk'; lia.
Qed.

Lemma evicted_indexed m heap pos victim :
  indexed m heap → order m !! pos = Some victim →
  indexed (MkTopicMap (delete victim (map m)) (delete pos (order m))) heap.
Proof.
  intros (Hnd & Hq & Ha & Hinj) Hv. split_and!; cbn [map order].
  - by apply NoDup_delete.
  - intros k. rewrite (elem_of_delete_NoDup _ _ victim), Hq by done. destruct (decide (victim = k)) as [->|Hne].
    + rewrite lookup_delete_eq. split; [by intros [_ ?]|by intros [? ?]].
    + rewrite lookup_delete_ne by done. intuition congruence.
  - intros k a [_ Hk]%lookup_delete_Some. by eapply Ha.
  - intros k k' a [_ Hk]%lookup_delete_Some [_ Hk']%lookup_delete_Some. by eapply Hinj.
Qed.

Lemma evictable_inserted key m heap k :
  (∀ k a, map m !! k = Some a → a < length heap) →
  evictable (heap ++ [TopicChannel.new]) (inserted key m heap) k
  = (bool_decide (k = key) || evictable heap m k).
Proof.
  intros Ha. unfold evictable. simpl. destruct (decide (k = key)) as [->|Hne].
  - by rewrite lookup_insert_eq, receivers_fresh, bool_decide_true.
  - rewrite lookup_insert_ne, bool_decide_false by done. cbn [orb]. destruct (map m !! k) as [a|] eqn:E; [|done].
    by rewrite receivers_app by (by eapply Ha).
Qed.

(** A fresh insertion below capacity keeps everything; at capacity exactly one
    entry goes, the least recently touched one without receivers. Since the
    fresh entry has none yet, it is itself the victim of last resort. *)
Lemma insert_spec key m heap ev :
  wf m heap → map m !! key = None →
  let '(arc, (m', heap', ev')) := get_or_insert key m heap ev in
  arc = length heap ∧ heap' = heap ++ [TopicChannel.new] ∧ wf m' heap'
  ∧ if decide (size (map m) < DEFAULT_TOPIC_MAP_CAPACITY)
    then m' = inserted key m heap ∧ ev' = ev
    else ∃ victim, ev' = fetch_add 1 ev ∧ map m' = delete victim (map (inserted key m heap))
         ∧ (victim = key ∨ ∃ a, map m !! victim = Some a ∧ receivers heap a = 0)
         ∧ (victim = key → ∀ k a, map m !! k = Some a → receivers heap a ≠ 0).
Proof.
  intros [Hi Hsz]%wf_indexed Hkey. unfold get_or_insert. rewrite Hkey.
  fold (inserted key m heap). pose proof (inserted_indexed key m heap Hi Hkey) as Hi1.
  pose proof Hi as (_ & Hq & Ha & _). pose proof Hi1 as (_ & Hq1 & _).
  pose proof (λ k, evictable_inserted key m heap k Ha) as Hev.
  set (heap1 := heap ++ [TopicChannel.new]) in *. set (m1 := inserted key m heap) in *.
  assert (size (map m1) = S (size (map m))) as Hsz1 by (simpl; by rewrite map_size_insert_None).
  unfold evict_over_capacity. destruct (Nat.leb_spec (size (map m1)) DEFAULT_TOPIC_MAP_CAPACITY) as [Hfit|Hover].
  { split; [done|]. split; [done|]. split; [by apply wf_indexed|]. by rewrite decide_True by lia. }
  assert (key ∈ order m1) as Hin by (simpl; rewrite elem_of_app; right; apply list_elem_of_here).
  destruct (position_is_Some (evictable heap1 m1) (order m1) key Hin) as [pos Hpos].
  { by rewrite Hev, bool_decide_true. }
  rewrite Hpos. destruct (position_Some _ _ _ Hpos) as (victim & Hv & Hve & Hmin). rewrite Hv.
  split; [done|]. split; [done|]. split.
  { apply wf_indexed. split; [by apply evicted_indexed|]. cbn [map].
    rewrite map_size_delete_Some by (apply Hq1; by apply list_elem_of_lookup_2 in Hv). lia. }
  rewrite decide_False by lia. exists victim. split; [done|]. split; [done|]. split.
  - rewrite Hev in Hve. destruct (decide (victim = key)) as [|Hne]; [by left|right]. rewrite bool_decide_false in Hve by done.
    cbn [orb] in Hve. unfold evictable in Hve. destruct (map m !! victim) as [a|]; [|done]. exists a. by apply Nat.eqb_eq in Hve.
  - intros -> k a Hk. assert (k ∈ order m) as [j Hj]%list_elem_of_lookup by (apply Hq; eauto).
    assert (j < pos) as Hjp.
    { destruct (decide (pos < length (order m))) as [Hlt|]; [|apply lookup_lt_Some in Hj; lia].
      change (order m1) with (order m ++ [key]) in Hv. rewrite lookup_app_l in Hv by done.
      apply list_elem_of_lookup_2, Hq in Hv as [? ?]. congruence. }
    assert (evictable heap1 m1 k = false) as Hne by (apply (Hmin j); [by apply lookup_app_l_Some|done]).
    rewrite Hev, bool_decide_false in Hne by congruence. unfold evictable in Hne. rewrite Hk in Hne. by apply Nat.eqb_neq in Hne.
Qed.

Lemma get_or_insert_wf key m heap ev :
  wf m heap → let '(arc, (m', heap', ev')) := get_or_insert key m heap ev in wf m' heap'.
Proof.
  intros Hwf. destruct (map m !! key) as [a|] eqn:E.
  - unfold get_or_insert. rewrite E. apply touch_wf; eauto.
  - pose proof (insert_spec key m heap ev Hwf E) as Hs.
    destruct (get_or_insert key m heap ev) as [arc [[m' heap'] ev']]. tauto.
Qed.

(** A key keeps its channel in the map unless everything else is live. *)
Definition room (m : TopicMap) (heap : list TopicChannel) (key : K) : Prop :=
  is_Some (map m !! key) ∨ size (map m) < DEFAULT_TOPIC_MAP_CAPACITY
  ∨ ∃ k a, map m !! k = Some a ∧ receivers heap a = 0.

(** What a caller learns: who owns the returned channel, and who stays. *)
Lemma get_or_insert_spec key m heap ev :
  wf m heap →
  let '(arc, (m', heap', ev')) := get_or_insert key m heap ev in
  wf m' heap' ∧ (heap' = heap ∨ heap' = heap ++ [TopicChannel.new]) ∧ arc < length heap'
  ∧ (map m !! key = Some arc ∨ map m !! key = None ∧ arc = length heap)
  ∧ (∀ k a, map m' !! k = Some a → (a = arc ↔ k = key) ∧ (map m !! k = Some a ∨ a = arc))
  ∧ (∀ k a, map m !! k = Some a → receivers heap a ≠ 0 → map m' !! k = Some a)
  ∧ (room m heap key → map m' !! key = Some arc).
Proof.
  intros Hwf. pose proof (get_or_insert_wf key m heap ev Hwf) as Hwf'.
  pose proof Hwf as (_ & _ & Ha & Hinj & _). destruct (map m !! key) as [b|] eqn:E.
  - destruct (touch_spec key m (proj2 (proj1 (proj2 Hwf) key) (mk_is_Some _ _ E)) (proj1 Hwf)) as [Hm _].
    revert Hwf'. unfold get_or_insert. rewrite E, Hm. intros Hwf'.
    split_and!; [done|by left|by eapply Ha|by left| |done|done].
    intros k a Hk. split; [|by left]. split; [intros ->; by eapply Hinj|intros ->; congruence].
  - pose proof (insert_spec key m heap ev Hwf E) as Hs.
    destruct (get_or_insert key m heap ev) as [arc [[m' heap'] ev']].
    destruct Hs as (-> & -> & _ & Hcase).
    assert (∀ k a, map m' !! k = Some a → map (inserted key m heap) !! k = Some a) as Hsub.
    { intros k a. destruct (decide _) in Hcase; [by destruct Hcase as [-> _]|].
      destruct Hcase as (v & _ & -> & _). by intros [_ ?]%lookup_delete_Some. }
    split_and!; [done|auto|rewrite length_app; simpl; lia|auto| | |].
    + intros k a Hk. apply Hsub in Hk. simpl in Hk.
      apply lookup_insert_Some in Hk as [[-> <-]|[Hne Hold]]; [by split; [|right]|].
      split; [|by left]. apply Ha in Hold. split; [lia|congruence].
    + intros k a Hk Hlive. assert (k ≠ key) by congruence. destruct (decide _) in Hcase.
      * destruct Hcase as [-> _]. simpl. by rewrite lookup_insert_ne.
      * destruct Hcase as (v & _ & -> & Hv & _). simpl.
        rewrite lookup_delete_ne, lookup_insert_ne; [done..|]. intros ->.
        destruct Hv as [?|(a' & Ha' & Hz)]; [done|]. congruence.
    + intros Hroom. destruct (decide _) in Hcase.
      { destruct Hcase as [-> _]. simpl. by rewrite lookup_insert_eq. }
      destruct Hcase as (v & _ & -> & _ & Hall). simpl.
      destruct Hroom as [[? ?]|[?|(k & a & Hk & Hz)]]; [congruence|lia|].
      rewrite lookup_delete_ne, lookup_insert_eq; [done|]. intros ->. by eapply Hall.
Qed.

(** ** The properties of the map *)

Definition live (heap : list TopicChannel) (m : TopicMap) (k : K) : Prop :=
  ∃ a, map m !! k = Some a ∧ receivers heap a ≠ 0.

Lemma evictable_live key m heap k :
  wf m heap → map m !! key = None → k ∈ order m ++ [key] →
  evictable (heap ++ [TopicChannel.new]) (inserted key m heap) k = false ↔ live heap m k.
Proof.
  intros (_ & Hq & Ha & _) Hkey Hk. rewrite evictable_inserted by done. unfold evictable, live.
  destruct (decide (k = key)) as [->|Hne].
  - rewrite bool_decide_true by done. split; [done|]. intros (a & Hx & _). congruence.
  - rewrite bool_decide_false by done. cbn [orb]. apply elem_of_app in Hk as [Hk| ?%list_elem_of_singleton]; [|done].
    apply Hq in Hk as [a Hx]. rewrite Hx, Nat.eqb_neq. split; [by exists a|]. by intros (a' & [= <-] & ?).
Qed.

(** The victim of a full map: the first in the queue without receivers. *)
Lemma insert_evicts key m heap ev :
  wf m heap → map m !! key = None → ¬ size (map m) < DEFAULT_TOPIC_MAP_CAPACITY →
  let '(_, (m', _, _)) := get_or_insert key m heap ev in
  ∃ pre victim post, order m ++ [key] = pre ++ victim :: post ∧ order m' = pre ++ post
    ∧ map m' = delete victim (<[key := length heap]> (map m)) ∧ Forall (live heap m) pre ∧ ¬ live heap m victim.
Proof.
  intros Hwf Hkey Hfull. unfold get_or_insert. rewrite Hkey. fold (inserted key m heap).
  pose proof (λ k, evictable_live key m heap k Hwf Hkey) as Hev. set (m1 := inserted key m heap) in *.
  unfold evict_over_capacity. destruct (Nat.leb_spec (size (map m1)) DEFAULT_TOPIC_MAP_CAPACITY) as [Hfit|_].
  { unfold m1, inserted in Hfit. cbn [map] in Hfit. rewrite map_size_insert_None in Hfit by done. lia. }
  assert (key ∈ order m1) as Hin by (apply elem_of_app; right; by left).
  destruct (position_is_Some (evictable (heap ++ [TopicChannel.new]) m1) (order m1) key Hin) as [pos Hpos].
  { apply not_false_iff_true. intros Hk%Hev; [|done]. destruct Hk as (a & Hx & _). congruence. }
  rewrite Hpos. destruct (position_Some _ _ _ Hpos) as (victim & Hv & Hve & Hmin). rewrite Hv.
  exists (take pos (order m1)), victim, (drop (S pos) (order m1)). cbn [order map].
  split; [symmetry; by apply take_drop_middle|]. split; [apply delete_take_drop|]. split; [done|]. split.
  - apply Forall_forall. intros k Hk. apply Hev; [by eapply elem_of_prefix, prefix_take|].
    apply list_elem_of_lookup in Hk as [j Hj]. apply lookup_take_Some in Hj as [Hj Hlt]. by apply (Hmin j).
  - intros Hl%Hev; [congruence|]. by apply list_elem_of_lookup_2 in Hv.
Qed.


(** What the capacity rule costs a new subscriber. When all the 4096
    entries have live receivers, a key that is not in the map stays out of it:
    its fresh channel, which has no receiver yet, is the one evicted before
    [get_or_insert] returns it, so whoever then subscribes to that channel
    is registered where no later publish looks. *)
Theorem full_live_map_orphans_newcomer (key : K) (m : TopicMap) (heap : list TopicChannel) (ev : Z) :
  wf m heap → map m !! key = None → size (map m) = DEFAULT_TOPIC_MAP_CAPACITY →
  (∀ k a, map m !! k = Some a → receivers heap a ≠ 0) →
  let '(arc, (m', heap', ev')) := get_or_insert key m heap ev in
  map m' = map m ∧ (∀ k, map m' !! k ≠ Some arc) ∧ ev' = fetch_add 1 ev.
Proof.
  intros Hwf Hkey Hsz Hlive. pose proof (insert_spec key m heap ev Hwf Hkey) as Hs.
  destruct (get_or_insert key m heap ev) as [arc [[m' heap'] ev']].
  destruct Hs as (-> & _ & _ & Hcase). rewrite decide_False in Hcase by lia.
  destruct Hcase as (v & -> & Hm' & [->|(a & Ha & Hz)] & _); [|by destruct (Hlive v a)].
  simpl in Hm'. rewrite delete_insert_id in Hm' by done. rewrite Hm'. split_and!; [done| |done].
  intros k Hk. apply Hwf in Hk. lia.
Qed.
End topic_map.
Arguments TopicMap K {_ _}.

(** ** Witnesses *)


(** A map with [n] keys, all of them subscribed to. *)
Definition full_map (n : nat) : TopicMap nat :=
  MkTopicMap (list_to_map ((λ k, (k, k)) <$> seq 0 n)) (seq 0 n).
Definition full_heap (n : nat) : list (@TopicChannel (Reference.ref_broadcast Envelope)) :=
  replicate n ((@subscribe (Reference.ref_broadcast Envelope) TopicChannel.new).2).

Lemma full_map_lookup n k a : map (full_map n) !! k = Some a ↔ k = a ∧ a < n.
Proof.
  unfold full_map. cbn [map]. rewrite <-elem_of_list_to_map.
  - rewrite list_elem_of_fmap. split.
    + intros (x & [= -> ->] & Hx%elem_of_seq). lia.
    + intros [-> Hlt]. exists a. rewrite elem_of_seq. split; [done|lia].
  - rewrite <-list_fmap_compose. simpl. rewrite list_fmap_id. apply NoDup_seq.
Qed.

Lemma full_map_absent n : map (full_map n) !! (n + 1) = None.
Proof. destruct (map (full_map n) !! (n + 1)) as [a|] eqn:E; [|done]. apply full_map_lookup in E. lia. Qed.

Lemma full_heap_live n k a :
  map (full_map n) !! k = Some a → receivers (H := Reference.ref_broadcast Envelope) (full_heap n) a ≠ 0.
Proof.
  intros [_ Ha]%full_map_lookup. unfold receivers, full_heap.
  rewrite lookup_replicate_2 by done. by vm_compute.
Qed.

Lemma full_map_size n : size (map (full_map n)) = n.
Proof.
  unfold full_map. cbn [map]. rewrite map_size_list_to_map.
  - by rewrite length_fmap, length_seq.
  - rewrite <-list_fmap_compose. simpl. rewrite list_fmap_id. apply NoDup_seq.
Qed.

Lemma full_map_wf n : n ≤ DEFAULT_TOPIC_MAP_CAPACITY → wf (full_map n) (full_heap n).
Proof.
  intros Hn. split_and!.
  - apply NoDup_seq.
  - intros k. simpl. rewrite elem_of_seq. split.
    + intros Hk. exists k. apply (full_map_lookup n). lia.
    + intros [a Ha]. apply (full_map_lookup n) in Ha. lia.
  - intros k a [_ Ha]%full_map_lookup. unfold full_heap. by rewrite length_replicate.
  - intros k k' a [-> _]%full_map_lookup [-> _]%full_map_lookup. done.
  - by rewrite full_map_size.
Qed.

Lemma full_live_map_orphans_newcomer_witness :
  let B := Reference.ref_broadcast Envelope in
  let n := DEFAULT_TOPIC_MAP_CAPACITY in
  let '(arc, (m', _, _)) := get_or_insert (n + 1) (full_map n) (full_heap n) 0 in
  map m' = map (full_map n) ∧ ∀ k, map m' !! k ≠ Some arc.
Proof.
  intros B n.
  pose proof (@full_live_map_orphans_newcomer B nat _ _ (Reference.ref_broadcast_laws Envelope)
    (n + 1) (full_map n) (full_heap n) 0 (full_map_wf n (le_n _))) as Ht.
  destruct (get_or_insert _ _ _ _) as [arc [[m' heap'] ev']].
  destruct (Ht (full_map_absent n) (full_map_size n) (full_heap_live n)) as (H1 & H2 & _). exact (conj H1 H2).
Defined.
