(* ===== verification/Groups.v ===== *)
(** * Consumer groups and their leases
      ([GroupMembers], [GroupLease] and the group operations of [Broker] in
      [thoth-mesh-broker/src/lib.rs])

    A member is the sender half of a connection's outgoing channel. Delivery is
    round-robin and pushes straight onto a channel; an acknowledged group keeps
    a lease per delivery, which [sweep_group_leases] redelivers or gives up. *)

From S2P Require Import Prelude.
From S2P Require Import Text.
From S2P Require Import Filter.
From S2P Require Import Runtime.
From S2P Require Import Message.

(** [Instant::duration_since] saturates at zero. *)
Definition duration_since (now earlier : Z) : Z := Z.max 0 (now - earlier).

Record GroupLease := MkGroupLease {
  envelope : Envelope;
  leased_at : Z;
  attempts : nat;
}.

Record GroupMembers := MkGroupMembers {
  members : list nat;
  next : nat;
  ack_tracked : bool;
  leases : gmap MessageId GroupLease;
}.

Definition GroupKey : Type := TopicFilter * rstr.
Definition Groups : Type := gmap GroupKey GroupMembers.

Definition set_members (l : list nat) (m : GroupMembers) : GroupMembers :=
  MkGroupMembers l (next m) (ack_tracked m) (leases m).
Definition set_next (n : nat) (m : GroupMembers) : GroupMembers :=
  MkGroupMembers (members m) n (ack_tracked m) (leases m).
Definition set_leases (l : gmap MessageId GroupLease) (m : GroupMembers) : GroupMembers :=
  MkGroupMembers (members m) (next m) (ack_tracked m) l.

Section groups.
Context `{Mpsc Envelope}.

(** The [for offset in 0..len] loop, from [offset] with [n] iterations left. *)
Fixpoint deliver_loop (e : Envelope) (n offset : nat) (m : GroupMembers) :
    ST (mpsc_store Envelope) (bool * GroupMembers) := λ s,
  match n with
  | O => ((false, m), s)
  | S n' =>
      let len := length (members m) in
      let idx := (next m + offset) `mod` len in
      match members m !! idx with
      | None => ((false, m), s)
      | Some member =>
          let '(ok, s1) := try_send member e s in
          if ok : bool then ((true, set_next ((idx + 1) `mod` len) m), s1)
          else deliver_loop e n' (S offset) m s1
      end
  end.

Definition deliver (e : Envelope) (m : GroupMembers) : ST (mpsc_store Envelope) (bool * GroupMembers) :=
  let len := length (members m) in
  if len =? 0 then mret (false, m) else deliver_loop e len 0 m.

Definition join_group (filter : TopicFilter) (group : rstr) (sender : nat) (ack : bool) (g : Groups) : Groups :=
  let m := default (MkGroupMembers [] 0 ack ∅) (g !! (filter, group)) in
  <[(filter, group) := set_members (members m ++ [sender]) m]> g.

Definition leave_group (filter : TopicFilter) (group : rstr) (sender : nat) (g : Groups) : Groups :=
  match g !! (filter, group) with
  | None => g
  | Some m =>
      <[(filter, group) := set_members (retain (λ member, negb (bool_decide (member = sender))) (members m)) m]> g
  end.

Definition ack_group_delivery (filter : TopicFilter) (group : rstr) (message_id : MessageId) (g : Groups) : Groups :=
  match g !! (filter, group) with
  | None => g
  | Some m => <[(filter, group) := set_leases (delete message_id (leases m)) m]> g
  end.

(** The body of the sweep for one expired lease: the envelope given up, if any. *)
Definition sweep_lease (now : Z) (max_attempts : nat) (i : MessageId) (m : GroupMembers) :
    ST (mpsc_store Envelope) (option Envelope * GroupMembers) :=
  match leases m !! i with
  | None => mret (None, m)
  | Some lease =>
      if max_attempts <=? attempts lease then
        mret (Some (envelope lease), set_leases (delete i (leases m)) m)
      else
        r ← deliver (envelope lease) m;
        let '(ok, m1) := r in
        if ok : bool then
          mret (None, match leases m1 !! i with
                      | Some lease1 =>
                          set_leases (<[i := MkGroupLease (envelope lease1) now (S (attempts lease1))]> (leases m1)) m1
                      | None => m1
                      end)
        else mret (None, m1)
  end.

Fixpoint sweep_expired (now : Z) (max_attempts : nat) (ids : list MessageId) (m : GroupMembers) :
    ST (mpsc_store Envelope) (list Envelope * GroupMembers) :=
  match ids with
  | [] => mret ([], m)
  | i :: ids' =>
      r ← sweep_lease now max_attempts i m;
      let '(gone, m1) := r in
      r' ← sweep_expired now max_attempts ids' m1;
      let '(given_up_on, m2) := r' in
      mret (match gone with Some e => e :: given_up_on | None => given_up_on end, m2)
  end.

Definition lease_expired (now timeout : Z) (l : GroupLease) : bool :=
  (timeout <=? duration_since now (leased_at l))%Z.

Definition expired_ids (now timeout : Z) (m : GroupMembers) : list MessageId :=
  (List.filter (λ p, lease_expired now timeout p.2) (map_to_list (leases m))).*1.

Definition sweep_members (now timeout : Z) (max_attempts : nat) (m : GroupMembers) :
    ST (mpsc_store Envelope) (list Envelope * GroupMembers) :=
  if decide (leases m = ∅) then mret ([], m)
  else sweep_expired now max_attempts (expired_ids now timeout m) m.

(** [for members in groups.values_mut()] *)
Fixpoint sweep_entries (now timeout : Z) (max_attempts : nat) (l : list (GroupKey * GroupMembers)) :
    ST (mpsc_store Envelope) (list Envelope * list (GroupKey * GroupMembers)) :=
  match l with
  | [] => mret ([], [])
  | (k, m) :: l' =>
      r ← sweep_members now timeout max_attempts m;
      r' ← sweep_entries now timeout max_attempts l';
      mret (r.1 ++ r'.1, (k, r.2) :: r'.2)
  end.

Definition sweep_group_leases (now timeout : Z) (max_attempts : nat) (g : Groups) :
    ST (mpsc_store Envelope) (list Envelope * Groups) :=
  r ← sweep_entries now timeout max_attempts (map_to_list g);
  mret (r.1, list_to_map r.2).

(** The group part of [Broker::publish], for one group. *)
Definition publish_group (topic : Topic) (now : Z) (e : Envelope) (key : GroupKey) (m : GroupMembers) :
    ST (mpsc_store Envelope) (bool * GroupMembers) :=
  if matches key.1 topic then
    r ← deliver e m;
    let '(ok, m1) := r in
    if (ok : bool) && ack_tracked m1 then
      mret (true, set_leases (<[id e := MkGroupLease e now 0]> (leases m1)) m1)
    else mret (ok, m1)
  else mret (false, m).

(** [for (key, members) in groups.iter_mut()]: how many groups took it. *)
Fixpoint publish_entries (topic : Topic) (now : Z) (e : Envelope) (l : list (GroupKey * GroupMembers)) :
    ST (mpsc_store Envelope) (nat * list (GroupKey * GroupMembers)) :=
  match l with
  | [] => mret (0, [])
  | (k, m) :: l' =>
      r ← publish_group topic now e k m;
      r' ← publish_entries topic now e l';
      mret ((if r.1 : bool then 1 else 0) + r'.1, (k, r.2) :: r'.2)
  end.

Definition publish_groups (topic : Topic) (now : Z) (e : Envelope) (g : Groups) :
    ST (mpsc_store Envelope) (nat * Groups) :=
  r ← publish_entries topic now e (map_to_list g);
  mret (r.1, list_to_map r.2).

(** ** Specification *)

Context `{!MpscLaws Envelope}.

(** From [s] to [s'] one copy of [e] went onto each channel of [targets]. *)
Definition appended (e : Envelope) (targets : list nat) (s s' : mpsc_store Envelope) : Prop :=
  (∀ c, queued s' c = queued s c ++ replicate (count_occ Nat.eq_dec targets c) e)
  ∧ ∀ c, is_closed s' c = is_closed s c.

Lemma appended_nil e s : appended e [] s s.
Proof. split; intros; simpl; [by rewrite app_nil_r|done]. Qed.

Lemma appended_app e t t' s s' s'' :
  appended e t s s' → appended e t' s' s'' → appended e (t ++ t') s s''.
Proof.
  intros [Hq Hc] [Hq' Hc']. split; intros c; [|by rewrite Hc'].
  by rewrite Hq', Hq, <-app_assoc, <-replicate_add, count_occ_app.
Qed.

Lemma try_send_appended c e s s' : try_send c e s = (true, s') → appended e [c] s s'.
Proof.
  intros Hs. destruct (try_send_accepted c e s s' Hs) as (_ & Hq & Hne & Hc). split; [|done].
  intros c'. simpl. destruct (Nat.eq_dec c c') as [<-|]; [done|].
  by rewrite Hne, app_nil_r.
Qed.

(** One delivery: the first member in rotation order from [next] that accepts
    gets the one copy, and the cursor moves past it. *)
Lemma deliver_loop_spec e n offset m s :
  let len := length (members m) in
  offset + n = len → len ≠ 0 →
  (∀ j c, j < offset → members m !! ((next m + j) `mod` len) = Some c → (try_send c e s).1 = false) →
  match deliver_loop e n offset m s with
  | ((true, m'), s') => ∃ j c, j < len ∧ members m !! ((next m + j) `mod` len) = Some c
      ∧ (∀ i c', i < j → members m !! ((next m + i) `mod` len) = Some c' → (try_send c' e s).1 = false)
      ∧ try_send c e s = (true, s') ∧ m' = set_next (((next m + j) `mod` len + 1) `mod` len) m
  | ((false, m'), s') => m' = m ∧ s' = s
      ∧ ∀ c, c ∈ members m → (try_send c e s).1 = false
  end.
Proof.
  intros len. revert offset. induction n as [|n IH]; intros offset Hlen Hne Hprev; simpl.
  - split_and!; [done..|]. intros c [i Hi]%list_elem_of_lookup.
    apply lookup_lt_Some in Hi as Hlt. fold len in Hlt.
    pose proof (Nat.mod_upper_bound (next m) len Hne) as Hm.
    pose proof (Nat.div_mod_eq (next m) len) as Hdm.
    (* the offset that leads to index [i] *)
    set (j := (i + (len - next m `mod` len)) `mod` len).
    assert ((next m + j) `mod` len = i) as Hj.
    { unfold j. rewrite Nat.Div0.add_mod_idemp_r.
      replace (next m + (i + (len - next m `mod` len))) with (i + (1 + next m / len) * len) by lia.
      rewrite Nat.Div0.mod_add. by apply Nat.mod_small. }
    apply (Hprev j); [|by rewrite Hj]. pose proof (Nat.mod_upper_bound (i + (len - next m `mod` len)) len Hne).
    fold j in H0. lia.
  - fold len.
    assert ((next m + offset) `mod` len < len) as Hidx by by apply Nat.mod_upper_bound.
    destruct (lookup_lt_is_Some_2 (members m) _ Hidx) as [c Hc]. rewrite Hc.
    destruct (try_send c e s) as [ok s1] eqn:Hs. destruct ok.
    + exists offset, c. split_and!; [lia|done..].
    + apply try_send_refused in Hs as Hs1. subst s1.
      apply IH; [lia|done|]. intros j c' Hj Hc'.
      destruct (decide (j = offset)) as [->|]; [simplify_eq; by rewrite Hs|]. apply (Hprev j); [lia|done].
Qed.

Lemma deliver_spec e m s :
  let len := length (members m) in
  match deliver e m s with
  | ((true, m'), s') => ∃ j c, j < len ∧ members m !! ((next m + j) `mod` len) = Some c
      ∧ (∀ i c', i < j → members m !! ((next m + i) `mod` len) = Some c' → (try_send c' e s).1 = false)
      ∧ try_send c e s = (true, s') ∧ m' = set_next (((next m + j) `mod` len + 1) `mod` len) m
  | ((false, m'), s') => m' = m ∧ s' = s
      ∧ ∀ c, c ∈ members m → (try_send c e s).1 = false
  end.
Proof.
  unfold deliver. destruct (Nat.eqb_spec (length (members m)) 0) as [Hz|Hz].
  - simpl. split_and!; [done..|]. apply nil_length_inv in Hz as ->. intros c ?%not_elem_of_nil. done.
  - apply (deliver_loop_spec e (length (members m)) 0 m s); [lia|done|intros; lia].
Qed.

Lemma deliver_members e m s :
  let '((ok, m'), s') := deliver e m s in
  members m' = members m ∧ ack_tracked m' = ack_tracked m ∧ leases m' = leases m
  ∧ ∃ targets, appended e targets s s' ∧ length targets = (if ok then 1 else 0)
      ∧ ∀ c, c ∈ targets → c ∈ members m.
Proof.
  pose proof (deliver_spec e m s) as Hd. destruct (deliver e m s) as [[[|] m'] s'].
  - destruct Hd as (j & c & _ & Hc & _ & Hs & ->). split_and!; [done..|]. exists [c].
    split_and!; [by apply try_send_appended|done|]. intros c' ->%list_elem_of_singleton.
    by eapply list_elem_of_lookup_2.
  - destruct Hd as (-> & -> & _). split_and!; [done..|]. exists [].
    split_and!; [apply appended_nil|done|]. by intros c ?%not_elem_of_nil.
Qed.

(** What a sweep makes of one expired lease. *)
Definition swept (now : Z) (max_attempts : nat) (l : GroupLease) (l' : option GroupLease) : Prop :=
  if max_attempts <=? attempts l then l' = None
  else l' = Some l ∨ l' = Some (MkGroupLease (envelope l) now (S (attempts l))).

Definition given_up (max_attempts : nat) (ls : gmap MessageId GroupLease) (i : MessageId) : option Envelope :=
  match ls !! i with
  | Some l => if max_attempts <=? attempts l then Some (envelope l) else None
  | None => None
  end.

Lemma sweep_lease_spec now max_attempts i m s :
  let '((gone, m'), s') := sweep_lease now max_attempts i m s in
  members m' = members m ∧ ack_tracked m' = ack_tracked m
  ∧ gone = given_up max_attempts (leases m) i
  ∧ (∀ j, j ≠ i → leases m' !! j = leases m !! j)
  ∧ match leases m !! i with
    | Some l => swept now max_attempts l (leases m' !! i)
    | None => leases m' !! i = None
    end.
Proof.
  unfold sweep_lease, given_up, swept. destruct (leases m !! i) as [l|] eqn:Hl; [|done].
  destruct (max_attempts <=? attempts l) eqn:Hmax.
  - simpl. split_and!; [done..| |by rewrite lookup_delete_eq]. intros j Hj. by rewrite lookup_delete_ne.
  - unfold mbind, ST_bind. pose proof (deliver_members (envelope l) m s) as Hd.
    destruct (deliver (envelope l) m s) as [[ok m1] s1]. destruct Hd as (Hm & Ha & Hls & _).
    rewrite Hls, Hl. destruct ok; simpl; rewrite ?Hls; split_and!; try done.
    + intros j Hj. by rewrite lookup_insert_ne.
    + right. by rewrite lookup_insert_eq.
    + by left.
Qed.

Lemma sweep_expired_spec now max_attempts ids m s :
  NoDup ids →
  let '((gone, m'), s') := sweep_expired now max_attempts ids m s in
  members m' = members m ∧ ack_tracked m' = ack_tracked m
  ∧ gone = omap (given_up max_attempts (leases m)) ids
  ∧ (∀ j, j ∉ ids → leases m' !! j = leases m !! j)
  ∧ ∀ j l, j ∈ ids → leases m !! j = Some l → swept now max_attempts l (leases m' !! j).
Proof.
  intros Hnd. revert m s; induction Hnd as [|i ids Hi Hids IH]; intros m s; simpl.
  { split_and!; [done..|]. by intros j l ?%not_elem_of_nil. }
  unfold mbind, ST_bind. pose proof (sweep_lease_spec now max_attempts i m s) as H1.
  destruct (sweep_lease now max_attempts i m s) as [[gone m1] s1]. destruct H1 as (Hm & Ha & Hg & Hne & Hsw).
  specialize (IH m1 s1). destruct (sweep_expired now max_attempts ids m1 s1) as [[gone' m2] s2].
  destruct IH as (Hm' & Ha' & Hg' & Hne' & Hsw'). simpl. split_and!; [congruence..| | |].
  - assert (gone' = omap (given_up max_attempts (leases m)) ids) as ->.
    { rewrite Hg'. apply list_omap_ext, Forall2_same_length_lookup. split; [done|].
      intros k x y Hx Hy. assert (x = y) as -> by congruence. apply list_elem_of_lookup_2 in Hx.
      unfold given_up. rewrite Hne; [done|]. congruence. }
    rewrite Hg. by destruct (given_up max_attempts (leases m) i).
  - intros j [Hj1 Hj2]%not_elem_of_cons. by rewrite Hne', Hne.
  - intros j l [->|Hj]%elem_of_cons Hl.
    + rewrite Hne' by done. by rewrite Hl in Hsw.
    + apply Hsw'; [done|]. rewrite Hne; [done|]. congruence.
Qed.

Lemma elem_of_expired_ids now timeout m i :
  i ∈ expired_ids now timeout m ↔ ∃ l, leases m !! i = Some l ∧ lease_expired now timeout l = true.
Proof.
  unfold expired_ids. rewrite list_elem_of_fmap. split.
  - intros ([i' l] & -> & Hin). apply list_elem_of_In, filter_In in Hin as [Hin Hex].
    apply list_elem_of_In, elem_of_map_to_list in Hin. eauto.
  - intros (l & Hl & Hex). exists (i, l). split; [done|].
    apply list_elem_of_In, filter_In. by rewrite <-list_elem_of_In, elem_of_map_to_list.
Qed.

Lemma expired_ids_NoDup now timeout m : NoDup (expired_ids now timeout m).
Proof. apply (NoDup_fmap_filter fst), NoDup_fst_map_to_list. Qed.

(** What the sweep does to one group. *)
Definition group_swept (now timeout : Z) (max_attempts : nat) (m m' : GroupMembers) : Prop :=
  members m' = members m ∧ ack_tracked m' = ack_tracked m
  ∧ (∀ j, leases m !! j = None → leases m' !! j = None)
  ∧ ∀ j l, leases m !! j = Some l →
      if lease_expired now timeout l then swept now max_attempts l (leases m' !! j)
      else leases m' !! j = Some l.

Definition group_given_up (now timeout : Z) (max_attempts : nat) (m : GroupMembers) : list Envelope :=
  omap (given_up max_attempts (leases m)) (expired_ids now timeout m).

Lemma sweep_members_spec now timeout max_attempts m s :
  let '((gone, m'), s') := sweep_members now timeout max_attempts m s in
  group_swept now timeout max_attempts m m' ∧ gone = group_given_up now timeout max_attempts m.
Proof.
  unfold sweep_members, group_swept, group_given_up. destruct (decide (leases m = ∅)) as [He|He].
  - unfold expired_ids. simpl. rewrite He, map_to_list_empty. by split_and!.
  - pose proof (sweep_expired_spec now max_attempts _ m s (expired_ids_NoDup now timeout m)) as Hs.
    destruct (sweep_expired _ _ _ _ _) as [[gone m'] s']. destruct Hs as (Hm & Ha & Hg & Hne & Hsw).
    split; [split_and!; [done..| |]|done].
    + intros j Hj. rewrite Hne; [done|]. rewrite elem_of_expired_ids. intros (l & ? & _). congruence.
    + intros j l Hl. destruct (lease_expired now timeout l) eqn:E.
      * apply Hsw; [|done]. apply elem_of_expired_ids. eauto.
      * rewrite Hne; [done|]. rewrite elem_of_expired_ids. intros (l' & ? & ?). congruence.
Qed.

Lemma sweep_entries_spec now timeout max_attempts l s :
  let '((gone, l'), s') := sweep_entries now timeout max_attempts l s in
  Forall2 (λ x y, x.1 = y.1 ∧ group_swept now timeout max_attempts x.2 y.2) l l'
  ∧ gone = l ≫= (λ x, group_given_up now timeout max_attempts x.2).
Proof.
  revert s; induction l as [|[k m] l IH]; intros s; simpl; [by split|].
  unfold mbind, ST_bind. pose proof (sweep_members_spec now timeout max_attempts m s) as Hm.
  destruct (sweep_members now timeout max_attempts m s) as [[gone m1] s1]. destruct Hm as [Hm ->].
  specialize (IH s1). destruct (sweep_entries now timeout max_attempts l s1) as [[gone' l'] s2].
  destruct IH as [IH ->]. simpl. split; [by constructor|done].
Qed.

(** Two association lists with the same keys, related pointwise. *)
Lemma list_to_map_Forall2 {A B} (R : GroupKey → A → B → Prop) (l : list (GroupKey * A)) (l' : list (GroupKey * B)) k :
  NoDup l.*1 → Forall2 (λ x y, x.1 = y.1 ∧ R x.1 x.2 y.2) l l' →
  match (list_to_map l : gmap GroupKey A) !! k, (list_to_map l' : gmap GroupKey B) !! k with
  | Some a, Some b => R k a b
  | None, None => True
  | _, _ => False
  end.
Proof.
  intros Hnd HF. induction HF as [|[k1 a] [k2 b] l l' [Hk HR] HF IH]; simpl in *.
  { by rewrite !lookup_empty. }
  apply NoDup_cons in Hnd as [_ Hnd]. subst k2. destruct (decide (k1 = k)) as [->|].
  - by rewrite !lookup_insert_eq.
  - rewrite !lookup_insert_ne by done. by apply IH.
Qed.

Lemma map_to_list_Forall2 {A B} (R : GroupKey → A → B → Prop) (m : gmap GroupKey A) (l' : list (GroupKey * B)) k :
  Forall2 (λ x y, x.1 = y.1 ∧ R x.1 x.2 y.2) (map_to_list m) l' →
  match m !! k, (list_to_map l' : gmap GroupKey B) !! k with
  | Some a, Some b => R k a b
  | None, None => True
  | _, _ => False
  end.
Proof.
  intros HF. pose proof (list_to_map_Forall2 R _ _ k (NoDup_fst_map_to_list m) HF) as Hk.
  by rewrite list_to_map_to_list in Hk.
Qed.

Lemma sweep_spec now timeout max_attempts g s k :
  let '((gone, g'), s') := sweep_group_leases now timeout max_attempts g s in
  match g !! k, g' !! k with
  | Some m, Some m' => group_swept now timeout max_attempts m m'
  | None, None => True
  | _, _ => False
  end
  ∧ gone = map_to_list g ≫= (λ x, group_given_up now timeout max_attempts x.2).
Proof.
  unfold sweep_group_leases, mbind, ST_bind.
  pose proof (sweep_entries_spec now timeout max_attempts (map_to_list g) s) as Hs.
  destruct (sweep_entries now timeout max_attempts (map_to_list g) s) as [[gone l'] s'].
  destruct Hs as [HF Hg]. simpl. split; [|done].
  by apply (map_to_list_Forall2 (λ _ m m', group_swept now timeout max_attempts m m')).
Qed.

(** ** The group part of a publish *)

Lemma publish_group_spec topic now e k m s :
  let '((ok, m'), s') := publish_group topic now e k m s in
  ∃ targets, appended e targets s s' ∧ length targets = (if ok then 1 else 0)
    ∧ (∀ c, c ∈ targets → c ∈ members m)
    ∧ (ok = true → matches k.1 topic = true)
    ∧ members m' = members m ∧ ack_tracked m' = ack_tracked m
    ∧ leases m' = (if ok && ack_tracked m then <[id e := MkGroupLease e now 0]> (leases m) else leases m)
    ∧ (ok = false → s' = s ∧ (matches k.1 topic = true → ∀ c, c ∈ members m → (try_send c e s).1 = false)).
Proof.
  unfold publish_group. destruct (matches k.1 topic) eqn:Hm.
  - unfold mbind, ST_bind. pose proof (deliver_members e m s) as Hd. pose proof (deliver_spec e m s) as Hd'.
    destruct (deliver e m s) as [[ok m1] s1]. destruct Hd as (Hmem & Hack & Hls & targets & Ht & Hl & Hin).
    rewrite Hack. destruct ok; [destruct (ack_tracked m) eqn:Ha|]; simpl; exists targets;
      rewrite ?Hls; split_and!; try done.
    destruct Hd' as (_ & -> & Hno). by split.
  - simpl. exists []. split_and!; try done; [apply appended_nil|by intros c ?%not_elem_of_nil].
Qed.

(** The groups that took the message, with the member each gave it to. *)
Definition group_published (topic : Topic) (now : Z) (e : Envelope) (taken : list GroupKey)
    (k : GroupKey) (m m' : GroupMembers) : Prop :=
  members m' = members m ∧ ack_tracked m' = ack_tracked m
  ∧ leases m' = (if bool_decide (k ∈ taken) && ack_tracked m
                 then <[id e := MkGroupLease e now 0]> (leases m) else leases m).

(** Every member of [m] refused, at its turn: after some of the copies. *)
Definition refused (e : Envelope) (targets : list nat) (s : mpsc_store Envelope) (m : GroupMembers) : Prop :=
  ∃ t s1, t `prefix_of` targets ∧ appended e t s s1 ∧ ∀ c, c ∈ members m → (try_send c e s1).1 = false.

Lemma publish_entries_spec topic now e l s :
  NoDup l.*1 →
  let '((n, l'), s') := publish_entries topic now e l s in
  ∃ taken targets, n = length taken ∧ NoDup taken ∧ (∀ k, k ∈ taken → k ∈ l.*1 ∧ matches k.1 topic = true)
    ∧ Forall2 (λ k c, ∃ m, (k, m) ∈ l ∧ c ∈ members m) taken targets
    ∧ appended e targets s s'
    ∧ Forall2 (λ x y, x.1 = y.1 ∧ group_published topic now e taken x.1 x.2 y.2) l l'
    ∧ ∀ k m, (k, m) ∈ l → matches k.1 topic = true → k ∉ taken → refused e targets s m.
Proof.
  revert s; induction l as [|[k m] l IH]; intros s Hnd; simpl.
  { exists [], []. split_and!; [done|constructor| |constructor|apply appended_nil|constructor|].
    - by intros k ?%not_elem_of_nil.
    - by intros k m ?%not_elem_of_nil. }
  apply NoDup_cons in Hnd as [Hk Hnd]. unfold mbind, ST_bind.
  pose proof (publish_group_spec topic now e k m s) as H1.
  destruct (publish_group topic now e k m s) as [[ok m1] s1].
  destruct H1 as (t1 & Ht1 & Hl1 & Hin1 & Hmatch & Hmem & Hack & Hls & Hno).
  specialize (IH s1 Hnd). destruct (publish_entries topic now e l s1) as [[n l'] s2].
  destruct IH as (taken & targets & -> & Hndt & Htk & HF & Happ & HF' & Href). simpl.
  assert (k ∉ taken) as Hkt by (intros [? _]%Htk; done).
  assert (Forall2 (λ x y, x.1 = y.1 ∧ group_published topic now e (if ok then k :: taken else taken) x.1 x.2 y.2) l l') as HF2.
  { apply Forall2_same_length_lookup in HF' as [Hlen HF'].
    apply Forall2_same_length_lookup. split; [done|]. intros i [k' a] [k'' b] Hx Hy.
    destruct (HF' i _ _ Hx Hy) as [Heq HR]. simpl in *. split; [done|]. destruct ok; [|done].
    apply list_elem_of_lookup_2 in Hx.
    assert (k' ≠ k) by (intros ->; apply Hk; by apply (list_elem_of_fmap_2 fst _ _ Hx)).
    unfold group_published in *. rewrite (bool_decide_ext (k' ∈ k :: taken) (k' ∈ taken)); [done|].
    rewrite elem_of_cons. intuition. }
  exists (if ok then k :: taken else taken), (t1 ++ targets). split_and!.
  - by destruct ok.
  - destruct ok; [by constructor|done].
  - intros k' Hk'. rewrite elem_of_cons. destruct ok; [|destruct (Htk k' Hk'); auto].
    apply elem_of_cons in Hk' as [->|Hk']; [auto|]. destruct (Htk k' Hk'); auto.
  - assert (Forall2 (λ k0 c, ∃ m0, (k0, m0) ∈ (k, m) :: l ∧ c ∈ members m0) taken targets).
    { eapply Forall2_impl; [done|]. intros k0 c (m0 & ? & ?). exists m0. rewrite elem_of_cons. auto. }
    destruct ok; [|by apply nil_length_inv in Hl1 as ->].
    destruct t1 as [|c [|??]]; try done. simpl. constructor; [|done].
    exists m. split; [apply list_elem_of_here|]. apply Hin1, list_elem_of_here.
  - by eapply appended_app.
  - constructor; [|done]. simpl. split; [done|]. unfold group_published.
    split_and!; [done..|]. rewrite Hls. destruct ok.
    + by rewrite bool_decide_true by apply list_elem_of_here.
    + by rewrite bool_decide_false.
  - intros k' m' [[= -> ->]|Hin]%elem_of_cons Hmt Hnt.
    + destruct ok; [destruct Hnt; apply list_elem_of_here|]. destruct (Hno eq_refl) as [-> Hrf].
      exists [], s. split_and!; [apply prefix_nil|apply appended_nil|auto].
    + destruct (Href k' m' Hin Hmt) as (t & s' & Hpre & Ht & Hrf).
      { intros ?. apply Hnt. destruct ok; [by apply list_elem_of_further|done]. }
      exists (t1 ++ t), s'. split_and!; [by apply prefix_app|by eapply appended_app|done].
Qed.

(** ** The properties of groups *)

(** A delivery pushes one copy onto one member's channel - the first
    in rotation order from the cursor that accepts, all those before it having
    refused - and leaves the cursor right behind it, so that member is the last
    to be tried next time; when everyone refuses nothing changes at all. *)
Theorem deliver_round_robin (e : Envelope) (m : GroupMembers) (s : mpsc_store Envelope) :
  let len := length (members m) in
  let '((ok, m'), s') := deliver e m s in
  members m' = members m ∧ leases m' = leases m ∧ ack_tracked m' = ack_tracked m
  ∧ (ok = true → ∃ j c, j < len ∧ members m !! ((next m + j) `mod` len) = Some c
       ∧ appended e [c] s s' ∧ next m' = (next m + j + 1) `mod` len
       ∧ ∀ i c', i < j → members m !! ((next m + i) `mod` len) = Some c' → (try_send c' e s).1 = false)
  ∧ (ok = false → m' = m ∧ s' = s ∧ ∀ c, c ∈ members m → (try_send c e s).1 = false).
Proof.
  intros len. pose proof (deliver_spec e m s) as Hd. pose proof (deliver_members e m s) as Hm.
  fold len in Hd. destruct (deliver e m s) as [[ok m'] s']. destruct Hm as (? & ? & ? & _).
  split_and!; [done..| |].
  - intros ->. destruct Hd as (j & c & Hj & Hc & Hprev & Hs & ->). exists j, c.
    split_and!; [done..|by apply try_send_appended| |done]. simpl. apply Nat.Div0.add_mod_idemp_l.
  - by intros ->.
Qed.

(** What a publish leaves alone: the members, the channels' ends, and every
    channel that is no member's. *)
Lemma publish_groups_bystander topic now e g s :
  let '((_, g'), s') := publish_groups topic now e g s in
  (∀ k m', g' !! k = Some m' → ∃ m, g !! k = Some m ∧ members m' = members m)
  ∧ (∀ c, is_closed s' c = is_closed s c)
  ∧ ∀ c, (∀ k m, g !! k = Some m → c ∉ members m) → queued s' c = queued s c.
Proof.
  unfold publish_groups, mbind, ST_bind.
  pose proof (publish_entries_spec topic now e (map_to_list g) s (NoDup_fst_map_to_list g)) as Hs.
  destruct (publish_entries topic now e (map_to_list g) s) as [[n l'] s'].
  destruct Hs as (taken & targets & _ & _ & _ & HF & [Hq Hc] & HF' & _). simpl. split; [|split; [done|]].
  - intros k m' Hm'. pose proof (map_to_list_Forall2 (group_published topic now e taken) g l' k HF') as Hk.
    change ((list_to_map l' : gmap GroupKey GroupMembers) !! k = Some m') in Hm'. rewrite Hm' in Hk.
    change (g !! k) with ((g : gmap GroupKey GroupMembers) !! k). destruct ((g : gmap GroupKey GroupMembers) !! k) as [m|]; [|done].
    exists m. split; [done|]. apply Hk.
  - intros c Hno. rewrite Hq. replace (count_occ Nat.eq_dec targets c) with 0; [by rewrite app_nil_r|].
    symmetry. apply count_occ_not_In. intros Hin%list_elem_of_In.
    apply (Forall2_Forall_r _ (λ c, ∃ k m, g !! k = Some m ∧ c ∈ members m)) in HF.
    + rewrite Forall_forall in HF. destruct (HF c Hin) as (k & m & Hm & Hmem). by eapply Hno.
    + apply Forall_true. intros k c' (m & Hm%elem_of_map_to_list & Hmem). eauto.
Qed.

(** C26: a publish gives each group whose filter matches the topic at most
    one copy, through one of its members, and counts the groups that took it; a
    matching group is passed over only if every member refused. A group that
    took it and acknowledges deliveries holds a fresh lease on the envelope;
    nothing else about any group changes. *)
Theorem publish_groups_exactly_one (topic : Topic) (now : Z) (e : Envelope) (g : Groups)
    (s : mpsc_store Envelope) :
  let '((n, g'), s') := publish_groups topic now e g s in
  ∃ taken targets, n = length taken ∧ NoDup taken
    ∧ (∀ k, k ∈ taken → matches k.1 topic = true)
    ∧ Forall2 (λ k c, ∃ m, g !! k = Some m ∧ c ∈ members m) taken targets
    ∧ appended e targets s s'
    ∧ (∀ k m, g !! k = Some m → matches k.1 topic = true → k ∉ taken → refused e targets s m)
    ∧ ∀ k, match g !! k, g' !! k with
           | Some m, Some m' => group_published topic now e taken k m m'
           | None, None => True
           | _, _ => False
           end.
Proof.
  unfold publish_groups, mbind, ST_bind.
  pose proof (publish_entries_spec topic now e (map_to_list g) s (NoDup_fst_map_to_list g)) as Hs.
  destruct (publish_entries topic now e (map_to_list g) s) as [[n l'] s'].
  destruct Hs as (taken & targets & -> & Hnd & Htk & HF & Happ & HF' & Href). simpl.
  exists taken, targets. split_and!; try done.
  - intros k Hk. by apply Htk.
  - eapply Forall2_impl; [done|]. intros k c (m & Hm%elem_of_map_to_list & Hc). eauto.
  - intros k m Hm%elem_of_map_to_list. by apply Href.
  - intros k. by apply (map_to_list_Forall2 (group_published topic now e taken)).
Qed.

(** The sweep of the leases loses nothing and invents nothing. A lease
    that has not timed out is untouched; a timed-out one with attempts left is
    still leased, either as it was or with one more attempt and its clock
    reset; one without attempts left is removed and its envelope returned, and
    only such envelopes are returned. No lease ever exceeds its attempts. *)
Theorem sweep_loses_nothing (now timeout : Z) (max_attempts : nat) (g : Groups)
    (s : mpsc_store Envelope) (k : GroupKey) (m : GroupMembers) :
  g !! k = Some m →
  let '((gone, g'), s') := sweep_group_leases now timeout max_attempts g s in
  ∃ m', g' !! k = Some m' ∧ members m' = members m
    ∧ (∀ i l, leases m !! i = Some l →
         if lease_expired now timeout l then
           if max_attempts <=? attempts l then leases m' !! i = None ∧ envelope l ∈ gone
           else leases m' !! i = Some l ∨ leases m' !! i = Some (MkGroupLease (envelope l) now (S (attempts l)))
         else leases m' !! i = Some l)
    ∧ (∀ e, e ∈ gone → ∃ k0 m0 i l, g !! k0 = Some m0 ∧ leases m0 !! i = Some l ∧ envelope l = e
         ∧ lease_expired now timeout l = true ∧ max_attempts ≤ attempts l)
    ∧ ((∀ i l, leases m !! i = Some l → attempts l ≤ max_attempts) →
       ∀ i l, leases m' !! i = Some l → attempts l ≤ max_attempts).
Proof.
  intros Hm. pose proof (sweep_spec now timeout max_attempts g s k) as Hs.
  destruct (sweep_group_leases now timeout max_attempts g s) as [[gone g'] s'].
  rewrite Hm in Hs. destruct (g' !! k) as [m'|]; [|tauto].
  destruct Hs as ((Hmem & _ & Hnone & Hsome) & ->). exists m'. split_and!; [done..| | |].
  - intros i l Hl. specialize (Hsome i l Hl). destruct (lease_expired now timeout l) eqn:Hex; [|done].
    unfold swept in Hsome. destruct (max_attempts <=? attempts l) eqn:Hmax; [|done]. split; [done|].
    apply list_elem_of_bind. exists (k, m). split; [|by apply elem_of_map_to_list].
    apply list_elem_of_omap. exists i. unfold given_up. simpl. rewrite Hl, Hmax. split; [|done].
    apply elem_of_expired_ids. eauto.
  - intros e ([k0 m0] & He & Hin%elem_of_map_to_list)%list_elem_of_bind.
    apply list_elem_of_omap in He as (i & (l & Hl & Hex)%elem_of_expired_ids & Hg).
    exists k0, m0, i, l. unfold given_up in Hg. simpl in *. rewrite Hl in Hg.
    destruct (max_attempts <=? attempts l) eqn:Hmax; [|done]. injection Hg as <-.
    by apply Nat.leb_le in Hmax.
  - intros Hbound i l' Hl'. destruct (leases m !! i) as [l|] eqn:Hl; [|by rewrite Hnone in Hl'].
    specialize (Hsome i l Hl). specialize (Hbound i l Hl).
    destruct (lease_expired now timeout l); [|congruence]. unfold swept in Hsome.
    destruct (Nat.leb_spec max_attempts (attempts l)); [congruence|].
    destruct Hsome as [E|E]; rewrite E in Hl'; simplify_eq; simpl; lia.
Qed.
End groups.

(** ** Witness *)

Lemma sweep_loses_nothing_witness :
  let M := Reference.ref_mpsc Envelope in
  let e := Sample.publish 1 (lit "jobs") [1%Z] false in
  let k : GroupKey := (Sample.filter (lit "jobs"), lit "g") in
  let m := MkGroupMembers [0] 0 true {[id e := MkGroupLease e 0 3]} in
  ∃ gone g' s', sweep_group_leases (H := M) 10 5 3 {[k := m]} ∅ = ((gone, g'), s') ∧ e ∈ gone.
Proof.
  intros M e k m.
  pose proof (@sweep_loses_nothing M (Reference.ref_mpsc_laws Envelope) 10 5 3 {[k := m]} ∅ k m
    (lookup_singleton_eq _ _)) as Hs.
  destruct (sweep_group_leases _ _ _ _ _) as [[gone g'] s']. exists gone, g', s'. split; [done|].
  destruct Hs as (m' & _ & _ & Hl & _). exact (proj2 (Hl (id e) _ (lookup_singleton_eq _ _))).
Defined.
