(* ===== verification/MessageStore.v ===== *)
(** * The interface of the durable store
      ([trait MessageStore] of [thoth-mesh-broker/src/lib.rs])

    The broker is generic in it: [MessageStore] is the trait, over the state of
    the store, and [MessageStoreLaws] what its documentation promises. A call
    that panics on its blocking thread is a failure of the call. *)

From S2P Require Import Prelude.
From S2P Require Import Text.
From S2P Require Import Topic.
From S2P Require Import Runtime.
From S2P Require Import Message.

Class MessageStore := {
  store_state : Type;
  append : Envelope → ST store_state (Result () io_error);
  load_recent : nat → store_state → Result (list (Topic * list Envelope)) io_error;
  load_retained : store_state → Result (list (Topic * Envelope)) io_error;
  messages_since : Topic → MessageId → store_state → Result (list Envelope) io_error;
  load_offset : PeerId → Topic → store_state → Result (option MessageId) io_error;
  record_offset : PeerId → Topic → MessageId → ST store_state (Result () io_error);
  expire_before : Z → ST store_state (Result (list Envelope) io_error);
}.

Definition id_key (e : Envelope) : Z := MessageId.uuid (id e).

(** The topic's part of a log. *)
Definition of_topic (t : Topic) (l : list Envelope) : list Envelope :=
  List.filter (λ e, bool_decide (publish_topic (kind e) = Some t)) l.

(** A topic's retained message after one more envelope: a [retain] publish on
    the topic replaces it, an empty one clears it. *)
Definition retain_step (t : Topic) (held : option Envelope) (e : Envelope) : option Envelope :=
  match kind e with
  | Publish t' payload true _ _ _ =>
      if decide (t' = t) then if bool_decide (payload = []) then None else Some e else held
  | _ => held
  end.

(** [stored] is the log the store holds, in the order of the appends,
    [resumable] those of it whose identifier it knows, [position_of] each
    subscriber's recorded place in a topic, [retained_value] each topic's
    retained message, [retention] how many messages of a topic are kept at
    least, [store_ok] the shape of a store that only this code has written. A call may fail; what a successful one
    answers is what is held. *)
Class MessageStoreLaws `{MessageStore} := {
  store_ok : store_state → Prop;
  stored : store_state → list Envelope;
  resumable : store_state → list Envelope;
  position_of : store_state → PeerId → Topic → option MessageId;
  retained_value : store_state → Topic → option Envelope;
  retention : nat;
  position_wf st p t i : store_ok st → position_of st p t = Some i → MessageId.wf i;
  append_keeps e st : store_ok st → MessageId.wf (id e) →
    (∀ t, publish_topic (kind e) = Some t → Topic.wf t) → store_ok (append e st).2;
  append_ok e st st' :
    store_ok st → MessageId.wf (id e) → (∀ t, publish_topic (kind e) = Some t → Topic.wf t) →
    append e st = (Ok (), st') →
    e ∈ stored st' ∧ e ∈ resumable st'
    ∧ (∀ x, x ∈ stored st' → x = e ∨ x ∈ stored st)
    ∧ (∀ t n, n ≤ retention → window n (of_topic t (stored st')) = window n (of_topic t (stored st ++ [e])))
    ∧ (∀ t, retained_value st' t = retain_step t (retained_value st t) e)
    ∧ (∀ x, x ∈ resumable st' → x = e ∨ x ∈ resumable st)
    ∧ position_of st' = position_of st;
  load_recent_ok n st l :
    store_ok st → load_recent n st = Ok l →
    NoDup l.*1 ∧ ∀ t es, (t, es) ∈ l ↔ es = window n (of_topic t (stored st)) ∧ es ≠ [];
  load_retained_ok st l :
    store_ok st → load_retained st = Ok l →
    NoDup l.*1 ∧ ∀ t e, (t, e) ∈ l ↔ retained_value st t = Some e;
  messages_since_ok t after st l :
    store_ok st → MessageId.wf after → messages_since t after st = Ok l →
    StronglySorted (key_le id_key) l
    ∧ ∀ e, e ∈ l ↔ e ∈ resumable st ∧ publish_topic (kind e) = Some t ∧ MessageId.ltb after (id e) = true;
  load_offset_ok p t st o : store_ok st → load_offset p t st = Ok o → o = position_of st p t;
  record_offset_keeps p t i st : store_ok st → MessageId.wf i → store_ok (record_offset p t i st).2;
  record_offset_ok p t i st st' :
    store_ok st → MessageId.wf i → PeerId.wf p → record_offset p t i st = (Ok (), st') →
    stored st' = stored st ∧ resumable st' = resumable st ∧ retained_value st' = retained_value st
    ∧ position_of st' p t = Some i
    ∧ ∀ p' t', PeerId.wf p' → (p', t') ≠ (p, t) → position_of st' p' t' = position_of st p' t';
  expire_before_keeps c st : store_ok st → store_ok (expire_before c st).2;
  expire_before_ok c st l st' :
    store_ok st → expire_before c st = (Ok l, st') →
    (∀ e, e ∈ stored st ↔ e ∈ l ∨ e ∈ stored st')
    ∧ position_of st' = position_of st ∧ retained_value st' = retained_value st;
}.

(** A store in memory that expires its whole log at once, for the witnesses. *)
Module ReferenceStore.
Record Mem := MkMem { mem_log : list Envelope; mem_offsets : gmap (PeerId * Topic) MessageId;
  mem_expired : list Envelope }.

Definition since (t : Topic) (after : MessageId) (l : list Envelope) : list Envelope :=
  sort_by_key id_key (List.filter (λ e,
    bool_decide (publish_topic (kind e) = Some t) && MessageId.ltb after (id e)) l).

#[local] Instance ref_store : MessageStore := {|
  store_state := Mem;
  append e st := (Ok (), MkMem (mem_log st ++ [e]) (mem_offsets st) (mem_expired st));
  load_recent n st := Err [];
  load_retained st := Err [];
  messages_since t after st := Ok (since t after (mem_log st));
  load_offset p t st := Ok (mem_offsets st !! (p, t));
  record_offset p t i st := (Ok (), MkMem (mem_log st) (<[(p, t) := i]> (mem_offsets st)) (mem_expired st));
  expire_before cutoff st := (Ok (mem_log st), MkMem [] (mem_offsets st) (mem_expired st ++ mem_log st));
|}.

(** Only well-formed identifiers were recorded. *)
Definition mem_ok (st : Mem) : Prop := ∀ k i, mem_offsets st !! k = Some i → MessageId.wf i.

Program Definition ref_store_laws : MessageStoreLaws :=
  Build_MessageStoreLaws ref_store mem_ok mem_log mem_log (λ st p t, mem_offsets st !! (p, t))
    (λ st t, fold_left (retain_step t) (mem_expired st ++ mem_log st) None) 100 _ _ _ _ _ _ _ _ _ _ _.
Next Obligation. intros st p t i Hok Hi. exact (Hok _ _ Hi). Qed.
Next Obligation. done. Qed.
Next Obligation.
  intros e st st' _ _ _ [= <-]. simpl.
  assert (e ∈ mem_log st ++ [e]) by (apply elem_of_app; right; apply list_elem_of_here).
  assert (∀ x, x ∈ mem_log st ++ [e] → x = e ∨ x ∈ mem_log st)
    by (intros x; rewrite elem_of_app, list_elem_of_singleton; tauto).
  split; [done|]. split; [done|]. split; [done|]. split; [done|]. split; [|done].
  intros t. by rewrite app_assoc, fold_left_app.
Qed.
Next Obligation. done. Qed.
Next Obligation. done. Qed.
Next Obligation.
  intros t after st l _ _ [= <-]. split; [apply sort_by_key_sorted|]. intros e. unfold since.
  rewrite elem_of_sort_by_key, list_elem_of_In, filter_In, <-list_elem_of_In, andb_true_iff, bool_decide_eq_true.
  done.
Qed.
Next Obligation. by intros p t st o _ [= <-]. Qed.
Next Obligation.
  intros p t i st Hok Hi k j. simpl. rewrite lookup_insert_Some. intros [[_ <-]|[_ Hj]]; [done|exact (Hok _ _ Hj)].
Qed.
Next Obligation.
  intros p t i st st' _ _ _ [= <-]. simpl. split_and!; [done|done|done|by rewrite lookup_insert_eq|].
  intros p' t' _ Hne. by rewrite lookup_insert_ne.
Qed.
Next Obligation. done. Qed.
Next Obligation.
  intros c st l st' _ [= <- <-]. simpl. rewrite app_nil_r. split; [|done]. intros e. split; [auto|].
  by intros [?|?%not_elem_of_nil].
Qed.
End ReferenceStore.
