(* ===== verification/Broker.v ===== *)
(** * The broker ([Broker] of [thoth-mesh-broker/src/lib.rs])

    One state record for the struct, every method as a function on it. The
    channels of both maps live in one heap of [Arc]s; a receiver handed to a
    subscriber is the index of its channel there and its number in it. The
    group members' channels belong to the connections: [publish] takes the
    store they live in. *)

From S2P Require Import Prelude.
From S2P Require Import Text.
From S2P Require Import Topic.
From S2P Require Import Filter.
From S2P Require Import Runtime.
From S2P Require Import Message.
From S2P Require Import SeenIds.
From S2P Require Import TopicChannel.
From S2P Require Import TopicMap.
From S2P Require Import Groups.
From S2P Require Import MessageStore.

Inductive DurableSubscribeError : Type :=
| NoStore
| WildcardFilter
| Io (e : io_error).

(** [TopicInfo] *)
Record TopicInfo := MkTopicInfo {
  info_topic : Topic;
  info_subscribers : Z;
  info_messages_buffered : Z;
}.

Section broker.
Context `{Broadcast Envelope} `{Mpsc Envelope} `{MessageStore}.

Record Broker := MkBroker {
  b_topics : TopicMap Topic;
  b_patterns : TopicMap TopicFilter;
  b_heap : list TopicChannel;
  b_seen : SeenIds;
  b_messages_published : Z;
  b_topic_evictions : Z;
  b_pattern_evictions : Z;
  b_groups : Groups;
  b_store : option store_state;
  b_persist_failures : Z;
}.

(** A receiver: its channel and its number in it. *)
Definition Receiver : Type := nat * nat.

Definition default : Broker :=
  MkBroker TopicMap.new TopicMap.new [] (SeenIds.new DEFAULT_DEDUP_CAPACITY) 0 0 0 ∅ None 0.
Definition new : Broker := default.
Definition with_store (st : store_state) : Broker :=
  MkBroker TopicMap.new TopicMap.new [] (SeenIds.new DEFAULT_DEDUP_CAPACITY) 0 0 0 ∅ (Some st) 0.

(** Field updates. *)
Definition set_maps (t : TopicMap Topic) (p : TopicMap TopicFilter) (h : list TopicChannel) (te pe : Z)
    (b : Broker) : Broker :=
  MkBroker t p h (b_seen b) (b_messages_published b) te pe (b_groups b) (b_store b) (b_persist_failures b).
Definition set_heap (h : list TopicChannel) (b : Broker) : Broker :=
  set_maps (b_topics b) (b_patterns b) h (b_topic_evictions b) (b_pattern_evictions b) b.
Definition set_groups (g : Groups) (b : Broker) : Broker :=
  MkBroker (b_topics b) (b_patterns b) (b_heap b) (b_seen b) (b_messages_published b)
    (b_topic_evictions b) (b_pattern_evictions b) g (b_store b) (b_persist_failures b).
Definition set_store (st : store_state) (b : Broker) : Broker :=
  MkBroker (b_topics b) (b_patterns b) (b_heap b) (b_seen b) (b_messages_published b)
    (b_topic_evictions b) (b_pattern_evictions b) (b_groups b) (Some st) (b_persist_failures b).
Definition set_seen (s : SeenIds) (n : Z) (b : Broker) : Broker :=
  MkBroker (b_topics b) (b_patterns b) (b_heap b) s n
    (b_topic_evictions b) (b_pattern_evictions b) (b_groups b) (b_store b) (b_persist_failures b).
Definition set_persist_failures (n : Z) (b : Broker) : Broker :=
  MkBroker (b_topics b) (b_patterns b) (b_heap b) (b_seen b) (b_messages_published b)
    (b_topic_evictions b) (b_pattern_evictions b) (b_groups b) (b_store b) n.

(** [topics.write().await.get_or_insert(topic, &self.topic_evictions)] *)
Definition topic_channel (topic : Topic) : ST Broker nat := λ b,
  let '(arc, (m, h, ev)) := get_or_insert topic (b_topics b) (b_heap b) (b_topic_evictions b) in
  (arc, set_maps m (b_patterns b) h ev (b_pattern_evictions b) b).
Definition pattern_channel (filter : TopicFilter) : ST Broker nat := λ b,
  let '(arc, (m, h, ev)) := get_or_insert filter (b_patterns b) (b_heap b) (b_pattern_evictions b) in
  (arc, set_maps (b_topics b) m h (b_topic_evictions b) ev b).

(** Run an operation on the channel at an index of the heap. *)
Definition on_channel {A} (dflt : A) (arc : nat) (f : ST TopicChannel A) : ST Broker A := λ b,
  match b_heap b !! arc with
  | Some ch => let '(a, ch1) := f ch in (a, set_heap (<[arc := ch1]> (b_heap b)) b)
  | None => (dflt, b)
  end.

Definition rehydrate_buffer (topic : Topic) (envelopes : list Envelope) : ST Broker () :=
  if decide (envelopes = []) then mret ()
  else
    arc ← topic_channel topic;
    on_channel () arc (λ ch,
      ((), MkTopicChannel (channel_sender ch)
             (window DEFAULT_REPLAY_BUFFER_CAPACITY (buffer ch ++ envelopes)) (retained ch))).

Definition rehydrate_retained (topic : Topic) (e : Envelope) : ST Broker () :=
  arc ← topic_channel topic;
  on_channel () arc (λ ch, ((), MkTopicChannel (channel_sender ch) (buffer ch) (Some e))).

(** The retained messages of the matching exact topics that the backlog does
    not already hold, pushed in the map's iteration order. *)
Definition push_retained (filter : TopicFilter) (b : Broker) (backlog : list Envelope) : list Envelope :=
  fold_left (λ backlog p,
    if matches filter p.1 then
      match b_heap b !! p.2 ≫= retained_snapshot with
      | Some r => if has_id backlog (id r) then backlog else backlog ++ [r]
      | None => backlog
      end
    else backlog) (iter (b_topics b)) backlog.

Definition subscribe (filter : TopicFilter) : ST Broker (list Envelope * Receiver) :=
  match as_topic filter with
  | Some topic =>
      arc ← topic_channel topic;
      r ← on_channel ([], 0) arc TopicChannel.subscribe;
      mret (r.1, (arc, r.2))
  | None =>
      arc ← pattern_channel filter;
      r ← on_channel ([], 0) arc TopicChannel.subscribe;
      b ← get_st;
      mret (sort_by_key id_key (push_retained filter b r.1), (arc, r.2))
  end.

Definition has_store (b : Broker) : bool := bool_decide (is_Some (b_store b)).

(** Buffered envelopes newer than the recorded position, each id once. *)
Definition merge_buffered (last_id : option MessageId) (catchup buffered : list Envelope) : list Envelope :=
  fold_left (λ backlog e,
    if (match last_id with Some last => MessageId.leb (id e) last | None => false end) then backlog
    else if has_id backlog (id e) then backlog else backlog ++ [e]) buffered catchup.

(** The blocking read of the store. *)
Definition read_position (st : store_state) (subscriber : PeerId) (topic : Topic) :
    Result (option MessageId * list Envelope) io_error :=
  let? o := load_offset subscriber topic st in
  match o with
  | Some last_id => let? l := messages_since topic last_id st in Ok (Some last_id, l)
  | None => Ok (None, [])
  end.

Definition subscribe_durable (filter : TopicFilter) (subscriber : PeerId) :
    ST Broker (Result (list Envelope * Receiver) DurableSubscribeError) := λ b,
  match as_topic filter with
  | None => (Err WildcardFilter, b)
  | Some topic =>
      match b_store b with
      | None => (Err NoStore, b)
      | Some st =>
          match read_position st subscriber topic with
          | Err e => (Err (Io e), b)
          | Ok (last_id, catchup) =>
              let '((buffered, receiver), b1) := subscribe filter b in
              (Ok (sort_by_key id_key (merge_buffered last_id catchup buffered), receiver), b1)
          end
      end
  end.

Definition record_delivered (subscriber : PeerId) (topic : Topic) (message_id : MessageId) (b : Broker) : Broker :=
  match b_store b with
  | None => b
  | Some st => set_store (record_offset subscriber topic message_id st).2 b
  end.

Definition join_group (filter : TopicFilter) (group : rstr) (sender : nat) (ack : bool) (b : Broker) : Broker :=
  set_groups (Groups.join_group filter group sender ack (b_groups b)) b.
Definition leave_group (filter : TopicFilter) (group : rstr) (sender : nat) (b : Broker) : Broker :=
  set_groups (Groups.leave_group filter group sender (b_groups b)) b.
Definition ack_group_delivery (filter : TopicFilter) (group : rstr) (message_id : MessageId) (b : Broker) : Broker :=
  set_groups (Groups.ack_group_delivery filter group message_id (b_groups b)) b.
Definition sweep_group_leases (now timeout : Z) (max_attempts : nat) :
    ST (Broker * mpsc_store Envelope) (list Envelope) := λ '(b, chans),
  let '((gone, g), chans1) := Groups.sweep_group_leases now timeout max_attempts (b_groups b) chans in
  (gone, (set_groups g b, chans1)).

(** [Broker::publish] in the order of its steps: the durable append, the exact
    channel, the matching patterns, the matching groups. *)
Definition persist (e : Envelope) (b : Broker) : Broker :=
  match b_store b with
  | None => b
  | Some st =>
      let '(recorded, st1) := append e st in
      let b1 := set_store st1 b in
      if is_ok recorded then b1 else set_persist_failures (fetch_add 1 (b_persist_failures b1)) b1
  end.

Definition is_retain (e : Envelope) : bool :=
  match kind e with Publish _ _ retain _ _ _ => retain | _ => false end.

Fixpoint publish_patterns (topic : Topic) (e : Envelope) (l : list (TopicFilter * nat)) : ST Broker nat :=
  match l with
  | [] => mret 0
  | (filter, arc) :: l' =>
      n ← (if matches filter topic then on_channel 0 arc (TopicChannel.publish e false) else mret 0);
      n' ← publish_patterns topic e l';
      mret (n + n')
  end.

Definition publish_channels (topic : Topic) (e : Envelope) : ST Broker nat :=
  arc ← topic_channel topic;
  n ← on_channel 0 arc (TopicChannel.publish e (is_retain e));
  b ← get_st;
  n' ← publish_patterns topic e (iter (b_patterns b));
  mret (n + n').

Definition publish (topic : Topic) (e : Envelope) (now : Z) : ST (Broker * mpsc_store Envelope) nat := λ '(b, chans),
  let '(is_new, seen1) := SeenIds.record (id e) (b_seen b) in
  if is_new : bool then
    let b1 := set_seen seen1 (fetch_add 1 (b_messages_published b)) b in
    let b2 := persist e b1 in
    let '(delivered, b3) := publish_channels topic e b2 in
    let '((n, g), chans1) := publish_groups topic now e (b_groups b3) chans in
    (delivered + n, (set_groups g b3, chans1))
  else (0, (set_seen seen1 (b_messages_published b) b, chans)).

Definition messages_published (b : Broker) : Z := b_messages_published b.
Definition topic_evictions (b : Broker) : Z := b_topic_evictions b.
Definition pattern_evictions (b : Broker) : Z := b_pattern_evictions b.
Definition persist_failures (b : Broker) : Z := b_persist_failures b.

(** [.copied().unwrap_or(0)] *)
Definition count_of (subs : gmap Topic Z) (topic : Topic) : Z :=
  match subs !! topic with Some n => n | None => 0%Z end.

(** The live group members of each exact topic. *)
Definition group_subscribers (chans : mpsc_store Envelope) (b : Broker) : gmap Topic Z :=
  fold_left (λ acc (p : GroupKey * GroupMembers),
    match as_topic p.1.1 with
    | None => acc
    | Some topic =>
        let live := Z.of_nat (length (List.filter (λ c, negb (is_closed chans c)) (members p.2))) in
        if (0 <? live)%Z then <[topic := (count_of acc topic + live)%Z]> acc else acc
    end) (map_to_list (b_groups b)) ∅.

Definition topics (chans : mpsc_store Envelope) (b : Broker) : list TopicInfo :=
  let subs := group_subscribers chans b in
  let listed := (λ p : Topic * nat,
    MkTopicInfo p.1
      (Z.of_nat (receivers (b_heap b) p.2) + count_of subs p.1)
      (match b_heap b !! p.2 with Some ch => Z.of_nat (length (buffer ch)) | None => 0%Z end)) <$> iter (b_topics b) in
  let unlisted := List.filter (λ p : Topic * Z, negb (bool_decide (is_Some (map (b_topics b) !! p.1)))) (map_to_list subs) in
  listed ++ ((λ p : Topic * Z, MkTopicInfo p.1 p.2 0) <$> unlisted).

(** Reading from a receiver, and dropping it. *)
Definition recv_receiver (r : Receiver) : ST Broker (RecvResult Envelope) :=
  on_channel Pending r.1 (recv_channel r.2).
Definition drop_receiver (r : Receiver) (b : Broker) : Broker :=
  (on_channel () r.1 (λ ch, ((), drop_channel r.2 ch)) b).2.
End broker.
