(* ===== verification/BrokerSpec.v ===== *)
(** * What the broker promises its subscribers

    [wf] is the invariant of the two maps over their shared heap. [effect g]
    says what an operation does to every attached subscription: it stays
    attached and its unread queue grows by what [g] gives its filter. Publishing
    has the effect of the matching envelope, everything else of nothing, and
    effects compose; the delivery theorem is their composition over a history. *)

From S2P Require Import Prelude.
From S2P Require Import Text.
From S2P Require Import Topic.
From S2P Require Import Filter.
From S2P Require Import Runtime.
From S2P Require Import Message.
From S2P Require Import SeenIds.
From S2P Require Import TopicChannel.
From S2P Require Import TopicMap.
From S2P Require Import Groups.
From S2P Require Import MessageStore.
From S2P Require Import Broker.

Section broker_spec.
Context `{Broadcast Envelope} `{Mpsc Envelope} `{MessageStore}.
Context `{!BroadcastLaws Envelope}.

Definition wf (b : Broker) : Prop :=
  TopicMap.wf (b_topics b) (b_heap b) ∧ TopicMap.wf (b_patterns b) (b_heap b)
  ∧ (∀ t f a, map (b_topics b) !! t = Some a → map (b_patterns b) !! f = Some a → False)
  ∧ SeenIds.wf (b_seen b) ∧ capacity (b_seen b) ≠ 0.

(** The channel a subscription to [f] is registered on. *)
Definition sub_arc (b : Broker) (f : TopicFilter) : option nat :=
  match as_topic f with
  | Some t => map (b_topics b) !! t
  | None => map (b_patterns b) !! f
  end.

(** What was sent on a receiver's channel and it has not read. Of more than the
    channel holds the older ones are lost to it, which its next read tells. *)
Definition queue (b : Broker) (r : Receiver) : option (list Envelope) :=
  b_heap b !! r.1 ≫= λ ch, unread_queues ch !! r.2.

Definition effect (g : TopicFilter → list Envelope) (b b' : Broker) : Prop :=
  wf b' ∧ ∀ f r q, sub_arc b f = Some r.1 → queue b r = Some q →
    sub_arc b' f = Some r.1 ∧ queue b' r = Some (q ++ g f).

Definition keeps : Broker → Broker → Prop := effect (λ _, []).

(** ** Effects compose *)

Lemma keeps_refl b : wf b → keeps b b.
Proof. intros Hwf. split; [done|]. intros f r q Ha Hq. by rewrite app_nil_r. Qed.

Lemma effect_trans g1 g2 b1 b2 b3 :
  effect g1 b1 b2 → effect g2 b2 b3 → effect (λ f, g1 f ++ g2 f) b1 b3.
Proof.
  intros [_ He1] [Hwf He2]. split; [done|]. intros f r q Ha Hq.
  destruct (He1 f r q Ha Hq) as [Ha' Hq']. rewrite app_assoc. by apply He2.
Qed.

Lemma effect_ext g1 g2 b b' : (∀ f, g1 f = g2 f) → effect g1 b b' → effect g2 b b'.
Proof. intros Hg [Hwf He]. split; [done|]. intros f r q Ha Hq. rewrite <-Hg. by apply He. Qed.

Lemma keeps_effect g b1 b2 b3 : keeps b1 b2 → effect g b2 b3 → effect g b1 b3.
Proof. intros He1 He2. eapply effect_ext; [|by eapply effect_trans]. done. Qed.

Lemma effect_keeps g b1 b2 b3 : effect g b1 b2 → keeps b2 b3 → effect g b1 b3.
Proof. intros He1 He2. eapply effect_ext; [|by eapply effect_trans]. intros; apply app_nil_r. Qed.

(** Updates of the fields no subscription depends on. *)
Lemma same_maps_keeps b b' :
  wf b → b_topics b' = b_topics b → b_patterns b' = b_patterns b → b_heap b' = b_heap b →
  SeenIds.wf (b_seen b') → capacity (b_seen b') ≠ 0 → keeps b b'.
Proof.
  intros (Hwt & Hwp & Hdis & _) Et Ep Eh Hs Hc. split.
  - unfold wf. rewrite Et, Ep, Eh. by split_and!.
  - intros f r q. unfold sub_arc, queue. rewrite Et, Ep, Eh, app_nil_r. done.
Qed.

(** ** Growing the heap and updating one channel *)

Lemma topic_map_wf_longer {K} `{Countable K} (m : TopicMap K) h h' :
  length h ≤ length h' → TopicMap.wf m h → TopicMap.wf m h'.
Proof.
  intros Hl (Hnd & Hq & Ha & Hinj & Hsz). split_and!; [done..| |done|done].
  intros k a Hk%Ha. lia.
Qed.

Lemma queue_live b r q : queue b r = Some q → receivers (b_heap b) r.1 ≠ 0.
Proof.
  unfold queue, receivers. destruct (b_heap b !! r.1) as [ch|]; [|done]. simpl. intros Hq.
  rewrite receiver_count_spec, map_size_non_empty_iff. unfold unread_queues in Hq.
  intros He. by rewrite He, lookup_empty in Hq.
Qed.

(** [arc] belongs to topic [t] in [b] and to nobody else. *)
Definition owned_by_topic (b : Broker) (t : Topic) (arc : nat) : Prop :=
  arc < length (b_heap b)
  ∧ (∀ t' a, map (b_topics b) !! t' = Some a → a = arc ↔ t' = t)
  ∧ ∀ f a, map (b_patterns b) !! f = Some a → a ≠ arc.
Definition owned_by_pattern (b : Broker) (f : TopicFilter) (arc : nat) : Prop :=
  arc < length (b_heap b)
  ∧ (∀ f' a, map (b_patterns b) !! f' = Some a → a = arc ↔ f' = f)
  ∧ ∀ t a, map (b_topics b) !! t = Some a → a ≠ arc.

Lemma queue_longer b b' r q :
  b_heap b' = b_heap b ∨ b_heap b' = b_heap b ++ [TopicChannel.new] →
  queue b r = Some q → queue b' r = Some q.
Proof.
  unfold queue. intros [->| ->]; [done|]. destruct (b_heap b !! r.1) as [ch|] eqn:E; [|done].
  by rewrite (lookup_app_l_Some _ _ _ _ E).
Qed.

Lemma topic_channel_spec t b :
  wf b →
  let '(arc, b') := topic_channel t b in
  keeps b b' ∧ owned_by_topic b' t arc
  ∧ b_patterns b' = b_patterns b ∧ b_groups b' = b_groups b ∧ b_store b' = b_store b
  ∧ b_seen b' = b_seen b
  ∧ (room (b_topics b) (b_heap b) t → map (b_topics b') !! t = Some arc).
Proof.
  intros (Ht & Hp & Hdis & Hseen). unfold topic_channel.
  pose proof (get_or_insert_spec t (b_topics b) (b_heap b) (b_topic_evictions b) Ht) as Hs.
  destruct (get_or_insert t (b_topics b) (b_heap b) (b_topic_evictions b)) as [arc [[m h] ev]].
  destruct Hs as (Hm & Hh & Harc & Hold & Hown & Hlive & Hroom).
  assert (length (b_heap b) ≤ length h) as Hlen by (destruct Hh as [->| ->]; rewrite ?length_app; lia).
  assert (∀ f a, map (b_patterns b) !! f = Some a → a ≠ arc) as Hpat.
  { intros f a Hf ->. destruct Hold as [Hold|[_ ->]]; [by eapply Hdis|].
    apply Hp in Hf. lia. }
  split_and!; try done; [|by split_and!; [|intros k a Hk; apply Hown|]]. split.
  - destruct Hseen. split_and!; [done|by eapply topic_map_wf_longer| |done..]. simpl. intros t' f a Ha Hf.
    destruct (Hown t' a Ha) as [_ [Ha'| ->]]; [by eapply Hdis|]. by eapply Hpat.
  - intros f r q Ha Hq. rewrite app_nil_r. split; [|by apply (queue_longer b)].
    unfold sub_arc in *. simpl. destruct (as_topic f); [|done].
    apply Hlive; [done|by eapply queue_live].
Qed.

Lemma pattern_channel_spec f b :
  wf b →
  let '(arc, b') := pattern_channel f b in
  keeps b b' ∧ owned_by_pattern b' f arc
  ∧ b_topics b' = b_topics b ∧ b_store b' = b_store b
  ∧ (room (b_patterns b) (b_heap b) f → map (b_patterns b') !! f = Some arc).
Proof.
  intros (Ht & Hp & Hdis & Hseen). unfold pattern_channel.
  pose proof (get_or_insert_spec f (b_patterns b) (b_heap b) (b_pattern_evictions b) Hp) as Hs.
  destruct (get_or_insert f (b_patterns b) (b_heap b) (b_pattern_evictions b)) as [arc [[m h] ev]].
  destruct Hs as (Hm & Hh & Harc & Hold & Hown & Hlive & Hroom).
  assert (length (b_heap b) ≤ length h) as Hlen by (destruct Hh as [->| ->]; rewrite ?length_app; lia).
  assert (∀ t a, map (b_topics b) !! t = Some a → a ≠ arc) as Htop.
  { intros t a Hta ->. destruct Hold as [Hold|[_ ->]]; [by eapply Hdis|].
    apply Ht in Hta. lia. }
  split_and!; try done; [|by split_and!; [|intros k a Hk; apply Hown|]]. split.
  - destruct Hseen. split_and!; [by eapply topic_map_wf_longer|done| |done..]. simpl. intros t' f' a Hta Hf.
    destruct (Hown f' a Hf) as [_ [Ha'| ->]]; [by eapply Hdis|]. by eapply Htop.
  - intros f' r q Ha Hq. rewrite app_nil_r. split; [|by apply (queue_longer b)].
    unfold sub_arc in *. simpl. destruct (as_topic f'); [done|].
    apply Hlive; [done|by eapply queue_live].
Qed.

(** Replacing one channel of the heap. *)
Lemma set_channel_effect b arc ch ch' g :
  wf b → b_heap b !! arc = Some ch →
  (∀ i q, unread_queues ch !! i = Some q → unread_queues ch' !! i = Some (q ++ g)) →
  effect (λ f, if decide (sub_arc b f = Some arc) then g else [])
    b (set_heap (<[arc := ch']> (b_heap b)) b).
Proof.
  intros (Ht & Hp & Hdis & Hseen) Hch Hg. split.
  - destruct Hseen. split_and!; simpl; [..|done|done|done];
      (eapply topic_map_wf_longer; [|done]); by rewrite length_insert.
  - intros f [a i] q Ha Hq. simpl in *. split; [done|]. unfold queue in *. simpl in *. rewrite Ha.
    destruct (decide (Some a = Some arc)) as [[= ->]|Hne].
    + rewrite Hch in Hq. simpl in Hq. rewrite list_lookup_insert_eq by (by eapply lookup_lt_Some).
      simpl. by apply Hg.
    + rewrite list_lookup_insert_ne by congruence. by rewrite app_nil_r.
Qed.

Lemma on_channel_fields {A} (dflt : A) arc op b :
  let b' := (on_channel dflt arc op b).2 in
  b_topics b' = b_topics b ∧ b_patterns b' = b_patterns b ∧ b_groups b' = b_groups b
  ∧ b_store b' = b_store b ∧ b_seen b' = b_seen b ∧ length (b_heap b') = length (b_heap b).
Proof.
  unfold on_channel. destruct (b_heap b !! arc) as [ch|]; [|done]. destruct (op ch).
  simpl. by rewrite length_insert.
Qed.

Lemma on_channel_wf {A} (dflt : A) arc op b : wf b → wf (on_channel dflt arc op b).2.
Proof.
  intros (Ht & Hp & Hdis & Hs & Hc). destruct (on_channel_fields dflt arc op b) as (Et & Ep & _ & _ & Es & Hl).
  unfold wf. rewrite Et, Ep, Es. split_and!; [..|done|done|done]; (eapply topic_map_wf_longer; [|done]); lia.
Qed.

(** An operation on one channel that extends its queues by [g]. *)
Lemma on_channel_effect {A} (dflt : A) arc op b g :
  wf b →
  (∀ ch i q, unread_queues ch !! i = Some q → unread_queues (op ch).2 !! i = Some (q ++ g)) →
  effect (λ f, if decide (sub_arc b f = Some arc) then g else []) b (on_channel dflt arc op b).2.
Proof.
  intros Hwf Hop. unfold on_channel. destruct (b_heap b !! arc) as [ch|] eqn:Hch.
  - specialize (Hop ch). destruct (op ch) as [x ch']. simpl. by eapply set_channel_effect.
  - split; [done|]. simpl. intros f r q Ha Hq. rewrite decide_False, app_nil_r; [done|].
    intros Ha'. unfold queue in Hq. rewrite Ha in Ha'. injection Ha' as Ha'. by rewrite Ha', Hch in Hq.
Qed.

Lemma on_channel_keeps {A} (dflt : A) arc op b :
  wf b →
  (∀ ch i q, unread_queues ch !! i = Some q → unread_queues (op ch).2 !! i = Some q) →
  keeps b (on_channel dflt arc op b).2.
Proof.
  intros Hwf Hop.
  apply (effect_ext (λ f, if decide (sub_arc b f = Some arc) then [] else []));
    [|apply on_channel_effect; [done|]].
  - intros f. by destruct (decide (sub_arc b f = Some arc)).
  - intros ch i q Hq. rewrite app_nil_r. auto.
Qed.

(** ** Publishing *)

Ltac case_existsb :=
  match goal with |- context [existsb ?p ?l] => let E := fresh "E" in destruct (existsb p l) eqn:E end.

Lemma publish_extends e keep ch i q :
  unread_queues ch !! i = Some q →
  unread_queues (TopicChannel.publish e keep ch).2 !! i = Some (q ++ [e]).
Proof. intros Hq. by rewrite publish_unread, lookup_fmap, Hq. Qed.

Lemma publish_patterns_fields t e l b :
  let b' := (publish_patterns t e l b).2 in
  b_topics b' = b_topics b ∧ b_patterns b' = b_patterns b ∧ b_groups b' = b_groups b
  ∧ b_store b' = b_store b ∧ b_seen b' = b_seen b.
Proof.
  revert b; induction l as [|[f a] l IH]; intros b; simpl; [done|]. unfold mbind, ST_bind.
  destruct (matches f t).
  - pose proof (on_channel_fields 0 a (TopicChannel.publish e false) b) as Hf.
    destruct (on_channel 0 a (TopicChannel.publish e false) b) as [n b1]. simpl in Hf.
    specialize (IH b1). destruct (publish_patterns t e l b1) as [n' b2]. simpl in *. intuition congruence.
  - specialize (IH b). simpl. by destruct (publish_patterns t e l b) as [n' b2].
Qed.

(** Each listed pattern that matches publishes once on its channel. *)
Lemma publish_patterns_effect t e l b :
  wf b → NoDup l.*2 →
  effect (λ f, if existsb (λ p, matches p.1 t && bool_decide (sub_arc b f = Some p.2)) l then [e] else [])
    b (publish_patterns t e l b).2.
Proof.
  revert b; induction l as [|[f a] l IH]; intros b Hwf Hnd; simpl; [by apply keeps_refl|].
  apply NoDup_cons in Hnd as [Ha Hnd]. unfold mbind, ST_bind. destruct (matches f t); simpl.
  - pose proof (on_channel_effect 0 a (TopicChannel.publish e false) b [e] Hwf
      (publish_extends e false)) as He.
    pose proof (on_channel_fields 0 a (TopicChannel.publish e false) b) as Hf.
    destruct (on_channel 0 a (TopicChannel.publish e false) b) as [n b1]. simpl in Hf, He.
    specialize (IH b1 (proj1 He) Hnd). destruct (publish_patterns t e l b1) as [n' b2]. simpl in *.
    eapply effect_ext; [|by eapply effect_trans]. intros g. simpl.
    assert (sub_arc b1 g = sub_arc b g) as ->.
    { unfold sub_arc. destruct Hf as (-> & -> & _). done. }
    destruct (decide (sub_arc b g = Some a)) as [Hg|Hg]; [|by rewrite bool_decide_false].
    rewrite bool_decide_true by done. simpl. destruct (existsb _ l) eqn:E; [|done].
    apply existsb_exists in E as ([f' a'] & Hin%list_elem_of_In & E). simpl in E.
    apply andb_true_iff in E as [_ E]. apply bool_decide_eq_true in E.
    destruct Ha. assert (a = a') as -> by congruence. by apply (list_elem_of_fmap_2 snd _ _ Hin).
  - specialize (IH b Hwf Hnd). by destruct (publish_patterns t e l b) as [n' b2].
Qed.

Lemma patterns_arcs_NoDup b : wf b → NoDup (iter (b_patterns b)).*2.
Proof.
  intros (_ & (_ & _ & _ & Hinj & _) & _). unfold iter.
  assert (∀ l : list (TopicFilter * nat), NoDup l.*1 → (∀ x, x ∈ l → map (b_patterns b) !! x.1 = Some x.2) →
    NoDup l.*2) as Hgen.
  { induction l as [|[f a] l IH]; simpl; [constructor|]. intros [Hf Hl]%NoDup_cons Hall. constructor.
    - intros ([f' a'] & Heq & Hin)%list_elem_of_fmap. simpl in Heq. subst a'. apply Hf.
      replace f with f'; [by apply (list_elem_of_fmap_2 fst _ _ Hin)|].
      eapply Hinj; [by apply (Hall (f', a)), list_elem_of_further|apply (Hall (f, a)), list_elem_of_here].
    - apply IH; [done|]. intros x Hx. by apply Hall, list_elem_of_further. }
  apply Hgen; [apply NoDup_fst_map_to_list|]. by intros [f a] Hin%elem_of_map_to_list.
Qed.

(** What publishing on the channels gives each subscription. *)
Definition gives (t : Topic) (e : Envelope) (f : TopicFilter) : list Envelope :=
  match as_topic f with
  | Some t' => if decide (t' = t) then [e] else []
  | None => if matches f t then [e] else []
  end.

Lemma gives_matches t e f : Filter.wf f → gives t e f = if matches f t then [e] else [].
Proof.
  intros Hwf. unfold gives. rewrite as_topic_literal by done.
  destruct (is_literal f) eqn:Hlit; [|done]. pose proof (matches_literal f t Hwf Hlit) as Hm.
  destruct t as [s]. simpl in Hm. destruct (decide _) as [[= Hs]|Hne], (matches f (MkTopic s)) eqn:E; try done.
  - symmetry in Hs. apply Hm in Hs. congruence.
  - destruct Hne. f_equal. symmetry. by apply Hm.
Qed.

Lemma publish_channels_effect t e b :
  wf b →
  let b' := (publish_channels t e b).2 in
  effect (gives t e) b b'
  ∧ b_groups b' = b_groups b ∧ b_store b' = b_store b ∧ b_seen b' = b_seen b.
Proof.
  intros Hwf. unfold publish_channels, mbind, ST_bind.
  pose proof (topic_channel_spec t b Hwf) as Hs. destruct (topic_channel t b) as [arc b1].
  destruct Hs as (Hk & (Harc & Htop & Hpat) & Hpe & Hg & Hst & Hse & _).
  pose proof (on_channel_effect 0 arc (TopicChannel.publish e (is_retain e)) b1 [e] (proj1 Hk)
    (publish_extends e (is_retain e))) as He.
  pose proof (on_channel_fields 0 arc (TopicChannel.publish e (is_retain e)) b1) as Hf.
  destruct (on_channel 0 arc (TopicChannel.publish e (is_retain e)) b1) as [n b2]. simpl in Hf, He.
  destruct Hf as (Hft & Hfp & Hfg & Hfs & Hfse & _). simpl.
  pose proof (publish_patterns_effect t e (iter (b_patterns b2)) b2 (proj1 He)
    (patterns_arcs_NoDup b2 (proj1 He))) as Hpt.
  pose proof (publish_patterns_fields t e (iter (b_patterns b2)) b2) as Hpf.
  destruct (publish_patterns t e (iter (b_patterns b2)) b2) as [n' b3]. simpl in *.
  split; [|intuition congruence]. destruct Hpt as [Hwf3 Hpt]. split; [done|].
  intros f r q Ha Hq. destruct (proj2 Hk f r q Ha Hq) as [Ha1 Hq1]. rewrite app_nil_r in Hq1.
  destruct (proj2 He f r q Ha1 Hq1) as [Ha2 Hq2].
  destruct (Hpt f r _ Ha2 Hq2) as [Ha3 Hq3]. split; [done|]. rewrite Hq3. f_equal.
  rewrite <-app_assoc. f_equal. rewrite Ha1, Ha2. unfold sub_arc in Ha1, Ha2. unfold gives.
  destruct (as_topic f) as [t'|].
  - destruct (decide (t' = t)) as [->|Hne].
    + rewrite decide_True by (f_equal; by apply (Htop t)).
      case_existsb; [|done]. exfalso.
      apply existsb_exists in E as ([f' a'] & Hin%list_elem_of_In & E). simpl in E.
      apply andb_true_iff in E as [_ [= Ea]%bool_decide_eq_true]. subst a'.
      apply elem_of_map_to_list in Hin. rewrite Hfp in Hin. apply (Hpat f' r.1); [done|]. by apply (Htop t).
    + rewrite decide_False by (intros [= Ea]; by apply (Htop t' r.1 Ha1) in Ea).
      case_existsb; [|done]. exfalso.
      apply existsb_exists in E as ([f' a'] & Hin%list_elem_of_In & E). simpl in E.
      apply andb_true_iff in E as [_ [= Ea]%bool_decide_eq_true]. subst a'.
      apply elem_of_map_to_list in Hin. destruct (proj1 He) as (_ & _ & Hdis & _). by eapply Hdis.
  - rewrite decide_False by (intros [= Ea]; by apply (Hpat f r.1 Ha1) in Ea). simpl.
    destruct (matches f t) eqn:Hm.
    + replace (existsb _ _) with true; [done|]. symmetry. apply existsb_exists.
      exists (f, r.1). rewrite <-list_elem_of_In. split; [by apply elem_of_map_to_list|].
      simpl. by rewrite Hm, bool_decide_true.
    + case_existsb; [|done]. exfalso.
      apply existsb_exists in E as ([f' a'] & Hin%list_elem_of_In & E). simpl in E.
      apply andb_true_iff in E as [Hm' [= Ea]%bool_decide_eq_true]. subst a'.
      apply elem_of_map_to_list in Hin. destruct (proj1 He) as (_ & (_ & _ & _ & Hinj & _) & _).
      assert (f' = f) as -> by by eapply Hinj. congruence.
Qed.

Lemma persist_fields e b :
  b_topics (persist e b) = b_topics b ∧ b_patterns (persist e b) = b_patterns b
  ∧ b_heap (persist e b) = b_heap b ∧ b_groups (persist e b) = b_groups b
  ∧ b_seen (persist e b) = b_seen b ∧ b_topic_evictions (persist e b) = b_topic_evictions b.
Proof.
  unfold persist. destruct (b_store b) as [st|]; [|done]. destruct (append e st) as [r st'].
  by destruct (is_ok r).
Qed.

(** A new identifier reaches every matching subscription, a repeated one none. *)
Definition is_new (b : Broker) (e : Envelope) : bool := negb (bool_decide (id e ∈ SeenIds.order (b_seen b))).

Lemma publish_effect t e now b chans :
  wf b →
  effect (λ f, if is_new b e then gives t e f else []) b (publish t e now (b, chans)).2.1.
Proof.
  intros Hwf. pose proof Hwf as (_ & _ & _ & Hseen & Hcap). unfold publish, is_new.
  rewrite <-(record_seen (id e) (b_seen b) Hseen).
  pose proof (seen_record_wf (id e) _ Hseen) as Hseen'.
  destruct (record_order (id e) _ Hseen) as [_ Hcap'].
  destruct (SeenIds.record (id e) (b_seen b)) as [new seen1]. simpl in *.
  destruct new; simpl; [|by apply same_maps_keeps; try done; simpl; rewrite Hcap'].
  set (b1 := set_seen seen1 _ b). destruct (persist_fields e b1) as (Pt & Pp & Ph & _ & Ps & _).
  assert (keeps b (persist e b1)) as Hk.
  { apply same_maps_keeps; rewrite ?Pt, ?Pp, ?Ph, ?Ps; try done. simpl. by rewrite Hcap'. }
  destruct (publish_channels_effect t e (persist e b1) (proj1 Hk)) as [He _].
  destruct (publish_channels t e (persist e b1)) as [n b3]. simpl in He.
  destruct (publish_groups t now e (b_groups b3) chans) as [[n' g] chans'].
  apply (effect_keeps _ _ b3); [by eapply keeps_effect|].
  pose proof (proj1 He) as (_ & _ & _ & Hs3 & Hc3). by apply same_maps_keeps; [apply He|..].
Qed.

Lemma publish_seen t e now b chans :
  wf b → b_seen (publish t e now (b, chans)).2.1 = (SeenIds.record (id e) (b_seen b)).2.
Proof.
  intros Hwf. pose proof Hwf as (_ & _ & _ & Hseen & Hcap). unfold publish.
  pose proof (seen_record_wf (id e) _ Hseen) as Hseen'.
  destruct (record_order (id e) _ Hseen) as [_ Hcap'].
  destruct (SeenIds.record (id e) (b_seen b)) as [new seen1]. simpl in *. destruct new; [|done]. simpl.
  set (b1 := set_seen seen1 _ b). destruct (persist_fields e b1) as (Pt & Pp & Ph & _ & Ps & _).
  assert (wf (persist e b1)) as Hk.
  { apply (same_maps_keeps b); rewrite ?Pt, ?Pp, ?Ph, ?Ps; try done. simpl. by rewrite Hcap'. }
  destruct (publish_channels_effect t e (persist e b1) Hk) as (_ & _ & _ & Hs).
  destruct (publish_channels t e (persist e b1)) as [n b3]. simpl in Hs.
  destruct (publish_groups t now e (b_groups b3) chans) as [[n' g] chans']. simpl. by rewrite Hs, Ps.
Qed.

(** What passes the dedup window is appended to the store. *)
Lemma publish_store t e now b chans :
  wf b → is_new b e = true → b_store (publish t e now (b, chans)).2.1 = (λ st, (append e st).2) <$> b_store b.
Proof.
  intros Hwf Hn. pose proof Hwf as (_ & _ & _ & Hseen & Hcap). unfold publish.
  pose proof (record_seen (id e) _ Hseen) as Hnew. destruct (record_order (id e) _ Hseen) as [_ Hcap'].
  destruct (SeenIds.record (id e) (b_seen b)) as [new seen1] eqn:Hrec. cbn in Hnew, Hcap'.
  assert (new = true) as -> by (by unfold is_new in Hn; rewrite Hnew).
  set (b1 := set_seen seen1 _ b). destruct (persist_fields e b1) as (Pt & Pp & Ph & _ & Ps & _).
  assert (wf (persist e b1)) as Hk.
  { pose proof (seen_record_wf (id e) _ Hseen) as Hseen'. rewrite Hrec in Hseen'.
    apply (same_maps_keeps b); rewrite ?Pt, ?Pp, ?Ph, ?Ps; try done. cbn. by rewrite Hcap'. }
  destruct (publish_channels_effect t e (persist e b1) Hk) as (_ & _ & Hst & _).
  destruct (publish_channels t e (persist e b1)) as [n b3]. cbn in Hst.
  destruct (publish_groups t now e (b_groups b3) chans) as [[n' g] chans']. cbn. rewrite Hst. unfold persist, b1.
  destruct (b_store b) as [st|] eqn:Hb; cbn; rewrite Hb; [|done]. destruct (append e st) as [rec st1]. by destruct (is_ok rec).
Qed.

(** ** Subscribing *)

Definition sub_room (b : Broker) (f : TopicFilter) : Prop :=
  match as_topic f with
  | Some t => room (b_topics b) (b_heap b) t
  | None => room (b_patterns b) (b_heap b) f
  end.

Lemma subscribe_extends ch i q :
  unread_queues ch !! i = Some q → unread_queues (TopicChannel.subscribe ch).2 !! i = Some q.
Proof.
  pose proof (subscribe_spec ch) as Hs. destruct (TopicChannel.subscribe ch) as [[l r] ch'].
  destruct Hs as (_ & _ & _ & _ & Hr & Hu). intros Hq. simpl. rewrite Hu, lookup_insert_ne; [done|].
  congruence.
Qed.

Lemma channel_subscribe_queue arc b :
  arc < length (b_heap b) →
  let '((l, i), b') := on_channel ([], 0) arc TopicChannel.subscribe b in
  queue b (arc, i) = None ∧ queue b' (arc, i) = Some [].
Proof.
  intros Harc. destruct (lookup_lt_is_Some_2 _ _ Harc) as [ch Hch]. unfold on_channel, queue. simpl.
  rewrite Hch. pose proof (subscribe_spec ch) as Hs. destruct (TopicChannel.subscribe ch) as [[l i] ch'].
  destruct Hs as (_ & _ & _ & _ & Hr & Hu). simpl. rewrite list_lookup_insert_eq by done. simpl.
  by rewrite Hu, lookup_insert_eq.
Qed.

Lemma subscribe_spec' f b :
  wf b →
  let '((l, r), b') := subscribe f b in
  keeps b b' ∧ queue b' r = Some [] ∧ (sub_room b f → sub_arc b' f = Some r.1)
  ∧ b_store b' = b_store b.
Proof.
  intros Hwf. unfold subscribe, sub_room, sub_arc, mbind, ST_bind. destruct (as_topic f) as [t|] eqn:Hf.
  - pose proof (topic_channel_spec t b Hwf) as Hs. destruct (topic_channel t b) as [arc b1].
    destruct Hs as (Hk & (Harc & _) & _ & _ & Hst & _ & Hroom).
    pose proof (on_channel_keeps ([], 0) arc _ b1 (proj1 Hk) subscribe_extends) as Hk2.
    pose proof (on_channel_fields ([], 0) arc TopicChannel.subscribe b1) as Hfld.
    pose proof (channel_subscribe_queue arc b1 Harc) as Hq.
    destruct (on_channel ([], 0) arc TopicChannel.subscribe b1) as [[l i] b2]. simpl in *.
    destruct Hfld as (-> & _ & _ & -> & _). split_and!; [by eapply keeps_effect|apply Hq|done|done].
  - pose proof (pattern_channel_spec f b Hwf) as Hs. destruct (pattern_channel f b) as [arc b1].
    destruct Hs as (Hk & (Harc & _) & _ & Hst & Hroom).
    pose proof (on_channel_keeps ([], 0) arc _ b1 (proj1 Hk) subscribe_extends) as Hk2.
    pose proof (on_channel_fields ([], 0) arc TopicChannel.subscribe b1) as Hfld.
    pose proof (channel_subscribe_queue arc b1 Harc) as Hq.
    destruct (on_channel ([], 0) arc TopicChannel.subscribe b1) as [[l i] b2]. simpl in *.
    destruct Hfld as (_ & -> & _ & -> & _). split_and!; [by eapply keeps_effect|apply Hq|done|done].
Qed.

Lemma broker_subscribe_wf f b : wf b → wf (subscribe f b).2.
Proof. intros Hwf. pose proof (subscribe_spec' f b Hwf) as Hs. destruct (subscribe f b) as [[l r] b']. apply Hs. Qed.

Lemma rehydrate_buffer_keeps t l b : wf b → keeps b (rehydrate_buffer t l b).2.
Proof.
  intros Hwf. unfold rehydrate_buffer. destruct (decide (l = [])); [by apply keeps_refl|].
  unfold mbind, ST_bind. pose proof (topic_channel_spec t b Hwf) as Hs.
  destruct (topic_channel t b) as [arc b1]. destruct Hs as (Hk & _).
  eapply keeps_effect; [done|]. apply on_channel_keeps; [apply Hk|done].
Qed.

Lemma rehydrate_retained_keeps t e b : wf b → keeps b (rehydrate_retained t e b).2.
Proof.
  intros Hwf. unfold rehydrate_retained, mbind, ST_bind. pose proof (topic_channel_spec t b Hwf) as Hs.
  destruct (topic_channel t b) as [arc b1]. destruct Hs as (Hk & _).
  eapply keeps_effect; [done|]. apply on_channel_keeps; [apply Hk|done].
Qed.

Lemma broker_wf_new : wf new ∧ ∀ st, wf (with_store st).
Proof.
  assert (∀ b, b_topics b = TopicMap.new → b_patterns b = TopicMap.new →
    b_seen b = SeenIds.new DEFAULT_DEDUP_CAPACITY → wf b) as Hgen.
  { intros b Et Ep Es. unfold wf. rewrite Et, Ep, Es. split_and!; try apply topic_map_wf_new.
    - intros t f a. simpl. by rewrite lookup_empty.
    - apply seen_wf_new.
    - unfold DEFAULT_DEDUP_CAPACITY. simpl. lia. }
  split; [by apply Hgen|intros st; by apply Hgen].
Qed.

(** ** Histories of the broker *)

Inductive Op : Type :=
| OpPublish (t : Topic) (e : Envelope) (now : Z)
| OpSubscribe (f : TopicFilter)
| OpSubscribeDurable (f : TopicFilter) (p : PeerId)
| OpRecordDelivered (p : PeerId) (t : Topic) (i : MessageId)
| OpJoinGroup (f : TopicFilter) (group : rstr) (c : nat) (ack : bool)
| OpLeaveGroup (f : TopicFilter) (group : rstr) (c : nat)
| OpAckGroup (f : TopicFilter) (group : rstr) (i : MessageId)
| OpSweep (now timeout : Z) (max_attempts : nat)
| OpRehydrateBuffer (t : Topic) (l : list Envelope)
| OpRehydrateRetained (t : Topic) (e : Envelope)
| OpRecv (r : Receiver)
| OpDrop (r : Receiver).

Definition State : Type := Broker * mpsc_store Envelope.

Definition exec (o : Op) (st : State) : State :=
  let '(b, chans) := st in
  match o with
  | OpPublish t e now => (publish t e now st).2
  | OpSubscribe f => ((subscribe f b).2, chans)
  | OpSubscribeDurable f p => ((subscribe_durable f p b).2, chans)
  | OpRecordDelivered p t i => (record_delivered p t i b, chans)
  | OpJoinGroup f g c ack => (join_group f g c ack b, chans)
  | OpLeaveGroup f g c => (leave_group f g c b, chans)
  | OpAckGroup f g i => (ack_group_delivery f g i b, chans)
  | OpSweep now timeout n => (sweep_group_leases now timeout n st).2
  | OpRehydrateBuffer t l => ((rehydrate_buffer t l b).2, chans)
  | OpRehydrateRetained t e => ((rehydrate_retained t e b).2, chans)
  | OpRecv r => ((recv_receiver r b).2, chans)
  | OpDrop r => (drop_receiver r b, chans)
  end.

Fixpoint exec_all (ops : list Op) (st : State) : State :=
  match ops with [] => st | o :: ops' => exec_all ops' (exec o st) end.

(** Everyone else's operations: they read live receivers other than [r]. *)
Definition spares (r : Receiver) (o : Op) (st : State) : Prop :=
  match o with
  | OpRecv r' => r' ≠ r ∧ is_Some (queue st.1 r')
  | OpDrop r' => r' ≠ r
  | _ => True
  end.
Fixpoint all_spare (r : Receiver) (ops : list Op) (st : State) : Prop :=
  match ops with [] => True | o :: ops' => spares r o st ∧ all_spare r ops' (exec o st) end.

(** The envelopes published afresh on a topic the filter matches, in order. *)
Definition news (f : TopicFilter) (o : Op) (st : State) : list Envelope :=
  match o with
  | OpPublish t e _ => if is_new st.1 e && matches f t then [e] else []
  | _ => []
  end.
Fixpoint all_news (f : TopicFilter) (ops : list Op) (st : State) : list Envelope :=
  match ops with [] => [] | o :: ops' => news f o st ++ all_news f ops' (exec o st) end.

Lemma subscribe_keeps f b : wf b → keeps b (subscribe f b).2.
Proof.
  intros Hwf. pose proof (subscribe_spec' f b Hwf) as Hs.
  destruct (subscribe f b) as [[l r] b']. apply Hs.
Qed.

Lemma subscribe_durable_keeps f p b : wf b → keeps b (subscribe_durable f p b).2.
Proof.
  intros Hwf. unfold subscribe_durable. destruct (as_topic f); [|by apply keeps_refl].
  destruct (b_store b); [|by apply keeps_refl].
  destruct (read_position _ _ _) as [[last catchup]|]; [|by apply keeps_refl].
  pose proof (subscribe_keeps f b Hwf). by destruct (subscribe f b) as [[l r] b'].
Qed.

Lemma groups_keeps g b : wf b → keeps b (set_groups g b).
Proof. intros Hwf. by apply same_maps_keeps; try apply Hwf. Qed.

(** An operation on somebody else's receiver of a channel. *)
Lemma other_receiver {A} (dflt : A) op b f r r' q :
  wf b → sub_arc b f = Some r.1 → queue b r = Some q → r' ≠ r →
  (∀ ch i x, b_heap b !! r'.1 = Some ch → i ≠ r'.2 → unread_queues ch !! i = Some x →
     unread_queues (op ch).2 !! i = Some x) →
  let b' := (on_channel dflt r'.1 op b).2 in
  wf b' ∧ sub_arc b' f = Some r.1 ∧ queue b' r = Some q.
Proof.
  intros Hwf Ha Hq Hne Hop. unfold on_channel. destruct (b_heap b !! r'.1) as [ch|] eqn:Hch; [|done].
  specialize (Hop ch). destruct (op ch) as [x ch'] eqn:Eop. simpl in *.
  destruct r as [a i], r' as [a' i']. simpl in *. split; [|split; [done|]].
  - destruct Hwf as (Ht & Hp & Hdis & Hs & Hc). split_and!; simpl; [..|done|done|done];
      (eapply topic_map_wf_longer; [|done]); by rewrite length_insert.
  - unfold queue in *. simpl in *. destruct (decide (a = a')) as [->|Hna].
    + rewrite list_lookup_insert_eq by (by eapply lookup_lt_Some). simpl.
      rewrite Hch in Hq. simpl in Hq. apply Hop; [done| |done]. congruence.
    + by rewrite list_lookup_insert_ne by done.
Qed.

(** Reading the receiver of a subscription. *)
Lemma recv_receiver_spec r q b :
  wf b → queue b r = Some q →
  let '(res, b') := recv_receiver r b in
  wf b' ∧ b_topics b' = b_topics b ∧ b_patterns b' = b_patterns b ∧ b_groups b' = b_groups b ∧ b_seen b' = b_seen b
  ∧ (∀ f r' q', r' ≠ r → sub_arc b f = Some r'.1 → queue b r' = Some q' → queue b' r' = Some q')
  ∧ match res with
    | Received e => ∃ q', q = e :: q' ∧ queue b' r = Some q'
    | Lagged _ => is_Some (queue b' r)
    | Pending => q = []
    end.
Proof.
  intros Hwf Hq. unfold recv_receiver.
  pose proof (on_channel_wf Pending r.1 (recv_channel r.2) b Hwf) as Hwf'.
  pose proof (on_channel_fields Pending r.1 (recv_channel r.2) b) as (Ht & Hp & Hg & _ & Hs & _).
  assert (∀ f r' q', r' ≠ r → sub_arc b f = Some r'.1 → queue b r' = Some q' →
    queue (on_channel Pending r.1 (recv_channel r.2) b).2 r' = Some q') as Hother.
  { intros f r' q' Hne Ha Hq'. apply (other_receiver Pending (recv_channel r.2) b f r' r q' Hwf Ha Hq'); [done|].
    intros ch i x Hch Hi Hx. unfold queue in Hq. rewrite Hch in Hq. destruct (recv_unread _ _ _ Hq) as (q'' & -> & _).
    by rewrite lookup_insert_ne. }
  destruct (on_channel Pending r.1 (recv_channel r.2) b) as [res b'] eqn:E. cbn [snd] in *. do 6 (split; [done|]). clear Hother Hwf'.
  unfold on_channel in E. unfold queue in Hq |- *. destruct (b_heap b !! r.1) as [ch|] eqn:Hch; [|done].
  cbn [mbind option_bind] in Hq. unfold recv_channel, unread_queues in *.
  destruct (recv r.2 (channel_sender ch)) as [x s'] eqn:Er. injection E as <- <-.
  destruct (recv_spec _ _ _ _ _ Hq Er) as [_ Hr]. destruct (decide _).
  { destruct Hr as [-> Hu]. cbn. rewrite list_lookup_insert_eq by (by eapply lookup_lt_Some). cbn. rewrite Hu, lookup_insert_eq. eauto. }
  destruct q as [|e q]; destruct Hr as [-> Hu]; [done|]. exists q. split; [done|]. cbn.
  rewrite list_lookup_insert_eq by (by eapply lookup_lt_Some). cbn. by rewrite Hu, lookup_insert_eq.
Qed.

Lemma exec_effect o b chans f r q :
  wf b → Filter.wf f → sub_arc b f = Some r.1 → queue b r = Some q → spares r o (b, chans) →
  let b' := (exec o (b, chans)).1 in
  wf b' ∧ sub_arc b' f = Some r.1 ∧ queue b' r = Some (q ++ news f o (b, chans)).
Proof.
  intros Hwf Hf Ha Hq Hsp.
  assert (∀ b', keeps b b' → wf b' ∧ sub_arc b' f = Some r.1 ∧ queue b' r = Some (q ++ [])) as Hkeep.
  { intros b' [Hwf' Hk]. split; [done|]. by apply Hk. }
  cbv zeta. destruct o; cbn [exec news fst]; [|apply Hkeep..| |].
  - destruct (publish_effect t e now b chans Hwf) as [Hwf' He]. split; [done|].
    destruct (He f r q Ha Hq) as [Ha' Hq']. split; [done|]. rewrite Hq'. do 2 f_equal.
    destruct (is_new b e); [|done]. by apply gives_matches.
  - by apply subscribe_keeps.
  - by apply subscribe_durable_keeps.
  - unfold record_delivered. destruct (b_store b); [|by apply keeps_refl].
    by apply same_maps_keeps; try apply Hwf.
  - by apply groups_keeps.
  - by apply groups_keeps.
  - by apply groups_keeps.
  - unfold sweep_group_leases. destruct (Groups.sweep_group_leases _ _ _ _ _) as [[gone g] chans'].
    by apply groups_keeps.
  - by apply rehydrate_buffer_keeps.
  - by apply rehydrate_retained_keeps.
  - rewrite app_nil_r. destruct Hsp as [Hne [q' Hq']]. apply (other_receiver Pending); try done.
    intros ch i x Hch Hi Hx. unfold queue in Hq'. simpl in Hq'. rewrite Hch in Hq'.
    destruct (recv_unread _ _ _ Hq') as (q'' & -> & _ & _). by rewrite lookup_insert_ne.
  - rewrite app_nil_r. apply (other_receiver ()); try done.
    intros ch i x Hch Hi Hx. unfold drop_channel, unread_queues in *. simpl.
    destruct (drop_receiver_spec r0.2 (channel_sender ch)) as [-> _]. by rewrite lookup_delete_ne.
Qed.

Lemma exec_all_effect ops b chans f r q :
  wf b → Filter.wf f → sub_arc b f = Some r.1 → queue b r = Some q → all_spare r ops (b, chans) →
  let b' := (exec_all ops (b, chans)).1 in
  wf b' ∧ sub_arc b' f = Some r.1 ∧ queue b' r = Some (q ++ all_news f ops (b, chans)).
Proof.
  revert b chans q; induction ops as [|o ops IH]; intros b chans q Hwf Hf Ha Hq Hsp; cbv zeta;
    cbn [exec_all all_news].
  { by rewrite app_nil_r. }
  destruct Hsp as [Hs Hsp]. destruct (exec_effect o b chans f r q Hwf Hf Ha Hq Hs) as (Hwf' & Ha' & Hq').
  destruct (exec o (b, chans)) as [b' chans']. rewrite app_assoc. by apply IH.
Qed.

(** The receiver it answers is a new one. *)
Lemma subscribe_other f b r q : wf b → sub_arc b f = Some r.1 → queue b r = Some q → (subscribe f b).1.2 ≠ r.
Proof.
  intros Hwf Ha Hq. unfold subscribe, mbind, ST_bind. destruct (as_topic f) as [t|].
  - pose proof (topic_channel_spec t b Hwf) as Hs. destruct (topic_channel t b) as [arc b1].
    destruct Hs as ((_ & Hk) & (Harc & _) & _). destruct (Hk f r q Ha Hq) as [_ Hq1]. rewrite app_nil_r in Hq1.
    pose proof (channel_subscribe_queue arc b1 Harc) as Hn.
    destruct (on_channel ([], 0) arc TopicChannel.subscribe b1) as [[l i] b2]. cbn in *. destruct Hn as [Hn _]. intros <-. congruence.
  - pose proof (pattern_channel_spec f b Hwf) as Hs. destruct (pattern_channel f b) as [arc b1].
    destruct Hs as ((_ & Hk) & (Harc & _) & _). destruct (Hk f r q Ha Hq) as [_ Hq1]. rewrite app_nil_r in Hq1.
    pose proof (channel_subscribe_queue arc b1 Harc) as Hn.
    destruct (on_channel ([], 0) arc TopicChannel.subscribe b1) as [[l i] b2]. cbn in *. destruct Hn as [Hn _]. intros <-. congruence.
Qed.

(** Subscribing again and dropping the old receiver. *)
Lemma resubscribe_spec f b (chans : mpsc_store Envelope) r q :
  wf b → Filter.wf f → sub_arc b f = Some r.1 → queue b r = Some q →
  let '((l, r'), b1) := subscribe f b in
  let b2 := drop_receiver r b1 in
  wf b2 ∧ sub_arc b2 f = Some r'.1 ∧ queue b2 r' = Some [].
Proof.
  intros Hwf Hf Ha Hq. pose proof (subscribe_spec' f b Hwf) as Hs. pose proof (subscribe_other f b r q Hwf Ha Hq) as Hne.
  assert (sub_room b f) as Hroom by (unfold sub_room, sub_arc in *; destruct (as_topic f); left; eauto).
  destruct (subscribe f b) as [[l r'] b1]. destruct Hs as ([Hwf1 _] & Hq1 & Ha1 & _). cbn in Hne.
  destruct (exec_effect (OpDrop r) b1 chans f r' [] Hwf1 Hf (Ha1 Hroom) Hq1) as (Hwf2 & Ha2 & Hq2); [by intros ->|].
  done.
Qed.

(** Reading a receiver [n] times. *)
Fixpoint reads (n : nat) (r : Receiver) : ST Broker (list (RecvResult Envelope)) :=
  match n with
  | O => mret []
  | S n' => x ← recv_receiver r; l ← reads n' r; mret (x :: l)
  end.

(** What a receiver with [q] unread answers: all of it, or, when that is more
    than its channel holds, that it has fallen behind. *)
Definition answers (r : Receiver) (q : list Envelope) (b : Broker) : Prop :=
  ∃ ch, b_heap b !! r.1 = Some ch
    ∧ if decide (length q ≤ Runtime.capacity (channel_sender ch)) then (reads (length q) r b).1 = Received <$> q
      else (recv_receiver r b).1 = Lagged (length q - Runtime.capacity (channel_sender ch)).

Lemma queue_answers b r q : queue b r = Some q → answers r q b.
Proof.
  unfold queue at 1. destruct (b_heap b !! r.1) as [ch|] eqn:Hch; [|done]. cbn. intros Hq. exists ch. split; [done|].
  case_decide as Hc.
  - revert b ch Hch Hq Hc. induction q as [|e q IH]; intros b ch Hch Hq Hc; [done|]. cbn [length reads]. rewrite !st_bind. cbn [mret ST_ret fst].
    unfold recv_receiver at 1 2, on_channel. rewrite Hch. unfold recv_channel, unread_queues in *.
    destruct (recv r.2 (channel_sender ch)) as [x s'] eqn:Er. destruct (recv_spec _ _ _ _ _ Hq Er) as [Hcap Hx].
    rewrite decide_False in Hx by lia. destruct Hx as [-> Hu]. cbn [fst snd fmap list_fmap]. f_equal. eapply IH.
    + cbn. by rewrite list_lookup_insert_eq by by eapply lookup_lt_Some.
    + cbn. by rewrite Hu, lookup_insert_eq.
    + cbn in *. lia.
  - unfold recv_receiver, on_channel. rewrite Hch. unfold recv_channel, unread_queues in *.
    destruct (recv r.2 (channel_sender ch)) as [x s'] eqn:Er. destruct (recv_spec _ _ _ _ _ Hq Er) as [_ Hx].
    rewrite decide_True in Hx by lia. by destruct Hx as [-> _].
Qed.

(** ** The properties of the broker *)

(** C3: a subscription to an accepted filter, as long as the map has room for
    its channel, is given exactly the envelopes published afresh on topics the
    filter matches from then on, each once and in order, whatever else everyone
    does with the broker - publish, subscribe, evict, rehydrate, join groups,
    read or drop their own receivers. Those are the messages its receiver has
    not read: it answers them one after the other as long as they are not more
    than its channel holds, and otherwise it answers [Lagged], with how many it
    has lost. *)
Theorem subscription_receives_every_match (s : rstr) (f : TopicFilter) (b : Broker)
    (chans : mpsc_store Envelope) (ops : list Op) :
  wf b → Filter.from_str s = Ok f → sub_room b f →
  let r := (subscribe f b).1.2 in
  let b1 := (subscribe f b).2 in
  all_spare r ops (b1, chans) →
  let b2 := (exec_all ops (b1, chans)).1 in
  queue b2 r = Some (all_news f ops (b1, chans)) ∧ answers r (all_news f ops (b1, chans)) b2.
Proof.
  intros Hwf [_ Hf]%filter_from_str_ok Hroom. pose proof (subscribe_spec' f b Hwf) as Hs.
  destruct (subscribe f b) as [[backlog r] b1]. destruct Hs as ((Hwf1 & _) & Hq & Ha & _).
  cbn [fst snd]. intros Hsp. destruct (exec_all_effect ops b1 chans f r [] Hwf1 Hf (Ha Hroom) Hq Hsp) as (_ & _ & Hq').
  split; [done|]. by apply queue_answers.
Qed.

(** An envelope whose identifier is among the last 4096 accepted
    is not published again: nobody receives it, nothing is counted, stored or
    buffered, and the call answers 0. *)
Theorem publish_duplicate_ignored (t : Topic) (e : Envelope) (now : Z) (b : Broker)
    (chans : mpsc_store Envelope) :
  wf b → id e ∈ SeenIds.order (b_seen b) →
  publish t e now (b, chans) = (0, (b, chans)).
Proof.
  intros (_ & _ & _ & Hseen & _) Hin. unfold publish.
  pose proof (record_seen (id e) (b_seen b) Hseen) as Hr. rewrite bool_decide_true in Hr by done.
  unfold SeenIds.record in *. rewrite (bool_decide_ext _ _ (proj1 (proj2 Hseen) (id e))).
  rewrite bool_decide_true by done. by destruct b.
Qed.

(** ** Durable subscriptions *)

Context `{!MessageStoreLaws}.

(** Whether an identifier is past a recorded position. *)
Definition past (last : option MessageId) (i : MessageId) : bool :=
  match last with Some l => MessageId.ltb l i | None => true end.

Lemma past_negb last i :
  (match last with Some l => MessageId.leb i l | None => false end) = negb (past last i).
Proof.
  destruct last as [l|]; [|done]. unfold past, MessageId.leb, MessageId.ltb. apply Z.leb_antisym.
Qed.

Lemma merge_buffered_spec last catchup buffered :
  (∀ e, e ∈ merge_buffered last catchup buffered →
     e ∈ catchup ∨ e ∈ buffered ∧ past last (id e) = true)
  ∧ (∀ e, e ∈ catchup → e ∈ merge_buffered last catchup buffered)
  ∧ ∀ e, e ∈ buffered → past last (id e) = true →
      ∃ e', e' ∈ merge_buffered last catchup buffered ∧ id e' = id e.
Proof.
  unfold merge_buffered. revert catchup; induction buffered as [|x l IH]; intros catchup; simpl.
  { split_and!; [auto|done|]. by intros e ?%not_elem_of_nil. }
  rewrite past_negb. destruct (past last (id x)) eqn:Hp; simpl.
  - destruct (has_id catchup (id x)) eqn:Hh; destruct (IH (if has_id catchup (id x) then catchup else catchup ++ [x]))
      as (K1 & K2 & K3); rewrite Hh in *; split_and!.
    + intros e He. destruct (K1 e He) as [?|[??]]; [auto|]. rewrite elem_of_cons. auto.
    + done.
    + intros e [->|He]%elem_of_cons Hpe; [|by apply K3].
      apply has_id_true in Hh as (e' & Hin & Heq). exists e'. auto.
    + intros e He. rewrite elem_of_cons. destruct (K1 e He) as [[?|Hx]%elem_of_app|[??]]; [auto| |auto].
      apply list_elem_of_singleton in Hx as ->. auto.
    + intros e He. apply K2, elem_of_app. auto.
    + intros e [->|He]%elem_of_cons Hpe; [|by apply K3].
      exists x. split; [|done]. apply K2, elem_of_app. right. apply list_elem_of_here.
  - destruct (IH catchup) as (K1 & K2 & K3). split_and!; [|done|].
    + intros e He. rewrite elem_of_cons. destruct (K1 e He) as [?|[??]]; auto.
    + intros e [->|He]%elem_of_cons Hpe; [congruence|by apply K3].
Qed.

(** What it adds: each identifier once, and none that the catch-up has. *)
Lemma merge_buffered_extra last buffered : ∀ catchup,
  ∃ extra, merge_buffered last catchup buffered = catchup ++ extra ∧ extra `sublist_of` buffered
    ∧ NoDup (id <$> extra) ∧ ∀ e, e ∈ extra → id e ∉ id <$> catchup.
Proof.
  unfold merge_buffered. induction buffered as [|x l IH]; intros catchup; cbn [fold_left].
  { exists []. rewrite app_nil_r. split; [done|]. split; [done|]. split; [constructor|]. by intros e ?%not_elem_of_nil. }
  assert (∃ extra, fold_left (λ backlog e,
      if (match last with Some last => MessageId.leb (id e) last | None => false end) then backlog
      else if has_id backlog (id e) then backlog else backlog ++ [e]) l catchup = catchup ++ extra
      ∧ extra `sublist_of` x :: l ∧ NoDup (id <$> extra) ∧ ∀ e, e ∈ extra → id e ∉ id <$> catchup) as Hskip.
  { destruct (IH catchup) as (extra & He & Hs & Hrest). exists extra. split; [done|]. split; [by apply sublist_cons|done]. }
  destruct (match last with Some _ => _ | None => _ end); [done|]. destruct (has_id catchup (id x)) eqn:Hh; [done|]. clear Hskip.
  destruct (IH (catchup ++ [x])) as (extra & He & Hs & Hnd & Hno). exists (x :: extra). rewrite He, <-app_assoc. split; [done|].
  split; [by apply sublist_skip|]. assert (∀ e, e ∈ extra → id e ≠ id x ∧ id e ∉ id <$> catchup) as Hno'.
  { intros e Hin%Hno. rewrite fmap_app, not_elem_of_app in Hin. destruct Hin as [? Hx]. split; [|done]. intros Heq. apply Hx. rewrite Heq. left. }
  split; [constructor; [|done]|].
  - intros (e & Heq & Hin)%list_elem_of_fmap. by destruct (Hno' e Hin).
  - intros e [->|Hin]%elem_of_cons; [|by apply Hno']. intros (y & Hy & Hin)%list_elem_of_fmap.
    apply not_true_iff_false in Hh. apply Hh, has_id_true. by exists y.
Qed.

(** What the blocking read of the store answers. *)
Lemma read_position_spec st p t last catchup :
  store_ok st → read_position st p t = Ok (last, catchup) →
  last = position_of st p t
  ∧ ∀ e, e ∈ catchup ↔ last ≠ None ∧ e ∈ resumable st ∧ publish_topic (kind e) = Some t ∧ past last (id e) = true.
Proof.
  intros Hok Hread. unfold read_position in Hread.
  destruct (load_offset p t st) as [o|] eqn:Ho; [|done]. simpl in Hread.
  apply load_offset_ok in Ho; [|done]. subst o. destruct (position_of st p t) as [i|] eqn:Hi.
  - destruct (messages_since t i st) as [l|] eqn:Hl; [|done]. simpl in Hread. injection Hread as <- <-.
    split; [done|]. intros e. apply messages_since_ok in Hl as [_ Hl]; [|done|by eapply position_wf].
    rewrite Hl. split; [intros (?&?&?)|intros (_&?&?&?)]; by split_and!.
  - injection Hread as <- <-. split; [done|]. intros e. split; [by intros ?%not_elem_of_nil|tauto].
Qed.

(** C25: a durable subscribe is refused, with the broker unchanged, for a
    pattern, without a store, or when the store cannot be read. Otherwise its
    backlog is in identifier order, holds nothing at or before the subscriber's
    recorded position, holds every persisted message of the topic past it and
    every buffered one past it (by identifier), and nothing else, each once: it
    is, up to the order, what the store answered and, without repeating an
    identifier, buffered messages whose identifiers the store did not answer. The
    receiver is that of the ordinary subscribe. *)
Theorem subscribe_durable_resumes (f : TopicFilter) (p : PeerId) (b : Broker) :
  (∀ st, b_store b = Some st → store_ok st) →
  match subscribe_durable f p b with
  | (Err e, b') => b' = b
      ∧ (e = WildcardFilter ∧ as_topic f = None
         ∨ e = NoStore ∧ as_topic f ≠ None ∧ b_store b = None
         ∨ ∃ t st x, e = Io x ∧ as_topic f = Some t ∧ b_store b = Some st ∧ read_position st p t = Err x)
  | (Ok (l, r), b') => ∃ t st buffered,
      as_topic f = Some t ∧ b_store b = Some st ∧ subscribe f b = ((buffered, r), b')
      ∧ let last := position_of st p t in
        StronglySorted (key_le id_key) l
        ∧ (∀ e, e ∈ l → past last (id e) = true)
        ∧ (∀ e, last ≠ None → e ∈ resumable st → publish_topic (kind e) = Some t →
             past last (id e) = true → e ∈ l)
        ∧ (∀ e, e ∈ buffered → past last (id e) = true → ∃ e', e' ∈ l ∧ id e' = id e)
        ∧ (∀ e, e ∈ l → e ∈ buffered ∨ (e ∈ resumable st ∧ publish_topic (kind e) = Some t))
        ∧ ∃ catchup extra, read_position st p t = Ok (last, catchup) ∧ l ≡ₚ catchup ++ extra
            ∧ extra `sublist_of` buffered ∧ NoDup (id <$> extra) ∧ ∀ e, e ∈ extra → id e ∉ id <$> catchup
  end.
Proof.
  intros Hok. unfold subscribe_durable. destruct (as_topic f) as [t|] eqn:Hf; [|by split; [|left]].
  destruct (b_store b) as [st|] eqn:Hst; [|by split; [|right; left]].
  destruct (read_position st p t) as [[last catchup]|x] eqn:Hread; [|split; [done|]; right; right; by exists t, st, x].
  destruct (subscribe f b) as [[buffered r] b'] eqn:Hsub. exists t, st, buffered. do 3 (split; [done|]).
  destruct (merge_buffered_spec last catchup buffered) as (K1 & K2 & K3).
  destruct (read_position_spec st p t last catchup (Hok st eq_refl) Hread) as [<- Hcatch].
  split_and!.
  - apply sort_by_key_sorted.
  - intros e He%elem_of_sort_by_key. destruct (K1 e He) as [Hc|[_ ?]]; [by apply Hcatch in Hc as (_ & _ & _ & ?)|done].
  - intros e Hl Hp Ht Hpast. apply elem_of_sort_by_key, K2, Hcatch. by split_and!.
  - intros e He Hpast. destruct (K3 e He Hpast) as (e' & ? & ?). exists e'. by rewrite elem_of_sort_by_key.
  - intros e He%elem_of_sort_by_key. destruct (K1 e He) as [Hc|[? _]]; [|auto].
    apply Hcatch in Hc as (_ & ? & ? & _). auto.
  - destruct (merge_buffered_extra last buffered catchup) as (extra & Hm & Hex). exists catchup, extra. split; [done|].
    split; [by rewrite <-Hm, sort_by_key_perm|done].
Qed.
End broker_spec.

(** ** Witnesses *)

Lemma subscription_receives_every_match_witness :
  let B := Reference.ref_broadcast Envelope in
  let M := Reference.ref_mpsc Envelope in
  let S := ReferenceStore.ref_store in
  let e n := Sample.publish n (lit "a.b") [7%Z] false in
  let ops := [OpPublish (Sample.topic (lit "a.b")) (e 1%Z) 0; OpPublish (Sample.topic (lit "a.b")) (e 1%Z) 0;
              OpSubscribe (MkFilter (lit "#")); OpPublish (Sample.topic (lit "c")) (e 2%Z) 0;
              OpPublish (Sample.topic (lit "a.b")) (e 3%Z) 0] in
  let x := subscribe (MkFilter (lit "a.+")) new in
  queue (BroadcastLaws0 := Reference.ref_broadcast_laws Envelope) (exec_all ops (x.2, ∅)).1 x.1.2
  = Some [e 1%Z; e 3%Z].
Proof.
  intros B M S e ops x.
  transitivity (Some (all_news (MkFilter (lit "a.+")) ops (x.2, ∅))); [|by vm_compute].
  apply (@subscription_receives_every_match B M S (Reference.ref_broadcast_laws Envelope) (lit "a.+")).
  - apply broker_wf_new.
  - reflexivity.
  - right; left. apply Nat.ltb_lt. by vm_compute.
  - exact (conj I (conj I (conj I (conj I (conj I I))))).
Defined.

Lemma publish_duplicate_ignored_witness :
  let B := Reference.ref_broadcast Envelope in
  let M := Reference.ref_mpsc Envelope in
  let S := ReferenceStore.ref_store in
  let e := Sample.publish 1 (lit "a") [7%Z] false in
  let st := (publish (Sample.topic (lit "a")) e 0 (new, ∅)).2 in
  publish (Sample.topic (lit "a")) e 5 (st.1, ∅) = (0, (st.1, ∅)).
Proof.
  intros B M S e st.
  apply (@publish_duplicate_ignored B M S).
  - apply (publish_effect (H := B) (H0 := M) (H1 := S) (BroadcastLaws0 := Reference.ref_broadcast_laws Envelope)).
    apply broker_wf_new.
  - vm_compute. apply list_elem_of_here.
Defined.

Lemma subscribe_durable_resumes_witness :
  let B := Reference.ref_broadcast Envelope in
  let M := Reference.ref_mpsc Envelope in
  let S := ReferenceStore.ref_store in
  let e n := Sample.publish n (lit "a") [7%Z] false in
  let st := ReferenceStore.MkMem [e 1%Z; e 3%Z; e 2%Z] {[(Sample.peer 4, Sample.topic (lit "a")) := Sample.mid 1]} [] in
  ∃ l r b', subscribe_durable (MkFilter (lit "a")) (Sample.peer 4) (with_store st) = (Ok (l, r), b')
    ∧ e 2%Z ∈ l.
Proof.
  intros B M S e st.
  set (b := @with_store B S st).
  pose proof (@subscribe_durable_resumes B S ReferenceStore.ref_store_laws (MkFilter (lit "a")) (Sample.peer 4) b) as Hd.
  destruct (subscribe_durable (MkFilter (lit "a")) (Sample.peer 4) b) as [[[l r]|x] b'] eqn:Hs.
  2:{ exfalso. assert (is_ok (subscribe_durable (MkFilter (lit "a")) (Sample.peer 4) b).1 = true) as Hk by by vm_compute.
      by rewrite Hs in Hk. }
  exists l, r, b'. split; [done|]. destruct Hd as (t & st' & buffered & Ht & Hst & _ & _ & _ & Hall & _).
  { intros st' [= <-] k i Hi. change (ReferenceStore.mem_offsets st) with
      ({[(Sample.peer 4, Sample.topic (lit "a")) := Sample.mid 1]} : gmap (PeerId * Topic) MessageId) in Hi.
    apply lookup_singleton_Some in Hi as [_ <-]. by vm_compute. }
  injection Ht as <-. injection Hst as <-. apply Hall; try by vm_compute.
  repeat (try apply list_elem_of_here; apply list_elem_of_further).
Defined.
