(* ===== verification/Fingerprint.v ===== *)
(** * Certificate fingerprints ([thoth-mesh-tls/src/fingerprint.rs])

    SHA-256 is the [ring] crate's, a parameter; printing and parsing are the
    program's. [parse_fingerprint_hex] is their round trip, in every notation the parser
    accepts. *)

From S2P Require Import Prelude.
From S2P Require Import Text.

Section digest.
Context (sha256 : bytes → bytes).

Definition fingerprint (cert : bytes) : bytes := sha256 cert.
End digest.

(** The [{:02X}] of a byte. *)
Definition hex_upper (d : Z) : rchar := if (d <? 10)%Z then (48 + d)%Z else (55 + d)%Z.
Definition byte_hex (b : Z) : rstr := [hex_upper (b / 16); hex_upper (b `mod` 16)].

(** [fingerprint_hex], of the fingerprint of the certificate. *)
Definition render (fp : bytes) : rstr := join (lit ":") (byte_hex <$> fp).
Definition fingerprint_hex (sha256 : bytes → bytes) (cert : bytes) : rstr :=
  render (fingerprint sha256 cert).

Inductive ParseFingerprintError : Type := WrongLength (found : nat).

(** The value of a hexadecimal digit, in either case. *)
Definition hex_value (c : rchar) : Z :=
  if is_ascii_digit c then (c - 48)%Z else if (c <? 97)%Z then (c - 55)%Z else (c - 87)%Z.

(** [u8::from_str_radix(&hex[i * 2..i * 2 + 2], 16)] for each [i]. *)
Fixpoint hex_pairs (hex : rstr) : bytes :=
  match hex with
  | a :: b :: hex' => (hex_value a * 16 + hex_value b)%Z :: hex_pairs hex'
  | _ => []
  end.

Definition hex_digits (s : rstr) : rstr := List.filter is_ascii_hexdigit s.

(** [s.rsplit('=').next().unwrap_or(s)]: what follows the last [=]. *)
Definition after_last_equals (s : rstr) : rstr := List.last (split_on 61 s) s.

Definition parse_fingerprint (s : rstr) : Result bytes ParseFingerprintError :=
  let value := after_last_equals s in
  let hex := hex_digits value in
  if negb (length hex =? 64) then Err (WrongLength (length hex))
  else Ok (hex_pairs hex).

(** ** Lemmas *)

Lemma hex_digits_app a b : hex_digits (a ++ b) = hex_digits a ++ hex_digits b.
Proof. apply List.filter_app. Qed.

(** What a notation may do to a byte: the case of its digits. *)
Definition spells (b : Z) (s : rstr) : Prop :=
  ∃ h l, hex_digits s = [h; l] ∧ (hex_value h * 16 + hex_value l)%Z = b.

Lemma hex_pairs_spells fp segs : Forall2 spells fp segs → hex_pairs (hex_digits (concat segs)) = fp
  ∧ length (hex_digits (concat segs)) = 2 * length fp.
Proof.
  induction 1 as [|b s fp segs (h & l & Hs & Hb) _ [IH IHl]]; [done|]. simpl.
  rewrite hex_digits_app, Hs. simpl. rewrite IH, IHl, Hb. split; [done|lia].
Qed.

Lemma hex_upper_hexdigit d :
  (0 ≤ d < 16)%Z → is_ascii_hexdigit (hex_upper d) = true ∧ hex_value (hex_upper d) = d.
Proof.
  intros Hd. assert (d ∈ seqZ 0 16) as Hin by (apply elem_of_seqZ; lia).
  assert (Forall (λ d, is_ascii_hexdigit (hex_upper d) = true ∧ hex_value (hex_upper d) = d) (seqZ 0 16)) as HF.
  { repeat constructor. }
  by apply (proj1 (Forall_forall _ _) HF d Hin).
Qed.

Lemma byte_hex_spells b : is_byte b → spells b (byte_hex b).
Proof.
  unfold is_byte. intros Hb.
  destruct (hex_upper_hexdigit (b / 16)) as [H1 H1'];
    [split; [apply Z.div_pos; lia|apply Z.div_lt_upper_bound; lia]|].
  destruct (hex_upper_hexdigit (b `mod` 16)) as [H2 H2']; [apply Z.mod_pos_bound; lia|].
  exists (hex_upper (b / 16)), (hex_upper (b `mod` 16)). unfold hex_digits, byte_hex. simpl.
  rewrite H1, H2, H1', H2'. split; [done|]. rewrite (Z.div_mod b 16) at 3 by lia. lia.
Qed.

(** Separators that are not hexadecimal digits do not count. *)
Lemma hex_digits_join sep segs :
  hex_digits sep = [] → hex_digits (join sep segs) = hex_digits (concat segs).
Proof.
  intros Hsep. induction segs as [|s segs IH]; [done|]. destruct segs as [|s' segs].
  - simpl. by rewrite app_nil_r.
  - change (hex_digits (s ++ sep ++ join sep (s' :: segs)) = hex_digits (s ++ concat (s' :: segs))).
    by rewrite !hex_digits_app, IH, Hsep.
Qed.

(** A separator splits into at least two segments, and what follows the last
    one is the last segment. *)
Lemma split_on_two sep pre s : ∃ x y l, split_on sep (pre ++ sep :: s) = x :: y :: l.
Proof.
  induction pre as [|c pre (x & y & l & IH)]; simpl.
  - rewrite Z.eqb_refl. destruct (split_on sep s) as [|y l] eqn:E; [by destruct (split_on_not_nil sep s)|eauto].
  - rewrite IH. destruct (c =? sep)%Z; eauto.
Qed.

Lemma last_split_on sep pre s d : sep ∉ s → List.last (split_on sep (pre ++ sep :: s)) d = s.
Proof.
  intros Hs. induction pre as [|c pre IH]; simpl.
  - by rewrite Z.eqb_refl, split_on_single.
  - destruct (split_on_two sep pre s) as (x & y & l & E). rewrite E in *. by destruct (c =? sep)%Z.
Qed.

Lemma after_last_equals_label pre s :
  61%Z ∉ s → after_last_equals (pre ++ 61%Z :: s) = s ∧ after_last_equals s = s.
Proof.
  intros Hs. unfold after_last_equals. split; [by apply last_split_on|by rewrite split_on_single].
Qed.

(** ** The property of the notation *)

(** A 32-byte fingerprint written as pairs of hexadecimal digits in either
    case, joined by any separator without digits (so bare, or with colons), and
    behind any label that ends in [=] (so as [openssl] prints it), parses back
    to itself; and the program's own rendering is one of these. Anything that
    does not have 64 digits is refused, with the number it had. *)
Theorem parse_fingerprint_hex (fp : bytes) (segs : list rstr) (sep label : rstr) :
  length fp = 32 → Forall2 spells fp segs → hex_digits sep = [] → 61%Z ∉ join sep segs →
  parse_fingerprint (join sep segs) = Ok fp
  ∧ parse_fingerprint (label ++ 61%Z :: join sep segs) = Ok fp
  ∧ (Forall is_byte fp → parse_fingerprint (render fp) = Ok fp)
  ∧ ∀ s, length (hex_digits (after_last_equals s)) ≠ 64 →
      parse_fingerprint s = Err (WrongLength (length (hex_digits (after_last_equals s)))).
Proof.
  intros Hlen Hsp Hsep Heq.
  assert (∀ segs sep, Forall2 spells fp segs → hex_digits sep = [] → 61%Z ∉ join sep segs →
    ∀ s, after_last_equals s = join sep segs → parse_fingerprint s = Ok fp) as Hgen.
  { clear segs sep label Hsp Hsep Heq. intros segs sep Hsp Hsep Heq s Hs. unfold parse_fingerprint.
    rewrite Hs, hex_digits_join by done. destruct (hex_pairs_spells fp segs Hsp) as [-> ->].
    by rewrite Hlen. }
  destruct (after_last_equals_label label (join sep segs) Heq) as [Hl1 Hl2].
  split_and!; [by eapply Hgen..| |].
  - intros Hb. assert (Forall2 spells fp (byte_hex <$> fp)) as Hsp'.
    { clear -Hb. induction Hb; simpl; constructor; [by apply byte_hex_spells|done]. }
    assert (61%Z ∉ render fp) as Heq'.
    { unfold render. clear -Hb. induction Hb as [|b l Hb Hl IH]; [by apply not_elem_of_nil|].
      assert (61%Z ∉ byte_hex b) as Hnb.
      { unfold byte_hex. rewrite !not_elem_of_cons. unfold hex_upper, is_byte in *.
        pose proof (Z.mod_pos_bound b 16 ltac:(lia)).
        assert (b / 16 < 16)%Z by (apply Z.div_lt_upper_bound; lia).
        assert (0 ≤ b / 16)%Z by (apply Z.div_pos; lia).
        split_and!; [..|apply not_elem_of_nil]; case_match; to_prop; lia. }
      destruct l as [|b' l]; [done|].
      change (61%Z ∉ byte_hex b ++ lit ":" ++ join (lit ":") (byte_hex <$> b' :: l)).
      rewrite !not_elem_of_app. split_and!; [done| |done].
      intros Hc%list_elem_of_singleton. done. }
    apply (Hgen (byte_hex <$> fp) (lit ":")); [done|done|done|].
    by apply (after_last_equals_label []).
  - intros s Hs. unfold parse_fingerprint. by rewrite (proj2 (Nat.eqb_neq _ _) Hs).
Qed.

Lemma parse_fingerprint_hex_witness :
  let fp := replicate 32 171%Z in
  parse_fingerprint (lit "sha256 Fingerprint" ++ 61%Z :: join [] (replicate 32 (lit "aB"))) = Ok fp.
Proof.
  intros fp.
  refine (proj1 (proj2 (parse_fingerprint_hex fp (replicate 32 (lit "aB")) [] (lit "sha256 Fingerprint") _ _ _ _))).
  - reflexivity.
  - apply Forall2_replicate. exists 97%Z, 66%Z. by vm_compute.
  - reflexivity.
  - refine (proj1 (@bool_decide_eq_false (61%Z ∈ join [] (replicate 32 (lit "aB"))) (list_elem_of_dec _ _)) _).
    by vm_compute.
Defined.
