(* ===== verification/TopicAcl.v ===== *)
(** * Topic authorization ([thoth-mesh-node/src/topic_acl.rs])

    Entries are parsed into a set of grants, default-deny once configured. The
    parser is the source's, error by error; [grants] reads an entry off the
    page, and [topic_acl_parse_spec] is that the two agree. *)

From S2P Require Import Prelude.
From S2P Require Import Text.
From S2P Require Import Topic.
From S2P Require Import Fingerprint.

Inductive Principal : Type :=
| Anonymous
| Fp (fingerprint : bytes).

(** [Principal::from_fingerprint] *)
Definition from_fingerprint (fp : option bytes) : Principal :=
  match fp with Some fp => Fp fp | None => Anonymous end.

Inductive Action : Type := Publish | Subscribe.

#[export] Instance Principal_eq_dec : EqDecision Principal.
Proof. solve_decision. Defined.
#[export] Instance Principal_countable : Countable Principal :=
  inj_countable' (λ p, match p with Anonymous => None | Fp fp => Some fp end) from_fingerprint
    (λ p, match p with Anonymous => eq_refl | Fp _ => eq_refl end).
#[export] Instance Action_eq_dec : EqDecision Action.
Proof. solve_decision. Defined.
#[export] Instance Action_countable : Countable Action :=
  inj_countable' (λ a, match a with Publish => true | Subscribe => false end)
    (λ b, if b : bool then Publish else Subscribe) (λ a, match a with Publish => eq_refl | Subscribe => eq_refl end).

Inductive TopicAclParseError : Type :=
| WrongFieldCount (found : nat)
| InvalidPrincipal (e : ParseFingerprintError)
| InvalidAction (s : rstr)
| InvalidTopic (e : TopicError)
| InvalidEntry (raw : rstr) (source : TopicAclParseError).

Definition Grant : Type := Principal * Topic * Action.

Record TopicAcl := MkTopicAcl { entries : gset Grant }.

Definition parse_principal (s : rstr) : Result Principal ParseFingerprintError :=
  if eq_ignore_ascii_case s (lit "anonymous") then Ok Anonymous
  else let? fp := parse_fingerprint s in Ok (Fp fp).

Definition parse_actions (s : rstr) : Result (list Action) TopicAclParseError :=
  let l := to_ascii_lowercase s in
  if bool_decide (l = lit "pub") then Ok [Publish]
  else if bool_decide (l = lit "sub") then Ok [Subscribe]
  else if bool_decide (l = lit "pubsub") then Ok [Publish; Subscribe]
  else Err (InvalidAction l).

Definition parse_entry (raw : rstr) : Result (list Grant) TopicAclParseError :=
  let fields := split_on 124 raw in
  match fields with
  | [principal; action; topic] =>
      let? principal := map_err InvalidPrincipal (parse_principal (trim principal)) in
      let? actions := parse_actions (trim action) in
      let? topic := map_err InvalidTopic (Topic.from_str (trim topic)) in
      Ok ((λ action, (principal, topic, action)) <$> actions)
  | _ => Err (WrongFieldCount (length fields))
  end.

(** The [for raw in raw_entries] loop of [TopicAcl::parse]. *)
Fixpoint parse_loop (raws : list rstr) (acc : gset Grant) : Result (gset Grant) TopicAclParseError :=
  match raws with
  | [] => Ok acc
  | raw :: raws' =>
      let? granted := map_err (InvalidEntry raw) (parse_entry raw) in
      parse_loop raws' (acc ∪ list_to_set granted)
  end.

Definition parse (raws : list rstr) : Result TopicAcl TopicAclParseError :=
  let? entries := parse_loop raws ∅ in Ok (MkTopicAcl entries).

Definition permits (acl : TopicAcl) (principal : Principal) (topic : Topic) (action : Action) : bool :=
  bool_decide ((principal, topic, action) ∈ entries acl).

(** ** What an entry says *)

(** [p|a|t], up to surrounding spaces and the case of the first two fields. *)
Definition grants (raw : rstr) (g : Grant) : Prop :=
  ∃ fp fa ft, raw = fp ++ 124%Z :: fa ++ 124%Z :: ft
    ∧ 124%Z ∉ fp ∧ 124%Z ∉ fa ∧ 124%Z ∉ ft
    ∧ (eq_ignore_ascii_case (trim fp) (lit "anonymous") = true ∧ g.1.1 = Anonymous
       ∨ eq_ignore_ascii_case (trim fp) (lit "anonymous") = false
         ∧ ∃ b, parse_fingerprint (trim fp) = Ok b ∧ g.1.1 = Fp b)
    ∧ (to_ascii_lowercase (trim fa) = lit "pub" ∧ g.2 = Publish
       ∨ to_ascii_lowercase (trim fa) = lit "sub" ∧ g.2 = Subscribe
       ∨ to_ascii_lowercase (trim fa) = lit "pubsub")
    ∧ Topic.from_str (trim ft) = Ok g.1.2.

(** ** Lemmas *)

Lemma split_three sep (a b c : rstr) :
  sep ∉ a → sep ∉ b → sep ∉ c → split_on sep (a ++ sep :: b ++ sep :: c) = [a; b; c].
Proof. intros Ha Hb Hc. simpl. by rewrite !split_on_app, split_on_single. Qed.

Lemma split_three_inv sep s a b c :
  split_on sep s = [a; b; c] → s = a ++ sep :: b ++ sep :: c ∧ sep ∉ a ∧ sep ∉ b ∧ sep ∉ c.
Proof.
  intros E. pose proof (split_on_no_sep sep s) as HF. pose proof (join_split sep s) as Hj.
  rewrite E in *. inversion HF as [|? ? Ha HF1]; subst. inversion HF1 as [|? ? Hb HF2]; subst.
  inversion HF2; subst. done.
Qed.

Lemma parse_principal_spec s p :
  parse_principal s = Ok p ↔
  eq_ignore_ascii_case s (lit "anonymous") = true ∧ p = Anonymous
  ∨ eq_ignore_ascii_case s (lit "anonymous") = false ∧ ∃ b, parse_fingerprint s = Ok b ∧ p = Fp b.
Proof.
  unfold parse_principal. destruct (eq_ignore_ascii_case s (lit "anonymous")).
  - split; [intros [= <-]; by left|]. by intros [[_ ->]|[? _]].
  - destruct (parse_fingerprint s) as [b|e]; simpl; split.
    + intros [= <-]. right. eauto.
    + intros [[? _]|(_ & b' & [= <-] & ->)]; done.
    + done.
    + intros [[? _]|(_ & b' & ? & _)]; done.
Qed.

Lemma parse_actions_spec s l a :
  parse_actions s = Ok l →
  a ∈ l ↔ (to_ascii_lowercase s = lit "pub" ∧ a = Publish
           ∨ to_ascii_lowercase s = lit "sub" ∧ a = Subscribe ∨ to_ascii_lowercase s = lit "pubsub").
Proof.
  unfold parse_actions. intros Hl. repeat case_bool_decide; simplify_eq;
    rewrite ?elem_of_cons, ?elem_of_nil; repeat match goal with E : to_ascii_lowercase s = _ |- _ => rewrite E end.
  - split; [intros [->|[]]; auto|]. intros [[_ ->]|[[? _]|?]]; [auto|done..].
  - split; [intros [->|[]]; auto|]. intros [[? _]|[[_ ->]|?]]; [done|auto|done].
  - split; [auto|]. intros _. destruct a; auto.
Qed.

Lemma parse_actions_ok s :
  (∃ l, parse_actions s = Ok l) ↔
  to_ascii_lowercase s = lit "pub" ∨ to_ascii_lowercase s = lit "sub" ∨ to_ascii_lowercase s = lit "pubsub".
Proof.
  unfold parse_actions. repeat case_bool_decide; split;
    [tauto|eauto|tauto|eauto|tauto|eauto|by intros [? ?]|tauto].
Qed.

Lemma parse_entry_spec raw l g : parse_entry raw = Ok l → g ∈ l ↔ grants raw g.
Proof.
  unfold parse_entry. destruct (split_on 124 raw) as [|a [|b [|c [|]]]] eqn:E; try done.
  apply split_three_inv in E as (-> & Ha & Hb & Hc).
  destruct (parse_principal (trim a)) as [p|] eqn:Hp; [|done]. simpl.
  destruct (parse_actions (trim b)) as [acts|] eqn:Hact; [|done]. simpl.
  destruct (Topic.from_str (trim c)) as [t|] eqn:Ht; [|done]. simpl. intros [= <-].
  rewrite list_elem_of_fmap. apply parse_principal_spec in Hp. unfold grants. split.
  - intros (act & -> & Hin). rewrite (parse_actions_spec _ _ _ Hact) in Hin.
    exists a, b, c. by split_and!.
  - intros (a' & b' & c' & Heq & Ha' & Hb' & Hc' & Hp' & Hact' & Ht').
    apply (f_equal (split_on 124)) in Heq. rewrite (split_three 124 a b c), (split_three 124 a' b' c') in Heq by done.
    injection Heq as <- <- <-.
    destruct g as [[p' t'] act]. simpl in *. exists act. split.
    + rewrite Ht in Ht'. injection Ht' as ->. do 2 f_equal.
      destruct Hp as [[Hx ->]|[Hx (fp & Hfp & ->)]], Hp' as [[Hy ->]|[Hy (fp' & Hfp' & ->)]]; congruence.
    + by rewrite (parse_actions_spec _ _ _ Hact).
Qed.

Lemma grants_parse raw g : grants raw g → ∃ l, parse_entry raw = Ok l.
Proof.
  intros (a & b & c & -> & Ha & Hb & Hc & Hp & Hact & Ht). unfold parse_entry.
  rewrite split_three by done. rewrite (proj2 (parse_principal_spec _ _) Hp). simpl.
  destruct (proj2 (parse_actions_ok (trim b))) as [l ->]; [intuition|]. simpl. rewrite Ht. simpl. eauto.
Qed.

Lemma parse_loop_spec raws acc :
  match parse_loop raws acc with
  | Ok s => (∀ raw, raw ∈ raws → ∃ g, grants raw g)
      ∧ ∀ g, g ∈ s ↔ g ∈ acc ∨ ∃ raw, raw ∈ raws ∧ grants raw g
  | Err e => ∃ pre raw post e', raws = pre ++ raw :: post ∧ e = InvalidEntry raw e'
      ∧ parse_entry raw = Err e' ∧ ∀ r, r ∈ pre → ∃ g, grants r g
  end.
Proof.
  revert acc; induction raws as [|raw raws IH]; intros acc; simpl.
  { split; [by intros raw ?%not_elem_of_nil|]. intros g. split; [auto|].
    intros [?|(raw & ?%not_elem_of_nil & _)]; done. }
  destruct (parse_entry raw) as [l|e] eqn:E; simpl.
  2:{ exists [], raw, raws, e. split_and!; [done..|]. by intros r ?%not_elem_of_nil. }
  assert (∃ g, grants raw g) as Hraw.
  { assert (l ≠ []) as Hne.
    { unfold parse_entry in E. destruct (split_on 124 raw) as [|a [|b [|c [|]]]]; try done.
      destruct (parse_principal (trim a)) as [p|]; [|done]. simpl in E.
      destruct (parse_actions (trim b)) as [acts|] eqn:Hact; [|done]. simpl in E.
      destruct (Topic.from_str (trim c)) as [t|]; [|done]. simpl in E. injection E as <-.
      intros Hnil. apply fmap_nil_inv in Hnil as ->. unfold parse_actions in Hact.
      repeat case_bool_decide; done. }
    destruct l as [|g l]; [done|]. exists g. apply (parse_entry_spec raw _ g E), list_elem_of_here. }
  specialize (IH (acc ∪ list_to_set l)). destruct (parse_loop raws (acc ∪ list_to_set l)) as [s|e'].
  - destruct IH as [Hall Hs]. split.
    + intros r [->|Hr]%elem_of_cons; auto.
    + intros g. rewrite Hs, elem_of_union, elem_of_list_to_set, (parse_entry_spec raw l g E). split.
      * intros [[?|?]|(r & ? & ?)]; [auto|..]; right; eauto using list_elem_of_here, list_elem_of_further.
      * intros [?|(r & [->|?]%elem_of_cons & ?)]; [auto..|eauto].
  - destruct IH as (pre & r & post & e2 & -> & -> & He & Hpre). exists (raw :: pre), r, post, e2.
    split_and!; [done..|]. intros r' [->|Hr]%elem_of_cons; auto.
Qed.

(** ** The property *)

(** What the parser makes of the command line: either every entry is a
    well-formed grant and a principal is permitted exactly what some entry
    says - nothing for anyone else, the default is to deny - or parsing fails
    naming the first entry that is not, with its error. *)
Theorem topic_acl_parse_spec (raws : list rstr) (p : Principal) (t : Topic) (a : Action) :
  match parse raws with
  | Ok acl => (∀ raw, raw ∈ raws → ∃ g, grants raw g)
      ∧ (permits acl p t a = true ↔ ∃ raw, raw ∈ raws ∧ grants raw (p, t, a))
  | Err e => ∃ pre raw post e', raws = pre ++ raw :: post ∧ e = InvalidEntry raw e'
      ∧ parse_entry raw = Err e' ∧ (∀ g, ¬ grants raw g) ∧ ∀ r, r ∈ pre → ∃ g, grants r g
  end.
Proof.
  unfold parse. pose proof (parse_loop_spec raws ∅) as Hs. destruct (parse_loop raws ∅) as [s|e]; simpl.
  - destruct Hs as [Hall Hs]. split; [done|]. unfold permits. rewrite bool_decide_eq_true. simpl.
    rewrite Hs. split; [intros [?%not_elem_of_empty|?]; done|auto].
  - destruct Hs as (pre & raw & post & e' & ? & ? & He & ?). exists pre, raw, post, e'.
    split_and!; [done..| |done]. intros g [l Hl]%grants_parse. congruence.
Qed.

Example acl_example :
  match parse [lit "anonymous | PubSub | a.b"] with
  | Ok acl => permits acl Anonymous (MkTopic (lit "a.b")) Subscribe && negb (permits acl (Fp []) (MkTopic (lit "a.b")) Publish)
  | Err _ => false
  end = true.
Proof. by vm_compute. Qed.
