(* ===== verification/PeerTopicFilter.v ===== *)
(** * What a peer link is told about unasked
      ([thoth-mesh-node/src/peer_topic_filter.rs]) *)

From S2P Require Import Prelude.
From S2P Require Import Text.
From S2P Require Import Topic.
From S2P Require Import Fingerprint.
From S2P Require Import TopicAcl.

Inductive PeerTopicFilterParseError : Type :=
| WrongFieldCount (found : nat)
| InvalidPrincipal (e : ParseFingerprintError)
| InvalidTopic (e : TopicError)
| InvalidEntry (raw : rstr) (source : PeerTopicFilterParseError).

Record PeerTopicFilter := MkPeerTopicFilter { entries : gset (Principal * Topic) }.

#[export] Instance PeerTopicFilter_eq_dec : EqDecision PeerTopicFilter.
Proof. solve_decision. Defined.

Definition parse_entry (raw : rstr) : Result (Principal * Topic) PeerTopicFilterParseError :=
  let fields := split_on 124 raw in
  match fields with
  | [principal; topic] =>
      let? principal := map_err InvalidPrincipal (parse_principal (trim principal)) in
      let? topic := map_err InvalidTopic (Topic.from_str (trim topic)) in
      Ok (principal, topic)
  | _ => Err (WrongFieldCount (length fields))
  end.

Fixpoint parse_loop (raws : list rstr) (acc : gset (Principal * Topic)) :
    Result (gset (Principal * Topic)) PeerTopicFilterParseError :=
  match raws with
  | [] => Ok acc
  | raw :: raws' =>
      let? entry := map_err (InvalidEntry raw) (parse_entry raw) in
      parse_loop raws' (acc ∪ {[entry]})
  end.

Definition parse (raws : list rstr) : Result PeerTopicFilter PeerTopicFilterParseError :=
  let? entries := parse_loop raws ∅ in Ok (MkPeerTopicFilter entries).

Definition permits (f : PeerTopicFilter) (principal : Principal) (topic : Topic) : bool :=
  bool_decide ((principal, topic) ∈ entries f).

(** ** Lemmas *)

Lemma peer_filter_loop_spec raws acc :
  match parse_loop raws acc with
  | Ok s => (∀ raw, raw ∈ raws → is_ok (parse_entry raw) = true)
      ∧ ∀ x, x ∈ s ↔ x ∈ acc ∨ ∃ raw, raw ∈ raws ∧ parse_entry raw = Ok x
  | Err e => ∃ raw e', raw ∈ raws ∧ e = InvalidEntry raw e' ∧ parse_entry raw = Err e'
  end.
Proof.
  revert acc; induction raws as [|raw raws IH]; intros acc; simpl.
  { split; [by intros raw ?%not_elem_of_nil|]. intros x. split; [auto|].
    intros [?|(raw & ?%not_elem_of_nil & _)]; done. }
  destruct (parse_entry raw) as [x0|e] eqn:E; simpl.
  2:{ exists raw, e. split_and!; [apply list_elem_of_here|done..]. }
  specialize (IH (acc ∪ {[x0]})). destruct (parse_loop raws (acc ∪ {[x0]})) as [s|e'].
  - destruct IH as [Hall Hs]. split.
    + intros r [->|Hr]%elem_of_cons; [by rewrite E|auto].
    + intros x. rewrite Hs, elem_of_union, elem_of_singleton. split.
      * intros [[?| ->]|(r & ? & ?)]; [auto|..]; right; eauto using list_elem_of_here, list_elem_of_further.
      * intros [?|(r & [->|?]%elem_of_cons & ?)]; [auto| |eauto]. left; right. congruence.
  - destruct IH as (r & e2 & Hr & -> & He). exists r, e2.
    split_and!; [by apply list_elem_of_further|done..].
Qed.

Lemma peer_filter_parse_spec raws :
  match parse raws with
  | Ok f => ∀ p t, permits f p t = true ↔ ∃ raw, raw ∈ raws ∧ parse_entry raw = Ok (p, t)
  | Err e => ∃ raw e', raw ∈ raws ∧ e = InvalidEntry raw e' ∧ parse_entry raw = Err e'
  end.
Proof.
  unfold parse. pose proof (peer_filter_loop_spec raws ∅) as Hs.
  destruct (parse_loop raws ∅) as [s|e]; simpl; [|done].
  intros p t. unfold permits. rewrite bool_decide_eq_true. simpl. rewrite (proj2 Hs).
  split; [intros [?%not_elem_of_empty|?]; done|auto].
Qed.

Example peer_filter_example :
  match parse [lit "anonymous|a.b"] with
  | Ok f => permits f Anonymous (MkTopic (lit "a.b"))
  | Err _ => false
  end = true.
Proof. by vm_compute. Qed.
