(* ===== verification/RateLimit.v ===== *)
(** * Publish rate limiting ([thoth-mesh-node/src/rate_limit.rs])

    One token bucket per principal, in [f64]s: the binary64 arithmetic is the
    Standard Library's [SpecFloat], operation by operation as the source writes
    it. Instants are in nanoseconds. *)

From S2P Require Import Prelude.
From S2P Require Import Text.
From S2P Require Import TopicAcl.
From Stdlib Require Import SpecFloat.

Definition DEFAULT_RATE_LIMIT_PRINCIPAL_CAPACITY : nat := 4096.

(** ** [f64] *)

Definition f64 : Type := spec_float.
Definition f64_of_Z (n : Z) : f64 := binary_normalize 53 1024 n 0 false.
Definition f64_add : f64 → f64 → f64 := SFadd 53 1024.
Definition f64_sub : f64 → f64 → f64 := SFsub 53 1024.
Definition f64_mul : f64 → f64 → f64 := SFmul 53 1024.
Definition f64_div : f64 → f64 → f64 := SFdiv 53 1024.
Definition f64_is_nan (x : f64) : bool := match x with S754_nan => true | _ => false end.
Definition f64_min (a b : f64) : f64 :=
  if f64_is_nan a then b else if f64_is_nan b then a else if SFltb b a then b else a.
(** [a >= b] *)
Definition f64_ge (a b : f64) : bool := SFleb b a.

(** [Duration::as_secs_f64] *)
Definition as_secs_f64 (nanos : Z) : f64 :=
  f64_add (f64_of_Z (nanos / 1000000000))
    (f64_div (f64_of_Z (nanos `mod` 1000000000)) (f64_of_Z 1000000000)).

(** ** The limiter *)

Record RateLimitConfig := MkRateLimitConfig { per_sec : Z; burst : Z }.

Record Bucket := MkBucket { tokens : f64; last_refill : Z }.

Record RateLimiter := MkRateLimiter {
  config : RateLimitConfig;
  buckets : gmap Principal Bucket;
  order : list Principal;
  principal_evictions_total : Z;
}.

Definition new (config : RateLimitConfig) : RateLimiter := MkRateLimiter config ∅ [] 0.

(** The refill of a bucket at [now]. *)
Definition refill (c : RateLimitConfig) (now : Z) (b : Bucket) : Bucket :=
  let elapsed := as_secs_f64 (Z.max 0 (now - last_refill b)) in
  MkBucket
    (f64_min (f64_add (tokens b) (f64_mul elapsed (f64_of_Z (per_sec c)))) (f64_of_Z (burst c))) now.

(** Spending one token, if there is one. *)
Definition spend (b : Bucket) : bool * Bucket :=
  if f64_ge (tokens b) (f64_of_Z 1) then (true, MkBucket (f64_sub (tokens b) (f64_of_Z 1)) (last_refill b))
  else (false, b).

Definition allow (principal : Principal) (now : Z) : ST RateLimiter bool := λ s,
  let is_new := negb (bool_decide (is_Some (buckets s !! principal))) in
  let bucket := default (MkBucket (f64_of_Z (burst (config s))) now) (buckets s !! principal) in
  let '(allowed, bucket1) := spend (refill (config s) now bucket) in
  let buckets1 := <[principal := bucket1]> (buckets s) in
  if is_new then
    let order1 := order s ++ [principal] in
    if DEFAULT_RATE_LIMIT_PRINCIPAL_CAPACITY <? length order1 then
      match order1 with
      | oldest :: order2 =>
          (allowed, MkRateLimiter (config s) (delete oldest buckets1) order2
                      (fetch_add 1 (principal_evictions_total s)))
      | [] => (allowed, MkRateLimiter (config s) buckets1 order1 (principal_evictions_total s))
      end
    else (allowed, MkRateLimiter (config s) buckets1 order1 (principal_evictions_total s))
  else (allowed, MkRateLimiter (config s) buckets1 (order s) (principal_evictions_total s)).

Definition principal_evictions (s : RateLimiter) : Z := principal_evictions_total s.

(** The queue lists exactly the tracked principals, within the capacity. *)
Definition wf (s : RateLimiter) : Prop :=
  NoDup (order s) ∧ (∀ p, p ∈ order s ↔ is_Some (buckets s !! p))
  ∧ length (order s) ≤ DEFAULT_RATE_LIMIT_PRINCIPAL_CAPACITY.

(** ** Lemmas *)

Lemma rate_limiter_wf_new c : wf (new c).
Proof.
  split_and!; simpl; [constructor| |lia]. intros p. rewrite lookup_empty.
  split; [by intros ?%not_elem_of_nil|by intros [? ?]].
Qed.

(** What [allow] answers, and the bucket it leaves. *)
Definition decision (s : RateLimiter) (p : Principal) (now : Z) : bool * Bucket :=
  spend (refill (config s) now (default (MkBucket (f64_of_Z (burst (config s))) now) (buckets s !! p))).

Lemma allow_spec p now s :
  wf s →
  let '(allowed, s') := allow p now s in
  allowed = (decision s p now).1
  ∧ wf s' ∧ config s' = config s
  ∧ buckets s' !! p = Some (decision s p now).2
  ∧ ∀ q, q ≠ p → buckets s' !! q = buckets s !! q
      ∨ (buckets s' !! q = None ∧ head (order s) = Some q ∧ p ∉ order s
         ∧ length (order s) = DEFAULT_RATE_LIMIT_PRINCIPAL_CAPACITY
         ∧ principal_evictions s' = fetch_add 1 (principal_evictions s)).
Proof.
  intros (Hnd & Hdom & Hlen). unfold allow. fold (decision s p now).
  destruct (decision s p now) as [allowed b1]. rewrite <-(bool_decide_ext _ _ (Hdom p)).
  case_bool_decide as Hp; simpl.
  - split_and!; [done| |done|by rewrite lookup_insert_eq|].
    + split_and!; simpl; [done| |done]. intros q. rewrite lookup_insert_is_Some, Hdom.
      destruct (decide (p = q)) as [->|]; [|intuition congruence]. split; [auto|by intros _; apply Hdom].
    + intros q Hq. left. by rewrite lookup_insert_ne.
  - assert (NoDup (order s ++ [p])) as Hnd1.
    { apply NoDup_app. split_and!; [done| |apply NoDup_singleton].
      by intros q Hq ->%list_elem_of_singleton. }
    assert (∀ q, q ∈ order s ++ [p] ↔ is_Some (<[p:=b1]> (buckets s) !! q)) as Hdom1.
    { intros q. rewrite elem_of_app, list_elem_of_singleton, Hdom, lookup_insert_is_Some.
      destruct (decide (p = q)); intuition congruence. }
    pose proof (length_app (order s) [p]) as Hl. simpl in Hl.
    destruct (Nat.ltb_spec DEFAULT_RATE_LIMIT_PRINCIPAL_CAPACITY (length (order s ++ [p]))) as [Hover|Hfit].
    + assert (∃ oldest l, order s = oldest :: l) as (oldest & l & Ho).
      { destruct (order s); [simpl in Hover; unfold DEFAULT_RATE_LIMIT_PRINCIPAL_CAPACITY in Hover; lia|eauto]. }
      rewrite Ho in *. simpl app in *. apply NoDup_cons in Hnd1 as [Hold Hnd1].
      assert (p ≠ oldest) as Hne by (intros ->; apply Hp, list_elem_of_here).
      simpl. split_and!; [done| |done|by rewrite lookup_delete_ne, lookup_insert_eq|].
      * split_and!; simpl; [done| |simpl in Hl, Hlen; lia]. intros q. specialize (Hdom1 q).
        rewrite elem_of_cons in Hdom1. destruct (decide (oldest = q)) as [->|].
        -- rewrite lookup_delete_eq. split; [done|by intros [? ?]].
        -- rewrite lookup_delete_ne by done. rewrite <-Hdom1. intuition congruence.
      * intros q Hq. destruct (decide (oldest = q)) as [->|].
        -- right. rewrite lookup_delete_eq. simpl in *. split_and!; [done..| |done]. lia.
        -- left. by rewrite lookup_delete_ne, lookup_insert_ne.
    + simpl. split_and!; [done| |done|by rewrite lookup_insert_eq|].
      * by split_and!.
      * intros q Hq. left. by rewrite lookup_insert_ne.
Qed.

(** ** The property *)

(** C37: a publish is allowed exactly when the principal's own bucket, full
    for a new principal and refilled for the time since its last publish up to
    the burst otherwise, holds at least one token; an allowed one spends it, a
    refused one spends nothing; no other principal's bucket moves, except that
    a 4097th principal evicts the one tracked longest. *)
Theorem rate_limit_isolates (p q : Principal) (now : Z) (s : RateLimiter) :
  wf s → q ≠ p →
  let '(allowed, s') := allow p now s in
  let b := refill (config s) now (default (MkBucket (f64_of_Z (burst (config s))) now) (buckets s !! p)) in
  allowed = f64_ge (tokens b) (f64_of_Z 1)
  ∧ buckets s' !! p = Some (if allowed then MkBucket (f64_sub (tokens b) (f64_of_Z 1)) now else b)
  ∧ wf s'
  ∧ (buckets s' !! q = buckets s !! q
     ∨ buckets s' !! q = None ∧ head (order s) = Some q
       ∧ length (order s) = DEFAULT_RATE_LIMIT_PRINCIPAL_CAPACITY
       ∧ principal_evictions s' = fetch_add 1 (principal_evictions s)).
Proof.
  intros Hwf Hq. pose proof (allow_spec p now s Hwf) as Hs. destruct (allow p now s) as [allowed s'].
  destruct Hs as (Ha & Hwf' & _ & Hb & Hoth). simpl. unfold decision, spend in Ha, Hb.
  split_and!; [by rewrite Ha; destruct (f64_ge _ _)| |done|].
  - rewrite Hb, Ha. by destruct (f64_ge _ _).
  - destruct (Hoth q Hq) as [?|(? & ? & _ & ? & ?)]; auto.
Qed.

(** Three allowed at once with a burst of 3, none after, one more after 1s. *)
Definition demo : list bool :=
  let c := MkRateLimitConfig 1 3 in
  let step := λ '(acc, s) now, let '(a, s1) := allow Anonymous now s in (acc ++ [a], s1) in
  (fold_left step [0; 0; 0; 0; 500000000; 1000000000]%Z ([], new c)).1.

Lemma rate_limit_isolates_witness :
  demo = [true; true; true; false; false; true]
  ∧ wf (allow Anonymous 5 (new (MkRateLimitConfig 1 3))).2.
Proof.
  split; [by vm_compute|].
  pose proof (rate_limit_isolates Anonymous (Fp []) 5 (new (MkRateLimitConfig 1 3)) (rate_limiter_wf_new _)
    ltac:(done)) as Hs.
  destruct (allow Anonymous 5 (new (MkRateLimitConfig 1 3))) as [a s']. apply Hs.
Defined.
