(* ===== verification/Redelivery.v ===== *)
(** * Acknowledged deliveries ([thoth-mesh-node/src/redelivery.rs])

    [PendingAcks] tracks what an acknowledging forwarder sent and nobody acked.
    Instants and durations are in nanoseconds. *)

From S2P Require Import Prelude.
From S2P Require Import Text.
From S2P Require Import Message.
From S2P Require Import Groups.

Definition DEFAULT_ACK_TIMEOUT : Z := 5 * 10 ^ 9.
Definition DEFAULT_MAX_REDELIVERY_ATTEMPTS : nat := 5.

Record PendingEntry := MkPendingEntry {
  envelope : Envelope;
  sent_at : Z;
  attempts : nat;
}.

Record PendingAcks := MkPendingAcks {
  timeout : Z;
  max_attempts : nat;
  entries : gmap MessageId PendingEntry;
}.

Definition new (timeout : Z) (max_attempts : nat) : PendingAcks := MkPendingAcks timeout max_attempts ∅.

Definition set_entries (m : gmap MessageId PendingEntry) (s : PendingAcks) : PendingAcks :=
  MkPendingAcks (timeout s) (max_attempts s) m.

Definition record (e : Envelope) (now : Z) (s : PendingAcks) : PendingAcks :=
  set_entries (<[id e := MkPendingEntry e now 0]> (entries s)) s.

Definition ack (i : MessageId) (s : PendingAcks) : PendingAcks :=
  set_entries (delete i (entries s)) s.

Definition entry_expired (now : Z) (s : PendingAcks) (entry : PendingEntry) : bool :=
  (timeout s <=? duration_since now (sent_at entry))%Z.

(** The [for id in expired] loop. *)
Fixpoint sweep_loop (now : Z) (ids : list MessageId) (s : PendingAcks) (to_resend given_up_on : list Envelope) :
    (list Envelope * list Envelope) * PendingAcks :=
  match ids with
  | [] => ((to_resend, given_up_on), s)
  | i :: ids' =>
      match entries s !! i with
      | None => sweep_loop now ids' s to_resend given_up_on
      | Some entry =>
          if max_attempts s <=? attempts entry then
            sweep_loop now ids' (set_entries (delete i (entries s)) s) to_resend
              (given_up_on ++ [envelope entry])
          else
            sweep_loop now ids'
              (set_entries (<[i := MkPendingEntry (envelope entry) now (S (attempts entry))]> (entries s)) s)
              (to_resend ++ [envelope entry]) given_up_on
      end
  end.

Definition sweep (now : Z) (s : PendingAcks) : (list Envelope * list Envelope) * PendingAcks :=
  let expired := (List.filter (λ p, entry_expired now s p.2) (map_to_list (entries s))).*1 in
  sweep_loop now expired s [] [].

(** [(timeout / 4).max(10ms)] *)
Definition sweep_interval (timeout : Z) : Z := Z.max (timeout / 4) (10 * 10 ^ 6).

(** Every entry is under the identifier of its envelope, within its attempts. *)
Definition wf (s : PendingAcks) : Prop :=
  ∀ i p, entries s !! i = Some p → id (envelope p) = i ∧ attempts p ≤ max_attempts s.

(** ** What a sweep does *)

Definition retry (now : Z) (p : PendingEntry) : PendingEntry := MkPendingEntry (envelope p) now (S (attempts p)).

Definition swept_entry (now : Z) (s : PendingAcks) (p : PendingEntry) : option PendingEntry :=
  if entry_expired now s p then if max_attempts s <=? attempts p then None else Some (retry now p)
  else Some p.

Lemma sweep_loop_spec now ids s tr gu :
  NoDup ids → (∀ i, i ∈ ids → is_Some (entries s !! i)) →
  let '((tr', gu'), s') := sweep_loop now ids s tr gu in
  timeout s' = timeout s ∧ max_attempts s' = max_attempts s
  ∧ (∀ i, i ∉ ids → entries s' !! i = entries s !! i)
  ∧ (∀ i p, i ∈ ids → entries s !! i = Some p →
       entries s' !! i = if max_attempts s <=? attempts p then None else Some (retry now p))
  ∧ tr' = tr ++ omap (λ i, p ← entries s !! i; if max_attempts s <=? attempts p then None else Some (envelope p)) ids
  ∧ gu' = gu ++ omap (λ i, p ← entries s !! i; if max_attempts s <=? attempts p then Some (envelope p) else None) ids.
Proof.
  intros Hnd. revert s tr gu. induction Hnd as [|i ids Hi Hnd IH]; intros s tr gu Hin; simpl.
  { rewrite !app_nil_r. split_and!; try done. by intros i p ?%not_elem_of_nil. }
  destruct (Hin i (list_elem_of_here _ _)) as [p Hp]. rewrite Hp. simpl.
  assert (∀ s1, (∀ j, j ≠ i → entries s1 !! j = entries s !! j) → max_attempts s1 = max_attempts s →
    (∀ j, j ∈ ids → is_Some (entries s1 !! j))
    ∧ ∀ A (f : PendingEntry → option A), omap (λ j, p ← entries s1 !! j; f p) ids = omap (λ j, p ← entries s !! j; f p) ids)
    as Hsame.
  { intros s1 Hne _. split.
    - intros j Hj. rewrite Hne by congruence. by apply Hin, list_elem_of_further.
    - intros A f. apply list_omap_ext, Forall2_same_length_lookup. split; [done|].
      intros k x y Hx Hy. assert (x = y) as -> by congruence.
      rewrite Hne; [done|]. apply list_elem_of_lookup_2 in Hx. congruence. }
  destruct (max_attempts s <=? attempts p) eqn:Hmax.
  - set (s1 := set_entries (delete i (entries s)) s).
    assert (∀ j, j ≠ i → entries s1 !! j = entries s !! j) as Hne by (intros j Hj; simpl; by rewrite lookup_delete_ne).
    destruct (Hsame s1 Hne eq_refl) as [Hin1 Hom].
    specialize (IH s1 tr (gu ++ [envelope p]) Hin1).
    destruct (sweep_loop now ids s1 tr (gu ++ [envelope p])) as [[tr' gu'] s'].
    destruct IH as (Ht & Hm & Hout & Hinn & Htr & Hgu). rewrite Hom in Htr, Hgu. split_and!; [done..| | | |].
    + intros j [Hj1 Hj2]%not_elem_of_cons. by rewrite Hout, Hne.
    + intros j q [->|Hj]%elem_of_cons Hq.
      * simplify_eq. rewrite Hmax, Hout by done. simpl. by rewrite lookup_delete_eq.
      * apply Hinn; [done|]. rewrite Hne; [done|]. congruence.
    + done.
    + by rewrite Hgu, <-app_assoc.
  - set (s1 := set_entries (<[i:=_]> (entries s)) s).
    assert (∀ j, j ≠ i → entries s1 !! j = entries s !! j) as Hne by (intros j Hj; simpl; by rewrite lookup_insert_ne).
    destruct (Hsame s1 Hne eq_refl) as [Hin1 Hom].
    specialize (IH s1 (tr ++ [envelope p]) gu Hin1).
    destruct (sweep_loop now ids s1 (tr ++ [envelope p]) gu) as [[tr' gu'] s'].
    destruct IH as (Ht & Hm & Hout & Hinn & Htr & Hgu). rewrite Hom in Htr, Hgu. split_and!; [done..| | | |].
    + intros j [Hj1 Hj2]%not_elem_of_cons. by rewrite Hout, Hne.
    + intros j q [->|Hj]%elem_of_cons Hq.
      * simplify_eq. rewrite Hmax, Hout by done. simpl. by rewrite lookup_insert_eq.
      * apply Hinn; [done|]. rewrite Hne; [done|]. congruence.
    + by rewrite Htr, <-app_assoc.
    + done.
Qed.

Lemma elem_of_expired now s i :
  i ∈ (List.filter (λ p, entry_expired now s p.2) (map_to_list (entries s))).*1 ↔
  ∃ p, entries s !! i = Some p ∧ entry_expired now s p = true.
Proof.
  rewrite list_elem_of_fmap. split.
  - intros ([j p] & -> & Hin). apply list_elem_of_In, filter_In in Hin as [Hin Hex].
    apply list_elem_of_In, elem_of_map_to_list in Hin. eauto.
  - intros (p & Hp & Hex). exists (i, p). split; [done|].
    apply list_elem_of_In, filter_In. by rewrite <-list_elem_of_In, elem_of_map_to_list.
Qed.

Lemma pending_sweep_spec now s :
  let '((to_resend, given_up_on), s') := sweep now s in
  timeout s' = timeout s ∧ max_attempts s' = max_attempts s
  ∧ (∀ i, entries s' !! i = entries s !! i ≫= swept_entry now s)
  ∧ (∀ e, e ∈ to_resend ↔ ∃ i p, entries s !! i = Some p ∧ envelope p = e
       ∧ entry_expired now s p = true ∧ attempts p < max_attempts s)
  ∧ (∀ e, e ∈ given_up_on ↔ ∃ i p, entries s !! i = Some p ∧ envelope p = e
       ∧ entry_expired now s p = true ∧ max_attempts s ≤ attempts p).
Proof.
  unfold sweep. set (ids := (List.filter _ _).*1).
  assert (NoDup ids) as Hnd by apply (NoDup_fmap_filter fst), NoDup_fst_map_to_list.
  assert (∀ i, i ∈ ids ↔ ∃ p, entries s !! i = Some p ∧ entry_expired now s p = true) as Hids
    by (intros; apply elem_of_expired).
  pose proof (sweep_loop_spec now ids s [] [] Hnd) as Hs.
  destruct (sweep_loop now ids s [] []) as [[tr gu] s'].
  destruct Hs as (Ht & Hm & Hout & Hin & -> & ->); [intros i (p & Hp & _)%Hids; eauto|].
  split_and!; [done..| | |].
  - intros i. destruct (entries s !! i) as [p|] eqn:Hp; simpl.
    + unfold swept_entry. destruct (entry_expired now s p) eqn:Hex.
      * apply Hin; [|done]. apply Hids. eauto.
      * rewrite Hout; [done|]. rewrite Hids. intros (q & Hq & ?). congruence.
    + rewrite Hout; [done|]. rewrite Hids. intros (q & Hq & ?). congruence.
  - intros e. simpl. rewrite list_elem_of_omap. split.
    + intros (i & (p & Hp & Hex)%Hids & Hi). rewrite Hp in Hi. simpl in Hi.
      destruct (Nat.leb_spec (max_attempts s) (attempts p)); [done|]. simplify_eq. eauto 8.
    + intros (i & p & Hp & <- & Hex & Hlt). exists i. rewrite Hids, Hp. split; [eauto|]. simpl.
      by rewrite (proj2 (Nat.leb_gt _ _) Hlt).
  - intros e. simpl. rewrite list_elem_of_omap. split.
    + intros (i & (p & Hp & Hex)%Hids & Hi). rewrite Hp in Hi. simpl in Hi.
      destruct (Nat.leb_spec (max_attempts s) (attempts p)); [|done]. simplify_eq. eauto 8.
    + intros (i & p & Hp & <- & Hex & Hlt). exists i. rewrite Hids, Hp. split; [eauto|]. simpl.
      by rewrite (proj2 (Nat.leb_le _ _) Hlt).
Qed.

Lemma sweep_wf now s : wf s → wf (sweep now s).2.
Proof.
  intros Hwf. pose proof (pending_sweep_spec now s) as Hs. destruct (sweep now s) as [[tr gu] s'].
  destruct Hs as (_ & Hm & He & _). intros i p Hp. simpl in *. rewrite He in Hp. rewrite Hm.
  destruct (entries s !! i) as [q|] eqn:Hq; [|done]. simpl in Hp. destruct (Hwf i q Hq) as [Hid Hat].
  unfold swept_entry in Hp. destruct (entry_expired now s q); [|by simplify_eq].
  destruct (Nat.leb_spec (max_attempts s) (attempts q)); simplify_eq. simpl. split; [done|lia].
Qed.

(** ** The life of one delivery *)

(** Sweeps at the given instants, and how often [e] was resent and given up. *)
Fixpoint sweeps (e : Envelope) (times : list Z) (s : PendingAcks) : nat * nat * PendingAcks :=
  match times with
  | [] => (0, 0, s)
  | t :: times' =>
      let '((tr, gu), s1) := sweep t s in
      let '(r, g, s2) := sweeps e times' s1 in
      ((if decide (e ∈ tr) then S r else r), (if decide (e ∈ gu) then S g else g), s2)
  end.

(** Each instant at least [d] after the previous one. *)
Fixpoint spaced (d last : Z) (times : list Z) : Prop :=
  match times with [] => True | t :: times' => (last + d ≤ t)%Z ∧ spaced d t times' end.

Lemma sweeps_life e times s p :
  (0 ≤ timeout s)%Z → wf s → entries s !! id e = Some p → envelope p = e →
  spaced (timeout s) (sent_at p) times →
  let '(r, g, s') := sweeps e times s in
  r = Nat.min (length times) (max_attempts s - attempts p)
  ∧ g = (if max_attempts s - attempts p <? length times then 1 else 0)
  ∧ (entries s' !! id e = None ↔ max_attempts s - attempts p < length times).
Proof.
  intros Hd. revert s p Hd; induction times as [|t times IH]; intros s p Hd Hwf Hp He Hsp;
    cbn [sweeps length].
  { split_and!; [done..|]. rewrite Hp. split; [done|lia]. }
  destruct Hsp as [Ht Hsp]. pose proof (pending_sweep_spec t s) as Hs. pose proof (sweep_wf t s Hwf) as Hwf1.
  assert (entry_expired t s p = true) as Hex.
  { unfold entry_expired, duration_since. apply Z.leb_le. lia. }
  destruct (sweep t s) as [[tr gu] s1]. destruct Hs as (Hto & Hm & Hent & Htr & Hgu). simpl in Hwf1.
  assert (∀ i q, entries s !! i = Some q → envelope q = e → q = p) as Huniq.
  { intros i q Hq <-. destruct (Hwf i q Hq) as [Hi _]. rewrite Hi in Hp. congruence. }
  specialize (Hent (id e)). rewrite Hp in Hent. simpl in Hent. unfold swept_entry in Hent. rewrite Hex in Hent.
  destruct (Nat.leb_spec (max_attempts s) (attempts p)) as [Hmax|Hmax].
  - assert (∀ ts s0, entries s0 !! id e = None → wf s0 → sweeps e ts s0 = (0, 0, (sweeps e ts s0).2)
      ∧ entries (sweeps e ts s0).2 !! id e = None) as Hgone.
    { clear. induction ts as [|t ts IH]; intros s0 Hn Hw; simpl; [done|].
      pose proof (pending_sweep_spec t s0) as Hs. pose proof (sweep_wf t s0 Hw) as Hw1.
      destruct (sweep t s0) as [[tr gu] s1]. destruct Hs as (_ & _ & He & Htr & Hgu).
      specialize (He (id e)). rewrite Hn in He. destruct (IH s1 He Hw1) as [IH1 IH2].
      destruct (sweeps e ts s1) as [[r g] s2]. simpl in *. injection IH1 as -> ->.
      assert (∀ i q, entries s0 !! i = Some q → envelope q ≠ e) as Hno.
      { intros i q Hq <-. destruct (Hw i q Hq) as [Hi _]. congruence. }
      rewrite !decide_False; [done|..].
      - rewrite Hgu. intros (i & q & Hq & ? & _). by eapply Hno.
      - rewrite Htr. intros (i & q & Hq & ? & _). by eapply Hno. }
    destruct (Hgone times s1 Hent Hwf1) as [Hg1 Hg2]. destruct (sweeps e times s1) as [[r g] s2].
    simpl in Hg1, Hg2. injection Hg1 as -> ->.
    rewrite decide_False, decide_True.
    + split_and!; [lia| |split; [lia|done]]. rewrite (proj2 (Nat.ltb_lt _ _)); [done|lia].
    + rewrite Hgu. exists (id e), p. by split_and!.
    + rewrite Htr. intros (i & q & Hq & Heq & _ & Hlt). rewrite (Huniq i q Hq Heq) in Hlt. lia.
  - specialize (IH s1 (retry t p)). rewrite Hto, Hm in IH. specialize (IH Hd Hwf1 Hent He Hsp).
    destruct (sweeps e times s1) as [[r g] s2]. simpl in IH. destruct IH as (-> & -> & Hiff).
    rewrite decide_True, decide_False.
    + split_and!; [lia| |rewrite Hiff; lia].
      destruct (Nat.ltb_spec (max_attempts s - S (attempts p)) (length times)),
        (Nat.ltb_spec (max_attempts s - attempts p) (S (length times))); lia.
    + rewrite Hgu. intros (i & q & Hq & Heq & _ & Hle). rewrite (Huniq i q Hq Heq) in Hle. lia.
    + rewrite Htr. exists (id e), p. by split_and!.
Qed.

(** ** The properties *)

(** C30: a delivery that is never acknowledged is resent by exactly the
    first [max_attempts] sweeps that come a timeout or more after the last
    sending, given up by exactly the next one, and then forgotten - never
    resent again, never given up twice. *)
Theorem unacked_delivery_resent_exactly (e : Envelope) (now d : Z) (n : nat) (s : PendingAcks) (times : list Z) :
  wf s → timeout s = d → (0 ≤ d)%Z → max_attempts s = n → spaced d now times →
  let '(resent, given_up, s') := sweeps e times (record e now s) in
  resent = Nat.min (length times) n
  ∧ given_up = (if n <? length times then 1 else 0)
  ∧ (entries s' !! id e = None ↔ n < length times).
Proof.
  intros Hwf <- Hd <- Hsp.
  pose proof (sweeps_life e times (record e now s) (MkPendingEntry e now 0)) as Hl. simpl in Hl.
  rewrite Nat.sub_0_r in Hl. apply Hl; [done| |by rewrite lookup_insert_eq|done|done].
  intros i p. simpl. rewrite lookup_insert_Some. intros [[<- <-]|[_ Hp]]; [simpl; split; [done|lia]|by apply Hwf].
Qed.

(** Acknowledging a delivery removes it and only it, whatever was
    pending: no later sweep resends it or gives it up. *)
Theorem acked_delivery_never_resent (e : Envelope) (now : Z) (s : PendingAcks) :
  wf s →
  let '((to_resend, given_up_on), s') := sweep now (ack (id e) s) in
  e ∉ to_resend ∧ e ∉ given_up_on ∧ entries s' !! id e = None
  ∧ ∀ i, i ≠ id e → entries s' !! i = entries (sweep now s).2 !! i.
Proof.
  intros Hwf. pose proof (pending_sweep_spec now (ack (id e) s)) as Hs. pose proof (pending_sweep_spec now s) as Hs0.
  destruct (sweep now (ack (id e) s)) as [[tr gu] s']. destruct (sweep now s) as [[tr0 gu0] s0].
  destruct Hs as (_ & _ & He & Htr & Hgu), Hs0 as (_ & _ & He0 & _).
  assert (∀ i p, entries (ack (id e) s) !! i = Some p → envelope p ≠ e) as Hno.
  { intros i p. simpl. rewrite lookup_delete_Some. intros [Hne Hp] <-. destruct (Hwf i p Hp). done. }
  split_and!.
  - rewrite Htr. intros (i & p & Hp & Heq & _). by eapply Hno.
  - rewrite Hgu. intros (i & p & Hp & Heq & _). by eapply Hno.
  - rewrite He. simpl. by rewrite lookup_delete_eq.
  - intros i Hi. rewrite He. simpl. rewrite He0, lookup_delete_ne by done. done.
Qed.

Lemma unacked_delivery_resent_exactly_witness :
  let e := Sample.publish 1 (lit "a") [1%Z] false in
  (sweeps e [10; 20; 30; 40]%Z (record e 0 (new 10 2))).1 = (2, 1).
Proof.
  intros e.
  pose proof (unacked_delivery_resent_exactly e 0 10 2 (new 10 2) [10; 20; 30; 40]%Z) as Ht.
  destruct (sweeps e [10; 20; 30; 40]%Z (record e 0 (new 10 2))) as [[r g] s'].
  destruct Ht as (-> & -> & _); [|done|done|done|simpl; lia|done].
  intros i p. simpl. by rewrite lookup_empty.
Defined.

Lemma acked_delivery_never_resent_witness :
  let e := Sample.publish 1 (lit "a") [1%Z] false in
  e ∉ (sweep 100 (ack (id e) (record e 0 (new 10 2)))).1.1.
Proof.
  intros e.
  assert (wf (record e 0 (new 10 2))) as Hwf.
  { intros i p. simpl. rewrite lookup_insert_Some, lookup_empty. intros [[<- <-]|[_ ?]]; [|done]. simpl. split; [done|lia]. }
  pose proof (acked_delivery_never_resent e 100 _ Hwf) as Ht.
  destruct (sweep 100 (ack (id e) (record e 0 (new 10 2)))) as [[tr gu] s']. apply Ht.
Defined.
