(* ===== verification/Metrics.v ===== *)
(** * Node counters and their two presentations
      ([thoth-mesh-node/src/metrics.rs])

    Every counter is an [AtomicU64], so it wraps. [summary] computes all of
    them once; [render_prometheus] is its text, which [scrape] reads back. *)

From S2P Require Import Prelude.
From S2P Require Import Text.
From S2P Require Import Runtime.
From S2P Require Import Message.
From S2P Require Import Membership.
From S2P Require Import PeerDirectory.
From S2P Require Import RateLimit.
From S2P Require Import MessageStore.
From S2P Require Import Broker.

Record Metrics := MkMetrics {
  forwarder_lag : Z;
  topic_acl_rejections : Z;
  metrics_auth_rejections : Z;
  peer_topic_acl_rejections : Z;
  replayed_messages : Z;
  lag_recovered : Z;
  redelivered_messages : Z;
  delivery_ack_timeouts : Z;
  expired_messages : Z;
  dead_lettered_messages : Z;
  publish_rate_limit_rejections : Z;
}.

Definition new : Metrics := MkMetrics 0 0 0 0 0 0 0 0 0 0 0.

Definition record_forwarder_lag (count : Z) (m : Metrics) : Metrics :=
  MkMetrics (fetch_add count (forwarder_lag m)) (topic_acl_rejections m) (metrics_auth_rejections m)
    (peer_topic_acl_rejections m) (replayed_messages m) (lag_recovered m) (redelivered_messages m)
    (delivery_ack_timeouts m) (expired_messages m) (dead_lettered_messages m)
    (publish_rate_limit_rejections m).
Definition record_topic_acl_rejection (m : Metrics) : Metrics :=
  MkMetrics (forwarder_lag m) (fetch_add 1 (topic_acl_rejections m)) (metrics_auth_rejections m)
    (peer_topic_acl_rejections m) (replayed_messages m) (lag_recovered m) (redelivered_messages m)
    (delivery_ack_timeouts m) (expired_messages m) (dead_lettered_messages m)
    (publish_rate_limit_rejections m).
Definition record_metrics_auth_rejection (m : Metrics) : Metrics :=
  MkMetrics (forwarder_lag m) (topic_acl_rejections m) (fetch_add 1 (metrics_auth_rejections m))
    (peer_topic_acl_rejections m) (replayed_messages m) (lag_recovered m) (redelivered_messages m)
    (delivery_ack_timeouts m) (expired_messages m) (dead_lettered_messages m)
    (publish_rate_limit_rejections m).
Definition record_peer_topic_acl_rejection (m : Metrics) : Metrics :=
  MkMetrics (forwarder_lag m) (topic_acl_rejections m) (metrics_auth_rejections m)
    (fetch_add 1 (peer_topic_acl_rejections m)) (replayed_messages m) (lag_recovered m)
    (redelivered_messages m) (delivery_ack_timeouts m) (expired_messages m)
    (dead_lettered_messages m) (publish_rate_limit_rejections m).
Definition record_replayed_messages (count : Z) (m : Metrics) : Metrics :=
  MkMetrics (forwarder_lag m) (topic_acl_rejections m) (metrics_auth_rejections m)
    (peer_topic_acl_rejections m) (fetch_add count (replayed_messages m)) (lag_recovered m)
    (redelivered_messages m) (delivery_ack_timeouts m) (expired_messages m)
    (dead_lettered_messages m) (publish_rate_limit_rejections m).
Definition record_lag_recovered (count : Z) (m : Metrics) : Metrics :=
  MkMetrics (forwarder_lag m) (topic_acl_rejections m) (metrics_auth_rejections m)
    (peer_topic_acl_rejections m) (replayed_messages m) (fetch_add count (lag_recovered m))
    (redelivered_messages m) (delivery_ack_timeouts m) (expired_messages m)
    (dead_lettered_messages m) (publish_rate_limit_rejections m).
Definition record_redelivered_messages (count : Z) (m : Metrics) : Metrics :=
  MkMetrics (forwarder_lag m) (topic_acl_rejections m) (metrics_auth_rejections m)
    (peer_topic_acl_rejections m) (replayed_messages m) (lag_recovered m)
    (fetch_add count (redelivered_messages m)) (delivery_ack_timeouts m) (expired_messages m)
    (dead_lettered_messages m) (publish_rate_limit_rejections m).
Definition record_delivery_ack_timeouts (count : Z) (m : Metrics) : Metrics :=
  MkMetrics (forwarder_lag m) (topic_acl_rejections m) (metrics_auth_rejections m)
    (peer_topic_acl_rejections m) (replayed_messages m) (lag_recovered m) (redelivered_messages m)
    (fetch_add count (delivery_ack_timeouts m)) (expired_messages m) (dead_lettered_messages m)
    (publish_rate_limit_rejections m).
Definition record_expired_messages (count : Z) (m : Metrics) : Metrics :=
  MkMetrics (forwarder_lag m) (topic_acl_rejections m) (metrics_auth_rejections m)
    (peer_topic_acl_rejections m) (replayed_messages m) (lag_recovered m) (redelivered_messages m)
    (delivery_ack_timeouts m) (fetch_add count (expired_messages m)) (dead_lettered_messages m)
    (publish_rate_limit_rejections m).
Definition record_dead_lettered_messages (count : Z) (m : Metrics) : Metrics :=
  MkMetrics (forwarder_lag m) (topic_acl_rejections m) (metrics_auth_rejections m)
    (peer_topic_acl_rejections m) (replayed_messages m) (lag_recovered m) (redelivered_messages m)
    (delivery_ack_timeouts m) (expired_messages m) (fetch_add count (dead_lettered_messages m))
    (publish_rate_limit_rejections m).
Definition record_publish_rate_limit_rejection (m : Metrics) : Metrics :=
  MkMetrics (forwarder_lag m) (topic_acl_rejections m) (metrics_auth_rejections m)
    (peer_topic_acl_rejections m) (replayed_messages m) (lag_recovered m) (redelivered_messages m)
    (delivery_ack_timeouts m) (expired_messages m) (dead_lettered_messages m)
    (fetch_add 1 (publish_rate_limit_rejections m)).

(** [{}] of a [u64]: its decimal digits, at most 20 of them. *)
Fixpoint digits (fuel : nat) (n : Z) : rstr :=
  match fuel with
  | O => []
  | S fuel' => (if (n <? 10)%Z then [] else digits fuel' (n / 10)) ++ [(48 + n `mod` 10)%Z]
  end.
Definition display_u64 (n : Z) : rstr := digits 20 n.

(** The names and types of the format string, with the field each prints. *)
Definition exposition (s : MetricsSummary) : list (rstr * rstr * Z) :=
  [(lit "thothmesh_peers_connected", lit "gauge", peers_connected s);
   (lit "thothmesh_messages_published_total", lit "counter", Message.messages_published s);
   (lit "thothmesh_forwarder_lag_total", lit "counter", forwarder_lag_total s);
   (lit "thothmesh_topic_acl_rejections_total", lit "counter", topic_acl_rejections_total s);
   (lit "thothmesh_metrics_auth_rejections_total", lit "counter", metrics_auth_rejections_total s);
   (lit "thothmesh_peer_topic_acl_rejections_total", lit "counter", peer_topic_acl_rejections_total s);
   (lit "thothmesh_replayed_messages_total", lit "counter", replayed_messages_total s);
   (lit "thothmesh_lag_recovered_total", lit "counter", lag_recovered_total s);
   (lit "thothmesh_topic_evictions_total", lit "counter", topic_evictions_total s);
   (lit "thothmesh_pattern_evictions_total", lit "counter", pattern_evictions_total s);
   (lit "thothmesh_membership_evictions_total", lit "counter", membership_evictions_total s);
   (lit "thothmesh_peer_directory_evictions_total", lit "counter", peer_directory_evictions_total s);
   (lit "thothmesh_redelivered_messages_total", lit "counter", redelivered_messages_total s);
   (lit "thothmesh_delivery_ack_timeouts_total", lit "counter", delivery_ack_timeouts_total s);
   (lit "thothmesh_persist_failures_total", lit "counter", persist_failures_total s);
   (lit "thothmesh_expired_messages_total", lit "counter", expired_messages_total s);
   (lit "thothmesh_dead_lettered_messages_total", lit "counter", dead_lettered_messages_total s);
   (lit "thothmesh_publish_rate_limit_rejections_total", lit "counter", publish_rate_limit_rejections_total s);
   (lit "thothmesh_rate_limit_principal_evictions_total", lit "counter", rate_limit_principal_evictions_total s)].

Definition newline : rchar := 10.

Definition render_line (x : rstr * rstr * Z) : rstr :=
  lit "# TYPE " ++ x.1.1 ++ lit " " ++ x.1.2 ++ [newline] ++ x.1.1 ++ lit " " ++ display_u64 x.2 ++ [newline].

Section summary.
Context `{Broadcast Envelope} `{Mpsc Envelope} `{MessageStore}.

Definition summary (membership : Membership) (broker : Broker) (discover : PeerDirectory) (metrics : Metrics)
    (rate_limiter : option RateLimiter) : MetricsSummary := {|
  peers_connected := Z.of_nat (connected_count membership) `mod` 2 ^ 64;
  Message.messages_published := Broker.messages_published broker;
  forwarder_lag_total := forwarder_lag metrics;
  topic_acl_rejections_total := topic_acl_rejections metrics;
  metrics_auth_rejections_total := metrics_auth_rejections metrics;
  peer_topic_acl_rejections_total := peer_topic_acl_rejections metrics;
  replayed_messages_total := replayed_messages metrics;
  lag_recovered_total := lag_recovered metrics;
  topic_evictions_total := Broker.topic_evictions broker;
  pattern_evictions_total := Broker.pattern_evictions broker;
  membership_evictions_total := disconnected_evictions membership;
  peer_directory_evictions_total := PeerDirectory.evictions discover;
  redelivered_messages_total := redelivered_messages metrics;
  delivery_ack_timeouts_total := delivery_ack_timeouts metrics;
  persist_failures_total := Broker.persist_failures broker;
  expired_messages_total := expired_messages metrics;
  dead_lettered_messages_total := dead_lettered_messages metrics;
  publish_rate_limit_rejections_total := publish_rate_limit_rejections metrics;
  rate_limit_principal_evictions_total :=
    match rate_limiter with Some limiter => principal_evictions limiter | None => 0%Z end;
|}.

Definition render_prometheus (membership : Membership) (broker : Broker) (discover : PeerDirectory)
    (metrics : Metrics) (rate_limiter : option RateLimiter) : rstr :=
  concat (render_line <$> exposition (summary membership broker discover metrics rate_limiter)).
End summary.

(** ** Reading an exposition back *)

Definition undisplay (s : rstr) : Z := fold_left (λ acc c, (acc * 10 + (c - 48))%Z) s 0%Z.

(** The value on the line of metric [name], if there is one. *)
Fixpoint find_metric (name : rstr) (ls : list rstr) : option Z :=
  match ls with
  | [] => None
  | l :: ls' =>
      match split_on 32 l with
      | [n; v] => if decide (n = name) then Some (undisplay v) else find_metric name ls'
      | _ => find_metric name ls'
      end
  end.
Definition scrape (name : rstr) (text : rstr) : option Z := find_metric name (split_on newline text).

(** ** Lemmas *)

Lemma digits_undisplay fuel n :
  (0 ≤ n < 10 ^ Z.of_nat fuel)%Z → undisplay (digits fuel n) = n.
Proof.
  revert n; induction fuel as [|fuel IH]; intros n Hn; cbn [digits].
  { simpl in Hn. replace n with 0%Z by lia. done. }
  unfold undisplay. rewrite fold_left_app. fold (undisplay (if (n <? 10)%Z then [] else digits fuel (n / 10))).
  cbn [fold_left]. rewrite Nat2Z.inj_succ, Z.pow_succ_r in Hn by lia.
  destruct (Z.ltb_spec n 10).
  - rewrite Z.mod_small by lia. cbn. lia.
  - rewrite IH.
    + rewrite (Z.div_mod n 10) at 3 by lia. lia.
    + split; [apply Z.div_pos; lia|]. apply Z.div_lt_upper_bound; lia.
Qed.

Lemma digits_chars fuel n c : (0 ≤ n)%Z → c ∈ digits fuel n → is_ascii_digit c = true.
Proof.
  revert n; induction fuel as [|fuel IH]; intros n Hn; cbn [digits]; [by intros ?%not_elem_of_nil|].
  rewrite elem_of_app, list_elem_of_singleton. intros [Hc| ->].
  - destruct (n <? 10)%Z; [by apply not_elem_of_nil in Hc|]. apply (IH (n / 10)%Z); [apply Z.div_pos; lia|done].
  - pose proof (Z.mod_pos_bound n 10 ltac:(lia)). unfold is_ascii_digit, in_range. to_prop. lia.
Qed.

(** A word of the exposition: no space, no line break. *)
Definition word (s : rstr) : Prop := 32%Z ∉ s ∧ newline ∉ s.

#[export] Instance word_dec s : Decision (word s).
Proof. unfold word. apply _. Defined.

Lemma digits_word fuel n : (0 ≤ n)%Z → word (digits fuel n).
Proof. intros Hn. split; intros Hc; by apply (digits_chars fuel n) in Hc. Qed.

Definition type_line (x : rstr * rstr * Z) : rstr := lit "# TYPE " ++ x.1.1 ++ lit " " ++ x.1.2.
Definition value_line (x : rstr * rstr * Z) : rstr := x.1.1 ++ lit " " ++ display_u64 x.2.

(** The metrics a scraper can tell apart: single-word names and types, values
    of 64 bits. *)
Definition well_formed (x : rstr * rstr * Z) : Prop :=
  word x.1.1 ∧ word x.1.2 ∧ (0 ≤ x.2 < 2 ^ 64)%Z.

Lemma render_line_eq x rest :
  render_line x ++ rest = type_line x ++ newline :: value_line x ++ newline :: rest.
Proof. unfold render_line, type_line, value_line. by rewrite <-!app_assoc. Qed.

Lemma render_split l :
  Forall well_formed l →
  split_on newline (concat (render_line <$> l)) = (l ≫= λ x, [type_line x; value_line x]) ++ [[]].
Proof.
  induction 1 as [|x l (Hn & Ht & Hv) _ IH]; [done|]. rewrite fmap_cons, bind_cons. cbn [concat].
  rewrite render_line_eq.
  pose proof (digits_word 20 x.2 (proj1 Hv)) as [Hd1 Hd2].
  rewrite split_on_app, split_on_app, IH; [done|..]; unfold type_line, value_line, display_u64;
    rewrite !not_elem_of_app.
  - split_and!; [apply Hn| |done]. by intros ?%list_elem_of_singleton.
  - split_and!; [|apply Hn| |apply Ht]; by apply (proj1 (bool_decide_eq_false _)).
Qed.

Lemma find_metric_spec l name ty v rest :
  Forall well_formed l → NoDup (l.*1).*1 → (name, ty, v) ∈ l →
  find_metric name ((l ≫= λ x, [type_line x; value_line x]) ++ rest) = Some v.
Proof.
  intros Hl Hnd Hin. revert Hnd Hin; induction Hl as [|[[n t] w] l ((Hn & _) & (Ht & _) & Hw) _ IH];
    intros Hnd Hin; [by apply not_elem_of_nil in Hin|].
  rewrite !fmap_cons in Hnd. apply NoDup_cons in Hnd as [Hfresh Hnd]. cbn [fst snd] in *.
  rewrite bind_cons. cbn [app find_metric].
  assert (split_on 32 (type_line (n, t, w)) = [lit "#"; lit "TYPE"; n; t]) as ->.
  { unfold type_line. simpl fst. simpl snd.
    change (split_on 32 (lit "#" ++ 32%Z :: lit "TYPE" ++ 32%Z :: n ++ 32%Z :: t) = [lit "#"; lit "TYPE"; n; t]).
    rewrite !split_on_app, split_on_single; try done; by apply (proj1 (bool_decide_eq_false _)). }
  assert (split_on 32 (value_line (n, t, w)) = [n; display_u64 w]) as ->.
  { unfold value_line. simpl fst. simpl snd. change (split_on 32 (n ++ 32%Z :: display_u64 w) = [n; display_u64 w]).
    rewrite split_on_app, split_on_single; [done| |done]. apply digits_word. lia. }
  apply elem_of_cons in Hin as [[= -> -> ->]|Hin].
  - rewrite decide_True by done. f_equal. apply digits_undisplay. split; [lia|].
    etrans; [apply Hw|]. by vm_compute.
  - rewrite decide_False; [by apply IH|]. intros ->. apply Hfresh.
    apply (list_elem_of_fmap_2 fst _ _ (list_elem_of_fmap_2 fst _ _ Hin)).
Qed.

Lemma exposition_names_distinct s : NoDup ((exposition s).*1).*1.
Proof. apply (bool_decide_unpack _). by vm_compute. Qed.

Lemma exposition_words s x : x ∈ exposition s → word x.1.1 ∧ word x.1.2.
Proof.
  intros Hx.
  assert (Forall (λ n, word n) (exposition s).*1.*1) as Hn by (apply (bool_decide_unpack _); by vm_compute).
  assert (Forall (λ n, word n) (exposition s).*1.*2) as Ht by (apply (bool_decide_unpack _); by vm_compute).
  rewrite Forall_forall in Hn, Ht. apply conj; [apply Hn|apply Ht]; by do 2 apply list_elem_of_fmap_2.
Qed.

(** The values a scraper must read, in terms of the counters themselves. *)
Definition counters `{Broadcast Envelope} `{Mpsc Envelope} `{MessageStore}
    (mb : Membership) (b : Broker) (d : PeerDirectory) (m : Metrics) (rl : option RateLimiter) : list (rstr * Z) :=
  [(lit "thothmesh_peers_connected", (Z.of_nat (connected_count mb) `mod` 2 ^ 64)%Z);
   (lit "thothmesh_messages_published_total", Broker.messages_published b);
   (lit "thothmesh_forwarder_lag_total", forwarder_lag m);
   (lit "thothmesh_topic_acl_rejections_total", topic_acl_rejections m);
   (lit "thothmesh_metrics_auth_rejections_total", metrics_auth_rejections m);
   (lit "thothmesh_peer_topic_acl_rejections_total", peer_topic_acl_rejections m);
   (lit "thothmesh_replayed_messages_total", replayed_messages m);
   (lit "thothmesh_lag_recovered_total", lag_recovered m);
   (lit "thothmesh_topic_evictions_total", Broker.topic_evictions b);
   (lit "thothmesh_pattern_evictions_total", Broker.pattern_evictions b);
   (lit "thothmesh_membership_evictions_total", disconnected_evictions mb);
   (lit "thothmesh_peer_directory_evictions_total", PeerDirectory.evictions d);
   (lit "thothmesh_redelivered_messages_total", redelivered_messages m);
   (lit "thothmesh_delivery_ack_timeouts_total", delivery_ack_timeouts m);
   (lit "thothmesh_persist_failures_total", Broker.persist_failures b);
   (lit "thothmesh_expired_messages_total", expired_messages m);
   (lit "thothmesh_dead_lettered_messages_total", dead_lettered_messages m);
   (lit "thothmesh_publish_rate_limit_rejections_total", publish_rate_limit_rejections m);
   (lit "thothmesh_rate_limit_principal_evictions_total", from_option principal_evictions 0%Z rl)].

(** What a scraper reads off the rendered Prometheus text under
    each of the 19 metric names is the component's own counter of that name -
    none lost, none under another's name - whatever 64-bit values they hold. *)
Theorem prometheus_text_is_the_counters `{Broadcast Envelope} `{Mpsc Envelope} `{MessageStore}
    (mb : Membership) (b : Broker) (d : PeerDirectory) (m : Metrics) (rl : option RateLimiter) :
  Forall (λ x, 0 ≤ x.2 < 2 ^ 64)%Z (counters mb b d m rl) →
  Forall (λ x, scrape x.1 (render_prometheus mb b d m rl) = Some x.2) (counters mb b d m rl).
Proof.
  set (s := summary mb b d m rl). intros Hs.
  assert (counters mb b d m rl = (λ x, (x.1.1, x.2)) <$> exposition s) as Heq by (by destruct rl).
  rewrite Heq in *. clear Heq. apply Forall_fmap. rewrite Forall_fmap in Hs.
  apply Forall_forall. intros [[name ty] v] Hin. simpl. unfold render_prometheus, scrape. fold s.
  assert (Forall well_formed (exposition s)) as Hwf.
  { rewrite Forall_forall in *. intros x Hx. destruct (exposition_words s x Hx).
    apply conj; [done|]. apply conj; [done|]. by apply Hs. }
  rewrite render_split by done.
  apply (find_metric_spec _ _ ty); auto using exposition_names_distinct.
Qed.

Lemma prometheus_text_is_the_counters_witness :
  let _ := Reference.ref_broadcast Envelope in let _ := Reference.ref_mpsc Envelope in
  let _ := ReferenceStore.ref_store in
  let m := record_dead_lettered_messages 7 (record_forwarder_lag 12 new) in
  Forall (λ x, scrape x.1 (render_prometheus (Membership.new) (Broker.new) PeerDirectory.new m None) = Some x.2)
    (counters (Membership.new) (Broker.new) PeerDirectory.new m None).
Proof. intros. apply prometheus_text_is_the_counters. repeat constructor; by vm_compute. Defined.
