(* ===== verification/DeadLetter.v ===== *)
(** * Dead-lettering and the two background sweeps that use it
      ([thoth-mesh-node/src/dead_letter.rs], [work_queue.rs], [ttl.rs])

    [Hub] is what the node's tasks share of the broker: the broker itself, the
    outgoing channels its groups send to, the identifiers the process has drawn
    and the counters. Every function here is one step of a task on it; [now] is
    the reading of the monotonic clock, [wall] that of the system clock. *)

From S2P Require Import Prelude.
From S2P Require Import Text.
From S2P Require Import Topic.
From S2P Require Import Filter.
From S2P Require Import Runtime.
From S2P Require Import Message.
From S2P Require Import SeenIds.
From S2P Require Import TopicChannel.
From S2P Require Import TopicMap.
From S2P Require Import Groups.
From S2P Require Import MessageStore.
From S2P Require Import Broker.
From S2P Require Import BrokerSpec.
From S2P Require Import Metrics.

Record DeadLetterConfig := MkDeadLetterConfig {
  config_node_id : PeerId;
  config_topic : option Topic;
}.

Section hub.
Context `{Broadcast Envelope} `{Mpsc Envelope} `{MessageStore} `{Uuids}.

Record Hub := MkHub {
  h_broker : Broker;
  h_chans : mpsc_store Envelope;
  h_ids : nat;
  h_metrics : Metrics;
}.

(** [Envelope::new], which draws the next identifier of the process. *)
Definition fresh_envelope (sender : PeerId) (kind : MessageKind) : ST Hub Envelope := λ h,
  (Envelope.new (h_ids h) sender kind, MkHub (h_broker h) (h_chans h) (S (h_ids h)) (h_metrics h)).

(** [broker.publish], in the hub. *)
Definition hub_publish (topic : Topic) (e : Envelope) (now : Z) : ST Hub nat := λ h,
  let '(n, (b, chans)) := publish topic e now (h_broker h, h_chans h) in
  (n, MkHub b chans (h_ids h) (h_metrics h)).

Definition count (f : Metrics → Metrics) : ST Hub () := λ h,
  ((), MkHub (h_broker h) (h_chans h) (h_ids h) (f (h_metrics h))).

(** [format!("{dead_letter_topic}.{topic}")] *)
Definition destination (dead_letter_topic topic : Topic) : rstr :=
  Topic.as_str dead_letter_topic ++ lit "." ++ Topic.as_str topic.

Definition dead_letter (config : DeadLetterConfig) (original : Envelope) (now : Z) : ST Hub bool :=
  match config_topic config with
  | None => mret false
  | Some dead_letter_topic =>
      match kind original with
      | Publish topic payload _ content_type _ _ =>
          match Topic.from_str (destination dead_letter_topic topic) with
          | Ok dest =>
              e ← fresh_envelope (config_node_id config) (Publish dest payload false content_type None None);
              _ ← hub_publish dest e now;
              mret true
          | Err _ => mret false
          end
      | _ => mret false
      end
  end.

(** [for envelope in … { if dead_letter(…) { dead_lettered += 1 } }] *)
Fixpoint dead_letter_each (config : DeadLetterConfig) (l : list Envelope) (now : Z) (dead_lettered : Z) : ST Hub Z :=
  match l with
  | [] => mret dead_lettered
  | e :: l' =>
      done ← dead_letter config e now;
      dead_letter_each config l' now (if done : bool then (dead_lettered + 1)%Z else dead_lettered)
  end.

Definition dead_letter_all (config : DeadLetterConfig) (l : list Envelope) (now : Z) : ST Hub () :=
  dead_lettered ← dead_letter_each config l now 0;
  if (0 <? dead_lettered)%Z then count (record_dead_lettered_messages dead_lettered) else mret ().

End hub.

(** ** [work_queue::sweep_once] *)

Module WorkQueue.
Section sweep.
Context `{Broadcast Envelope} `{Mpsc Envelope} `{MessageStore} `{Uuids}.

Definition sweep_once (config : DeadLetterConfig) (now ack_timeout : Z) (max_redelivery_attempts : nat) :
    ST Hub () := λ h,
  let '(given_up_on, (b, chans)) :=
    sweep_group_leases now ack_timeout max_redelivery_attempts (h_broker h, h_chans h) in
  let h1 := MkHub b chans (h_ids h) (h_metrics h) in
  match given_up_on with
  | [] => ((), h1)
  | _ =>
      (_ ← count (record_delivery_ack_timeouts (Z.of_nat (length given_up_on)));
       dead_letter_all config given_up_on now) h1
  end.
End sweep.
End WorkQueue.

(** ** [ttl::sweep_once]

    The store of the sweep is the broker's own. [wall] and [ttl] are in
    nanoseconds, [wall] since the Unix epoch. A [SystemTime] holds its seconds
    in an [i64], so [checked_sub] fails below that only; an instant before the
    epoch is a [duration_since] error, whose default is zero. *)
Module Ttl.
Section sweep.
Context `{Broadcast Envelope} `{Mpsc Envelope} `{MessageStore} `{Uuids}.

Definition SWEEP_INTERVAL : Z := 60 * 10 ^ 9.

Definition checked_sub (wall ttl : Z) : option Z :=
  if (wall - ttl <? - 2 ^ 63 * 10 ^ 9)%Z then None else Some (wall - ttl)%Z.
(** [as i64], of a [u128]. *)
Definition as_i64 (n : Z) : Z := ((n + 2 ^ 63) `mod` 2 ^ 64 - 2 ^ 63)%Z.
Definition cutoff_ts (wall ttl : Z) : option Z :=
  (λ cutoff, as_i64 (Z.max 0 cutoff / 10 ^ 6)) <$> checked_sub wall ttl.

Definition sweep_once (config : DeadLetterConfig) (wall ttl now : Z) : ST Hub () := λ h,
  match cutoff_ts wall ttl, b_store (h_broker h) with
  | Some cutoff, Some store =>
      match expire_before cutoff store with
      | (Err _, store') =>
          ((), MkHub (set_store store' (h_broker h)) (h_chans h) (h_ids h) (h_metrics h))
      | (Ok expired, store') =>
          let h1 := MkHub (set_store store' (h_broker h)) (h_chans h) (h_ids h) (h_metrics h) in
          match expired with
          | [] => ((), h1)
          | _ =>
              (_ ← count (record_expired_messages (Z.of_nat (length expired)));
               dead_letter_all config expired now) h1
          end
      end
  | _, _ => ((), h)
  end.
End sweep.
End Ttl.

(** ** What a dead-lettered message becomes *)

Section copies.
Context `{Broadcast Envelope} `{Mpsc Envelope} `{MessageStore} `{Uuids}.

(** The topic and envelope [dead_letter] publishes for [original] when the next
    identifier is the [n]-th, if it publishes any. *)
Definition copy (config : DeadLetterConfig) (n : nat) (original : Envelope) : option (Topic * Envelope) :=
  match config_topic config, kind original with
  | Some dl, Publish topic payload _ content_type _ _ =>
      match Topic.from_str (destination dl topic) with
      | Ok dest =>
          Some (dest, Envelope.new n (config_node_id config) (Publish dest payload false content_type None None))
      | Err _ => None
      end
  | _, _ => None
  end.

Fixpoint copies (config : DeadLetterConfig) (n : nat) (l : list Envelope) : list (Topic * Envelope) :=
  match l with
  | [] => []
  | e :: l' =>
      match copy config n e with
      | Some c => c :: copies config (S n) l'
      | None => copies config n l'
      end
  end.

(** What a subscription to [f] receives of them. *)
Definition received (f : TopicFilter) (l : list (Topic * Envelope)) : list Envelope :=
  l ≫= λ c, gives c.1 c.2 f.

(** The store with them appended. *)
Definition appended (l : list (Topic * Envelope)) (st : store_state) : store_state := foldl (λ st c, (append c.2 st).2) st l.

Lemma dead_letter_copy config e now h :
  dead_letter config e now h
  = match copy config (h_ids h) e with
    | Some (dest, c) =>
        (true, (hub_publish dest c now (MkHub (h_broker h) (h_chans h) (S (h_ids h)) (h_metrics h))).2)
    | None => (false, h)
    end.
Proof.
  unfold dead_letter, copy. destruct (config_topic config) as [dl|]; [|done].
  destruct (kind e); try done. destruct (Topic.from_str (destination dl topic)) as [dest|]; [|done].
  unfold mbind, ST_bind, fresh_envelope. cbn [fst snd].
  by destruct (hub_publish dest _ now _) as [k h'].
Qed.

Lemma hub_publish_fields t e now h :
  h_ids (hub_publish t e now h).2 = h_ids h ∧ h_metrics (hub_publish t e now h).2 = h_metrics h
  ∧ h_broker (hub_publish t e now h).2 = (publish t e now (h_broker h, h_chans h)).2.1.
Proof. unfold hub_publish. by destruct (publish t e now (h_broker h, h_chans h)) as [n [b c]]. Qed.

Context `{!BroadcastLaws Envelope} `{!UuidLaws}.

(** The identifiers the process has not drawn yet are new to the broker. *)
Definition unseen (h : Hub) : Prop :=
  ∀ n, h_ids h ≤ n → (Z.of_nat n < 2 ^ 48)%Z → MessageId.new n ∉ SeenIds.order (b_seen (h_broker h)).

Lemma hub_publish_effect t e now h n :
  BrokerSpec.wf (h_broker h) → unseen h → id e = MessageId.new n → h_ids h ≤ n → (Z.of_nat n < 2 ^ 48)%Z →
  let h' := (hub_publish t e now h).2 in
  effect (gives t e) (h_broker h) (h_broker h')
  ∧ b_store (h_broker h') = (λ st, (append e st).2) <$> b_store (h_broker h)
  ∧ ∀ m, h_ids h ≤ m → n ≠ m → (Z.of_nat m < 2 ^ 48)%Z →
      MessageId.new m ∉ SeenIds.order (b_seen (h_broker h')).
Proof.
  intros Hwf Hun Hid Hn Hb h'. destruct (hub_publish_fields t e now h) as (_ & _ & Hbr). fold h' in Hbr.
  assert (is_new (h_broker h) e = true) as Hnew.
  { unfold is_new. rewrite Hid, bool_decide_eq_false_2; [done|]. by apply Hun. }
  split; [|split].
  - rewrite Hbr. eapply effect_ext; [|by apply publish_effect]. intros f. by rewrite Hnew.
  - rewrite Hbr. by apply publish_store.
  - intros m Hm Hne Hmb. rewrite Hbr, publish_seen by done.
    destruct Hwf as (_ & _ & _ & Hseen & _). destruct (record_order (id e) _ Hseen) as [-> _].
    assert (MessageId.new m ∉ SeenIds.order (b_seen (h_broker h)) ++ [id e]) as Hnin.
    { rewrite not_elem_of_app, list_elem_of_singleton, Hid. split; [by apply Hun|]. intros Heq.
      assert (n < m ∨ m < n) as [Hlt|Hlt] by lia; apply new_ltb in Hlt; try done;
        rewrite Heq in Hlt; unfold MessageId.ltb in Hlt; lia. }
    destruct (decide _); [by apply Hun|]. by intros ?%elem_of_window.
Qed.

Lemma dead_letter_effect config e now h :
  BrokerSpec.wf (h_broker h) → unseen h → (Z.of_nat (h_ids h) < 2 ^ 48)%Z →
  let '(done, h') := dead_letter config e now h in
  done = bool_decide (is_Some (copy config (h_ids h) e))
  ∧ effect (λ f, received f (option_list (copy config (h_ids h) e))) (h_broker h) (h_broker h')
  ∧ h_ids h' = length (option_list (copy config (h_ids h) e)) + h_ids h ∧ unseen h'
  ∧ h_metrics h' = h_metrics h
  ∧ b_store (h_broker h') = appended (option_list (copy config (h_ids h) e)) <$> b_store (h_broker h).
Proof.
  intros Hwf Hun Hb. rewrite dead_letter_copy. destruct (copy config (h_ids h) e) as [[dest c]|] eqn:Hc.
  - set (h1 := MkHub _ _ _ _).
    assert (id c = MessageId.new (h_ids h)) as Hid.
    { unfold copy in Hc. destruct (config_topic config), (kind e); try done.
      destruct (Topic.from_str _); [|done]. by injection Hc as <- <-. }
    destruct (hub_publish_effect dest c now h (h_ids h) Hwf Hun Hid) as (He & Hst & Hs); [lia|done|].
    destruct (hub_publish_fields dest c now h) as (_ & _ & Hbr).
    destruct (hub_publish_fields dest c now h1) as (Hi & Hm & Hbr1).
    change (publish dest c now (h_broker h1, h_chans h1)) with (publish dest c now (h_broker h, h_chans h)) in Hbr1.
    rewrite <-Hbr in Hbr1. cbn [snd].
    split; [by rewrite bool_decide_eq_true_2|]. split; [|split; [done|split; [|split; [done|by rewrite Hbr1]]]].
    + rewrite Hbr1. eapply effect_ext; [|done]. intros f. unfold received. simpl. by rewrite app_nil_r.
    + intros n Hn Hnb. rewrite Hi in Hn. simpl in Hn. rewrite Hbr1. apply Hs; [lia|lia|done].
  - split; [by rewrite bool_decide_eq_false_2 by apply is_Some_None|]. split; [by apply keeps_refl|].
    do 3 (split; [done|]). by destruct (b_store (h_broker h)).
Qed.

Lemma dead_letter_each_effect config l now k h :
  BrokerSpec.wf (h_broker h) → unseen h → (Z.of_nat (h_ids h + length l) < 2 ^ 48)%Z →
  let '(n, h') := dead_letter_each config l now k h in
  let cs := copies config (h_ids h) l in
  n = (k + Z.of_nat (length cs))%Z
  ∧ effect (λ f, received f cs) (h_broker h) (h_broker h')
  ∧ h_ids h' = length cs + h_ids h ∧ h_metrics h' = h_metrics h
  ∧ b_store (h_broker h') = appended cs <$> b_store (h_broker h).
Proof.
  revert k h; induction l as [|e l IH]; intros k h Hwf Hun Hb; cbn [dead_letter_each copies].
  { split; [simpl; lia|]. split; [by apply keeps_refl|]. do 2 (split; [done|]). by destruct (b_store (h_broker h)). }
  unfold mbind, ST_bind. simpl length in Hb.
  pose proof (dead_letter_effect config e now h Hwf Hun) as Hd.
  destruct (dead_letter config e now h) as [ok h1]. destruct Hd as (-> & He & Hi & Hun1 & Hm & Hst); [lia|].
  assert (h_ids h1 ≤ S (h_ids h)) by (rewrite Hi; destruct (copy config (h_ids h) e); simpl; lia).
  specialize (IH (if bool_decide (is_Some (copy config (h_ids h) e)) then (k + 1)%Z else k) h1 (proj1 He) Hun1).
  destruct (dead_letter_each config l now _ h1) as [n h']. destruct IH as (-> & He1 & Hi1 & Hm1 & Hst1); [lia|]. rewrite Hst, <-option_fmap_compose in Hst1.
  destruct (copy config (h_ids h) e) as [c|]; simpl in *; rewrite Hi in *.
  - split; [lia|]. split; [|split; [lia|split; [congruence|done]]].
    eapply effect_ext; [|by eapply effect_trans]. intros f. unfold received. simpl. by rewrite app_nil_r.
  - split; [lia|]. split; [|split; [lia|split; [congruence|done]]]. by eapply keeps_effect.
Qed.

Lemma dead_letter_all_effect config l now h :
  BrokerSpec.wf (h_broker h) → unseen h → (Z.of_nat (h_ids h + length l) < 2 ^ 48)%Z →
  let h' := (dead_letter_all config l now h).2 in
  let cs := copies config (h_ids h) l in
  effect (λ f, received f cs) (h_broker h) (h_broker h')
  ∧ h_metrics h' = (if decide (cs = []) then h_metrics h
      else record_dead_lettered_messages (Z.of_nat (length cs)) (h_metrics h))
  ∧ b_store (h_broker h') = appended cs <$> b_store (h_broker h).
Proof.
  intros Hwf Hun Hb. unfold dead_letter_all, mbind, ST_bind.
  pose proof (dead_letter_each_effect config l now 0 h Hwf Hun Hb) as Hd.
  destruct (dead_letter_each config l now 0 h) as [n h1]. destruct Hd as (-> & He & _ & Hm & Hst). simpl.
  destruct (decide (copies config (h_ids h) l = [])) as [Hnil|Hne].
  - rewrite Hnil in *. simpl. by rewrite Hm.
  - destruct (copies config (h_ids h) l) as [|c cs]; [done|]. rewrite (proj2 (Z.ltb_lt _ _)) by (simpl; lia).
    simpl. by rewrite Hm.
Qed.

(** C27: one sweep of the work-queue leases reports every delivery
    the broker gives up on. Each subscription receives, in that order, the copy
    of each whose dead-letter topic it matches - a [Publish] on
    [<dead-letter topic>.<topic>] from this node with a fresh identifier, the
    payload and the content type of the original, not retained - and nothing
    else; the two counters grow by the deliveries given up on and by the copies
    published, so what is not republished (no dead-letter topic, or one too
    long) is still counted. *)
Theorem work_queue_sweep_dead_letters (config : DeadLetterConfig) (now timeout : Z) (max_attempts : nat)
    (h : Hub) (f : TopicFilter) (r : Receiver) (q : list Envelope) :
  let gone := (sweep_group_leases now timeout max_attempts (h_broker h, h_chans h)).1 in
  let cs := copies config (h_ids h) gone in
  let h' := (WorkQueue.sweep_once config now timeout max_attempts h).2 in
  BrokerSpec.wf (h_broker h) → unseen h → (Z.of_nat (h_ids h + length gone) < 2 ^ 48)%Z →
  sub_arc (h_broker h) f = Some r.1 → queue (h_broker h) r = Some q →
  queue (h_broker h') r = Some (q ++ received f cs)
  ∧ (gone ≠ [] → delivery_ack_timeouts (h_metrics h')
       = fetch_add (Z.of_nat (length gone)) (delivery_ack_timeouts (h_metrics h)))
  ∧ (cs ≠ [] → dead_lettered_messages (h_metrics h')
       = fetch_add (Z.of_nat (length cs)) (dead_lettered_messages (h_metrics h)))
  ∧ (gone = [] → h_metrics h' = h_metrics h)
  ∧ (cs = [] → dead_lettered_messages (h_metrics h') = dead_lettered_messages (h_metrics h)).
Proof.
  intros gone cs h'. subst h' cs gone. intros Hwf Hun Hb Ha Hq.
  unfold WorkQueue.sweep_once, Broker.sweep_group_leases in *.

  destruct (Groups.sweep_group_leases now timeout max_attempts (b_groups (h_broker h)) (h_chans h)) as [[gone g] chans].
  cbn [fst snd] in *. destruct (groups_keeps g (h_broker h) Hwf) as [Hwf1 Hk].
  destruct (Hk f r q Ha Hq) as [Ha1 Hq1]. rewrite app_nil_r in Hq1.
  destruct gone as [|e gone]; [simpl; by rewrite app_nil_r|].
  set (h1 := MkHub (set_groups g (h_broker h)) chans (h_ids h)
    (record_delivery_ack_timeouts (Z.of_nat (length (e :: gone))) (h_metrics h))).
  destruct (dead_letter_all_effect config (e :: gone) now h1 Hwf1 Hun Hb) as ([_ He] & Hm & _).
  change (h_ids h1) with (h_ids h) in *.
  lazymatch goal with |- context [queue (h_broker ?x) r] => change x with (dead_letter_all config (e :: gone) now h1).2 end.
  rewrite Hm. split; [by apply He|].
  destruct (decide (copies config (h_ids h) (e :: gone) = [])) as [Hnil|Hne]; done.
Qed.

(** The cutoff, in milliseconds, as long as it is one of an [i64]. *)
Lemma cutoff_in_range wall ttl :
  (wall - ttl < 2 ^ 63 * 10 ^ 6)%Z →
  Ttl.cutoff_ts wall ttl
  = if (wall - ttl <? - 2 ^ 63 * 10 ^ 9)%Z then None else Some (Z.max 0 (wall - ttl) / 10 ^ 6)%Z.
Proof.
  intros Hlt. unfold Ttl.cutoff_ts, Ttl.checked_sub. destruct (_ <? _)%Z; [done|]. cbn [fmap option_fmap option_map]. f_equal.
  unfold Ttl.as_i64. assert (0 ≤ Z.max 0 (wall - ttl) / 10 ^ 6 < 2 ^ 63)%Z as Hr.
  { split; [apply Z.div_pos; lia|]. apply Z.div_lt_upper_bound; lia. }
  rewrite Z.mod_small by lia. lia.
Qed.

(** C28: one sweep of the message TTL drops nothing silently. It asks the
    store for everything before the time-to-live ago, in whole milliseconds and
    never before the epoch. Every message of the log is then either still in it
    or among the expired ones, with positions and retained messages untouched;
    each subscription receives the dead-letter copies of the expired ones that
    match, in order, and nothing else; the broker's store is that store with
    exactly those copies appended; and the two counters grow by the expired
    messages and by the copies, and no other does. Without a store, or when the
    clock is too far off for a cutoff, nothing changes; when the store fails,
    nothing is published or counted. *)
Theorem ttl_sweep_drops_nothing_silently `{!MessageStoreLaws} (config : DeadLetterConfig) (wall ttl now : Z)
    (h : Hub) (f : TopicFilter) (r : Receiver) (q : list Envelope) :
  let h' := (Ttl.sweep_once config wall ttl now h).2 in
  BrokerSpec.wf (h_broker h) → unseen h → (∀ st, b_store (h_broker h) = Some st → store_ok st) →
  sub_arc (h_broker h) f = Some r.1 → queue (h_broker h) r = Some q → (wall - ttl < 2 ^ 63 * 10 ^ 6)%Z →
  match b_store (h_broker h) with
  | Some st =>
      if (wall - ttl <? - 2 ^ 63 * 10 ^ 9)%Z then h' = h
      else match expire_before (Z.max 0 (wall - ttl) / 10 ^ 6) st with
      | (Ok expired, st') =>
          (Z.of_nat (h_ids h + length expired) < 2 ^ 48)%Z →
          let cs := copies config (h_ids h) expired in
          (∀ e, e ∈ stored st ↔ e ∈ expired ∨ e ∈ stored st')
          ∧ position_of st' = position_of st ∧ retained_value st' = retained_value st
          ∧ queue (h_broker h') r = Some (q ++ received f cs)
          ∧ b_store (h_broker h') = Some (appended cs st')
          ∧ h_metrics h'
            = (if decide (cs = []) then λ m, m else record_dead_lettered_messages (Z.of_nat (length cs)))
                ((if decide (expired = []) then λ m, m else record_expired_messages (Z.of_nat (length expired))) (h_metrics h))
      | (Err _, st') => queue (h_broker h') r = Some q ∧ b_store (h_broker h') = Some st' ∧ h_metrics h' = h_metrics h
      end
  | None => h' = h
  end.
Proof.
  intros h'. subst h'. intros Hwf Hun Hst Ha Hq Hlt. unfold Ttl.sweep_once. rewrite (cutoff_in_range _ _ Hlt).
  destruct (b_store (h_broker h)) as [st|] eqn:Hb; [|by destruct (_ <? _)%Z]. destruct (_ <? _)%Z; [done|].
  destruct (expire_before _ st) as [[expired|x] st'] eqn:He; [|done].
  intros Hn. destruct (expire_before_ok _ st expired st' (Hst st eq_refl) He) as (Hlog & Hpos & Hret).
  do 3 (split; [done|]). destruct expired as [|e expired]; [by cbn; rewrite app_nil_r|].
  set (h1 := MkHub (set_store st' (h_broker h)) (h_chans h) (h_ids h)
    (record_expired_messages (Z.of_nat (length (e :: expired))) (h_metrics h))).
  assert (BrokerSpec.wf (h_broker h1)) as Hwf1 by (apply (same_maps_keeps (h_broker h)); try done; apply Hwf).
  destruct (dead_letter_all_effect config (e :: expired) now h1 Hwf1 Hun Hn) as ([_ Heff] & Hm & Hstore).
  change (h_ids h1) with (h_ids h) in *.
  lazymatch goal with |- context [queue (h_broker ?x) r] => change x with (dead_letter_all config (e :: expired) now h1).2 end.
  rewrite Hm, Hstore. split; [by apply Heff|]. split; [done|].
  by destruct (decide (copies config (h_ids h) (e :: expired) = [])).
Qed.

(** ** Dead-lettering of dead letters *)

Lemma copy_longer config n e dest c :
  copy config n e = Some (dest, c) →
  publish_topic (kind c) = Some dest ∧ str_len (Topic.as_str dest) ≤ MAX_TOPIC_LEN
  ∧ ∃ t, publish_topic (kind e) = Some t ∧ str_len (Topic.as_str t) < str_len (Topic.as_str dest).
Proof.
  unfold copy. destruct (config_topic config) as [dl|]; [|done]. destruct (kind e) as [t| | | | | | | | | |]; try done.
  destruct (Topic.from_str (destination dl t)) as [d|] eqn:Hd; [|done]. intros [= <- <-].
  apply topic_from_str_ok in Hd as [-> Hwf]. unfold Topic.wf in Hwf. apply topic_validate_ok in Hwf as (_ & Hlen & _).
  split; [done|]. split; [done|]. exists t. split; [done|]. simpl. unfold destination. rewrite !str_len_app. simpl. lia.
Qed.

(** One round: a dead-letter call on [e] after which a subscription has
    received [c]. *)
Definition round (config : DeadLetterConfig) (e c : Envelope) : Prop :=
  ∃ now h h' f r q,
    BrokerSpec.wf (h_broker h) ∧ unseen h ∧ (Z.of_nat (h_ids h) < 2 ^ 48)%Z
    ∧ sub_arc (h_broker h) f = Some r.1 ∧ queue (h_broker h) r = Some q
    ∧ dead_letter config e now h = (true, h') ∧ queue (h_broker h') r = Some (q ++ [c]).

Lemma round_copy config e c : round config e c → ∃ n dest, copy config n e = Some (dest, c).
Proof.
  intros (now & h & h' & f & r & q & Hwf & Hun & Hb & Ha & Hq & Hd & Hq').
  pose proof (dead_letter_effect config e now h Hwf Hun Hb) as He. rewrite Hd in He. destruct He as (Hc & [_ He] & _).
  destruct (copy config (h_ids h) e) as [[dest c']|] eqn:Hcopy; [|by rewrite bool_decide_eq_false_2 in Hc by apply is_Some_None].
  exists (h_ids h), dest. destruct (He f r q Ha Hq) as [_ Hq1]. rewrite Hq' in Hq1. injection Hq1 as Hl%app_inv_head.
  unfold received in Hl. cbn [option_list mbind list_bind fst snd] in Hl. rewrite app_nil_r in Hl. unfold gives in Hl.
  destruct (as_topic f); [destruct (decide _)|destruct (matches f dest)]; by simplify_eq.
Qed.

Lemma rounds_length config k e c :
  nsteps (round config) k e c →
  k = 0 ∨ ∃ t, publish_topic (kind c) = Some t ∧ k ≤ str_len (Topic.as_str t) ≤ MAX_TOPIC_LEN.
Proof.
  revert c. induction k as [|k IH]; intros c Hk; [by left|right]. apply nsteps_inv_r in Hk as (e' & He' & (n & dest & Hc)%round_copy).
  destruct (copy_longer _ _ _ _ _ Hc) as (Ht & Hmax & t & Ht' & Hlt). exists dest. split; [done|]. split; [|done].
  destruct (IH e' He') as [->|(t0 & Ht0 & Hk)]; [lia|]. rewrite Ht' in Ht0. injection Ht0 as <-. lia.
Qed.

(** C29: dead-lettering what was itself dead-lettered ends. What a
    dead-letter call publishes is the original's payload and content type on the
    dead-letter topic followed by the original's, not retained, from this node.
    That topic is longer than the last, and a topic holds at most
    [MAX_TOPIC_LEN] bytes, so when each round dead-letters what a subscription
    received of the round before, whatever the node has done in between, there
    are at most 256 rounds, whatever the dead-letter topic. The call publishes
    nothing and answers false exactly for what is not a publish, without a
    dead-letter topic, and when the topic would not be valid. *)
Theorem dead_letter_chain_ends (config : DeadLetterConfig) (e c : Envelope) (k : nat) :
  nsteps (round config) k e c →
  k ≤ MAX_TOPIC_LEN
  ∧ (∀ c', round config c c' → ∃ n dl topic payload retain content_type reply_to in_reply_to dest,
       config_topic config = Some dl ∧ kind c = Publish topic payload retain content_type reply_to in_reply_to
       ∧ Topic.from_str (Topic.as_str dl ++ lit "." ++ Topic.as_str topic) = Ok dest
       ∧ c' = Envelope.new n (config_node_id config) (Publish dest payload false content_type None None))
  ∧ ∀ now h, (dead_letter config c now h).1 = false ↔
      dead_letter config c now h = (false, h)
      ∧ ∀ dl topic, config_topic config = Some dl → publish_topic (kind c) = Some topic →
          is_ok (Topic.from_str (Topic.as_str dl ++ lit "." ++ Topic.as_str topic)) = false.
Proof.
  intros Hk. split; [destruct (rounds_length _ _ _ _ Hk) as [->|(t & _ & Ht)]; lia|]. split.
  - intros c' (n & dest & Hc)%round_copy. unfold copy in Hc. destruct (config_topic config) as [dl|]; [|done].
    destruct (kind c) as [topic payload retain ct rt ir| | | | | | | | | |]; try done.
    destruct (Topic.from_str (destination dl topic)) as [d|] eqn:Hd; [|done]. injection Hc as -> <-.
    by exists n, dl, topic, payload, retain, ct, rt, ir, dest.
  - intros now h. split; [|by intros [-> _]]. rewrite dead_letter_copy. unfold copy. destruct (config_topic config) as [dl|]; [|intros _; split; [done|]; by intros dl t ?].
    destruct (kind c) as [topic payload retain ct rt ir| | | | | | | | | |]; try (intros _; split; [done|]; by intros dl' t ? ?).
    destruct (Topic.from_str (destination dl topic)) as [d|x] eqn:Hd; [done|]. intros _. split; [done|].
    intros dl' t [= <-] [= <-]. unfold destination in Hd. by rewrite Hd.
Qed.
End copies.

(** ** Witnesses *)

Module DeadLetterSample.
Section sample.
#[local] Existing Instance ReferenceStore.ref_store.
#[local] Instance B : Broadcast Envelope := Reference.ref_broadcast Envelope.
#[local] Instance M : Mpsc Envelope := Reference.ref_mpsc Envelope.
#[local] Instance U : Uuids := Reference.ref_uuids.

Definition original : Envelope := Sample.publish 1 (lit "jobs.mail") [7%Z] false.
Definition config : DeadLetterConfig := MkDeadLetterConfig (Sample.peer 9) (Some (Sample.topic (lit "dead"))).

(** A subscriber of the dead letters. *)
Definition subscribed : (list Envelope * Receiver) * Broker := subscribe (MkFilter (lit "dead.#")) Broker.new.
Definition receiver : Receiver := subscribed.1.2.

(** A work-queue member that took a delivery at time 0. *)
Definition queued_job : Broker * mpsc_store Envelope :=
  (publish (Sample.topic (lit "jobs.mail")) original 0
    (join_group (MkFilter (lit "jobs.mail")) (lit "g") 0 true subscribed.2,
     {[0 := Reference.MkChan 4 false []]})).2.
Definition hub : Hub := MkHub queued_job.1 queued_job.2 5 Metrics.new.

Lemma hub_ok : BrokerSpec.wf (h_broker hub) ∧ unseen hub.
Proof.
  split.
  - apply (publish_effect (BroadcastLaws0 := Reference.ref_broadcast_laws Envelope)).
    apply (groups_keeps (BroadcastLaws0 := Reference.ref_broadcast_laws Envelope)).
    apply (broker_subscribe_wf (BroadcastLaws0 := Reference.ref_broadcast_laws Envelope)), broker_wf_new.
  - intros n _ _. match goal with |- _ ∉ ?l => replace l with [Sample.mid 1] by by vm_compute end.
    intros Hn%list_elem_of_singleton. apply (f_equal MessageId.uuid) in Hn. change (now_v7 n = 1%Z) in Hn.
    assert (uuid_version 1 = 7%Z); [|done]. transitivity (uuid_version (now_v7 n)); [by f_equal|].
    exact (@now_v7_version _ Reference.ref_uuid_laws n).
Qed.
End sample.
End DeadLetterSample.

Lemma work_queue_sweep_dead_letters_witness :
  let _ := DeadLetterSample.B in let _ := DeadLetterSample.M in let _ := DeadLetterSample.U in
  let _ := ReferenceStore.ref_store in
  let h' := (WorkQueue.sweep_once DeadLetterSample.config 100 10 0 DeadLetterSample.hub).2 in
  queue (BroadcastLaws0 := Reference.ref_broadcast_laws Envelope) (h_broker h') DeadLetterSample.receiver
  = Some [Envelope.new 5 (Sample.peer 9) (Publish (Sample.topic (lit "dead.jobs.mail")) [7%Z] false None None None)].
Proof.
  intros B M U S h'.
  destruct (work_queue_sweep_dead_letters (BroadcastLaws0 := Reference.ref_broadcast_laws Envelope)
    (H3 := Reference.ref_uuid_laws) DeadLetterSample.config 100 10 0 DeadLetterSample.hub
    (MkFilter (lit "dead.#")) DeadLetterSample.receiver []) as [Hq _].
  - apply DeadLetterSample.hub_ok.
  - apply DeadLetterSample.hub_ok.
  - by vm_compute.
  - by vm_compute.
  - by vm_compute.
  - etrans; [exact Hq|]. by vm_compute.
Defined.

Lemma ttl_sweep_drops_nothing_silently_witness :
  let _ := DeadLetterSample.B in let _ := DeadLetterSample.M in let _ := DeadLetterSample.U in
  let _ := ReferenceStore.ref_store in
  let x := subscribe (MkFilter (lit "dead.#")) (with_store (ReferenceStore.MkMem [DeadLetterSample.original] ∅ [])) in
  let h := MkHub x.2 ∅ 5 Metrics.new in
  queue (BroadcastLaws0 := Reference.ref_broadcast_laws Envelope)
    (h_broker (Ttl.sweep_once DeadLetterSample.config (10 ^ 18) (10 ^ 9) 0 h).2) x.1.2
  = Some [Envelope.new 5 (Sample.peer 9) (Publish (Sample.topic (lit "dead.jobs.mail")) [7%Z] false None None None)].
Proof.
  intros B M U S x h. set (st := ReferenceStore.MkMem [DeadLetterSample.original] ∅ []).
  pose proof (ttl_sweep_drops_nothing_silently (H := B) (H0 := M) (H1 := S) (H2 := U) (BroadcastLaws0 := Reference.ref_broadcast_laws Envelope)
    (H3 := Reference.ref_uuid_laws) (H4 := ReferenceStore.ref_store_laws)
    DeadLetterSample.config (10 ^ 18) (10 ^ 9) 0 h (MkFilter (lit "dead.#")) x.1.2 []) as Ht.
  assert (b_store (h_broker h) = Some st) as Hst by by vm_compute.
  rewrite Hst in Ht. change (10 ^ 18 - 10 ^ 9 <? - 2 ^ 63 * 10 ^ 9)%Z with false in Ht. cbv iota in Ht.
  change (@expire_before S (Z.max 0 (10 ^ 18 - 10 ^ 9) / 10 ^ 6) st)
    with (@Ok (list Envelope) io_error [DeadLetterSample.original], ReferenceStore.MkMem [] ∅ [DeadLetterSample.original]) in Ht.
  cbv beta iota zeta in Ht. destruct Ht as (_ & _ & _ & Hq & _); [..|etrans; [exact Hq|by vm_compute]].
  - apply (broker_subscribe_wf (H := B) (BroadcastLaws0 := Reference.ref_broadcast_laws Envelope)), broker_wf_new.
  - intros n _ _. match goal with |- _ ∉ ?l => replace l with (@nil MessageId) by by vm_compute end.
    apply not_elem_of_nil.
  - intros st' [= <-]. intros k i Hi. by vm_compute in Hi.
  - by vm_compute.
  - by vm_compute.
  - by vm_compute.
  - by vm_compute.
Defined.

(** One round, from the sample's hub. *)
Lemma dead_letter_chain_ends_witness :
  let _ := DeadLetterSample.B in let _ := DeadLetterSample.M in let _ := DeadLetterSample.U in
  let _ := ReferenceStore.ref_store in
  let c := Envelope.new 5 (Sample.peer 9) (Publish (Sample.topic (lit "dead.jobs.mail")) [7%Z] false None None None) in
  nsteps (round (BroadcastLaws0 := Reference.ref_broadcast_laws Envelope) DeadLetterSample.config) 1 DeadLetterSample.original c
  ∧ 1 ≤ MAX_TOPIC_LEN.
Proof.
  intros B M U S c.
  assert (nsteps (round (BroadcastLaws0 := Reference.ref_broadcast_laws Envelope) DeadLetterSample.config) 1
    DeadLetterSample.original c) as Hr.
  { apply nsteps_once. exists 0%Z, DeadLetterSample.hub, (dead_letter DeadLetterSample.config DeadLetterSample.original 0 DeadLetterSample.hub).2,
      (MkFilter (lit "dead.#")), DeadLetterSample.receiver, [].
    destruct DeadLetterSample.hub_ok as [Hwf Hun]. split; [exact Hwf|]. split; [exact Hun|]. split; [by vm_compute|].
    split; [by vm_compute|]. split; [by vm_compute|]. split; [|by vm_compute].
    etrans; [apply surjective_pairing|]. by f_equal. }
  split; [exact Hr|]. by apply (dead_letter_chain_ends (BroadcastLaws0 := Reference.ref_broadcast_laws Envelope)
    (H3 := Reference.ref_uuid_laws) _ _ _ _ Hr).
Defined.
