(* ===== verification/Persistence.v ===== *)
(** * The SQLite store ([thoth-mesh-node/src/persistence.rs], [schema.sql])

    A table is its rows, [messages] in the order of [seq], which
    [AUTOINCREMENT] makes the order of insertion; the meaning of each SQL
    statement of the source is written out. SQLite itself may fail any
    statement ([fault]), and a transaction that does not commit leaves no
    trace. The CBOR codec and the texts of its errors are parameters. *)

From S2P Require Import Prelude.
From S2P Require Import Text.
From S2P Require Import Topic.
From S2P Require Import Runtime.
From S2P Require Import Message.
From S2P Require Import MessageStore.

Definition DEFAULT_PERSISTED_MESSAGES_PER_TOPIC : Z := 100000.
Definition PRUNE_EVERY : Z := 1000.
Definition SCHEMA_VERSION : rstr := lit "1".

Record Row := MkRow {
  row_topic : rstr;
  row_ts : Z;
  row_envelope : bytes;
  row_msg_id : option bytes;
}.

(** One SQLite file. [msg_id_column] is false for a [messages] table made
    before that column was introduced. *)
Record Db := MkDb {
  messages_table : bool;
  msg_id_column : bool;
  messages : list Row;
  retained : list (rstr * bytes);
  subscriber_offsets : list ((bytes * rstr) * (bytes * Z));
  meta : list (rstr * rstr);
}.

Inductive Statement : Type :=
| CountTables | TableInfo | AlterTable | ExecuteBatch | InsertMeta | Prune
| Begin | InsertMessage | DeleteRetained | UpsertRetained | Commit
| SelectRecent | SelectRetained | SelectSince | SelectOffset | UpsertOffset
| SelectExpired | DeleteExpired.

(** [now_ms] is the system clock the next write reads, in milliseconds. *)
Record SqliteStore := MkSqliteStore {
  conn : Db;
  appends_since_prune : Z;
  now_ms : Z;
}.

(** ** The statements *)

Definition set_messages (l : list Row) (db : Db) : Db :=
  MkDb (messages_table db) (msg_id_column db) l (retained db) (subscriber_offsets db) (meta db).
Definition set_retained (l : list (rstr * bytes)) (db : Db) : Db :=
  MkDb (messages_table db) (msg_id_column db) (messages db) l (subscriber_offsets db) (meta db).
Definition set_offsets (l : list ((bytes * rstr) * (bytes * Z))) (db : Db) : Db :=
  MkDb (messages_table db) (msg_id_column db) (messages db) (retained db) l (meta db).

(** [ROW_NUMBER() OVER (PARTITION BY topic ORDER BY seq DESC) <= n]: a row is
    kept when fewer than [n] rows of its topic follow it. *)
Definition count_topic (t : rstr) (rows : list Row) : nat :=
  length (List.filter (λ r, bool_decide (row_topic r = t)) rows).
Fixpoint newest (n : Z) (rows : list Row) : list Row :=
  match rows with
  | [] => []
  | r :: rest =>
      if (Z.of_nat (count_topic (row_topic r) rest) + 1 <=? n)%Z then r :: newest n rest else newest n rest
  end.

(** [ORDER BY]: a stable sort. *)
Section sort_by.
Context {A : Type} (le : A → A → bool).

Fixpoint insert_by (x : A) (l : list A) : list A :=
  match l with
  | [] => [x]
  | y :: l' => if le x y then x :: l else y :: insert_by x l'
  end.
Fixpoint sort_by (l : list A) : list A :=
  match l with
  | [] => []
  | x :: l' => insert_by x (sort_by l')
  end.
End sort_by.

(** [INSERT … ON CONFLICT(key) DO UPDATE]: the row keeps its place. *)
Fixpoint upsert {K V} `{EqDecision K} (k : K) (v : V) (l : list (K * V)) : list (K * V) :=
  match l with
  | [] => [(k, v)]
  | (k', v') :: l' => if decide (k' = k) then (k, v) :: l' else (k', v') :: upsert k v l'
  end.
Fixpoint select {K V} `{EqDecision K} (k : K) (l : list (K * V)) : option V :=
  match l with
  | [] => None
  | (k', v') :: l' => if decide (k' = k) then Some v' else select k l'
  end.

Definition sql_prune (db : Db) : Db := set_messages (newest DEFAULT_PERSISTED_MESSAGES_PER_TOPIC (messages db)) db.
Definition sql_insert_message (r : Row) (db : Db) : Db := set_messages (messages db ++ [r]) db.
Definition sql_delete_retained (t : rstr) (db : Db) : Db :=
  set_retained (retain (λ p, negb (bool_decide (p.1 = t))) (retained db)) db.
Definition sql_upsert_retained (t : rstr) (b : bytes) (db : Db) : Db := set_retained (upsert t b (retained db)) db.
Definition sql_delete_expired (cutoff : Z) (db : Db) : Db :=
  set_messages (retain (λ r, negb (row_ts r <? cutoff)%Z) (messages db)) db.

Definition sql_recent (n : Z) (db : Db) : list (rstr * bytes) :=
  (λ r, (row_topic r, row_envelope r)) <$>
    sort_by (λ a b, str_leb (row_topic a) (row_topic b)) (newest n (messages db)).
Definition sql_since (t : rstr) (after : bytes) (db : Db) : list bytes :=
  row_envelope <$> sort_by (λ a b, str_leb (default [] (row_msg_id a)) (default [] (row_msg_id b)))
    (List.filter (λ r, bool_decide (row_topic r = t)
       && match row_msg_id r with Some i => negb (str_leb i after) | None => false end) (messages db)).
Definition sql_expired (cutoff : Z) (db : Db) : list bytes :=
  row_envelope <$> List.filter (λ r, (row_ts r <? cutoff)%Z) (messages db).

Section store.
Context {CborError : Type} (into_writer : Envelope → Result bytes CborError)
  (from_reader : bytes → Result Envelope CborError).
Context (cbor_message : CborError → io_error) (topic_message : TopicError → io_error).
Context (fault : Statement → Db → option io_error).

Definition Sql (A : Type) : Type := ST Db (Result A io_error).
Definition sql_ret {A} (a : A) : Sql A := λ db, (Ok a, db).
Definition sql_bind {A B} (m : Sql A) (k : A → Sql B) : Sql B := λ db,
  match m db with
  | (Ok a, db') => k a db'
  | (Err e, db') => (Err e, db')
  end.

Definition execute (s : Statement) (f : Db → Db) : Sql () := λ db,
  match fault s db with Some e => (Err e, db) | None => (Ok (), f db) end.
Definition query {A} (s : Statement) (f : Db → A) (db : Db) : Result A io_error :=
  match fault s db with Some e => Err e | None => Ok (f db) end.

(** [conn.transaction()] … [tx.commit()]; dropping the transaction instead
    rolls it back. *)
Definition transaction {A} (body : Sql A) : Sql A := λ db,
  match fault Begin db with
  | Some e => (Err e, db)
  | None =>
      match body db with
      | (Err e, _) => (Err e, db)
      | (Ok a, db1) => match fault Commit db1 with Some e => (Err e, db) | None => (Ok a, db1) end
      end
  end.

Definition set_conn (db : Db) (s : SqliteStore) : SqliteStore := MkSqliteStore db (appends_since_prune s) (now_ms s).
Definition set_appends (n : Z) (s : SqliteStore) : SqliteStore := MkSqliteStore (conn s) n (now_ms s).
Definition on_conn {A} (m : Sql A) : ST SqliteStore (Result A io_error) := λ s,
  let '(r, db) := m (conn s) in (r, set_conn db s).

Definition prune : ST SqliteStore (Result () io_error) := on_conn (execute Prune sql_prune).

(** [ensure_msg_id_column], then [schema.sql]. *)
Definition ensure_msg_id_column : Sql () := λ db,
  match query CountTables messages_table db with
  | Err e => (Err e, db)
  | Ok false => (Ok (), db)
  | Ok true =>
      match query TableInfo msg_id_column db with
      | Err e => (Err e, db)
      | Ok true => (Ok (), db)
      | Ok false => execute AlterTable (λ db, MkDb true true (messages db) (retained db) (subscriber_offsets db) (meta db)) db
      end
  end.
Definition sql_schema (db : Db) : Db :=
  if messages_table db then db
  else MkDb true true (messages db) (retained db) (subscriber_offsets db) (meta db).
Definition sql_insert_meta (db : Db) : Db :=
  match select (lit "schema_version") (meta db) with
  | Some _ => db
  | None => MkDb (messages_table db) (msg_id_column db) (messages db) (retained db) (subscriber_offsets db)
              (meta db ++ [(lit "schema_version", SCHEMA_VERSION)])
  end.

(** [SqliteStore::open] on the file's contents; creating the directory and the
    file is not modelled. *)
Definition open (db : Db) (now : Z) : Result SqliteStore io_error :=
  match sql_bind ensure_msg_id_column (λ _,
          sql_bind (execute ExecuteBatch sql_schema) (λ _, execute InsertMeta sql_insert_meta)) db with
  | (Err e, _) => Err e
  | (Ok _, db1) =>
      match prune (MkSqliteStore db1 0 now) with
      | (Err e, _) => Err e
      | (Ok _, s) => Ok s
      end
  end.

Definition append_transaction (topic : rstr) (payload : bytes) (retain : bool) (r : Row) : Sql () :=
  transaction (sql_bind (execute InsertMessage (sql_insert_message r)) (λ _,
    if retain then
      if bool_decide (payload = []) then execute DeleteRetained (sql_delete_retained topic)
      else execute UpsertRetained (sql_upsert_retained topic (row_envelope r))
    else sql_ret ())).

Definition append (e : Envelope) : ST SqliteStore (Result () io_error) := λ s,
  match kind e with
  | Publish topic payload retain _ _ _ =>
      match Envelope.to_bytes into_writer e with
      | Err x => (Err (cbor_message x), s)
      | Ok b =>
          let t := Topic.as_str topic in
          let r := MkRow t (now_ms s) b (Some (MessageId.as_bytes (id e))) in
          match on_conn (append_transaction t payload retain r) s with
          | (Err x, s1) => (Err x, s1)
          | (Ok _, s1) =>
              let n := fetch_add 1 (appends_since_prune s1) in
              if (PRUNE_EVERY <=? appends_since_prune s1 + 1)%Z then prune (set_appends 0 s1)
              else (Ok (), set_appends n s1)
          end
      end
  | _ => (Err (lit "MessageStore::append given a non-Publish envelope"), s)
  end.

Definition decode (b : bytes) : Result Envelope io_error := map_err cbor_message (Envelope.from_bytes from_reader b).
Definition parse_topic (t : rstr) : Result Topic io_error := map_err topic_message (Topic.from_str t).

Fixpoint decode_all (l : list bytes) : Result (list Envelope) io_error :=
  match l with
  | [] => Ok []
  | b :: l' => let? e := decode b in let? es := decode_all l' in Ok (e :: es)
  end.

(** The loop of [load_recent]: consecutive rows of one topic share an entry. *)
Fixpoint group_rows (rows : list (rstr * bytes)) (out : list (Topic * list Envelope)) :
    Result (list (Topic * list Envelope)) io_error :=
  match rows with
  | [] => Ok out
  | (t, b) :: rows' =>
      let? topic := parse_topic t in
      let? e := decode b in
      group_rows rows'
        match last out with
        | Some (last_topic, envelopes) =>
            if decide (last_topic = topic)
            then take (length out - 1) out ++ [(last_topic, envelopes ++ [e])]
            else out ++ [(topic, [e])]
        | None => out ++ [(topic, [e])]
        end
  end.

Definition load_recent (per_topic : nat) (s : SqliteStore) : Result (list (Topic * list Envelope)) io_error :=
  let? rows := query SelectRecent (sql_recent (Z.of_nat per_topic)) (conn s) in group_rows rows [].

Fixpoint decode_retained (rows : list (rstr * bytes)) : Result (list (Topic * Envelope)) io_error :=
  match rows with
  | [] => Ok []
  | (t, b) :: rows' =>
      let? topic := parse_topic t in
      let? e := decode b in
      let? out := decode_retained rows' in Ok ((topic, e) :: out)
  end.

Definition load_retained (s : SqliteStore) : Result (list (Topic * Envelope)) io_error :=
  let? rows := query SelectRetained retained (conn s) in decode_retained rows.

Definition messages_since (topic : Topic) (after : MessageId) (s : SqliteStore) : Result (list Envelope) io_error :=
  let? rows := query SelectSince (sql_since (Topic.as_str topic) (MessageId.as_bytes after)) (conn s) in
  decode_all rows.

Definition load_offset (subscriber : PeerId) (topic : Topic) (s : SqliteStore) : Result (option MessageId) io_error :=
  let? row := query SelectOffset (λ db, select (PeerId.as_bytes subscriber, Topic.as_str topic) (subscriber_offsets db)) (conn s) in
  match row with
  | None => Ok None
  | Some (b, _) =>
      if bool_decide (length b = 16) then Ok (Some (MessageId.from_bytes b))
      else Err (lit "stored last_msg_id is not 16 bytes")
  end.

Definition record_offset (subscriber : PeerId) (topic : Topic) (message_id : MessageId) :
    ST SqliteStore (Result () io_error) := λ s,
  on_conn (execute UpsertOffset (λ db,
    set_offsets (upsert (PeerId.as_bytes subscriber, Topic.as_str topic)
      (MessageId.as_bytes message_id, now_ms s) (subscriber_offsets db)) db)) s.

Definition expire_before (cutoff_ts : Z) : ST SqliteStore (Result (list Envelope) io_error) :=
  on_conn (transaction (λ db,
    match (let? rows := query SelectExpired (sql_expired cutoff_ts) db in decode_all rows) with
    | Err e => (Err e, db)
    | Ok expired => sql_bind (execute DeleteExpired (sql_delete_expired cutoff_ts)) (λ _, sql_ret expired) db
    end)).
End store.

(** ** Lemmas about the statements *)

(** The rows of a topic. *)
Definition topic_rows (t : rstr) (rows : list Row) : list Row :=
  List.filter (λ r, bool_decide (row_topic r = t)) rows.

Lemma topic_rows_app t l k : topic_rows t (l ++ k) = topic_rows t l ++ topic_rows t k.
Proof. apply List.filter_app. Qed.

Lemma newest_sublist n rows : sublist (newest n rows) rows.
Proof.
  induction rows as [|r rows IH]; simpl; [constructor|]. destruct (_ <=? n)%Z; by constructor.
Qed.

Lemma newest_window n t rows : topic_rows t (newest (Z.of_nat n) rows) = window n (topic_rows t rows).
Proof.
  induction rows as [|r rows IH]; [done|]. cbn [newest].
  destruct (Z.of_nat (count_topic (row_topic r) rows) + 1 <=? Z.of_nat n)%Z eqn:Hn; to_prop;
    unfold topic_rows in *; simpl; case_bool_decide as Ht; try done; rewrite ?IH.
  - subst t. unfold count_topic in Hn. rewrite !window_all; simpl; [done|lia..].
  - subst t. unfold count_topic in Hn. unfold window. simpl.
    destruct (Nat.sub (S (length (List.filter (λ r0, bool_decide (row_topic r0 = row_topic r)) rows))) n) eqn:Hk; [lia|].
    simpl. f_equal. lia.
Qed.

Lemma elem_of_topic_rows t r rows : r ∈ topic_rows t rows ↔ r ∈ rows ∧ row_topic r = t.
Proof.
  unfold topic_rows. by rewrite list_elem_of_In, filter_In, <-list_elem_of_In, bool_decide_eq_true.
Qed.

Section sort_by_lemmas.
Context {A : Type} (le : A → A → bool).

Lemma insert_by_perm x l : insert_by le x l ≡ₚ x :: l.
Proof. induction l as [|y l IH]; simpl; [done|]. destruct (le x y); [done|]. rewrite IH. constructor. Qed.
Lemma sort_by_perm l : sort_by le l ≡ₚ l.
Proof. induction l as [|x l IH]; simpl; [done|]. by rewrite insert_by_perm, IH. Qed.

Context (le_total : ∀ x y, le x y = true ∨ le y x = true).
Context (le_trans : ∀ x y z, le x y = true → le y z = true → le x z = true).

Lemma insert_by_sorted x l :
  StronglySorted (λ a b, le a b = true) l → StronglySorted (λ a b, le a b = true) (insert_by le x l).
Proof.
  induction 1 as [|y l Hl IH Hy]; simpl; [repeat constructor|]. destruct (le x y) eqn:Hxy.
  - constructor; [by constructor|]. constructor; [done|]. eapply Forall_impl; [exact Hy|]. eauto.
  - constructor; [done|]. rewrite insert_by_perm. constructor; [|done].
    destruct (le_total x y); congruence.
Qed.
Lemma sort_by_sorted l : StronglySorted (λ a b, le a b = true) (sort_by le l).
Proof. induction l; simpl; [constructor|]. by apply insert_by_sorted. Qed.

(** A stable sort keeps the order within a class of equal elements. *)
Lemma insert_by_filter p x l :
  (∀ y, p x = true → p y = true → le x y = true) →
  List.filter p (insert_by le x l) = List.filter p (x :: l).
Proof.
  intros Hp. induction l as [|y l IH]; simpl; [done|]. destruct (le x y) eqn:Hxy; [done|]. simpl. rewrite IH. simpl.
  destruct (p x) eqn:Hx, (p y) eqn:Hy; try done. rewrite Hp in Hxy; done.
Qed.
Lemma sort_by_filter p l :
  (∀ x y, p x = true → p y = true → le x y = true) → List.filter p (sort_by le l) = List.filter p l.
Proof.
  intros Hp. induction l as [|x l IH]; simpl; [done|]. rewrite insert_by_filter by auto. simpl. by rewrite IH.
Qed.
End sort_by_lemmas.

(** Sorting rows by a key of what they hold. *)
Lemma sort_by_Forall2 {A B} (R : A → B → Prop) (le : A → A → bool) (key : B → Z) l k :
  (∀ a b a' b', R a b → R a' b' → le a a' = (key b <=? key b')%Z) →
  Forall2 R l k → Forall2 R (sort_by le l) (sort_by_key key k).
Proof.
  intros Hle. induction 1 as [|a b l k Hab _ IH]; simpl; [constructor|].
  induction IH as [|a' b' l' k' Hab' Hlk IH']; simpl; [by repeat constructor|].
  rewrite (Hle a b a' b') by done. destruct (key b <=? key b')%Z; by repeat constructor.
Qed.

Section upsert_lemmas.
Context {K V : Type} `{EqDecision K}.

Lemma select_upsert (k k' : K) (v : V) l :
  select k' (upsert k v l) = if decide (k = k') then Some v else select k' l.
Proof.
  induction l as [|[k1 v1] l IH]; simpl; [done|]. destruct (decide (k1 = k)) as [->|Hne]; simpl.
  - by destruct (decide (k = k')).
  - rewrite IH. destruct (decide (k1 = k')) as [->|], (decide (k = k')) as [->|]; done.
Qed.
Lemma elem_of_upsert (k : K) (v : V) l p : p ∈ upsert k v l → p = (k, v) ∨ p ∈ l.
Proof.
  induction l as [|[k1 v1] l IH]; simpl; [by intros ->%list_elem_of_singleton; left|].
  destruct (decide (k1 = k)); rewrite !elem_of_cons; tauto.
Qed.
Lemma upsert_keys (k : K) (v : V) l : NoDup l.*1 → NoDup (upsert k v l).*1.
Proof.
  induction l as [|[k1 v1] l IH]; simpl; intros Hnd; [apply NoDup_singleton|].
  apply NoDup_cons in Hnd as [Hk Hnd]. destruct (decide (k1 = k)) as [->|Hne]; [by apply NoDup_cons|].
  simpl. apply NoDup_cons. split; [|by apply IH]. intros ([k2 v2] & Heq & Hin)%list_elem_of_fmap.
  simpl in Heq. subst k2. destruct (elem_of_upsert _ _ _ _ Hin) as [[= -> _]|Hin']; [done|].
  apply Hk, list_elem_of_fmap. by exists (k1, v2).
Qed.
Lemma select_elem_of (k : K) (v : V) l : NoDup l.*1 → (k, v) ∈ l → select k l = Some v.
Proof.
  induction l as [|[k1 v1] l IH]; simpl; intros Hnd Hin; [by apply not_elem_of_nil in Hin|].
  apply NoDup_cons in Hnd as [Hk Hnd]. apply elem_of_cons in Hin as [[= -> ->]|Hin]; [by rewrite decide_True|].
  rewrite decide_False; [by apply IH|]. intros ->. apply Hk, list_elem_of_fmap. by exists (k, v).
Qed.
Lemma select_retain (k k' : K) (l : list (K * V)) :
  select k' (retain (λ p, negb (bool_decide (p.1 = k))) l) = if decide (k = k') then None else select k' l.
Proof.
  induction l as [|[k1 v1] l IH]; simpl; [by destruct (decide (k = k'))|]. case_bool_decide as Hk; simpl; rewrite IH.
  - subst k1. by destruct (decide (k = k')).
  - destruct (decide (k1 = k')) as [->|]; [|done]. rewrite decide_False by congruence. done.
Qed.
Lemma retain_keys p (l : list (K * V)) : NoDup l.*1 → NoDup (retain p l).*1.
Proof.
  induction l as [|x l IH]; simpl; intros Hnd; [done|]. apply NoDup_cons in Hnd as [Hk Hnd].
  destruct (p x); [|by apply IH]. simpl. apply NoDup_cons. split; [|by apply IH].
  intros (y & Heq & [Hy _]%elem_of_retain)%list_elem_of_fmap. apply Hk. rewrite Heq. by apply list_elem_of_fmap_2.
Qed.
Lemma elem_of_select (k : K) (v : V) l : select k l = Some v → (k, v) ∈ l.
Proof.
  induction l as [|[k1 v1] l IH]; simpl; [done|]. rewrite elem_of_cons.
  destruct (decide (k1 = k)) as [->|]; [intros [= ->]; by left|auto].
Qed.
End upsert_lemmas.

(** ** The laws of the store *)

Section laws.
Context {CborError : Type} (into_writer : Envelope → Result bytes CborError)
  (from_reader : bytes → Result Envelope CborError).
Context (cbor_message : CborError → io_error) (topic_message : TopicError → io_error).
Context (fault : Statement → Db → option io_error).

(** What a row that [append] wrote holds, and what any row holds. *)
Definition row_ok (r : Row) (e : Envelope) : Prop :=
  from_reader (row_envelope r) = Ok e
  ∧ (∃ t, publish_topic (kind e) = Some t ∧ row_topic r = Topic.as_str t ∧ Topic.wf t)
  ∧ MessageId.wf (id e)
  ∧ ∀ i, row_msg_id r = Some i → i = MessageId.as_bytes (id e).

Definition value (r : Row) : list Envelope :=
  match from_reader (row_envelope r) with Ok e => [e] | Err _ => [] end.

Definition offset_ok (p : (bytes * rstr) * (bytes * Z)) : Prop :=
  length p.2.1 = 16 ∧ Forall is_byte p.2.1.

Definition retained_ok (p : rstr * bytes) : Prop :=
  ∃ t e, p.1 = Topic.as_str t ∧ Topic.wf t ∧ from_reader p.2 = Ok e.

Definition store_ok (s : SqliteStore) : Prop :=
  (∀ r, r ∈ messages (conn s) → ∃ e, row_ok r e)
  ∧ (∀ p, p ∈ subscriber_offsets (conn s) → offset_ok p)
  ∧ NoDup (retained (conn s)).*1 ∧ ∀ p, p ∈ retained (conn s) → retained_ok p.

Definition stored (s : SqliteStore) : list Envelope := messages (conn s) ≫= value.
Definition resumable (s : SqliteStore) : list Envelope :=
  List.filter (λ r, bool_decide (is_Some (row_msg_id r))) (messages (conn s)) ≫= value.
Definition position_of (s : SqliteStore) (p : PeerId) (t : Topic) : option MessageId :=
  (λ v, MessageId.from_bytes v.1) <$> select (PeerId.as_bytes p, Topic.as_str t) (subscriber_offsets (conn s)).

Definition retained_value (s : SqliteStore) (t : Topic) : option Envelope :=
  select (Topic.as_str t) (retained (conn s)) ≫= λ b,
    match from_reader b with Ok e => Some e | Err _ => None end.

Lemma row_ok_value r e : row_ok r e → value r = [e].
Proof. intros (Hd & _). unfold value. by rewrite Hd. Qed.

Lemma elem_of_values e rows : e ∈ rows ≫= value ↔ ∃ r, r ∈ rows ∧ value r = [e].
Proof.
  rewrite list_elem_of_bind. split.
  - intros (r & He & Hr). exists r. split; [done|]. unfold value in *.
    destruct (from_reader (row_envelope r)); [by apply list_elem_of_singleton in He as ->|by apply not_elem_of_nil in He].
  - intros (r & Hr & Hv). exists r. rewrite Hv. split; [apply list_elem_of_here|done].
Qed.

Lemma rows_values_with (P : Row → Prop) rows :
  (∀ r, r ∈ rows → P r ∧ ∃ e, row_ok r e) → Forall2 (λ r e, row_ok r e ∧ P r) rows (rows ≫= value).
Proof.
  induction rows as [|r rows IH]; intros Hok; [constructor|]. rewrite bind_cons.
  destruct (Hok r (list_elem_of_here _ _)) as [HP [e He]]. rewrite (row_ok_value _ _ He). simpl. constructor; [done|].
  apply IH. intros. apply Hok. by apply list_elem_of_further.
Qed.

Lemma rows_values rows : (∀ r, r ∈ rows → ∃ e, row_ok r e) → Forall2 row_ok rows (rows ≫= value).
Proof.
  intros Hok. eapply Forall2_impl; [apply (rows_values_with (λ _, True))|by intros ?? [??]].
  intros r Hr. split; [done|by apply Hok].
Qed.

Lemma of_topic_values t rows :
  (∀ r, r ∈ rows → ∃ e, row_ok r e) → of_topic t (rows ≫= value) = topic_rows (Topic.as_str t) rows ≫= value.
Proof.
  induction rows as [|r rows IH]; intros Hok; [done|]. rewrite bind_cons.
  destruct (Hok r (list_elem_of_here _ _)) as [e He]. rewrite (row_ok_value _ _ He).
  assert (IH' : of_topic t (rows ≫= value) = topic_rows (Topic.as_str t) rows ≫= value)
    by (apply IH; intros; apply Hok; by apply list_elem_of_further).
  destruct He as (Hd & (t' & Ht' & Hr & _) & _). unfold of_topic, topic_rows in *. simpl. rewrite Ht', Hr.
  destruct (decide (t' = t)) as [->|Hne].
  - rewrite !bool_decide_true by done. rewrite bind_cons. unfold value at 2. rewrite Hd. simpl. by f_equal.
  - rewrite bool_decide_false by congruence. rewrite bool_decide_false; [done|].
    intros Heq. apply Hne. destruct t, t'. simpl in Heq. by subst.
Qed.

Lemma window_values n rows :
  (∀ r, r ∈ rows → ∃ e, row_ok r e) → window n (rows ≫= value) = window n rows ≫= value.
Proof.
  intros Hok. pose proof (rows_values rows Hok) as Hr. unfold window.
  rewrite <-(Forall2_length _ _ _ Hr). generalize (length rows - n). intros k.
  revert k; induction rows as [|r rows IH]; intros k; [by destruct k|].
  destruct (Hok r (list_elem_of_here _ _)) as [e He]. rewrite bind_cons, (row_ok_value _ _ He).
  destruct k as [|k]; [simpl; by rewrite (row_ok_value _ _ He)|]. simpl. apply IH.
  - intros. apply Hok. by apply list_elem_of_further.
  - rewrite bind_cons, (row_ok_value _ _ He) in Hr. by inversion Hr.
Qed.

Lemma decode_all_values rows :
  (∀ r, r ∈ rows → ∃ e, row_ok r e) →
  decode_all from_reader cbor_message (row_envelope <$> rows) = Ok (rows ≫= value).
Proof.
  induction rows as [|r rows IH]; intros Hok; [done|]. rewrite fmap_cons, bind_cons. cbn [decode_all].
  destruct (Hok r (list_elem_of_here _ _)) as [e He]. rewrite (row_ok_value _ _ He).
  destruct He as (Hd & _). unfold decode, Envelope.from_bytes. rewrite Hd. simpl.
  rewrite IH; [done|]. intros. apply Hok. by apply list_elem_of_further.
Qed.

(** What [SelectSince] selects. *)
Definition since_rows (t : Topic) (after : MessageId) (rows : list Row) : list Row :=
  List.filter (λ r, bool_decide (row_topic r = Topic.as_str t)
    && match row_msg_id r with Some i => negb (str_leb i (MessageId.as_bytes after)) | None => false end) rows.

Lemma elem_of_since_rows t after rows r :
  (∀ r, r ∈ rows → ∃ e, row_ok r e) → MessageId.wf after →
  r ∈ since_rows t after rows ↔
  ∃ e, row_ok r e ∧ r ∈ rows ∧ is_Some (row_msg_id r)
    ∧ publish_topic (kind e) = Some t ∧ MessageId.ltb after (id e) = true.
Proof.
  intros Hok Hafter. unfold since_rows. rewrite list_elem_of_In, filter_In, <-list_elem_of_In, andb_true_iff, bool_decide_eq_true.
  assert (∀ e i, row_ok r e → row_msg_id r = Some i →
    negb (str_leb i (MessageId.as_bytes after)) = MessageId.ltb after (id e)) as Hlt.
  { intros e i (_ & _ & Hw & Hid) Hi. rewrite (Hid i Hi), as_bytes_leb by done.
    unfold MessageId.leb, MessageId.ltb. symmetry. apply Z.ltb_antisym. }
  split.
  - intros (Hr & Ht & Hi). destruct (Hok r Hr) as [e He]. exists e. destruct (row_msg_id r) as [i|] eqn:Hri; [|done].
    rewrite (Hlt e i He eq_refl) in Hi. destruct He as (Hd & (t' & Ht' & Hrt & Hwf) & Hw). rewrite Ht'.
    rewrite Hrt in Ht. destruct t, t'. simpl in Ht. subst. split; [|done]. split; [done|]. split; [|done]. by eexists.
  - intros (e & He & Hr & [i Hi] & Ht & Hl). split; [done|]. rewrite Hi, (Hlt e i He Hi).
    destruct He as (_ & (t' & Ht' & Hrt & _) & _). rewrite Ht in Ht'. by injection Ht' as <-.
Qed.

(** [messages_since] answers in identifier order what the query selects. *)
Lemma messages_since_spec t after s l :
  store_ok s → MessageId.wf after →
  messages_since from_reader cbor_message fault t after s = Ok l →
  StronglySorted (key_le id_key) l
  ∧ ∀ e, e ∈ l ↔ e ∈ resumable s ∧ publish_topic (kind e) = Some t ∧ MessageId.ltb after (id e) = true.
Proof.
  intros [Hok _] Hafter. unfold messages_since, query. destruct (fault _ _) as [x|]; [done|]. simpl. unfold sql_since.
  change (List.filter _ (messages (conn s))) with (since_rows t after (messages (conn s))).
  set (le := λ a b : Row, _). set (rows := since_rows t after (messages (conn s))). intros Hl.
  pose proof (λ r, elem_of_since_rows t after (messages (conn s)) r Hok Hafter) as Hrows. fold rows in Hrows.
  assert (∀ r, r ∈ sort_by le rows → ∃ e, row_ok r e) as Hsorted.
  { intros r. rewrite sort_by_perm. intros (e & He & _)%Hrows. by exists e. }
  rewrite decode_all_values in Hl by done. injection Hl as <-. split.
  - assert (Forall2 (λ r e, row_ok r e ∧ is_Some (row_msg_id r)) rows (rows ≫= value)) as Hv.
    { apply rows_values_with. intros r (e & He & _ & Hi & _)%Hrows. split; [done|by exists e]. }
    apply (sort_by_Forall2 _ le id_key) in Hv.
    + assert (sort_by le rows ≫= value = sort_by_key id_key (rows ≫= value)) as ->; [|apply sort_by_key_sorted].
      clear -Hv. induction Hv as [|r e l k [He _] _ IH]; [done|]. rewrite bind_cons, (row_ok_value _ _ He), IH. done.
    + intros a b a' b' [(_ & _ & Hw & Hi) [i Ha]] [(_ & _ & Hw' & Hi') [i' Ha']]. unfold le. rewrite Ha, Ha'. simpl.
      rewrite (Hi i Ha), (Hi' i' Ha'), as_bytes_leb by done. done.
  - intros e. unfold resumable. rewrite !elem_of_values. split.
    + intros (r & Hr & Hv). rewrite sort_by_perm in Hr. apply Hrows in Hr as (e' & He & Hr & Hi & Ht & Hlt).
      rewrite (row_ok_value _ _ He) in Hv. injection Hv as ->. split; [|done]. exists r.
      rewrite list_elem_of_In, filter_In, <-list_elem_of_In, bool_decide_eq_true, (row_ok_value _ _ He). done.
    + intros ((r & Hr & Hv) & Ht & Hlt). exists r. split; [|done]. rewrite sort_by_perm. apply Hrows.
      rewrite list_elem_of_In, filter_In, <-list_elem_of_In, bool_decide_eq_true in Hr. destruct Hr as [Hr Hi].
      destruct (Hok r Hr) as [e' He]. rewrite (row_ok_value _ _ He) in Hv. injection Hv as ->. by exists e.
Qed.

(** ** [load_recent] *)

(** What [group_rows] has built from the rows read so far. *)
Definition grouped (rows : list Row) (out : list (Topic * list Envelope)) : Prop :=
  NoDup out.*1
  ∧ (∀ t es, (t, es) ∈ out ↔ es = topic_rows (Topic.as_str t) rows ≫= value ∧ es ≠ [])
  ∧ ∀ t es, last out = Some (t, es) → ∃ r, last rows = Some r ∧ row_topic r = Topic.as_str t.

Definition by_topic (a b : Row) : Prop := str_leb (row_topic a) (row_topic b) = true.

Lemma topic_values_none t rows :
  (∀ r, r ∈ rows → ∃ e, row_ok r e) → topic_rows t rows ≫= value = [] → ∀ r, r ∈ rows → row_topic r ≠ t.
Proof.
  intros Hok Hnil r Hr Ht. destruct (Hok r Hr) as [e He].
  assert (e ∈ topic_rows t rows ≫= value) as Hin; [|rewrite Hnil in Hin; by apply not_elem_of_nil in Hin].
  apply elem_of_values. exists r. split; [by apply elem_of_topic_rows|by apply row_ok_value].
Qed.

Lemma last_is_greatest rows r :
  StronglySorted by_topic rows → last rows = Some r → ∀ r', r' ∈ rows → by_topic r' r.
Proof.
  intros Hs Hl r' Hr'. apply last_Some in Hl as [k ->]. apply elem_of_app in Hr' as [Hr'|Hr'].
  - eapply StronglySorted_app_1_elem_of; [exact Hs|done|apply list_elem_of_here].
  - apply list_elem_of_singleton in Hr' as ->. unfold by_topic. destruct (str_leb_total (row_topic r) (row_topic r)); done.
Qed.

Lemma topic_eq (t t' : Topic) : Topic.as_str t = Topic.as_str t' → t = t'.
Proof. destruct t, t'. simpl. by intros ->. Qed.

Lemma topic_rows_snoc rows r e t t' :
  row_ok r e → row_topic r = Topic.as_str t →
  topic_rows (Topic.as_str t') (rows ++ [r]) ≫= value
  = (topic_rows (Topic.as_str t') rows ≫= value) ++ (if decide (t' = t) then [e] else []).
Proof.
  intros He Hrt. rewrite topic_rows_app, bind_app. f_equal. unfold topic_rows. simpl. rewrite Hrt.
  destruct (decide (t' = t)) as [->|Hne].
  - rewrite bool_decide_true by done. rewrite bind_cons, (row_ok_value _ _ He). done.
  - rewrite bool_decide_false; [done|]. intros Heq. apply Hne. by apply topic_eq.
Qed.

(** One more row of the query: of a new topic, of the last one. *)
Lemma grouped_new rows out r e t :
  row_ok r e → row_topic r = Topic.as_str t → grouped rows out →
  (∀ es, (t, es) ∉ out) → grouped (rows ++ [r]) (out ++ [(t, [e])]).
Proof.
  intros He Hrt (Hnd & Hin & _) Habs.
  assert (topic_rows (Topic.as_str t) rows ≫= value = []) as Hnil.
  { destruct (decide (topic_rows (Topic.as_str t) rows ≫= value = [])) as [|Hne]; [done|].
    exfalso. by apply (Habs (topic_rows (Topic.as_str t) rows ≫= value)), Hin. }
  split; [|split].
  - rewrite fmap_app. apply NoDup_app. split; [done|]. split; [|apply NoDup_singleton].
    intros t' Ht' Heq%list_elem_of_singleton. simpl in Heq. subst t'. apply list_elem_of_fmap in Ht' as ([t' es] & -> & Ht'). by apply (Habs es).
  - intros t' es. rewrite elem_of_app, list_elem_of_singleton, Hin, (topic_rows_snoc _ _ _ _ _ He Hrt).
    destruct (decide (t' = t)) as [->|Hne].
    + rewrite Hnil. simpl. split; [intros [[-> ?]|[= ->]]; done|]. intros [-> _]. by right.
    + rewrite app_nil_r. split; [intros [?|[= -> ->]]; done|tauto].
  - intros t0 es0. rewrite last_snoc. intros [= <- <-]. exists r. by rewrite last_snoc.
Qed.

Lemma grouped_same rows out r e t es :
  row_ok r e → row_topic r = Topic.as_str t → grouped rows (out ++ [(t, es)]) →
  grouped (rows ++ [r]) (out ++ [(t, es ++ [e])]).
Proof.
  intros He Hrt (Hnd & Hin & _). rewrite fmap_app in Hnd. apply NoDup_app in Hnd as (Hnd0 & Hdis & _).
  split; [|split].
  - rewrite fmap_app. apply NoDup_app. split; [done|]. split; [done|apply NoDup_singleton].
  - intros t' es'. specialize (Hin t'). rewrite (topic_rows_snoc _ _ _ _ _ He Hrt), elem_of_app, list_elem_of_singleton.
    destruct (decide (t' = t)) as [->|Hne].
    + destruct (proj1 (Hin es)) as [-> _]; [apply elem_of_app; right; apply list_elem_of_here|]. split.
      * intros [Ho|[= ->]]; [|split; [done|]; by destruct (topic_rows (Topic.as_str t) rows ≫= value)].
        exfalso. apply (Hdis t); [|apply list_elem_of_here]. apply list_elem_of_fmap. by exists (t, es').
      * intros [-> _]. by right.
    + rewrite app_nil_r, <-Hin, elem_of_app, list_elem_of_singleton. split; [intros [?|[= -> _]]|intros [?|[= -> _]]]; tauto.
  - intros t0 es0. rewrite last_snoc. intros [= <- <-]. exists r. by rewrite last_snoc.
Qed.

(** A topic that is not the last one cannot come back: the rows are sorted. *)
Lemma grouped_absent rows out r t lt les :
  (∀ r, r ∈ rows → ∃ e, row_ok r e) → StronglySorted by_topic (rows ++ [r]) → row_topic r = Topic.as_str t →
  grouped rows out → last out = Some (lt, les) → lt ≠ t → ∀ es, (t, es) ∉ out.
Proof.
  intros Hok Hs Hrt (_ & Hin & Hlast) Hlo Hne es Hes. apply Hin in Hes as [-> Hne2].
  destruct (Hlast lt les Hlo) as (lr & Hlr & Hlt).
  destruct (topic_rows (Topic.as_str t) rows) as [|r1 l1] eqn:Hrows; [done|].
  assert (r1 ∈ topic_rows (Topic.as_str t) rows) as Hr1 by (rewrite Hrows; apply list_elem_of_here).
  apply elem_of_topic_rows in Hr1 as [Hr1 Ht1].
  assert (by_topic lr r) as Hle.
  { eapply StronglySorted_app_1_elem_of; [exact Hs| |apply list_elem_of_here].
    apply last_Some in Hlr as [k ->]. apply elem_of_app; right; apply list_elem_of_here. }
  assert (by_topic r1 lr) as Hge.
  { eapply last_is_greatest; [|done|done]. by apply StronglySorted_app_1_l in Hs. }
  unfold by_topic in *. rewrite Ht1, <-Hrt in Hge. pose proof (str_leb_antisym _ _ Hle Hge) as Heq.
  apply Hne, topic_eq. congruence.
Qed.

Lemma group_rows_spec rows done out :
  (∀ r, r ∈ done ++ rows → ∃ e, row_ok r e) → StronglySorted by_topic (done ++ rows) → grouped done out →
  ∃ l, group_rows from_reader cbor_message topic_message ((λ r, (row_topic r, row_envelope r)) <$> rows) out = Ok l
    ∧ grouped (done ++ rows) l.
Proof.
  revert done out; induction rows as [|r rows IH]; intros done out Hok Hs Hg.
  { exists out. by rewrite app_nil_r. }
  destruct (Hok r) as [e He]; [apply elem_of_app; right; apply list_elem_of_here|].
  pose proof He as (Hd & (t & _ & Hrt & Hwf) & _). rewrite fmap_cons. cbn [group_rows].
  unfold parse_topic, decode, Envelope.from_bytes. rewrite Hd, Hrt, (proj2 (topic_from_str_ok _ t)).
  2:{ split; [by destruct t|done]. }
  cbn [map_err and_then]. change (done ++ r :: rows) with (done ++ [r] ++ rows) in *. rewrite app_assoc in *.
  apply IH; [done..|].
  assert (∀ r, r ∈ done → ∃ e, row_ok r e) as Hok' by (intros; apply Hok; rewrite !elem_of_app; auto).
  apply StronglySorted_app_1_l in Hs. destruct (last out) as [[lt les]|] eqn:Hlo.
  - destruct (decide (lt = t)) as [->|Hne].
    + apply last_Some in Hlo as [out0 ->]. rewrite length_app. simpl. rewrite Nat.add_sub, take_app_length.
      by apply grouped_same.
    + apply grouped_new; try done. by eapply grouped_absent.
  - apply last_None in Hlo as ->. apply grouped_new; try done. intros es. apply not_elem_of_nil.
Qed.

(** [load_recent] answers, topic by topic, the last messages of the log. *)
Lemma load_recent_spec n s l :
  store_ok s → load_recent from_reader cbor_message topic_message fault n s = Ok l →
  NoDup l.*1 ∧ ∀ t es, (t, es) ∈ l ↔ es = window n (of_topic t (stored s)) ∧ es ≠ [].
Proof.
  intros [Hok _]. unfold load_recent, query. destruct (fault _ _); [done|]. simpl. unfold sql_recent.
  set (le := λ a b : Row, _). set (rows := newest (Z.of_nat n) (messages (conn s))). intros Hl.
  assert (∀ r, r ∈ rows → ∃ e, row_ok r e) as Hrows.
  { intros r Hr. apply Hok. eapply elem_of_sublist; [exact Hr|apply newest_sublist]. }
  destruct (group_rows_spec (sort_by le rows) [] []) as (l' & Hl' & Hnd & Hin & _).
  - intros r. simpl. rewrite sort_by_perm. apply Hrows.
  - simpl. apply sort_by_sorted; unfold le; [intros; apply str_leb_total|intros ???; apply str_leb_trans].
  - split; [constructor|]. split; [|done]. intros t es. split; [by intros ?%not_elem_of_nil|by intros [-> ?]].
  - rewrite Hl in Hl'. injection Hl' as <-. split; [done|]. intros t es. rewrite Hin. simpl.
    assert (topic_rows (Topic.as_str t) (sort_by le rows) = topic_rows (Topic.as_str t) rows) as ->.
    { apply sort_by_filter. unfold le. intros x y Hx%bool_decide_eq_true Hy%bool_decide_eq_true. rewrite Hx, Hy.
      by destruct (str_leb_total (Topic.as_str t) (Topic.as_str t)). }
    unfold rows. rewrite newest_window. unfold stored. rewrite of_topic_values, window_values; [done| |done].
    intros r (Hr & _)%elem_of_topic_rows. by apply Hok.
Qed.

(** [load_retained] answers the retained message of every topic. *)
Lemma load_retained_spec s l :
  store_ok s → load_retained from_reader cbor_message topic_message fault s = Ok l →
  NoDup l.*1 ∧ ∀ t e, (t, e) ∈ l ↔ retained_value s t = Some e.
Proof.
  intros (_ & _ & Hnd & Hok). unfold load_retained, query, retained_value. destruct (fault _ _); [done|]. simpl.
  revert l Hnd Hok; induction (retained (conn s)) as [|[k b] rows IH]; intros l Hnd Hok; cbn [decode_retained select].
  { intros [= <-]. split; [constructor|]. intros t e. simpl. split; [by intros ?%not_elem_of_nil|done]. }
  apply NoDup_cons in Hnd as [Hk Hnd].
  destruct (Hok (k, b) (list_elem_of_here _ _)) as (t & e & Ht & Hwf & Hd). simpl in Ht, Hd. subst k.
  unfold parse_topic, decode, Envelope.from_bytes. rewrite (proj2 (topic_from_str_ok _ t)) by (by destruct t).
  rewrite Hd. cbn [map_err and_then].
  destruct (decode_retained from_reader cbor_message topic_message rows) as [out|x] eqn:Hout; [|done].
  intros [= <-]. destruct (IH out) as [IH1 IH2]; [done| |done|].
  { intros p Hp. apply Hok. by apply list_elem_of_further. }
  assert (∀ t' e', (t', e') ∈ out → t' ≠ t) as Hfresh.
  { intros t' e' Ho%IH2 ->. apply Hk. destruct (select (Topic.as_str t) rows) as [b'|] eqn:Hs; [|done].
    apply elem_of_select in Hs. apply list_elem_of_fmap. by exists (Topic.as_str t, b'). }
  split.
  - rewrite fmap_cons. apply NoDup_cons. split; [|done]. intros ([t' e'] & Heq & Ho)%list_elem_of_fmap.
    by apply (Hfresh t' e').
  - intros t' e'. rewrite elem_of_cons. destruct (decide (Topic.as_str t = Topic.as_str t')) as [Heq|Hne].
    + apply topic_eq in Heq as <-. simpl. rewrite Hd. split; [|intros [= ->]; by left].
      intros [[= ->]|Ho]; [done|]. by destruct (Hfresh t e').
    + rewrite <-IH2. split; [intros [[= -> _]|?]; done|auto].
Qed.

(** ** [append] *)

Context (codec_roundtrip : ∀ e b, into_writer e = Ok b → from_reader b = Ok e).

(** An envelope as the decoder builds them. *)
Definition envelope_ok (e : Envelope) : Prop :=
  MessageId.wf (id e) ∧ ∀ t, publish_topic (kind e) = Some t → Topic.wf t.

Lemma newest_topic_window t n k rows :
  (n ≤ k)%nat → window n (topic_rows t (newest (Z.of_nat k) rows)) = window n (topic_rows t rows).
Proof.
  intros Hn. rewrite newest_window. unfold window. rewrite drop_drop, length_drop. f_equal. lia.
Qed.

Lemma newest_last k rows r : (0 < k)%Z → r ∈ newest k (rows ++ [r]).
Proof.
  intros Hk. induction rows as [|r' rows IH]; cbn [newest app].
  - unfold count_topic. simpl. rewrite (proj2 (Z.leb_le _ _)) by lia. apply list_elem_of_here.
  - destruct (_ <=? k)%Z; [by apply list_elem_of_further|done].
Qed.

(** The tables after a successful append, up to the pruning. *)
Definition appended (e : Envelope) (t : Topic) (payload : bytes) (keep : bool) (r : Row) (s s' : SqliteStore) : Prop :=
  row_ok r e ∧ row_topic r = Topic.as_str t ∧ row_msg_id r = Some (MessageId.as_bytes (id e))
  ∧ subscriber_offsets (conn s') = subscriber_offsets (conn s)
  ∧ retained (conn s') = (if keep then
       if bool_decide (payload = []) then retained (sql_delete_retained (Topic.as_str t) (conn s))
       else upsert (Topic.as_str t) (row_envelope r) (retained (conn s))
     else retained (conn s))
  ∧ (messages (conn s') = messages (conn s) ++ [r]
     ∨ messages (conn s') = newest DEFAULT_PERSISTED_MESSAGES_PER_TOPIC (messages (conn s) ++ [r])).

(** The transaction of an append: all of it, or nothing. *)
Lemma append_transaction_cases t payload keep r db :
  let '(res, db') := append_transaction fault t payload keep r db in
  (db' = db ∧ is_ok res = false)
  ∨ res = Ok () ∧ subscriber_offsets db' = subscriber_offsets db ∧ messages db' = messages db ++ [r]
    ∧ retained db' = (if keep then
        if bool_decide (payload = []) then retained (sql_delete_retained t db)
        else upsert t (row_envelope r) (retained db)
      else retained db).
Proof.
  unfold append_transaction, transaction. destruct (fault Begin db); [by left|].
  unfold sql_bind, execute. destruct (fault InsertMessage db); [by left|].
  destruct keep; [case_bool_decide|].
  - destruct (fault DeleteRetained _); [by left|]. destruct (fault Commit _); [by left|by right].
  - destruct (fault UpsertRetained _); [by left|]. destruct (fault Commit _); [by left|by right].
  - unfold sql_ret. destruct (fault Commit _); [by left|by right].
Qed.

Lemma append_cases e s :
  envelope_ok e →
  let '(res, s') := append into_writer cbor_message fault e s in
  (conn s' = conn s ∧ is_ok res = false)
  ∨ ∃ t payload keep ct rt ir r, kind e = Publish t payload keep ct rt ir ∧ appended e t payload keep r s s'.
Proof.
  intros [Hid Hwf]. unfold append, Envelope.to_bytes. destruct (kind e) as [t payload keep ct rt ir| | | | | | | | | |] eqn:Hk;
    try by left. destruct (into_writer e) as [b|x] eqn:Hb; [|by left]. cbn [and_then].
  set (r := MkRow (Topic.as_str t) (now_ms s) b (Some (MessageId.as_bytes (id e)))).
  assert (row_ok r e) as Hr.
  { split; [by apply codec_roundtrip|]. split; [exists t; rewrite Hk; auto|]. split; [done|]. by intros i [= <-]. }
  unfold on_conn. pose proof (append_transaction_cases (Topic.as_str t) payload keep r (conn s)) as Ht.
  destruct (append_transaction fault (Topic.as_str t) payload keep r (conn s)) as [res db].
  destruct Ht as [[-> Hf]|(-> & Ho & Hm & Hre)]; [destruct res; [done|by left]|].
  destruct (PRUNE_EVERY <=? _)%Z; simpl.
  - unfold prune, on_conn, execute. simpl.
    destruct (fault Prune db); simpl; right; exists t, payload, keep, ct, rt, ir, r; (split; [done|]);
      (split; [done|]); (split; [done|]); (split; [done|]); (split; [done|]); (split; [done|]).
    + by left.
    + right. simpl. by rewrite Hm.
  - right. exists t, payload, keep, ct, rt, ir, r. split; [done|]. split; [done|]. split; [done|]. split; [done|].
    split; [done|]. split; [done|]. by left.
Qed.

Lemma appended_ok e t payload keep r s s' :
  appended e t payload keep r s s' → publish_topic (kind e) = Some t → Topic.wf t → store_ok s → store_ok s'.
Proof.
  intros (Hr & Hrt & _ & Ho & Hre & Hm) Ht Hwf (Hok & Hoff & Hnd & Hret). split; [|split; [by rewrite Ho|]].
  - assert (∀ r', r' ∈ messages (conn s) ++ [r] → ∃ e', row_ok r' e') as Hall.
    { intros r' [?|Heq]%elem_of_app; [by apply Hok|]. apply list_elem_of_singleton in Heq as ->. by exists e. }
    destruct Hm as [->| ->]; [done|]. intros r' Hr'. apply Hall. eapply elem_of_sublist; [done|apply newest_sublist].
  - rewrite Hre. destruct keep; [|done]. case_bool_decide.
    + simpl. split; [by apply retain_keys|]. intros p [Hp _]%elem_of_retain. by apply Hret.
    + split; [by apply upsert_keys|]. intros p [->|Hp]%elem_of_upsert; [|by apply Hret].
      exists t, e. split; [done|]. split; [done|]. apply Hr.
Qed.

Lemma appended_stored e t payload keep r s s' :
  store_ok s → appended e t payload keep r s s' →
  e ∈ stored s' ∧ e ∈ resumable s'
  ∧ (∀ x, x ∈ stored s' → x = e ∨ x ∈ stored s) ∧ (∀ x, x ∈ resumable s' → x = e ∨ x ∈ resumable s).
Proof.
  intros (Hok & _) (Hr & _ & Hi & _ & _ & Hm).
  assert (r ∈ messages (conn s') ∧ ∀ r', r' ∈ messages (conn s') → r' = r ∨ r' ∈ messages (conn s)) as [Hin Hsub].
  { destruct Hm as [->| ->].
    - split; [apply elem_of_app; right; apply list_elem_of_here|].
      intros r' [?|Heq]%elem_of_app; [by right|]. apply list_elem_of_singleton in Heq. by left.
    - split; [by apply newest_last|]. intros r' Hr'.
      assert (r' ∈ messages (conn s) ++ [r]) as Happ by (eapply elem_of_sublist; [exact Hr'|apply newest_sublist]).
      apply elem_of_app in Happ as [?|Heq]; [by right|]. apply list_elem_of_singleton in Heq. by left. }
  unfold stored, resumable. rewrite !elem_of_values.
  assert (∀ r', r' ∈ List.filter (λ r, bool_decide (is_Some (row_msg_id r))) (messages (conn s')) ↔
    r' ∈ messages (conn s') ∧ is_Some (row_msg_id r')) as Hfil.
  { intros r'. by rewrite list_elem_of_In, filter_In, <-list_elem_of_In, bool_decide_eq_true. }
  split; [exists r; split; [done|by apply row_ok_value]|]. split.
  { exists r. rewrite Hfil, Hi. split; [done|by apply row_ok_value]. }
  split; intros x.
  - rewrite !elem_of_values. intros (r' & Hr' & Hv). destruct (Hsub r' Hr') as [->|Hold]; [left|right; by exists r'].
    rewrite (row_ok_value _ _ Hr) in Hv. congruence.
  - rewrite !elem_of_values. intros (r' & Hr' & Hv). apply Hfil in Hr' as [Hr' His].
    destruct (Hsub r' Hr') as [->|Hold]; [left; rewrite (row_ok_value _ _ Hr) in Hv; congruence|right].
    exists r'. by rewrite list_elem_of_In, filter_In, <-list_elem_of_In, bool_decide_eq_true.
Qed.

Lemma appended_log e t payload keep r s s' t' n :
  store_ok s → publish_topic (kind e) = Some t → Topic.wf t → appended e t payload keep r s s' →
  (n ≤ Z.to_nat DEFAULT_PERSISTED_MESSAGES_PER_TOPIC)%nat →
  window n (of_topic t' (stored s')) = window n (of_topic t' (stored s ++ [e])).
Proof.
  intros Hok Ht Hwf Happ Hn. pose proof (appended_ok _ _ _ _ _ _ _ Happ Ht Hwf Hok) as (Hok' & _).
  destruct Hok as (Hok & _). destruct Happ as (Hr & Hrt & _ & _ & _ & Hm). unfold stored.
  assert (∀ r', r' ∈ messages (conn s) ++ [r] → ∃ e', row_ok r' e') as Hall.
  { intros r' [?|Heq]%elem_of_app; [by apply Hok|]. apply list_elem_of_singleton in Heq as ->. by exists e. }
  assert ((messages (conn s) ≫= value) ++ [e] = (messages (conn s) ++ [r]) ≫= value) as ->.
  { rewrite bind_app. f_equal. rewrite bind_cons, (row_ok_value _ _ Hr). done. }
  rewrite !of_topic_values by done.
  assert (∀ rows, (∀ r, r ∈ rows → ∃ e, row_ok r e) → ∀ r, r ∈ topic_rows (Topic.as_str t') rows → ∃ e, row_ok r e) as Htr.
  { intros rows Hrows r' [Hr' _]%elem_of_topic_rows. by apply Hrows. }
  rewrite !window_values by eauto. f_equal. destruct Hm as [->| ->]; [done|].
  rewrite <-(Z2Nat.id DEFAULT_PERSISTED_MESSAGES_PER_TOPIC) by done. by apply newest_topic_window.
Qed.

Lemma appended_retained e t payload keep ct rt ir r s s' t' :
  kind e = Publish t payload keep ct rt ir → appended e t payload keep r s s' →
  retained_value s' t' = retain_step t' (retained_value s t') e.
Proof.
  intros Hk ((Hd & _) & _ & _ & _ & Hre & _). unfold retained_value, retain_step. rewrite Hre, Hk.
  assert (∀ a b : Topic, Topic.as_str a = Topic.as_str b ↔ a = b) as Heq.
  { intros a b. split; [apply topic_eq|by intros ->]. }
  destruct keep; [|done]. case_bool_decide.
  - simpl. rewrite select_retain. destruct (decide (Topic.as_str t = Topic.as_str t')) as [Hs|Hs].
    + apply Heq in Hs as ->. by rewrite decide_True.
    + rewrite decide_False; [done|]. by rewrite <-Heq.
  - rewrite select_upsert. destruct (decide (Topic.as_str t = Topic.as_str t')) as [Hs|Hs].
    + apply Heq in Hs as ->. simpl. rewrite Hd. by rewrite decide_True.
    + rewrite decide_False; [done|]. by rewrite <-Heq.
Qed.

Lemma append_keeps e s :
  store_ok s → envelope_ok e → store_ok (append into_writer cbor_message fault e s).2.
Proof.
  intros Hok He. pose proof (append_cases e s He) as Hc.
  destruct (append into_writer cbor_message fault e s) as [res s'].
  destruct Hc as [[Hconn _]|(t & payload & keep & ct & rt & ir & r & Hk & Happ)].
  - unfold store_ok in *. simpl. by rewrite Hconn.
  - eapply appended_ok; [done| |apply He|done]; by rewrite Hk.
Qed.

Lemma append_spec e s s' :
  store_ok s → envelope_ok e → append into_writer cbor_message fault e s = (Ok (), s') →
  ∃ t payload keep ct rt ir r, kind e = Publish t payload keep ct rt ir ∧ Topic.wf t ∧ appended e t payload keep r s s'.
Proof.
  intros Hok He Ha. pose proof (append_cases e s He) as Hc. rewrite Ha in Hc.
  destruct Hc as [[_ ?]|(t & payload & keep & ct & rt & ir & r & Hk & Happ)]; [done|].
  exists t, payload, keep, ct, rt, ir, r. split; [done|]. split; [|done]. apply He. by rewrite Hk.
Qed.

(** Appending one after the other; the first failure ends it. *)
Fixpoint append_all (es : list Envelope) (s : SqliteStore) : Result SqliteStore io_error :=
  match es with
  | [] => Ok s
  | e :: es' =>
      match append into_writer cbor_message fault e s with
      | (Ok _, s') => append_all es' s'
      | (Err x, _) => Err x
      end
  end.

Lemma append_all_spec es s s' :
  store_ok s → Forall envelope_ok es → append_all es s = Ok s' →
  store_ok s'
  ∧ (∀ t n, (n ≤ Z.to_nat DEFAULT_PERSISTED_MESSAGES_PER_TOPIC)%nat →
       window n (of_topic t (stored s')) = window n (of_topic t (stored s ++ es)))
  ∧ ∀ t, retained_value s' t = fold_left (retain_step t) es (retained_value s t).
Proof.
  intros Hok Hes; revert s Hok; induction Hes as [|e es He _ IH]; intros s Hok; cbn [append_all].
  { intros [= <-]. split; [done|]. split; [|done]. intros t n _. by rewrite app_nil_r. }
  destruct (append into_writer cbor_message fault e s) as [[[]|x] s1] eqn:Ha; [|done]. intros Hall.
  pose proof (append_keeps e s Hok He) as Hok1. rewrite Ha in Hok1.
  destruct (append_spec _ _ _ Hok He Ha) as (t0 & payload & keep & ct & rt & ir & r & Hk & Hwf & Happ).
  destruct (IH s1 Hok1 Hall) as (Hok' & Hlog & Hret). split; [done|]. split.
  - intros t n Hn. rewrite Hlog by done. unfold of_topic. rewrite !List.filter_app.
    assert (window n (of_topic t (stored s1)) = window n (of_topic t (stored s ++ [e]))) as Hw.
    { eapply appended_log; [done| |done|done|done]. by rewrite Hk. }
    unfold of_topic in Hw. rewrite List.filter_app in Hw.
    rewrite <-window_app, Hw, window_app, <-app_assoc. f_equal. f_equal. rewrite <-List.filter_app. done.
  - intros t. rewrite Hret. simpl. f_equal. eapply appended_retained; done.
Qed.

(** C10: after any run of successful appends, however many
    prunings it went through, a restart reads back for every topic exactly the
    last [n] messages appended to it, in order, for every [n] up to the
    retention of 100,000, each topic once; and for every topic exactly the
    message its last [retain] publish left, none when that publish was empty. *)
Theorem persisted_log_reloads (es : list Envelope) (s s' : SqliteStore) (n : nat)
    (l : list (Topic * list Envelope)) (lr : list (Topic * Envelope)) :
  store_ok s → Forall envelope_ok es → append_all es s = Ok s' →
  (n ≤ Z.to_nat DEFAULT_PERSISTED_MESSAGES_PER_TOPIC)%nat →
  load_recent from_reader cbor_message topic_message fault n s' = Ok l →
  load_retained from_reader cbor_message topic_message fault s' = Ok lr →
  (NoDup l.*1 ∧ ∀ t es', (t, es') ∈ l ↔ es' = window n (of_topic t (stored s ++ es)) ∧ es' ≠ [])
  ∧ NoDup lr.*1 ∧ ∀ t e, (t, e) ∈ lr ↔ fold_left (retain_step t) es (retained_value s t) = Some e.
Proof.
  intros Hok Hes Hall Hn Hl Hlr. destruct (append_all_spec es s s' Hok Hes Hall) as (Hok' & Hlog & Hret).
  destruct (load_recent_spec _ _ _ Hok' Hl) as [Hnd Hin].
  destruct (load_retained_spec _ _ Hok' Hlr) as [Hndr Hinr]. split; split; try done.
  - intros t es'. by rewrite Hin, Hlog.
  - intros t e. by rewrite Hinr, Hret.
Qed.

(** ** Offsets and expiry *)

Lemma record_offset_conn p t i s :
  let '(res, s') := record_offset fault p t i s in
  s' = s ∧ is_ok res = false
  ∨ res = Ok () ∧ conn s' = set_offsets (upsert (PeerId.as_bytes p, Topic.as_str t)
      (MessageId.as_bytes i, now_ms s) (subscriber_offsets (conn s))) (conn s).
Proof.
  unfold record_offset, on_conn, execute. destruct (fault UpsertOffset (conn s)); simpl; [left|by right].
  by destruct s.
Qed.

Lemma record_offset_ok_spec p t i s :
  store_ok s → MessageId.wf i → store_ok (record_offset fault p t i s).2.
Proof.
  intros Hok Hi. pose proof (record_offset_conn p t i s) as Hc. destruct (record_offset fault p t i s) as [res s'].
  destruct Hc as [[-> _]|[_ Hc]]; [done|]. destruct Hok as (Hm & Ho & Hr). unfold store_ok. simpl. rewrite Hc. simpl.
  split; [done|]. split; [|done]. intros q [->|Hq]%elem_of_upsert; [|by apply Ho].
  split; [apply as_bytes_length|apply be_split_bytes].
Qed.

Lemma load_offset_spec p t s o :
  store_ok s → load_offset fault p t s = Ok o → o = position_of s p t.
Proof.
  intros (_ & Hoff & _). unfold load_offset, query, position_of. destruct (fault _ _); [done|]. simpl.
  destruct (select _ (subscriber_offsets (conn s))) as [[b ts]|] eqn:Hs; [|by intros [= <-]].
  apply elem_of_select in Hs. destruct (Hoff _ Hs) as [Hlen _]. simpl in Hlen. rewrite bool_decide_true by done.
  by intros [= <-].
Qed.

Lemma position_wf_spec s p t i : store_ok s → position_of s p t = Some i → MessageId.wf i.
Proof.
  intros (_ & Hoff & _). unfold position_of. intros ([b ts] & Hs & ->)%fmap_Some. apply elem_of_select in Hs.
  destruct (Hoff _ Hs) as [Hlen Hb]. simpl in *. unfold MessageId.wf, MessageId.from_bytes. simpl.
  pose proof (be_combine_bound b Hb) as Hbound. by rewrite Hlen in Hbound.
Qed.

Lemma record_offset_position p t i s s' :
  MessageId.wf i → PeerId.wf p → record_offset fault p t i s = (Ok (), s') →
  position_of s' p t = Some i
  ∧ ∀ p' t', PeerId.wf p' → (p', t') ≠ (p, t) → position_of s' p' t' = position_of s p' t'.
Proof.
  intros Hi Hp Hr. pose proof (record_offset_conn p t i s) as Hc. rewrite Hr in Hc.
  destruct Hc as [[_ ?]|[_ Hc]]; [done|]. unfold position_of. rewrite Hc. simpl. split.
  - rewrite select_upsert, decide_True by done. simpl. by rewrite MessageId_from_as_bytes.
  - intros p' t' Hp' Hne. rewrite select_upsert, decide_False; [done|]. intros Heq. apply Hne.
    pose proof (f_equal fst Heq) as Hb. pose proof (f_equal snd Heq) as Ht. simpl fst in Hb. simpl snd in Ht.
    apply topic_eq in Ht. f_equal; [|done]. by rewrite <-(PeerId_from_as_bytes p'), <-Hb, PeerId_from_as_bytes.
Qed.

Lemma expire_before_conn c s :
  store_ok s →
  let '(res, s') := expire_before from_reader cbor_message fault c s in
  s' = s ∧ is_ok res = false
  ∨ res = Ok (List.filter (λ r, (row_ts r <? c)%Z) (messages (conn s)) ≫= value)
    ∧ conn s' = sql_delete_expired c (conn s).
Proof.
  intros (Hok & _). unfold expire_before, on_conn, transaction.
  destruct (fault Begin (conn s)); [left; by destruct s|]. unfold query.
  destruct (fault SelectExpired (conn s)); [left; by destruct s|]. cbn [and_then]. unfold sql_expired.
  rewrite decode_all_values.
  2:{ intros r. rewrite list_elem_of_In, filter_In, <-list_elem_of_In. intros [Hr _]. by apply Hok. }
  unfold sql_bind, execute. destruct (fault DeleteExpired (conn s)); [left; by destruct s|].
  unfold sql_ret. destruct (fault Commit _); [left; by destruct s|by right].
Qed.

Lemma expire_before_spec c s l s' :
  store_ok s → expire_before from_reader cbor_message fault c s = (Ok l, s') →
  (∀ e, e ∈ stored s ↔ e ∈ l ∨ e ∈ stored s') ∧ position_of s' = position_of s ∧ retained_value s' = retained_value s.
Proof.
  intros Hok He. pose proof (expire_before_conn c s Hok) as Hc. rewrite He in Hc.
  destruct Hc as [[_ ?]|[[= ->] Hc]]; [done|]. unfold position_of, retained_value, stored. rewrite Hc. simpl.
  split; [|done]. intros e. rewrite !elem_of_values. split.
  - intros (r & Hr & Hv). destruct (row_ts r <? c)%Z eqn:Ht.
    + left. exists r. by rewrite list_elem_of_In, filter_In, <-list_elem_of_In.
    + right. exists r. by rewrite elem_of_retain, Ht.
  - intros [(r & Hr & Hv)|(r & Hr & Hv)]; exists r; (split; [|done]).
    + rewrite list_elem_of_In, filter_In, <-list_elem_of_In in Hr. apply Hr.
    + apply elem_of_retain in Hr. apply Hr.
Qed.

Lemma expire_before_ok_spec c s :
  store_ok s → store_ok (expire_before from_reader cbor_message fault c s).2.
Proof.
  intros Hok. pose proof (expire_before_conn c s Hok) as Hc.
  destruct (expire_before from_reader cbor_message fault c s) as [res s'].
  destruct Hc as [[-> _]|[_ Hc]]; [done|]. destruct Hok as (Hm & Ho & Hr). unfold store_ok. simpl. rewrite Hc. simpl.
  split; [|done]. intros r [Hr' _]%elem_of_retain. by apply Hm.
Qed.

(** ** The store implements the broker's interface *)

#[local] Instance sqlite : MessageStore := {|
  store_state := SqliteStore;
  MessageStore.append := append into_writer cbor_message fault;
  MessageStore.load_recent := load_recent from_reader cbor_message topic_message fault;
  MessageStore.load_retained := load_retained from_reader cbor_message topic_message fault;
  MessageStore.messages_since := messages_since from_reader cbor_message fault;
  MessageStore.load_offset := load_offset fault;
  MessageStore.record_offset := record_offset fault;
  MessageStore.expire_before := expire_before from_reader cbor_message fault;
|}.

Program Definition sqlite_laws : MessageStoreLaws :=
  Build_MessageStoreLaws sqlite store_ok stored resumable position_of retained_value
    (Z.to_nat DEFAULT_PERSISTED_MESSAGES_PER_TOPIC) _ _ _ _ _ _ _ _ _ _ _.
Next Obligation. intros s p t i. apply position_wf_spec. Qed.
Next Obligation. intros e s Hok Hi Ht. by apply append_keeps. Qed.
Next Obligation.
  intros e s s' Hok Hi Ht Ha. destruct (append_spec e s s' Hok (conj Hi Ht) Ha)
    as (t & payload & keep & ct & rt & ir & r & Hk & Hwf & Happ).
  destruct (appended_stored _ _ _ _ _ _ _ Hok Happ) as (H1 & H2 & H3 & H4).
  do 3 (split; [done|]). split.
  { intros t' n Hn. eapply appended_log; [done| |done|done|done]. by rewrite Hk. }
  split; [intros t'; by eapply appended_retained|]. split; [done|].
  destruct Happ as (_ & _ & _ & Ho & _). unfold position_of. by rewrite Ho.
Qed.
Next Obligation. intros n s l. apply load_recent_spec. Qed.
Next Obligation. intros s l. apply load_retained_spec. Qed.
Next Obligation. intros t after s l. apply messages_since_spec. Qed.
Next Obligation. intros p t s o. apply load_offset_spec. Qed.
Next Obligation. intros p t i s. apply record_offset_ok_spec. Qed.
Next Obligation.
  intros p t i s s' Hok Hi Hp Hr. pose proof (record_offset_conn p t i s) as Hc.
  destruct (record_offset_position p t i s s' Hi Hp Hr) as [Hpos Hoth].
  change (record_offset fault p t i s = (Ok (), s')) in Hr. rewrite Hr in Hc.
  destruct Hc as [[_ ?]|[_ Hc]]; [done|]. unfold stored, resumable, retained_value. rewrite Hc. done.
Qed.
Next Obligation. intros c s. apply expire_before_ok_spec. Qed.
Next Obligation. intros c s l s'. apply expire_before_spec. Qed.
End laws.

(** ** Witnesses *)

Module PersistenceSample.
Definition e (n : Z) (t : rstr) (payload : bytes) : Envelope := Sample.publish n t payload true.
Definition es : list Envelope := [e 1 (lit "b") [7%Z]; e 2 (lit "a") [8%Z]; e 3 (lit "b") []; e 4 (lit "b") [9%Z]; e 5 (lit "a") []].
Definition enc := Sample.encode es.
Definition dec := Sample.decode es.
Definition no_fault (_ : Statement) (_ : Db) : option io_error := None.
Definition empty : Db := MkDb false false [] [] [] [].
Definition opened : SqliteStore := MkSqliteStore (MkDb true true [] [] [] [(lit "schema_version", SCHEMA_VERSION)]) 0 0.
End PersistenceSample.

Lemma sample_opened_ok : store_ok PersistenceSample.dec PersistenceSample.opened.
Proof.
  split; [by intros r ?%not_elem_of_nil|]. split; [by intros p ?%not_elem_of_nil|]. split; [constructor|].
  by intros p ?%not_elem_of_nil.
Qed.

Lemma sample_envelopes_ok : Forall envelope_ok PersistenceSample.es.
Proof.
  unfold PersistenceSample.es. do 5 (apply Forall_cons; split; [split; [by vm_compute|intros t [= <-]; by vm_compute]|]).
  constructor.
Qed.

Lemma persisted_log_reloads_witness :
  open PersistenceSample.no_fault PersistenceSample.empty 0 = Ok PersistenceSample.opened
  ∧ ∃ s' l lr,
  append_all PersistenceSample.enc (λ _, []) PersistenceSample.no_fault PersistenceSample.es PersistenceSample.opened = Ok s'
  ∧ load_recent PersistenceSample.dec (λ _, []) (λ _, []) PersistenceSample.no_fault 2 s' = Ok l
  ∧ load_retained PersistenceSample.dec (λ _, []) (λ _, []) PersistenceSample.no_fault s' = Ok lr
  ∧ (Sample.topic (lit "b"), [PersistenceSample.e 3 (lit "b") []; PersistenceSample.e 4 (lit "b") [9%Z]]) ∈ l
  ∧ (Sample.topic (lit "b"), PersistenceSample.e 4 (lit "b") [9%Z]) ∈ lr.
Proof.
  split; [by vm_compute|].
  assert (is_ok (let? s' := append_all PersistenceSample.enc (λ _, []) PersistenceSample.no_fault PersistenceSample.es
      PersistenceSample.opened in
    let? l := load_recent PersistenceSample.dec (λ _, []) (λ _, []) PersistenceSample.no_fault 2 s' in
    load_retained PersistenceSample.dec (λ _, []) (λ _, []) PersistenceSample.no_fault s') = true) as Hok by by vm_compute.
  destruct (append_all PersistenceSample.enc (λ _, []) PersistenceSample.no_fault PersistenceSample.es PersistenceSample.opened)
    as [s'|] eqn:Hs'; [|done]. cbn [and_then] in Hok.
  destruct (load_recent PersistenceSample.dec (λ _, []) (λ _, []) PersistenceSample.no_fault 2 s') as [l|] eqn:Hl; [|done].
  destruct (load_retained PersistenceSample.dec (λ _, []) (λ _, []) PersistenceSample.no_fault s') as [lr|] eqn:Hlr; [|done].
  exists s'.
  exists l, lr.
  destruct (persisted_log_reloads PersistenceSample.enc PersistenceSample.dec (λ _, []) (λ _, [])
    PersistenceSample.no_fault (Sample.sample_codec PersistenceSample.es) PersistenceSample.es
    PersistenceSample.opened s' 2 l lr) as [[_ Hin] [_ Hret]]; [..|done|apply Nat.leb_le; by vm_compute|exact Hl|exact Hlr|].
  - apply sample_opened_ok.
  - apply sample_envelopes_ok.
  - do 3 (split; [done|]). split; [apply Hin; by vm_compute|apply Hret; by vm_compute].
Defined.
