(* ===== verification/Async.v ===== *)
(** * Asynchronous functions

    An [async fn] runs alone from one [await] to the next and may be
    interleaved with every other task at each. [Proc] is such a function over a
    shared state [W]: a sequence of atomic sections, each with the condition
    under which its [await] is ready. *)

From S2P Require Import Prelude.

Inductive Proc (W A : Type) : Type :=
| Ret (a : A)
| Act {X : Type} (ready : W → bool) (f : ST W X) (k : X → Proc W A).
Arguments Ret {W A} a.
Arguments Act {W A X} ready f k.

Fixpoint proc_bind {W A B} (g : A → Proc W B) (p : Proc W A) : Proc W B :=
  match p with
  | Ret a => g a
  | Act ready f k => Act ready f (λ x, proc_bind g (k x))
  end.
#[export] Instance Proc_ret W : MRet (Proc W) := λ A, Ret.
#[export] Instance Proc_bind W : MBind (Proc W) := λ A B g p, proc_bind g p.

(** Code without an [await]: one section, always ready. *)
Definition sync {W A} (f : ST W A) : Proc W A := Act (λ _, true) f Ret.

(** The function run with nobody interleaving: [None] when an [await] is not
    ready, so that it waits for another task. *)
Fixpoint run {W A} (p : Proc W A) (w : W) : option (A * W) :=
  match p with
  | Ret a => Some (a, w)
  | Act ready f k => if ready w then let '(x, w') := f w in run (k x) w' else None
  end.

Lemma run_bind {W A B} (p : Proc W A) (g : A → Proc W B) w :
  run (p ≫= g) w = run p w ≫= λ x, run (g x.1) x.2.
Proof.
  revert w; induction p as [a|X ready f k IH]; intros w; [done|]. cbn.
  destruct (ready w); [|done]. destruct (f w) as [x w']. apply IH.
Qed.

Lemma run_sync {W A} (f : ST W A) w : run (sync f) w = Some (f w).
Proof. unfold sync. cbn. by destruct (f w). Qed.

Lemma run_sync_bind {W A B} (f : ST W A) (g : A → Proc W B) w : run (sync f ≫= g) w = run (g (f w).1) (f w).2.
Proof. rewrite run_bind, run_sync. done. Qed.

Lemma run_ret_bind {W A B} (a : A) (g : A → Proc W B) w : run (mret a ≫= g) w = run (g a) w.
Proof. done. Qed.

(** ** Invariants under interleaving

    [I d w] relates the world to the obligations [d] of all the functions that
    are under way. [pays d p post]: a function that starts with the obligations
    [d] keeps [I] in each of its sections, whatever the others ([owed]) are at,
    ends with [post], and has only obligations that [park] allows wherever it
    may have to wait. *)
Section pays.
Context {W D : Type} (I : list D → W → Prop) (park : list D → Prop).

Definition keeps {X} (d d' : list D) (f : ST W X) (w : W) : Prop :=
  ∀ owed, I (d ++ owed) w → I (d' ++ owed) (f w).2.

Definition may_wait (ready : W → bool) : Prop := ∃ w, ready w = false.

Fixpoint pays {A} (d : list D) (p : Proc W A) (post : A → list D → Prop) : Prop :=
  match p with
  | Ret a => post a d
  | Act ready f k =>
      (may_wait ready → park d)
      ∧ ∀ w, ready w = true → ∃ d', keeps d d' f w ∧ pays d' (k (f w).1) post
  end.

Lemma pays_weaken {A} d (p : Proc W A) (post post' : A → list D → Prop) :
  (∀ a d', post a d' → post' a d') → pays d p post → pays d p post'.
Proof.
  intros Hpost. revert d; induction p as [a|X ready f k IH]; intros d; cbn; [apply Hpost|].
  intros [Hp Hk]. split; [done|]. intros w Hr. destruct (Hk w Hr) as (d' & Hd & Hk'). exists d'. split; [done|].
  by apply IH.
Qed.

Lemma pays_bind_rel {A B} d (p : Proc W A) (g : A → Proc W B) mid post :
  pays d p mid → (∀ a d', mid a d' → pays d' (g a) post) → pays d (p ≫= g) post.
Proof.
  revert d; induction p as [a|X ready f k IH]; intros d; cbn.
  - intros Hm Hg. by apply Hg.
  - intros [Hp Hk] Hg. split; [done|]. intros w Hr. destruct (Hk w Hr) as (d' & Hd & Hk'). exists d'.
    split; [done|]. by apply IH.
Qed.

(** The obligations afterwards, when the answer determines them. *)
Definition leaves {A} (mid : A → list D) : A → list D → Prop := λ a d, d = mid a.

Lemma pays_bind {A B} d (p : Proc W A) (g : A → Proc W B) mid post :
  pays d p (leaves mid) → (∀ a, pays (mid a) (g a) post) → pays d (p ≫= g) post.
Proof. intros Hp Hg. eapply pays_bind_rel; [exact Hp|]. intros a d' ->. apply Hg. Qed.

Lemma pays_then {A B} d d' (p : Proc W A) (g : A → Proc W B) post :
  pays d p (leaves (λ _, d')) → (∀ a, pays d' (g a) post) → pays d (p ≫= g) post.
Proof. intros Hp Hg. by eapply pays_bind. Qed.

(** A section without an [await] may look at the invariant to see what it
    answers. *)
Lemma pays_sync {A} d (f : ST W A) mid :
  (∀ w, keeps d (mid (f w).1) f w) → pays d (sync f) (leaves mid).
Proof. intros Hf. split; [by intros [w Hw]|]. intros w _. exists (mid (f w).1). done. Qed.

(** Run alone. *)
Lemma run_pays {A} d (p : Proc W A) post w a w' owed :
  pays d p post → run p w = Some (a, w') → I (d ++ owed) w → ∃ d', post a d' ∧ I (d' ++ owed) w'.
Proof.
  revert d w; induction p as [b|X ready f k IH]; intros d w; cbn.
  - intros Hp [= <- <-] HI. eauto.
  - intros [_ Hk] Hr HI. destruct (ready w) eqn:Hw; [|done]. destruct (Hk w Hw) as (d' & Hd & Hk').
    specialize (Hd owed HI). destruct (f w) as [x w1]. cbn in *. eauto.
Qed.

(** The functions under way and the world. *)
Context {A : Type} (starts : Proc W A → Prop) (other exclusive : W → W → Prop).

Definition parked (p : Proc W A) : Prop :=
  match p with Ret _ => True | Act ready _ _ => may_wait ready end.

(** One of them takes its next section, a new one starts, one is aborted where
    it waits (or is done), something else happens, or something that excludes
    the others' sections does. *)
Inductive sched_step : list (Proc W A) * W → list (Proc W A) * W → Prop :=
| SchedRun ps1 ps2 X ready (f : ST W X) k w :
    ready w = true → sched_step (ps1 ++ Act ready f k :: ps2, w) (ps1 ++ k (f w).1 :: ps2, (f w).2)
| SchedStart ps p w : starts p → sched_step (ps, w) (p :: ps, w)
| SchedAbort ps1 p ps2 w : parked p → sched_step (ps1 ++ p :: ps2, w) (ps1 ++ ps2, w)
| SchedOther ps w w' : other w w' → sched_step (ps, w) (ps, w')
| SchedExclusive ps w w' : Forall parked ps → exclusive w w' → sched_step (ps, w) (ps, w').

Inductive sched : list (Proc W A) * W → list (Proc W A) * W → Prop :=
| SchedRefl s : sched s s
| SchedTrans s s' s'' : sched s s' → sched_step s' s'' → sched s s''.

Context (I_perm : ∀ d d' w, d ≡ₚ d' → I d w → I d' w).
Context (I_forgive : ∀ d owed w, park d → I (d ++ owed) w → I owed w).
Context (starts_pay : ∀ p, starts p → pays [] p (λ _, park)).
Context (other_keeps : ∀ d w w', other w w' → I d w → I d w').
Context (exclusive_keeps : ∀ d w w', exclusive w w' → (∃ ds, d = concat ds ∧ Forall park ds) → I d w → I d w').

Definition sched_ok (s : list (Proc W A) * W) : Prop :=
  ∃ ds, Forall2 (λ d p, pays d p (λ _, park)) ds s.1 ∧ I (concat ds) s.2.

Lemma pays_parked d (p : Proc W A) : pays d p (λ _, park) → parked p → park d.
Proof. destruct p; cbn; [done|by intros [? _]]. Qed.

Lemma concat_middle (ds1 ds2 : list (list D)) d : concat (ds1 ++ d :: ds2) ≡ₚ d ++ concat (ds1 ++ ds2).
Proof. rewrite !concat_app. cbn. apply Permutation_app_swap_app. Qed.

Lemma sched_step_ok s s' : sched_step s s' → sched_ok s → sched_ok s'.
Proof.
  intros Hs (ds & Hds & HI); revert Hds HI; destruct Hs as [ps1 ps2 X ready f k w Hr|ps p w Hp|ps1 p ps2 w Hp|ps w w' Ho|ps w w' Hp Ho];
    cbn [fst snd]; intros Hds HI.
  - apply Forall2_app_inv_r in Hds as (ds1 & ds2' & H1 & H2 & ->).
    apply Forall2_cons_inv_r in H2 as (d & ds2 & [_ Hk] & H2 & ->).
    destruct (Hk w Hr) as (d' & Hkeep & Hk'). exists (ds1 ++ d' :: ds2). cbn. split.
    + apply Forall2_app; [done|]. by constructor.
    + eapply I_perm; [symmetry; apply concat_middle|]. apply Hkeep. eapply I_perm; [apply concat_middle|done].
  - exists ([] :: ds). split; [|done]. constructor; [by apply starts_pay|done].
  - apply Forall2_app_inv_r in Hds as (ds1 & ds2' & H1 & H2 & ->).
    apply Forall2_cons_inv_r in H2 as (d & ds2 & Hd & H2 & ->).
    exists (ds1 ++ ds2). split; [by apply Forall2_app|]. eapply I_forgive; [by eapply pays_parked|].
    eapply I_perm; [apply concat_middle|done].
  - exists ds. split; [done|]. by eapply other_keeps.
  - exists ds. split; [done|]. eapply exclusive_keeps; [done| |done]. exists ds. split; [done|].
    clear -Hds Hp. induction Hds as [|d p ds ps Hd Hds IH]; [done|]. inversion Hp; subst.
    constructor; [by eapply pays_parked|by apply IH].
Qed.

Lemma sched_all_ok s s' : sched s s' → sched_ok s → sched_ok s'.
Proof. induction 1; eauto using sched_step_ok. Qed.

(** What holds of every reachable world: the invariant without obligations,
    whenever every function waits. *)
Lemma sched_invariant w ps w' :
  I [] w → sched ([], w) (ps, w') → Forall parked ps → I [] w'.
Proof.
  intros Hw Hs Hp. destruct (sched_all_ok _ _ Hs) as (ds & Hds & HI).
  { exists []. split; [constructor|done]. }
  cbn [fst snd] in *. clear Hs. induction Hds as [|d p ds ps Hd Hds IH]; [done|]. inversion Hp; subst.
  apply IH; [done|]. eapply I_forgive; [by eapply pays_parked|done].
Qed.
End pays.

(** [p] run alone for at most [fuel] sections, up to where it has to wait. *)
Fixpoint advance {W A} (fuel : nat) (p : Proc W A) (w : W) : Proc W A * W :=
  match fuel, p with
  | S fuel', Act ready f k => if ready w then advance fuel' (k (f w).1) (f w).2 else (p, w)
  | _, _ => (p, w)
  end.
Definition stuck {W A} (p : Proc W A) (w : W) : bool :=
  match p with Ret _ => true | Act ready _ _ => negb (ready w) end.

Lemma stuck_parked {W A} (p : Proc W A) w : stuck p w = true → parked p.
Proof. destruct p; cbn; [done|]. intros Hr%negb_true_iff. by exists w. Qed.

Section advance.
Context {W A : Type} (starts : Proc W A → Prop) (other exclusive : W → W → Prop).

Lemma sched_trans s s' s'' :
  sched starts other exclusive s s' → sched starts other exclusive s' s'' → sched starts other exclusive s s''.
Proof. intros Hs Hs'. revert Hs. induction Hs' as [|s1 s2 s3 Hs' IH Hstep]; intros Hs; [done|]. eapply SchedTrans; [by apply IH|done]. Qed.

Lemma sched_advance fuel ps1 p ps2 w :
  sched starts other exclusive (ps1 ++ p :: ps2, w) (ps1 ++ (advance fuel p w).1 :: ps2, (advance fuel p w).2).
Proof.
  revert p w; induction fuel as [|fuel IH]; intros p w; [constructor|].
  destruct p as [a|X ready f k]; [constructor|]. cbn. destruct (ready w) eqn:Hr; [|constructor].
  eapply sched_trans; [|apply IH]. eapply SchedTrans; [constructor|]. by constructor.
Qed.
End advance.
