(* ===== verification/Publishing.v ===== *)
(** * Publishes that overlap ([Broker::publish] section by section)

    [Broker.publish] is the whole method as one step. The method gives way at
    its locks and while the store writes, so publishes of several connections
    overlap: [publish_task] is the same code as a sequence of critical sections,
    which run alone is that step. The guard on the patterns is a read guard, so
    other publishes run between its channels too. *)

From S2P Require Import Prelude.
From S2P Require Import Text.
From S2P Require Import Topic.
From S2P Require Import Filter.
From S2P Require Import Runtime.
From S2P Require Import Message.
From S2P Require Import SeenIds.
From S2P Require Import TopicChannel.
From S2P Require Import TopicMap.
From S2P Require Import Groups.
From S2P Require Import MessageStore.
From S2P Require Import Persistence.
From S2P Require Import Broker.
From S2P Require Import BrokerSpec.
From S2P Require Import Async.

#[local] Open Scope nat_scope.

Section publishing.
Context `{Broadcast Envelope} `{Mpsc Envelope} `{MessageStore}.

#[local] Abbreviation Shared := (Broker * mpsc_store Envelope)%type.

Definition on_broker_of {A} (f : ST Broker A) : ST Shared A := λ '(b, chans), let '(a, b') := f b in (a, (b', chans)).

(** The lock on the seen identifiers, and the counter. *)
Definition mark_seen (e : Envelope) : ST Broker bool := λ b,
  let '(is_new, seen1) := SeenIds.record (id e) (b_seen b) in
  (is_new, set_seen seen1 (if is_new : bool then fetch_add 1 (b_messages_published b) else b_messages_published b) b).

Definition group_section (topic : Topic) (e : Envelope) (now : Z) : ST Shared nat := λ '(b, chans),
  let '((n, g), chans1) := publish_groups topic now e (b_groups b) chans in (n, (set_groups g b, chans1)).

(** The method inside a larger state [W], of which [on_shared] is the broker and
    the channels and [clock] the time. *)
Section sections.
Context {W : Type} (on_shared : ∀ A, ST Shared A → ST W A) (clock : W → Z).

Fixpoint publish_each (topic : Topic) (e : Envelope) (patterns : list (TopicFilter * nat)) : Proc W nat :=
  match patterns with
  | [] => mret 0
  | (filter, arc) :: patterns' =>
      n ← (if matches filter topic then sync (on_shared _ (on_broker_of (on_channel 0 arc (TopicChannel.publish e false)))) else mret 0);
      n' ← publish_each topic e patterns';
      mret (n + n')
  end.

Definition publish_sections (topic : Topic) (e : Envelope) : Proc W nat :=
  is_new ← sync (on_shared _ (on_broker_of (mark_seen e)));
  if negb (is_new : bool) then mret 0
  else
    _ ← sync (on_shared _ (on_broker_of (modify (persist e))));
    exact_channel ← sync (on_shared _ (on_broker_of (topic_channel topic)));
    delivered ← sync (on_shared _ (on_broker_of (on_channel 0 exact_channel (TopicChannel.publish e (is_retain e)))));
    patterns ← sync (on_shared _ (on_broker_of (gets (λ b, iter (b_patterns b)))));
    n ← publish_each topic e patterns;
    n' ← sync (λ w, on_shared _ (group_section topic e (clock w)) w);
    mret (delivered + n + n').
End sections.

Definition publish_task (topic : Topic) (e : Envelope) (now : Z) : Proc Shared nat :=
  publish_sections (λ A f, f) (λ _, now) topic e.
#[local] Abbreviation each_task := (publish_each (λ A f, f)).

(** ** Alone *)

Lemma on_broker_of_snd {A} (f : ST Broker A) b chans : on_broker_of f (b, chans) = ((f b).1, ((f b).2, chans)).
Proof. unfold on_broker_of. by destruct (f b). Qed.

Lemma run_on_broker_of {A B} (f : ST Broker A) (g : A → Proc Shared B) b chans :
  run (sync (on_broker_of f) ≫= g) (b, chans) = run (g (f b).1) ((f b).2, chans).
Proof. by rewrite run_sync_bind, on_broker_of_snd. Qed.

(** Inside a larger state: [get] and [set] are its lens. *)
Section inside.
Context {W : Type} (on_shared : ∀ A, ST Shared A → ST W A) (clock : W → Z) (get : W → Shared) (set : Shared → W → W).
Context (on_shared_eq : ∀ A (f : ST Shared A) w, on_shared A f w = ((f (get w)).1, set (f (get w)).2 w)).
Context (get_set : ∀ s w, get (set s w) = s) (set_set : ∀ s s' w, set s (set s' w) = set s w) (set_get : ∀ w, set (get w) w = w)
  (clock_set : ∀ s w, clock (set s w) = clock w).

Lemma run_inside {A B} (f : ST Broker A) (g : A → Proc W B) b chans w :
  run (sync (on_shared _ (on_broker_of f)) ≫= g) (set (b, chans) w) = run (g (f b).1) (set ((f b).2, chans) w).
Proof. by rewrite run_sync_bind, on_shared_eq, get_set, on_broker_of_snd, set_set. Qed.

Lemma run_publish_each t e l b chans w :
  run (publish_each on_shared t e l) (set (b, chans) w)
  = Some ((publish_patterns t e l b).1, set ((publish_patterns t e l b).2, chans) w).
Proof.
  revert b; induction l as [|[f a] l IH]; intros b; [done|]. cbn [publish_each publish_patterns]. rewrite st_bind, run_bind.
  set (one := if matches f t then on_channel 0 a (TopicChannel.publish e false) else mret 0).
  assert (run (if matches f t then sync (on_shared _ (on_broker_of (on_channel 0 a (TopicChannel.publish e false)))) else mret 0)
      (set (b, chans) w) = Some ((one b).1, set ((one b).2, chans) w)) as ->.
  { unfold one. destruct (matches f t); [|done]. by rewrite run_sync, on_shared_eq, get_set, on_broker_of_snd, set_set. }
  cbn [mbind option_bind fst snd]. rewrite run_bind, IH, st_bind. done.
Qed.

(** With nobody in between it is [Broker.publish]. *)
Lemma run_publish_sections t e w :
  run (publish_sections on_shared clock t e) w
  = Some ((Broker.publish t e (clock w) (get w)).1, set (Broker.publish t e (clock w) (get w)).2 w).
Proof.
  rewrite <-(set_get w) at 1. destruct (get w) as [b chans]. unfold publish_sections, Broker.publish. rewrite run_inside.
  unfold mark_seen. destruct (SeenIds.record (id e) (b_seen b)) as [[] seen1]; cbn [fst snd negb]; [|done].
  rewrite !run_inside. cbn [modify gets fst snd]. set (b1 := persist e _).
  rewrite run_bind, run_publish_each. cbn [mbind option_bind fst snd].
  rewrite run_sync_bind, on_shared_eq, get_set, set_set, clock_set. unfold group_section, publish_channels. rewrite !st_bind.
  cbn [fst snd get_st]. set (x := publish_patterns _ _ _ _). destruct x as [n b2]. cbn [fst snd mret ST_ret].
  by destruct (publish_groups t (clock w) e (b_groups b2) chans) as [[n' g] chans1].
Qed.
End inside.

Lemma run_publish_task t e now s : run (publish_task t e now) s = Some (Broker.publish t e now s).
Proof.
  unfold publish_task. rewrite (run_publish_sections _ _ (λ s, s) (λ s _, s)); try done.
  - by destruct (Broker.publish t e now s).
  - intros A f w. by destruct (f w).
Qed.

(** ** Overlapping

    What the publishes [l], each with its topic, come to for the subscription
    [r] to [f], with [q] unread at the start: a task owes the recording of its
    identifier at first, and then the copies it is still to put on [r]'s
    channel. *)

Context `{!BroadcastLaws Envelope}.

Inductive Debt : Type :=
| Unrecorded (i : MessageId)
| Undelivered (e : Envelope).

Definition undelivered (d : list Debt) : list Envelope := d ≫= λ x, match x with Undelivered e => [e] | Unrecorded _ => [] end.

Lemma undelivered_app d d' : undelivered (d ++ d') = undelivered d ++ undelivered d'.
Proof. apply bind_app. Qed.
Lemma undelivered_copies es : undelivered (Undelivered <$> es) = es.
Proof. induction es as [|e es IH]; [done|]. by apply (f_equal (cons e)). Qed.
Lemma undelivered_perm d d' : d ≡ₚ d' → undelivered d ≡ₚ undelivered d'.
Proof. intros Hd. unfold undelivered. by rewrite Hd. Qed.

Section overlap.
Context (f : TopicFilter) (r : Receiver) (q : list Envelope) (l : list (Topic * Envelope)) (base : list MessageId) (cap : nat).

Definition ids : list MessageId := (λ p : Topic * Envelope, id p.2) <$> l.
(** The copies of the message with this identifier. *)
Definition copy (i : MessageId) : list Envelope :=
  match list_find (λ p : Topic * Envelope, id p.2 = i) l with Some (_, p) => gives p.1 p.2 f | None => [] end.

Definition delivering (owed : list Debt) (s : Shared) : Prop :=
  wf s.1 ∧ sub_arc s.1 f = Some r.1 ∧ SeenIds.capacity (b_seen s.1) = cap
  ∧ (∀ i, i ∈ ids → i ∈ SeenIds.order (b_seen s.1) ∨ Unrecorded i ∈ owed)
  ∧ ∃ acc got, SeenIds.order (b_seen s.1) = base ++ acc ∧ acc ⊆ ids
      ∧ queue s.1 r = Some (q ++ got) ∧ got ++ undelivered owed ≡ₚ acc ≫= copy.

Context (Hunique : ∀ p p', p ∈ l → p' ∈ l → id p.2 = id p'.2 → p = p').
Context (Hroom : length base + length l ≤ cap).

Lemma copy_of t e : (t, e) ∈ l → copy (id e) = gives t e f.
Proof.
  intros Hin. unfold copy. destruct (list_find _ l) as [[n p]|] eqn:Hf.
  - apply list_find_Some in Hf as (Hp & Hid & _). apply list_elem_of_lookup_2 in Hp. by rewrite (Hunique _ _ Hp Hin Hid).
  - apply list_find_None in Hf. rewrite Forall_forall in Hf. by destruct (Hf (t, e) Hin).
Qed.

Lemma delivering_perm d d' s : d ≡ₚ d' → delivering d s → delivering d' s.
Proof.
  intros Hd (Hwf & Ha & Hc & Hi & acc & got & Ho & Hs & Hq & Hg). split; [done|]. split; [done|]. split; [done|]. split.
  - intros i Hin. rewrite <-Hd. by apply Hi.
  - exists acc, got. split; [done|]. split; [done|]. split; [done|]. by rewrite <-(undelivered_perm d d').
Qed.

(** A section that delivers [g] and forgets as much. *)
Lemma delivering_effect d d' owed s s' :
  (∀ i, Unrecorded i ∉ d) →
  (wf s.1 → sub_arc s.1 f = Some r.1 → is_Some (queue s.1 r) →
     b_seen s'.1 = b_seen s.1 ∧ ∃ g, effect g s.1 s'.1 ∧ undelivered d ≡ₚ g f ++ undelivered d') →
  delivering (d ++ owed) s → delivering (d' ++ owed) s'.
Proof.
  intros Hd Hs (Hwf & Ha & Hc & Hi & acc & got & Ho & Hsub & Hq & Hg). destruct (Hs Hwf Ha (mk_is_Some _ _ Hq)) as (Hseen & g & [Hwf' He] & Hu).
  destruct (He f r _ Ha Hq) as [Ha' Hq']. split; [done|]. split; [done|]. rewrite Hseen. split; [done|]. split.
  - intros i [Hin|[Hin|Hin]%elem_of_app]%Hi; [by left|by destruct (Hd i)|]. right. apply elem_of_app. by right.
  - exists acc, (got ++ g f). split; [done|]. split; [done|]. split; [by rewrite app_assoc|]. rewrite <-Hg, !undelivered_app, Hu.
    by rewrite !app_assoc.
Qed.

Lemma delivering_mark_seen t e owed b chans :
  (t, e) ∈ l → delivering (Unrecorded (id e) :: owed) (b, chans) →
  delivering ((if (mark_seen e b).1 then Undelivered <$> gives t e f else []) ++ owed) ((mark_seen e b).2, chans).
Proof.
  intros Hin (Hwf & Ha & Hc & Hi & acc & got & Ho & Hsub & Hq & Hg). cbn [fst snd] in *.
  pose proof Hwf as (_ & _ & _ & Hs & Hcap). pose proof Hs as (Hnd & _).
  unfold mark_seen. pose proof (record_seen (id e) _ Hs) as Hr. pose proof (record_order (id e) _ Hs) as [Ho' Hc'].
  pose proof (seen_record_wf (id e) _ Hs) as Hs'. destruct (SeenIds.record (id e) (b_seen b)) as [new seen1]. cbn [fst snd] in *.
  assert (BrokerSpec.keeps b (set_seen seen1 (if new then fetch_add 1 (b_messages_published b) else b_messages_published b) b)) as Hk.
  { apply same_maps_keeps; try done. cbn. by rewrite Hc'. }
  set (b' := set_seen _ _ _) in *. destruct Hk as [Hwf' Hk]. destruct (Hk f r _ Ha Hq) as [Ha' Hq']. rewrite app_nil_r in Hq'.
  assert (b_seen b' = seen1) as Hb' by done. split; [done|]. split; [done|]. cbn [fst]. rewrite Hb', Hc'. split; [done|].
  destruct (decide (id e ∈ SeenIds.order (b_seen b))) as [Hseen|Hnew].
  - rewrite bool_decide_true in Hr by done. subst new. cbn. rewrite Ho'. split.
    + intros i [?|[[= ->]|?]%elem_of_cons]%Hi; [by left|by left|by right].
    + exists acc, got. by split.
  - rewrite bool_decide_false in Hr by done. subst new. cbn [negb].
    assert (SeenIds.order seen1 = base ++ acc ++ [id e]) as Hseen1.
    { rewrite Ho', app_assoc, <-Ho. apply window_all. rewrite Ho in Hnd, Hnew |- *. rewrite !length_app. cbn.
      assert (length (acc ++ [id e]) ≤ length ids) as Hle.
      { apply submseteq_length, NoDup_submseteq.
        - apply NoDup_app in Hnd as (_ & _ & Hnd). apply NoDup_app. split; [done|]. split; [|apply NoDup_singleton].
          intros i Hacc ->%list_elem_of_singleton. apply Hnew, elem_of_app. by right.
        - intros i [Hacc| ->%list_elem_of_singleton]%elem_of_app; [by apply Hsub|]. unfold ids.
          by apply (list_elem_of_fmap_2 (λ p : Topic * Envelope, id p.2) l (t, e)). }
      unfold ids in Hle. rewrite length_fmap, length_app in Hle. cbn in Hle. lia. }
    rewrite Hseen1. split.
    + intros i Hid. rewrite app_assoc, <-Ho, elem_of_app, list_elem_of_singleton.
      destruct (Hi i Hid) as [?|[[= ->]|?]%elem_of_cons]; [by left; left|by left; right|]. right. apply elem_of_app. by right.
    + exists (acc ++ [id e]), got. split; [done|]. split; [|split; [done|]].
      * intros i [Hacc| ->%list_elem_of_singleton]%elem_of_app; [by apply Hsub|].
        by apply (list_elem_of_fmap_2 (λ p : Topic * Envelope, id p.2) l (t, e)).
      * rewrite undelivered_app, undelivered_copies, bind_app. cbn. rewrite app_nil_r, (copy_of t e Hin), <-Hg.
        change (undelivered (Unrecorded (id e) :: owed)) with (undelivered owed).
        rewrite <-(assoc_L (++)). by rewrite (Permutation_app_comm (gives t e f)), (assoc_L (++)).
Qed.

(** What is owed by a task that has the channel of its topic, and by one with
    these patterns left. *)
Definition owed_pattern (t : Topic) (e : Envelope) : list Envelope :=
  match as_topic f with Some _ => [] | None => if matches f t then [e] else [] end.
Definition owed_exact (e : Envelope) (arc : nat) : list Envelope := if decide (r.1 = arc) then [e] else [].
Definition owed_patterns (t : Topic) (e : Envelope) (ps : list (TopicFilter * nat)) : list Envelope :=
  ps ≫= λ p, if matches p.1 t && bool_decide (p.2 = r.1) then [e] else [].

Lemma owed_patterns_cons t e g a ps :
  owed_patterns t e ((g, a) :: ps) = (if matches g t && bool_decide (a = r.1) then [e] else []) ++ owed_patterns t e ps.
Proof. done. Qed.

Lemma owed_patterns_absent t e (ps : list (TopicFilter * nat)) : r.1 ∉ ps.*2 → owed_patterns t e ps = [].
Proof.
  induction ps as [|[g a] ps IH]; [done|]. rewrite owed_patterns_cons. intros [Ha Hn]%not_elem_of_cons. cbn [snd] in Ha.
  rewrite bool_decide_false by congruence. rewrite andb_false_r. by apply IH.
Qed.

Lemma owed_patterns_one t e g (ps : list (TopicFilter * nat)) :
  NoDup ps.*2 → (g, r.1) ∈ ps → owed_patterns t e ps = if matches g t then [e] else [].
Proof.
  induction ps as [|[g' a] ps IH]; [by intros _ ?%not_elem_of_nil|]. rewrite owed_patterns_cons. intros [Ha Hnd]%NoDup_cons Hin.
  cbn [snd] in Ha. apply elem_of_cons in Hin as [Heq|Hin].
  - injection Heq as <- <-. rewrite bool_decide_true by done. rewrite andb_true_r, owed_patterns_absent by exact Ha. by rewrite app_nil_r.
  - rewrite bool_decide_false; [rewrite andb_false_r; by apply IH|]. intros ->. apply Ha. by apply (list_elem_of_fmap_2 snd ps (g, r.1)).
Qed.

(** The snapshot of the patterns. *)
Lemma owed_snapshot t e b : wf b → sub_arc b f = Some r.1 → owed_patterns t e (iter (b_patterns b)) = owed_pattern t e.
Proof.
  intros Hwf Ha. pose proof (patterns_arcs_NoDup b Hwf) as Hnd. destruct Hwf as (_ & _ & Hdis & _). unfold sub_arc in Ha. unfold owed_pattern.
  destruct (as_topic f) as [t'|].
  - apply owed_patterns_absent. intros ([g a] & Heq & Hin)%list_elem_of_fmap. cbn in Heq. subst a. apply elem_of_map_to_list in Hin. by eapply Hdis.
  - apply owed_patterns_one; [done|]. by apply elem_of_map_to_list.
Qed.

Lemma gives_split t e : gives t e f = match as_topic f with Some t' => if decide (t' = t) then [e] else [] | None => [] end ++ owed_pattern t e.
Proof. unfold gives, owed_pattern. destruct (as_topic f); [by rewrite app_nil_r|done]. Qed.

#[local] Abbreviation I := delivering.
#[local] Abbreviation done_owing := (λ d : list Debt, d = []).
Definition copies (es : list Envelope) : list Debt := Undelivered <$> es.

Lemma no_record es i : Unrecorded i ∉ copies es.
Proof. by intros (e & He & _)%list_elem_of_fmap. Qed.

(** One publish on one channel. *)
Lemma keeps_channel es es' e keep arc w :
  (∀ b, wf b → sub_arc b f = Some r.1 → es = (if decide (r.1 = arc) then [e] else []) ++ es') →
  Async.keeps I (copies es) (copies es') (on_broker_of (on_channel 0 arc (TopicChannel.publish e keep))) w.
Proof.
  destruct w as [b chans]. intros Hes owed. rewrite on_broker_of_snd. cbn [snd]. apply delivering_effect; [apply no_record|].
  cbn [fst]. intros Hwf Ha _. split; [apply on_channel_fields|]. eexists. split; [by apply on_channel_effect, publish_extends|].
  unfold copies. rewrite !undelivered_copies, (Hes b Hwf Ha), Ha. cbn. destruct (decide (r.1 = arc)), (decide (Some r.1 = Some arc)); naive_solver.
Qed.

Lemma keeps_unread {A} es (g : ST Broker A) w :
  (∀ b, wf b → b_seen (g b).2 = b_seen b ∧ BrokerSpec.keeps b (g b).2) →
  Async.keeps I (copies es) (copies es) (on_broker_of g) w.
Proof.
  destruct w as [b chans]. intros Hg owed. rewrite on_broker_of_snd. cbn [snd]. apply delivering_effect; [apply no_record|].
  cbn [fst]. intros Hwf _ _. destruct (Hg b Hwf) as [Hs Hk]. split; [done|]. by eexists.
Qed.

Lemma pays_each t e ps :
  pays I done_owing (copies (owed_patterns t e ps)) (each_task t e ps) (leaves (λ _, [])).
Proof.
  induction ps as [|[g a] ps IH]; [done|]. cbn [publish_each]. rewrite owed_patterns_cons.
  apply (pays_then I done_owing _ (copies (owed_patterns t e ps))).
  - destruct (matches g t); cbn [andb]; [|done]. apply pays_sync. intros w. apply keeps_channel. intros b Hwf Ha.
    f_equal. destruct (decide (r.1 = a)) as [->|Hne]; [by rewrite bool_decide_true|]. by rewrite bool_decide_false by congruence.
  - intros n. by eapply pays_then; [exact IH|].
Qed.

Lemma pays_publish_task t e now :
  (t, e) ∈ l → pays I done_owing [Unrecorded (id e)] (publish_task t e now) (λ _, done_owing).
Proof.
  intros Hin. unfold publish_task, publish_sections.
  apply (pays_bind I done_owing _ _ _ (λ new : bool, if new then copies (gives t e f) else [])).
  { apply pays_sync. intros [b chans] owed Hd. rewrite on_broker_of_snd. cbn [fst snd]. by apply delivering_mark_seen. }
  intros []; cbn [negb]; [|done]. eapply pays_then.
  { apply pays_sync. intros w. apply keeps_unread. intros b Hwf. cbn [modify snd]. destruct (persist_fields e b) as (? & ? & ? & _ & Hs & _).
    split; [done|]. pose proof Hwf as (_ & _ & _ & Hse & Hcap). by apply same_maps_keeps; rewrite ?Hs. }
  intros _. eapply (pays_bind I done_owing _ _ _ (λ arc, copies (owed_exact e arc ++ owed_pattern t e))).
  { apply pays_sync. intros [b chans] owed. rewrite on_broker_of_snd. cbn [fst snd]. apply delivering_effect; [apply no_record|].
    cbn [fst]. intros Hwf Ha [q0 Hq]. pose proof (topic_channel_spec t b Hwf) as Hs. destruct (topic_channel t b) as [arc b1]. cbn [fst snd].
    destruct Hs as (Hk & (_ & Htop & Hpat) & Hpe & _ & _ & Hse & _). split; [done|]. exists (λ _, []). split; [done|].
    unfold copies. rewrite !undelivered_copies, gives_split. cbn. f_equiv. unfold owed_exact.
    destruct (proj2 Hk f r q0 Ha Hq) as [Ha1 _]. unfold sub_arc in Ha1. destruct (as_topic f) as [t'|].
    - specialize (Htop t' r.1 Ha1). by destruct (decide (t' = t)), (decide (r.1 = arc)); try tauto.
    - rewrite decide_False; [done|]. by eapply Hpat. }
  intros arc. eapply (pays_then I done_owing _ (copies (owed_pattern t e))).
  { apply pays_sync. intros w. by apply keeps_channel. }
  intros n. eapply (pays_bind I done_owing _ _ _ (λ ps, copies (owed_patterns t e ps))).
  { apply pays_sync. intros [b chans] owed. rewrite on_broker_of_snd. cbn [fst snd]. apply delivering_effect; [apply no_record|].
    cbn [fst gets snd]. intros Hwf Ha _. split; [done|]. exists (λ _, []). split; [by apply keeps_refl|]. unfold copies. by rewrite !undelivered_copies, owed_snapshot. }
  intros ps. eapply pays_then; [apply pays_each|]. intros n'. eapply (pays_then I done_owing _ []); [|done].
  apply pays_sync. intros [b chans] owed. unfold group_section. destruct (publish_groups t now e (b_groups b) chans) as [[k g] chans1].
  cbn [snd]. apply (delivering_effect [] []); [by intros i ?%not_elem_of_nil|]. cbn [fst]. intros Hwf _ _. split; [done|].
  eexists. split; [by apply groups_keeps|]. done.
Qed.
End overlap.

(** Anything but another publish, while they run. *)
Definition meanwhile (r : Receiver) (s s' : Shared) : Prop :=
  ∃ o, (∀ t e now, o ≠ OpPublish t e now) ∧ spares r o s ∧ s' = exec o s.

Lemma exec_seen o s : (∀ t e now, o ≠ OpPublish t e now) → b_seen (exec o s).1 = b_seen s.1.
Proof.
  destruct s as [b chans]. intros Ho.
  assert (∀ t b, b_seen (topic_channel t b).2 = b_seen b) as Ht.
  { intros t b0. unfold topic_channel. by destruct (get_or_insert _ _ _ _) as [arc [[m h] ev]]. }
  assert (∀ A (x : A) arc op b, b_seen (on_channel x arc op b).2 = b_seen b) as Hc by (intros; apply on_channel_fields).
  assert (∀ f b, b_seen (subscribe f b).2 = b_seen b) as Hs.
  { intros f b0. unfold subscribe. destruct (as_topic f) as [t|]; rewrite !st_bind; cbn [get_st fst snd mret ST_ret]; rewrite Hc; [apply Ht|].
    unfold pattern_channel. by destruct (get_or_insert _ _ _ _) as [arc [[m h] ev]]. }
  destruct o; cbn [exec fst].
  - by destruct (Ho t e now).
  - apply Hs.
  - unfold subscribe_durable. destruct (as_topic f); [|done]. destruct (b_store b); [|done]. destruct (read_position _ _ _) as [[last c]|]; [|done].
    specialize (Hs f b). by destruct (subscribe f b) as [[l r] b'].
  - unfold record_delivered. by destruct (b_store b).
  - done.
  - done.
  - done.
  - unfold sweep_group_leases. by destruct (Groups.sweep_group_leases _ _ _ _ _) as [[gone g] chans'].
  - unfold rehydrate_buffer. destruct (decide (l = [])); [done|]. by rewrite st_bind, Hc, Ht.
  - unfold rehydrate_retained. by rewrite st_bind, Hc, Ht.
  - apply Hc.
  - apply Hc.
Qed.

(** The new messages among [l], once each. *)
Definition fresh (b : Broker) (l : list (Topic * Envelope)) : list (Topic * Envelope) :=
  List.filter (λ p, is_new b p.2) (remove_dups l).

(** The copies of what was accepted: the new messages that match. *)
Lemma accepted_copies f l b acc :
  Filter.wf f → (∀ p p', p ∈ l → p' ∈ l → id p.2 = id p'.2 → p = p') →
  NoDup acc → (∀ i, i ∈ acc ↔ i ∈ ids l ∧ i ∉ SeenIds.order (b_seen b)) →
  acc ≫= copy f l ≡ₚ (List.filter (λ p, matches f p.1) (fresh b l)).*2.
Proof.
  intros Hf Hunique Hnd Hacc.
  assert (∀ p, p ∈ fresh b l ↔ p ∈ l ∧ id p.2 ∉ SeenIds.order (b_seen b)) as Hfresh.
  { intros p. unfold fresh, is_new. rewrite list_elem_of_In, filter_In, <-list_elem_of_In, elem_of_remove_dups, negb_true_iff, bool_decide_eq_false.
    tauto. }
  assert (acc ≡ₚ (λ p : Topic * Envelope, id p.2) <$> fresh b l) as ->.
  { apply NoDup_Permutation; [done| |].
    - apply NoDup_fmap_2_strong.
      + intros p p' [Hp _]%Hfresh [Hp' _]%Hfresh. by apply Hunique.
      + unfold fresh. apply NoDup_ListNoDup, List.NoDup_filter, NoDup_ListNoDup, NoDup_remove_dups.
    - intros i. rewrite Hacc. unfold ids. rewrite !list_elem_of_fmap. split.
      + intros [(p & -> & Hp) Hn]. exists p. split; [done|]. by apply Hfresh.
      + intros (p & -> & [Hp Hn]%Hfresh). split; [by exists p|done]. }
  assert (∀ p, p ∈ fresh b l → copy f l (id p.2) = if matches f p.1 then [p.2] else []) as Hcopy.
  { intros [t e] [Hp _]%Hfresh. cbn [fst snd]. rewrite (copy_of f l Hunique t e Hp). by apply gives_matches. }
  clear -Hcopy. induction (fresh b l) as [|p l' IH]; [done|]. rewrite fmap_cons, bind_cons, Hcopy by by left.
  rewrite IH by (intros p' Hp'; apply Hcopy; by right). cbn -[matches]. by destruct (matches f p.1).
Qed.

(** C7: publishes that overlap in any order of their sections, several of the
    same message among them, while others subscribe, read, join groups and
    resume: once they have all ended, a subscription has been given every new
    message its filter matches exactly once, and nothing else, though not in
    any particular order. *)
Theorem overlapping_publishes_deliver (f : TopicFilter) (r : Receiver) (q : list Envelope) (l : list (Topic * Envelope)) (now : Z) b s ps :
  wf b.1 → Filter.wf f → sub_arc b.1 f = Some r.1 → queue b.1 r = Some q →
  (∀ p p', p ∈ l → p' ∈ l → id p.2 = id p'.2 → p = p') →
  length (SeenIds.order (b_seen b.1)) + length l ≤ SeenIds.capacity (b_seen b.1) →
  sched (λ _, False) (meanwhile r) (λ _ _, False) ((λ p, publish_task p.1 p.2 now) <$> l, b) (ps, s) →
  Forall (λ p, ∃ n, p = Ret n) ps →
  (∃ got, queue s.1 r = Some (q ++ got)
     ∧ got ≡ₚ (List.filter (λ p, matches f p.1) (fresh b.1 l)).*2)
  ∧ ∀ p, p ∈ l → id p.2 ∈ SeenIds.order (b_seen s.1).
Proof.
  intros Hwf Hf Ha Hq Hunique Hroom Hsched Hdone.
  set (base := SeenIds.order (b_seen b.1)) in *. set (cap := SeenIds.capacity (b_seen b.1)) in *.
  set (I := delivering f r q l base cap).
  assert (I [] s) as (Hwf' & _ & _ & Hi & acc & got & Ho & Hsub & Hgot & Hperm).
  { apply (sched_all_ok I (λ d, d = [])) in Hsched as (ds & Hds & HI).
    - replace (concat ds) with ([] : list Debt) in HI; [exact HI|]. clear -Hds Hdone. cbn in Hds.
      induction Hds as [|d p ds ps Hd _ IH]; [done|]. apply Forall_cons in Hdone as [[n ->] Hdone]. cbn in Hd. subst d. by apply IH.
    - intros d d' w. apply delivering_perm.
    - by intros d owed w ->.
    - done.
    - intros d w w' (o & Hno & Hsp & ->) (Hwf1 & Ha1 & Hc1 & Hi1 & acc & got & Ho1 & Hs1 & Hq1 & Hp1). destruct w as [b1 chans1].
      destruct (exec_effect o b1 chans1 f r _ Hwf1 Hf Ha1 Hq1 Hsp) as (Hwf2 & Ha2 & Hq2). cbn [fst] in *.
      assert (news f o (b1, chans1) = []) as Hn by (destruct o; try done; by destruct (Hno t e now0)). rewrite Hn, app_nil_r in Hq2.
      pose proof (exec_seen o (b1, chans1) Hno) as Hse. cbn [fst] in Hse. unfold I, delivering. rewrite !Hse.
      split; [done|]. split; [done|]. split; [done|]. split; [done|]. by exists acc, got.
    - done.
    - exists ((λ p : Topic * Envelope, [Unrecorded (id p.2)]) <$> l). cbn [fst snd]. split.
      + apply Forall2_fmap, Forall2_same_length_lookup_2; [done|]. intros i p p' Hp Hp'. assert (p' = p) as -> by congruence.
        destruct p as [t e]. apply pays_publish_task; [done..|]. by eapply list_elem_of_lookup_2.
      + assert (concat ((λ p : Topic * Envelope, [Unrecorded (id p.2)]) <$> l) = Unrecorded <$> ids l) as ->.
        { unfold ids. clear. induction l as [|p l IH]; [done|]. cbn. by rewrite IH. }
        split; [done|]. split; [done|]. split; [done|]. split; [intros i Hid; right; by apply list_elem_of_fmap_2|].
        exists [], []. split; [by rewrite app_nil_r|]. split; [by intros i ?%not_elem_of_nil|]. split; [by rewrite app_nil_r|]. cbn.
        clear. induction (ids l) as [|x xs IHx]; done. }
  cbn in Hperm. rewrite app_nil_r in Hperm. split.
  - exists got. split; [done|]. rewrite Hperm. apply accepted_copies; [done..| |].
    + pose proof (proj1 (proj1 (proj2 (proj2 (proj2 Hwf'))))) as Hnd. rewrite Ho in Hnd. by apply NoDup_app in Hnd as (_ & _ & ?).
    + intros i. pose proof (proj1 (proj1 (proj2 (proj2 (proj2 Hwf'))))) as Hnd. rewrite Ho in Hnd. apply NoDup_app in Hnd as (_ & Hdisj & _).
      split; [intros Hin; split; [by apply Hsub|intros Hb; by apply (Hdisj i)]|]. intros [Hin Hn].
      destruct (Hi i Hin) as [Hin1|?%not_elem_of_nil]; [|done]. rewrite Ho in Hin1. by apply elem_of_app in Hin1 as [?|?].
  - intros p Hp. destruct (Hi (id p.2)) as [?|[]%not_elem_of_nil]; [|done]. by apply (list_elem_of_fmap_2 (λ p : Topic * Envelope, id p.2)).
Qed.
End publishing.

(** Two messages, the first of them twice: the first task stops after its
    append, the second runs to its end, then the first goes on; the repeated
    one ends at the dedup window. *)
Module PublishingSample.
#[export] Instance broadcast : Broadcast Envelope := Reference.ref_broadcast Envelope.
#[export] Instance broadcast_laws : BroadcastLaws Envelope := Reference.ref_broadcast_laws Envelope.
#[export] Instance mpsc : Mpsc Envelope := Reference.ref_mpsc Envelope.
#[export] Instance store : MessageStore :=
  sqlite PersistenceSample.enc PersistenceSample.dec (λ _, []) (λ _, []) PersistenceSample.no_fault.
Definition e1 : Envelope := PersistenceSample.e 1 (lit "b") [7%Z].
Definition e4 : Envelope := PersistenceSample.e 4 (lit "b") [9%Z].
Definition b : Topic := Sample.topic (lit "b").
Definition filter : TopicFilter := MkFilter (lit "#").
Definition file : SqliteStore := PersistenceSample.opened.
Definition subscribed := subscribe filter (with_store file).
Definition start : Broker * mpsc_store Envelope := (subscribed.2, (∅ : gmap nat (Reference.Chan Envelope))).
Definition task (e : Envelope) := publish_task b e 0.
Definition first := advance 2 (task e1) start.
Definition second := advance 20 (task e4) first.2.
Definition third := advance 20 first.1 second.2.
Definition fourth := advance 20 (task e1) third.2.
End PublishingSample.
Import PublishingSample.

Lemma ended {W A} (p : Proc W A) : (if p is Ret _ then true else false) = true → ∃ n, p = Ret n.
Proof. destruct p; [by eexists|done]. Qed.

Lemma sample_overlaps :
  sched (λ _, False) (meanwhile subscribed.1.2) (λ _ _, False) ((λ p, publish_task p.1 p.2 0%Z) <$> [(b, e1); (b, e4); (b, e1)], start)
    ([third.1; second.1; fourth.1], fourth.2).
Proof.
  eapply sched_trans; [apply (sched_advance _ _ _ 2 [] (task e1) [task e4; task e1] start)|].
  eapply sched_trans; [apply (sched_advance _ _ _ 20 [first.1] (task e4) [task e1] first.2)|].
  eapply sched_trans; [apply (sched_advance _ _ _ 20 [] first.1 [second.1; task e1] second.2)|].
  apply (sched_advance _ _ _ 20 [third.1; second.1] (task e1) [] third.2).
Qed.

Lemma overlapping_publishes_deliver_witness :
  ∃ got, queue fourth.2.1 subscribed.1.2 = Some got ∧ got ≡ₚ [e1; e4].
Proof.
  assert (Forall (λ p, ∃ n, p = Ret n) [third.1; second.1; fourth.1]) as Hended.
  { repeat constructor; apply ended; by vm_compute. }
  destruct (overlapping_publishes_deliver filter subscribed.1.2 [] [(b, e1); (b, e4); (b, e1)] 0%Z start fourth.2
    [third.1; second.1; fourth.1]) as [(got & Hq & Hp) _]; [| | | | | |apply sample_overlaps|exact Hended|].
  - apply broker_subscribe_wf. apply broker_wf_new.
  - by apply (proj1 (filter_from_str_ok (lit "#") filter)).
  - by vm_compute.
  - by vm_compute.
  - intros p p' Hp Hp'. repeat setoid_rewrite elem_of_cons in Hp. repeat setoid_rewrite elem_of_cons in Hp'.
    destruct Hp as [->|[->|[->|[]%not_elem_of_nil]]], Hp' as [->|[->|[->|[]%not_elem_of_nil]]]; done.
  - apply Nat.leb_le. by vm_compute.
  - exists got. split; [exact Hq|]. rewrite Hp.
    assert ((List.filter (λ p, matches filter p.1) (fresh start.1 [(b, e1); (b, e4); (b, e1)])).*2 = [e4; e1]) as ->.
    { apply (bool_decide_eq_true_1 _). by vm_compute. }
    apply perm_swap.
Defined.
