(* ===== verification/PeerLinks.v ===== *)
(** * The registry of peer links ([thoth-mesh-node/src/peer_links.rs])

    Every live link of every peer, several of one peer when both sides dialed.
    A sender is the identity of its channel, [disconnect] that of the link's
    [Notify]. The sends are on the [Hub], whose channels they are. *)

From S2P Require Import Prelude.
From S2P Require Import Text.
From S2P Require Import Filter.
From S2P Require Import Runtime.
From S2P Require Import Message.
From S2P Require Import Interest.
From S2P Require Import TopicAcl.
From S2P Require Import PeerTopicFilter.
From S2P Require Import MessageStore.
From S2P Require Import Broker.
From S2P Require Import Metrics.
From S2P Require Import DeadLetter.

(** [fn subscribe]: the shape of an interest announcement. *)
Definition subscribe (filter : TopicFilter) : MessageKind := Message.Subscribe filter false None false.

Record Link := MkLink {
  link_sender : nat;
  link_principal : Principal;
  link_disconnect : nat;
}.

Record PeerLinks := MkPeerLinks { links : gmap PeerId (list Link) }.

Definition new : PeerLinks := MkPeerLinks ∅.

Definition register (peer_id : PeerId) (sender : nat) (principal : Principal) (disconnect : nat) (s : PeerLinks) : PeerLinks :=
  MkPeerLinks (<[peer_id := unwrap_or [] (links s !! peer_id) ++ [MkLink sender principal disconnect]]> (links s)).

(** At most one entry with the sender's channel goes, then an empty list. *)
Definition unregister (peer_id : PeerId) (sender : nat) (s : PeerLinks) : PeerLinks :=
  match links s !! peer_id with
  | None => s
  | Some entries =>
      let entries := match position (λ l, link_sender l =? sender) entries with
                     | Some index => delete index entries
                     | None => entries
                     end in
      if bool_decide (entries = []) then MkPeerLinks (delete peer_id (links s))
      else MkPeerLinks (<[peer_id := entries]> (links s))
  end.

(** [links.values().flatten()] *)
Definition all_links (s : PeerLinks) : list Link := concat (map_to_list (links s)).*2.

(** Whether a [--peer-topic-filter] lets a principal hear about a filter: never
    about a wildcard, about anything when there is none. *)
Definition interest_permitted (peer_topic_filter : option PeerTopicFilter) (principal : Principal)
    (filter : TopicFilter) : bool :=
  match peer_topic_filter with
  | None => true
  | Some f => match as_topic filter with Some topic => permits f principal topic | None => false end
  end.

Definition disconnect_unless (still_allowed : Principal → bool) (s : PeerLinks) : list nat :=
  link_disconnect <$> List.filter (λ l, negb (still_allowed (link_principal l))) (all_links s).

Section sends.
Context `{Broadcast Envelope} `{Mpsc Envelope} `{MessageStore} `{Uuids}.

(** [sender.try_send], its result ignored. *)
Definition offer (sender : nat) (e : Envelope) : ST Hub () := λ h,
  ((), MkHub (h_broker h) (try_send sender e (h_chans h)).2 (h_ids h) (h_metrics h)).

Definition broadcast (e : Envelope) (s : PeerLinks) : ST Hub () :=
  for_each (link_sender <$> all_links s) (λ sender, offer sender e).

Definition broadcast_interest (e : Envelope) (filter : TopicFilter) (peer_topic_filter : option PeerTopicFilter)
    (s : PeerLinks) : ST Hub () :=
  match peer_topic_filter with
  | None => broadcast e s
  | Some f =>
      for_each (link_sender <$> List.filter (λ l,
        match as_topic filter with Some topic => permits f (link_principal l) topic | None => false end) (all_links s))
        (λ sender, offer sender e)
  end.

(** The announcement, or withdrawal, one link gets about one filter. *)
Definition reconcile_kind (peer_topic_filter : option PeerTopicFilter) (principal : Principal) (filter : TopicFilter) :
    option MessageKind :=
  match peer_topic_filter with
  | None => Some (subscribe filter)
  | Some f =>
      (λ topic, if permits f principal topic then subscribe filter else Unsubscribe filter) <$> as_topic filter
  end.

Definition reconcile_interest (interest : Interest) (node_id : PeerId) (peer_topic_filter : option PeerTopicFilter)
    (s : PeerLinks) : ST Hub () :=
  for_each (all_links s) (λ l,
    for_each (Interest.snapshot interest) (λ filter,
      if is_interested interest filter then
        match reconcile_kind peer_topic_filter (link_principal l) filter with
        | Some k => e ← fresh_envelope node_id k; offer (link_sender l) e
        | None => mret ()
        end
      else mret ())).
End sends.

(** ** The registry counts registrations *)

Inductive Op : Type :=
| Register (p : PeerId) (l : Link)
| Unregister (p : PeerId) (sender : nat).

Definition exec (o : Op) (s : PeerLinks) : PeerLinks :=
  match o with
  | Register p l => register p (link_sender l) (link_principal l) (link_disconnect l) s
  | Unregister p sender => unregister p sender s
  end.

Definition exec_all (ops : list Op) : PeerLinks := fold_left (λ s o, exec o s) ops new.

(** The live links of a peer on a channel. *)
Definition live (s : PeerLinks) (p : PeerId) (sender : nat) : nat :=
  length (List.filter (λ l, link_sender l =? sender) (unwrap_or [] (links s !! p))).

(** Registrations less guards dropped, a drop with nothing registered counting
    for nothing. *)
Definition bump (p : PeerId) (c : nat) (n : nat) (o : Op) : nat :=
  match o with
  | Register q l => if decide (q = p ∧ link_sender l = c) then S n else n
  | Unregister q d => if decide (q = p ∧ d = c) then n - 1 else n
  end.
Definition balance (p : PeerId) (c : nat) (ops : list Op) : nat := fold_left (bump p c) ops 0.

(** A peer with nothing live leaves no trace. *)
Definition wf (s : PeerLinks) : Prop := ∀ p l, links s !! p = Some l → l ≠ [].

Lemma filter_delete (p : Link → bool) i l :
  length (List.filter p (delete i l))
  = length (List.filter p l) - (match l !! i with Some x => if p x then 1 else 0 | None => 0 end).
Proof.
  revert i; induction l as [|x l IH]; intros [|i]; simpl; try lia.
  - destruct (p x); simpl; lia.
  - destruct (p x) eqn:Hx; simpl; rewrite IH; destruct (l !! i) as [y|] eqn:Hi; try lia.
    destruct (p y) eqn:Hy; [|lia].
    assert (0 < length (List.filter p l)); [|lia]. clear -Hi Hy. revert i Hi.
    induction l as [|z l IH]; intros [|i] Hi; simplify_eq/=; [rewrite Hy; simpl; lia|].
    specialize (IH i Hi). destruct (p z); simpl; lia.
Qed.

Lemma live_register p l s q c :
  live (exec (Register p l) s) q c = bump q c (live s q c) (Register p l).
Proof.
  unfold live. simpl. destruct (decide (p = q)) as [->|Hne].
  - rewrite lookup_insert_eq. simpl. rewrite List.filter_app, length_app. simpl.
    destruct (Nat.eqb_spec (link_sender l) c); [rewrite decide_True by done; simpl; lia|].
    rewrite decide_False by tauto. simpl. lia.
  - rewrite lookup_insert_ne by done. rewrite decide_False by tauto. done.
Qed.

Lemma live_unregister p d s q c :
  live (exec (Unregister p d) s) q c = bump q c (live s q c) (Unregister p d).
Proof.
  unfold live. simpl. unfold unregister. destruct (links s !! p) as [l|] eqn:Hl.
  2:{ destruct (decide (p = q ∧ d = c)) as [[-> ->]|]; [|done]. rewrite Hl. done. }
  set (l' := match position _ l with Some i => delete i l | None => l end).
  assert (∀ s', s' = (if bool_decide (l' = []) then MkPeerLinks (delete p (links s)) else MkPeerLinks (<[p:=l']> (links s))) →
    unwrap_or [] (links s' !! q) = if decide (p = q) then l' else unwrap_or [] (links s !! q)) as Hs'.
  { intros s' ->. case_bool_decide as He; simpl; destruct (decide (p = q)) as [->|Hne].
    - by rewrite lookup_delete_eq, He.
    - by rewrite lookup_delete_ne.
    - by rewrite lookup_insert_eq.
    - by rewrite lookup_insert_ne. }
  rewrite (Hs' _ eq_refl). destruct (decide (p = q)) as [<-|Hne]; [|by rewrite decide_False by tauto].
  rewrite Hl. simpl. unfold l'. destruct (position _ l) as [i|] eqn:Hp.
  - apply position_Some in Hp as (x & Hx & Hd & _). apply Nat.eqb_eq in Hd. rewrite filter_delete, Hx, Hd.
    destruct (Nat.eqb_spec d c); [by rewrite decide_True by done|]. rewrite decide_False by tauto. lia.
  - destruct (decide (p = p ∧ d = c)) as [[_ ->]|]; [|done].
    assert (List.filter (λ l, link_sender l =? c) l = []) as ->; [|done].
    clear -Hp. induction l as [|x l IH]; [done|]. simpl in *. destruct (link_sender x =? c); [done|].
    apply IH. by destruct (position _ l).
Qed.

Lemma links_exec_wf o s : wf s → wf (exec o s).
Proof.
  intros Hwf p l. destruct o as [q k|q d]; simpl.
  - rewrite lookup_insert_Some. intros [[_ <-]|[_ Hl]]; [by destruct (unwrap_or [] (links s !! q))|by eapply Hwf].
  - unfold unregister. destruct (links s !! q) as [l0|] eqn:Hl0; [|by apply Hwf]. case_bool_decide as He; simpl.
    + rewrite lookup_delete_Some. intros [_ ?]. by eapply Hwf.
    + rewrite lookup_insert_Some. intros [[_ <-]|[_ ?]]; [done|by eapply Hwf].
Qed.

(** C34: after any sequence of registrations and dropped guards, a
    peer has on each channel exactly as many live links as it registered there
    less the guards dropped; so a second [Hello] on one connection, which
    registers again before its first guard is dropped, leaves exactly one link,
    another connection of the same peer is never touched, and a peer with
    nothing left has no entry. *)
Theorem peer_links_count_registrations (ops : list Op) :
  (∀ p c, live (exec_all ops) p c = balance p c ops) ∧ wf (exec_all ops)
  ∧ ∀ p c pr pr' d d',
      live (exec_all (ops ++ [Register p (MkLink c pr d); Register p (MkLink c pr' d'); Unregister p c])) p c
      = S (live (exec_all ops) p c).
Proof.
  assert ((∀ p c, live (exec_all ops) p c = balance p c ops) ∧ wf (exec_all ops)) as [Hl Hwf].
  { unfold exec_all, balance. induction ops as [|o ops IH] using rev_ind; [by split|].
    rewrite !fold_left_app. destruct IH as [IH Hwf]. split; [|by apply links_exec_wf].
    intros p c. rewrite fold_left_app. simpl. rewrite <-IH. destruct o; [apply live_register|apply live_unregister]. }
  split; [done|]. split; [done|]. intros p c pr pr' d d'. unfold exec_all. rewrite fold_left_app. cbn [fold_left].
  fold (exec_all ops). rewrite live_unregister, !live_register. simpl.
  rewrite !decide_True by done. lia.
Qed.
