(* ===== verification/Forwarder.v ===== *)
(** * Forwarders: the tasks between the broker and a connection
      ([spawn_forwarder], [spawn_durable_forwarder] and [spawn_ack_forwarder]
      of [thoth-mesh-node/src/connection.rs])

    The three tasks share what they do with their receiver, the [Core]: it runs
    on a [Feed], the interface a subscription offers, which the broker
    implements for a filter and a lone [TopicChannel] for its topic. A [Task] is
    a core with the mode's own state; [task_step] is one step of the task on
    the [Hub], up to its next [await]. *)

From S2P Require Import Prelude.
From S2P Require Import Text.
From S2P Require Import Topic.
From S2P Require Import Filter.
From S2P Require Import Runtime.
From S2P Require Import Message.
From S2P Require Import TopicChannel.
From S2P Require Import TopicMap.
From S2P Require Import Redelivery.
From S2P Require Import MessageStore.
From S2P Require Import Broker.
From S2P Require Import Metrics.
From S2P Require Import DeadLetter.

(** ** What a subscription offers *)

Class Feed (S : Type) := {
  rx : Type;
  feed_subscribe : ST S (list Envelope * rx);
  feed_recv : rx → ST S (RecvResult Envelope);
  feed_drop : rx → S → S;
}.
Arguments rx S {_}.

(** What is replayed after a lag: of the fresh backlog, what follows the last
    envelope delivered; all of it when nothing was delivered yet, nothing when
    the last one is not in it any more. *)
Definition recovered (last_delivered : option MessageId) (fresh_backlog : list Envelope) : list Envelope :=
  match last_delivered with
  | None => fresh_backlog
  | Some last_id =>
      match position (λ e, bool_decide (id e = last_id)) fresh_backlog with
      | Some idx => drop (S idx) fresh_backlog
      | None => []
      end
  end.

Section core.
Context {S : Type} `{Feed S}.

(** The receiver, what is waiting to be sent on, the last envelope sent, and
    whether it is about to subscribe again after a lag. *)
Record Core := MkCore {
  core_rx : rx S;
  core_queue : list Envelope;
  last_delivered : option MessageId;
  core_lagged : bool;
}.

Definition core_start : ST S Core :=
  r ← feed_subscribe; mret (MkCore r.2 r.1 None false).

(** [rx.recv().await] and what each answer leads to; the answer is returned
    for the counters. *)
Definition core_recv (c : Core) : ST S (RecvResult Envelope * Core) :=
  r ← feed_recv (core_rx c);
  match r with
  | Received e => mret (r, MkCore (core_rx c) [e] (last_delivered c) false)
  | Lagged _ => mret (r, MkCore (core_rx c) [] (last_delivered c) true)
  | Pending => mret (r, c)
  end.

(** [broker.subscribe(filter).await] after a lag, and [rx = fresh_rx], which
    drops the old receiver. *)
Definition core_recover (c : Core) : ST S Core :=
  f ← feed_subscribe;
  _ ← modify (feed_drop (core_rx c));
  mret (MkCore f.2 (recovered (last_delivered c) f.1) (last_delivered c) false).

(** After [outgoing_tx.send(envelope).await] succeeded for the first of the
    queue. *)
Definition core_sent (c : Core) : Core :=
  match core_queue c with
  | [] => c
  | e :: q => MkCore (core_rx c) q (Some (id e)) (core_lagged c)
  end.
End core.
Arguments Core S {_}.

(** ** The tasks *)

Section tasks.
Context `{Broadcast Envelope} `{Mpsc Envelope} `{MessageStore} `{Uuids}.

(** The broker's own feed, for a filter. *)
Definition broker_feed (filter : TopicFilter) : Feed Broker := {|
  rx := Receiver;
  feed_subscribe := Broker.subscribe filter;
  feed_recv := recv_receiver;
  feed_drop := drop_receiver;
|}.

(** What a sweep has left to do: the given-up deliveries to dead-letter, how
    many of them it has dead-lettered so far, and what it resends then. *)
Record Sweeping := MkSweeping {
  given_up_on : list Envelope;
  dead_lettered : Z;
  to_resend : list Envelope;
}.
Definition swept : Sweeping := MkSweeping [] 0 [].

(** What distinguishes the three tasks. A durable one records each delivery
    once it is sent. An acknowledging one keeps its pending deliveries, the
    acknowledgements queued for it and the sweep it is in. *)
Inductive Mode : Type :=
| Plain
| Durable (topic : Topic) (subscriber : PeerId) (to_record : option MessageId)
| Acked (pending : PendingAcks) (acks : list MessageId) (sweeping : Sweeping).

Inductive Phase (filter : TopicFilter) : Type :=
| Starting
| Running (c : @Core Broker (broker_feed filter)).
Arguments Starting {filter}.
Arguments Running {filter} c.

Record Task := MkTask {
  task_filter : TopicFilter;
  task_out : nat;
  task_mode : Mode;
  task_dead_letter : DeadLetterConfig;
  task_phase : Phase task_filter;
}.

(** [ACK_CHANNEL_CAPACITY] *)
Definition ACK_CHANNEL_CAPACITY : nat := 256.

Definition spawn_forwarder (filter : TopicFilter) (outgoing_tx : nat) (config : DeadLetterConfig) : Task :=
  MkTask filter outgoing_tx Plain config Starting.
Definition spawn_durable_forwarder (filter : TopicFilter) (topic : Topic) (subscriber : PeerId) (outgoing_tx : nat)
    (config : DeadLetterConfig) : Task :=
  MkTask filter outgoing_tx (Durable topic subscriber None) config Starting.
Definition spawn_ack_forwarder (filter : TopicFilter) (outgoing_tx : nat) (ack_timeout : Z)
    (max_redelivery_attempts : nat) (config : DeadLetterConfig) : Task :=
  MkTask filter outgoing_tx (Acked (Redelivery.new ack_timeout max_redelivery_attempts) [] swept) config Starting.

Definition set_mode (m : Mode) (t : Task) : Task :=
  MkTask (task_filter t) (task_out t) m (task_dead_letter t) (task_phase t).
Definition set_core (t : Task) (c : @Core Broker (broker_feed (task_filter t))) : Task :=
  MkTask (task_filter t) (task_out t) (task_mode t) (task_dead_letter t) (Running c).

(** [ack_tx.try_send]: a full channel drops the acknowledgement. *)
Definition offer_ack (i : MessageId) (t : Task) : Task :=
  match task_mode t with
  | Acked pending acks sweeping =>
      if length acks <? ACK_CHANNEL_CAPACITY then set_mode (Acked pending (acks ++ [i]) sweeping) t else t
  | _ => t
  end.

(** [select!]'s branches; a task without the branch never takes it. *)
Inductive Branch : Type :=
| BranchDeliver
| BranchAck
| BranchTick.

Inductive Outcome : Type :=
| Blocked
| Ended (h : Hub)
| Continues (t : Task) (h : Hub).

Definition on_broker {A} (f : ST Broker A) : ST Hub A := λ h,
  let '(a, b) := f (h_broker h) in (a, MkHub b (h_chans h) (h_ids h) (h_metrics h)).

(** [outgoing_tx.send(e).await]: [None] while the channel is full. *)
Definition send_out (out : nat) (e : Envelope) (h : Hub) : option (bool * Hub) :=
  if is_closed (h_chans h) out then Some (false, h)
  else let '(ok, chans) := try_send out e (h_chans h) in
       if ok : bool then Some (true, MkHub (h_broker h) chans (h_ids h) (h_metrics h)) else None.

(** The task's locals go with it. *)
Definition end_task (t : Task) (h : Hub) : Hub :=
  match task_phase t with
  | Starting => h
  | Running c => (on_broker (λ b, ((), drop_receiver (core_rx c) b)) h).2
  end.

(** The channel's sender is gone once no map of the broker holds it. *)
Definition sender_dropped (h : Hub) (r : Receiver) : bool :=
  negb (existsb (λ p, p.2 =? r.1) (iter (b_topics (h_broker h)))
        || existsb (λ p, p.2 =? r.1) (iter (b_patterns (h_broker h)))).

Definition counted (n : nat) (f : Z → Metrics → Metrics) (h : Hub) : Hub :=
  if n =? 0 then h else (count (f (Z.of_nat n)) h).2.

(** The initial subscribe of each kind of task. *)
Definition start_task (t : Task) (h : Hub) : Outcome :=
  let '(r, h1) := match task_mode t with
                  | Durable _ subscriber _ => on_broker (subscribe_durable (task_filter t) subscriber) h
                  | _ => let '(x, h1) := on_broker (Broker.subscribe (task_filter t)) h in (Ok x, h1)
                  end in
  match r with
  | Err _ => Ended h1
  | Ok (backlog, receiver) =>
      Continues (set_core t (@MkCore Broker (broker_feed (task_filter t)) receiver backlog None false))
        (counted (length backlog) record_replayed_messages h1)
  end.

(** What follows a successful send of [e]: a durable task goes on to record it,
    an acknowledging one has it pending. *)
Definition after_send (now : Z) (e : Envelope) (t : Task) (h : Hub) : Outcome :=
  match task_mode t with
  | Plain => Continues t h
  | Durable topic subscriber _ => Continues (set_mode (Durable topic subscriber (Some (id e))) t) h
  | Acked pending acks sweeping => Continues (set_mode (Acked (record e now pending) acks sweeping) t) h
  end.

(** [broker.record_delivered(…).await] *)
Definition record_position (topic : Topic) (subscriber : PeerId) (i : MessageId) (t : Task) (h : Hub) : Outcome :=
  Continues (set_mode (Durable topic subscriber None) t) (on_broker (λ b, ((), record_delivered subscriber topic i b)) h).2.

Definition receive (t : Task) (c : @Core Broker (broker_feed (task_filter t))) (h : Hub) : Outcome :=
  let '((r, c1), h1) := on_broker (core_recv c) h in
  match r with
  | Received _ => Continues (set_core t c1) h1
  | Lagged skipped => Continues (set_core t c1) (count (record_forwarder_lag (Z.of_nat skipped)) h1).2
  | Pending => if sender_dropped h1 (core_rx c) then Ended (end_task t h1) else Blocked
  end.

Definition recover (t : Task) (c : @Core Broker (broker_feed (task_filter t))) (h : Hub) : Outcome :=
  let '(c1, h1) := on_broker (core_recover c) h in
  Continues (set_core t c1) (counted (length (core_queue c1)) record_lag_recovered h1).

(** The [sweep.tick()] branch, up to its first dead letter. *)
Definition tick (now : Z) (t : Task) (pending : PendingAcks) (acks : list MessageId) (h : Hub) : Outcome :=
  let '((to_resend, given_up_on), pending1) := sweep now pending in
  Continues (set_mode (Acked pending1 acks (MkSweeping given_up_on 0 to_resend)) t)
    match given_up_on with
    | [] => counted (length to_resend) record_redelivered_messages h
    | _ => (count (record_delivery_ack_timeouts (Z.of_nat (length given_up_on))) h).2
    end.

(** One [dead_letter(…).await] of the sweep, and its counters after the last. *)
Definition dead_letter_next (now : Z) (t : Task) (pending : PendingAcks) (acks : list MessageId) (s : Sweeping) (e : Envelope)
    (rest : list Envelope) (h : Hub) : Outcome :=
  let '(done, h1) := dead_letter (task_dead_letter t) e now h in
  let n := if done : bool then (dead_lettered s + 1)%Z else dead_lettered s in
  Continues (set_mode (Acked pending acks (MkSweeping rest n (to_resend s))) t)
    match rest with
    | [] => counted (length (to_resend s)) record_redelivered_messages
              (if (0 <? n)%Z then (count (record_dead_lettered_messages n) h1).2 else h1)
    | _ => h1
    end.

(** A send of the task; [sent] is how it goes on. *)
Definition send_next (t : Task) (e : Envelope) (sent : Hub → Outcome) (h : Hub) : Outcome :=
  match send_out (task_out t) e h with
  | None => Blocked
  | Some (false, h1) => Ended (end_task t h1)
  | Some (true, h1) => sent h1
  end.

(** The next section of the task's own work, when it has not got to its
    [select!] or [recv]: what is left of the last delivery, of a sweep, or of a
    lag, then the queue. *)
Definition work (now : Z) (t : Task) (c : @Core Broker (broker_feed (task_filter t))) (h : Hub) : option Outcome :=
  match task_mode t with
  | Durable topic subscriber (Some i) => Some (record_position topic subscriber i t h)
  | Acked pending acks (MkSweeping (e :: rest) _ _ as s) => Some (dead_letter_next now t pending acks s e rest h)
  | Acked pending acks (MkSweeping [] n (e :: rest)) =>
      Some (send_next t e (Continues (set_mode (Acked pending acks (MkSweeping [] n rest)) t)) h)
  | _ =>
      if core_lagged c then Some (recover t c h)
      else match core_queue c with
           | e :: _ => Some (send_next t e (after_send now e (set_core t (core_sent c))) h)
           | [] => None
           end
  end.

Definition task_step (now : Z) (branch : Branch) (t : Task) (h : Hub) : Outcome :=
  match task_phase t with
  | Starting => match branch with BranchDeliver => start_task t h | _ => Blocked end
  | Running c =>
      match branch, work now t c h with
      | BranchDeliver, Some o => o
      | BranchDeliver, None => receive t c h
      | BranchAck, None =>
          match task_mode t with
          | Acked pending (i :: acks) sweeping => Continues (set_mode (Acked (ack i pending) acks sweeping) t) h
          | _ => Blocked
          end
      | BranchTick, None =>
          match task_mode t with
          | Acked pending acks _ => tick now t pending acks h
          | _ => Blocked
          end
      | _, Some _ => Blocked
      end
  end.
End tasks.

(** ** What a forwarder delivers *)

Section stream.
Context `{Broadcast Envelope}.

(** A topic's channel, as the feed of its literal filter. *)
#[local] Instance channel_feed : Feed TopicChannel := {|
  rx := nat;
  feed_subscribe := TopicChannel.subscribe;
  feed_recv := recv_channel;
  feed_drop := drop_channel;
|}.

Context `{!BroadcastLaws Envelope}.

(** A channel, a forwarder on it, what that has sent, and everything the
    channel has published. *)
Record Sys := MkSys {
  s_chan : TopicChannel;
  s_core : Core TopicChannel;
  s_sent : list Envelope;
  s_log : list (Envelope * bool);
}.

Definition ids (l : list (Envelope * bool)) : list MessageId := id <$> l.*1.

(** What was published after the last envelope the forwarder sent. *)
Definition behind (co : Core TopicChannel) (log : list (Envelope * bool)) : list Envelope :=
  recovered (last_delivered co) log.*1.

(** The forwarder's steps interleaved with everything else that happens on the
    channel. When it subscribes again after a lag it is less than 1024 messages
    behind; a publish that passed the dedup window carries a new identifier. *)
Inductive sys_step : Sys → Sys → Prop :=
| SysPublish ch co sent log e keep :
    id e ∉ ids log →
    sys_step (MkSys ch co sent log) (MkSys (TopicChannel.publish e keep ch).2 co sent (log ++ [(e, keep)]))
| SysRecv ch co sent log :
    core_queue co = [] → core_lagged co = false →
    sys_step (MkSys ch co sent log) (MkSys (core_recv co ch).2 (core_recv co ch).1.2 sent log)
| SysRecover ch co sent log :
    core_lagged co = true → length (behind co log) < DEFAULT_REPLAY_BUFFER_CAPACITY →
    sys_step (MkSys ch co sent log) (MkSys (core_recover co ch).2 (core_recover co ch).1 sent log)
| SysSend ch co sent log e q :
    core_queue co = e :: q →
    sys_step (MkSys ch co sent log) (MkSys ch (core_sent co) (sent ++ [e]) log)
| SysOtherSubscribe ch co sent log :
    sys_step (MkSys ch co sent log) (MkSys (TopicChannel.subscribe ch).2 co sent log)
| SysOtherRecv ch co sent log r :
    r ≠ core_rx co → is_Some (unread_queues ch !! r) →
    sys_step (MkSys ch co sent log) (MkSys (recv_channel r ch).2 co sent log)
| SysOtherDrop ch co sent log r :
    r ≠ core_rx co →
    sys_step (MkSys ch co sent log) (MkSys (drop_channel r ch) co sent log).

Inductive sys_steps : Sys → Sys → Prop :=
| SysRefl s : sys_steps s s
| SysStep s s' s'' : sys_steps s s' → sys_step s' s'' → sys_steps s s''.

(** The forwarder of a channel that has published [log]. *)
Definition sys_start (ch : TopicChannel) (log : list (Envelope * bool)) : Sys :=
  MkSys (core_start ch).2 (core_start ch).1 [] log.

(** [delivered] is how far the forwarder is in the log: what it sent and has
    queued is the backlog and the rest up to there, what it has not read is
    what follows. Between a lag and the new subscription its queue is empty
    and its receiver does not hold the latter. *)
Definition on_stream (backlog : list Envelope) (k : nat) (s : Sys) : Prop :=
  tracks (s_chan s) (s_log s) ∧ NoDup (ids (s_log s))
  ∧ ∃ delivered unread held,
      unread_queues (s_chan s) !! core_rx (s_core s) = Some held
      ∧ (if core_lagged (s_core s) then core_queue (s_core s) = [] else held = unread)
      ∧ (s_log s).*1 = delivered ++ unread ∧ k ≤ length delivered
      ∧ last backlog = last (take k (s_log s).*1)
      ∧ s_sent s ++ core_queue (s_core s) = backlog ++ drop k delivered
      ∧ last_delivered (s_core s) = id <$> last (s_sent s).

(** *** Recovery after a lag *)

Lemma retained_of_elem h x : retained_of h = Some x → x ∈ h.*1.
Proof.
  unfold retained_of. induction h as [|[e b] h IH] using rev_ind; [done|]. rewrite fold_left_app, fmap_app. simpl.
  rewrite elem_of_app, list_elem_of_singleton. destruct b; [|intros Hx; left; by apply IH].
  destruct (empty_payload e); [done|]. intros [= ->]. by right.
Qed.

(** The fresh backlog of a channel that tracks its log. *)
Lemma fresh_backlog ch log :
  tracks ch log →
  ∃ front, (TopicChannel.subscribe ch).1.1 = front ++ window DEFAULT_REPLAY_BUFFER_CAPACITY log.*1
    ∧ (∀ x, x ∈ front → x ∈ log.*1 ∧ has_id (window DEFAULT_REPLAY_BUFFER_CAPACITY log.*1) (id x) = false).
Proof.
  intros (Hb & Hr & _). pose proof (subscribe_spec ch) as Hs. destruct (TopicChannel.subscribe ch) as [[l r] ch'].
  destruct Hs as (-> & _). simpl. rewrite Hb, Hr. destruct (retained_of log) as [x|] eqn:Hx.
  - destruct (has_id (window _ log.*1) (id x)) eqn:Hh; simpl.
    + exists []. split; [done|]. by intros y ?%not_elem_of_nil.
    + exists [x]. split; [done|]. intros y ->%list_elem_of_singleton. split; [by apply retained_of_elem|done].
  - exists []. split; [done|]. by intros y ?%not_elem_of_nil.
Qed.

Lemma window_last_part {A} n (p q : list A) : length q ≤ n → window n (p ++ q) = window (n - length q) p ++ q.
Proof.
  intros Hq. unfold window. rewrite length_app, drop_app.
  replace (length p + length q - n - length p) with 0 by lia.
  by replace (length p - (n - length q)) with (length p + length q - n) by lia.
Qed.

Lemma recovered_exactly ch log delivered unread last_id :
  tracks ch log → NoDup (ids log) → log.*1 = delivered ++ unread →
  length unread < DEFAULT_REPLAY_BUFFER_CAPACITY → last_id = id <$> last delivered →
  recovered last_id (TopicChannel.subscribe ch).1.1 = unread.
Proof.
  intros Ht Hnd Hlog Hlen ->. destruct (fresh_backlog ch log Ht) as (front & -> & Hfront).
  destruct delivered as [|e d _] using rev_ind; simpl.
  - simpl in Hlog. rewrite Hlog in *. rewrite window_all in * by lia. destruct front as [|x front]; [done|].
    destruct (Hfront x (list_elem_of_here _ _)) as [Hin Hh]. exfalso. apply not_true_iff_false in Hh. apply Hh.
    apply has_id_true. by exists x.
  - rewrite last_snoc. cbn [fmap option_fmap option_map]. unfold recovered.
    assert (window DEFAULT_REPLAY_BUFFER_CAPACITY log.*1
      = window (DEFAULT_REPLAY_BUFFER_CAPACITY - length (e :: unread)) d ++ e :: unread) as Hw.
    { rewrite Hlog, <-app_assoc. apply window_last_part. simpl. lia. }
    set (w := window (_ - length (e :: unread)) d) in *. rewrite Hw, app_assoc.
    assert (position (λ x, bool_decide (id x = id e)) (front ++ w) = None) as Hnone.
    { apply position_all_false. intros x [Hx|Hx]%elem_of_app; apply bool_decide_eq_false; intros Hid.
      - destruct (Hfront x Hx) as [_ Hh]. apply not_true_iff_false in Hh. apply Hh. rewrite Hw. apply has_id_true.
        exists e. split; [|done]. apply elem_of_app. right. apply list_elem_of_here.
      - apply elem_of_window in Hx. unfold ids in Hnd. rewrite Hlog, !fmap_app in Hnd.
        apply NoDup_app in Hnd as (Hnd & _ & _). apply NoDup_app in Hnd as (_ & Hdis & _).
        apply (Hdis (id x)); [by apply list_elem_of_fmap_2|]. rewrite Hid. apply list_elem_of_here. }
    rewrite position_app_r by done. simpl. rewrite bool_decide_true by done. simpl. rewrite Nat.add_0_r.
    change (e :: unread) with ([e] ++ unread). rewrite app_assoc.
    rewrite drop_app_length'; [done|]. rewrite !length_app. simpl. lia.
Qed.

(** The last delivered is the last of the log up to there. *)
Lemma last_of_stream (backlog log delivered unread sent : list Envelope) k :
  log = delivered ++ unread → k ≤ length delivered → last backlog = last (take k log) →
  sent = backlog ++ drop k delivered → last sent = last delivered.
Proof.
  intros -> Hk Hb ->. rewrite take_app_le in Hb by done. rewrite <-(take_drop k delivered) at 2.
  generalize (drop k delivered). intros l. destruct l as [|x l _] using rev_ind; [by rewrite !app_nil_r|].
  by rewrite !app_assoc, !last_snoc.
Qed.

(** What follows the last delivered in the log. *)
Lemma recovered_log (l delivered unread : list Envelope) :
  NoDup (id <$> l) → l = delivered ++ unread → recovered (id <$> last delivered) l = unread.
Proof.
  intros Hnd ->. destruct delivered as [|e d _] using rev_ind; [done|]. rewrite last_snoc. cbn [fmap option_fmap option_map recovered].
  rewrite <-app_assoc, position_app_r.
  - cbn [position app]. rewrite bool_decide_true by done. cbn. rewrite Nat.add_0_r.
    change (e :: unread) with ([e] ++ unread). rewrite app_assoc. apply drop_app_length'. rewrite length_app. cbn. lia.
  - apply position_all_false. intros x Hx. apply bool_decide_eq_false. intros Hid. rewrite !fmap_app in Hnd.
    apply NoDup_app in Hnd as (Hnd & _ & _). apply NoDup_app in Hnd as (_ & Hdis & _).
    apply (Hdis (id x)); [by apply list_elem_of_fmap_2|]. rewrite Hid. apply list_elem_of_here.
Qed.

(** *** The forwarder's own steps stay on the stream *)

Lemma recv_on_stream backlog k ch co sent log :
  on_stream backlog k (MkSys ch co sent log) → core_queue co = [] → core_lagged co = false →
  on_stream backlog k (MkSys (core_recv co ch).2 (core_recv co ch).1.2 sent log).
Proof.
  intros (Ht & Hnd & d & u & h & Hu & Hh & Hlog & Hk & Hb & Hs & Hl) Hq Hla. cbn [s_chan s_core s_sent s_log] in *.
  rewrite Hla in Hh. subst h. rewrite Hq, app_nil_r in Hs.
  assert (tracks (recv_channel (core_rx co) ch).2 log) as Ht1 by (apply tracks_recv; [by eexists|done]).
  assert (∃ q', unread_queues (recv_channel (core_rx co) ch).2 !! core_rx co = Some q'
    ∧ match (recv_channel (core_rx co) ch).1 with
      | Received e => u = e :: q' | Lagged _ => True | Pending => q' = u end) as (q' & Hq' & Hcase).
  { unfold recv_channel, unread_queues in *. destruct (recv (core_rx co) (channel_sender ch)) as [res b'] eqn:E. simpl.
    destruct (recv_spec _ _ _ _ _ Hu E) as [_ Hcase]. destruct (decide _) in Hcase.
    - destruct Hcase as [-> ->]. rewrite lookup_insert_eq. eauto.
    - destruct u as [|e q']; destruct Hcase as [-> Hb']; [rewrite Hb'; eauto|].
      rewrite Hb', lookup_insert_eq. eauto. }
  unfold core_recv, mbind, ST_bind. simpl. destruct (recv_channel (core_rx co) ch) as [[e|n|] ch1]; simpl in *;
    (split; [done|]; split; [done|]).
  - exists (d ++ [e]), q', q'. simpl.
    split; [done|]. split; [done|]. split; [by rewrite Hlog, Hcase, <-app_assoc|]. split; [rewrite length_app; lia|]. split; [done|].
    split; [|done]. rewrite drop_app_le by done. by rewrite app_assoc, Hs.
  - exists d, u, q'. simpl. rewrite app_nil_r. by split_and!.
  - exists d, u, q'. simpl. rewrite Hla, Hq, app_nil_r. by split_and!.
Qed.

Lemma recover_on_stream backlog k ch co sent log :
  on_stream backlog k (MkSys ch co sent log) → core_lagged co = true → length (behind co log) < DEFAULT_REPLAY_BUFFER_CAPACITY →
  on_stream backlog k (MkSys (core_recover co ch).2 (core_recover co ch).1 sent log).
Proof.
  intros (Ht & Hnd & d & u & h & Hu & Hh & Hlog & Hk & Hb & Hs & Hl) Hla Hnear. cbn [s_chan s_core s_sent s_log] in *.
  rewrite Hla in Hh. rewrite Hh, app_nil_r in Hs. pose proof (last_of_stream _ _ _ _ _ k Hlog Hk Hb Hs) as Hlast.
  assert (last_delivered co = id <$> last d) as Hld by (rewrite Hl; by f_equal).
  unfold behind in Hnear. rewrite Hld, (recovered_log _ d u Hnd Hlog) in Hnear.
  pose proof (recovered_exactly ch log d u (last_delivered co) Ht Hnd Hlog Hnear Hld) as Hrec.
  pose proof (tracks_subscribe ch log Ht) as Ht2. pose proof (subscribe_spec ch) as Hsub.
  unfold core_recover, mbind, ST_bind. simpl.
  destruct (TopicChannel.subscribe ch) as [[fresh r'] ch2]. destruct Hsub as (_ & _ & _ & _ & Hfresh & Hu2). simpl in *.
  split; [by apply tracks_drop|]. split; [done|]. exists (d ++ u), [], []. simpl. rewrite Hrec.
  split; [|split; [done|split; [by rewrite app_nil_r|split; [rewrite length_app; lia|split; [done|split; [|done]]]]]].
  - unfold unread_queues, drop_channel in *. simpl. destruct (drop_receiver_spec (core_rx co) (channel_sender ch2)) as [-> _].
    rewrite lookup_delete_ne by congruence. by rewrite Hu2, lookup_insert_eq.
  - rewrite drop_app_le by done. by rewrite app_assoc, Hs.
Qed.

Lemma sys_step_on_stream backlog k s s' : on_stream backlog k s → sys_step s s' → on_stream backlog k s'.
Proof.
  intros Hon Hstep; revert Hon.
  destruct Hstep as [ch co sent log e keep Hnew|ch co sent log Hq Hla|ch co sent log Hla Hnear|ch co sent log e q Hq|ch co sent log
    |ch co sent log r Hr [q Hq]|ch co sent log r Hr]; intros Hon.
  2:{ by apply recv_on_stream. }
  2:{ by apply recover_on_stream. }
  all: destruct Hon as (Ht & Hnd & d & u & h & Hu & Hh & Hlog & Hk & Hb & Hs & Hl); cbn [s_chan s_core s_sent s_log] in *.
  - split; [by apply tracks_publish|]. split.
    { unfold ids in *. cbn [s_log]. rewrite fst_snoc, fmap_app. apply NoDup_app. split; [done|].
      split; [|apply NoDup_singleton]. intros i Hi ->%list_elem_of_singleton. by apply Hnew. }
    exists d, (u ++ [e]), (h ++ [e]). cbn [s_chan s_core s_sent s_log]. rewrite publish_unread, lookup_fmap, Hu, fst_snoc.
    split; [done|]. split; [destruct (core_lagged co); by subst|]. split; [by rewrite Hlog, app_assoc|]. split; [done|]. split; [|done].
    rewrite take_app_le; [done|]. rewrite Hlog, length_app. lia.
  - split; [done|]. split; [done|]. exists d, u, h. unfold core_sent. rewrite Hq in *. simpl.
    split; [done|]. split; [by destruct (core_lagged co)|]. split; [done|]. split; [done|]. split; [done|]. split; [by rewrite <-app_assoc|].
    by rewrite last_snoc.
  - split; [by apply tracks_subscribe|]. split; [done|]. exists d, u, h. cbn [s_chan s_core s_sent s_log].
    pose proof (subscribe_spec ch) as Hsub. destruct (TopicChannel.subscribe ch) as [[fresh r'] ch2].
    destruct Hsub as (_ & _ & _ & _ & Hfresh & Hu2). simpl. rewrite Hu2, lookup_insert_ne; [done|].
    intros Heq. assert (unread_queues ch !! r' = Some h) as Hsome by (rewrite Heq; exact Hu).
    by rewrite Hsome in Hfresh.
  - split; [apply tracks_recv; [by eexists|done]|]. split; [done|]. exists d, u, h. cbn [s_chan s_core s_sent s_log].
    destruct (recv_unread r ch q Hq) as (q' & -> & _). by rewrite lookup_insert_ne.
  - split; [by apply tracks_drop|]. split; [done|]. exists d, u, h. cbn [s_chan s_core s_sent s_log].
    unfold unread_queues, drop_channel in *. simpl. destruct (drop_receiver_spec r (channel_sender ch)) as [-> _].
    by rewrite lookup_delete_ne.
Qed.

(** C9: an ordinary forwarder of a topic delivers the topic's stream
    exactly. Whatever publishes, subscriptions, reads and drops of others
    interleave with its own reads, sends and new subscriptions, and however
    often it lags the channel and recovers, what it has sent, has queued and
    has not read yet is, in order, its backlog followed by every message
    published since it subscribed: nothing lost, nothing repeated - as long as
    it is less than 1024 messages behind, the length of the replay buffer,
    when it subscribes again after a lag. What it has not read yet is at its
    receiver, or, after a lag, whatever was published since the last message it
    sent. *)
Theorem forwarder_stream_exact (c : Config) (s : Sys) :
  reachable c → NoDup (ids (log c)) → sys_steps (sys_start (chan c) (log c)) s →
  ∃ unread,
    (if core_lagged (s_core s) then unread = behind (s_core s) (s_log s)
     else unread_queues (s_chan s) !! core_rx (s_core s) = Some unread)
    ∧ s_sent s ++ core_queue (s_core s) ++ unread
      = (TopicChannel.subscribe (chan c)).1.1 ++ drop (length (log c)) (s_log s).*1.
Proof.
  intros Hc Hnd Hsteps. destruct (reachable_ok c Hc) as [Ht _].
  assert (on_stream (TopicChannel.subscribe (chan c)).1.1 (length (log c)) s) as Hon.
  { remember (sys_start (chan c) (log c)) as s0 eqn:Hs0.
    induction Hsteps as [s|s s' s'' _ IH Hstep]; subst; [|by eapply sys_step_on_stream; [apply IH|]].
    destruct (fresh_backlog (chan c) (log c) Ht) as (front & Hfb & Hfront).
    pose proof (tracks_subscribe _ _ Ht) as Ht'. pose proof (subscribe_spec (chan c)) as Hsub.
    unfold sys_start, core_start, mbind, ST_bind. simpl.
    destruct (TopicChannel.subscribe (chan c)) as [[l r] ch']. destruct Hsub as (_ & _ & _ & _ & _ & Hu). simpl in *.
    split; [done|]. split; [done|]. exists (log c).*1, [], []. simpl. rewrite Hu, lookup_insert_eq, length_fmap, !app_nil_r.
    split; [done|]. split; [done|]. split; [done|]. split; [done|]. rewrite take_ge, drop_ge, app_nil_r by (by rewrite length_fmap).
    split; [|done]. subst l. rewrite last_app. destruct (last (window _ (log c).*1)) as [x|] eqn:Hx.
    - destruct (window_suffix DEFAULT_REPLAY_BUFFER_CAPACITY (log c).*1) as [pre Hpre]. rewrite Hpre, last_app, Hx. done.
    - apply last_None in Hx. destruct front as [|y front].
      + simpl. destruct (window_suffix DEFAULT_REPLAY_BUFFER_CAPACITY (log c).*1) as [pre Hpre].
        apply (f_equal length) in Hx. rewrite length_window in Hx. simpl in Hx.
        destruct (log c).*1; [done|]. simpl in Hx. discriminate.
      + destruct (Hfront y (list_elem_of_here _ _)) as [Hin _]. apply (f_equal length) in Hx.
        rewrite length_window in Hx. simpl in Hx. destruct (log c).*1; [by apply not_elem_of_nil in Hin|].
        discriminate. }
  destruct Hon as (_ & Hnd' & d & u & h & Hu & Hh & Hlog & Hk & Hb & Hs & Hl). exists u. split.
  { destruct (core_lagged (s_core s)) eqn:Hla; [|by subst]. rewrite Hh, app_nil_r in Hs. unfold behind.
    rewrite Hl, (last_of_stream _ _ _ _ _ _ Hlog Hk Hb Hs). symmetry. by apply (recovered_log _ d u). }
  rewrite app_assoc, Hs, Hlog, <-app_assoc. f_equal. by rewrite drop_app_le.
Qed.
End stream.

Lemma forwarder_stream_exact_witness :
  let B := Reference.ref_broadcast Envelope in
  let F := @channel_feed B in
  let e n := Sample.publish n (lit "a") [7%Z] false in
  let s0 := @sys_start B (TopicChannel.publish (e 1%Z) false (@TopicChannel.new B)).2 [(e 1%Z, false)] in
  let s1 := MkSys (TopicChannel.publish (e 2%Z) false (s_chan s0)).2 (s_core s0) [] [(e 1%Z, false); (e 2%Z, false)] in
  let s2 := MkSys (s_chan s1) (core_sent (s_core s1)) [e 1%Z] (s_log s1) in
  ∃ unread, s_sent s2 ++ core_queue (s_core s2) ++ unread = [e 1%Z] ++ [e 2%Z].
Proof.
  intros B F e s0 s1 s2.
  destruct (@forwarder_stream_exact B (Reference.ref_broadcast_laws Envelope)
    (MkConfig (TopicChannel.publish (e 1%Z) false (@TopicChannel.new B)).2 [] [(e 1%Z, false)]) s2) as (u & _ & Hu).
  - apply (ReachStep (MkConfig TopicChannel.new [] [])); [apply ReachNew|]. apply (StepPublish TopicChannel.new [] []).
  - apply NoDup_singleton.
  - apply (SysStep _ s1).
    + apply (SysStep _ s0); [apply SysRefl|]. apply (SysPublish (s_chan s0) (s_core s0) [] [(e 1%Z, false)]).
      intros Hin%list_elem_of_singleton. discriminate.
    + apply (SysSend (s_chan s1) (s_core s1) [] (s_log s1) (e 1%Z) []). reflexivity.
  - exists u. exact Hu.
Defined.

(** The fresh backlog of a wildcard subscription is in identifier order, not in
    the order of delivery. Here a forwarder of [#] has delivered 5 and then 3,
    which another node drew earlier; after a lag its recovery starts with 5
    again. *)
Module WildcardLag.
#[local] Instance B : Broadcast Envelope := Reference.ref_broadcast Envelope.
#[local] Instance M : Mpsc Envelope := Reference.ref_mpsc Envelope.
#[local] Existing Instance ReferenceStore.ref_store.
#[local] Instance feed : Feed Broker := broker_feed (Filter.MkFilter (lit "#")).

Definition e (n : Z) : Envelope := Sample.publish n (lit "a") [7%Z] false.
Definition pub (n : Z) (b : Broker) : Broker := (Broker.publish (Sample.topic (lit "a")) (e n) 0 (b, ∅)).2.1.

(** Subscribe, deliver 5 and 3, fall 257 behind, read: the identifiers queued
    after the recovery. *)
Definition queued_after_lag : list MessageId :=
  let '(c0, b0) := core_start Broker.new in
  let b1 := pub 3 (pub 5 b0) in
  let '((_, c1), b2) := core_recv c0 b1 in
  let '((_, c2), b3) := core_recv (core_sent c1) b2 in
  let b4 := fold_left (λ b n, pub (Z.of_nat n + 10) b) (seq 0 257) b3 in
  let '((_, c3), b5) := core_recv (core_sent c2) b4 in
  id <$> core_queue (core_recover c3 b5).1.
End WildcardLag.

Example wildcard_lag_recovery_repeats :
  head WildcardLag.queued_after_lag = Some (Sample.mid 5).
Proof. by vm_compute. Qed.
