(* ===== verification/Access.v ===== *)
(** * Who may do what ([topic_acl_permits] and the functions around it in
      [thoth-mesh-node/src/connection.rs], [reload.rs])

    A [Reloadable] is the option it currently holds: [get] reads it, [set]
    replaces it outright. *)

From S2P Require Import Prelude.
From S2P Require Import Text.
From S2P Require Import Topic.
From S2P Require Import Filter.
From S2P Require Import Message.
From S2P Require Import Fingerprint.
From S2P Require Import TopicAcl.
From S2P Require Import PeerTopicFilter.

(** [ReloadableAcls], and the four handles of [Shared] it replaces. *)
Record ReloadableAcls := MkReloadableAcls {
  topic_acl : option TopicAcl;
  peer_topic_acl : option TopicAcl;
  allow_peer : option (gset bytes);
  peer_topic_filter : option PeerTopicFilter;
}.

Definition allowlist_permits (allowed_peers : option (gset bytes)) (principal : Principal) : bool :=
  match allowed_peers, principal with
  | None, _ => true
  | Some allowed, Fp fp => bool_decide (fp ∈ allowed)
  | Some _, Anonymous => false
  end.

Definition topic_acl_permits (acl : option TopicAcl) (principal : Principal) (topic : Topic) (action : Action) : bool :=
  match acl with
  | None => true
  | Some acl => TopicAcl.permits acl principal topic action
  end.

Definition acl_permits (acls : ReloadableAcls) (is_peer : bool) (principal : Principal) (topic : Topic) (action : Action) : bool :=
  topic_acl_permits (if is_peer then peer_topic_acl acls else topic_acl acls) principal topic action.

Definition filter_acl_permits (acls : ReloadableAcls) (is_peer : bool) (principal : Principal) (filter : TopicFilter)
    (action : Action) : bool :=
  match (if is_peer then peer_topic_acl acls else topic_acl acls), as_topic filter with
  | None, _ => true
  | Some _, None => false
  | Some acl, Some topic => TopicAcl.permits acl principal topic action
  end.

(** A literal filter is authorised as its topic is, a wildcard only where the
    connection's role has no list. *)
Lemma filter_acl_permits_spec acls is_peer principal filter action :
  filter_acl_permits acls is_peer principal filter action
  = match as_topic filter with
    | Some topic => acl_permits acls is_peer principal topic action
    | None => match (if is_peer then peer_topic_acl acls else topic_acl acls) with Some _ => false | None => true end
    end.
Proof.
  unfold filter_acl_permits, acl_permits, topic_acl_permits.
  destruct (if is_peer then _ else _), (as_topic filter); done.
Qed.
