(* ===== verification/World.v ===== *)
(** * What every connection of a node shares
      ([thoth-mesh-node/src/shared.rs], the registry of [connection.rs],
      [reload.rs])

    [World] is [Shared], and the heap behind its [Arc]s: a connection's
    forwarders, its is-a-peer flag and its [Notify] are indices of the lists
    [w_forwarders], [w_is_peer] and [w_notified], a [JoinHandle] an index of
    [w_tasks]. A [HashMap]'s iteration order is [map_to_list]'s. *)

From S2P Require Import Prelude.
From S2P Require Import Text.
From S2P Require Import Topic.
From S2P Require Import Filter.
From S2P Require Import Runtime.
From S2P Require Import Message.
From S2P Require Import Interest.
From S2P Require Import PeerDirectory.
From S2P Require Import Membership.
From S2P Require Import TopicAcl.
From S2P Require Import PeerTopicFilter.
From S2P Require Import RateLimit.
From S2P Require Import MessageStore.
From S2P Require Import Broker.
From S2P Require Import Metrics.
From S2P Require Import DeadLetter.
From S2P Require Import PeerLinks.
From S2P Require Import Forwarder.
From S2P Require Import Async.
From S2P Require Import Access.

(** One entry of a connection's map of subscriptions: a task, with an
    acknowledgement channel or not, or membership of a group. *)
Inductive Subscription : Type :=
| Forwarder (handle : nat) (ack_tx : bool)
| Group (group : rstr).

Abbreviation Forwarders := (gmap TopicFilter Subscription) (only parsing).

Record ConnectionEntry := MkConnectionEntry {
  entry_forwarders : nat;
  entry_principal : Principal;
  entry_is_peer : nat;
  entry_outgoing_tx : nat;
}.

Record ConnectionRegistry := MkConnectionRegistry {
  connections : gmap Z ConnectionEntry;
  next_id : Z;
}.

(** What never changes: [Shared]'s plain fields. *)
Record Node := MkNode {
  node_id : PeerId;
  my_listen_addr : option rstr;
  dead_letter_topic : option Topic;
}.

Section world.
Context `{Broadcast Envelope} `{Mpsc Envelope} `{MessageStore} `{Uuids}.

Record World := MkWorld {
  w_hub : Hub;
  w_membership : Membership;
  w_interest : Interest;
  w_peer_links : PeerLinks;
  w_registry : ConnectionRegistry;
  w_discover : PeerDirectory;
  w_discovered : list rstr;
  w_acls : ReloadableAcls;
  w_rate_limiter : option RateLimiter;
  w_forwarders : list Forwarders;
  w_is_peer : list bool;
  w_notified : list bool;
  w_tasks : list (option Task);
  w_clock : Z;
  w_node : Node;
}.

Definition set_hub (x : Hub) (w : World) : World :=
  MkWorld x (w_membership w) (w_interest w) (w_peer_links w) (w_registry w) (w_discover w) (w_discovered w)
    (w_acls w) (w_rate_limiter w) (w_forwarders w) (w_is_peer w) (w_notified w) (w_tasks w) (w_clock w)
    (w_node w).
Definition set_membership (x : Membership) (w : World) : World :=
  MkWorld (w_hub w) x (w_interest w) (w_peer_links w) (w_registry w) (w_discover w) (w_discovered w)
    (w_acls w) (w_rate_limiter w) (w_forwarders w) (w_is_peer w) (w_notified w) (w_tasks w) (w_clock w)
    (w_node w).
Definition set_interest (x : Interest) (w : World) : World :=
  MkWorld (w_hub w) (w_membership w) x (w_peer_links w) (w_registry w) (w_discover w) (w_discovered w)
    (w_acls w) (w_rate_limiter w) (w_forwarders w) (w_is_peer w) (w_notified w) (w_tasks w) (w_clock w)
    (w_node w).
Definition set_peer_links (x : PeerLinks) (w : World) : World :=
  MkWorld (w_hub w) (w_membership w) (w_interest w) x (w_registry w) (w_discover w) (w_discovered w)
    (w_acls w) (w_rate_limiter w) (w_forwarders w) (w_is_peer w) (w_notified w) (w_tasks w) (w_clock w)
    (w_node w).
Definition set_registry (x : ConnectionRegistry) (w : World) : World :=
  MkWorld (w_hub w) (w_membership w) (w_interest w) (w_peer_links w) x (w_discover w) (w_discovered w)
    (w_acls w) (w_rate_limiter w) (w_forwarders w) (w_is_peer w) (w_notified w) (w_tasks w) (w_clock w)
    (w_node w).
Definition set_discover (x : PeerDirectory) (w : World) : World :=
  MkWorld (w_hub w) (w_membership w) (w_interest w) (w_peer_links w) (w_registry w) x (w_discovered w)
    (w_acls w) (w_rate_limiter w) (w_forwarders w) (w_is_peer w) (w_notified w) (w_tasks w) (w_clock w)
    (w_node w).
Definition set_discovered (x : list rstr) (w : World) : World :=
  MkWorld (w_hub w) (w_membership w) (w_interest w) (w_peer_links w) (w_registry w) (w_discover w) x
    (w_acls w) (w_rate_limiter w) (w_forwarders w) (w_is_peer w) (w_notified w) (w_tasks w) (w_clock w)
    (w_node w).
Definition set_acls (x : ReloadableAcls) (w : World) : World :=
  MkWorld (w_hub w) (w_membership w) (w_interest w) (w_peer_links w) (w_registry w) (w_discover w)
    (w_discovered w) x (w_rate_limiter w) (w_forwarders w) (w_is_peer w) (w_notified w) (w_tasks w)
    (w_clock w) (w_node w).
Definition set_rate_limiter (x : option RateLimiter) (w : World) : World :=
  MkWorld (w_hub w) (w_membership w) (w_interest w) (w_peer_links w) (w_registry w) (w_discover w)
    (w_discovered w) (w_acls w) x (w_forwarders w) (w_is_peer w) (w_notified w) (w_tasks w) (w_clock w)
    (w_node w).
Definition set_forwarders (x : list Forwarders) (w : World) : World :=
  MkWorld (w_hub w) (w_membership w) (w_interest w) (w_peer_links w) (w_registry w) (w_discover w)
    (w_discovered w) (w_acls w) (w_rate_limiter w) x (w_is_peer w) (w_notified w) (w_tasks w) (w_clock w)
    (w_node w).
Definition set_is_peer (x : list bool) (w : World) : World :=
  MkWorld (w_hub w) (w_membership w) (w_interest w) (w_peer_links w) (w_registry w) (w_discover w)
    (w_discovered w) (w_acls w) (w_rate_limiter w) (w_forwarders w) x (w_notified w) (w_tasks w) (w_clock w)
    (w_node w).
Definition set_notified (x : list bool) (w : World) : World :=
  MkWorld (w_hub w) (w_membership w) (w_interest w) (w_peer_links w) (w_registry w) (w_discover w)
    (w_discovered w) (w_acls w) (w_rate_limiter w) (w_forwarders w) (w_is_peer w) x (w_tasks w) (w_clock w)
    (w_node w).
Definition set_tasks (x : list (option Task)) (w : World) : World :=
  MkWorld (w_hub w) (w_membership w) (w_interest w) (w_peer_links w) (w_registry w) (w_discover w)
    (w_discovered w) (w_acls w) (w_rate_limiter w) (w_forwarders w) (w_is_peer w) (w_notified w) x (w_clock w)
    (w_node w).

(** An operation of one collaborator, as a step of the world. *)
Definition on {S A} (get : World → S) (set : S → World → World) (f : ST S A) : ST World A := λ w,
  let '(a, s) := f (get w) in (a, set s w).
Definition on_hub {A} : ST Hub A → ST World A := on w_hub set_hub.
Definition on_interest {A} : ST Interest A → ST World A := on w_interest set_interest.
Definition on_discover {A} : ST PeerDirectory A → ST World A := on w_discover set_discover.
Definition on_shared_broker (f : Broker → Broker) : ST World () := on_hub (on_broker (λ b, ((), f b))).

(** ** [ConnectionRegistry] *)

Definition new_registry : ConnectionRegistry := MkConnectionRegistry ∅ 0.

(** The id of the registration guard, and the two handles. *)
Definition register (principal : Principal) (outgoing_tx : nat) : ST World (Z * (nat * nat)) := λ w,
  let i := next_id (w_registry w) in
  let f := length (w_forwarders w) in
  let p := length (w_is_peer w) in
  let reg := MkConnectionRegistry
    (<[i := MkConnectionEntry f principal p outgoing_tx]> (connections (w_registry w))) (fetch_add 1 i) in
  ((i, (f, p)), set_forwarders (w_forwarders w ++ [∅]) (set_is_peer (w_is_peer w ++ [false]) (set_registry reg w))).

Definition unregister (i : Z) (r : ConnectionRegistry) : ConnectionRegistry :=
  MkConnectionRegistry (delete i (connections r)) (next_id r).

Definition len (r : ConnectionRegistry) : nat := size (connections r).

Definition snapshot (r : ConnectionRegistry) : list ConnectionEntry := (map_to_list (connections r)).*2.

(** ** Tasks: [tokio::spawn], [JoinHandle::abort] and one step of one *)

Definition spawn (t : Task) : ST World nat := λ w,
  (length (w_tasks w), set_tasks (w_tasks w ++ [Some t]) w).

(** A task that has ended already is left alone. *)
Definition abort (handle : nat) : ST World () := λ w,
  match w_tasks w !! handle with
  | Some (Some t) => ((), set_tasks (<[handle := None]> (w_tasks w)) (set_hub (end_task t (w_hub w)) w))
  | _ => ((), w)
  end.

Definition run_task (branch : Branch) (handle : nat) : ST World () := λ w,
  match w_tasks w !! handle with
  | Some (Some t) =>
      match task_step (w_clock w) branch t (w_hub w) with
      | Blocked => ((), w)
      | Ended h => ((), set_tasks (<[handle := None]> (w_tasks w)) (set_hub h w))
      | Continues t1 h => ((), set_tasks (<[handle := Some t1]> (w_tasks w)) (set_hub h w))
      end
  | _ => ((), w)
  end.

(** The acknowledgement channel of a task that is gone is closed. *)
Definition ack_try_send (handle : nat) (i : MessageId) : ST World () := λ w,
  match w_tasks w !! handle with
  | Some (Some t) => ((), set_tasks (<[handle := Some (offer_ack i t)]> (w_tasks w)) w)
  | _ => ((), w)
  end.

(** What happens to a subscription taken out of its map. *)
Definition stop_subscription (filter : TopicFilter) (outgoing_tx : nat) (s : Subscription) : ST World () :=
  match s with
  | Forwarder handle _ => abort handle
  | Group group => on_shared_broker (leave_group filter group outgoing_tx)
  end.

(** ** A connection's forwarders, behind their lock *)

Definition forwarders_of (f : nat) (w : World) : Forwarders := unwrap_or ∅ (w_forwarders w !! f).

Definition with_forwarders (f : nat) (m : Forwarders) (w : World) : World :=
  set_forwarders (<[f := m]> (w_forwarders w)) w.

(** [notify_one], and taking the permit. *)
Definition notify_one (d : nat) (w : World) : World := set_notified (<[d := true]> (w_notified w)) w.
Definition permit (d : nat) (w : World) : bool := unwrap_or false (w_notified w !! d).

(** [outgoing_tx.send(e).await]: [false] once the channel is closed. *)
Definition send_now (out : nat) (e : Envelope) : ST World bool := λ w,
  match send_out out e (w_hub w) with
  | Some (ok, h) => (ok, set_hub h w)
  | None => (false, w)
  end.
Definition send_await (out : nat) (e : Envelope) : Proc World bool :=
  Act (λ w, bool_decide (is_Some (send_out out e (w_hub w)))) (send_now out e) Ret.

Definition metric (f : Metrics → Metrics) : ST World () := on_hub (count f).
Definition new_envelope (k : MessageKind) : ST World Envelope := λ w,
  on_hub (fresh_envelope (node_id (w_node w)) k) w.

End world.
