(* ===== verification/Connection.v ===== *)
(** * One connection ([thoth-mesh-node/src/connection.rs])

    Every handler is a [Proc] on the [World]: a section is one critical section
    of a lock, or a run of operations of the task's own, so the runtime's
    threads interleave at the boundaries of the sections, and at the [await]s
    of the outgoing channel. *)

From S2P Require Import Prelude.
From S2P Require Import Text.
From S2P Require Import Topic.
From S2P Require Import Filter.
From S2P Require Import Runtime.
From S2P Require Import Message.
From S2P Require Import Framing.
From S2P Require Import Interest.
From S2P Require Import PeerDirectory.
From S2P Require Import Membership.
From S2P Require Import Handshake.
From S2P Require Import Redelivery.
From S2P Require Import TopicAcl.
From S2P Require Import PeerTopicFilter.
From S2P Require Import RateLimit.
From S2P Require Import MessageStore.
From S2P Require Import Broker.
From S2P Require Import Metrics.
From S2P Require Import DeadLetter.
From S2P Require Import Publishing.
From S2P Require Import PeerLinks.
From S2P Require Import Forwarder.
From S2P Require Import Async.
From S2P Require Import Access.
From S2P Require Import World.

(** A connection's own state: indices of the world's heap, and its identity. *)
Record ConnectionContext := MkContext {
  registration : Z;
  outgoing_tx : nat;
  forwarders : nat;
  is_peer_flag : nat;
  peer_identity : option PeerId;
  peer_fingerprint : option bytes;
  principal : Principal;
  peer_link_registration : option (PeerId * nat);
  disconnect : nat;
}.

Definition is_peer (c : ConnectionContext) : bool := bool_decide (is_Some (peer_identity c)).

Definition with_identity (p : PeerId) (c : ConnectionContext) : ConnectionContext :=
  MkContext (registration c) (outgoing_tx c) (forwarders c) (is_peer_flag c) (Some p) (peer_fingerprint c)
    (principal c) (peer_link_registration c) (disconnect c).
Definition with_link (l : PeerId * nat) (c : ConnectionContext) : ConnectionContext :=
  MkContext (registration c) (outgoing_tx c) (forwarders c) (is_peer_flag c) (peer_identity c) (peer_fingerprint c)
    (principal c) (Some l) (disconnect c).

Definition we_should_dial (node_id peer_id : PeerId) : bool := (PeerId.uuid node_id <? PeerId.uuid peer_id)%Z.

(** Why a durable subscription is refused, if it is. *)
Definition durable_rejection (has_store ack : bool) (group : option rstr) (fingerprint : option bytes)
    (filter : TopicFilter) : option rstr :=
  if ack then Some (lit "durable and ack are not supported together")
  else if bool_decide (is_Some group) then Some (lit "durable and group are not supported together")
  else if bool_decide (fingerprint = None) then Some (lit "durable subscriptions require a TLS client certificate")
  else if bool_decide (as_topic filter = None)
    then Some (lit "durable subscriptions require a literal topic, not a wildcard filter")
  else if negb has_store then Some (lit "durable subscriptions require --data-dir to be configured on this node")
  else None.

Section connection.
Context `{Broadcast Envelope} `{Mpsc Envelope} `{MessageStore} `{Uuids}.

Definition authenticated_sender (c : ConnectionContext) (claimed : PeerId) : PeerId :=
  match peer_fingerprint c with
  | None => claimed
  | Some fingerprint => PeerId.from_fingerprint fingerprint
  end.

Definition send (c : ConnectionContext) (e : Envelope) : Proc World bool := send_await (outgoing_tx c) e.

(** A new envelope of the node's, sent. *)
Definition reply (c : ConnectionContext) (k : MessageKind) : Proc World bool :=
  e ← sync (new_envelope k); send c e.

(** ** What is told to peer links *)

Definition propagate_interest (filter : TopicFilter) (now_interested : bool) : ST World () :=
  w ← get_st;
  e ← new_envelope (if now_interested then Message.Subscribe filter false None false else Message.Unsubscribe filter);
  on_hub (broadcast_interest e filter (peer_topic_filter (w_acls w)) (w_peer_links w)).

Definition propagate_peer (peer_id : PeerId) (listen_addr : rstr) : ST World () :=
  w ← get_st;
  e ← new_envelope (PeerAnnounce [MkPeerAdvert peer_id listen_addr]);
  on_hub (broadcast e (w_peer_links w)).

(** The interest catch-up of a new link. *)
Fixpoint catch_up (out : nat) (principal : Principal) (restriction : option PeerTopicFilter)
    (filters : list TopicFilter) : ST World () :=
  match filters with
  | [] => mret ()
  | filter :: filters' =>
      _ ← (if interest_permitted restriction principal filter
           then e ← new_envelope (Message.Subscribe filter false None false); on_hub (offer out e)
           else mret ());
      catch_up out principal restriction filters'
  end.

(** Every other peer known, in one announcement. *)
Definition announce_known (out : nat) (peer_id : PeerId) : ST World () :=
  w ← get_st;
  match PeerDirectory.snapshot_excluding (w_discover w) peer_id with
  | [] => mret ()
  | known => e ← new_envelope (PeerAnnounce ((λ p, MkPeerAdvert p.1 p.2) <$> known)); on_hub (offer out e)
  end.

(** The guard is the peer and the channel its [Drop] unregisters. The peer
    topic filter is an argument, read before the link is registered. *)
Definition register_peer_link (peer_id : PeerId) (principal : Principal) (peer_listen_addr : option rstr)
    (out disconnect : nat) : Proc World (PeerId * nat) :=
  restriction ← sync (gets (λ w : World, peer_topic_filter (w_acls w)));
  _ ← sync (on w_peer_links set_peer_links (λ l, ((), PeerLinks.register peer_id out principal disconnect l)));
  filters ← sync (gets (λ w, Interest.snapshot (w_interest w)));
  _ ← sync (catch_up out principal restriction filters);
  _ ← match peer_listen_addr with
      | Some listen_addr =>
          is_new ← sync (on_discover (PeerDirectory.record peer_id listen_addr));
          if is_new : bool then sync (propagate_peer peer_id listen_addr) else mret ()
      | None => mret ()
      end;
  _ ← sync (announce_known out peer_id);
  mret (peer_id, out).

Definition drop_link (l : PeerId * nat) : ST World () :=
  on w_peer_links set_peer_links (λ s, ((), PeerLinks.unregister l.1 l.2 s)).

(** [self.peer_link_registration = Some(l)]: the guard it held is dropped. *)
Definition assign_link (l : PeerId * nat) (c : ConnectionContext) : ST World ConnectionContext :=
  _ ← match peer_link_registration c with Some old => drop_link old | None => mret () end;
  mret (with_link l c).

(** The peers newly learned, the ones to dial handed to the dialer. *)
Fixpoint learn_loop (adverts : list PeerAdvert) : Proc World (list PeerAdvert) :=
  match adverts with
  | [] => mret []
  | advert :: adverts' =>
      n ← sync (gets w_node);
      if bool_decide (advert_peer_id advert = node_id n) then learn_loop adverts'
      else
        is_new ← sync (on_discover (PeerDirectory.record (advert_peer_id advert) (advert_listen_addr advert)));
        if is_new : bool then
          _ ← (if we_should_dial (node_id n) (advert_peer_id advert)
               then sync (λ w, ((), set_discovered (w_discovered w ++ [advert_listen_addr advert]) w))
               else mret ());
          newly ← learn_loop adverts';
          mret (advert :: newly)
        else learn_loop adverts'
  end.

Definition learn_peers (adverts : list PeerAdvert) : Proc World () :=
  newly_learned ← learn_loop adverts;
  match newly_learned with
  | [] => mret ()
  | _ => sync (w ← get_st; e ← new_envelope (PeerAnnounce newly_learned); on_hub (broadcast e (w_peer_links w)))
  end.

Definition handle_peer_announce (peers : list PeerAdvert) : Proc World () := learn_peers peers.

(** ** Becoming a peer link *)

Definition allowed (c : ConnectionContext) : ST World bool :=
  gets (λ w, allowlist_permits (allow_peer (w_acls w)) (principal c)).

(** [peer_identity], the flag and the membership entry. *)
Definition become_peer (peer_id : PeerId) (listen_addr : option rstr) (c : ConnectionContext) :
    ST World ConnectionContext := λ w,
  (with_identity peer_id c,
   set_is_peer (<[is_peer_flag c := true]> (w_is_peer w))
     (set_membership (mark_connected peer_id listen_addr (w_membership w)) w)).

(** The second look at the allowlist, once the link is registered. *)
Definition recheck_allowed (c : ConnectionContext) : ST World () := λ w,
  if allowlist_permits (allow_peer (w_acls w)) (principal c) then ((), w) else ((), notify_one (disconnect c) w).

Definition not_allowed : rstr := lit "peer certificate not on the --allow-peer allowlist".

Definition link_up (peer_id : PeerId) (listen_addr : option rstr) (c : ConnectionContext) :
    Proc World ConnectionContext :=
  l ← register_peer_link peer_id (principal c) listen_addr (outgoing_tx c) (disconnect c);
  c ← sync (assign_link l c);
  _ ← sync (recheck_allowed c);
  mret c.

Definition admit_initial_peer (c : ConnectionContext) (peer_id : PeerId) (listen_addr : option rstr)
    (hello_id : MessageId) : Proc World (ConnectionContext * bool) :=
  let peer_id := authenticated_sender c peer_id in
  ok ← sync (allowed c);
  if negb (ok : bool) then
    _ ← reply c (Message.Error (Some hello_id) not_allowed);
    mret (c, false)
  else
    c ← sync (become_peer peer_id listen_addr c);
    c ← link_up peer_id listen_addr c;
    mret (c, true).

Definition handle_hello (c : ConnectionContext) (envelope : Envelope) (listen_addr : option rstr) :
    Proc World (ConnectionContext * bool) :=
  ok ← sync (allowed c);
  if negb (ok : bool) then
    _ ← reply c (Message.Error (Some (Message.id envelope)) not_allowed);
    mret (c, false)
  else
    c ← sync (become_peer (sender envelope) listen_addr c);
    n ← sync (gets w_node);
    sent ← reply c (Hello (my_listen_addr n));
    if negb sent then mret (c, false)
    else
      c ← link_up (sender envelope) listen_addr c;
      mret (c, true).

(** ** Subscriptions *)

Definition may_subscribe (c : ConnectionContext) (filter : TopicFilter) : ST World bool :=
  gets (λ w, filter_acl_permits (w_acls w) (is_peer c) (principal c) filter TopicAcl.Subscribe).

(** The rejection's counter: the client's or the peer link's. *)
Definition count_rejection (c : ConnectionContext) : ST World () :=
  metric (if is_peer c then record_peer_topic_acl_rejection else record_topic_acl_rejection).

Definition refuse_subscribe (c : ConnectionContext) (envelope : Envelope) (filter : TopicFilter) : Proc World bool :=
  _ ← sync (count_rejection c);
  reply c (Message.Error (Some (Message.id envelope)) (lit "not authorized to subscribe to " ++ Filter.as_str filter)).

(** What is registered for a filter the connection has not subscribed to. *)
Definition start_subscription (c : ConnectionContext) (subscriber : PeerId) (filter : TopicFilter) (ack : bool)
    (group : option rstr) (durable : bool) : ST World Subscription :=
  n ← gets w_node;
  let config := MkDeadLetterConfig (node_id n) (dead_letter_topic n) in
  match group with
  | Some group => _ ← on_shared_broker (join_group filter group (outgoing_tx c) ack); mret (Group group)
  | None =>
      match (if durable then as_topic filter else None) with
      | Some topic =>
          h ← spawn (spawn_durable_forwarder filter topic subscriber (outgoing_tx c) config);
          mret (World.Forwarder h false)
      | None =>
          if ack then
            h ← spawn (spawn_ack_forwarder filter (outgoing_tx c) DEFAULT_ACK_TIMEOUT DEFAULT_MAX_REDELIVERY_ATTEMPTS config);
            mret (World.Forwarder h true)
          else
            h ← spawn (spawn_forwarder filter (outgoing_tx c) config);
            mret (World.Forwarder h false)
      end
  end.

(** [forwarders.entry(filter).or_insert_with(…)], and whether it inserted. *)
Definition insert_forwarder (c : ConnectionContext) (subscriber : PeerId) (filter : TopicFilter) (ack : bool)
    (group : option rstr) (durable : bool) : ST World bool :=
  w ← get_st;
  match forwarders_of (forwarders c) w !! filter with
  | Some _ => mret false
  | None =>
      s ← start_subscription c subscriber filter ack group durable;
      _ ← modify (λ w, with_forwarders (forwarders c) (<[filter := s]> (forwarders_of (forwarders c) w)) w);
      mret true
  end.

(** [forwarders.remove(&filter)] and what follows under the lock: whether there
    was one. *)
Definition remove_forwarder (c : ConnectionContext) (filter : TopicFilter) : ST World bool :=
  w ← get_st;
  match forwarders_of (forwarders c) w !! filter with
  | None => mret false
  | Some s =>
      _ ← modify (with_forwarders (forwarders c) (delete filter (forwarders_of (forwarders c) w)));
      _ ← stop_subscription filter (outgoing_tx c) s;
      mret true
  end.

Definition handle_subscribe (c : ConnectionContext) (envelope : Envelope) (filter : TopicFilter) (ack : bool)
    (group : option rstr) (durable : bool) : Proc World bool :=
  stored ← sync (gets (λ w, has_store (h_broker (w_hub w))));
  match (if durable then durable_rejection stored ack group (peer_fingerprint c) filter else None) with
  | Some message => reply c (Message.Error (Some (Message.id envelope)) message)
  | None =>
      permitted ← sync (may_subscribe c filter);
      if negb permitted then refuse_subscribe c envelope filter
      else
        is_new_forwarder ← sync (insert_forwarder c (sender envelope) filter ack group durable);
        still ← (if is_new_forwarder : bool then sync (may_subscribe c filter) else mret true);
        if negb still then
          _ ← sync (remove_forwarder c filter);
          refuse_subscribe c envelope filter
        else
          became_newly_interested ←
            (if is_new_forwarder : bool then sync (on_interest (Interest.subscribe filter)) else mret false);
          sent ← reply c (Message.Ack (Message.id envelope));
          if negb sent then mret false
          else
            _ ← (if became_newly_interested : bool then sync (propagate_interest filter true) else mret ());
            mret true
  end.

(** [interest.unsubscribe], and the announcement at a 1-0 transition. *)
Definition release_interest (filter : TopicFilter) : Proc World () :=
  lost ← sync (on_interest (Interest.unsubscribe filter));
  if lost : bool then sync (propagate_interest filter false) else mret ().

Definition handle_unsubscribe (c : ConnectionContext) (envelope : Envelope) (filter : TopicFilter) : Proc World bool :=
  had_forwarder ← sync (remove_forwarder c filter);
  sent ← reply c (Message.Ack (Message.id envelope));
  if negb sent then mret false
  else
    _ ← (if had_forwarder : bool then release_interest filter else mret ());
    mret true.

(** ** Publishing *)

(** The broker and the channels of the world. *)
Definition on_shared {A} (f : ST (Broker * mpsc_store Envelope) A) : ST World A := on_hub (λ h,
  let '(a, (b, chans)) := f (h_broker h, h_chans h) in (a, MkHub b chans (h_ids h) (h_metrics h))).

Definition handle_publish (c : ConnectionContext) (envelope : Envelope) : Proc World bool :=
  match publish_topic (kind envelope) with
  | None => mret false
  | Some topic =>
      permitted ← sync (gets (λ w : World, acl_permits (w_acls w) (is_peer c) (principal c) topic TopicAcl.Publish));
      if negb permitted then
        _ ← sync (count_rejection c);
        reply c (Message.Error (Some (Message.id envelope)) (lit "not authorized to publish to " ++ Topic.as_str topic))
      else
        within ← sync (λ w : World,
          match (if is_peer c then None else w_rate_limiter w) with
          | None => (true, w)
          | Some limiter =>
              let '(ok, limiter1) := allow (principal c) (w_clock w) limiter in
              (ok, set_rate_limiter (Some limiter1) w)
          end);
        if negb within then
          _ ← sync (metric record_publish_rate_limit_rejection);
          reply c (Message.Error (Some (Message.id envelope)) (lit "publish rate limit exceeded for " ++ Topic.as_str topic))
        else
          _ ← publish_sections (@on_shared) w_clock topic envelope;
          mret true
  end.

(** ** The other requests *)

Definition handle_ack (c : ConnectionContext) (in_reply_to : MessageId) : ST World () :=
  w ← get_st;
  for_each (map_to_list (forwarders_of (forwarders c) w)) (λ p,
    match p.2 with
    | World.Forwarder handle true => ack_try_send handle in_reply_to
    | World.Forwarder _ false => mret ()
    | Group group => on_shared_broker (ack_group_delivery p.1 group in_reply_to)
    end).

Definition connected_peers (m : Membership) : list PeerSummary :=
  sort_by_key (λ p, PeerId.uuid (summary_peer_id p))
    ((λ p : PeerId * PeerStatus, MkPeerSummary p.1 (Membership.listen_addr p.2))
       <$> List.filter (λ p, connected p.2) (map_to_list (Membership.snapshot m))).

Definition handle_status (c : ConnectionContext) (envelope : Envelope) : Proc World bool :=
  peers ← sync (gets (λ w, connected_peers (w_membership w)));
  k ← sync (gets (λ w, StatusReply (Message.id envelope) (node_id (w_node w)) (my_listen_addr (w_node w)) peers
        (summary (w_membership w) (h_broker (w_hub w)) (w_discover w) (h_metrics (w_hub w)) (w_rate_limiter w))));
  reply c k.

Definition topic_name_le (a b : TopicSummary) : Prop :=
  str_leb (Topic.as_str (topic_summary_topic a)) (Topic.as_str (topic_summary_topic b)) = true.
#[export] Instance topic_name_le_dec : RelDecision topic_name_le.
Proof. intros a b. unfold topic_name_le. apply _. Defined.

Definition active_topics (infos : list TopicInfo) : list TopicSummary :=
  merge_sort topic_name_le
    ((λ i, MkTopicSummary (info_topic i) (info_subscribers i) (info_messages_buffered i))
       <$> List.filter (λ i, (0 <? info_subscribers i)%Z || (0 <? info_messages_buffered i)%Z) infos).

Definition handle_topics (c : ConnectionContext) (envelope : Envelope) : Proc World bool :=
  listed ← sync (gets (λ w, active_topics (topics (h_chans (w_hub w)) (h_broker (w_hub w)))));
  reply c (TopicsReply (Message.id envelope) listed).

(** ** The end of a connection *)

Fixpoint release_all (out : nat) (l : list (TopicFilter * Subscription)) : Proc World () :=
  match l with
  | [] => mret ()
  | (filter, s) :: l' =>
      _ ← sync (stop_subscription filter out s);
      _ ← release_interest filter;
      release_all out l'
  end.

(** [drain()] keeps the lock to the end of its loop: nobody sees the map
    before it is empty. *)
Definition shut_down (c : ConnectionContext) : Proc World () :=
  l ← sync (w ← get_st;
            _ ← modify (with_forwarders (forwarders c) ∅);
            mret (map_to_list (forwarders_of (forwarders c) w)));
  _ ← release_all (outgoing_tx c) l;
  match peer_identity c with
  | Some peer_id => sync (on w_membership set_membership (λ m, ((), mark_disconnected peer_id m)))
  | None => mret ()
  end.

(** The guards' [Drop]s, in the order of the fields. *)
Definition drop_context (c : ConnectionContext) : Proc World () :=
  _ ← sync (on w_registry set_registry (λ r, ((), unregister (registration c) r)));
  match peer_link_registration c with
  | Some l => sync (drop_link l)
  | None => mret ()
  end.

(** ** The whole of a connection *)

Definition dispatch (c : ConnectionContext) (envelope : Envelope) : Proc World (ConnectionContext * bool) :=
  match kind envelope with
  | Message.Subscribe filter ack group durable =>
      keep ← handle_subscribe c envelope filter ack group durable; mret (c, keep)
  | Message.Unsubscribe filter => keep ← handle_unsubscribe c envelope filter; mret (c, keep)
  | Message.Publish _ _ _ _ _ _ => keep ← handle_publish c envelope; mret (c, keep)
  | Message.Ack in_reply_to => _ ← sync (handle_ack c in_reply_to); mret (c, true)
  | Message.Error _ _ | StatusReply _ _ _ _ _ | TopicsReply _ _ => mret (c, true)
  | Hello listen_addr => handle_hello c envelope listen_addr
  | PeerAnnounce peers => _ ← handle_peer_announce peers; mret (c, true)
  | StatusRequest => keep ← handle_status c envelope; mret (c, keep)
  | TopicsRequest => keep ← handle_topics c envelope; mret (c, keep)
  end.

(** What the read loop waits for: a frame, or the connection's own
    [disconnect]. *)
Inductive Event : Type :=
| Incoming (frame : Result bytes (FramingError io_error))
| Revoked.

Context {CborError : Type}.
Context (from_reader : bytes → Result Envelope CborError).

Definition revoked_message : rstr := lit "disconnected: no longer on --allow-peer allowlist (config reload)".

Definition take_permit (c : ConnectionContext) : ST World () :=
  _ ← modify (λ w, set_notified (<[disconnect c := false]> (w_notified w)) w);
  e ← new_envelope (Message.Error None revoked_message);
  on_hub (offer (outgoing_tx c) e).

(** The end of the stream is the end of the events. *)
Fixpoint read_loop (events : list Event) (c : ConnectionContext) : Proc World ConnectionContext :=
  match events with
  | [] | Incoming (Err _) :: _ => mret c
  | Incoming (Ok b) :: events' =>
      match Envelope.from_bytes from_reader b with
      | Err _ => mret c
      | Ok e =>
          r ← dispatch c (MkEnvelope (version e) (Message.id e) (authenticated_sender c (sender e)) (kind e));
          if r.2 : bool then read_loop events' r.1 else mret r.1
      end
  | Revoked :: _ => Act (permit (disconnect c)) (take_permit c) (λ _, mret c)
  end.

(** [out] is the channel the connection has just created. *)
Definition open_context (fingerprint : option bytes) (out : nat) : ST World ConnectionContext :=
  d ← (λ w, (length (w_notified w), set_notified (w_notified w ++ [false]) w));
  let principal := from_fingerprint fingerprint in
  r ← World.register principal out;
  mret (MkContext r.1 out r.2.1 r.2.2 None fingerprint principal None d).

Definition run_connection (fingerprint : option bytes) (out : nat) (initial_peer : option PeerInfo)
    (events : list Event) : Proc World () :=
  c ← sync (open_context fingerprint out);
  r ← match initial_peer with
      | Some p => admit_initial_peer c (peer_id p) (listen_addr p) (hello_id p)
      | None => mret (c, true)
      end;
  if negb r.2 then drop_context r.1
  else
    c ← read_loop events r.1;
    _ ← shut_down c;
    drop_context c.

(** ** [reconcile_topic_acls] *)

(** What the lists [a] let a registered connection subscribe to. *)
Definition permitted (a : ReloadableAcls) (w : World) (entry : ConnectionEntry) (f : TopicFilter) : bool :=
  filter_acl_permits a (unwrap_or false (w_is_peer w !! entry_is_peer entry)) (entry_principal entry) f TopicAcl.Subscribe.

(** The filters of one connection that its list no longer permits, taken out
    under its lock. *)
Definition take_forbidden (a : ReloadableAcls) (entry : ConnectionEntry) : ST World (list (TopicFilter * Subscription)) := λ w,
  let m := forwarders_of (entry_forwarders entry) w in
  (map_to_list (base.filter (λ p : TopicFilter * Subscription, permitted a w entry p.1 = false) m),
   with_forwarders (entry_forwarders entry)
     (base.filter (λ p : TopicFilter * Subscription, permitted a w entry p.1 = true) m) w).

Fixpoint reconcile_entries (a : ReloadableAcls) (entries : list ConnectionEntry) : Proc World () :=
  match entries with
  | [] => mret ()
  | entry :: entries' =>
      stopped ← sync (take_forbidden a entry);
      _ ← release_all (entry_outgoing_tx entry) stopped;
      reconcile_entries a entries'
  end.

Definition reconcile_topic_acls : Proc World () :=
  a ← sync (gets w_acls);
  entries ← sync (gets (λ w, World.snapshot (w_registry w)));
  reconcile_entries a entries.
End connection.
