(* ===== verification/ConnectionSpec.v ===== *)
(** * What the connections do together

    The interest counts and the connections' subscriptions, under every
    interleaving of the sections of [Connection.v]. *)

From S2P Require Import Prelude.
From S2P Require Import Text.
From S2P Require Import Topic.
From S2P Require Import Filter.
From S2P Require Import Runtime.
From S2P Require Import Message.
From S2P Require Import Framing.
From S2P Require Import Interest.
From S2P Require Import PeerDirectory.
From S2P Require Import Membership.
From S2P Require Import Handshake.
From S2P Require Import TopicAcl.
From S2P Require Import RateLimit.
From S2P Require Import MessageStore.
From S2P Require Import Broker.
From S2P Require Import Metrics.
From S2P Require Import DeadLetter.
From S2P Require Import Publishing.
From S2P Require Import PeerLinks.
From S2P Require Import Forwarder.
From S2P Require Import Async.
From S2P Require Import Access.
From S2P Require Import World.
From S2P Require Import Connection.

#[local] Open Scope nat_scope.

(** ** Counting the connections that hold a filter *)

Definition holds (f : TopicFilter) (m : Forwarders) : bool := bool_decide (is_Some (m !! f)).
Definition holders (f : TopicFilter) (l : list Forwarders) : nat := length (List.filter (holds f) l).

Lemma holders_insert f l i m m' :
  l !! i = Some m → holders f (<[i := m']> l) + Nat.b2n (holds f m) = holders f l + Nat.b2n (holds f m').
Proof.
  unfold holders. revert i; induction l as [|x l IH]; intros [|i] Hi; simplify_eq/=.
  - destruct (holds f m), (holds f m'); simpl; lia.
  - specialize (IH i Hi). destruct (holds f x); simpl; lia.
Qed.

Lemma holders_app f l k : holders f (l ++ k) = holders f l + holders f k.
Proof. unfold holders. by rewrite List.filter_app, length_app. Qed.

Lemma holders_pos f l i m : l !! i = Some m → is_Some (m !! f) → 0 < holders f l.
Proof.
  intros Hi Hf. pose proof (holders_insert f l i m ∅ Hi) as Hh.
  unfold holds in Hh. rewrite bool_decide_true in Hh by done.
  rewrite bool_decide_false in Hh by (rewrite lookup_empty; by intros [? ?]). cbn in Hh. lia.
Qed.

(** ** Obligations

    A running connection owns its map, and may have put in it a filter it has
    not counted yet; whoever took a filter out of a map owes its release. *)
Inductive Debt : Type :=
| Own (i : nat) (pending : option TopicFilter)
| Owe (f : TopicFilter).

Definition owned (d : list Debt) : list nat :=
  omap (λ x, match x with Own i _ => Some i | Owe _ => None end) d.
Definition owes (f : TopicFilter) (d : list Debt) : nat :=
  length (List.filter (λ x, match x with Owe g => bool_decide (g = f) | _ => false end) d).
Definition dues (f : TopicFilter) (d : list Debt) : nat :=
  length (List.filter (λ x, match x with Own _ (Some g) => bool_decide (g = f) | _ => false end) d).

(** What may be left behind, or is held while waiting. *)
Definition settled (d : list Debt) : Prop := ∀ i o, Own i o ∈ d → o = None.

Section ledger.
Context `{Broadcast Envelope} `{Mpsc Envelope} `{MessageStore} `{Uuids}.

Definition ledger (w : World) : list Forwarders * Interest := (w_forwarders w, w_interest w).

Definition accounted_in (d : list Debt) (l : list Forwarders * Interest) : Prop :=
  NoDup (owned d)
  ∧ (∀ i o, Own i o ∈ d → ∃ m, l.1 !! i = Some m ∧ ∀ f, o = Some f → is_Some (m !! f))
  ∧ ∀ f, holders f l.1 + owes f d ≤ Interest.count l.2 f + dues f d.
Definition accounted (d : list Debt) (w : World) : Prop := accounted_in d (ledger w).

Lemma filter_length_perm {A} (p : A → bool) l k : l ≡ₚ k → length (List.filter p l) = length (List.filter p k).
Proof. induction 1; simpl; repeat case_match; simpl; lia. Qed.

Lemma accounted_perm d d' w : d ≡ₚ d' → accounted d w → accounted d' w.
Proof.
  intros Hp (Hnd & Hown & Hc). split; [|split].
  - eapply NoDup_Permutation_proper; [|exact Hnd]. unfold owned. by rewrite Hp.
  - intros i o Ho. apply Hown. by rewrite Hp.
  - intros f. specialize (Hc f). unfold owes, dues in *. rewrite <-(filter_length_perm _ _ _ Hp).
    rewrite <-(filter_length_perm (λ x, match x with Own _ (Some g) => bool_decide (g = f) | _ => false end) _ _ Hp).
    done.
Qed.

Lemma owes_app f d k : owes f (d ++ k) = owes f d + owes f k.
Proof. unfold owes. by rewrite List.filter_app, length_app. Qed.
Lemma dues_app f d k : dues f (d ++ k) = dues f d + dues f k.
Proof. unfold dues. by rewrite List.filter_app, length_app. Qed.
Lemma owned_app d k : owned (d ++ k) = owned d ++ owned k.
Proof. apply omap_app. Qed.

Lemma settled_dues f d : settled d → dues f d = 0.
Proof.
  intros Hs. unfold dues. induction d as [|x d IH]; [done|]. cbn.
  assert (settled d) as Hd by (intros i o Ho; apply (Hs i); by constructor).
  destruct x as [i [g|]|g]; [|by apply IH..]. specialize (Hs i (Some g)). by discriminate Hs; constructor.
Qed.

Lemma accounted_forgive d owed w : settled d → accounted (d ++ owed) w → accounted owed w.
Proof.
  intros Hs (Hnd & Hown & Hc). split; [|split].
  - rewrite owned_app in Hnd. by apply NoDup_app in Hnd as (_ & _ & ?).
  - intros i o Ho. apply Hown. apply elem_of_app. by right.
  - intros f. specialize (Hc f). rewrite owes_app, dues_app, (settled_dues f d Hs) in Hc. lia.
Qed.

(** ** Sections that do not touch the ledger *)

Definition quiet {A} (f : ST World A) : Prop := ∀ w, ledger (f w).2 = ledger w.

Lemma quiet_ret {A} (a : A) : quiet (mret a).
Proof. done. Qed.
Lemma quiet_get_st : quiet get_st.
Proof. done. Qed.
Lemma quiet_gets {A} (f : World → A) : quiet (gets f).
Proof. done. Qed.
Lemma quiet_bind {A B} (m : ST World A) (f : A → ST World B) : quiet m → (∀ a, quiet (f a)) → quiet (m ≫= f).
Proof.
  intros Hm Hf w. unfold mbind, ST_bind. specialize (Hm w). destruct (m w) as [a w1]. cbn in *. by rewrite Hf.
Qed.
Lemma quiet_for_each {A} (l : list A) (f : A → ST World ()) : (∀ a, quiet (f a)) → quiet (for_each l f).
Proof. intros Hf. induction l as [|a l IH]; [done|]. intros w. cbn. rewrite IH. apply Hf. Qed.
Lemma quiet_on {S A} (g : World → S) (s : S → World → World) (f : ST S A) :
  (∀ x w, ledger (s x w) = ledger w) → quiet (on g s f).
Proof. intros Hs w. unfold on. destruct (f (g w)). cbn. apply Hs. Qed.
Lemma quiet_hub {A} (f : ST Hub A) : quiet (on_hub f).
Proof. by apply quiet_on. Qed.
Lemma quiet_discover {A} (f : ST PeerDirectory A) : quiet (on_discover f).
Proof. by apply quiet_on. Qed.
Lemma quiet_envelope k : quiet (new_envelope k).
Proof. intros w. unfold new_envelope. by rewrite (quiet_hub _ w). Qed.
Lemma quiet_spawn t : quiet (spawn t).
Proof. done. Qed.
Lemma quiet_abort h : quiet (abort h).
Proof. intros w. unfold abort. by repeat case_match. Qed.
Lemma quiet_ack_try_send h i : quiet (ack_try_send h i).
Proof. intros w. unfold ack_try_send. by repeat case_match. Qed.
Lemma quiet_stop f out s : quiet (stop_subscription f out s).
Proof. destruct s; [apply quiet_abort|apply quiet_hub]. Qed.

Lemma keeps_quiet {A} d (f : ST World A) w : ledger (f w).2 = ledger w → keeps accounted d d f w.
Proof. intros Hf owed. unfold accounted. by rewrite Hf. Qed.

Lemma pays_quiet {A} d (f : ST World A) : quiet f → pays accounted settled d (sync f) (leaves (λ _, d)).
Proof. intros Hf. apply pays_sync. intros w. by apply keeps_quiet. Qed.
End ledger.

Create HintDb quiet.
#[export] Hint Resolve quiet_ret quiet_get_st quiet_gets quiet_bind quiet_for_each quiet_hub quiet_discover quiet_envelope quiet_spawn
  quiet_abort quiet_ack_try_send quiet_stop : quiet.
#[export] Hint Extern 1 (quiet (on _ _ _)) => by apply quiet_on : quiet.

(** A section, or a function all of whose sections are quiet: case by case. *)
Ltac quiet :=
  repeat first
    [ match goal with |- ∀ _, _ => intro end
    | apply quiet_bind
    | apply quiet_for_each
    | solve [auto with quiet]
    | match goal with |- quiet (match ?x with _ => _ end) => destruct x end
    | solve [intros ?; done] ].

(** ** The sections that do *)

Section interest.
Context `{Broadcast Envelope} `{Mpsc Envelope} `{MessageStore} `{Uuids}.

Lemma owned_cons_own i o d : owned (Own i o :: d) = i :: owned d.
Proof. done. Qed.

(** Writing a map one owns. *)
Lemma accounted_update i o o' m m' es owed (l : list Forwarders) s :
  owned es = [] → accounted_in (Own i o :: owed) (l, s) → l !! i = Some m →
  (∀ g, o' = Some g → is_Some (m' !! g)) →
  (∀ g, Nat.b2n (holds g m') + owes g es + dues g [Own i o] ≤ Nat.b2n (holds g m) + dues g [Own i o']) →
  accounted_in (Own i o' :: es ++ owed) (<[i := m']> l, s).
Proof.
  intros Hes (Hnd & Hown & Hc) Hm Ho' Hle. cbn [fst snd] in *. split; [|split].
  - by rewrite owned_cons_own, owned_app, Hes.
  - intros j oj Hj. cbn [fst]. apply elem_of_cons in Hj as [[= -> ->]|Hj].
    { exists m'. split; [|done]. apply list_lookup_insert_eq. by eapply lookup_lt_Some. }
    apply elem_of_app in Hj as [Hj|Hj].
    { exfalso. assert (j ∈ owned es) as Hin; [|by rewrite Hes in Hin; apply not_elem_of_nil in Hin].
      apply list_elem_of_omap. by exists (Own j oj). }
    destruct (decide (i = j)) as [->|Hij].
    { rewrite owned_cons_own in Hnd. apply NoDup_cons in Hnd as [Hni _]. exfalso. apply Hni.
      apply list_elem_of_omap. by exists (Own j oj). }
    rewrite list_lookup_insert_ne by done. apply (Hown j oj). by constructor.
  - intros g. cbn [fst snd]. specialize (Hc g). specialize (Hle g). pose proof (holders_insert g l i m m' Hm) as Hh.
    change (Own i o' :: es ++ owed) with ([Own i o'] ++ es ++ owed).
    change (Own i o :: owed) with ([Own i o] ++ owed) in Hc.
    rewrite !owes_app, !dues_app in *. rewrite (settled_dues g es). 2:{ intros j oj Hj. exfalso.
      assert (j ∈ owned es) as Hin; [|by rewrite Hes in Hin; apply not_elem_of_nil in Hin].
      apply list_elem_of_omap. by exists (Own j oj). }
    change (owes g [Own i o']) with 0. change (owes g [Own i o]) with 0 in *. lia.
Qed.

Lemma own_lookup i o owed w :
  accounted ([Own i o] ++ owed) w →
  w_forwarders w !! i = Some (forwarders_of i w) ∧ ∀ f, o = Some f → is_Some (forwarders_of i w !! f).
Proof.
  intros (_ & Hown & _). destruct (Hown i o) as (m & Hm & Hf); [by constructor|]. unfold forwarders_of.
  cbn in Hm. rewrite Hm. done.
Qed.

Lemma dues_none g i : dues g [Own i None] = 0.
Proof. done. Qed.
Lemma dues_some g i f : dues g [Own i (Some f)] = Nat.b2n (bool_decide (f = g)).
Proof. unfold dues. cbn. by destruct (bool_decide (f = g)). Qed.

Lemma holds_insert g f s (m : Forwarders) : holds g (<[f := s]> m) = bool_decide (f = g) || holds g m.
Proof.
  unfold holds. destruct (decide (f = g)) as [->|Hne].
  - rewrite lookup_insert_eq, !bool_decide_true by eauto. done.
  - rewrite lookup_insert_ne, (bool_decide_false (f = g)) by done. done.
Qed.

Lemma holds_delete g f (m : Forwarders) : holds g (delete f m) = negb (bool_decide (f = g)) && holds g m.
Proof.
  unfold holds. destruct (decide (f = g)) as [->|Hne].
  - rewrite lookup_delete_eq, (bool_decide_true (g = g)) by done. rewrite bool_decide_false; [done|by intros [? ?]].
  - rewrite lookup_delete_ne, (bool_decide_false (f = g)) by done. done.
Qed.

Lemma quiet_start_subscription c subscriber f ack group durable :
  quiet (start_subscription c subscriber f ack group durable).
Proof. unfold start_subscription, on_shared_broker. quiet. Qed.

Lemma insert_forwarder_pays c subscriber f ack group durable :
  pays accounted settled [Own (forwarders c) None] (sync (insert_forwarder c subscriber f ack group durable))
    (leaves (λ b : bool, [Own (forwarders c) (if b then Some f else None)])).
Proof.
  apply pays_sync. intros w owed HI. apply own_lookup in HI as Hi. destruct Hi as [Hi _].
  unfold insert_forwarder, mbind, ST_bind, get_st. destruct (forwarders_of (forwarders c) w !! f) as [s|] eqn:Hf; [done|].
  pose proof (quiet_start_subscription c subscriber f ack group durable w) as Hq.
  destruct (start_subscription _ _ _ _ _ _ w) as [s w1]. cbn in *. unfold accounted in HI. rewrite <-Hq in HI.
  unfold ledger in HI, Hq. injection Hq as Hq _.
  unfold accounted, ledger. cbn. refine (accounted_update _ None (Some f) _ _ [] _ _ _ eq_refl HI _ _ _).
  - rewrite Hq. exact Hi.
  - intros g [= <-]. rewrite lookup_insert_eq. eauto.
  - intros g. rewrite dues_none, dues_some.
    assert (forwarders_of (forwarders c) w1 = forwarders_of (forwarders c) w) as Hfo by (unfold forwarders_of; by rewrite Hq).
    rewrite Hfo, holds_insert. destruct (decide (f = g)) as [->|Hne].
    + rewrite bool_decide_true by done. cbn. unfold holds. lia.
    + rewrite bool_decide_false by done. cbn. lia.
Qed.

(** Taking out a filter that is counted, or one that is not yet. *)
Lemma remove_forwarder_pays c f o :
  o = None ∨ o = Some f →
  pays accounted settled [Own (forwarders c) o] (sync (remove_forwarder c f))
    (leaves (λ b : bool, Own (forwarders c) None :: if b then match o with None => [Owe f] | Some _ => [] end else [])).
Proof.
  intros Ho. apply pays_sync. intros w owed HI. apply own_lookup in HI as Hi. destruct Hi as [Hi Hin].
  unfold remove_forwarder, mbind, ST_bind, get_st. destruct (forwarders_of (forwarders c) w !! f) as [s|] eqn:Hf.
  2:{ cbn. destruct Ho as [->| ->]; [done|]. destruct (Hin f eq_refl) as [x Hx]. congruence. }
  unfold modify. set (w1 := with_forwarders _ _ w). pose proof (quiet_stop f (outgoing_tx c) s w1) as Hq.
  destruct (stop_subscription f (outgoing_tx c) s w1) as [[] w2]. cbn in *. unfold accounted. rewrite Hq.
  refine (accounted_update _ o None _ _ (match o with None => [Owe f] | Some _ => [] end) _ _ _ _ HI Hi _ _);
    [by destruct o|done|].
  intros g. rewrite dues_none, holds_delete. destruct (decide (f = g)) as [->|Hne].
  - rewrite (bool_decide_true (g = g)) by done. unfold holds. rewrite (bool_decide_true (is_Some _)) by eauto.
    destruct Ho as [->| ->]; rewrite ?dues_none, ?dues_some; unfold owes; cbn; rewrite bool_decide_true by done; cbn; lia.
  - rewrite (bool_decide_false (f = g)) by done.
    destruct Ho as [->| ->]; rewrite ?dues_none, ?dues_some; unfold owes; cbn; rewrite bool_decide_false by done; cbn; lia.
Qed.

Lemma ledger_on_interest {A} (f : ST Interest A) w :
  ledger (on_interest f w).2 = (w_forwarders w, (f (w_interest w)).2).
Proof. unfold on_interest, on. by destruct (f (w_interest w)). Qed.

(** The counts: registering what is due, releasing what is owed. *)
Lemma subscribe_interest_pays i f :
  pays accounted settled [Own i (Some f)] (sync (on_interest (Interest.subscribe f))) (leaves (λ _, [Own i None])).
Proof.
  apply pays_sync. intros w owed (Hnd & Hown & Hc). unfold accounted. rewrite ledger_on_interest.
  split; [done|split].
  - intros j o Hj. apply elem_of_cons in Hj as [[= -> ->]|Hj].
    + destruct (Hown i (Some f)) as (m & Hm & _); [by constructor|]. by exists m.
    + apply (Hown j o). by constructor.
  - intros g. specialize (Hc g). rewrite owes_app, dues_app in *. rewrite dues_some in Hc. rewrite dues_none.
    cbn [ledger fst snd] in *. rewrite count_subscribe.
    change (owes g [Own i None]) with 0. change (owes g [Own i (Some f)]) with 0 in Hc.
    destruct (decide (f = g)) as [->|Hne].
    + rewrite bool_decide_true in Hc by done. cbn in *. lia.
    + rewrite bool_decide_false in Hc by done. cbn in *. lia.
Qed.

Lemma quiet_propagate_interest f b : quiet (propagate_interest f b).
Proof. unfold propagate_interest. quiet. Qed.

Lemma release_interest_pays f d0 d :
  d0 ≡ₚ Owe f :: d → pays accounted settled d0 (release_interest f) (leaves (λ _, d)).
Proof.
  intros Hd0. unfold release_interest. eapply (pays_then _ _ _ d).
  - apply pays_sync. intros w owed HI. eapply accounted_perm in HI; [|by rewrite Hd0].
    destruct HI as (Hnd & Hown & Hc). unfold accounted. rewrite ledger_on_interest.
    split; [done|split].
    + intros j o Hj. apply (Hown j o). by constructor.
    + intros g. specialize (Hc g). change (Owe f :: d) with ([Owe f] ++ d) in Hc. rewrite !owes_app, !dues_app in *.
      cbn [ledger fst snd] in *. rewrite count_unsubscribe. change (dues g [Owe f]) with 0 in Hc.
      unfold owes at 1 in Hc. cbn in Hc. destruct (decide (f = g)) as [->|Hne].
      * rewrite bool_decide_true in Hc by done. cbn in Hc. lia.
      * rewrite bool_decide_false in Hc by done. cbn in Hc. lia.
  - intros [|]; [apply pays_quiet, quiet_propagate_interest|done].
Qed.

Lemma release_all_pays out l d :
  pays accounted settled ((Owe <$> l.*1) ++ d) (release_all out l) (leaves (λ _, d)).
Proof.
  induction l as [|[f s] l IH]; [done|]. cbn [release_all].
  change ((Owe <$> ((f, s) :: l).*1) ++ d) with (Owe f :: (Owe <$> l.*1) ++ d).
  eapply pays_then; [apply pays_quiet, quiet_stop|]. intros _.
  eapply pays_then; [by apply release_interest_pays|]. intros _. apply IH.
Qed.
End interest.

(** ** The functions *)

Section functions.
Context `{Broadcast Envelope} `{Mpsc Envelope} `{MessageStore} `{Uuids}.

(** [p] leaves the obligations as they are. *)
Definition calm {A} (d : list Debt) (p : Proc World A) : Prop := pays accounted settled d p (leaves (λ _, d)).

Lemma calm_ret {A} d (a : A) : calm d (mret a).
Proof. done. Qed.
Lemma calm_sync {A} d (f : ST World A) : quiet f → calm d (sync f).
Proof. apply pays_quiet. Qed.
Lemma calm_bind {A B} d (p : Proc World A) (g : A → Proc World B) :
  calm d p → (∀ a, calm d (g a)) → calm d (p ≫= g).
Proof. apply pays_then. Qed.
Lemma calm_ret_bind {A B} d (a : A) (g : A → Proc World B) : calm d (g a) → calm d (mret a ≫= g).
Proof. done. Qed.
Lemma quiet_send_now out e : quiet (send_now out e).
Proof. intros w. unfold send_now. by destruct (send_out out e (w_hub w)) as [[]|]. Qed.
Lemma calm_send d out e : settled d → calm d (send_await out e).
Proof.
  intros Hd. split; [done|]. intros w _. exists d. split; [|done]. apply keeps_quiet, quiet_send_now.
Qed.

Lemma settled_own i : settled [Own i None].
Proof. intros j o [= -> ->]%list_elem_of_singleton. done. Qed.

Lemma calm_reply c d k : settled d → calm d (reply c k).
Proof. intros Hd. apply calm_bind; [apply calm_sync; quiet|]. intros e. by apply calm_send. Qed.

Lemma quiet_catch_up out p r l : quiet (catch_up out p r l).
Proof. induction l; cbn [catch_up]; quiet. Qed.
Lemma quiet_announce out p : quiet (announce_known out p).
Proof. unfold announce_known. quiet. Qed.
Lemma quiet_propagate_peer p a : quiet (propagate_peer p a).
Proof. unfold propagate_peer. quiet. Qed.
Lemma quiet_drop_link l : quiet (drop_link l).
Proof. unfold drop_link. quiet. Qed.
Lemma quiet_handle_ack c i : quiet (handle_ack c i).
Proof. unfold handle_ack, on_shared_broker. quiet. Qed.
Lemma quiet_metric f : quiet (metric f).
Proof. unfold metric. quiet. Qed.
Lemma quiet_count_rejection c : quiet (count_rejection c).
Proof. apply quiet_metric. Qed.
Lemma quiet_may_subscribe c f : quiet (may_subscribe c f).
Proof. done. Qed.
Lemma quiet_allowed c : quiet (allowed c).
Proof. done. Qed.
End functions.

#[export] Hint Resolve quiet_catch_up quiet_announce quiet_propagate_peer quiet_propagate_interest quiet_drop_link
  quiet_handle_ack quiet_metric quiet_count_rejection quiet_may_subscribe quiet_allowed settled_own : quiet.

Ltac calm :=
  repeat first
    [ match goal with |- ∀ _, _ => intro end
    | apply calm_reply; solve [auto with quiet]
    | apply calm_sync; solve [quiet]
    | apply calm_ret
    | apply calm_bind
    | match goal with
      | |- calm _ (match ?x with _ => _ end) => destruct x
      end ].

Section connection.
Context `{Broadcast Envelope} `{Mpsc Envelope} `{MessageStore} `{Uuids}.

(** What a connection has at the boundaries of its handlers. *)
Definition own (c : ConnectionContext) : list Debt := [Own (forwarders c) None].

Lemma calm_learn_loop d l : calm d (learn_loop l).
Proof. induction l as [|a l IH]; cbn [learn_loop]; calm; apply IH. Qed.

Lemma calm_learn_peers d l : calm d (learn_peers l).
Proof. unfold learn_peers. apply calm_bind; [apply calm_learn_loop|]. calm. Qed.

Lemma calm_register_peer_link d p pr a out dis : calm d (register_peer_link p pr a out dis).
Proof. unfold register_peer_link. calm. Qed.

Lemma link_up_pays p a c : pays accounted settled (own c) (link_up p a c) (leaves own).
Proof.
  unfold link_up. eapply pays_then; [apply calm_register_peer_link|]. intros l.
  eapply pays_bind; [apply (pays_sync _ _ _ _ own)|].
  - intros w. assert (forwarders (assign_link l c w).1 = forwarders c) as Hf.
    { unfold assign_link. by destruct (peer_link_registration c). }
    unfold own. rewrite Hf. apply keeps_quiet. unfold assign_link. revert w Hf. intros w _. revert w.
    change (quiet (assign_link l c)). unfold assign_link. quiet.
  - intros c'. eapply pays_then; [apply calm_sync|done]. intros w. unfold recheck_allowed. by case_match.
Qed.

Lemma become_peer_pays p a c : pays accounted settled (own c) (sync (become_peer p a c)) (leaves own).
Proof. apply (pays_sync _ _ _ _ own). intros w. by apply (keeps_quiet (own c)). Qed.

(** The contexts a handler returns own the same map. *)
Definition own_fst (r : ConnectionContext * bool) : list Debt := own r.1.

Lemma admit_initial_peer_pays c p a h :
  pays accounted settled (own c) (admit_initial_peer c p a h) (leaves own_fst).
Proof.
  unfold admit_initial_peer. eapply pays_then; [apply calm_sync; quiet|]. intros [|]; cbn [negb].
  - eapply pays_bind; [apply become_peer_pays|]. intros c'. eapply pays_bind; [apply link_up_pays|]. done.
  - eapply pays_then; [by apply calm_reply, settled_own|done].
Qed.

Lemma handle_hello_pays c e a : pays accounted settled (own c) (handle_hello c e a) (leaves own_fst).
Proof.
  unfold handle_hello. eapply pays_then; [apply calm_sync; quiet|]. intros [|]; cbn [negb].
  - eapply pays_bind; [apply become_peer_pays|]. intros c'.
    eapply pays_then; [apply calm_sync; quiet|]. intros n.
    eapply pays_then; [by apply calm_reply, settled_own|]. intros [|]; [|done]. cbn [negb].
    eapply pays_bind; [apply link_up_pays|]. done.
  - eapply pays_then; [by apply calm_reply, settled_own|done].
Qed.

Lemma calm_refuse_subscribe c e f : calm (own c) (refuse_subscribe c e f).
Proof. unfold refuse_subscribe, own. calm. Qed.

Lemma handle_subscribe_pays c e f ack group durable : calm (own c) (handle_subscribe c e f ack group durable).
Proof.
  unfold handle_subscribe. apply calm_bind; [calm|]. intros stored.
  destruct (if durable then _ else _); [by apply calm_reply, settled_own|].
  apply calm_bind; [apply calm_sync; quiet|]. intros [|]; [|apply calm_refuse_subscribe]. cbn [negb].
  eapply pays_bind; [apply insert_forwarder_pays|]. intros [|].
  - eapply pays_then; [apply calm_sync; quiet|]. intros [|]; cbn [negb].
    + eapply pays_then; [apply subscribe_interest_pays|]. intros b. fold (own c). unfold own. calm.
    + eapply pays_bind; [apply remove_forwarder_pays; by right|]. intros [|]; apply calm_refuse_subscribe.
  - fold (own c). do 2 (apply calm_ret_bind; cbn [negb]). unfold own. calm.
Qed.

(** A release still owed when the channel closes is never made. *)
Lemma send_or_forget i es out e :
  settled (Own i None :: es) →
  pays accounted settled (Own i None :: es) (send_await out e)
    (leaves (λ ok : bool, if ok then Own i None :: es else [Own i None])).
Proof.
  intros Hs. split; [done|]. intros w _. eexists. split; [|done].
  pose proof (quiet_send_now out e w) as Hl. intros owed HI. unfold accounted. rewrite Hl.
  destruct (send_now out e w).1; [done|].
  apply (accounted_forgive es).
  - intros j o Ho. apply (Hs j). by constructor.
  - eapply accounted_perm; [|exact HI]. cbn. by rewrite Permutation_middle.
Qed.

Lemma handle_unsubscribe_pays c e f : calm (own c) (handle_unsubscribe c e f).
Proof.
  unfold handle_unsubscribe. eapply pays_bind; [apply remove_forwarder_pays; by left|]. intros b.
  assert (settled (Own (forwarders c) None :: (if b then [Owe f] else []))) as Hs.
  { intros j o. destruct b; intros Ho; [apply elem_of_cons in Ho as [[= -> ->]|Ho]|]; [done| |by eapply settled_own].
    by apply list_elem_of_singleton in Ho. }
  eapply pays_bind; [eapply pays_then; [apply calm_sync; quiet|intros; by apply send_or_forget]|].
  intros [|]; [|done]. cbn [negb]. destruct b; [|done].
  eapply pays_then; [|done]. apply release_interest_pays. apply Permutation_swap.
Qed.

(** Nothing of a publish touches the interest. *)
Lemma quiet_on_shared {A} (f : ST (Broker * mpsc_store Envelope) A) : quiet (on_shared f).
Proof. apply quiet_hub. Qed.

Lemma calm_publish_each d t e ps : calm d (publish_each (@on_shared _ _ _) t e ps).
Proof.
  induction ps as [|[f a] ps IH]; [done|]. cbn [publish_each]. apply calm_bind; [|intros n; apply calm_bind; [exact IH|done]].
  destruct (matches f t); [apply calm_sync, quiet_on_shared|done].
Qed.

Lemma calm_publish_sections d t e : calm d (publish_sections (@on_shared _ _ _) w_clock t e).
Proof.
  assert (∀ A B (f : ST (Broker * mpsc_store Envelope) A) (k : A → Proc World B),
    (∀ a, calm d (k a)) → calm d (sync (on_shared f) ≫= k)) as Hs
    by (intros A B f k Hk; apply calm_bind; [apply calm_sync, quiet_on_shared|exact Hk]).
  unfold publish_sections. apply Hs. intros []; cbn [negb]; [|done]. do 4 (apply Hs; intros ?).
  apply calm_bind; [apply calm_publish_each|]. intros n. apply calm_bind; [|done]. apply calm_sync. intros w. apply quiet_on_shared.
Qed.

#[local] Opaque publish_sections.
Lemma calm_publish c e : calm (own c) (handle_publish c e).
Proof.
  unfold handle_publish, own. destruct (publish_topic (kind e)); calm; [apply calm_sync; intros w|apply calm_publish_sections].
  destruct (if is_peer c then None else w_rate_limiter w) as [r|]; [|done]. by destruct (allow (principal c) (w_clock w) r).
Qed.

Lemma calm_status c e : calm (own c) (handle_status c e).
Proof. unfold handle_status, own. calm. Qed.
Lemma calm_topics c e : calm (own c) (handle_topics c e).
Proof. unfold handle_topics, own. calm. Qed.

Lemma dispatch_pays c e : pays accounted settled (own c) (dispatch c e) (leaves own_fst).
Proof.
  unfold dispatch. destruct (kind e); try apply handle_hello_pays; try done;
    (eapply (pays_then _ _ _ (own c)); [|intros; done]).
  all: first [apply handle_subscribe_pays|apply handle_unsubscribe_pays|apply calm_publish|apply calm_status
    |apply calm_topics|apply calm_learn_peers|apply calm_sync, quiet_handle_ack].
Qed.

(** A map's keys, once each. *)
Lemma owes_keys (m : Forwarders) g : owes g (Owe <$> (map_to_list m).*1) = Nat.b2n (holds g m).
Proof.
  assert (∀ l : list TopicFilter, NoDup l → owes g (Owe <$> l) = Nat.b2n (bool_decide (g ∈ l))) as Hl.
  { induction 1 as [|f l Hf Hl IH]; [done|]. unfold owes in *. cbn.
    destruct (decide (f = g)) as [->|Hne].
    - rewrite !bool_decide_true by (done || constructor). cbn. rewrite IH, bool_decide_false by done. done.
    - rewrite (bool_decide_false (f = g)), IH by done. f_equal. apply bool_decide_ext. rewrite elem_of_cons. naive_solver. }
  rewrite Hl by apply NoDup_fst_map_to_list. unfold holds. f_equal. apply bool_decide_ext.
  rewrite list_elem_of_fmap. split.
  - intros ([f s] & -> & Hin%elem_of_map_to_list). cbn. eauto.
  - intros [s Hs]. exists (g, s). by rewrite elem_of_map_to_list.
Qed.

Lemma owned_owe l : owned (Owe <$> l) = [].
Proof. by induction l. Qed.

Lemma shut_down_pays c : calm (own c) (shut_down c).
Proof.
  unfold shut_down. eapply (pays_bind _ _ _ _ _ (λ l, (Owe <$> l.*1) ++ own c)).
  - apply pays_sync. intros w owed HI. apply own_lookup in HI as Hi. destruct Hi as [Hi _].
    unfold mbind, ST_bind, get_st, modify, mret, ST_ret. cbn [fst snd].
    set (es := Owe <$> (map_to_list (forwarders_of (forwarders c) w)).*1).
    apply (accounted_perm (Own (forwarders c) None :: es ++ owed)).
    { rewrite <-app_assoc. cbn. apply Permutation_middle. }
    refine (accounted_update _ None None _ ∅ es owed _ _ (owned_owe _) HI Hi _ _); [done|].
    intros g. unfold es. rewrite owes_keys. unfold holds at 1. rewrite bool_decide_false; [cbn; lia|].
    rewrite lookup_empty. by intros [? ?].
  - intros l. eapply pays_then; [apply release_all_pays|]. intros _.
    destruct (peer_identity c); [apply calm_sync; quiet|done].
Qed.

Lemma calm_drop_context d c : calm d (drop_context c).
Proof. unfold drop_context. calm. Qed.

Lemma open_context_pays fp out : pays accounted settled [] (sync (open_context fp out)) (leaves own).
Proof.
  apply (pays_sync _ _ _ _ own). intros w owed (Hnd & Hown & Hc). unfold accounted, open_context.
  unfold mbind, ST_bind, register, mret, ST_ret, own, ledger. cbn.
  assert (∀ j o, Own j o ∈ owed → j < length (w_forwarders w)) as Hlt.
  { intros j o Hj. destruct (Hown j o Hj) as (m & Hm & _). by eapply lookup_lt_Some. }
  split; [|split].
  - cbn. constructor; [|done]. intros Hin. apply list_elem_of_omap in Hin as ([j o|f] & Hj & Heq); simplify_eq.
    apply Hlt in Hj. lia.
  - cbn [fst]. intros j o [[= -> ->]|Hj]%elem_of_cons.
    + exists ∅. split; [|done]. by rewrite lookup_app_r, Nat.sub_diag by done.
    + destruct (Hown j o Hj) as (m & Hm & Ho). exists m. split; [|done]. by apply lookup_app_l_Some.
  - intros g. cbn [fst snd]. rewrite holders_app. change (holders g [∅]) with 0.
    specialize (Hc g). change ([Own ?i None] ++ owed) with (Own i None :: owed).
    change (owes g (Own ?i None :: owed)) with (owes g owed). change (dues g (Own ?i None :: owed)) with (dues g owed).
    change ([] ++ owed) with owed in Hc. cbn [fst snd ledger] in Hc. lia.
Qed.

(** ** Whole connections *)

Context {CborError : Type} (from_reader : bytes → Result Envelope CborError).

Lemma read_loop_pays events c :
  pays accounted settled (own c) (read_loop from_reader events c) (leaves own).
Proof.
  revert c; induction events as [|[[b|e]|] events IH]; intros c; cbn [read_loop]; [done| |done|].
  - destruct (Envelope.from_bytes from_reader b) as [e|]; [|done].
    eapply pays_bind; [apply dispatch_pays|]. intros [c' [|]]; [apply IH|done].
  - split; [intros _; apply settled_own|]. intros w _. exists (own c). split; [|done]. apply keeps_quiet.
    revert w. change (quiet (take_permit c)). unfold take_permit. quiet.
Qed.

Lemma run_connection_pays fp out initial_peer events :
  pays accounted settled [] (run_connection from_reader fp out initial_peer events) (λ _, settled).
Proof.
  assert (∀ c, pays accounted settled (own c) (drop_context c) (λ _, settled)) as Hdrop.
  { intros c. eapply pays_weaken; [|apply calm_drop_context]. intros _ d ->. apply settled_own. }
  unfold run_connection. eapply pays_bind; [apply open_context_pays|]. intros c.
  eapply (pays_bind _ _ _ _ _ own_fst); [destruct initial_peer; [apply admit_initial_peer_pays|done]|].
  intros [c' [|]]; cbn [negb snd fst]; [|apply Hdrop].
  eapply pays_bind; [apply read_loop_pays|]. intros c''.
  eapply pays_then; [apply shut_down_pays|]. intros _. apply Hdrop.
Qed.

(** ** The sweep of a reload, while every connection waits *)

Lemma accounted_shrink i m m' es owed (l : list Forwarders) s :
  owned es = [] → settled owed → accounted_in owed (l, s) → l !! i = Some m →
  (∀ g, Nat.b2n (holds g m') + owes g es ≤ Nat.b2n (holds g m)) →
  accounted_in (es ++ owed) (<[i := m']> l, s).
Proof.
  intros Hes Hs (Hnd & Hown & Hc) Hm Hle. cbn [fst snd] in *.
  assert (∀ j o, Own j o ∉ es) as Hno.
  { intros j o Hj. assert (j ∈ owned es) as Hin; [|by rewrite Hes in Hin; apply not_elem_of_nil in Hin].
    apply list_elem_of_omap. by exists (Own j o). }
  split; [|split].
  - by rewrite owned_app, Hes.
  - intros j o [Hj|Hj]%elem_of_app; [by destruct (Hno j o)|]. destruct (Hown j o Hj) as (mj & Hmj & _).
    rewrite (Hs j o Hj). cbn [fst]. destruct (decide (i = j)) as [->|Hij].
    + exists m'. split; [|done]. apply list_lookup_insert_eq. by eapply lookup_lt_Some.
    + exists mj. by rewrite list_lookup_insert_ne.
  - intros g. cbn [fst snd]. specialize (Hc g). specialize (Hle g). pose proof (holders_insert g l i m m' Hm).
    rewrite owes_app, dues_app, (settled_dues g es); [lia|]. intros j o Hj. by destruct (Hno j o).
Qed.

Lemma b2n_is_Some {A} (o : option A) : Nat.b2n (bool_decide (is_Some o)) = match o with Some _ => 1 | None => 0 end.
Proof. by destruct o. Qed.

Lemma take_forbidden_accounted a entry w owed :
  settled owed → accounted owed w →
  accounted ((Owe <$> (take_forbidden a entry w).1.*1) ++ owed) (take_forbidden a entry w).2.
Proof.
  intros Hs HI. unfold take_forbidden. cbn [fst snd].
  set (m := forwarders_of (entry_forwarders entry) w).
  destruct (w_forwarders w !! entry_forwarders entry) as [m0|] eqn:Hm.
  - assert (m = m0) as Heq by (unfold m, forwarders_of; by rewrite Hm).
    unfold accounted, ledger, with_forwarders. cbn. rewrite <-Heq in Hm.
    refine (accounted_shrink _ m _ _ _ _ _ (owned_owe _) Hs HI Hm _). intros g. rewrite owes_keys.
    unfold holds. cbn [fst snd]. rewrite !b2n_is_Some.
    match goal with |- match ?x with _ => _ end + match ?y with _ => _ end ≤ _ =>
      destruct x as [s|] eqn:Hk, y as [s'|] eqn:Hk' end.
    + apply map_lookup_filter_Some in Hk as [? Hk], Hk' as [? Hk']. simplify_eq/=. congruence.
    + apply map_lookup_filter_Some in Hk as [-> _]. done.
    + apply map_lookup_filter_Some in Hk' as [-> _]. done.
    + lia.
  - assert (m = ∅) as -> by (unfold m, forwarders_of; by rewrite Hm).
    rewrite map_filter_empty, map_to_list_empty. unfold accounted, ledger, with_forwarders. cbn.
    rewrite list_insert_ge by by apply lookup_ge_None. exact HI.
Qed.

Lemma reconcile_entries_accounted a entries w u w' owed :
  settled owed → accounted owed w → run (reconcile_entries a entries) w = Some (u, w') → accounted owed w'.
Proof.
  intros Hs. revert w; induction entries as [|entry entries IH]; intros w HI; cbn [reconcile_entries];
    [by intros [= _ <-]|].
  rewrite run_bind, run_sync. pose proof (take_forbidden_accounted a entry w owed Hs HI) as Hl.
  destruct (take_forbidden a entry w) as [l w1]. cbn [mbind option_bind fst snd] in *. rewrite run_bind.
  destruct (run (release_all _ l) w1) as [[v w2]|] eqn:Hr; [|done]. cbn [mbind option_bind fst snd].
  destruct (run_pays accounted settled _ _ _ _ _ _ owed (release_all_pays _ l []) Hr) as (d' & -> & HI2).
  { by rewrite app_nil_r. }
  by apply IH.
Qed.

Lemma reconcile_accounted w u w' owed :
  settled owed → accounted owed w → run reconcile_topic_acls w = Some (u, w') → accounted owed w'.
Proof.
  intros Hs HI. unfold reconcile_topic_acls. rewrite run_bind, run_sync. cbn [mbind option_bind fst snd].
  rewrite run_bind, run_sync. cbn [mbind option_bind fst snd]. by apply reconcile_entries_accounted.
Qed.

(** The tasks of the node, what else moves the world, and the sweep. *)
Definition connection_task (p : Proc World ()) : Prop :=
  ∃ fp out initial_peer events, p = run_connection from_reader fp out initial_peer events.
Definition elsewhere (w w' : World) : Prop := ledger w' = ledger w.
Definition swept_alone (w w' : World) : Prop := run reconcile_topic_acls w = Some ((), w').

(** C2: however the handlers of any number of connections interleave
    with each other, with the rest of the node and with aborts, and whatever
    lists a reload installs, once every connection waits the interest count of
    a filter is at least the number of connections subscribed to it: so the
    node never withdraws from its peers a filter somebody is subscribed to. A
    reload's sweep that runs while no handler is between two of its sections
    keeps that; [sweep_in_between_loses_interest] is why it must. *)
Theorem interest_covers_subscriptions (w0 w : World) (ps : list (Proc World ())) (f : TopicFilter) :
  w_forwarders w0 = [] → sched connection_task elsewhere swept_alone ([], w0) (ps, w) → Forall parked ps →
  holders f (w_forwarders w) ≤ Interest.count (w_interest w) f
  ∧ ∀ i, is_Some (forwarders_of i w !! f) → is_interested (w_interest w) f = true.
Proof.
  intros Hf Hs Hp.
  assert (accounted [] w) as (_ & _ & Hc).
  { eapply (sched_invariant accounted settled); [..|exact Hs|exact Hp].
    - apply accounted_perm.
    - apply accounted_forgive.
    - intros p (fp & out & ip & events & ->). apply run_connection_pays.
    - intros d w1 w2 Hw. unfold accounted. by rewrite Hw.
    - intros d w1 w2 Hw (ds & -> & Hds) HI. eapply reconcile_accounted; [|exact HI|exact Hw].
      clear -Hds. induction Hds as [|d ds Hd Hds IH]; [by intros ? ? ?%not_elem_of_nil|].
      cbn. intros i o [Ho|Ho]%elem_of_app; [by eapply Hd|by eapply IH].
    - split; [constructor|]. split; [by intros ? ? ?%not_elem_of_nil|]. intros g. unfold ledger. rewrite Hf. cbn. lia. }
  specialize (Hc f). cbn in Hc. rewrite !Nat.add_0_r in Hc. split; [done|]. intros i Hi.
  unfold forwarders_of in Hi. destruct (w_forwarders w !! i) as [m|] eqn:Hm; [|by destruct Hi].
  pose proof (holders_pos f _ i m Hm Hi) as Hpos. unfold Interest.count in Hc. unfold is_interested.
  apply bool_decide_eq_true. destruct (Interest.counts (w_interest w) !! f); [eauto|]. cbn in Hc. unfold holders in *. lia.
Qed.
End connection.

(** ** Concrete nodes *)

Module SampleNode.
#[export] Instance sample_broadcast : Broadcast Envelope := Reference.ref_broadcast Envelope.
#[export] Instance sample_mpsc : Mpsc Envelope := Reference.ref_mpsc Envelope.
#[export] Instance sample_store : MessageStore := ReferenceStore.ref_store.
#[export] Instance sample_uuids : Uuids := Reference.ref_uuids.

Definition chan : Reference.Chan Envelope := Reference.MkChan 64 false [].
(** Three connections' channels, nothing else. *)
Definition chans : mpsc_store Envelope := list_to_map [(0, chan); (1, chan); (2, chan)].
Definition node : Node := MkNode (Sample.peer 9) None None.
Definition no_acls : ReloadableAcls := MkReloadableAcls None None None None.
Definition world : World :=
  MkWorld (MkHub Broker.new chans 0 Metrics.new) Membership.new Interest.new PeerLinks.new new_registry
    PeerDirectory.new [] no_acls None [] [] [] [] 0 node.

Definition filter : TopicFilter := Sample.filter (lit "a").
Definition request (n : Z) (k : MessageKind) : Envelope := MkEnvelope PROTOCOL_VERSION (Sample.mid n) (Sample.peer 2) k.
Definition requests : list Envelope :=
  [request 1 (Message.Subscribe filter false None false); request 2 (Message.Unsubscribe filter);
   Sample.publish 3 (lit "a") [7%Z] false].
(** A connection that sends the requests numbered, and stays. *)
Definition staying (fingerprint : option bytes) (out : nat) (sends : list nat) : Proc World () :=
  run_connection (Sample.decode requests) fingerprint out None
    (((λ n, Incoming (Ok [Z.of_nat n])) <$> sends) ++ [Revoked]).
End SampleNode.

(** One connection that has subscribed and waits. *)
Lemma interest_covers_subscriptions_witness :
  let s := advance 30 (SampleNode.staying None 0 [0]) SampleNode.world in
  is_interested (w_interest s.2) SampleNode.filter = true.
Proof.
  intros s.
  refine (proj2 (@interest_covers_subscriptions SampleNode.sample_broadcast SampleNode.sample_mpsc SampleNode.sample_store SampleNode.sample_uuids _
    (Sample.decode SampleNode.requests) SampleNode.world s.2 [s.1] SampleNode.filter _ _ _) 0 _).
  - reflexivity.
  - eapply sched_trans; [|exact (sched_advance _ _ _ 30 [] (SampleNode.staying None 0 [0]) [] SampleNode.world)].
    eapply SchedTrans; [constructor|]. apply SchedStart. by eexists _, _, _, _.
  - constructor; [|constructor]. apply (stuck_parked _ s.2). vm_compute. reflexivity.
  - vm_compute. eexists. reflexivity.
Defined.

(** A reload between two sections of a handler. Connection 0 subscribes to [a]
    and is counted. Connection 1, anonymous, has put its own forwarder in its
    map and not yet counted it, when a list is installed that only connection
    0 satisfies and the sweep runs: it takes the forwarder out and releases a
    count that was never made, which is connection 0's. The handler's second
    look at the list then refuses the subscription. *)
Module SweepRace.
Import SampleNode.
Definition fp : bytes := replicate 32 1%Z.
Definition acl : ReloadableAcls :=
  MkReloadableAcls (Some (MkTopicAcl {[(Fp fp, Sample.topic (lit "a"), TopicAcl.Subscribe)]})) None None None.

Definition first := advance 30 (staying (Some fp) 0 [0]) world.
Definition inserted := advance 4 (staying None 1 [0]) first.2.
Definition sweep : Proc World () := reconcile_topic_acls.
Definition swept := advance 30 sweep (set_acls acl inserted.2).
Definition refused := advance 30 inserted.1 swept.2.
Definition final : World := refused.2.
(** The same tasks, the sweep among them; nothing is exclusive. *)
Definition task (p : Proc World ()) : Prop := connection_task (Sample.decode requests) p ∨ p = sweep.
Definition never (w w' : World) : Prop := False.
End SweepRace.

(** One task runs to its wait, a second starts, a list is installed and a third
    runs, then the second goes on. *)
Lemma sched_race `{Broadcast Envelope} `{Mpsc Envelope} `{MessageStore} `{Uuids} (T : Proc World () → Prop) E p q r acl w n1 n2 n3 n4 :
  T p → T q → T r →
  let s1 := advance n1 p w in
  let s2 := advance n2 q s1.2 in
  let s3 := advance n3 r (set_acls acl s2.2) in
  let s4 := advance n4 s2.1 s3.2 in
  sched T elsewhere E ([], w) ([s4.1; s3.1; s1.1], s4.2).
Proof.
  intros Hp Hq Hr s1 s2 s3 s4.
  assert (∀ ps x v s, T x → sched T elsewhere E (x :: ps, v) s → sched T elsewhere E (ps, v) s) as Hstart.
  { intros ps x v s Hx. apply sched_trans. eapply SchedTrans; [constructor|]. by apply SchedStart. }
  assert (∀ n ps1 x ps2 v s, sched T elsewhere E (ps1 ++ (advance n x v).1 :: ps2, (advance n x v).2) s →
    sched T elsewhere E (ps1 ++ x :: ps2, v) s) as Hrun.
  { intros n ps1 x ps2 v s. apply sched_trans, sched_advance. }
  apply (Hstart _ p _ _ Hp), (Hrun n1 []), (Hstart _ r _ _ Hr), (Hstart _ q _ _ Hq), (Hrun n2 []).
  eapply sched_trans.
  { eapply SchedTrans; [constructor|]. by apply (SchedOther _ _ _ _ _ (set_acls acl s2.2)). }
  apply (Hrun n3 [s2.1]), (Hrun n4 []). constructor.
Qed.

(** With the sweep of a reload in between, a connection
    stays subscribed while the node's interest count of the filter is zero, so
    its peers are told to stop forwarding and are not told again. *)
Theorem sweep_in_between_loses_interest :
  ∃ ps w, sched SweepRace.task elsewhere SweepRace.never ([], SampleNode.world) (ps, w)
    ∧ Forall parked ps
    ∧ is_Some (forwarders_of 0 w !! SampleNode.filter)
    ∧ holders SampleNode.filter (w_forwarders w) = 1
    ∧ is_interested (w_interest w) SampleNode.filter = false.
Proof.
  exists [SweepRace.refused.1; SweepRace.swept.1; SweepRace.first.1], SweepRace.final.
  split; [|split; [|split; [vm_compute; by eexists|split; vm_compute; reflexivity]]].
  - apply (@sched_race SampleNode.sample_broadcast SampleNode.sample_mpsc SampleNode.sample_store SampleNode.sample_uuids SweepRace.task SweepRace.never (SampleNode.staying (Some SweepRace.fp) 0 [0])
      (SampleNode.staying None 1 [0]) SweepRace.sweep SweepRace.acl SampleNode.world 30 4 30 30);
      [left; by eexists _, _, _, _..|by right].
  - apply Forall_cons; split; [|apply Forall_cons; split; [|apply Forall_cons; split; [|apply Forall_nil_2]]];
      apply (stuck_parked _ SweepRace.final); vm_compute; reflexivity.
Qed.
