(* ===== verification/Handlers.v ===== *)
(** * What one handler does

    Each handler of [Connection.v] run with nobody interleaved, against what it
    promises: which requests reach the broker, who becomes a peer link and what
    it is told first, what a reload's sweep leaves, what a connection leaves
    behind. *)

From S2P Require Import Prelude.
From S2P Require Import Text.
From S2P Require Import Topic.
From S2P Require Import Filter.
From S2P Require Import Runtime.
From S2P Require Import Message.
From S2P Require Import Interest.
From S2P Require Import PeerDirectory.
From S2P Require Import Membership.
From S2P Require Import TopicAcl.
From S2P Require Import RateLimit.
From S2P Require Import Groups.
From S2P Require Import MessageStore.
From S2P Require Import Broker.
From S2P Require Import Metrics.
From S2P Require Import DeadLetter.
From S2P Require Import Publishing.
From S2P Require Import PeerLinks.
From S2P Require Import Forwarder.
From S2P Require Import Async.
From S2P Require Import Access.
From S2P Require Import World.
From S2P Require Import Connection.
From S2P Require Import ConnectionSpec.

#[local] Open Scope nat_scope.

Section handlers.
Context `{Broadcast Envelope} `{Mpsc Envelope} `{MessageStore} `{Uuids}.

(** The connection's channel is closed, or has room. *)
Definition roomy (c : ConnectionContext) (w : World) : Prop :=
  is_closed (h_chans (w_hub w)) (outgoing_tx c) = true
  ∨ ∀ e, (try_send (outgoing_tx c) e (h_chans (w_hub w))).1 = true.

(** What [send] answered, and did. *)
Definition told (out : nat) (e : Envelope) (ok : bool) (s s' : mpsc_store Envelope) : Prop :=
  if ok then is_closed s out = false ∧ try_send out e s = (true, s') else is_closed s out = true ∧ s' = s.

(** The hub after a reply: one more identifier drawn, the channel written. *)
Definition answered (c : ConnectionContext) (k : MessageKind) (ok : bool) (n : Node) (h h' : Hub) : Prop :=
  h_broker h' = h_broker h ∧ h_metrics h' = h_metrics h ∧ h_ids h' = S (h_ids h)
  ∧ told (outgoing_tx c) (Envelope.new (h_ids h) (node_id n) k) ok (h_chans h) (h_chans h').

Lemma run_reply c k w :
  roomy c w → ∃ ok h', run (reply c k) w = Some (ok, set_hub h' w) ∧ answered c k ok (w_node w) (w_hub w) h'.
Proof.
  intros Hr. unfold reply, send, send_await. rewrite run_bind, run_sync. cbn. unfold send_now, send_out. cbn.
  unfold answered, told.
  destruct (is_closed (h_chans (w_hub w)) (outgoing_tx c)) eqn:Hc; cbn.
  - by eexists false, _.
  - destruct Hr as [?|Hr]; [congruence|]. specialize (Hr (Envelope.new (h_ids (w_hub w)) (node_id (w_node w)) k)).
    destruct (try_send (outgoing_tx c) _ (h_chans (w_hub w))) as [[|] s'] eqn:Ht; [|done]. cbn.
    by eexists true, _.
Qed.

Lemma set_rate_limiter_same w h : set_rate_limiter (w_rate_limiter w) (set_hub h w) = set_hub h w.
Proof. done. Qed.
Lemma set_rate_limiter_id w : set_rate_limiter (w_rate_limiter w) w = w.
Proof. by destruct w. Qed.

(** ** Publishing *)

Inductive Verdict : Type := Refused | Limited | Accepted.

(** What is decided about a publish, and the limiter afterwards: a peer link
    has no limit, and a refused publish costs nothing. *)
Definition verdict (c : ConnectionContext) (topic : Topic) (w : World) : Verdict * option RateLimiter :=
  if acl_permits (w_acls w) (is_peer c) (principal c) topic TopicAcl.Publish then
    match w_rate_limiter w with
    | Some l =>
        if is_peer c then (Accepted, Some l)
        else let '(ok, l') := allow (principal c) (w_clock w) l in (if ok : bool then Accepted else Limited, Some l')
    | None => (Accepted, None)
    end
  else (Refused, w_rate_limiter w).

(** The hub after a refusal: one counter, and one error about the request. *)
Definition refused_with (c : ConnectionContext) (e : Envelope) (f : Metrics → Metrics) (ok : bool) (n : Node) (h h' : Hub) : Prop :=
  ∃ message, answered c (Message.Error (Some (Message.id e)) message) ok n (DeadLetter.count f h).2 h'.

(** The broker and the channels inside the world. *)
Definition shared_of (w : World) : Broker * mpsc_store Envelope := (h_broker (w_hub w), h_chans (w_hub w)).
Definition set_shared (s : Broker * mpsc_store Envelope) (w : World) : World :=
  set_hub (MkHub s.1 s.2 (h_ids (w_hub w)) (h_metrics (w_hub w))) w.
Lemma on_shared_eq A (f : ST (Broker * mpsc_store Envelope) A) w : on_shared f w = ((f (shared_of w)).1, set_shared (f (shared_of w)).2 w).
Proof. unfold on_shared, on_hub, on, shared_of, set_shared. by destruct (f _) as [a [b chans]]. Qed.

(** The publish of a connection, by its verdict. *)
Lemma run_handle_publish (c : ConnectionContext) (e : Envelope) (topic : Topic) (w : World) :
  publish_topic (kind e) = Some topic →
  let w1 := set_rate_limiter (verdict c topic w).2 w in
  run (handle_publish c e) w
  = match (verdict c topic w).1 with
    | Accepted => Some (true, set_hub (hub_publish topic e (w_clock w) (w_hub w)).2 w1)
    | Limited =>
        run (reply c (Message.Error (Some (Message.id e)) (lit "publish rate limit exceeded for " ++ Topic.as_str topic)))
          (metric record_publish_rate_limit_rejection w1).2
    | Refused =>
        run (reply c (Message.Error (Some (Message.id e)) (lit "not authorized to publish to " ++ Topic.as_str topic)))
          (metric (if is_peer c then record_peer_topic_acl_rejection else record_topic_acl_rejection) w1).2
    end.
Proof.
  assert (∀ w, run (publish_sections (@on_shared _ _ _) w_clock topic e) w
    = Some ((hub_publish topic e (w_clock w) (w_hub w)).1, set_hub (hub_publish topic e (w_clock w) (w_hub w)).2 w)) as Hp.
  { intros v. rewrite (run_publish_sections _ _ shared_of set_shared on_shared_eq); [|by intros [] u|done|by intros [[]]|done].
    unfold hub_publish, shared_of. by destruct (Broker.publish _ _ _ _) as [n [b chans]]. }
  intros Ht w1. unfold handle_publish, w1, verdict. rewrite Ht, run_sync_bind. cbn [gets fst snd].
  destruct (acl_permits _ _ _ _ _); cbn [negb fst snd].
  2:{ rewrite run_sync_bind, set_rate_limiter_id. unfold count_rejection. by destruct (is_peer c). }
  rewrite run_sync_bind. destruct (w_rate_limiter w) as [l|] eqn:Hl; [|].
  - destruct (is_peer c); cbn [fst snd negb].
    + by rewrite run_bind, Hp, <-Hl, set_rate_limiter_id.
    + destruct (allow (principal c) (w_clock w) l) as [[|] l'] eqn:Ha; cbn [fst snd negb]; [by rewrite run_bind, Hp|].
      by rewrite run_sync_bind.
  - assert (set_rate_limiter None w = w) as Hw by (rewrite <-Hl; apply set_rate_limiter_id).
    destruct (is_peer c); cbn [fst snd negb]; by rewrite run_bind, Hp, Hw.
Qed.

(** C13: a publish reaches the broker exactly when the list of the
    connection's role permits it and, on a client's connection, its principal's
    bucket has a token; then the hub changes as [Broker::publish] says and the
    connection goes on. Otherwise the broker is left alone, the counter of the
    reason goes up by one and the client gets one error naming its request. A
    peer link and a refused publish take no token, and nothing else of the node
    changes. *)
Theorem publish_gate (c : ConnectionContext) (e : Envelope) (topic : Topic) (w : World) :
  publish_topic (kind e) = Some topic → roomy c w →
  ∃ ok h', run (handle_publish c e) w = Some (ok, set_rate_limiter (verdict c topic w).2 (set_hub h' w))
    ∧ match (verdict c topic w).1 with
      | Accepted => ok = true ∧ h' = (hub_publish topic e (w_clock w) (w_hub w)).2
      | Refused =>
          refused_with c e (if is_peer c then record_peer_topic_acl_rejection else record_topic_acl_rejection) ok
            (w_node w) (w_hub w) h'
      | Limited => is_peer c = false ∧ refused_with c e record_publish_rate_limit_rejection ok (w_node w) (w_hub w) h'
      end.
Proof.
  intros Ht Hr. rewrite (run_handle_publish c e topic w Ht).
  assert (∀ f message l, ∃ ok h', run (reply c (Message.Error (Some (Message.id e)) message))
      (metric f (set_rate_limiter l w)).2 = Some (ok, set_rate_limiter l (set_hub h' w))
    ∧ refused_with c e f ok (w_node w) (w_hub w) h') as Hrefuse.
  { intros f message l.
    destruct (run_reply c (Message.Error (Some (Message.id e)) message) (metric f (set_rate_limiter l w)).2 Hr)
      as (ok & h' & Hrun & Ha).
    exists ok, h'. split; [exact Hrun|]. by exists message. }
  unfold verdict. destruct (acl_permits _ _ _ _ _); cbn [fst snd]; [|apply Hrefuse].
  destruct (w_rate_limiter w) as [l|]; [|by eexists _, _].
  destruct (is_peer c) eqn:Hp; [by eexists _, _|].
  destruct (allow (principal c) (w_clock w) l) as [[|] l']; cbn [fst snd]; [by eexists _, _|].
  match goal with |- context [run (reply c (Message.Error _ ?m)) (metric ?f _).2] =>
    destruct (Hrefuse f m (Some l')) as (ok & h' & Hrun & Ho) end.
  exists ok, h'. by split.
Qed.

(** ** Stopping subscriptions *)

(** Only the hub, the interest and the tasks differ. *)
Definition framed (w w' : World) : Prop := ∃ h i t, w' = set_tasks t (set_interest i (set_hub h w)).

(** Tasks only end, groups only lose members. *)
Definition shrinks (w w' : World) : Prop :=
  (∀ n x, w_tasks w' !! n = Some (Some x) → w_tasks w !! n = Some (Some x))
  ∧ ∀ k m', b_groups (h_broker (w_hub w')) !! k = Some m' →
      ∃ m, b_groups (h_broker (w_hub w)) !! k = Some m ∧ ∀ x, x ∈ members m' → x ∈ members m.

(** Nothing is sent to the connection for this subscription any more. *)
Definition stopped (filter : TopicFilter) (out : nat) (s : Subscription) (w : World) : Prop :=
  match s with
  | World.Forwarder handle _ => ∀ x, w_tasks w !! handle ≠ Some (Some x)
  | Group group => ∀ m, b_groups (h_broker (w_hub w)) !! (filter, group) = Some m → out ∉ members m
  end.

(** The task of a subscription. *)
Definition handle_of (s : Subscription) : option nat :=
  match s with World.Forwarder handle _ => Some handle | Group _ => None end.

Lemma framed_refl w : framed w w.
Proof. exists (w_hub w), (w_interest w), (w_tasks w). by destruct w. Qed.
Lemma framed_trans w1 w2 w3 : framed w1 w2 → framed w2 w3 → framed w1 w3.
Proof. intros (h & i & t & ->) (h' & i' & t' & ->). by exists h', i', t'. Qed.

Lemma shrinks_refl w : shrinks w w.
Proof. split; [done|]. intros k m' Hm. by exists m'. Qed.
Lemma shrinks_trans w1 w2 w3 : shrinks w1 w2 → shrinks w2 w3 → shrinks w1 w3.
Proof.
  intros [Ht Hg] [Ht' Hg']. split; [by eauto|]. intros k m' Hm. destruct (Hg' k m' Hm) as (m & Hm2 & Hx).
  destruct (Hg k m Hm2) as (m0 & Hm0 & Hx'). exists m0. eauto.
Qed.
Lemma stopped_shrinks f out s w w' : shrinks w w' → stopped f out s w → stopped f out s w'.
Proof.
  intros [Ht Hg]. destruct s as [h a|g]; cbn; intros Hs.
  - intros x Hx%Ht. by apply (Hs x).
  - intros m' Hm. destruct (Hg _ _ Hm) as (m & Hm0 & Hx). intros Hin%Hx. by apply (Hs m).
Qed.

(** What leaves the groups and the tasks alone. *)
Lemma shrinks_same w w' :
  w_tasks w' = w_tasks w → b_groups (h_broker (w_hub w')) = b_groups (h_broker (w_hub w)) → shrinks w w'.
Proof. intros Ht Hg. split; [by rewrite Ht|]. intros k m'. rewrite Hg. eauto. Qed.

Lemma on_channel_groups {A} (d : A) arc f b : b_groups (on_channel d arc f b).2 = b_groups b.
Proof. unfold on_channel. destruct (b_heap b !! arc) as [ch|]; [|done]. by destruct (f ch). Qed.

Lemma end_task_groups t h : b_groups (h_broker (end_task t h)) = b_groups (h_broker h).
Proof.
  unfold end_task. destruct (task_phase t) as [|c]; [done|]. unfold on_broker. cbn. apply on_channel_groups.
Qed.

Lemma stop_subscription_spec f out s w :
  framed w (stop_subscription f out s w).2 ∧ shrinks w (stop_subscription f out s w).2
  ∧ w_interest (stop_subscription f out s w).2 = w_interest w ∧ stopped f out s (stop_subscription f out s w).2
  ∧ ∀ n, handle_of s ≠ Some n → w_tasks (stop_subscription f out s w).2 !! n = w_tasks w !! n.
Proof.
  destruct s as [h a|g]; cbn [stop_subscription].
  - unfold abort. destruct (w_tasks w !! h) as [[t|]|] eqn:Ht; cbn [fst snd];
      [|split; [apply framed_refl|split; [apply shrinks_refl|split; [done|split; [cbn; congruence|done]]]]..].
    split; [|split; [|split; [|split]]]; [by eexists _, (w_interest w), _| |done| |].
    + split; cbn.
      * intros n x. destruct (decide (h = n)) as [->|Hn]; [|by rewrite list_lookup_insert_ne].
        rewrite list_lookup_insert_eq by by eapply lookup_lt_Some. done.
      * intros k m'. rewrite end_task_groups. eauto.
    + cbn. intros x. rewrite list_lookup_insert_eq by by eapply lookup_lt_Some. done.
    + cbn. intros n Hn. apply list_lookup_insert_ne. congruence.
  - unfold on_shared_broker, on_hub, on, on_broker, leave_group. cbn.
    split; [|split; [|split; [|split; [|done]]]]; [by eexists _, (w_interest w), (w_tasks w)| |done|].
    + split; [done|]. cbn. intros k m'. unfold Groups.leave_group.
      destruct (b_groups (h_broker (w_hub w)) !! (f, g)) as [m|] eqn:Hm; [|by eauto].
      intros [[<- <-]|[_ Hk]]%(lookup_insert_Some (M := gmap GroupKey)); [|by eauto]. exists m. split; [done|].
      cbn. intros x. rewrite elem_of_retain. by intros [? _].
    + cbn. intros m'. unfold Groups.leave_group.
      destruct (b_groups (h_broker (w_hub w)) !! (f, g)) as [m|] eqn:Hm; [|by rewrite Hm].
      intros [[_ <-]|[[] _]]%(lookup_insert_Some (M := gmap GroupKey)); [|done]. cbn. rewrite elem_of_retain, bool_decide_true by done. by intros [_ ?].
Qed.

Lemma offer_hub out e h : h_broker (offer out e h).2 = h_broker h.
Proof. done. Qed.
Lemma offers_hub e l h : h_broker (for_each l (λ sender, offer sender e) h).2 = h_broker h.
Proof. revert h; induction l as [|x l IH]; intros h; [done|]. cbn. by rewrite IH. Qed.

Lemma propagate_interest_spec f b w :
  ∃ h, (propagate_interest f b w).2 = set_hub h w ∧ h_broker h = h_broker (w_hub w).
Proof.
  unfold propagate_interest, mbind, ST_bind, get_st, new_envelope, on_hub, on, fresh_envelope. cbn.
  set (h0 := MkHub _ _ _ _). unfold broadcast_interest, broadcast.
  pose proof (offers_hub (Envelope.new (h_ids (w_hub w)) (node_id (w_node w))
    (if b then Message.Subscribe f false None false else Message.Unsubscribe f))) as Ho.
  destruct (peer_topic_filter (w_acls w));
    match goal with |- context [for_each ?l _ h0] =>
      specialize (Ho l h0); destruct (for_each l _ h0) as [[] h1] eqn:He end;
    exists h1; (split; [done|]); exact Ho.
Qed.

Lemma release_interest_spec f w :
  ∃ w', run (release_interest f) w = Some ((), w') ∧ framed w w' ∧ shrinks w w' ∧ w_tasks w' = w_tasks w
    ∧ ∀ g, Interest.count (w_interest w') g
         = if decide (f = g) then Interest.count (w_interest w) g - 1 else Interest.count (w_interest w) g.
Proof.
  unfold release_interest. rewrite run_sync_bind. unfold on_interest, on.
  pose proof (λ g, count_unsubscribe f g (w_interest w)) as Hc.
  destruct (unsubscribe f (w_interest w)) as [lost i] eqn:Hu. cbn [fst snd] in *. destruct lost.
  - rewrite run_sync. destruct (propagate_interest_spec f false (set_interest i w)) as (h & Hp & Hh).
    destruct (propagate_interest f false (set_interest i w)) as [[] w']. cbn [snd] in Hp. subst w'.
    eexists. split; [done|]. split; [by exists h, i, (w_tasks w)|]. split; [|split; [done|exact Hc]].
    apply shrinks_same; [done|]. cbn. by rewrite Hh.
  - eexists. split; [done|]. split; [exists (w_hub w), i, (w_tasks w); by destruct w|]. split; [|split; [done|exact Hc]].
    by apply shrinks_same.
Qed.

(** How often a filter occurs. *)
Definition occurs (f : TopicFilter) (l : list (TopicFilter * Subscription)) : nat :=
  length (List.filter (λ p, bool_decide (p.1 = f)) l).

Lemma release_all_spec out l w :
  ∃ w', run (release_all out l) w = Some ((), w') ∧ framed w w' ∧ shrinks w w'
    ∧ (∀ f s, (f, s) ∈ l → stopped f out s w')
    ∧ (∀ n, (∀ f s, (f, s) ∈ l → handle_of s ≠ Some n) → w_tasks w' !! n = w_tasks w !! n)
    ∧ ∀ g, Interest.count (w_interest w') g = Interest.count (w_interest w) g - occurs g l.
Proof.
  revert w; induction l as [|[f s] l IH]; intros w; cbn [release_all].
  { exists w. split; [done|]. split; [apply framed_refl|]. split; [apply shrinks_refl|].
    split; [by intros f s ?%not_elem_of_nil|]. split; [done|]. intros g. cbn. lia. }
  rewrite run_sync_bind. destruct (stop_subscription_spec f out s w) as (Hf1 & Hs1 & Hi1 & Hst1 & Ht1).
  set (w1 := (stop_subscription f out s w).2) in *. rewrite run_bind.
  destruct (release_interest_spec f w1) as (w2 & -> & Hf2 & Hs2 & Ht2 & Hi2). cbn [mbind option_bind fst snd].
  destruct (IH w2) as (w3 & -> & Hf3 & Hs3 & Hst3 & Ht3 & Hi3). exists w3. split; [done|].
  split; [eauto using framed_trans|]. split; [eauto using shrinks_trans|]. split; [|split].
  - intros f' s' [[= -> ->]|Hin]%elem_of_cons; [|by apply Hst3]. eauto using stopped_shrinks.
  - intros n Hn. rewrite Ht3, Ht2; [apply Ht1, (Hn f); by constructor|]. intros f' s' Hin. apply (Hn f'). by constructor.
  - intros g. rewrite Hi3, Hi2, Hi1. unfold occurs. cbn. case_decide as Hg.
    + rewrite bool_decide_true by done. cbn. lia.
    + rewrite bool_decide_false by done. lia.
Qed.

Lemma occurs_keys (m : Forwarders) g : occurs g (map_to_list m) = Nat.b2n (holds g m).
Proof.
  rewrite <-(owes_keys m g). unfold occurs, owes. generalize (map_to_list m). intros l.
  induction l as [|[f s] l IH]; [done|]. cbn. destruct (bool_decide (f = g)); cbn; by rewrite IH.
Qed.

(** ** The end of a connection *)

Lemma forwarders_of_emptied i j w : forwarders_of j (with_forwarders i ∅ w) = if decide (j = i) then ∅ else forwarders_of j w.
Proof.
  unfold forwarders_of, with_forwarders. cbn. destruct (decide (j = i)) as [->|Hj].
  - destruct (w_forwarders w !! i) eqn:Hc.
    + by rewrite list_lookup_insert_eq by by eapply lookup_lt_Some.
    + by rewrite list_insert_ge, Hc by by apply lookup_ge_None.
  - by rewrite list_lookup_insert_ne.
Qed.

Definition after_peer (p : option PeerId) (s : Membership) : Membership :=
  match p with Some p => mark_disconnected p s | None => s end.
Definition after_link (l : option (PeerId * nat)) (s : PeerLinks) : PeerLinks :=
  match l with Some l => PeerLinks.unregister l.1 l.2 s | None => s end.

Lemma run_shut_down c w w2 :
  run (release_all (outgoing_tx c) (map_to_list (forwarders_of (forwarders c) w)))
    (with_forwarders (forwarders c) ∅ w) = Some ((), w2) →
  run (shut_down c) w = Some ((), set_membership (after_peer (peer_identity c) (w_membership w2)) w2).
Proof.
  intros Hr.
  change (run (shut_down c) w) with (run (release_all (outgoing_tx c) (map_to_list (forwarders_of (forwarders c) w)) ≫= (λ _,
    match peer_identity c with
    | Some p => sync (on w_membership set_membership (λ m, ((), mark_disconnected p m)))
    | None => mret ()
    end)) (with_forwarders (forwarders c) ∅ w)).
  rewrite run_bind, Hr. cbn [mbind option_bind fst snd]. destruct (peer_identity c); [done|]. by destruct w2.
Qed.

Lemma run_drop_context c w :
  run (drop_context c) w
  = Some ((), set_peer_links (after_link (peer_link_registration c) (w_peer_links w))
                (set_registry (unregister (registration c) (w_registry w)) w)).
Proof. unfold drop_context. by destruct (peer_link_registration c). Qed.

(** C17: at its end a connection leaves nothing behind. Its map is
    empty and every task in it has stopped, every group has lost it, each of
    its filters is released once from the interest, it is out of the registry,
    its peer is marked disconnected and its link unregistered; the other
    connections' maps and tasks are what they were. *)
Theorem shut_down_leaves_nothing (c : ConnectionContext) (w : World) :
  let m := forwarders_of (forwarders c) w in
  ∃ w', run (_ ← shut_down c; drop_context c) w = Some ((), w')
    ∧ forwarders_of (forwarders c) w' = ∅
    ∧ (∀ i, i ≠ forwarders c → forwarders_of i w' = forwarders_of i w)
    ∧ (∀ f s, m !! f = Some s → stopped f (outgoing_tx c) s w')
    ∧ (∀ n, (∀ f s, m !! f = Some s → handle_of s ≠ Some n) → w_tasks w' !! n = w_tasks w !! n)
    ∧ (∀ f, Interest.count (w_interest w') f = Interest.count (w_interest w) f - Nat.b2n (holds f m))
    ∧ connections (w_registry w') = delete (registration c) (connections (w_registry w))
    ∧ w_membership w' = after_peer (peer_identity c) (w_membership w)
    ∧ w_peer_links w' = after_link (peer_link_registration c) (w_peer_links w).
Proof.
  intros m. destruct (release_all_spec (outgoing_tx c) (map_to_list m) (with_forwarders (forwarders c) ∅ w))
    as (w2 & Hr & (h & i & t & ->) & _ & Hst & Ht & Hi).
  eexists. rewrite run_bind, (run_shut_down _ _ _ Hr). cbn [mbind option_bind fst snd]. rewrite run_drop_context.
  split; [done|]. split; [exact (eq_trans (forwarders_of_emptied _ (forwarders c) w) (decide_True _ _ eq_refl))|].
  split; [intros j Hj; exact (eq_trans (forwarders_of_emptied _ j w) (decide_False _ _ Hj))|].
  split; [intros f s Hm; apply (Hst f s); by apply elem_of_map_to_list|].
  split; [intros n Hn; apply Ht; intros f s Hin%elem_of_map_to_list; by apply (Hn f)|].
  split; [|done]. intros f. specialize (Hi f). rewrite occurs_keys in Hi. exact Hi.
Qed.

(** ** The sweep of a reload *)

(** A subscription the lists forbid, in the entry's map. *)
Definition forbids (a : ReloadableAcls) (w : World) (f : TopicFilter) (entry : ConnectionEntry) : bool :=
  holds f (forwarders_of (entry_forwarders entry) w) && negb (permitted a w entry f).

Lemma forwarders_of_with i j m w :
  forwarders_of j (with_forwarders i m w)
  = if decide (i = j) then (if decide (i < length (w_forwarders w)) then m else ∅) else forwarders_of j w.
Proof.
  unfold forwarders_of, with_forwarders. cbn. destruct (decide (i = j)) as [->|Hj].
  - destruct (decide (j < _)) as [Hlt|Hge]; [by rewrite list_lookup_insert_eq|].
    rewrite list_insert_ge by lia. by rewrite lookup_ge_None_2 by lia.
  - by rewrite list_lookup_insert_ne.
Qed.

Lemma take_forbidden_spec a entry w :
  let '(l, w') := take_forbidden a entry w in
  framed (with_forwarders (entry_forwarders entry) (forwarders_of (entry_forwarders entry) w') w) w'
  ∧ w_hub w' = w_hub w ∧ w_tasks w' = w_tasks w ∧ w_interest w' = w_interest w
  ∧ (∀ f s, forwarders_of (entry_forwarders entry) w' !! f = Some s
       ↔ forwarders_of (entry_forwarders entry) w !! f = Some s ∧ permitted a w entry f = true)
  ∧ (∀ f s, (f, s) ∈ l ↔ forwarders_of (entry_forwarders entry) w !! f = Some s ∧ permitted a w entry f = false)
  ∧ ∀ f, occurs f l = Nat.b2n (forbids a w f entry).
Proof.
  unfold take_forbidden. set (i := entry_forwarders entry). set (m := forwarders_of i w).
  assert (forwarders_of i (with_forwarders i (base.filter (λ p : TopicFilter * Subscription, permitted a w entry p.1 = true) m) w)
    = base.filter (λ p : TopicFilter * Subscription, permitted a w entry p.1 = true) m) as Hi.
  { rewrite forwarders_of_with, decide_True by done. destruct (decide _) as [|Hge]; [done|].
    assert (m = ∅) as ->; [|by rewrite map_filter_empty]. unfold m, forwarders_of. by rewrite lookup_ge_None_2 by lia. }
  rewrite Hi. split; [apply framed_refl|]. do 3 (split; [done|]). split; [intros f s; apply map_lookup_filter_Some|].
  split; [intros f s; by rewrite elem_of_map_to_list, map_lookup_filter_Some|].
  intros f. rewrite occurs_keys. f_equal. unfold forbids, holds. fold i m.
  destruct (base.filter (λ p : TopicFilter * Subscription, permitted a w entry p.1 = false) m !! f) as [s|] eqn:Hs.
  - apply map_lookup_filter_Some in Hs as [Hm Hp]. cbn in Hp. rewrite Hm, Hp, !bool_decide_true by eauto. done.
  - rewrite bool_decide_false by (by intros [? ?]). destruct (m !! f) as [s|] eqn:Hm; [|done].
    apply map_lookup_filter_None in Hs as [Hs|Hs]; [congruence|]. specialize (Hs s Hm). cbn in Hs.
    destruct (permitted a w entry f); [|done]. by rewrite andb_false_r.
Qed.

Lemma framed_forwarders w w' i : framed w w' → forwarders_of i w' = forwarders_of i w ∧ w_is_peer w' = w_is_peer w.
Proof. by intros (h & j & t & ->). Qed.

(** Only the hub, the interest, the tasks and the maps differ. *)
Definition swept (w w' : World) : Prop := ∃ h i t f, w' = set_forwarders f (set_tasks t (set_interest i (set_hub h w))).

Lemma swept_refl w : swept w w.
Proof. exists (w_hub w), (w_interest w), (w_tasks w), (w_forwarders w). by destruct w. Qed.
Lemma swept_trans w1 w2 w3 : swept w1 w2 → swept w2 w3 → swept w1 w3.
Proof. intros (h & i & t & f & ->) (h' & i' & t' & f' & ->). by exists h', i', t', f'. Qed.

(** One entry of the sweep. *)
Lemma reconcile_entry_spec a entry w :
  ∃ w', run (stopped ← sync (take_forbidden a entry); release_all (entry_outgoing_tx entry) stopped) w = Some ((), w')
    ∧ shrinks w w' ∧ swept w w'
    ∧ (∀ i, i ≠ entry_forwarders entry → forwarders_of i w' = forwarders_of i w)
    ∧ (∀ f s, forwarders_of (entry_forwarders entry) w' !! f = Some s
         ↔ forwarders_of (entry_forwarders entry) w !! f = Some s ∧ permitted a w entry f = true)
    ∧ (∀ f s, forwarders_of (entry_forwarders entry) w !! f = Some s → permitted a w entry f = false →
         stopped f (entry_outgoing_tx entry) s w')
    ∧ ∀ g, Interest.count (w_interest w') g = Interest.count (w_interest w) g - Nat.b2n (forbids a w g entry).
Proof.
  rewrite run_sync_bind. pose proof (take_forbidden_spec a entry w) as Ht.
  destruct (take_forbidden a entry w) as [l w1]. destruct Ht as (Hf1 & Hh & Ht & Hi & Hk & Hl & Hc). cbn [fst snd].
  destruct (release_all_spec (entry_outgoing_tx entry) l w1) as (w2 & Hr & Hf2 & Hs & Hst & _ & Hc2).
  exists w2. split; [exact Hr|]. split.
  { eapply shrinks_trans; [|exact Hs]. apply shrinks_same; [done|]. by rewrite Hh. }
  destruct (framed_forwarders w1 w2 (entry_forwarders entry) Hf2) as [He _].
  split; [destruct Hf1 as (? & ? & ? & Hw1), Hf2 as (h & i & t & ->); by exists h, i, t, (w_forwarders w1); rewrite Hw1|]. split.
  { intros i Hne. destruct (framed_forwarders w1 w2 i Hf2) as [-> _]. destruct (framed_forwarders _ _ i Hf1) as [-> _].
    rewrite forwarders_of_with. by rewrite decide_False by congruence. }
  split; [intros f s; by rewrite He|]. split; [intros f s Hm Hpf; apply Hst, Hl; done|].
  intros g. by rewrite Hc2, Hi, Hc.
Qed.

(** How many connections lose a filter. *)
Definition losers (a : ReloadableAcls) (w : World) (f : TopicFilter) (entries : list ConnectionEntry) : nat :=
  length (List.filter (forbids a w f) entries).

Lemma reconcile_entries_spec a entries w :
  NoDup (entry_forwarders <$> entries) →
  ∃ w', run (reconcile_entries a entries) w = Some ((), w') ∧ shrinks w w' ∧ swept w w'
    ∧ (∀ i, i ∉ entry_forwarders <$> entries → forwarders_of i w' = forwarders_of i w)
    ∧ (∀ entry f s, entry ∈ entries → forwarders_of (entry_forwarders entry) w' !! f = Some s
         ↔ forwarders_of (entry_forwarders entry) w !! f = Some s ∧ permitted a w entry f = true)
    ∧ (∀ entry f s, entry ∈ entries → forwarders_of (entry_forwarders entry) w !! f = Some s →
         permitted a w entry f = false → stopped f (entry_outgoing_tx entry) s w')
    ∧ ∀ g, Interest.count (w_interest w') g = Interest.count (w_interest w) g - losers a w g entries.
Proof.
  revert w; induction entries as [|entry entries IH]; intros w; cbn [reconcile_entries].
  { intros _. exists w. split; [done|]. split; [apply shrinks_refl|]. split; [apply swept_refl|]. split; [done|].
    split; [by intros ? ? ? ?%not_elem_of_nil|]. split; [by intros ? ? ? ?%not_elem_of_nil|]. intros g. cbn. lia. }
  rewrite fmap_cons, NoDup_cons. intros [Hni Hnd].
  destruct (reconcile_entry_spec a entry w) as (w1 & Hr & Hs & Hp & Hf & Hk & Hst & Hc).
  destruct (IH w1 Hnd) as (w2 & Hr2 & Hs2 & Hp2 & Hf2 & Hk2 & Hst2 & Hc2).
  assert (∀ x f, permitted a w1 x f = permitted a w x f) as Hperm by (by destruct Hp as (? & ? & ? & ? & ->)).
  assert (∀ x, x ∈ entries → forwarders_of (entry_forwarders x) w1 = forwarders_of (entry_forwarders x) w) as Hsame.
  { intros x Hx. apply Hf. intros Heq. apply Hni. rewrite <-Heq. by apply list_elem_of_fmap_2. }
  exists w2. split.
  { rewrite run_sync_bind in Hr |- *. rewrite run_bind, Hr. exact Hr2. }
  split; [eauto using shrinks_trans|]. split; [eauto using swept_trans|]. split.
  { intros i Hi. rewrite not_elem_of_cons in Hi. rewrite Hf2, Hf; tauto. }
  split; [|split].
  - intros x f s [->|Hx]%elem_of_cons; [rewrite Hf2 by done; apply Hk|].
    rewrite Hk2, Hsame, Hperm by done. done.
  - intros x f s [->|Hx]%elem_of_cons Hm Hpf; [eauto using stopped_shrinks|].
    apply Hst2; [done|by rewrite Hsame|by rewrite Hperm].
  - intros g. rewrite Hc2, Hc. unfold losers. cbn.
    assert (List.filter (forbids a w1 g) entries = List.filter (forbids a w g) entries) as ->.
    { apply List.filter_ext_in. intros x Hx%list_elem_of_In. unfold forbids. by rewrite Hsame, Hperm by done. }
    destruct (forbids a w g entry); cbn; lia.
Qed.

(** C16: after the sweep of a reload a connection is subscribed to
    exactly those of its filters that the list of its role now permits; the
    tasks and the group memberships of the others have stopped, and the
    interest of a filter has dropped by the number of connections that lost
    it. *)
Theorem reconcile_leaves_permitted (w : World) :
  NoDup (entry_forwarders <$> World.snapshot (w_registry w)) →
  ∃ w', run reconcile_topic_acls w = Some ((), w')
    ∧ (∀ entry f s, entry ∈ World.snapshot (w_registry w) →
         forwarders_of (entry_forwarders entry) w' !! f = Some s
         ↔ forwarders_of (entry_forwarders entry) w !! f = Some s ∧ permitted (w_acls w) w entry f = true)
    ∧ (∀ entry f s, entry ∈ World.snapshot (w_registry w) →
         forwarders_of (entry_forwarders entry) w !! f = Some s → permitted (w_acls w) w entry f = false →
         stopped f (entry_outgoing_tx entry) s w')
    ∧ ∀ f, Interest.count (w_interest w') f
         = Interest.count (w_interest w) f - losers (w_acls w) w f (World.snapshot (w_registry w)).
Proof.
  intros Hnd. destruct (reconcile_entries_spec (w_acls w) _ w Hnd) as (w' & Hr & _ & _ & _ & Hk & Hst & Hc).
  exists w'. split; [|done]. unfold reconcile_topic_acls. by rewrite !run_sync_bind.
Qed.
End handlers.

Import SampleNode.

(** A connection that has just been accepted, on the sample node. *)
Module SampleHandler.
Import SampleNode.
Definition opened := open_context None 0 world.
Definition ctx : ConnectionContext := opened.1.
Definition publish : Envelope := Sample.publish 3 (lit "a") [7%Z] false.
(** With a list that permits nobody. *)
Definition closed_acl : ReloadableAcls := MkReloadableAcls (Some (MkTopicAcl ∅)) None None None.
Definition guarded : World := set_acls closed_acl opened.2.
(** Subscribed, then the list. *)
Definition subscribed : World := set_acls closed_acl (advance 30 (staying None 0 [0]) world).2.

Lemma roomy_guarded : roomy ctx guarded.
Proof. right. intros e. vm_compute. reflexivity. Qed.
End SampleHandler.

(** A refused publish. *)
Lemma publish_gate_witness :
  ∃ h', (run (handle_publish SampleHandler.ctx SampleHandler.publish) SampleHandler.guarded)
    = Some (true, set_rate_limiter None (set_hub h' SampleHandler.guarded))
    ∧ topic_acl_rejections (h_metrics h') = 1%Z ∧ b_messages_published (h_broker h') = 0%Z.
Proof.
  destruct (@publish_gate SampleNode.sample_broadcast SampleNode.sample_mpsc SampleNode.sample_store SampleNode.sample_uuids SampleHandler.ctx SampleHandler.publish
    (Sample.topic (lit "a")) SampleHandler.guarded eq_refl SampleHandler.roomy_guarded) as (ok & h' & Hr & m & Hb & Hm & _ & Ht).
  destruct ok.
  - exists h'. split; [exact Hr|]. rewrite Hm, Hb. vm_compute. done.
  - destruct Ht as [Hc _]. vm_compute in Hc. discriminate.
Defined.

(** The sweep takes the subscription away. *)
Lemma reconcile_leaves_permitted_witness :
  ∃ w', run reconcile_topic_acls SampleHandler.subscribed = Some ((), w')
    ∧ Interest.count (w_interest w') SampleNode.filter = 0.
Proof.
  destruct (@reconcile_leaves_permitted SampleNode.sample_broadcast SampleNode.sample_mpsc SampleNode.sample_store SampleNode.sample_uuids SampleHandler.subscribed)
    as (w' & Hr & _ & _ & Hc).
  - vm_compute. apply NoDup_singleton.
  - exists w'. split; [exact Hr|]. rewrite Hc. vm_compute. reflexivity.
Defined.

(** An [Unsubscribe] whose acknowledgement cannot be sent: the forwarder is
    gone, its interest is not released, and the shutdown that follows has
    nothing left to release. *)
Module FailedAck.
Import SampleNode.
Definition subscribed := advance 30 (staying None 0 [0]) world.
(** The writer has stopped meanwhile. *)
Definition hangup (w : World) : World :=
  set_hub (MkHub (h_broker (w_hub w)) (<[0 := Reference.MkChan 64 true []]> (h_chans (w_hub w))) (h_ids (w_hub w))
    (h_metrics (w_hub w))) w.
Definition ctx : ConnectionContext := SampleHandler.ctx.
Definition after : option (bool * World) :=
  ok ← run (handle_unsubscribe ctx (request 2 (Message.Unsubscribe filter)) filter) (hangup subscribed.2);
  w ← run (shut_down ctx) ok.2;
  Some (ok.1, w.2).
End FailedAck.

Example failed_ack_leaks_interest :
  match FailedAck.after with
  | Some (ok, w) => ok = false ∧ holders SampleNode.filter (w_forwarders w) = 0
      ∧ is_interested (w_interest w) SampleNode.filter = true
  | None => False
  end.
Proof. vm_compute. done. Qed.
