(* ===== verification/Relay.v ===== *)
(** * One node's part in relaying a message

    A relay of a node is an ordinary forwarder between its broker and one of
    its connections. For one message, the publishes on [t] with identifier [i],
    this file says what a step of a node does to the copies waiting in its
    relays ([pending]) and in the channels they write to: a publish the node
    takes adds one copy to every matching relay ([publish_admits]), a relay's
    step moves a copy on ([relay_step]). [Mesh.v] puts the nodes together. *)

From S2P Require Import Prelude.
From S2P Require Import Text.
From S2P Require Import Topic.
From S2P Require Import Filter.
From S2P Require Import Runtime.
From S2P Require Import Message.
From S2P Require Import SeenIds.
From S2P Require Import TopicChannel.
From S2P Require Import TopicMap.
From S2P Require Import Groups.
From S2P Require Import TopicAcl.
From S2P Require Import RateLimit.
From S2P Require Import MessageStore.
From S2P Require Import Broker.
From S2P Require Import BrokerSpec.
From S2P Require Import Metrics.
From S2P Require Import DeadLetter.
From S2P Require Import Forwarder.
From S2P Require Import Async.
From S2P Require Import Access.
From S2P Require Import World.
From S2P Require Import Connection.
From S2P Require Import Handlers.

#[local] Open Scope nat_scope.

(** A relay: its task, the filter it subscribes to, the channel it feeds. *)
Record Relay := MkRelay {
  relay_task : nat;
  relay_filter : TopicFilter;
  relay_out : nat;
}.
#[export] Instance Relay_eq_dec : EqDecision Relay.
Proof. solve_decision. Defined.

Section relay.
Context `{Broadcast Envelope} `{Mpsc Envelope} `{MessageStore} `{Uuids}.
Context `{!BroadcastLaws Envelope} `{!MpscLaws Envelope}.

Definition broker_of (w : World) : Broker := h_broker (w_hub w).
Definition chans_of (w : World) : mpsc_store Envelope := h_chans (w_hub w).

Definition task_queue (x : Task) : list Envelope :=
  match task_phase x with Starting _ => [] | Running _ c => core_queue c end.
(** None while it is to subscribe again after a lag. *)
Definition task_receiver (x : Task) : option Receiver :=
  match task_phase x with Starting _ => None | Running _ c => if core_lagged c then None else Some (core_rx c) end.

(** The relay has subscribed, and waits with receiver [r]. *)
Definition running (x : Relay) (r : Receiver) (w : World) : Prop :=
  ∃ task q, w_tasks w !! relay_task x = Some (Some task)
    ∧ task_filter task = relay_filter x ∧ task_out task = relay_out x ∧ task_mode task = Plain
    ∧ task_receiver task = Some r
    ∧ sub_arc (broker_of w) (relay_filter x) = Some r.1 ∧ queue (broker_of w) r = Some q.

(** As a check. *)
Definition is_running (x : Relay) (r : Receiver) (w : World) : bool :=
  match w_tasks w !! relay_task x with
  | Some (Some task) =>
      bool_decide (task_filter task = relay_filter x) && (task_out task =? relay_out x)
      && match task_mode task with Plain => true | _ => false end && bool_decide (task_receiver task = Some r)
      && bool_decide (sub_arc (broker_of w) (relay_filter x) = Some r.1) && bool_decide (is_Some (queue (broker_of w) r))
  | _ => false
  end.

Lemma is_running_running x r w : is_running x r w = true → running x r w.
Proof.
  unfold is_running. destruct (w_tasks w !! relay_task x) as [[task|]|] eqn:Ht; [|done..].
  rewrite !andb_true_iff, !bool_decide_eq_true, Nat.eqb_eq. intros (((((Hf & Ho) & Hm) & Hr) & Ha) & [q Hq]).
  exists task, q. repeat split; try done. by destruct (task_mode task).
Qed.

(** What it has not sent on yet: its own queue, then its receiver's. *)
Definition pending (x : Relay) (w : World) : list Envelope :=
  match w_tasks w !! relay_task x with
  | Some (Some task) =>
      task_queue task ++ match task_receiver task with Some r => unwrap_or [] (queue (broker_of w) r) | None => [] end
  | _ => []
  end.

(** The next read of the relay would answer that it has fallen behind. *)
Definition lagging (x : Relay) (w : World) : bool :=
  match w_tasks w !! relay_task x with
  | Some (Some task) =>
      match task_queue task, task_receiver task with
      | [], Some r => match (recv_receiver r (broker_of w)).1 with Lagged _ => true | _ => false end
      | _, _ => false
      end
  | _ => false
  end.

(** No consumer group sends on the channel. *)
Definition ungrouped (c : nat) (w : World) : Prop :=
  ∀ k m, b_groups (broker_of w) !! k = Some m → c ∉ members m.

(** [outgoing_rx.recv()] of the task that writes the connection. *)
Definition take_out `{!MpscReceiver Envelope} (c : nat) : ST World (option Envelope) := λ w,
  let '(e, chans) := take_next c (h_chans (w_hub w)) in
  (e, set_hub (MkHub (h_broker (w_hub w)) chans (h_ids (w_hub w)) (h_metrics (w_hub w))) w).

(** ** The node's invariant

    [xs] are its relays, [outs] the channels of its connections that matter. *)
Section node.
Context (xs : list Relay) (outs : list nat).

Definition node_ok (w : World) : Prop :=
  BrokerSpec.wf (broker_of w)
  ∧ (∀ c, c ∈ outs → is_closed (chans_of w) c = false ∧ ungrouped c w)
  ∧ (∀ x, x ∈ xs → ∃ r, running x r w)
  ∧ ∀ x y r, x ∈ xs → y ∈ xs → running x r w → running y r w → x = y.

(** The node goes on: its relays still run, its connections are still open. *)
Definition stays (w w' : World) : Prop :=
  BrokerSpec.wf (broker_of w') ∧ w_acls w' = w_acls w
  ∧ (∀ x r, x ∈ xs → running x r w → running x r w')
  ∧ ∀ c, c ∈ outs → is_closed (chans_of w') c = is_closed (chans_of w) c ∧ (ungrouped c w → ungrouped c w').

Lemma running_det x r r' w : running x r w → running x r' w → r = r'.
Proof. intros (t1 & q1 & E1 & _ & _ & _ & R1 & _) (t2 & q2 & E2 & _ & _ & _ & R2 & _). congruence. Qed.

Lemma stays_ok w w' : stays w w' → node_ok w → node_ok w'.
Proof.
  intros (Hwf & _ & Hrun & Hout) (_ & Ho & Hx & Hinj). split; [done|]. split; [|split].
  - intros c Hc. destruct (Ho c Hc) as [Hcl Hu], (Hout c Hc) as [Hcl' Hu']. rewrite Hcl'. auto.
  - intros x Hin. destruct (Hx x Hin) as [r Hr]. exists r. by apply Hrun.
  - intros x y r Hin Hin' Hr Hr'. destruct (Hx x Hin) as [rx Hrx], (Hx y Hin') as [ry Hry].
    pose proof (running_det x rx r w' (Hrun x rx Hin Hrx) Hr) as ->.
    pose proof (running_det y ry r w' (Hrun y ry Hin' Hry) Hr') as ->. by apply (Hinj x y r).
Qed.

Lemma stays_refl w : BrokerSpec.wf (broker_of w) → stays w w.
Proof. by intros Hwf. Qed.

(** Only the broker and the channels of the hub matter to a running relay. *)
Lemma running_effect g x r w w' :
  effect g (broker_of w) (broker_of w') → w_tasks w' = w_tasks w → running x r w →
  running x r w' ∧ pending x w' = pending x w ++ g (relay_filter x).
Proof.
  intros [_ He] Ht (task & q & E & Hf & Ho & Hm & Hr & Ha & Hq). destruct (He _ _ _ Ha Hq) as [Ha' Hq']. split.
  - exists task, (q ++ g (relay_filter x)). rewrite Ht. by repeat split.
  - unfold pending. rewrite Ht, E, Hr. cbn. by rewrite Hq, Hq', <-app_assoc.
Qed.

(** ** The message *)

Context (t : Topic) (i : MessageId).

Definition is_copy (e : Envelope) : bool := bool_decide (id e = i) && bool_decide (publish_topic (kind e) = Some t).
Definition copies (l : list Envelope) : nat := length (List.filter is_copy l).

Definition has_seen (w : World) : bool := bool_decide (i ∈ SeenIds.order (b_seen (broker_of w))).

(** Nobody publishes the identifier on another topic. *)
Definition unique (e : Envelope) : Prop := ∀ t', publish_topic (kind e) = Some t' → id e = i → t' = t.

(** The window is not full: it forgets nothing yet. *)
Definition uncrowded (w : World) : Prop :=
  length (SeenIds.order (b_seen (broker_of w))) < SeenIds.capacity (b_seen (broker_of w)).

Lemma has_seen_same w w' : b_seen (broker_of w') = b_seen (broker_of w) → has_seen w' = has_seen w.
Proof. intros Hs. apply bool_decide_ext. by rewrite Hs. Qed.

Lemma copies_app l k : copies (l ++ k) = copies l + copies k.
Proof. unfold copies. by rewrite List.filter_app, length_app. Qed.
Lemma copies_one e : copies [e] = Nat.b2n (is_copy e).
Proof. unfold copies. cbn. by destruct (is_copy e). Qed.

(** The node goes on; it has taken the message just now ([taken]), and then
    every matching relay has one more copy to send, or nothing has changed for
    the message. *)
Definition admits (taken : bool) (w w' : World) : Prop :=
  stays w w'
  ∧ (∀ x, x ∈ xs → copies (pending x w') = copies (pending x w) + Nat.b2n (taken && matches (relay_filter x) t))
  ∧ (∀ c, c ∈ outs → copies (queued (chans_of w') c) = copies (queued (chans_of w) c))
  ∧ has_seen w' = has_seen w || taken ∧ (taken = true → has_seen w = false).

Lemma admits_refl w : BrokerSpec.wf (broker_of w) → admits false w w.
Proof. intros Hwf. split; [by apply stays_refl|]. split; [intros; cbn; lia|]. split; [done|]. by rewrite orb_false_r. Qed.

(** *** Publishing *)

Lemma publish_bystander (topic : Topic) e now b chans :
  BrokerSpec.wf b →
  let '(b', chans') := (publish topic e now (b, chans)).2 in
  (∀ k m', b_groups b' !! k = Some m' → ∃ m, b_groups b !! k = Some m ∧ members m' = members m)
  ∧ (∀ c, is_closed chans' c = is_closed chans c)
  ∧ ∀ c, (∀ k m, b_groups b !! k = Some m → c ∉ members m) → queued chans' c = queued chans c.
Proof.
  intros Hwf. pose proof Hwf as (_ & _ & _ & Hseen & Hcap). unfold publish.
  pose proof (seen_record_wf (id e) _ Hseen) as Hseen'. destruct (record_order (id e) _ Hseen) as [_ Hcap'].
  destruct (SeenIds.record (id e) (b_seen b)) as [new seen1]. simpl in *.
  destruct new; simpl; [|split; [by eauto|done]].
  set (b1 := set_seen seen1 _ b). destruct (persist_fields e b1) as (Pt & Pp & Ph & Pg & Ps & _).
  assert (BrokerSpec.wf (persist e b1)) as Hk.
  { apply (same_maps_keeps b); rewrite ?Pt, ?Pp, ?Ph, ?Ps; try done. simpl. by rewrite Hcap'. }
  destruct (publish_channels_effect topic e (persist e b1) Hk) as (_ & Hg & _).
  destruct (publish_channels topic e (persist e b1)) as [n b3]. simpl in Hg. rewrite Hg, Pg.
  pose proof (publish_groups_bystander topic now e (b_groups b1) chans) as Hp.
  destruct (publish_groups topic now e (b_groups b1) chans) as [[n' g] chans']. exact Hp.
Qed.
(** A step that touches neither the broker nor the tasks, and sends nothing of
    the message. *)
Lemma undisturbed w w' :
  node_ok w → broker_of w' = broker_of w → w_acls w' = w_acls w → w_tasks w' = w_tasks w →
  (∀ c, is_closed (chans_of w') c = is_closed (chans_of w) c
        ∧ copies (queued (chans_of w') c) = copies (queued (chans_of w) c)) →
  admits false w w'.
Proof.
  intros (Hwf & _) Hb Ha Ht Hc. split; [|split; [|split; [|split; [|done]]]].
  - unfold stays, running, ungrouped. rewrite Hb, Ht. split; [done|]. split; [done|]. split; [done|].
    intros c _. split; [apply Hc|done].
  - intros x _. unfold pending. rewrite Hb, Ht. cbn. lia.
  - intros c _. apply Hc.
  - unfold has_seen. by rewrite Hb, orb_false_r.
Qed.

Lemma reply_undisturbed c k ok w w' :
  publish_topic k = None → run (reply c k) w = Some (ok, w') →
  broker_of w' = broker_of w ∧ w_acls w' = w_acls w ∧ w_tasks w' = w_tasks w
  ∧ ∀ ch, is_closed (chans_of w') ch = is_closed (chans_of w) ch
      ∧ copies (queued (chans_of w') ch) = copies (queued (chans_of w) ch).
Proof.
  intros Hk. unfold reply, send, send_await. rewrite run_bind, run_sync. cbn. unfold send_now, send_out. cbn.
  destruct (is_closed (h_chans (w_hub w)) (outgoing_tx c)) eqn:Hc; cbn; [by intros [= <- <-]|].
  set (e := Envelope.new (h_ids (w_hub w)) (node_id (w_node w)) k).
  destruct (try_send (outgoing_tx c) e (h_chans (w_hub w))) as [[|] s'] eqn:Hs; cbn; [|done]. intros [= <- <-].
  apply try_send_accepted in Hs as (_ & Hq & Hne & Hcl). do 3 (split; [done|]). intros ch. split; [apply Hcl|].
  unfold chans_of. cbn. destruct (decide (ch = outgoing_tx c)) as [->|Hch]; [|by rewrite Hne].
  assert (is_copy e = false) as He by (unfold is_copy; rewrite andb_comm; change (kind e) with k; by rewrite Hk).
  rewrite Hq, copies_app, copies_one, He. apply Nat.add_0_r.
Qed.

(** Recording an identifier while the window is not full. *)
Lemma seen_after j s :
  SeenIds.wf s → length (SeenIds.order s) < SeenIds.capacity s →
  i ∈ SeenIds.order (SeenIds.record j s).2 ↔ i ∈ SeenIds.order s ∨ j = i.
Proof.
  intros Hwf Hlt. destruct (record_order j s Hwf) as [-> _]. destruct (decide (j ∈ SeenIds.order s)) as [Hj|Hj].
  - split; [by left|]. by intros [?| <-].
  - unfold window. rewrite length_app. cbn. replace (_ - _) with 0 by lia. rewrite drop_0, elem_of_app, list_elem_of_singleton.
    intuition.
Qed.

(** The broker takes a publish. *)
Lemma hub_publish_admits e topic w w' :
  (∀ x, x ∈ xs → Filter.wf (relay_filter x)) → node_ok w → uncrowded w → unique e →
  publish_topic (kind e) = Some topic →
  w_hub w' = (hub_publish topic e (w_clock w) (w_hub w)).2 → w_acls w' = w_acls w → w_tasks w' = w_tasks w →
  admits (is_copy e && negb (has_seen w)) w w' ∧ (is_copy e = true → has_seen w' = true).
Proof.
  intros Hfw Hok Hun Huq Hk Hh Ha Ht. pose proof Hok as (Hwf & Hout & _).
  pose proof (publish_effect topic e (w_clock w) (broker_of w) (chans_of w) Hwf) as He.
  pose proof (publish_seen topic e (w_clock w) (broker_of w) (chans_of w) Hwf) as Hse.
  pose proof (publish_bystander topic e (w_clock w) (broker_of w) (chans_of w) Hwf) as Hby.
  unfold hub_publish in Hh. fold (broker_of w) (chans_of w) in Hh.
  destruct (publish topic e (w_clock w) (broker_of w, chans_of w)) as [n [b' s']]. cbn [fst snd] in *.
  assert (broker_of w' = b') as Hb by (unfold broker_of; by rewrite Hh).
  assert (chans_of w' = s') as Hs by (unfold chans_of; by rewrite Hh). clear Hh.
  rewrite <-Hb in He, Hse, Hby. rewrite <-Hs in Hby. destruct Hby as (Hg & Hcl & Hq).
  assert (is_copy e = bool_decide (id e = i)) as Hcp.
  { unfold is_copy. destruct (decide (id e = i)) as [Hi|Hi]; [|by rewrite bool_decide_false].
    rewrite Hk, (Huq topic Hk Hi), !bool_decide_true; done. }
  assert (has_seen w' = has_seen w || is_copy e) as Hseen.
  { unfold has_seen. rewrite Hse, Hcp. pose proof Hwf as (_ & _ & _ & Hsw & _).
    rewrite (bool_decide_ext _ _ (seen_after (id e) _ Hsw Hun)). by rewrite bool_decide_or. }
  split; [|intros Hc; by rewrite Hseen, Hc, orb_true_r]. split; [|split; [|split; [|split]]].
  - split; [apply He|]. split; [done|]. split.
    + intros x r _ Hr. by apply (running_effect _ x r w w' He).
    + intros c _. split; [apply Hcl|]. intros Hu k m Hm. destruct (Hg k m Hm) as (m0 & Hm0 & ->). by apply (Hu k).
  - intros x Hx. destruct Hok as (_ & _ & Hrun & _). destruct (Hrun x Hx) as [r Hr].
    destruct (running_effect _ x r w w' He Ht Hr) as [_ ->]. rewrite copies_app. f_equal.
    destruct (is_copy e) eqn:Hc.
    + symmetry in Hcp. apply bool_decide_eq_true in Hcp. rewrite (Huq topic Hk Hcp). unfold is_new, has_seen. rewrite Hcp.
      destruct (bool_decide (i ∈ _)); cbn [negb andb]; [done|]. rewrite gives_matches by by apply Hfw.
      destruct (matches (relay_filter x) t); [by rewrite copies_one, Hc|done].
    + destruct (is_new _ e); [|done]. rewrite gives_matches by by apply Hfw.
      destruct (matches (relay_filter x) topic); [by rewrite copies_one, Hc|done].
  - intros c Hc. f_equal. apply Hq. apply (Hout c Hc).
  - rewrite Hseen. by destruct (has_seen w), (is_copy e).
  - by intros [_ ?%negb_true_iff]%andb_true_iff.
Qed.

(** A connection's publish: the broker takes it, or the node answers with an
    error. *)
Lemma publish_admits c e topic ok w w' :
  (∀ x, x ∈ xs → Filter.wf (relay_filter x)) → node_ok w → uncrowded w → unique e →
  publish_topic (kind e) = Some topic → run (handle_publish c e) w = Some (ok, w') →
  ∃ taken, admits taken w w' ∧ (is_copy e = true → (verdict c topic w).1 = Accepted → has_seen w' = true).
Proof.
  intros Hfw Hok Hun Huq Hk. rewrite (run_handle_publish c e topic w Hk).
  assert (∀ f message, run (reply c (Message.Error (Some (Message.id e)) message))
      (metric f (set_rate_limiter (verdict c topic w).2 w)).2 = Some (ok, w') → admits false w w') as Hno.
  { intros f message Hr. apply reply_undisturbed in Hr as (? & ? & ? & ?); [|done]. by apply undisturbed. }
  destruct (verdict c topic w).1; intros Hr.
  - apply Hno in Hr. by exists false.
  - apply Hno in Hr. by exists false.
  - injection Hr as _ <-. destruct (hub_publish_admits e topic w
      (set_hub (hub_publish topic e (w_clock w) (w_hub w)).2 (set_rate_limiter (verdict c topic w).2 w))) as [Ha Hs]; try done.
    eauto.
Qed.

(** A peer link's publish is taken when its list permits it. *)
Lemma verdict_peer c topic w :
  is_peer c = true → acl_permits (w_acls w) true (principal c) topic TopicAcl.Publish = true →
  (verdict c topic w).1 = Accepted.
Proof. intros Hp Ha. unfold verdict. rewrite Hp, Ha. by destruct (w_rate_limiter w). Qed.

(** *** A relay's own step *)

Lemma sender_kept f r h : sub_arc (h_broker h) f = Some r.1 → sender_dropped h r = false.
Proof.
  intros Ha. unfold sender_dropped. apply negb_false_iff, orb_true_iff. unfold sub_arc in Ha.
  destruct (as_topic f) as [t'|]; [left|right]; apply existsb_exists; eexists (_, r.1);
    (split; [by apply list_elem_of_In, elem_of_map_to_list|apply Nat.eqb_refl]).
Qed.

(** What the step does to the relay itself, by its queue. *)
Lemma run_relay x task c q w :
  w_tasks w !! relay_task x = Some (Some task) → task_mode task = Plain →
  task_phase task = Running _ c → core_lagged c = false →
  sub_arc (broker_of w) (task_filter task) = Some (core_rx c).1 → queue (broker_of w) (core_rx c) = Some q →
  BrokerSpec.wf (broker_of w) → is_closed (chans_of w) (task_out task) = false → lagging x w = false →
  let w' := (run_task BranchDeliver (relay_task x) w).2 in
  w' = w
  ∨ ∃ e task' h', w' = set_tasks (<[relay_task x := Some task']> (w_tasks w)) (set_hub h' w)
      ∧ task_filter task' = task_filter task ∧ task_out task' = task_out task ∧ task_mode task' = Plain
      ∧ task_receiver task' = Some (core_rx c)
      ∧ ((∃ q', core_queue c = e :: q' ∧ task_queue task' = q' ∧ h_broker h' = broker_of w
            ∧ try_send (task_out task) e (chans_of w) = (true, h_chans h'))
         ∨ ∃ q', core_queue c = [] ∧ q = e :: q' ∧ task_queue task' = [e] ∧ h_chans h' = chans_of w
            ∧ recv_receiver (core_rx c) (broker_of w) = (Received e, h_broker h')).
Proof.
  intros Ht Hm Hp Hla Ha Hq Hwf Hcl Hlag. unfold run_task, lagging in *. rewrite Ht in *. unfold task_step, task_queue, task_receiver in *.
  destruct task as [f out m dl phase]. cbn [task_filter task_out task_mode task_phase] in *. subst m phase.
  rewrite Hla in Hlag. unfold work. cbn [task_mode task_filter]. change (@core_lagged _ _ c = false) in Hla. rewrite Hla. destruct (core_queue c) as [|e l] eqn:Hcq; cbv iota.
  - unfold receive, on_broker, core_recv, mbind, ST_bind. cbn [feed_recv broker_feed task_filter].
    fold (broker_of w). pose proof (recv_receiver_spec (core_rx c) q (broker_of w) Hwf Hq) as Hr.
    destruct (recv_receiver (core_rx c) (broker_of w)) as [[e|n|] b'] eqn:Er; [|done|].
    + destruct Hr as (_ & _ & _ & _ & _ & _ & q' & -> & _). right. cbn. eexists e, _, _. split; [done|].
      do 4 (split; [done|]). right. by exists q'.
    + left. cbn. rewrite (sender_kept f (core_rx c)); [done|]. destruct Hr as (_ & Et & Ep & _). cbn. unfold sub_arc in *.
      by rewrite Et, Ep.
  - unfold send_next, send_out. fold (chans_of w). cbn [task_out]. rewrite Hcl.
    destruct (try_send out e (chans_of w)) as [[|] s'] eqn:Es; [|by left]. right. cbn. eexists e, _, _.
    split; [done|]. do 3 (split; [done|]). unfold core_sent. rewrite Hcq. cbn. split; [by rewrite Hla|]. left. by exists l.
Qed.

(** A step of relay [x] moves [k] copies from what it has to send to the
    channel it feeds. *)
Definition moves (x : Relay) (k : nat) (w w' : World) : Prop :=
  stays w w'
  ∧ copies (pending x w) = copies (pending x w') + k
  ∧ (∀ y, y ∈ xs → y ≠ x → pending y w' = pending y w)
  ∧ (∀ c, copies (queued (chans_of w') c) = copies (queued (chans_of w) c) + (if decide (c = relay_out x) then k else 0))
  ∧ has_seen w' = has_seen w.

(** The relay's task is replaced, and its own receiver may have been read. *)
Lemma update_relay x r task' h' w q' :
  x ∈ xs → (∀ y, y ∈ xs → relay_task y = relay_task x → y = x) → node_ok w → running x r w →
  task_filter task' = relay_filter x → task_out task' = relay_out x → task_mode task' = Plain →
  task_receiver task' = Some r → queue (h_broker h') r = Some q' →
  BrokerSpec.wf (h_broker h') → (∀ f, sub_arc (h_broker h') f = sub_arc (broker_of w) f) →
  b_groups (h_broker h') = b_groups (broker_of w) →
  (∀ f r' q, r' ≠ r → sub_arc (broker_of w) f = Some r'.1 → queue (broker_of w) r' = Some q → queue (h_broker h') r' = Some q) →
  (∀ c, is_closed (h_chans h') c = is_closed (chans_of w) c) →
  let w' := set_tasks (<[relay_task x := Some task']> (w_tasks w)) (set_hub h' w) in
  stays w w' ∧ (∀ y, y ∈ xs → y ≠ x → pending y w' = pending y w) ∧ pending x w' = task_queue task' ++ q'.
Proof.
  intros Hx Htask (_ & _ & Hrun & Hinj) Hr Hf Hto Hm Hrx Hq' Hwf Harc Hg Hother Hcl w'.
  pose proof Hr as (task & q & Ht & _).
  assert (w_tasks w' !! relay_task x = Some (Some task')) as Ht'.
  { cbn. by rewrite list_lookup_insert_eq by by eapply lookup_lt_Some. }
  assert (∀ y ry, y ∈ xs → y ≠ x → running y ry w → running y ry w' ∧ pending y w' = pending y w) as Hothers.
  { intros y ry Hy Hne Hry. assert (ry ≠ r) as Hrr by (intros ->; by apply Hne, (Hinj y x r)).
    destruct Hry as (tk & qy & Hyt & ? & ? & ? & Hyr & Hya & Hyq). pose proof (Hother _ ry qy Hrr Hya Hyq) as Hyq'.
    assert (w_tasks w' !! relay_task y = Some (Some tk)) as Hyt'.
    { cbn. rewrite list_lookup_insert_ne; [done|]. intros Heq. by apply Hne, Htask. }
    split.
    - exists tk, qy. unfold broker_of. cbn [w' w_hub set_tasks set_hub]. rewrite Harc. by repeat split.
    - unfold pending. rewrite Hyt, Hyt', Hyr. unfold broker_of at 1. cbn [w' w_hub set_tasks set_hub]. by rewrite Hyq, Hyq'. }
  split; [split; [done|split; [done|split]]|split].
  - intros y ry Hy Hry. destruct (decide (y = x)) as [->|Hne]; [|by apply Hothers].
    rewrite (running_det x ry r w Hry Hr). destruct Hr as (? & ? & _ & _ & _ & _ & _ & Ha & _).
    exists task', q'. unfold broker_of. cbn [w' w_hub set_tasks set_hub]. rewrite Harc. by repeat split.
  - intros c _. split; [apply Hcl|]. unfold ungrouped, broker_of. cbn. by rewrite Hg.
  - intros y Hy Hne. destruct (Hrun y Hy) as [ry Hry]. by apply (Hothers y ry).
  - unfold pending. rewrite Ht', Hrx. unfold broker_of. cbn [w' w_hub set_tasks set_hub]. by rewrite Hq'.
Qed.

Lemma relay_step x w :
  x ∈ xs → (∀ y, y ∈ xs → relay_task y = relay_task x → y = x) → relay_out x ∈ outs →
  node_ok w → lagging x w = false →
  ∃ k, moves x k w (run_task BranchDeliver (relay_task x) w).2.
Proof.
  intros Hx Htask Hout Hok Hlag. pose proof Hok as (Hwf & Ho & Hrun & _).
  destruct (Hrun x Hx) as [r Hr]. pose proof Hr as (task & q & Ht & Hf & Hto & Hm & Hrx & Ha & Hq).
  assert (pending x w = task_queue task ++ q) as Hpend by (unfold pending; by rewrite Ht, Hrx, Hq).
  unfold task_receiver, task_queue in Hrx, Hpend. destruct (task_phase task) as [|c] eqn:Hp; [done|].
  destruct (core_lagged c) eqn:Hla; [done|]. injection Hrx as <-. rewrite <-Hf in Ha. destruct (Ho _ Hout) as [Hcl _]. rewrite <-Hto in Hcl.
  destruct (run_relay x task c q w Ht Hm Hp Hla Ha Hq Hwf Hcl Hlag) as [->|(e & task' & h' & -> & Hf' & Hto' & Hm' & Hrx' & Hcase)].
  { exists 0. split; [by apply stays_refl|]. split; [lia|]. split; [done|]. split; [|done]. intros c'. destruct (decide _); lia. }
  rewrite Hf in Hf'. rewrite Hto in Hto'. destruct Hcase as [(q' & Hcq & Hq' & Hb & Hs)|(q' & Hcq & -> & Hq' & Hs & Hb)].
  - apply try_send_accepted in Hs as (_ & Hqs & Hne & Hcls). exists (copies [e]).
    destruct (update_relay x (core_rx c) task' h' w q) as (Hst & Hoth & Hnew); rewrite ?Hb; try done.
    split; [done|]. split; [rewrite Hnew, Hpend, Hcq, Hq', Nat.add_comm; apply (copies_app [e] (q' ++ q))|].
    split; [done|]. split; [|apply has_seen_same; unfold broker_of; cbn; by rewrite Hb]. intros c'. unfold chans_of at 1. cbn [w_hub set_tasks set_hub].
    rewrite <-Hto. destruct (decide _) as [->|Hc']; [by rewrite Hqs, copies_app|]. rewrite Hne by done. lia.
  - exists 0. pose proof (recv_receiver_spec (core_rx c) (e :: q') (broker_of w) Hwf Hq) as Hrs. rewrite Hb in Hrs.
    destruct Hrs as (Hwf' & Et & Ep & Eg & Es & Hother & q2 & [= <-] & Hq2).
    destruct (update_relay x (core_rx c) task' h' w q') as (Hst & Hoth & Hnew); try done.
    + intros f. unfold sub_arc. by rewrite Et, Ep.
    + intros c'. by rewrite Hs.
    + split; [done|]. split; [rewrite Hnew, Hpend, Hcq, Hq'; cbn; lia|]. split; [done|].
      split; [|by apply has_seen_same]. intros c'. unfold chans_of at 1. cbn [w_hub set_tasks set_hub].
      rewrite Hs. destruct (decide _); lia.
Qed.

(** *** The writer of a connection takes the next message of its channel *)

Lemma take_out_spec `{!MpscReceiver Envelope} `{!MpscReceiverLaws Envelope} c e w :
  BrokerSpec.wf (broker_of w) → (take_out c w).1 = Some e →
  let w' := (take_out c w).2 in
  stays w w' ∧ (∀ x, pending x w' = pending x w) ∧ has_seen w' = has_seen w
  ∧ ∀ d, copies (queued (chans_of w) d)
       = copies (queued (chans_of w') d) + (if decide (d = c) then Nat.b2n (is_copy e) else 0).
Proof.
  intros Hwf. unfold take_out. fold (chans_of w). pose proof (take_next_spec c (chans_of w)) as Hs.
  destruct (take_next c (chans_of w)) as [r s']. specialize (Hs _ _ eq_refl). cbn [fst snd]. intros ->.
  destruct (queued (chans_of w) c) as [|a q] eqn:Hq; [by destruct Hs|]. destruct Hs as ([= ->] & Hq' & Hne & Hcl).
  split; [split; [done|split; [done|split; [done|]]]|split; [done|split; [done|]]].
  - intros d _. split; [apply Hcl|done].
  - intros d. unfold chans_of at 2. cbn [w_hub set_hub h_chans]. destruct (decide (d = c)) as [->|Hd].
    + rewrite Hq, Hq', Nat.add_comm, <-copies_one. apply (copies_app [a] q).
    + rewrite Hne by done. lia.
Qed.
End node.
End relay.
