(* ===== verification/Delivery.v ===== *)
(** * From the broker to a subscriber's socket ([publish], [spawn_forwarder],
      [spawn_durable_forwarder] and [write_loop] together)

    A [Line] is a node's hub, one forwarder of it, and the task that writes the
    connection the forwarder feeds. Everybody else's operations on the broker
    and on the channels come in between. The file puts [BrokerSpec], [Forwarder]
    and [Writer] together: what the subscriber reads off its socket is what it
    is owed, and the two tasks get it there. *)

From S2P Require Import Prelude.
From S2P Require Import Text.
From S2P Require Import Topic.
From S2P Require Import Filter.
From S2P Require Import Runtime.
From S2P Require Import Message.
From S2P Require Import Framing.
From S2P Require Import Writer.
From S2P Require Import SeenIds.
From S2P Require Import TopicChannel.
From S2P Require Import TopicMap.
From S2P Require Import Groups.
From S2P Require Import MessageStore.
From S2P Require Import Broker.
From S2P Require Import BrokerSpec.
From S2P Require Import Metrics.
From S2P Require Import DeadLetter.
From S2P Require Import Forwarder.
From S2P Require Import Relay.

#[local] Open Scope nat_scope.

(** ** The broker only adds to the channels of connections *)

Section grown.
Context `{Mpsc Envelope} `{!MpscLaws Envelope}.

(** Channels take messages at their end; a closed one takes none. *)
Definition grown (s s' : mpsc_store Envelope) : Prop :=
  ∀ c, is_closed s' c = is_closed s c
    ∧ ∃ l, queued s' c = queued s c ++ l ∧ (is_closed s c = true → l = []).

#[export] Instance grown_preorder : PreOrder grown.
Proof.
  split.
  - intros s c. split; [done|]. exists []. by rewrite app_nil_r.
  - intros s1 s2 s3 H12 H23 c. destruct (H12 c) as (C2 & l & Q2 & E2), (H23 c) as (C3 & k & Q3 & E3).
    split; [congruence|]. exists (l ++ k). rewrite Q3, Q2, app_assoc. split; [done|]. intros Hc.
    by rewrite E2, E3 by congruence.
Qed.

(** An operation that does nothing else to them. *)
Definition grows {A} (m : ST (mpsc_store Envelope) A) : Prop := ∀ s, grown s (m s).2.

Lemma grows_ret {A} (a : A) : grows (mret a).
Proof. by intros s. Qed.
Lemma grows_bind {A B} (m : ST (mpsc_store Envelope) A) (k : A → ST (mpsc_store Envelope) B) :
  grows m → (∀ a, grows (k a)) → grows (m ≫= k).
Proof. intros Hm Hk s. rewrite st_bind. etrans; [apply Hm|apply Hk]. Qed.

Lemma grows_try_send c e : grows (try_send c e).
Proof.
  intros s. destruct (try_send c e s) as [[] s'] eqn:Hs; cbn [snd]; [|by apply try_send_refused in Hs as ->].
  apply try_send_accepted in Hs as (Ho & Hq & Hne & Hcl). intros d. split; [apply Hcl|].
  destruct (decide (d = c)) as [->|Hd]; [exists [e]; split; [done|congruence]|].
  exists []. rewrite app_nil_r. split; [by apply Hne|done].
Qed.
#[local] Hint Resolve grows_ret grows_bind grows_try_send : thoth.

Lemma grows_deliver e m : grows (deliver e m).
Proof.
  unfold deliver. destruct (_ =? 0); [apply grows_ret|]. generalize 0 as offset. generalize (length (members m)) as n.
  induction n as [|n IH]; intros offset s; cbn [deliver_loop]; [done|].
  destruct (members m !! _) as [c|]; [|done]. pose proof (grows_try_send c e s) as Hc.
  destruct (try_send c e s) as [[] s1]; cbn [snd] in *; [done|]. etrans; [exact Hc|apply IH].
Qed.
#[local] Hint Resolve grows_deliver : thoth.

Lemma grows_publish_groups t now e g : grows (publish_groups t now e g).
Proof.
  unfold publish_groups. apply grows_bind; [|auto with thoth]. generalize (map_to_list g) as l. clear g.
  induction l as [|[k m] l IH]; cbn [publish_entries]; [auto with thoth|]. apply grows_bind; [|auto with thoth].
  unfold publish_group. destruct (matches k.1 t); [|auto with thoth]. apply grows_bind; [auto with thoth|].
  intros [ok m1]. destruct (ok && _); auto with thoth.
Qed.

Lemma grows_sweep now timeout n g : grows (Groups.sweep_group_leases now timeout n g).
Proof.
  unfold Groups.sweep_group_leases. apply grows_bind; [|auto with thoth]. generalize (map_to_list g) as l. clear g.
  induction l as [|[k m] l IH]; cbn [sweep_entries]; [auto with thoth|]. apply grows_bind; [|auto with thoth].
  unfold sweep_members. destruct (decide _) as [_|_]; [auto with thoth|]. generalize (expired_ids now timeout m) as ids.
  intros ids. revert m. induction ids as [|i ids IHi]; intros m; cbn [sweep_expired]; [auto with thoth|].
  apply grows_bind; [|intros [gone m1]; apply grows_bind; [auto|intros []; auto with thoth]].
  unfold sweep_lease. destruct (leases m !! i) as [lease|]; [|auto with thoth]. destruct (_ <=? _); [auto with thoth|].
  apply grows_bind; [auto with thoth|]. intros [ok m1]. destruct ok; auto with thoth.
Qed.

Lemma exec_grows `{Broadcast Envelope} `{MessageStore} o b chans : grown chans (exec o (b, chans)).2.
Proof.
  destruct o; try done; cbn [exec].
  - unfold publish. destruct (SeenIds.record _ _) as [new seen]. destruct new; [|done].
    destruct (publish_channels _ _ _) as [n b3]. pose proof (grows_publish_groups t now e (b_groups b3) chans) as Hg.
    by destruct (publish_groups _ _ _ _ _) as [[n' g] chans'].
  - unfold sweep_group_leases. pose proof (grows_sweep now timeout max_attempts (b_groups b) chans) as Hg.
    by destruct (Groups.sweep_group_leases _ _ _ _ _) as [[gone g] chans'].
Qed.
End grown.

(** ** The line *)

Section line.
Context `{Broadcast Envelope} `{MpscReceiver Envelope} `{MessageStore} `{Uuids}.
Context `{!BroadcastLaws Envelope} `{!MpscLaws Envelope} `{!MpscReceiverLaws Envelope}.
Context {CborError : Type} (into_writer : Envelope → Result bytes CborError) (from_reader : bytes → Result Envelope CborError).
Context (codec : ∀ e b, into_writer e = Ok b → from_reader b = Ok e).
#[local] Abbreviation encoded := (encoded into_writer).

(** The forwarder is [None] once it has ended. [l_accepted] is what the
    connection's channel has taken so far, marked [true] when this forwarder
    sent it, and [l_due] is what the forwarder owes the subscriber. *)
Record Line := MkLine {
  l_hub : Hub;
  l_task : option Task;
  l_wire : bytes;
  l_done : bool;
  l_accepted : list (bool * Envelope);
  l_due : list Envelope;
}.

Definition l_pipe (l : Line) : Pipe := MkPipe (h_chans (l_hub l)) (l_wire l) (l_done l) (l_accepted l).*2.
Definition forwarded (l : list (bool * Envelope)) : list Envelope := (List.filter fst l).*2.

(** A forwarder that does not wait for acknowledgements. *)
Definition once (t : Task) : bool := match task_mode t with Acked _ _ _ => false | _ => true end.

(** Its next step is a read that answers that it has fallen behind; the read
    has answered, and it is to subscribe again. *)
Definition lags (t : Task) (h : Hub) : bool :=
  match task_phase t with
  | Running _ c =>
      match work 0 t c h, (recv_receiver (core_rx c) (h_broker h)).1 with
      | None, Lagged _ => true
      | _, _ => false
      end
  | _ => false
  end.
Definition recovering (t : Task) : bool := match task_phase t with Running _ c => core_lagged c | _ => false end.

(** Its receiver, the one it is about to replace included. *)
Definition task_rx (t : Task) : option Receiver := match task_phase t with Running _ c => Some (core_rx c) | _ => None end.

(** It is to record the position of what it has just sent. *)
Definition recording (t : Task) : bool := match task_mode t with Durable _ _ (Some _) => true | _ => false end.

(** The message its next step sends. *)
Definition sends (t : Task) : list (bool * Envelope) := if recording t then [] else (true,.) <$> firstn 1 (task_queue t).

(** What a broker operation adds to its debt. Between a lag and the new
    subscription nothing does. *)
Definition owes (o : Op) (h : Hub) (t : option Task) : list Envelope :=
  match t with
  | Some t => if recovering t then [] else news (task_filter t) o (h_broker h, h_chans h)
  | None => []
  end.
Definition spared (o : Op) (h : Hub) (t : option Task) : Prop :=
  ∀ x r, t = Some x → task_rx x = Some r → spares r o (h_broker h, h_chans h).

(** What it owes for a new subscription: of the fresh backlog, what follows the
    last message it sent. *)
Definition caught_up (t : Task) (h : Hub) : list Envelope :=
  match task_phase t with
  | Running _ c => recovered (last_delivered c) (Broker.subscribe (task_filter t) (h_broker h)).1.1
  | _ => []
  end.

(** The two tasks' own steps: the forwarder sends or reads, the writer writes. *)
Inductive own_step (out : nat) : Line → Line → Prop :=
| OwnForward now h h' t t' w d a u :
    lags t h = false → recovering t = false → task_step now BranchDeliver t h = Continues t' h' →
    own_step out (MkLine h (Some t) w d a u) (MkLine h' (Some t') w d (a ++ sends t) u)
| OwnWrite h h' t w w' a u s :
    write_step into_writer vec_write_all out false (h_chans h, w) = (Wrote, (s, w')) →
    h' = MkHub (h_broker h) s (h_ids h) (h_metrics h) →
    own_step out (MkLine h t w false a u) (MkLine h' t w' false a u).

Inductive line_step (out : nat) : Line → Line → Prop :=
| LineOwn l l' : own_step out l l' → line_step out l l'
(** The forwarder finds that it has fallen behind, and then subscribes again.
    What it has lost it does not owe any more. *)
| LineLag now h h' t t' w d a u :
    lags t h = true → task_step now BranchDeliver t h = Continues t' h' →
    line_step out (MkLine h (Some t) w d a u) (MkLine h' (Some t') w d a (forwarded a))
| LineRecover now h h' t t' w d a u :
    recovering t = true → task_step now BranchDeliver t h = Continues t' h' →
    line_step out (MkLine h (Some t) w d a u) (MkLine h' (Some t') w d a (u ++ caught_up t h))
(** Somebody uses the broker; groups deliver what they deliver. *)
| LineOp o h h' es t w d a u :
    spared o h t → exec o (h_broker h, h_chans h) = (h_broker h', h_chans h') →
    queued (h_chans h') out = queued (h_chans h) out ++ es →
    line_step out (MkLine h t w d a u) (MkLine h' t w d (a ++ ((false,.) <$> es)) (u ++ owes o h t))
(** Somebody sends on this channel, or on another. *)
| LineSend c e r h h' t w d a u :
    try_send c e (h_chans h) = (r, h_chans h') → h_broker h' = h_broker h →
    line_step out (MkLine h t w d a u) (MkLine h' t w d (a ++ (if r && (c =? out) then [(false, e)] else [])) u)
(** The forwarder ends, or is aborted. *)
| LineEnded now h h' t w d a u :
    task_step now BranchDeliver t h = Ended h' →
    line_step out (MkLine h (Some t) w d a u) (MkLine h' None w d a u)
| LineAborted h t w d a u :
    line_step out (MkLine h (Some t) w d a u) (MkLine (end_task t h) None w d a u)
(** The writer waits in vain, or ends. *)
| LineTurn hung_up p h h' t w w' a u s :
    write_step into_writer vec_write_all out hung_up (h_chans h, w) = (p, (s, w')) → p ≠ Wrote →
    h' = MkHub (h_broker h) s (h_ids h) (h_metrics h) →
    line_step out (MkLine h t w false a u) (MkLine h' t w' (match p with Finished => true | _ => false end) a u).

(** A forwarder that has just subscribed. *)
Definition line_start (out : nat) (t : Task) (h : Hub) : Line :=
  MkLine h (Some t) [] false ((false,.) <$> queued (h_chans h) out) (task_queue t).

(** Nothing is left to be sent on or written. *)
Definition settled (out : nat) (l : Line) : Prop :=
  l_done l = false ∧ queued (h_chans (l_hub l)) out = []
  ∧ ∃ t r, l_task l = Some t ∧ task_queue t = [] ∧ task_receiver t = Some r ∧ queue (h_broker (l_hub l)) r = Some [].

Lemma forwarded_app a b : forwarded (a ++ b) = forwarded a ++ forwarded b.
Proof. unfold forwarded. by rewrite List.filter_app, fmap_app. Qed.
Lemma forwarded_others l : forwarded ((false,.) <$> l) = [].
Proof. unfold forwarded. induction l as [|e l IH]; [done|exact IH]. Qed.
Lemma forwarded_sends t : forwarded (sends t) = if recording t then [] else firstn 1 (task_queue t).
Proof. unfold forwarded, sends. destruct (recording t); [done|]. by destruct (task_queue t). Qed.
Lemma tagged_snd (b : bool) (l : list Envelope) : ((b,.) <$> l).*2 = l.
Proof. rewrite <-list_fmap_compose. apply list_fmap_id. Qed.

(** ** One step of the forwarder *)

(** The forwarder of filter [f] into [out], with [v] unread at its receiver. *)
Definition forwarding (f : TopicFilter) (out : nat) (r : Receiver) (v : list Envelope) (t : Task) (b : Broker) : Prop :=
  once t = true ∧ task_filter t = f ∧ task_out t = out ∧ task_rx t = Some r
  ∧ (recovering t = true → recording t = false ∧ task_queue t = [])
  ∧ BrokerSpec.wf b ∧ sub_arc b f = Some r.1 ∧ queue b r = Some v.

Lemma forwarding_exec f out r v t b chans o :
  Filter.wf f → forwarding f out r v t b → spares r o (b, chans) →
  forwarding f out r (v ++ news f o (b, chans)) t (exec o (b, chans)).1.
Proof.
  intros Hf (Ho & Htf & Hto & Hr & Hre & Hwf & Ha & Hq) Hs.
  destruct (exec_effect o b chans f r v Hwf Hf Ha Hq Hs) as (Hwf' & Ha' & Hq').
  do 5 (split; [done|]). by split.
Qed.

(** A channel keeps its sender while its subscription's receiver is there. *)
Lemma recv_keeps f r v b :
  BrokerSpec.wf b → sub_arc b f = Some r.1 → queue b r = Some v →
  let '(x, b') := recv_receiver r b in
  BrokerSpec.wf b' ∧ sub_arc b' f = Some r.1
  ∧ match x with
    | Received e => ∃ q, v = e :: q ∧ queue b' r = Some q
    | Lagged _ => is_Some (queue b' r)
    | Pending => v = []
    end.
Proof.
  intros Hwf Ha Hq. pose proof (recv_receiver_spec r v b Hwf Hq) as Hr. destruct (recv_receiver r b) as [x b'].
  destruct Hr as (Hwf' & Et & Ep & _ & _ & _ & Hx). unfold sub_arc in *. rewrite Et, Ep. by split_and!.
Qed.

(** What one step of its own comes to: a position recorded, a message sent, one
    read, or, with nothing to do, nothing. *)
Definition stepped (f : TopicFilter) (out : nat) (r : Receiver) (v : list Envelope) (t t' : Task) (h h' : Hub) : Prop :=
  ∃ v', forwarding f out r v' t' (h_broker h') ∧ recovering t' = false
  ∧ ((recording t = true ∧ recording t' = false ∧ task_queue t' = task_queue t ∧ v' = v ∧ h_chans h' = h_chans h
        ∧ b_heap (h_broker h') = b_heap (h_broker h))
     ∨ (recording t = false ∧ ∃ e, task_queue t = e :: task_queue t' ∧ v' = v ∧ try_send out e (h_chans h) = (true, h_chans h')
        ∧ h_broker h' = h_broker h)
     ∨ recording t = false ∧ recording t' = false ∧ ∃ e, task_queue t = [] ∧ v = e :: v' ∧ task_queue t' = [e] ∧ h_chans h' = h_chans h
        ∧ recv_receiver r (h_broker h) = (Received e, h_broker h')).

Lemma task_step_spec now f out r v t h :
  Filter.wf f → forwarding f out r v t (h_broker h) → lags t h = false → recovering t = false →
  match task_step now BranchDeliver t h with
  | Blocked => recording t = false ∧ ((task_queue t = [] ∧ v = [])
      ∨ is_closed (h_chans h) out = false ∧ ∃ e q, task_queue t = e :: q ∧ (try_send out e (h_chans h)).1 = false)
  | Ended _ => is_closed (h_chans h) out = true
  | Continues t' h' => stepped f out r v t t' h h'
  end.
Proof.
  intros Hf Hfw Hlag Hre. pose proof Hfw as (Ho & Htf & Hto & Hr & _ & Hwf & Ha & Hq).
  destruct t as [f' out' m dl phase]. unfold stepped, lags, once, recovering, recording, task_rx, task_queue, task_step, work in *.
  cbn [task_phase task_filter task_out task_mode] in *. subst f' out'. destruct phase as [|c]; [done|]. injection Hr as <-.
  change (@core_lagged _ _ c = false) in Hre.
  destruct m as [|topic p [i|]|]; [| | |done]; cbn [task_mode task_phase].
  2:{ exists v. cbn. split; [|split; [exact Hre|left]].
      - pose proof (forwarding_exec f out (core_rx c) v (MkTask f out (Durable topic p None) dl (Running f c)) (h_broker h) (h_chans h)
          (OpRecordDelivered p topic i) Hf) as Hx. cbn [news exec fst] in Hx. rewrite app_nil_r in Hx. apply Hx; [|done].
        do 4 (split; [done|]). split; [by cbn; rewrite Hre|]. by split.
      - do 5 (split; [done|]). unfold record_delivered. by destruct (b_store (h_broker h)). }
  all: rewrite Hre in *; destruct (@core_queue _ (broker_feed f) c) as [|e q] eqn:Hcq; cbv iota in *.
  1,3: unfold receive, on_broker, core_recv, mbind, ST_bind; cbn [feed_recv broker_feed task_filter];
    pose proof (recv_keeps f (core_rx c) v (h_broker h) Hwf Ha Hq) as Hrs;
    destruct (recv_receiver (core_rx c) (h_broker h)) as [[e|n|] b'] eqn:Er; [|done|];
    destruct Hrs as (Hwf' & Ha' & Hx);
    [destruct Hx as (q' & -> & Hq'); exists q'; split; [do 5 (split; [done|]); by split|]; split; [done|]; right; right;
       do 2 (split; [done|]); by exists e
    |cbn; rewrite (sender_kept f (core_rx c)); [split; [done|]; by left|exact Ha']].
  all: unfold send_next, send_out; cbn [task_out]; destruct (is_closed (h_chans h) out) eqn:Hcl; [done|];
    destruct (try_send out e (h_chans h)) as [[|] s'] eqn:Es; [|split; [done|]; right; split; [done|]; exists e, q; by rewrite Es];
    unfold after_send, set_mode, set_core, task_filter, task_out, task_mode, task_dead_letter; exists v; unfold core_sent; rewrite Hcq;
    (split; [do 4 (split; [done|]); split; [by cbn; rewrite Hre|by split]|]); split; [exact Hre|]; right; left; (split; [done|]); by exists e.
Qed.

(** A task that has nothing to do but to read. *)
Lemma work_none now now' t c h h' : work now t c h = None → work now' t c h' = None.
Proof.
  unfold work. destruct (task_mode t) as [|topic p [i|]|pending acks [[|] n [|]]]; try done; destruct (core_lagged c); try done;
    by destruct (core_queue c).
Qed.
Lemma work_none_idle now t c h : work now t c h = None → recording t = false ∧ core_lagged c = false ∧ core_queue c = [].
Proof.
  unfold work, recording. destruct (task_mode t) as [|topic p [i|]|pending acks [[|] n [|]]]; try done; destruct (core_lagged c); try done;
    by destruct (core_queue c).
Qed.

(** After a lag the receiver is worth nothing, and nothing is queued. *)
Lemma task_lags_spec now f out r v t h t' h' :
  forwarding f out r v t (h_broker h) → lags t h = true → task_step now BranchDeliver t h = Continues t' h' →
  (∃ v', forwarding f out r v' t' (h_broker h')) ∧ recovering t' = true ∧ h_chans h' = h_chans h.
Proof.
  intros (Ho & Htf & Hto & Hr & _ & Hwf & Ha & Hq) Hlag.
  destruct t as [f' out' m dl phase]. unfold lags, once, task_rx, task_step in *.
  cbn [task_phase task_filter task_out task_mode] in *. subst f' out'. destruct phase as [|c]; [done|]. injection Hr as <-.
  destruct (work 0 (MkTask f out m dl (Running f c)) c h) eqn:Hwk; [done|]. rewrite (work_none _ now _ _ _ h Hwk).
  destruct (work_none_idle _ _ _ _ Hwk) as (Hrec & _).
  unfold receive, on_broker, core_recv, mbind, ST_bind. cbn [feed_recv broker_feed task_filter].
  pose proof (recv_keeps f (core_rx c) v (h_broker h) Hwf Ha Hq) as Hrs.
  destruct (recv_receiver (core_rx c) (h_broker h)) as [[e|n|] b']; [done| |done]. destruct Hrs as (Hwf' & Ha' & [v' Hv']).
  intros [= <- <-]. split; [|done]. exists v'. do 4 (split; [done|]). split; [done|]. by split.
Qed.

(** The new subscription. *)
Lemma task_recovers_spec now f out r v t h t' h' :
  Filter.wf f → forwarding f out r v t (h_broker h) → recovering t = true → task_step now BranchDeliver t h = Continues t' h' →
  (∃ r', forwarding f out r' [] t' (h_broker h')) ∧ recovering t' = false ∧ recording t' = false
  ∧ task_queue t' = caught_up t h ∧ h_chans h' = h_chans h.
Proof.
  intros Hf (Ho & Htf & Hto & Hr & Hidle & Hwf & Ha & Hq) Hre. destruct (Hidle Hre) as [Hrec _].
  destruct t as [f' out' m dl phase]. unfold once, caught_up, recovering, recording, task_rx, task_queue, task_step in *.
  cbn [task_phase task_filter task_out task_mode] in *. subst f' out'. destruct phase as [|c]; [done|]. injection Hr as <-.
  change (@core_lagged _ _ c = true) in Hre.
  assert (work now (MkTask f out m dl (Running f c)) c h = Some (recover (MkTask f out m dl (Running f c)) c h)) as ->.
  { unfold work. cbn [task_mode task_filter]. rewrite Hre. by destruct m as [|topic p [i|]|]. }
  unfold recover, on_broker, core_recover, mbind, ST_bind. cbn [feed_subscribe feed_drop broker_feed task_filter].
  pose proof (resubscribe_spec f (h_broker h) (h_chans h) (core_rx c) v Hwf Hf Ha Hq) as Hs.
  destruct (Broker.subscribe f (h_broker h)) as [[l r'] b1]. cbn. intros [= <- <-].
  assert (∀ n g x, h_broker (counted n g x) = h_broker x ∧ h_chans (counted n g x) = h_chans x) as Hcnt
    by (intros n g x; unfold counted; by destruct (n =? 0)).
  destruct Hs as (Hwf' & Ha' & Hq'). split; [|by destruct (Hcnt (length (recovered (last_delivered c) l)) record_lag_recovered
    (MkHub (drop_receiver (core_rx c) b1) (h_chans h) (h_ids h) (h_metrics h)))].
  exists r'. do 5 (split; [done|]). rewrite (proj1 (Hcnt _ _ _)). by split.
Qed.

(** A forwarder that ends leaves the channels as they are. *)
Lemma end_task_chans t h : h_chans (end_task t h) = h_chans h.
Proof. unfold end_task. by destruct (task_phase t). Qed.

Lemma ended_chans now t h h' r :
  once t = true → task_rx t = Some r → task_step now BranchDeliver t h = Ended h' → h_chans h' = h_chans h.
Proof.
  intros Ho Hr. destruct t as [f out m dl phase]. unfold once, task_rx, task_step in *. cbn [task_phase task_mode task_out] in *.
  destruct phase as [|c]; [done|]. cbv beta iota.
  assert (∀ e k, send_next (MkTask f out m dl (Running f c)) e k h = Ended h' → (∀ x, k x ≠ Ended h') → h_chans h' = h_chans h) as Hsend.
  { intros e k. unfold send_next, send_out. destruct (is_closed (h_chans h) _); [intros [= <-] _; apply end_task_chans|].
    destruct (try_send _ e (h_chans h)) as [[] s']; [|done]. intros Hk Hno. by destruct (Hno _ Hk). }
  unfold work. cbn [task_mode].
  assert (∀ e x, after_send now e (set_core (MkTask f out m dl (Running f c)) (core_sent c)) x ≠ Ended h') as Hafter
    by (intros e x; unfold after_send, set_core; cbn [task_mode]; by destruct m).
  assert (∀ t' c' x, recover t' c' x ≠ Ended h') as Hrecover by (intros t' c' x; unfold recover; by destruct (on_broker _ x)).
  destruct m as [|topic p [i|]|]; [|done| |done];
    (match goal with |- context [if ?b then _ else _] => destruct b; [by intros ?%Hrecover|] end);
    (match goal with |- (match (match ?q with _ => _ end) with _ => _ end) = _ → _ => destruct q as [|e q0] end; cbv iota;
     [|intros Hs; by eapply Hsend]);
    unfold receive, on_broker, core_recv, mbind, ST_bind; cbn [feed_recv broker_feed task_filter];
    destruct (recv_receiver (core_rx c) (h_broker h)) as [[e|n|] b']; unfold mret, ST_ret; cbn; try done;
    destruct (sender_dropped _ _); try done; by intros [= <-].
Qed.

(** ** The line's invariant *)

Definition line_ok (f : TopicFilter) (out : nat) (l : Line) : Prop :=
  in_order into_writer out (l_pipe l)
  ∧ match l_task l with
    | Some t => ∃ r v, forwarding f out r v t (h_broker (l_hub l))
        ∧ if recovering t then forwarded (l_accepted l) = l_due l else forwarded (l_accepted l) ++ task_queue t ++ v = l_due l
    | None => forwarded (l_accepted l) `prefix_of` l_due l
    end.

(** The channel grows by [es] under the writer. *)
Lemma grown_in_order out s s' w d a es :
  grown s s' → queued s' out = queued s out ++ es → in_order into_writer out (MkPipe s w d a) →
  in_order into_writer out (MkPipe s' w d (a ++ es)).
Proof.
  intros Hg Hq (written & bs & rest & Hbs & Hw & Ha & Hrest). destruct (Hg out) as (Hcl & k & Hk & Hno).
  assert (es = k) as -> by (apply (app_inv_head (queued s out)); by rewrite <-Hq).
  exists written, bs, (rest ++ k). cbn in *. split; [done|]. split; [done|]. split; [by rewrite Ha, app_assoc|].
  unfold unwritten in *. cbn in *. destruct d; [|by rewrite Hq, Hrest]. destruct Hrest as [Hc Hr].
  rewrite Hno, app_nil_r by done. split; [congruence|done].
Qed.

Lemma own_step_ok f out l l' : Filter.wf f → own_step out l l' → line_ok f out l → line_ok f out l'.
Proof.
  intros Hf Hstep. destruct Hstep as [now h h' t t' w d a u Hlag Hre Hs|h h' t w w' a u s Hs ->]; intros [Hp Ht];
    unfold line_ok, l_pipe in *; cbn [l_hub l_task l_wire l_done l_accepted l_due] in *.
  - destruct Ht as (r & v & Hfw & Hdue). rewrite Hre in Hdue. subst u.
    pose proof (task_step_spec now f out r v t h Hf Hfw Hlag Hre) as Hst. rewrite Hs in Hst.
    destruct Hst as (v' & Hfw' & Hre' & [(Hrec & _ & Hq & -> & -> & _)|[(Hrec & e & Hq & -> & Hsend & _)
      |(Hrec & _ & e & Hq & -> & Hq' & -> & _)]]).
    + unfold sends. rewrite Hrec, app_nil_r. split; [done|]. exists r, v. rewrite Hre', Hq. by split.
    + split; [|exists r, v; split; [done|]; rewrite Hre', forwarded_app, forwarded_sends, Hrec, Hq; by rewrite <-app_assoc].
      rewrite fmap_app. unfold sends. rewrite Hrec, tagged_snd, Hq.
      pose proof (grows_try_send out e (h_chans h)) as Hg. rewrite Hsend in Hg.
      apply try_send_accepted in Hsend as (_ & Hqs & _). by eapply grown_in_order.
    + unfold sends. rewrite Hrec, Hq, app_nil_r. split; [done|]. exists r, v'. split; [done|]. by rewrite Hre', Hq'.
  - split; [|exact Ht]. pose proof (turn_in_order into_writer out false (h_chans h) w _ Hp) as Hi. by rewrite Hs in Hi.
Qed.

Lemma line_step_ok f out l l' : Filter.wf f → line_step out l l' → line_ok f out l → line_ok f out l'.
Proof.
  intros Hf Hstep. destruct Hstep as [l l' Hown|now h h' t t' w d a u Hlag Hs|now h h' t t' w d a u Hre Hs
    |o h h' es t w d a u Hsp Hex Hq|c e r h h' t w d a u Hs Hb|now h h' t w d a u Hs
    |h t w d a u|hung_up p h h' t w w' a u s Hs Hp ->]; [by eapply own_step_ok|..]; intros [Hi Ht];
    unfold line_ok, l_pipe in *; cbn [l_hub l_task l_wire l_done l_accepted l_due] in *.
  - destruct Ht as (r & v & Hfw & _). destruct (task_lags_spec _ _ _ _ _ _ _ _ _ Hfw Hlag Hs) as ([v' Hfw'] & Hre & Hc).
    rewrite Hc. split; [done|]. exists r, v'. by rewrite Hre.
  - destruct Ht as (r & v & Hfw & Hdue). rewrite Hre in Hdue. subst u.
    destruct (task_recovers_spec _ _ _ _ _ _ _ _ _ Hf Hfw Hre Hs) as ([r' Hfw'] & Hre' & _ & Hq & Hc).
    rewrite Hc. split; [done|]. exists r', []. rewrite Hre', Hq, app_nil_r. by split.
  - split.
    + rewrite fmap_app, tagged_snd. pose proof (exec_grows o (h_broker h) (h_chans h)) as Hg. rewrite Hex in Hg.
      by eapply grown_in_order.
    + destruct t as [t|]; cbn [owes]; rewrite forwarded_app, forwarded_others, app_nil_r; [|by rewrite app_nil_r].
      destruct Ht as (r & v & Hfw & Hdue). pose proof Hfw as (_ & -> & _ & Hr & _). pose proof (Hsp t r eq_refl Hr) as Hspr.
      exists r, (v ++ news f o (h_broker h, h_chans h)). split; [|destruct (recovering t); subst u; [by rewrite app_nil_r|by rewrite <-!app_assoc]].
      pose proof (forwarding_exec f out r v t (h_broker h) (h_chans h) o Hf Hfw Hspr) as Hx. by rewrite Hex in Hx.
  - rewrite fmap_app, Hb, forwarded_app. split.
    + pose proof (grows_try_send c e (h_chans h)) as Hg. rewrite Hs in Hg. eapply grown_in_order; [exact Hg| |exact Hi].
      destruct r; cbn [andb]; [|by apply try_send_refused in Hs as ->; rewrite app_nil_r].
      apply try_send_accepted in Hs as (_ & Hq & Hne & _). destruct (Nat.eqb_spec c out) as [->|Hc]; [done|].
      rewrite app_nil_r. by apply Hne.
    + replace (forwarded (if r && _ then _ else _)) with (@nil Envelope) by by destruct (r && _). by rewrite app_nil_r.
  - destruct Ht as (r & v & Hfw & Hdue). pose proof Hfw as (Ho & _ & _ & Hr & _).
    rewrite (ended_chans now t h h' r Ho Hr Hs). split; [done|]. destruct (recovering t); subst u; [done|by eexists].
  - destruct Ht as (r & v & Hfw & Hdue). rewrite end_task_chans. split; [done|]. destruct (recovering t); subst u; [done|by eexists].
  - split; [|exact Ht]. pose proof (turn_in_order into_writer out hung_up (h_chans h) w _ Hi) as Hx. by rewrite Hs in Hx.
Qed.

Lemma line_steps_ok f out l l' : Filter.wf f → rtc (line_step out) l l' → line_ok f out l → line_ok f out l'.
Proof. intros Hf. induction 1; eauto using line_step_ok. Qed.

(** What a subscribe leaves the forwarder with. *)
Lemma line_start_ok t h t1 h1 :
  BrokerSpec.wf (h_broker h) → sub_room (h_broker h) (task_filter t) → once t = true →
  start_task t h = Continues t1 h1 → line_ok (task_filter t) (task_out t) (line_start (task_out t) t1 h1).
Proof.
  intros Hwf Hroom Ho Hs.
  assert (∃ r, forwarding (task_filter t) (task_out t) r [] t1 (h_broker h1) ∧ recovering t1 = false) as (r & Hr & Hre).
  { unfold start_task, on_broker in Hs. pose proof (subscribe_spec' (task_filter t) (h_broker h) Hwf) as Hsub.
    assert (∀ n g b, h_broker (counted n g (MkHub b (h_chans h) (h_ids h) (h_metrics h))) = b) as Hcnt
      by (intros n g b; unfold counted; by destruct (n =? 0)).
    destruct (task_mode t) as [|topic p|] eqn:Hm; [| |unfold once in Ho; by rewrite Hm in Ho].
    - destruct (Broker.subscribe _ _) as [[l r] b']. destruct Hsub as ([Hwf' _] & Hq & Ha & _). injection Hs as <- <-.
      exists r. split; [|done]. do 5 (split; [done|]). rewrite Hcnt. by auto.
    - destruct (subscribe_durable _ _ _) as [[[l r]|err] b'] eqn:Hd; [|done]. injection Hs as <- <-. exists r.
      unfold subscribe_durable in Hd. destruct (as_topic _); [|done]. destruct (b_store _); [|done].
      destruct (read_position _ _ _) as [[last catchup]|]; [|done]. destruct (Broker.subscribe _ _) as [[buffered r'] b''].
      injection Hd as _ -> ->. destruct Hsub as ([Hwf' _] & Hq & Ha & _).
      split; [|done]. do 5 (split; [done|]). rewrite Hcnt. by auto. }
  split.
  - exists [], [], (queued (h_chans h1) (task_out t)). cbn. rewrite tagged_snd. unfold unwritten. by split_and!.
  - exists r, []. split; [done|]. cbn [l_accepted l_due line_start]. rewrite forwarded_others, Hre. cbn [app]. by rewrite app_nil_r.
Qed.

(** A task with a receiver to read is not to subscribe again. *)
Lemma receiving t r : task_receiver t = Some r → task_rx t = Some r ∧ recovering t = false.
Proof.
  unfold task_receiver, task_rx, recovering. destruct (task_phase t) as [|c]; [done|].
  by match goal with |- context [if ?b then _ else _] => destruct b end.
Qed.
Lemma waiting t r : task_rx t = Some r → recovering t = false → task_receiver t = Some r.
Proof. unfold task_receiver, task_rx, recovering. destruct (task_phase t) as [|c]; [done|]. by intros ? ->. Qed.

(** The frames on the socket by now. *)
Lemma line_frames f out l :
  line_ok f out l →
  ∃ received rest bs, l_accepted l = received ++ rest ∧ Forall2 encoded received.*2 bs ∧ l_wire l = framed bs
    ∧ forwarded received `prefix_of` l_due l ∧ (settled out l → rest = [] ∧ forwarded received = l_due l).
Proof.
  intros [(written & bs & rest & Hbs & Hw & Ha & Hrest) Ht]. cbn in Hw, Ha. apply fmap_app_inv in Ha as (received & later & -> & -> & Ha).
  exists received, later, bs. do 3 (split; [done|]). rewrite Ha, forwarded_app in Ht. split.
  - destruct (l_task l) as [t|]; [|by eapply prefix_app_l]. destruct Ht as (r & v & _ & Hdue).
    destruct (recovering t); rewrite <-Hdue; [by apply prefix_app_r|]. rewrite <-app_assoc. by apply prefix_app_r.
  - intros (Hd & Hq & t & r & Htl & Htq & Hr & Hv). rewrite Htl in Ht. destruct Ht as (r' & v & (_ & _ & _ & Hr' & _ & _ & _ & Hv') & Hdue).
    destruct (receiving t r Hr) as [Hrx Hre]. rewrite Hre in Hdue.
    unfold unwritten in Hrest. cbn in Hrest. rewrite Hd, Hq in Hrest. apply fmap_nil_inv in Hrest as ->. split; [done|].
    assert (r' = r) as -> by congruence. assert (v = []) as -> by congruence. rewrite <-Hdue, Htq. cbn. by rewrite !app_nil_r.
Qed.

(** What the far end has read by now. *)
Lemma line_reads f out l :
  line_ok f out l →
  ∃ received rest, l_accepted l = received ++ rest
    ∧ from_reader <$> read_frames (length (l_wire l)) (l_wire l) = Ok <$> received.*2
    ∧ forwarded received `prefix_of` l_due l ∧ (settled out l → rest = [] ∧ forwarded received = l_due l).
Proof.
  intros (received & rest & bs & Ha & Hbs & -> & Hdue)%line_frames. exists received, rest. split; [done|].
  split; [by eapply framed_reads|done].
Qed.

(** ** The two tasks left to themselves *)

Definition encodable (e : Envelope) : Prop := ∃ b, encoded e b.
(** The receiver is not further behind than its channel holds. *)
Definition within (r : Receiver) (v : list Envelope) (b : Broker) : Prop :=
  ∀ ch, b_heap b !! r.1 = Some ch → length v ≤ Runtime.capacity (channel_sender ch).

Lemma within_checked r v b :
  match b_heap b !! r.1 with Some ch => length v <=? Runtime.capacity (channel_sender ch) | None => true end = true →
  within r v b.
Proof. intros Hc ch Hch. rewrite Hch in Hc. by apply Nat.leb_le. Qed.

(** A connection that is up and a forwarder that keeps pace, with [n] more steps
    to take at most. *)
Definition flowing (f : TopicFilter) (out n : nat) (l : Line) : Prop :=
  l_done l = false ∧ is_closed (h_chans (l_hub l)) out = false
  ∧ ∃ t r v, l_task l = Some t ∧ forwarding f out r v t (h_broker (l_hub l)) ∧ recovering t = false
      ∧ within r v (h_broker (l_hub l)) ∧ Forall encodable (queued (h_chans (l_hub l)) out ++ task_queue t ++ v)
      ∧ n = length (queued (h_chans (l_hub l)) out) + (if recording t then 1 else 0) + 3 * length (task_queue t) + 4 * length v.

Lemma within_lags f out r v t h : forwarding f out r v t (h_broker h) → within r v (h_broker h) → lags t h = false.
Proof.
  intros (_ & _ & _ & Hr & _ & _ & _ & Hq) Hw. unfold lags, task_rx in *. destruct (task_phase t) as [|c]; [done|]. injection Hr as <-.
  destruct (work 0 t c h); [done|]. unfold recv_receiver, on_channel, queue, within, recv_channel, unread_queues in *.
  destruct (b_heap (h_broker h) !! (core_rx c).1) as [ch|]; [|done]. cbn in Hq. specialize (Hw ch eq_refl).
  destruct (recv (core_rx c).2 (channel_sender ch)) as [x s'] eqn:Er. destruct (recv_spec _ _ _ _ _ Hq Er) as [_ Hx].
  rewrite decide_False in Hx by lia. cbn. destruct v; destruct Hx as [-> _]; done.
Qed.

Lemma within_recv r e v b b' :
  queue b r = Some (e :: v) → recv_receiver r b = (Received e, b') → within r (e :: v) b → within r v b'.
Proof.
  intros Hq Hr Hw ch' Hch'. unfold recv_receiver, on_channel, queue, within, recv_channel, unread_queues in *.
  destruct (b_heap b !! r.1) as [ch|] eqn:Hch; [|done]. cbn in Hq. specialize (Hw ch eq_refl). cbn in Hw.
  destruct (recv r.2 (channel_sender ch)) as [x s'] eqn:Er. destruct (recv_spec _ _ _ _ _ Hq Er) as [Hc _].
  injection Hr as _ <-. cbn in Hch'. rewrite list_lookup_insert_eq in Hch' by by eapply lookup_lt_Some.
  injection Hch' as <-. cbn. rewrite Hc. lia.
Qed.

Lemma own_step_flows f out n l l' :
  Filter.wf f → flowing f out n l → own_step out l l' → ∃ m, m < n ∧ flowing f out m l' ∧ l_due l' = l_due l.
Proof.
  intros Hf (Hd & Ho & t0 & r & v & Ht0 & Hfw & Hre & Hw & He & ->) Hstep.
  destruct Hstep as [now h h' t t' w d a u Hlag _ Hs|h h' t w w' a u s Hs ->]; cbn in *.
  - injection Ht0 as <-. pose proof (task_step_spec now f out r v t h Hf Hfw Hlag Hre) as Hst. rewrite Hs in Hst.
    destruct Hst as (v' & Hfw' & Hre' & [(Hrec & Hrec' & Hq & -> & Hc & Hh)|[(Hrec & e & Hq & -> & Hsend & Hh)
      |(Hrec & Hrec' & e & Hq & -> & Hq' & Hc & Hrecv)]]).
    + eexists. split; [|split; [split; [done|split]|done]].
      2: cbn; by rewrite Hc.
      2: { exists t', r, v. do 3 (split; [done|]). split; [intros ch; cbn; rewrite Hh; apply Hw|]. split; [|done]. cbn.
        by rewrite Hc, Hq. }
      cbn. rewrite Hc, Hq, Hrec, Hrec'. lia.
    + apply try_send_accepted in Hsend as (_ & Hqs & _ & Hcl). eexists. split; [|split; [split; [done|split]|done]].
      2: cbn; by rewrite Hcl.
      2: { exists t', r, v. do 3 (split; [done|]). split; [intros ch; cbn; rewrite Hh; apply Hw|]. split; [|done]. cbn.
        rewrite Hqs, <-app_assoc. by rewrite Hq in He. }
      cbn. rewrite Hqs, Hq, Hrec, length_app. cbn. destruct (recording t'); lia.
    + eexists. split; [|split; [split; [done|split]|done]].
      2: cbn; by rewrite Hc.
      2: { exists t', r, v'. do 3 (split; [done|]). pose proof Hfw as (_ & _ & _ & _ & _ & _ & _ & Hqv).
        split; [cbn; by eapply within_recv|]. split; [|done]. cbn. rewrite Hc, Hq'. by rewrite Hq in He. }
      cbn. rewrite Hc, Hq, Hq', Hrec, Hrec'. cbn. lia.
  - unfold write_step in Hs. destruct (take_next out (h_chans h)) as [x s1] eqn:Htk. apply take_next_spec in Htk.
    destruct (queued (h_chans h) out) as [|e q] eqn:Hq; [by destruct Htk as [-> _]|].
    destruct Htk as (-> & Hq1 & _ & Hcl). destruct (send_envelope _ _ e w) as [sent w1]. destruct sent; [|done]. injection Hs as <- <-.
    eexists. split; [|split; [split; [done|split]|done]].
    2: cbn; by rewrite Hcl.
    2: { exists t0, r, v. do 4 (split; [done|]). split; [|done]. cbn. rewrite Hq1. by apply Forall_cons in He as [_ He]. }
    cbn. rewrite Hq1. lia.
Qed.

(** As long as something is left to do, one of the two can do it. *)
Lemma flowing_moves f out n l : Filter.wf f → flowing f out n l → nf (own_step out) l → settled out l.
Proof.
  intros Hf (Hd & Ho & t & r & v & Ht & Hfw & Hre & Hw & He & _) Hnf. destruct l as [h ? w d a u]. cbn in *. subst.
  pose proof (within_lags f out r v t h Hfw Hw) as Hlag. destruct (queued (h_chans h) out) as [|e q] eqn:Hq.
  - pose proof (task_step_spec 0 f out r v t h Hf Hfw Hlag Hre) as Hst. pose proof Hfw as (_ & _ & _ & Hr & _ & _ & _ & Hv).
    destruct (task_step 0 BranchDeliver t h) as [|h'|t' h'] eqn:Hs.
    + destruct Hst as [_ [[Htq ->]|(_ & e & q & _ & Hno)]]; [|by rewrite try_send_empty in Hno]. split; [done|]. split; [done|].
      exists t, r. do 2 (split; [done|]). split; [by apply waiting|done].
    + congruence.
    + destruct Hnf. eexists. by eapply OwnForward.
  - destruct Hnf. destruct (take_next out (h_chans h)) as [x s1] eqn:Htk. pose proof (take_next_spec _ _ _ _ Htk) as Hx.
    rewrite Hq in Hx. destruct Hx as (-> & _). apply Forall_cons in He as [[b Hb] _].
    destruct (send_envelope_spec into_writer e w) as [(b' & _ & Hsend)|[Hno _]]; [|by destruct (Hno b)].
    eexists. eapply OwnWrite; [|done]. unfold write_step. by rewrite Htk, Hsend.
Qed.

Lemma flowing_ends f out n l :
  Filter.wf f → flowing f out n l →
  sn (own_step out) l
  ∧ ∀ l', rtc (own_step out) l l' → nf (own_step out) l' → settled out l' ∧ l_due l' = l_due l.
Proof.
  intros Hf. revert l. induction n as [n IH] using lt_wf_ind. intros l Hl. split.
  - constructor. intros l' Hs. destruct (own_step_flows f out n l l' Hf Hl Hs) as (m & Hm & Hl' & _). by apply (IH m Hm).
  - intros l' [->|(l1 & Hs & Hr)]%rtc_inv Hnf; [by eauto using flowing_moves|].
    destruct (own_step_flows f out n l l1 Hf Hl Hs) as (m & Hm & Hl1 & <-). by apply (IH m Hm).
Qed.

(** ** What a subscriber gets *)

(** C5: what a subscriber reads off its socket, when its forwarder does not wait
    for acknowledgements, its filter has room in its map and the socket takes
    what is written. Whatever the rest of the node does with the broker and with
    the connection's channel, before each turn of the forwarder and of the
    writer, the frames on the socket decode as what the channel has taken, in
    order, up to some point; the messages of this subscription among them are a
    prefix of what it is owed; and they are all of it when the forwarder and the
    writer have nothing left to do. It is owed its backlog and then every new
    publish its filter matches, each once and in that order, until the forwarder
    falls further behind than its channel holds. That lag costs it whatever it
    has not sent by then: from there it is owed what it has sent, what the backlog
    it subscribes to again holds after the last message it sent, and every new
    publish after that (ADR-0024). *)
Theorem subscriber_reads_the_stream (t t1 : Task) (h h1 : Hub) (l : Line) :
  BrokerSpec.wf (h_broker h) → Filter.wf (task_filter t) → sub_room (h_broker h) (task_filter t) → once t = true →
  start_task t h = Continues t1 h1 → rtc (line_step (task_out t)) (line_start (task_out t) t1 h1) l →
  ∃ received rest, l_accepted l = received ++ rest
    ∧ from_reader <$> read_frames (length (l_wire l)) (l_wire l) = Ok <$> received.*2
    ∧ forwarded received `prefix_of` l_due l
    ∧ (settled (task_out t) l → rest = [] ∧ forwarded received = l_due l).
Proof.
  intros Hwf Hf Hroom Ho Hs Hl. eapply line_reads, line_steps_ok; [exact Hf|exact Hl|]. by eapply line_start_ok.
Qed.

(** C4: it gets there. As long as the connection is up, the forwarder is not
    recovering from a lag and not further behind than its channel holds, and what
    is on the way has an encoding that fits a frame, the forwarder and the writer
    take finitely many turns on their own, in whatever order, and when neither
    can go on the subscriber has everything it is owed. *)
Theorem stream_gets_there (t t1 t2 : Task) (h h1 : Hub) (l : Line) :
  BrokerSpec.wf (h_broker h) → Filter.wf (task_filter t) → sub_room (h_broker h) (task_filter t) → once t = true →
  start_task t h = Continues t1 h1 → rtc (line_step (task_out t)) (line_start (task_out t) t1 h1) l →
  l_done l = false → is_closed (h_chans (l_hub l)) (task_out t) = false → l_task l = Some t2 →
  recovering t2 = false →
  (∀ r v, task_receiver t2 = Some r → queue (h_broker (l_hub l)) r = Some v → within r v (h_broker (l_hub l))) →
  Forall encodable (queued (h_chans (l_hub l)) (task_out t) ++ l_due l) →
  sn (own_step (task_out t)) l
  ∧ ∀ l', rtc (own_step (task_out t)) l l' → nf (own_step (task_out t)) l' →
      from_reader <$> read_frames (length (l_wire l')) (l_wire l') = Ok <$> (l_accepted l').*2
      ∧ forwarded (l_accepted l') = l_due l.
Proof.
  intros Hwf Hf Hroom Ho Hs Hl Hd Hcl Ht2 Hre Hw He.
  assert (line_ok (task_filter t) (task_out t) l) as Hok by (eapply line_steps_ok; [exact Hf|exact Hl|by eapply line_start_ok]).
  assert (∃ n, flowing (task_filter t) (task_out t) n l) as [n Hn].
  { pose proof Hok as [_ Hfw]. rewrite Ht2 in Hfw. destruct Hfw as (r & v & Hfw & Hdue).
    pose proof Hfw as (_ & _ & _ & Hr & _ & _ & _ & Hv). rewrite Hre in Hdue. eexists. split; [done|]. split; [done|]. exists t2, r, v.
    do 3 (split; [done|]). split; [apply Hw; [by apply waiting|done]|]. split; [|done]. rewrite <-Hdue, !Forall_app in He. rewrite !Forall_app. tauto. }
  destruct (flowing_ends _ _ n l Hf Hn) as [Hsn Hend]. split; [done|]. intros l' Hr Hnf. destruct (Hend l' Hr Hnf) as [Hset <-].
  assert (line_ok (task_filter t) (task_out t) l') as Hok'.
  { eapply line_steps_ok; [exact Hf| |exact Hok]. eapply rtc_subrel; [|exact Hr]. intros x y. apply LineOwn. }
  destruct (line_reads _ _ l' Hok') as (received & rest & -> & Hread & _ & Hall). destruct (Hall Hset) as [-> Hdue].
  by rewrite app_nil_r.
Qed.
End line.

(** A plain forwarder of [a] into channel 0, with one publish on its way. *)
Module SampleLine.
#[export] Instance B : Broadcast Envelope := Reference.ref_broadcast Envelope.
#[export] Instance M : Mpsc Envelope := Reference.ref_mpsc Envelope.
#[export] Instance R : MpscReceiver Envelope := Reference.ref_mpsc_receiver Envelope.
#[export] Instance S : MessageStore := ReferenceStore.ref_store.
#[export] Instance U : Uuids := Reference.ref_uuids.
#[export] Instance BL : BroadcastLaws Envelope := Reference.ref_broadcast_laws Envelope.
#[export] Instance ML : MpscLaws Envelope := Reference.ref_mpsc_laws Envelope.
#[export] Instance RL : MpscReceiverLaws Envelope := Reference.ref_mpsc_receiver_laws Envelope.

Definition e : Envelope := Sample.publish 1 (lit "a") [7%Z] false.
Definition op : Op := OpPublish (Sample.topic (lit "a")) e 0.
Definition forwarder : Task := spawn_forwarder (Sample.filter (lit "a")) 0 (MkDeadLetterConfig (Sample.peer 9) None).
Definition hub : Hub := MkHub Broker.new {[0 := Reference.MkChan 8 false []]} 0 Metrics.new.
Definition encode := Sample.encode [e].
Definition decode := Sample.decode [e].

Definition of_outcome (x : Task * Hub) (o : Outcome) : Task * Hub :=
  match o with Continues t h => (t, h) | _ => x end.
Definition next (x : Task * Hub) : Task * Hub := of_outcome x (task_step 0 BranchDeliver x.1 x.2).
Definition started : Task * Hub := of_outcome (forwarder, hub) (start_task forwarder hub).
Definition published : Hub :=
  let x := exec op (h_broker started.2, h_chans started.2) in MkHub x.1 x.2 (h_ids started.2) (h_metrics started.2).
Definition owing : Line := MkLine published (Some started.1) [] false [] [e].

Definition read := next (started.1, published).
Definition sent := next read.
(** The writer's turn on the hub's channels, after [w]. *)
Definition turn (enc : Envelope → Result bytes ()) (h : Hub) (w : bytes) := write_step enc vec_write_all 0 false (h_chans h, w).
Definition turned (enc : Envelope → Result bytes ()) (h : Hub) (w : bytes) : Hub :=
  MkHub (h_broker h) (turn enc h w).2.1 (h_ids h) (h_metrics h).
Definition written : Line :=
  MkLine (turned encode sent.2 []) (Some sent.1) (turn encode sent.2 []).2.2 false (([] ++ sends started.1) ++ sends read.1) [e].

Definition goes (x : Task * Hub) : bool :=
  negb (lags x.1 x.2) && negb (recovering x.1) && match task_step 0 BranchDeliver x.1 x.2 with Continues _ _ => true | _ => false end.
Lemma forwards (enc : Envelope → Result bytes ()) x w d a u :
  goes x = true →
  line_step enc 0 (MkLine x.2 (Some x.1) w d a u) (MkLine (next x).2 (Some (next x).1) w d (a ++ sends x.1) u).
Proof.
  unfold goes. intros [[Hl%negb_true_iff Hre%negb_true_iff]%andb_prop Hs]%andb_prop. apply LineOwn, (OwnForward enc 0 0); [done..|]. unfold next.
  by destruct (task_step 0 BranchDeliver x.1 x.2).
Qed.
Lemma writes enc h t w a u :
  match (turn enc h w).1 with Wrote => true | _ => false end = true →
  line_step enc 0 (MkLine h t w false a u) (MkLine (turned enc h w) t (turn enc h w).2.2 false a u).
Proof.
  intros Hw. apply LineOwn. eapply OwnWrite; [|done]. unfold turned, turn in *.
  by destruct (write_step _ _ _ _ _) as [[] [s w']].
Qed.

Lemma laws : BrokerSpec.wf (h_broker hub)
  ∧ Filter.wf (task_filter forwarder) ∧ sub_room (h_broker hub) (task_filter forwarder).
Proof.
  split; [apply broker_wf_new|]. split; [by apply (filter_from_str_ok (lit "a") (Sample.filter (lit "a")))|]. right; left. apply Nat.ltb_lt. by vm_compute.
Qed.

Lemma owing_reached : rtc (line_step encode 0) (line_start 0 started.1 started.2) owing.
Proof.
  apply rtc_once. refine (LineOp encode 0 op started.2 published [] (Some started.1) [] false [] [] _ eq_refl eq_refl).
  by intros x r _ _.
Qed.

Lemma written_reached : rtc (line_step encode 0) owing written.
Proof.
  eapply rtc_l; [apply (forwards encode (started.1, published)); by vm_compute|].
  eapply rtc_l; [apply (forwards encode read); by vm_compute|]. apply rtc_once, writes. by vm_compute.
Qed.
End SampleLine.
Import SampleLine.

(** It has been forwarded and written. *)
Lemma subscriber_reads_the_stream_witness :
  SampleLine.decode <$> read_frames (length (l_wire SampleLine.written)) (l_wire SampleLine.written) = [Ok SampleLine.e].
Proof.
  destruct SampleLine.laws as (Hwf & Hf & Hroom).
  destruct (subscriber_reads_the_stream SampleLine.encode SampleLine.decode (Sample.sample_codec [SampleLine.e])
    SampleLine.forwarder SampleLine.started.1 SampleLine.hub SampleLine.started.2 SampleLine.written)
    as (received & rest & Ha & Hr & _ & Hall); [done..| |].
  - etrans; [exact SampleLine.owing_reached|exact SampleLine.written_reached].
  - destruct Hall as [-> _].
    + split; [done|]. split; [vm_compute; reflexivity|]. eexists _, _. split; [reflexivity|].
      split; [vm_compute; reflexivity|]. split; [vm_compute; reflexivity|vm_compute; reflexivity].
    + rewrite app_nil_r in Ha. rewrite Hr, <-Ha. reflexivity.
Defined.

(** The publish is owed; the two tasks get it there. *)
Lemma stream_gets_there_witness :
  sn (own_step SampleLine.encode 0) SampleLine.owing
  ∧ ∀ l', rtc (own_step SampleLine.encode 0) SampleLine.owing l' → nf (own_step SampleLine.encode 0) l' →
      SampleLine.decode <$> read_frames (length (l_wire l')) (l_wire l') = Ok <$> (l_accepted l').*2
      ∧ forwarded (l_accepted l') = [SampleLine.e].
Proof.
  destruct SampleLine.laws as (Hwf & Hf & Hroom).
  apply (stream_gets_there SampleLine.encode SampleLine.decode (Sample.sample_codec [SampleLine.e])
    SampleLine.forwarder SampleLine.started.1 SampleLine.started.1 SampleLine.hub SampleLine.started.2 SampleLine.owing); [done..| | | | | | |].
  - exact SampleLine.owing_reached.
  - done.
  - vm_compute. reflexivity.
  - done.
  - vm_compute. reflexivity.
  - intros r v Hr Hq. vm_compute in Hr. injection Hr as <-. vm_compute in Hq. injection Hq as <-. apply within_checked.
    vm_compute. reflexivity.
  - apply Forall_singleton. eexists. split; [vm_compute; reflexivity|vm_compute; discriminate].
Defined.
