(* ===== verification/Acknowledged.v ===== *)
(** * An acknowledging subscription ([spawn_ack_forwarder] and [PendingAcks]
      together, [thoth-mesh-node/src/connection.rs] and [redelivery.rs])

    An [Account] is a node's hub and one acknowledging forwarder, with the books
    of what it has delivered. The rest of the node, the acknowledgements that
    come in and the sweeps interleave with its deliveries. *)

From S2P Require Import Prelude.
From S2P Require Import Text.
From S2P Require Import Topic.
From S2P Require Import Filter.
From S2P Require Import Runtime.
From S2P Require Import Message.
From S2P Require Import TopicChannel.
From S2P Require Import TopicMap.
From S2P Require Import Redelivery.
From S2P Require Import MessageStore.
From S2P Require Import Broker.
From S2P Require Import BrokerSpec.
From S2P Require Import Metrics.
From S2P Require Import DeadLetter.
From S2P Require Import Forwarder.
From S2P Require Import Relay.
From S2P Require Import Delivery.

#[local] Open Scope nat_scope.

Section acknowledged.
Context `{Broadcast Envelope} `{Mpsc Envelope} `{MessageStore} `{Uuids}.
Context `{!BroadcastLaws Envelope} `{!MpscLaws Envelope}.

(** [a_sent] has each delivery once, when it is first made; [a_out] is all the
    forwarder put on the connection's channel, [a_acked] the acknowledgements it
    has taken, [a_gone] what it gave up on, and [a_due] what it owes. *)
Record Account := MkAccount {
  a_hub : Hub;
  a_task : Task;
  a_sent : list Envelope;
  a_out : list Envelope;
  a_acked : list MessageId;
  a_gone : list Envelope;
  a_due : list Envelope;
}.

Definition pending_of (t : Task) : option PendingAcks := match task_mode t with Acked p _ _ => Some p | _ => None end.
Definition acks_waiting (t : Task) : list MessageId := match task_mode t with Acked _ acks _ => acks | _ => [] end.
Definition sweeping_of (t : Task) : Sweeping := match task_mode t with Acked _ _ sweeping => sweeping | _ => swept end.
Definition given_up (now : Z) (t : Task) : list Envelope :=
  match pending_of t with Some p => (sweep now p).1.2 | None => [] end.

(** The dead letter its sweep is at, as operations of the broker. *)
Definition dead_letter_ops (now : Z) (t : Task) (h : Hub) : list Op :=
  (λ c, OpPublish c.1 c.2 now) <$> DeadLetter.copies (task_dead_letter t) (h_ids h) (firstn 1 (given_up_on (sweeping_of t))).

(** The delivery the next send makes for the first time; a resend makes none. *)
Definition first_sent (t : Task) : list Envelope :=
  match to_resend (sweeping_of t) with [] => firstn 1 (task_queue t) | _ => [] end.

Inductive account_step (out : nat) : Account → Account → Prop :=
(** The forwarder sends, sends again, or reads. *)
| AccDeliver now h h' t t' s o es k g u :
    lags t h = false → recovering t = false → given_up_on (sweeping_of t) = [] →
    task_step now BranchDeliver t h = Continues t' h' → queued (h_chans h') out = queued (h_chans h) out ++ es →
    account_step out (MkAccount h t s o k g u) (MkAccount h' t' (s ++ first_sent t) (o ++ es) k g u)
(** It finds that it has fallen behind, and then subscribes again. What it has
    lost it does not owe any more. *)
| AccLag now h h' t t' s o k g u :
    lags t h = true → task_step now BranchDeliver t h = Continues t' h' →
    account_step out (MkAccount h t s o k g u) (MkAccount h' t' s o k g s)
| AccRecover now h h' t t' s o k g u :
    recovering t = true → task_step now BranchDeliver t h = Continues t' h' →
    account_step out (MkAccount h t s o k g u) (MkAccount h' t' s o k g (u ++ caught_up t h))
(** It takes an acknowledgement. *)
| AccAck now h h' t t' s o k g u :
    task_step now BranchAck t h = Continues t' h' →
    account_step out (MkAccount h t s o k g u) (MkAccount h' t' s o (k ++ firstn 1 (acks_waiting t)) g u)
(** It sweeps, and dead-letters what it gives up on, one at a time. *)
| AccTick now h h' t t' s o k g u :
    task_step now BranchTick t h = Continues t' h' →
    account_step out (MkAccount h t s o k g u) (MkAccount h' t' s o k (g ++ given_up now t) u)
| AccDeadLetter now h h' t t' s o k g u :
    given_up_on (sweeping_of t) ≠ [] → task_step now BranchDeliver t h = Continues t' h' →
    account_step out (MkAccount h t s o k g u)
      (MkAccount h' t' s o k g (u ++ all_news (task_filter t) (dead_letter_ops now t h) (h_broker h, h_chans h)))
(** The connection passes an acknowledgement on. *)
| AccOffer i h t s o k g u :
    account_step out (MkAccount h t s o k g u) (MkAccount h (offer_ack i t) s o k g u)
(** Somebody uses the broker, or the channels. *)
| AccOp op h h' t s o k g u :
    spared op h (Some t) → exec op (h_broker h, h_chans h) = (h_broker h', h_chans h') →
    account_step out (MkAccount h t s o k g u) (MkAccount h' t s o k g (u ++ owes op h (Some t)))
| AccChans h h' t s o k g u :
    h_broker h' = h_broker h →
    account_step out (MkAccount h t s o k g u) (MkAccount h' t s o k g u).

(** An acknowledging forwarder that has just subscribed. *)
Definition account_start (t : Task) (h : Hub) : Account := MkAccount h t [] [] [] [] (task_queue t).

(** ** The books *)

(** How often [e] is among [l]. *)
Definition sendings (e : Envelope) (l : list Envelope) : nat := length (filter (e =.) l).

(** The pending deliveries [p], of at most [n] resends, against what was [sent]
    and sent again. *)
Definition tally (n : nat) (p : PendingAcks) (again sent o : list Envelope) (acked : list MessageId) (gone : list Envelope) : Prop :=
  Redelivery.wf p ∧ max_attempts p = n
  ∧ sent `sublist_of` o ∧ (∀ e, e ∈ o ++ again → e ∈ sent)
  ∧ (∀ i x, entries p !! i = Some x → S (attempts x) ≤ sendings (Redelivery.envelope x) (o ++ again))
  ∧ (∀ e, e ∈ gone → n < sendings e o)
  ∧ ∀ e, e ∈ sent → id e ∈ acked ∨ id e ∈ id <$> gone ∨ is_Some (entries p !! id e).

Lemma sendings_app e l k : sendings e (l ++ k) = sendings e l + sendings e k.
Proof. unfold sendings. by rewrite filter_app, length_app. Qed.
Lemma sendings_in e l : 0 < sendings e l ↔ e ∈ l.
Proof.
  unfold sendings. induction l as [|x l IH]; [cbn; rewrite elem_of_nil; lia|].
  rewrite filter_cons, elem_of_cons. destruct (decide (e = x)); cbn; [|rewrite IH; naive_solver]. split; [by left|lia].
Qed.

(** A resend moves a message from one list to the other. *)
Lemma tally_again n p e rest sent o k g : tally n p (e :: rest) sent o k g → tally n p rest sent (o ++ [e]) k g.
Proof.
  intros (Hw & Hn & Hs & Hin & Hp & Hg & Hsettled). unfold tally. rewrite <-!app_assoc. do 2 (split; [done|]).
  split; [by apply sublist_inserts_r|]. do 2 (split; [done|]). split; [|done].
  intros x Hx. rewrite sendings_app. specialize (Hg x Hx). lia.
Qed.

Lemma tally_sent n now p e sent o k g :
  tally n p [] sent o k g → tally n (record e now p) [] (sent ++ [e]) (o ++ [e]) k g.
Proof.
  intros (Hw & Hn & Hs & Hin & Hp & Hg & Hsettled). unfold tally. rewrite !app_nil_r in *.
  split; [|split; [done|split; [by apply sublist_app|split; [|split; [|split]]]]].
  - intros i x. cbn. intros [[<- <-]|[_ Hx]]%lookup_insert_Some; [cbn; split; [done|lia]|by apply Hw].
  - intros x. rewrite !elem_of_app. naive_solver.
  - intros i x. rewrite sendings_app. cbn [record set_entries entries].
    intros [[<- <-]|[_ Hx]]%lookup_insert_Some; cbn [Redelivery.envelope attempts].
    + assert (0 < sendings e [e]) by (apply sendings_in; left). lia.
    + specialize (Hp i x Hx). lia.
  - intros x Hx. rewrite sendings_app. specialize (Hg x Hx). lia.
  - intros x Hx. cbn. destruct (decide (id e = id x)) as [->|Hne]; [rewrite lookup_insert_eq; eauto|].
    rewrite lookup_insert_ne by done. apply Hsettled. apply elem_of_app in Hx as [Hx| ->%list_elem_of_singleton]; done.
Qed.

Lemma tally_ack n p i sent o k g : tally n p [] sent o k g → tally n (ack i p) [] sent o (k ++ [i]) g.
Proof.
  intros (Hw & Hn & Hs & Hin & Hp & Hg & Hsettled).
  split; [|split; [done|split; [done|split; [done|split; [|split; [done|]]]]]].
  - intros j x. cbn. intros [_ Hx]%lookup_delete_Some. by apply Hw.
  - intros j x. cbn. intros [_ Hx]%lookup_delete_Some. by eapply Hp.
  - intros e He. cbn. rewrite elem_of_app, list_elem_of_singleton. destruct (decide (i = id e)) as [->|Hne]; [auto|].
    rewrite lookup_delete_ne by done. destruct (Hsettled e He); auto.
Qed.

Lemma tally_sweep n now p sent o k g :
  tally n p [] sent o k g →
  tally n (sweep now p).2 (sweep now p).1.1 sent o k (g ++ (sweep now p).1.2).
Proof.
  intros (Hw & <- & Hs & Hin & Hp & Hg & Hsettled). rewrite app_nil_r in *.
  pose proof (pending_sweep_spec now p) as Hsp. pose proof (sweep_wf now p Hw) as Hw'.
  destruct (sweep now p) as [[tr gu] p']. destruct Hsp as (_ & Hm & He & Htr & Hgu). cbn [fst snd] in *.
  assert (∀ i x, entries p !! i = Some x → Redelivery.envelope x ∈ sent) as Hknown.
  { intros i x Hx. apply Hin, sendings_in. specialize (Hp i x Hx). lia. }
  split; [done|]. split; [done|]. split; [done|]. split; [|split; [|split]].
  - intros e [He'|He']%elem_of_app; [auto|]. apply Htr in He' as (i & x & Hx & <- & _). by eapply Hknown.
  - intros i x. rewrite He, sendings_app. destruct (entries p !! i) as [y|] eqn:Hy; [|done]. cbn. unfold swept_entry.
    specialize (Hp i y Hy). destruct (entry_expired now p y) eqn:Hex; [|intros [= <-]; lia].
    destruct (Nat.leb_spec (max_attempts p) (attempts y)); intros [= <-]. cbn [retry Redelivery.envelope attempts].
    assert (0 < sendings (Redelivery.envelope y) tr) by (apply sendings_in, Htr; eauto 8). lia.
  - intros e [He'|He']%elem_of_app; [auto|]. apply Hgu in He' as (i & x & Hx & <- & _ & Hle). specialize (Hp i x Hx). lia.
  - intros e He'. rewrite fmap_app, elem_of_app, He. destruct (Hsettled e He') as [?|[?|[x Hx]]]; [auto..|]. rewrite Hx. cbn.
    unfold swept_entry. destruct (entry_expired now p x) eqn:Hex; [|eauto].
    destruct (Nat.leb_spec (max_attempts p) (attempts x)); [|eauto]. right; left; right. destruct (Hw _ _ Hx) as [<- _].
    apply list_elem_of_fmap_2, Hgu. eauto 8.
Qed.

(** ** One step of the forwarder *)

(** The forwarder of filter [f] into [out], with [v] unread at its receiver. *)
Definition acking (f : TopicFilter) (out : nat) (p : PendingAcks) (acks : list MessageId) (w : Sweeping)
    (r : Receiver) (v : list Envelope) (t : Task) (b : Broker) : Prop :=
  task_mode t = Acked p acks w ∧ task_filter t = f ∧ task_out t = out ∧ task_rx t = Some r
  ∧ (recovering t = true → given_up_on w = [] ∧ to_resend w = [] ∧ task_queue t = [])
  ∧ BrokerSpec.wf b ∧ sub_arc b f = Some r.1 ∧ queue b r = Some v.

Lemma acking_exec f out p acks w r v t b chans ops :
  Filter.wf f → acking f out p acks w r v t b → all_spare r ops (b, chans) →
  acking f out p acks w r (v ++ all_news f ops (b, chans)) t (exec_all ops (b, chans)).1.
Proof.
  intros Hf (Hm & Htf & Hto & Hr & Hre & Hwf & Ha & Hq) Hs.
  destruct (exec_all_effect ops b chans f r v Hwf Hf Ha Hq Hs) as (Hwf' & Ha' & Hq').
  do 5 (split; [done|]). by split.
Qed.

(** A task with nothing to do but to read has nothing left of a sweep. *)
Lemma work_none_swept now t c h : work now t c h = None → given_up_on (sweeping_of t) = [] ∧ to_resend (sweeping_of t) = [].
Proof. unfold work, sweeping_of. by destruct (task_mode t) as [|topic q [i|]|pending acks [[|] n [|]]]. Qed.

(** A receiver that has answered. *)
Lemma acked_receive now f out p acks w r v t t' h h' c :
  acking f out p acks w r v t (h_broker h) → task_phase t = Running _ c → work now t c h = None →
  receive t c h = Continues t' h' →
  h_chans h' = h_chans h ∧ given_up_on w = [] ∧ to_resend w = [] ∧ task_queue t = []
  ∧ ((∃ e v', v = e :: v' ∧ task_queue t' = [e] ∧ recovering t' = false ∧ acking f out p acks w r v' t' (h_broker h')
        ∧ ∃ b, recv_receiver r (h_broker h) = (Received e, b))
     ∨ ∃ v' n, recovering t' = true ∧ acking f out p acks w r v' t' (h_broker h') ∧ (recv_receiver r (h_broker h)).1 = Lagged n).
Proof.
  intros (Hm & Htf & Hto & Hr & _ & Hwf & Ha & Hq) Hp Hwk. destruct (work_none_swept _ _ _ _ Hwk) as [Hgu Htr].
  destruct (work_none_idle _ _ _ _ Hwk) as (_ & Hla & Hcq). unfold sweeping_of in Hgu, Htr. rewrite Hm in Hgu, Htr.
  destruct t as [f' out' m dl phase]. unfold task_rx, task_queue, recovering, acking in *. cbn [task_mode task_phase task_filter task_out] in *.
  subst f' out' m phase. injection Hr as <-. unfold receive, on_broker, core_recv, mbind, ST_bind.
  cbn [feed_recv broker_feed task_filter]. pose proof (recv_keeps f (core_rx c) v (h_broker h) Hwf Ha Hq) as Hrs.
  destruct (recv_receiver (core_rx c) (h_broker h)) as [[e|n|] b'] eqn:Er.
  - destruct Hrs as (Hwf' & Ha' & v' & -> & Hq'). intros [= <- <-]. do 4 (split; [done|]). left. exists e, v'. do 3 (split; [done|]).
    split; [|by eexists]. do 5 (split; [done|]). by split.
  - destruct Hrs as (Hwf' & Ha' & [v' Hq']). intros [= <- <-]. do 4 (split; [done|]). right. exists v', n. split; [done|].
    split; [|done]. do 5 (split; [done|]). by split.
  - cbn. destruct (sender_dropped _ _); intros [=].
Qed.

(** A message that is sent. *)
Lemma send_next_continues t e k h t' h' :
  send_next t e k h = Continues t' h' →
  ∃ s, try_send (task_out t) e (h_chans h) = (true, s) ∧ k (MkHub (h_broker h) s (h_ids h) (h_metrics h)) = Continues t' h'.
Proof.
  unfold send_next, send_out. destruct (is_closed (h_chans h) _); [intros [=]|].
  destruct (try_send _ e (h_chans h)) as [[] s]; [|intros [=]]. intros Hk. by exists s.
Qed.

Lemma acked_deliver now f out p acks w r v t t' h h' :
  acking f out p acks w r v t (h_broker h) → lags t h = false → recovering t = false → given_up_on w = [] →
  task_step now BranchDeliver t h = Continues t' h' →
  recovering t' = false ∧
  ((∃ e rest, to_resend w = e :: rest ∧ task_queue t' = task_queue t
     ∧ acking f out p acks (MkSweeping [] (dead_lettered w) rest) r v t' (h_broker h') ∧ try_send out e (h_chans h) = (true, h_chans h'))
   ∨ (∃ e, to_resend w = [] ∧ task_queue t = e :: task_queue t' ∧ acking f out (record e now p) acks w r v t' (h_broker h')
     ∧ try_send out e (h_chans h) = (true, h_chans h'))
   ∨ ∃ e v', to_resend w = [] ∧ task_queue t = [] ∧ v = e :: v' ∧ task_queue t' = [e]
     ∧ acking f out p acks w r v' t' (h_broker h') ∧ h_chans h' = h_chans h).
Proof.
  intros Hk Hlag Hre Hgu. pose proof Hk as (Hm & Htf & Hto & Hr & _ & Hwf & Ha & Hq). unfold task_step.
  destruct (task_phase t) as [|c] eqn:Hp; [unfold task_rx in Hr; by rewrite Hp in Hr|].
  destruct (work now t c h) as [x|] eqn:Hwk.
  2:{ intros Hs. destruct (acked_receive now f out p acks w r v t t' h h' c Hk Hp Hwk Hs)
        as (Hc & _ & Htr & Htq & [(e & v' & -> & Hq' & Hre' & Hk' & _)|(v' & n & _ & _ & Hl)]).
      - split; [done|]. right; right. by exists e, v'.
      - unfold lags, task_rx in *. rewrite Hp in Hlag, Hr. injection Hr as Hrx. by rewrite (work_none _ 0 _ _ _ h Hwk), Hrx, Hl in Hlag. }
  intros ->. revert Hwk. destruct t as [f' out' m dl phase]. unfold recovering, task_rx, task_queue, acking, work in *.
  cbn [task_mode task_phase task_filter task_out] in *. subst f' out' m phase. injection Hr as <-.
  change (@core_lagged _ _ c = false) in Hre. destruct w as [gu n tr]. cbn [given_up_on to_resend dead_lettered] in *. subst gu.
  destruct tr as [|e rest]; [rewrite Hre; destruct (@core_queue _ (broker_feed f) c) as [|e q] eqn:Hcq; [done|]|];
    intros [= Hs]; apply send_next_continues in Hs as (s' & Hs & Hk'); cbn [task_out] in Hs;
    unfold after_send, set_core, set_mode in Hk'; cbn [task_mode task_filter task_out task_dead_letter task_phase] in Hk'; injection Hk' as <- <-.
  - cbn [task_phase]. unfold core_sent. rewrite Hcq. split; [done|]. right; left. exists e. split; [done|]. split; [done|]. split; [|done].
    do 4 (split; [done|]). split; [by cbn; rewrite Hre|]. by split.
  - split; [done|]. left. exists e, rest. do 2 (split; [done|]). split; [|done]. do 4 (split; [done|]). split; [by cbn; rewrite Hre|]. by split.
Qed.

Lemma acked_lags now f out p acks w r v t t' h h' :
  acking f out p acks w r v t (h_broker h) → lags t h = true → task_step now BranchDeliver t h = Continues t' h' →
  recovering t' = true ∧ to_resend w = [] ∧ ∃ v', acking f out p acks w r v' t' (h_broker h').
Proof.
  intros Hk Hlag. pose proof Hk as (_ & _ & _ & Hr & _). unfold task_step. unfold lags, task_rx in *.
  destruct (task_phase t) as [|c] eqn:Hp; [done|]. destruct (work 0 t c h) eqn:Hwk; [done|]. rewrite (work_none _ now _ _ _ h Hwk).
  intros Hs. destruct (acked_receive 0 f out p acks w r v t t' h h' c Hk Hp Hwk Hs)
    as (_ & _ & Htr & _ & [(e & v' & _ & _ & _ & _ & b & Hb)|(v' & n & Hre' & Hk' & _)]); [|by eauto].
  injection Hr as Hrx. by rewrite Hrx, Hb in Hlag.
Qed.

Lemma acked_recovers now f out p acks w r v t t' h h' :
  Filter.wf f → acking f out p acks w r v t (h_broker h) → recovering t = true → task_step now BranchDeliver t h = Continues t' h' →
  recovering t' = false ∧ task_queue t' = caught_up t h ∧ ∃ r', acking f out p acks w r' [] t' (h_broker h').
Proof.
  intros Hf (Hm & Htf & Hto & Hr & Hidle & Hwf & Ha & Hq) Hre. destruct (Hidle Hre) as (Hgu & Htr & _).
  destruct t as [f' out' m dl phase]. unfold acking, caught_up, recovering, task_rx, task_queue, task_step in *.
  cbn [task_phase task_filter task_out task_mode] in *. subst f' out' m. destruct phase as [|c]; [done|]. injection Hr as <-.
  change (@core_lagged _ _ c = true) in Hre. destruct w as [gu n tr]. cbn [given_up_on to_resend] in *. subst gu tr.
  unfold work. cbn [task_mode task_filter]. rewrite Hre.
  unfold recover, on_broker, core_recover, mbind, ST_bind. cbn [feed_subscribe feed_drop broker_feed task_filter].
  pose proof (resubscribe_spec f (h_broker h) (h_chans h) (core_rx c) v Hwf Hf Ha Hq) as Hs.
  destruct (Broker.subscribe f (h_broker h)) as [[l r'] b1]. cbn. intros [= <- <-]. destruct Hs as (Hwf' & Ha' & Hq').
  do 2 (split; [done|]). exists r'. do 5 (split; [done|]).
  assert (∀ n g x, h_broker (counted n g x) = h_broker x) as -> by (intros k g x; unfold counted; by destruct (k =? 0)).
  by split.
Qed.

(** The other branches are only taken by a task that has nothing else to do. *)
Lemma acked_idle now f out p acks w r v t h c :
  acking f out p acks w r v t (h_broker h) → task_phase t = Running _ c → work now t c h = None →
  given_up_on w = [] ∧ to_resend w = [] ∧ task_queue t = [] ∧ recovering t = false.
Proof.
  intros (Hm & _) Hp Hwk. destruct (work_none_swept _ _ _ _ Hwk) as [Hgu Htr]. unfold sweeping_of in Hgu, Htr. rewrite Hm in Hgu, Htr.
  destruct (work_none_idle _ _ _ _ Hwk) as (_ & Hla & Hcq). unfold task_queue, recovering. by rewrite Hp.
Qed.

Lemma acked_ack now f out p acks w r v t t' h h' :
  acking f out p acks w r v t (h_broker h) → task_step now BranchAck t h = Continues t' h' →
  ∃ i acks', acks = i :: acks' ∧ to_resend w = [] ∧ recovering t = false ∧ recovering t' = false
    ∧ task_queue t' = task_queue t ∧ acking f out (ack i p) acks' w r v t' (h_broker h').
Proof.
  intros Hk. unfold task_step. destruct (task_phase t) as [|c] eqn:Hp; [done|]. destruct (work now t c h) eqn:Hwk; [done|].
  destruct (acked_idle now f out p acks w r v t h c Hk Hp Hwk) as (Hgu & Htr & Htq & Hre).
  destruct Hk as (Hm & Htf & Hto & Hr & Hidle & Hrest). rewrite Hm. destruct acks as [|i acks']; [done|]. intros [= <- <-].
  exists i, acks'. do 5 (split; [done|]). do 5 (split; [done|]). exact Hrest.
Qed.

Lemma acked_tick now f out p acks w r v t t' h h' :
  acking f out p acks w r v t (h_broker h) → task_step now BranchTick t h = Continues t' h' →
  to_resend w = [] ∧ recovering t = false ∧ recovering t' = false ∧ task_queue t' = task_queue t
  ∧ acking f out (sweep now p).2 acks (MkSweeping (sweep now p).1.2 0 (sweep now p).1.1) r v t' (h_broker h').
Proof.
  intros Hk. unfold task_step. destruct (task_phase t) as [|c] eqn:Hp; [done|]. destruct (work now t c h) eqn:Hwk; [done|].
  destruct (acked_idle now f out p acks w r v t h c Hk Hp Hwk) as (Hgu & Htr & Htq & Hre).
  destruct Hk as (Hm & Htf & Hto & Hr & Hidle & Hrest). rewrite Hm. unfold tick.
  destruct (sweep now p) as [[tr gu] p']. intros [= <- <-]. do 4 (split; [done|]). do 4 (split; [done|]).
  split; [intros Ht; change (recovering t = true) in Ht; congruence|].
  destruct gu as [|e gu]; [|exact Hrest]. unfold counted. by destruct (_ =? 0).
Qed.

(** A dead letter is a publish of the broker. *)
Lemma dead_letter_exec config e now h :
  let h' := (dead_letter config e now h).2 in
  (h_broker h', h_chans h')
  = exec_all ((λ c, OpPublish c.1 c.2 now) <$> DeadLetter.copies config (h_ids h) [e]) (h_broker h, h_chans h).
Proof.
  cbv zeta. rewrite dead_letter_copy. cbn [DeadLetter.copies]. destruct (DeadLetter.copy config (h_ids h) e) as [[dest c]|]; [|done].
  cbn [fmap list_fmap exec_all exec fst snd]. unfold hub_publish. cbn [h_broker h_chans].
  by destruct (publish dest c now (h_broker h, h_chans h)) as [m [b s]].
Qed.

Lemma publishes_spare r now l st : all_spare r ((λ c : Topic * Envelope, OpPublish c.1 c.2 now) <$> l) st.
Proof. revert st. induction l as [|c l IH]; intros st; [done|]. split; [done|apply IH]. Qed.

Lemma acked_dead_letter now f out p acks w r v t t' h h' :
  Filter.wf f → acking f out p acks w r v t (h_broker h) → given_up_on w ≠ [] → task_step now BranchDeliver t h = Continues t' h' →
  recovering t = false ∧ recovering t' = false ∧ task_queue t' = task_queue t
  ∧ ∃ w', to_resend w' = to_resend w
    ∧ acking f out p acks w' r (v ++ all_news f (dead_letter_ops now t h) (h_broker h, h_chans h)) t' (h_broker h').
Proof.
  intros Hf Hk Hgu. pose proof (acking_exec f out p acks w r v t (h_broker h) (h_chans h) (dead_letter_ops now t h) Hf Hk
    (publishes_spare r now _ _)) as Hx.
  destruct Hk as (Hm & Htf & Hto & Hr & Hidle & _). destruct (recovering t) eqn:Hre; [by destruct (Hidle eq_refl)|].
  unfold dead_letter_ops, sweeping_of in *. rewrite Hm in *. destruct w as [[|e rest] n tr]; [done|]. cbn [given_up_on firstn to_resend] in *.
  unfold task_step. destruct (task_phase t) as [|c] eqn:Hp; [unfold task_rx in Hr; by rewrite Hp in Hr|].
  unfold work. rewrite Hm. unfold dead_letter_next. pose proof (dead_letter_exec (task_dead_letter t) e now h) as Hd. cbv zeta in Hd.
  destruct (dead_letter _ e now h) as [ok h1]. cbn [snd] in Hd. rewrite take_0, <-Hd in Hx. cbn [fst] in Hx. intros [= <- <-].
  do 3 (split; [done|]). exists (MkSweeping rest (if ok : bool then (n + 1)%Z else n) tr). split; [done|].
  destruct Hx as (_ & _ & _ & _ & _ & Hrest). do 4 (split; [done|]).
  split; [intros Ht; change (recovering t = true) in Ht; congruence|]. cbn [to_resend].
  assert (∀ m g x, h_broker (counted m g x) = h_broker x) as Hcnt by (intros m g x; unfold counted; by destruct (m =? 0)).
  destruct rest as [|e' rest]; [|exact Hrest]. rewrite Hcnt. by destruct (0 <? _)%Z.
Qed.

(** ** Every step keeps the books *)

Definition books (n : nat) (f : TopicFilter) (out : nat) (a : Account) : Prop :=
  ∃ p acks w r v,
    acking f out p acks w r v (a_task a) (h_broker (a_hub a))
    ∧ (if recovering (a_task a) then a_sent a = a_due a else a_sent a ++ task_queue (a_task a) ++ v = a_due a)
    ∧ tally n p (to_resend w) (a_sent a) (a_out a) (a_acked a) (a_gone a).

Lemma offer_ack_books n f out i h t s o k g u :
  books n f out (MkAccount h t s o k g u) → books n f out (MkAccount h (offer_ack i t) s o k g u).
Proof.
  intros (p & acks & w & r & v & (Hm & Hk) & Hdue). cbn [a_hub a_task] in *. unfold books, offer_ack. cbn [a_hub a_task].
  rewrite Hm. destruct (length acks <? _); (eexists p, _, w, r, v; split; [split; [done|exact Hk]|exact Hdue]).
Qed.

Lemma deliver_books n now f out h h' t t' s o es k g u :
  lags t h = false → recovering t = false → given_up_on (sweeping_of t) = [] →
  task_step now BranchDeliver t h = Continues t' h' → queued (h_chans h') out = queued (h_chans h) out ++ es →
  books n f out (MkAccount h t s o k g u) → books n f out (MkAccount h' t' (s ++ first_sent t) (o ++ es) k g u).
Proof.
  intros Hlag Hre Hgu Hs Hes (p & acks & w & r & v & Hk & Hdue & Ht). cbn [a_hub a_task a_sent a_out a_acked a_gone a_due] in *.
  rewrite Hre in Hdue. subst u. unfold first_sent, sweeping_of in *. pose proof Hk as (Hm & _). rewrite Hm in *. unfold books.
  cbn [a_hub a_task a_sent a_out a_acked a_gone a_due].
  destruct (acked_deliver _ _ _ _ _ _ _ _ _ _ _ _ Hk Hlag Hre Hgu Hs) as [Hre'
    [(e & rest & Htr & Hq & Hk' & (_ & Hout & _)%try_send_accepted)|[(e & Htr & Hq & Hk' & (_ & Hout & _)%try_send_accepted)
       |(e & v' & Htr & Hq & -> & Hq' & Hk' & Hc)]]]; rewrite Htr in *; rewrite Hre'.
  - assert (es = [e]) as -> by (apply (app_inv_head (queued (h_chans h) out)); by rewrite <-Hes).
    eexists p, acks, _, r, v. split; [exact Hk'|]. rewrite app_nil_r, Hq. split; [done|by apply tally_again].
  - assert (es = [e]) as -> by (apply (app_inv_head (queued (h_chans h) out)); by rewrite <-Hes).
    exists (record e now p), acks, w, r, v. split; [done|]. rewrite Hq, Htr. cbn [firstn]. rewrite take_0.
    split; [by rewrite <-app_assoc|by apply tally_sent].
  - assert (es = []) as -> by (apply (app_inv_head (queued (h_chans h) out)); by rewrite app_nil_r, <-Hes, Hc).
    exists p, acks, w, r, v'. split; [done|]. rewrite Htr, Hq, Hq', !app_nil_r. by split.
Qed.

Lemma account_step_books n f out a a' : Filter.wf f → account_step out a a' → books n f out a → books n f out a'.
Proof.
  intros Hf Hstep Hb.
  destruct Hstep as [now h h' t t' s o es k g u Hlag Hre Hgu Hs Hes|now h h' t t' s o k g u Hlag Hs|now h h' t t' s o k g u Hre Hs
    |now h h' t t' s o k g u Hs|now h h' t t' s o k g u Hs|now h h' t t' s o k g u Hgu Hs
    |i h t s o k g u|op h h' t s o k g u Hsp Hs|h h' t s o k g u Hch]; [by eapply deliver_books| | | | | |by apply offer_ack_books| |];
    destruct Hb as (p & acks & w & r & v & Hk & Hdue & Ht); unfold books;
    cbn [a_hub a_task a_sent a_out a_acked a_gone a_due] in *.
  - destruct (acked_lags _ _ _ _ _ _ _ _ _ _ _ _ Hk Hlag Hs) as (Hre & Htr & v' & Hk').
    exists p, acks, w, r, v'. rewrite Hre. by split.
  - rewrite Hre in Hdue. subst u. destruct (acked_recovers _ _ _ _ _ _ _ _ _ _ _ _ Hf Hk Hre Hs) as (Hre' & Hq & r' & Hk').
    exists p, acks, w, r', []. rewrite Hre', Hq, app_nil_r. by split.
  - unfold acks_waiting. pose proof Hk as (-> & _).
    destruct (acked_ack _ _ _ _ _ _ _ _ _ _ _ _ Hk Hs) as (i & acks' & -> & Htr & Hre & Hre' & Hq & Hk').
    exists (ack i p), acks', w, r, v. split; [done|]. rewrite Hre', Hq. rewrite Hre in Hdue. split; [done|].
    rewrite Htr in *. by apply tally_ack.
  - destruct (acked_tick _ _ _ _ _ _ _ _ _ _ _ _ Hk Hs) as (Htr & Hre & Hre' & Hq & Hk').
    eexists _, acks, _, r, v. split; [exact Hk'|]. unfold given_up, pending_of. pose proof Hk as (-> & _).
    rewrite Hre', Hq. rewrite Hre in Hdue. split; [done|]. rewrite Htr in Ht. by apply tally_sweep.
  - unfold sweeping_of in Hgu. pose proof Hk as (Hm & _). rewrite Hm in Hgu.
    destruct (acked_dead_letter _ _ _ _ _ _ _ _ _ _ _ _ Hf Hk Hgu Hs) as (Hre & Hre' & Hq & w' & Hw & Hk').
    eexists p, acks, w', r, _. split; [exact Hk'|]. pose proof Hk as (_ & -> & _). rewrite Hre in Hdue. rewrite Hre', Hq, Hw. subst u.
    by rewrite <-!app_assoc.
  - exists p, acks, w, r. eexists. split; [|split; [|done]].
    + pose proof Hk as (_ & _ & _ & Hr & _). pose proof (acking_exec _ _ _ _ _ _ _ _ _ (h_chans h) [op] Hf Hk) as Hx.
      cbn [exec_all all_news all_spare] in Hx. rewrite app_nil_r, Hs in Hx. apply Hx. split; [by apply (Hsp t)|done].
    + cbn [owes]. destruct Hk as (_ & -> & _). destruct (recovering t); subst u; [by rewrite app_nil_r|by rewrite <-!app_assoc].
  - exists p, acks, w, r, v. by rewrite Hch.
Qed.

Lemma account_start_books t t1 h h1 timeout n :
  BrokerSpec.wf (h_broker h) → sub_room (h_broker h) (task_filter t) →
  task_mode t = Acked (Redelivery.new timeout n) [] swept → start_task t h = Continues t1 h1 →
  books n (task_filter t) (task_out t) (account_start t1 h1).
Proof.
  intros Hwf Hroom Hm. unfold start_task, on_broker. rewrite Hm. pose proof (subscribe_spec' (task_filter t) (h_broker h) Hwf) as Hsub.
  destruct (Broker.subscribe _ _) as [[l r] b']. destruct Hsub as ([Hwf' _] & Hq & Ha & _). cbn. intros [= <- <-].
  exists (Redelivery.new timeout n), [], swept, r, []. cbn. rewrite app_nil_r. split; [|split; [done|]].
  - assert (∀ m g x, h_broker (counted m g x) = h_broker x) as -> by (intros m g x; unfold counted; by destruct (m =? 0)).
    do 5 (split; [done|]). cbn. by auto.
  - split; [by intros i x; cbn; rewrite lookup_empty|]. do 2 (split; [done|]). split; [by intros e ?%not_elem_of_nil|].
    split; [by intros i x; cbn; rewrite lookup_empty|]. by split; intros e ?%not_elem_of_nil.
Qed.

(** ** What an acknowledging subscriber gets *)

(** C6: at least once, and in order, for an acknowledging forwarder whose
    filter has room in its map. Whatever the rest of the node does in between,
    what it has sent for the first time, has queued and has not read yet is, in
    order, what it owes. All of what it sent went to the connection, in that order
    among its resends, and nothing else did. Each of these deliveries is
    acknowledged, or still pending for the sweep, or given up; and none is given
    up before it has been put on the connection more often than the configured
    number of resends. It owes its backlog and every new publish its filter
    matches, dead letters of its own included, until it falls further behind than
    its channel holds. That lag costs whatever it has not sent by then: from there
    it owes what it has sent, what the backlog it subscribes to again holds after
    the last message it sent, and every new publish after that (ADR-0024). *)
Theorem delivered_at_least_once (t t1 : Task) (h h1 : Hub) (a : Account) (timeout : Z) (n : nat) :
  BrokerSpec.wf (h_broker h) → Filter.wf (task_filter t) → sub_room (h_broker h) (task_filter t) →
  task_mode t = Acked (Redelivery.new timeout n) [] swept →
  start_task t h = Continues t1 h1 → rtc (account_step (task_out t)) (account_start t1 h1) a →
  ∃ p, pending_of (a_task a) = Some p
    ∧ (if recovering (a_task a) then a_sent a = a_due a
       else ∃ r unread, task_receiver (a_task a) = Some r ∧ queue (h_broker (a_hub a)) r = Some unread
              ∧ a_sent a ++ task_queue (a_task a) ++ unread = a_due a)
    ∧ a_sent a `sublist_of` a_out a ∧ (∀ e, e ∈ a_out a → e ∈ a_sent a)
    ∧ (∀ e, e ∈ a_sent a → id e ∈ a_acked a ∨ id e ∈ id <$> a_gone a ∨ is_Some (entries p !! id e))
    ∧ ∀ e, e ∈ a_gone a → n < sendings e (a_out a).
Proof.
  intros Hwf Hf Hroom Hm Hs Ha.
  assert (books n (task_filter t) (task_out t) a) as (p & acks & w & r & v & (Hmode & _ & _ & Hr & _ & _ & _ & Hq) & Hdue & Ht).
  { pose proof (account_start_books t t1 h h1 timeout n Hwf Hroom Hm Hs) as Hb. clear -Hb Ha Hf.
    induction Ha; eauto using account_step_books. }
  destruct Ht as (_ & _ & Hsub & Hin & _ & Hg & Hset). exists p. unfold pending_of. rewrite Hmode. split; [done|].
  split; [|split; [done|split; [|done]]].
  - destruct (recovering (a_task a)) eqn:Hre; [done|]. exists r, v. split; [by apply waiting|done].
  - intros e He. apply Hin, elem_of_app. by left.
Qed.
End acknowledged.

(** A subscription that acknowledges nothing, with one resend: [e] is delivered,
    resent, and given up. *)
Module SampleAccount.
Import SampleLine.

Definition forwarder : Task := spawn_ack_forwarder (Sample.filter (lit "a")) 0 10 1 (MkDeadLetterConfig (Sample.peer 9) None).
Definition started : Task * Hub := of_outcome (forwarder, hub) (start_task forwarder hub).
Definition published : Hub :=
  let x := exec op (h_broker started.2, h_chans started.2) in MkHub x.1 x.2 (h_ids started.2) (h_metrics started.2).

(** The steps of an account, with what they put on the channel. *)
Definition deliver (es : list Envelope) (a : Account) : Account :=
  let x := next (a_task a, a_hub a) in
  MkAccount x.2 x.1 (a_sent a ++ first_sent (a_task a)) (a_out a ++ es) (a_acked a) (a_gone a) (a_due a).
Definition tick (now : Z) (a : Account) : Account :=
  let x := of_outcome (a_task a, a_hub a) (task_step now BranchTick (a_task a) (a_hub a)) in
  MkAccount x.2 x.1 (a_sent a) (a_out a) (a_acked a) (a_gone a ++ given_up now (a_task a)) (a_due a).

Definition ticks (now : Z) (a : Account) : bool :=
  match task_step now BranchTick (a_task a) (a_hub a) with Continues _ _ => true | _ => false end.
Definition grew (es : list Envelope) (a : Account) : bool :=
  bool_decide (queued (h_chans (next (a_task a, a_hub a)).2) 0 = queued (h_chans (a_hub a)) 0 ++ es).

Definition unswept (a : Account) : bool := match given_up_on (sweeping_of (a_task a)) with [] => true | _ => false end.
Lemma deliver_step es a :
  goes (a_task a, a_hub a) = true → unswept a = true → grew es a = true → account_step 0 a (deliver es a).
Proof.
  destruct a as [h t s o k g u]. unfold goes, unswept, deliver, grew. cbn [a_hub a_task a_sent a_out a_acked a_gone a_due fst snd].
  intros [[Hl%negb_true_iff Hre%negb_true_iff]%andb_prop Hs]%andb_prop Hsw Hg%bool_decide_eq_true.
  eapply (AccDeliver 0 0); [done|done|by destruct (given_up_on (sweeping_of t))| |done]. unfold next.
  cbn [fst snd]. by destruct (task_step 0 BranchDeliver t h).
Qed.

Lemma tick_step now a : ticks now a = true → account_step 0 a (tick now a).
Proof.
  destruct a as [h t s o k g u]. unfold ticks, tick. cbn [a_hub a_task a_sent a_out a_acked a_gone a_due]. intros Hs.
  eapply (AccTick 0 now). by destruct (task_step now BranchTick t h).
Qed.

Definition start : Account := account_start started.1 started.2.
Definition owing : Account :=
  MkAccount published started.1 [] [] [] [] (task_queue started.1 ++ owes op started.2 (Some started.1)).
Definition first : Account := deliver [e] (deliver [] owing).
Definition again : Account := deliver [e] (tick 10 first).
Definition last : Account := tick 20 again.

Lemma reached : rtc (account_step 0) start last.
Proof.
  eapply rtc_l; [refine (AccOp 0 op started.2 published started.1 [] [] [] [] _ _ eq_refl); by intros x r _ _|].
  eapply rtc_l; [apply (deliver_step []); by vm_compute|]. eapply rtc_l; [apply (deliver_step [e]); by vm_compute|].
  eapply rtc_l; [apply (tick_step 10); by vm_compute|].
  eapply rtc_l; [apply (deliver_step [e]); by vm_compute|]. apply rtc_once, (tick_step 20). by vm_compute.
Qed.
End SampleAccount.
Import SampleLine.

Lemma delivered_at_least_once_witness :
  a_gone SampleAccount.last = [SampleLine.e] ∧ 1 < sendings SampleLine.e (a_out SampleAccount.last).
Proof.
  assert (a_gone SampleAccount.last = [SampleLine.e]) as Hg by (vm_compute; reflexivity). split; [exact Hg|].
  destruct SampleLine.laws as (Hwf & Hf & Hroom).
  destruct (delivered_at_least_once SampleAccount.forwarder SampleAccount.started.1 SampleLine.hub SampleAccount.started.2
    SampleAccount.last 10 1) as (p & _ & _ & _ & _ & _ & Hall); [done..| |].
  - exact SampleAccount.reached.
  - apply Hall. rewrite Hg. left.
Defined.
