(* ===== verification/Mesh.v ===== *)
(** * A mesh of nodes

    The nodes of a mesh, joined by the connections between them, run on the
    definitions of the node: a publish is a connection's handler, a copy goes
    from a broker to a connection by its forwarder's step, from the channel to
    the wire by the writer's, and from the wire to the next broker by that
    connection's [dispatch]. A [Wire] is one direction of a connection: what it
    carries is what the other end reads ([Writer.v]). The theorem is what the
    dedup window and the interest of the nodes are for: in a mesh of any shape a
    message reaches everything that can be reached, and goes round no cycle. *)

From S2P Require Import Prelude.
From S2P Require Import Text.
From S2P Require Import Topic.
From S2P Require Import Filter.
From S2P Require Import Runtime.
From S2P Require Import Message.
From S2P Require Import Interest.
From S2P Require Import SeenIds.
From S2P Require Import Groups.
From S2P Require Import TopicAcl.
From S2P Require Import MessageStore.
From S2P Require Import Broker.
From S2P Require Import BrokerSpec.
From S2P Require Import DeadLetter.
From S2P Require Import Forwarder.
From S2P Require Import Async.
From S2P Require Import Access.
From S2P Require Import World.
From S2P Require Import Connection.
From S2P Require Import ConnectionSpec.
From S2P Require Import Handlers.
From S2P Require Import Relay.

#[local] Open Scope nat_scope.

(** One direction of a connection: the node that writes it, the channel it is
    written from, the forwarders that feed it, and the node and connection that
    read it; a client's has no reader of ours. *)
Record Wire := MkWire {
  wire_src : nat;
  wire_out : nat;
  wire_feeds : list (nat * TopicFilter);
  wire_dst : option (nat * ConnectionContext);
}.

Definition relays (wr : Wire) : list Relay := (λ p, MkRelay p.1 p.2 (wire_out wr)) <$> wire_feeds wr.

(** What a wire has carried: what its reader has handled, and the rest. *)
Record Traffic := MkTraffic {
  delivered : list Envelope;
  transit : list Envelope;
}.

Section mesh.
Context `{Broadcast Envelope} `{Mpsc Envelope} `{MessageStore} `{Uuids} `{!MpscReceiver Envelope}.
Context `{!BroadcastLaws Envelope} `{!MpscLaws Envelope} `{!MpscReceiverLaws Envelope}.
Context (wires : list Wire) (t : Topic) (i : MessageId).
#[local] Abbreviation copies := (copies t i).
#[local] Abbreviation has_seen := (has_seen i).

Record Mesh := MkMesh {
  m_nodes : list World;
  m_traffic : list Traffic;
}.

(** ** The steps *)

Definition wires_of (n : nat) : list Wire := List.filter (λ wr, wire_src wr =? n) wires.
Definition node_relays (n : nat) : list Relay := wires_of n ≫= relays.
Definition node_outs (n : nat) : list nat := wire_out <$> wires_of n.

Definition set_node (n : nat) (w : World) (s : Mesh) : Mesh := MkMesh (<[n := w]> (m_nodes s)) (m_traffic s).
Definition set_wire (k : nat) (tr : Traffic) (s : Mesh) : Mesh := MkMesh (m_nodes s) (<[k := tr]> (m_traffic s)).

(** The envelope a connection dispatches. *)
Definition as_received (c : ConnectionContext) (e : Envelope) : Envelope :=
  MkEnvelope (version e) (id e) (authenticated_sender c (sender e)) (kind e).

(** Some connection's publish; a forwarder's step; a writer's; a message read
    from a wire; anything else that does not concern the message. The dedup
    windows do not overflow, nobody else uses the identifier, and no forwarder
    falls behind. *)
Inductive mesh_step : Mesh → Mesh → Prop :=
| MeshPublish s n w c e topic ok w' :
    m_nodes s !! n = Some w → publish_topic (kind e) = Some topic → unique t i e → uncrowded w →
    run (handle_publish c e) w = Some (ok, w') →
    mesh_step s (set_node n w' s)
| MeshForward s n w x :
    m_nodes s !! n = Some w → x ∈ node_relays n → lagging x w = false →
    mesh_step s (set_node n (run_task BranchDeliver (relay_task x) w).2 s)
| MeshWrite s k wr w e tr :
    wires !! k = Some wr → m_nodes s !! wire_src wr = Some w → m_traffic s !! k = Some tr →
    (take_out (wire_out wr) w).1 = Some e →
    mesh_step s (set_wire k (MkTraffic (delivered tr) (transit tr ++ [e])) (set_node (wire_src wr) (take_out (wire_out wr) w).2 s))
| MeshRead s k wr n c w e l d w' :
    wires !! k = Some wr → wire_dst wr = Some (n, c) → m_traffic s !! k = Some (MkTraffic d (e :: l)) →
    m_nodes s !! n = Some w → run (dispatch c (as_received c e)) w = Some ((c, true), w') →
    match publish_topic (kind e) with
    | Some _ => unique t i e ∧ uncrowded w
    | None => admits (node_relays n) (node_outs n) t i false w w'
    end →
    mesh_step s (set_wire k (MkTraffic (d ++ [e]) l) (set_node n w' s))
| MeshOther s n w w' :
    m_nodes s !! n = Some w → admits (node_relays n) (node_outs n) t i false w w' → mesh_step s (set_node n w' s).

Inductive mesh_steps : Mesh → Mesh → Prop :=
| MeshRefl s : mesh_steps s s
| MeshTrans s s' s'' : mesh_steps s s' → mesh_step s' s'' → mesh_steps s s''.

(** ** Counting *)

(** How many of the forwarders of the wire want the message. *)
Definition budget (wr : Wire) : nat := length (List.filter (λ p : nat * TopicFilter, matches p.2 t) (wire_feeds wr)).

(** The copies on their way to the wire, and those it has carried. *)
Definition waiting (wr : Wire) (w : World) : nat :=
  sum_list ((λ x, copies (pending x w)) <$> relays wr) + copies (queued (chans_of w) (wire_out wr)).
Definition load (tr : Traffic) : nat := copies (delivered tr) + copies (transit tr).

Definition due (wr : Wire) (w : World) : nat := if has_seen w then budget wr else 0.

(** The reader of a peer link takes the message. *)
Definition accepts (c : ConnectionContext) (w : World) : Prop :=
  is_peer c = true ∧ acl_permits (w_acls w) true (principal c) t TopicAcl.Publish = true.

(** The wires join nodes that are there; on one node, a channel and a task
    belong to one wire. *)
Definition wired (s : Mesh) : Prop :=
  length (m_traffic s) = length wires
  ∧ (∀ wr, wr ∈ wires → wire_src wr < length (m_nodes s) ∧ Forall (λ p, Filter.wf p.2) (wire_feeds wr)
       ∧ NoDup (wire_feeds wr).*1)
  ∧ ∀ k1 k2 wr1 wr2, wires !! k1 = Some wr1 → wires !! k2 = Some wr2 → wire_src wr1 = wire_src wr2 →
      (wire_out wr1 = wire_out wr2 → k1 = k2)
      ∧ ∀ h, h ∈ (wire_feeds wr1).*1 → h ∈ (wire_feeds wr2).*1 → k1 = k2.

Definition nodes_ok (s : Mesh) : Prop :=
  ∀ n w, m_nodes s !! n = Some w → node_ok (node_relays n) (node_outs n) w.

(** The invariant: every copy of a wire is somewhere on its way, all of them
    exist from when the wire's node takes the message, and who has read one has
    taken it. *)
Definition mesh_ok (s : Mesh) : Prop :=
  wired s ∧ nodes_ok s
  ∧ (∀ k wr tr w, wires !! k = Some wr → m_traffic s !! k = Some tr → m_nodes s !! wire_src wr = Some w →
       waiting wr w + load tr = due wr w)
  ∧ ∀ k wr tr n c w, wires !! k = Some wr → m_traffic s !! k = Some tr → wire_dst wr = Some (n, c) →
      m_nodes s !! n = Some w → accepts c w → copies (delivered tr) ≠ 0 → has_seen w = true.

(** ** The wires of a node *)

Lemma elem_of_wires_of n wr : wr ∈ wires_of n ↔ wr ∈ wires ∧ wire_src wr = n.
Proof. unfold wires_of. rewrite !list_elem_of_In, filter_In, Nat.eqb_eq. done. Qed.

Lemma elem_of_relays wr x : x ∈ relays wr ↔ relay_out x = wire_out wr ∧ (relay_task x, relay_filter x) ∈ wire_feeds wr.
Proof.
  unfold relays. rewrite list_elem_of_fmap. split.
  - intros ([h f] & -> & Hin). done.
  - intros [Ho Hin]. exists (relay_task x, relay_filter x). split; [|done]. destruct x. cbn in *. by rewrite Ho.
Qed.

Lemma elem_of_node_relays n x : x ∈ node_relays n ↔ ∃ k wr, wires !! k = Some wr ∧ wire_src wr = n ∧ x ∈ relays wr.
Proof.
  unfold node_relays. rewrite list_elem_of_bind. split.
  - intros (wr & Hx & [Hin Hn]%elem_of_wires_of). apply list_elem_of_lookup in Hin as [k Hk]. by exists k, wr.
  - intros (k & wr & Hk & Hn & Hx). exists wr. split; [done|]. apply elem_of_wires_of.
    split; [by eapply list_elem_of_lookup_2|done].
Qed.

Lemma relay_task_feeds wr x : x ∈ relays wr → relay_task x ∈ (wire_feeds wr).*1.
Proof. intros [_ Hin]%elem_of_relays. by apply (list_elem_of_fmap_2 fst _ _ Hin). Qed.

Lemma relays_same_task wr x y : NoDup (wire_feeds wr).*1 → x ∈ relays wr → y ∈ relays wr → relay_task x = relay_task y → x = y.
Proof.
  intros Hnd [Hox Hx]%elem_of_relays [Hoy Hy]%elem_of_relays Ht.
  assert (relay_filter x = relay_filter y) as Hf.
  { apply list_elem_of_lookup in Hx as [a Ha], Hy as [b Hb].
    assert (a = b) as ->.
    { eapply NoDup_lookup; [exact Hnd|by rewrite list_lookup_fmap, Ha|rewrite list_lookup_fmap, Hb; cbn; by rewrite Ht]. }
    congruence. }
  destruct x, y. cbn in *. congruence.
Qed.

Lemma node_relays_task s n x y :
  wired s → x ∈ node_relays n → y ∈ node_relays n → relay_task y = relay_task x → y = x.
Proof.
  intros (_ & Hw & Hd) (k1 & wr1 & Hk1 & Hn1 & Hx)%elem_of_node_relays (k2 & wr2 & Hk2 & Hn2 & Hy)%elem_of_node_relays Ht.
  destruct (Hd k1 k2 wr1 wr2 Hk1 Hk2) as [_ Hh]; [congruence|].
  pose proof (relay_task_feeds _ _ Hx) as Hfx. pose proof (relay_task_feeds _ _ Hy) as Hfy. rewrite Ht in Hfy.
  specialize (Hh _ Hfx Hfy) as ->. assert (wr1 = wr2) as -> by congruence.
  apply (relays_same_task wr2); [|done|done|done]. apply Hw. by eapply list_elem_of_lookup_2.
Qed.
Lemma relays_NoDup wr : NoDup (wire_feeds wr).*1 → NoDup (relays wr).
Proof.
  intros Hnd. apply NoDup_fmap_1 with (f := relay_task). unfold relays. by rewrite <-list_fmap_compose.
Qed.

Lemma relays_of_wire n k wr x : wires !! k = Some wr → wire_src wr = n → x ∈ relays wr → x ∈ node_relays n.
Proof. intros Hk Hn Hx. apply elem_of_node_relays. eauto. Qed.
Lemma out_of_wire n k wr : wires !! k = Some wr → wire_src wr = n → wire_out wr ∈ node_outs n.
Proof.
  intros Hk Hn. apply list_elem_of_fmap. exists wr. split; [done|]. apply elem_of_wires_of. split; [by eapply list_elem_of_lookup_2|done].
Qed.

Lemma budget_sum wr : budget wr = sum_list ((λ x, Nat.b2n (matches (relay_filter x) t)) <$> relays wr).
Proof.
  unfold budget, relays. rewrite <-list_fmap_compose. induction (wire_feeds wr) as [|[h f] l IH]; [done|]. cbn -[matches] in *.
  destruct (matches f t); cbn -[matches]; by rewrite IH.
Qed.

Lemma waiting_admits taken n k wr w w' :
  wires !! k = Some wr → wire_src wr = n → admits (node_relays n) (node_outs n) t i taken w w' →
  waiting wr w' = waiting wr w + (if taken then budget wr else 0).
Proof.
  intros Hk Hn (_ & Hx & Ho & _). unfold waiting. rewrite (Ho _ (out_of_wire n k wr Hk Hn)), budget_sum.
  assert (∀ l, (∀ x, x ∈ l → x ∈ relays wr) →
    sum_list ((λ x, copies (pending x w')) <$> l)
    = sum_list ((λ x, copies (pending x w)) <$> l)
      + (if taken then sum_list ((λ x, Nat.b2n (matches (relay_filter x) t)) <$> l) else 0)) as Hsum.
  { induction l as [|x l IH]; intros Hl; [by destruct taken|]. cbn -[matches].
    rewrite IH by (intros y Hy; apply Hl; by constructor).
    rewrite Hx by (eapply relays_of_wire; [done..|apply Hl; by constructor]). destruct taken; cbn -[matches]; lia. }
  rewrite Hsum by done. lia.
Qed.

(** One summand changes. *)
Lemma sum_list_one {A} (f f' : A → nat) (x : A) k l :
  NoDup l → x ∈ l → f x = f' x + k → (∀ y, y ∈ l → y ≠ x → f' y = f y) →
  sum_list (f <$> l) = sum_list (f' <$> l) + k.
Proof.
  induction l as [|y l IH]; [by intros _ ?%not_elem_of_nil|]. intros [Hy Hnd]%NoDup_cons Hx Hfx Hoth. cbn.
  apply elem_of_cons in Hx as [->|Hx].
  - assert (f <$> l = f' <$> l) as ->; [|lia]. apply list_fmap_ext. intros j z Hz. apply list_elem_of_lookup_2 in Hz.
    symmetry. apply Hoth; [by constructor|]. intros ->. done.
  - rewrite IH; [|done..|intros z Hz; apply Hoth; by constructor].
    rewrite Hoth; [lia|constructor|]. intros ->. done.
Qed.

Lemma waiting_moves s x j n k wr w w' :
  wired s → wires !! k = Some wr → wire_src wr = n → x ∈ node_relays n →
  moves (node_relays n) (node_outs n) t i x j w w' → waiting wr w' = waiting wr w.
Proof.
  intros Hw Hk Hn Hx (_ & Hpx & Hoth & Hq & _). unfold waiting. rewrite Hq.
  apply elem_of_node_relays in Hx as (k' & wr' & Hk' & Hn' & Hx). pose proof Hw as (_ & Hwf & Hd).
  destruct (Hd k k' wr wr' Hk Hk') as [Hout Htask]; [congruence|].
  destruct (decide (k = k')) as [<-|Hne].
  - assert (wr' = wr) as -> by congruence. pose proof (proj1 (elem_of_relays wr x) Hx) as [Ho _].
    rewrite decide_True by done.
    rewrite (sum_list_one (λ y, copies (pending y w)) (λ y, copies (pending y w')) x j (relays wr)); [lia| |done|done|].
    + apply relays_NoDup, Hwf. by eapply list_elem_of_lookup_2.
    + intros y Hy Hyx. rewrite Hoth; [done| |done]. by eapply relays_of_wire.
  - rewrite decide_False.
    2:{ intros Heq. apply Hne, Hout. apply elem_of_relays in Hx as [Ho _]. congruence. }
    rewrite Nat.add_0_r. f_equal. f_equal. apply list_fmap_ext. intros j' y Hy. apply list_elem_of_lookup_2 in Hy.
    rewrite Hoth; [done|by apply (relays_of_wire n k wr)|]. intros ->. by apply Hne, (Htask (relay_task x)); apply relay_task_feeds.
Qed.
(** ** The invariant *)

Lemma wired_same s s' :
  length (m_traffic s') = length (m_traffic s) → length (m_nodes s') = length (m_nodes s) → wired s → wired s'.
Proof. unfold wired. by intros -> ->. Qed.

(** One node goes on, and the traffic changes with it. *)
Lemma mesh_update s n w w' traffic' :
  mesh_ok s → m_nodes s !! n = Some w → stays (node_relays n) (node_outs n) w w' →
  length traffic' = length (m_traffic s) → (has_seen w = true → has_seen w' = true) →
  (∀ k wr tr tr', wires !! k = Some wr → m_traffic s !! k = Some tr → traffic' !! k = Some tr' →
     (if decide (wire_src wr = n) then waiting wr w' + load tr' + due wr w = waiting wr w + load tr + due wr w'
      else load tr' = load tr)
     ∧ (copies (delivered tr') = copies (delivered tr)
        ∨ ∃ c, wire_dst wr = Some (n, c) ∧ (accepts c w → copies (delivered tr') ≠ copies (delivered tr) → has_seen w' = true))) →
  mesh_ok (MkMesh (<[n := w']> (m_nodes s)) traffic').
Proof.
  intros (Hw & Hok & Hcount & Hread) Hn Hst Hlen Hmono Htr.
  assert (∀ m x, <[n := w']> (m_nodes s) !! m = Some x → m = n ∧ x = w' ∨ m ≠ n ∧ m_nodes s !! m = Some x) as Hnodes.
  { intros m x Hx. destruct (decide (m = n)) as [->|Hm].
    - rewrite list_lookup_insert_eq in Hx by by eapply lookup_lt_Some. injection Hx as <-. by left.
    - rewrite list_lookup_insert_ne in Hx by done. by right. }
  assert (∀ k tr', traffic' !! k = Some tr' → ∃ tr, m_traffic s !! k = Some tr) as Hold.
  { intros k tr' Hk. apply lookup_lt_is_Some. rewrite <-Hlen. by eapply lookup_lt_Some. }
  split; [|split; [|split]].
  - eapply wired_same; [exact Hlen|apply length_insert|exact Hw].
  - intros m x [[-> ->]|[Hm Hx]]%Hnodes; [|by apply Hok]. eapply stays_ok; [exact Hst|by apply Hok].
  - intros k wr tr' x Hk Hk' Hx. cbn [m_traffic m_nodes] in *. destruct (Hold k tr' Hk') as [tr Htk].
    destruct (Htr k wr tr tr' Hk Htk Hk') as [Hc _]. apply Hnodes in Hx as [[Hm ->]|[Hm Hx]].
    + rewrite decide_True in Hc by done. rewrite <-Hm in Hn. pose proof (Hcount k wr tr w Hk Htk Hn). lia.
    + rewrite decide_False in Hc by done. rewrite Hc. by eapply Hcount.
  - intros k wr tr' m c x Hk Hk' Hd Hx Ha Hne. cbn [m_traffic m_nodes] in *. destruct (Hold k tr' Hk') as [tr Htk].
    destruct (Htr k wr tr tr' Hk Htk Hk') as [_ Hr].
    assert (∀ v, m_nodes s !! m = Some v → accepts c v → copies (delivered tr) ≠ 0 → has_seen v = true) as Hbefore
      by (intros v Hv Hav Hcv; by apply (Hread k wr tr m c v)).
    apply Hnodes in Hx as [[-> ->]|[Hm Hx]].
    + assert (accepts c w) as Haw by (destruct Hst as (_ & Hacl & _); unfold accepts in *; by rewrite Hacl in Ha).
      destruct (decide (copies (delivered tr') = copies (delivered tr))) as [Heq|Hneq].
      * apply Hmono, Hbefore; [done..|lia].
      * destruct Hr as [?|(c' & Hd' & Hs)]; [done|]. rewrite Hd in Hd'. injection Hd' as <-. by apply Hs.
    + destruct Hr as [Heq|(c' & Hd' & _)]; [|rewrite Hd in Hd'; congruence]. apply Hbefore; [done..|lia].
Qed.

(** One wire's traffic. *)
Lemma lookup_set_wire k tr (l : list Traffic) k' tr0 tr' :
  l !! k' = Some tr0 → <[k := tr]> l !! k' = Some tr' → k' = k ∧ tr' = tr ∨ k' ≠ k ∧ tr' = tr0.
Proof.
  intros Hl Hk. destruct (decide (k' = k)) as [->|Hne].
  - rewrite list_lookup_insert_eq in Hk by by eapply lookup_lt_Some. left. by injection Hk.
  - rewrite list_lookup_insert_ne in Hk by done. right. split; [done|congruence].
Qed.

Lemma copies_received c e : is_copy t i (as_received c e) = is_copy t i e.
Proof. done. Qed.

Lemma node_feeds_wf s n x : wired s → x ∈ node_relays n → Filter.wf (relay_filter x).
Proof.
  intros (_ & Hw & _) (k & wr & Hk & _ & [_ Hx]%elem_of_relays)%elem_of_node_relays.
  destruct (Hw wr) as (_ & Hf & _); [by eapply list_elem_of_lookup_2|]. rewrite Forall_forall in Hf. by apply (Hf _ Hx).
Qed.

(** A node's own step: the message taken or not, or a relay's move. *)
Lemma node_step_ok s n w w' :
  mesh_ok s → m_nodes s !! n = Some w → stays (node_relays n) (node_outs n) w w' → (has_seen w = true → has_seen w' = true) →
  (∀ k wr, wires !! k = Some wr → wire_src wr = n → waiting wr w' + due wr w = waiting wr w + due wr w') →
  mesh_ok (set_node n w' s).
Proof.
  intros Hok Hn Hst Hmono Hwait. apply (mesh_update s n w w' (m_traffic s) Hok Hn Hst eq_refl Hmono).
  intros k wr tr tr' Hk Htr Htr'. assert (tr' = tr) as -> by congruence. split; [|by left].
  destruct (decide _) as [Hs|]; [|done]. pose proof (Hwait k wr Hk Hs). lia.
Qed.

Lemma admits_ok s n w w' taken :
  mesh_ok s → m_nodes s !! n = Some w → admits (node_relays n) (node_outs n) t i taken w w' → mesh_ok (set_node n w' s).
Proof.
  intros Hok Hn Ha. pose proof Ha as (Hst & _ & _ & Hseen & Hnew).
  apply (node_step_ok s n w w' Hok Hn Hst); [by rewrite Hseen; intros ->|]. intros k wr Hk Hs.
  rewrite (waiting_admits taken n k wr w w' Hk Hs Ha). unfold due. rewrite Hseen. destruct taken; [|rewrite orb_false_r; lia].
  rewrite (Hnew eq_refl). cbn. lia.
Qed.

Lemma moves_ok s n w w' x j :
  mesh_ok s → m_nodes s !! n = Some w → x ∈ node_relays n →
  moves (node_relays n) (node_outs n) t i x j w w' → mesh_ok (set_node n w' s).
Proof.
  intros Hok Hn Hx Hm. pose proof Hm as (Hst & _ & _ & _ & Hseen). pose proof Hok as (Hw & _).
  apply (node_step_ok s n w w' Hok Hn Hst); [by rewrite Hseen|]. intros k wr Hk Hs.
  rewrite (waiting_moves s x j n k wr w w' Hw Hk Hs Hx Hm). unfold due. by rewrite Hseen.
Qed.

Lemma write_ok s k wr w e tr :
  mesh_ok s → wires !! k = Some wr → m_nodes s !! wire_src wr = Some w → m_traffic s !! k = Some tr →
  (take_out (wire_out wr) w).1 = Some e →
  mesh_ok (set_wire k (MkTraffic (delivered tr) (transit tr ++ [e])) (set_node (wire_src wr) (take_out (wire_out wr) w).2 s)).
Proof.
  intros Hok Hk Hn Htr He. pose proof Hok as ((_ & _ & Hd) & Hnok & _). destruct (Hnok _ _ Hn) as [Hwf _].
  destruct (take_out_spec (node_relays (wire_src wr)) (node_outs (wire_src wr)) t i (wire_out wr) e w Hwf He)
    as (Hst & Hp & Hs & Hq).
  set (w' := (take_out (wire_out wr) w).2) in *. apply (mesh_update s _ w w' _ Hok Hn Hst); [apply length_insert|by rewrite Hs|].
  intros k' wr' tr0 tr' Hk' Htr0 [[-> ->]|[Hne ->]]%(lookup_set_wire _ _ _ _ _ _ Htr0).
  - assert (wr' = wr) as -> by congruence. assert (tr0 = tr) as -> by congruence. split; [|by left].
    rewrite decide_True by done. unfold waiting, due, load. rewrite Hs, (Hq (wire_out wr)), decide_True by done. cbn [delivered transit].
    rewrite (copies_app t i (transit tr)), copies_one.
    assert ((λ x, copies (pending x w')) <$> relays wr = (λ x, copies (pending x w)) <$> relays wr) as ->; [|lia].
    apply list_fmap_ext. intros j y _. by rewrite Hp.
  - split; [|by left]. destruct (decide _) as [Hsrc|]; [|done]. unfold waiting, due. rewrite Hs, (Hq (wire_out wr')), decide_False.
    2:{ intros Heq. apply Hne. by apply (Hd k' k wr' wr). }
    assert ((λ x, copies (pending x w')) <$> relays wr' = (λ x, copies (pending x w)) <$> relays wr') as ->; [|lia].
    apply list_fmap_ext. intros j y _. by rewrite Hp.
Qed.

(** The wire's next message has been handled by its reader. *)
Lemma handled_ok s k wr n c w e l d :
  mesh_ok s → wires !! k = Some wr → wire_dst wr = Some (n, c) → m_nodes s !! n = Some w →
  m_traffic s !! k = Some (MkTraffic d (e :: l)) → (is_copy t i e = true → accepts c w → has_seen w = true) →
  mesh_ok (set_wire k (MkTraffic (d ++ [e]) l) s).
Proof.
  intros Hok Hk Hd Hn Htr Hs. pose proof Hok as (_ & Hnok & _). destruct (Hnok _ _ Hn) as [Hwf _].
  replace (set_wire k (MkTraffic (d ++ [e]) l) s) with (MkMesh (<[n := w]> (m_nodes s)) (<[k := MkTraffic (d ++ [e]) l]> (m_traffic s)))
    by (unfold set_wire; by rewrite list_insert_id).
  apply (mesh_update s n w w _ Hok Hn); [by apply stays_refl|apply length_insert|done|].
  intros k' wr' tr0 tr' Hk' Htr0 [[-> ->]|[Hne ->]]%(lookup_set_wire _ _ _ _ _ _ Htr0); [|split; [by destruct (decide _)|by left]].
  assert (wr' = wr) as -> by congruence. assert (tr0 = MkTraffic d (e :: l)) as -> by congruence.
  assert (load (MkTraffic (d ++ [e]) l) = load (MkTraffic d (e :: l))) as Hload.
  { unfold load. cbn [delivered transit]. rewrite copies_app, <-Nat.add_assoc. f_equal. symmetry. apply (copies_app t i [e] l). }
  split; [rewrite Hload; by destruct (decide _)|]. cbn [delivered]. rewrite copies_app, copies_one.
  destruct (is_copy t i e) eqn:He; [|left; apply Nat.add_0_r]. right. exists c. eauto.
Qed.

Lemma mesh_step_ok s s' : mesh_step s s' → mesh_ok s → mesh_ok s'.
Proof.
  intros Hstep Hok. pose proof Hok as (Hw & Hnok & _). destruct Hstep as [s n w c e topic ok w' Hn Hk Hu Hun Hr|s n w x Hn Hx Hlag|s k wr w e tr Hk Hn Htr He
    |s k wr n c w e l d w' Hk Hd Htr Hn Hr Hcase|s n w w' Hn Ha].
  - destruct (publish_admits (node_relays n) (node_outs n) t i c e topic ok w w') as (taken & Ha & _); try done.
    + intros x Hx. by eapply node_feeds_wf.
    + by apply Hnok.
    + by eapply admits_ok.
  - destruct (relay_step (node_relays n) (node_outs n) t i x w) as [j Hm]; try done.
    + intros y Hy Ht. by eapply node_relays_task.
    + apply elem_of_node_relays in Hx as (k & wr & Hk & Hs & [-> _]%elem_of_relays). by eapply out_of_wire.
    + by apply Hnok.
    + by eapply moves_ok.
  - by eapply write_ok.
  - assert (∃ taken, admits (node_relays n) (node_outs n) t i taken w w'
      ∧ (is_copy t i e = true → accepts c w → has_seen w' = true)) as (taken & Ha & Hs).
    { destruct (publish_topic (kind e)) as [topic|] eqn:Hpub.
      - destruct Hcase as [Hu Hun].
        assert (run (handle_publish c (as_received c e)) w = Some (true, w')) as Hrp.
        { unfold dispatch in Hr. cbn [kind as_received] in Hr. destruct (kind e); try discriminate Hpub.
          rewrite run_bind in Hr. destruct (run (handle_publish c (as_received c e)) w) as [[ok v]|]; [|done].
          cbn in Hr. by injection Hr as -> ->. }
        destruct (publish_admits (node_relays n) (node_outs n) t i c (as_received c e) topic true w w') as (taken & Ha & Hs); try done.
        { intros x Hx. by eapply node_feeds_wf. }
        { by apply Hnok. }
        exists taken. split; [done|]. intros Hc [Hp Hacl]. apply Hs; [done|]. apply verdict_peer; [done|].
        unfold is_copy in Hc. apply andb_true_iff in Hc as [_ Hc%bool_decide_eq_true]. rewrite Hpub in Hc. by injection Hc as ->.
      - exists false. split; [done|]. unfold is_copy. rewrite Hpub, andb_false_r. done. }
    assert (m_nodes (set_node n w' s) !! n = Some w') as Hn' by (cbn; by rewrite list_lookup_insert_eq by by eapply lookup_lt_Some).
    eapply (handled_ok (set_node n w' s) k wr n c w'); [by eapply admits_ok|done..|].
    intros Hc [Hp Hacl]. apply Hs; [done|]. split; [done|]. destruct Ha as ((_ & <- & _) & _). done.
  - by eapply admits_ok.
Qed.

(** ** What a mesh delivers *)

(** The message is new to everybody. *)
Definition mesh_start (s : Mesh) : Prop :=
  wired s ∧ nodes_ok s ∧ (∀ n w, m_nodes s !! n = Some w → has_seen w = false)
  ∧ ∀ k wr tr w, wires !! k = Some wr → m_traffic s !! k = Some tr → m_nodes s !! wire_src wr = Some w →
      waiting wr w = 0 ∧ load tr = 0.

(** No copy is on its way. *)
Definition settled (s : Mesh) : Prop :=
  ∀ k wr tr w, wires !! k = Some wr → m_traffic s !! k = Some tr → m_nodes s !! wire_src wr = Some w →
    waiting wr w = 0 ∧ (wire_dst wr ≠ None → copies (transit tr) = 0).

Definition knows (s : Mesh) (n : nat) : Prop := ∃ w, m_nodes s !! n = Some w ∧ has_seen w = true.

(** [n] forwards the message to [n'], which takes it. *)
Definition link (s : Mesh) (n n' : nat) : Prop :=
  ∃ k wr c w', wires !! k = Some wr ∧ wire_src wr = n ∧ wire_dst wr = Some (n', c) ∧ budget wr ≠ 0
    ∧ m_nodes s !! n' = Some w' ∧ accepts c w'.

Lemma mesh_start_ok s : mesh_start s → mesh_ok s.
Proof.
  intros (Hw & Hnok & Hs & Hz). split; [done|]. split; [done|]. split.
  - intros k wr tr w Hk Htr Hn. destruct (Hz k wr tr w Hk Htr Hn) as [-> ->]. unfold due. by rewrite (Hs _ _ Hn).
  - intros k wr tr n c w Hk Htr Hd Hn Ha Hne. exfalso. apply Hne. destruct Hw as (_ & Hlt & _).
    destruct (lookup_lt_is_Some_2 (m_nodes s) (wire_src wr)) as [v Hv]; [by apply Hlt; eapply list_elem_of_lookup_2|].
    destruct (Hz k wr tr v Hk Htr Hv) as [_ Hl]. unfold load in Hl. lia.
Qed.

Lemma mesh_steps_ok s s' : mesh_steps s s' → mesh_ok s → mesh_ok s'.
Proof. induction 1; eauto using mesh_step_ok. Qed.

(** C8: what the mesh does with a message, whatever the shape of the mesh and
    however its nodes, forwarders and writers interleave. Each direction of a
    connection carries at most one copy for each of its forwarders that wants
    the message, and none before its node has the message: a cycle circulates
    nothing. Once no copy is on its way, a direction whose node has the message
    has carried exactly those copies, so a client with one matching
    subscription got it once; and everybody has it who can be reached from a
    node that has it along links whose interest matches and whose reader
    permits it. *)
Theorem mesh_delivers_once (s0 s : Mesh) :
  mesh_start s0 → mesh_steps s0 s →
  (∀ k wr tr w, wires !! k = Some wr → m_traffic s !! k = Some tr → m_nodes s !! wire_src wr = Some w →
     load tr ≤ budget wr ∧ (has_seen w = false → load tr = 0)
     ∧ (settled s → has_seen w = true → load tr = budget wr))
  ∧ (settled s → ∀ n n', rtc (link s) n n' → knows s n → knows s n').
Proof.
  intros Hs0 Hsteps. destruct (mesh_steps_ok _ _ Hsteps (mesh_start_ok _ Hs0)) as (Hw & _ & Hcount & Hread). split.
  - intros k wr tr w Hk Htr Hn. pose proof (Hcount k wr tr w Hk Htr Hn) as Hc. unfold due in Hc.
    split; [destruct (has_seen w); lia|]. split; [intros Hs; rewrite Hs in Hc; lia|].
    intros Hset Hs. destruct (Hset k wr tr w Hk Htr Hn) as [Hz _]. rewrite Hs in Hc. lia.
  - intros Hset n n' Hrtc. induction Hrtc as [|n n1 n' (k & wr & c & w1 & Hk & Hsrc & Hd & Hb & Hn1 & Ha) _ IH]; [done|].
    intros (w & Hn & Hs). apply IH. exists w1. split; [done|].
    destruct (lookup_lt_is_Some_2 (m_traffic s) k) as [tr Htr].
    { destruct Hw as (-> & _). by eapply lookup_lt_Some. }
    rewrite <-Hsrc in Hn. destruct (Hset k wr tr w Hk Htr Hn) as [Hz Ht]. specialize (Ht ltac:(congruence)).
    apply (Hread k wr tr n1 c w1 Hk Htr Hd Hn1 Ha). pose proof (Hcount k wr tr w Hk Htr Hn) as Hc.
    unfold due, load in Hc. rewrite Hs in Hc. lia.
Qed.

(** ** A scheduler *)

Inductive Action : Type :=
| ActPublish (n : nat) (c : ConnectionContext) (e : Envelope)
| ActForward (n : nat) (x : Relay)
| ActWrite (k : nat)
| ActRead (k : nat).

Definition publishes (e : Envelope) : bool := bool_decide (publish_topic (kind e) = Some t).
Definition has_room (w : World) : bool :=
  length (SeenIds.order (b_seen (broker_of w))) <? SeenIds.capacity (b_seen (broker_of w)).

(** An action that cannot be taken is passed over. *)
Definition act (a : Action) (s : Mesh) : Mesh :=
  match a with
  | ActPublish n c e =>
      match m_nodes s !! n with
      | Some w =>
          match run (handle_publish c e) w with
          | Some (_, w') => if publishes e && has_room w then set_node n w' s else s
          | None => s
          end
      | None => s
      end
  | ActForward n x =>
      match m_nodes s !! n with
      | Some w =>
          if bool_decide (x ∈ node_relays n) && negb (lagging x w)
          then set_node n (run_task BranchDeliver (relay_task x) w).2 s else s
      | None => s
      end
  | ActWrite k =>
      match wires !! k, m_traffic s !! k with
      | Some wr, Some tr =>
          match m_nodes s !! wire_src wr with
          | Some w =>
              match (take_out (wire_out wr) w).1 with
              | Some e => set_wire k (MkTraffic (delivered tr) (transit tr ++ [e])) (set_node (wire_src wr) (take_out (wire_out wr) w).2 s)
              | None => s
              end
          | None => s
          end
      | _, _ => s
      end
  | ActRead k =>
      match wires !! k, m_traffic s !! k with
      | Some wr, Some (MkTraffic d (e :: l)) =>
          match wire_dst wr with
          | Some (n, c) =>
              match m_nodes s !! n with
              | Some w =>
                  match run (handle_publish c (as_received c e)) w with
                  | Some (true, w') =>
                      if publishes e && has_room w then set_wire k (MkTraffic (d ++ [e]) l) (set_node n w' s) else s
                  | _ => s
                  end
              | None => s
              end
          | None => s
          end
      | _, _ => s
      end
  end.

Lemma publishes_unique e : publishes e = true → publish_topic (kind e) = Some t ∧ unique t i e.
Proof. intros He%bool_decide_eq_true. split; [done|]. intros t' Ht' _. congruence. Qed.

Lemma has_room_uncrowded w : has_room w = true → uncrowded w.
Proof. apply Nat.ltb_lt. Qed.

Lemma act_steps a s : mesh_steps s (act a s).
Proof.
  assert (∀ s', mesh_step s s' → mesh_steps s s') as Hone by (intros s' Hs; eapply MeshTrans; [apply MeshRefl|done]).
  destruct a as [n c e|n x|k|k]; cbn [act].
  - destruct (m_nodes s !! n) as [w|] eqn:Hn; [|apply MeshRefl]. destruct (run _ w) as [[ok w']|] eqn:Hr; [|apply MeshRefl].
    destruct (publishes e && has_room w) eqn:Hb; [|apply MeshRefl]. apply Hone.
    apply andb_true_iff in Hb as [[Ht Hu]%publishes_unique Hroom%has_room_uncrowded]. by eapply MeshPublish.
  - destruct (m_nodes s !! n) as [w|] eqn:Hn; [|apply MeshRefl]. destruct (_ && _) eqn:Hb; [|apply MeshRefl]. apply Hone.
    apply andb_true_iff in Hb as [Hx%bool_decide_eq_true Hl%negb_true_iff]. by apply MeshForward.
  - destruct (wires !! k) as [wr|] eqn:Hk; [|apply MeshRefl]. destruct (m_traffic s !! k) as [tr|] eqn:Htr; [|apply MeshRefl].
    destruct (m_nodes s !! wire_src wr) as [w|] eqn:Hn; [|apply MeshRefl]. destruct (take_out _ w).1 as [e|] eqn:He; [|apply MeshRefl].
    apply Hone. by eapply MeshWrite.
  - destruct (wires !! k) as [wr|] eqn:Hk; [|apply MeshRefl]. destruct (m_traffic s !! k) as [[d [|e l]]|] eqn:Htr; [apply MeshRefl| |apply MeshRefl].
    destruct (wire_dst wr) as [[n c]|] eqn:Hd; [|apply MeshRefl]. destruct (m_nodes s !! n) as [w|] eqn:Hn; [|apply MeshRefl].
    destruct (run _ w) as [[[|] w']|] eqn:Hr; [|apply MeshRefl..]. destruct (publishes e && has_room w) eqn:Hb; [|apply MeshRefl]. apply Hone.
    apply andb_true_iff in Hb as [[Ht Hu]%publishes_unique Hroom%has_room_uncrowded].
    eapply MeshRead; [done..| |by rewrite Ht]. unfold dispatch. cbn [kind as_received].
    destruct (kind e) eqn:Hke; try discriminate Ht. by rewrite run_bind, Hr.
Qed.

Lemma acts_steps l s : mesh_steps s (fold_left (λ s a, act a s) l s).
Proof.
  assert (∀ s1 s2 s3, mesh_steps s1 s2 → mesh_steps s2 s3 → mesh_steps s1 s3) as Htrans.
  { intros s1 s2 s3 H12 H23. revert H12. induction H23; [done|]. intros H12. eapply MeshTrans; [by apply IHmesh_steps|done]. }
  revert s; induction l as [|a l IH]; intros s; [apply MeshRefl|]. cbn. eapply Htrans; [apply act_steps|apply IH].
Qed.
End mesh.

(** Three nodes, each linked to both others and to a client; every connection
    has subscribed to [a] everywhere. *)
Module SampleMesh.
Export SampleNode.
#[export] Instance sample_broadcast_laws : BroadcastLaws Envelope := Reference.ref_broadcast_laws Envelope.
#[export] Instance sample_mpsc_laws : MpscLaws Envelope := Reference.ref_mpsc_laws Envelope.
#[export] Instance sample_receiver : MpscReceiver Envelope := Reference.ref_mpsc_receiver Envelope.
#[export] Instance sample_receiver_laws : MpscReceiverLaws Envelope := Reference.ref_mpsc_receiver_laws Envelope.

Definition config : DeadLetterConfig := MkDeadLetterConfig (Sample.peer 9) None.
(** Channels and tasks 0 and 1 are the links', 2 is the client's. *)
Definition spawned : World :=
  set_tasks ((λ out, Some (spawn_forwarder filter out config)) <$> [0; 1; 2]) world.
Definition node_world : World := fold_left (λ w h, (run_task BranchDeliver h w).2) [0; 1; 2] spawned.

Definition reader (out : nat) : ConnectionContext :=
  MkContext 0 out out out (Some (Sample.peer 1)) None Anonymous None out.
Definition wire (k : nat) : Wire :=
  MkWire (k / 3) (k mod 3) [(k mod 3, filter)]
    (if k mod 3 =? 2 then None else Some ((k / 3 + k mod 3 + 1) mod 3, reader (k mod 3))).
Definition wires : list Wire := wire <$> seq 0 9.
Definition start : Mesh := MkMesh (replicate 3 node_world) (replicate 9 (MkTraffic [] [])).

Definition client : ConnectionContext := MkContext 0 2 2 2 None None Anonymous None 2.
Definition message : Envelope := Sample.publish 3 (lit "a") [7%Z] false.
Definition topic : Topic := Sample.topic (lit "a").
(** Every forwarder twice, every writer, every reader. *)
Definition round : list Action :=
  (n ← [0; 1; 2]; x ← node_relays wires n; [ActForward n x; ActForward n x]) ++ (ActWrite <$> seq 0 9) ++ (ActRead <$> seq 0 9).
Definition final : Mesh := fold_left (λ s a, act wires topic a s) (ActPublish 0 client message :: round ++ round) start.

Definition receivers : list Receiver := [(0, 0); (0, 1); (0, 2)].
Definition three : list Relay := [MkRelay 0 filter 0; MkRelay 1 filter 1; MkRelay 2 filter 2].

Lemma node_world_broker :
  broker_of node_world = (Broker.subscribe filter (Broker.subscribe filter (Broker.subscribe filter Broker.new).2).2).2.
Proof. vm_cast_no_check (eq_refl (broker_of node_world)). Qed.

Lemma node_world_running j x r : three !! j = Some x → receivers !! j = Some r → running x r node_world.
Proof.
  intros Hx Hr. apply is_running_running. destruct j as [|[|[|j]]]; [..|done]; injection Hx as <-; injection Hr as <-;
    by vm_compute.
Qed.

Lemma node_relays_three n : n < 3 → node_relays wires n = three ∧ node_outs wires n = [0; 1; 2].
Proof. intros Hn. destruct n as [|[|[|n]]]; [done..|lia]. Qed.

Lemma node_world_ok : node_ok three [0; 1; 2] node_world.
Proof.
  split; [|split; [|split]].
  - rewrite node_world_broker. apply broker_subscribe_wf, broker_subscribe_wf, broker_subscribe_wf, broker_wf_new.
  - intros c Hc. split.
    + assert (forallb (λ c, negb (is_closed (chans_of node_world) c)) [0; 1; 2] = true) as Hall by by vm_compute.
      rewrite forallb_forall in Hall. apply list_elem_of_In in Hc. by apply negb_true_iff, Hall.
    + assert (b_groups (broker_of node_world) = ∅) as Hg by by vm_compute.
      intros k m. rewrite Hg. intros Hm. change ((∅ : gmap GroupKey GroupMembers) !! k = Some m) in Hm. by rewrite lookup_empty in Hm.
  - intros x [j Hx]%list_elem_of_lookup. destruct (receivers !! j) as [r|] eqn:Hr.
    + exists r. by eapply node_world_running.
    + apply lookup_ge_None in Hr. apply lookup_lt_Some in Hx. cbn in *. lia.
  - intros x y r [j Hx]%list_elem_of_lookup [k Hy]%list_elem_of_lookup Hrx Hry.
    destruct (receivers !! j) as [rx|] eqn:Hj; [|apply lookup_ge_None in Hj; apply lookup_lt_Some in Hx; cbn in *; lia].
    destruct (receivers !! k) as [ry|] eqn:Hk; [|apply lookup_ge_None in Hk; apply lookup_lt_Some in Hy; cbn in *; lia].
    rewrite (running_det x rx r _ (node_world_running j x rx Hx Hj) Hrx) in Hj.
    rewrite (running_det y ry r _ (node_world_running k y ry Hy Hk) Hry) in Hk.
    assert (j = k) as ->; [|congruence]. refine (NoDup_lookup receivers j k r _ Hj Hk). by apply (bool_decide_unpack (NoDup receivers)).
Qed.

Lemma wire_of k wr : wires !! k = Some wr → k < 9 ∧ wr = wire k.
Proof.
  unfold wires. rewrite list_lookup_fmap. intros (j & [-> Hj]%lookup_seq & ->)%fmap_Some. done.
Qed.

Lemma start_wired : wired wires start.
Proof.
  split; [done|]. split.
  - intros wr [k [Hk ->]%wire_of]%list_elem_of_lookup. cbn [wire wire_src wire_feeds].
    split; [change (k / 3 < 3); apply Nat.Div0.div_lt_upper_bound; lia|]. split; [constructor; [|constructor]|apply NoDup_singleton].
    by apply (filter_from_str_ok (lit "a")).
  - intros k1 k2 wr1 wr2 [_ ->]%wire_of [_ ->]%wire_of Hs. cbn [wire wire_src wire_out wire_feeds fmap list_fmap fst] in *.
    assert (k1 mod 3 = k2 mod 3 → k1 = k2) as Hinj by (intros Hm; rewrite (Nat.div_mod_eq k1 3), (Nat.div_mod_eq k2 3); congruence).
    split; [exact Hinj|]. intros h ->%list_elem_of_singleton Hh%list_elem_of_singleton. by apply Hinj.
Qed.

Lemma start_ok : mesh_start wires topic (id message) start.
Proof.
  assert (∀ n w, m_nodes start !! n = Some w → n < 3 ∧ w = node_world) as Hn.
  { intros n w [-> Hlt]%lookup_replicate. done. }
  split; [apply start_wired|]. split; [|split].
  - intros n w [Hlt ->]%Hn. destruct (node_relays_three n Hlt) as [-> ->]. apply node_world_ok.
  - intros n w [_ ->]%Hn. by vm_compute.
  - intros k wr tr w [Hk ->]%wire_of [-> _]%lookup_replicate [_ ->]%Hn. split; [|done].
    assert (forallb (λ k, waiting topic (id message) (wire k) node_world =? 0) (seq 0 9) = true) as Hall by by vm_compute.
    rewrite forallb_forall in Hall. apply Nat.eqb_eq, Hall, in_seq. lia.
Qed.
Lemma final_settled : settled wires topic (id message) final.
Proof.
  assert (forallb (λ k, match m_traffic final !! k, m_nodes final !! (k / 3) with
    | Some tr, Some w => (waiting topic (id message) (wire k) w =? 0) && ((k mod 3 =? 2) || (copies topic (id message) (transit tr) =? 0))
    | _, _ => false end) (seq 0 9) = true) as Hall by by vm_compute.
  rewrite forallb_forall in Hall. intros k wr tr w [Hk ->]%wire_of Htr Hw. specialize (Hall k (proj2 (in_seq 9 0 k) ltac:(lia))).
  cbn [wire wire_src] in Hw. rewrite Htr, Hw in Hall. apply andb_true_iff in Hall as [Hz%Nat.eqb_eq Ht]. split; [done|].
  clear Htr Hw Hz. cbn [wire wire_dst]. destruct (k mod 3 =? 2); intros Hd; [by destruct Hd|]. exact (proj1 (Nat.eqb_eq _ _) Ht).
Qed.

Lemma final_seen w : w ∈ m_nodes final → has_seen (id message) w = true.
Proof.
  assert (forallb (has_seen (id message)) (m_nodes final) = true) as Hall by by vm_compute.
  rewrite forallb_forall in Hall. intros Hw%list_elem_of_In. by apply Hall.
Qed.
End SampleMesh.

Import SampleMesh.

(** The nine directions and three nodes: a publish on node 0, and everything
    runs until nothing moves. The direct links and the long way round carry
    one copy each, and each client gets one. *)
Lemma mesh_delivers_once_witness :
  length (m_traffic final) = 9 ∧ ∀ k tr, m_traffic final !! k = Some tr → load topic (id message) tr = 1.
Proof.
  assert (length (m_traffic final) = 9) as Hl by by vm_compute. split; [exact Hl|].
  destruct (mesh_delivers_once wires topic (id message) start final start_ok (acts_steps wires topic (id message) _ _)) as [Hload _].
  intros k tr Htr. pose proof (lookup_lt_Some _ _ _ Htr) as Hk.
  destruct (lookup_lt_is_Some_2 (m_nodes final) (k / 3)) as [w Hw].
  { assert (length (m_nodes final) = 3) as -> by by vm_compute. apply Nat.Div0.div_lt_upper_bound. lia. }
  assert (wires !! k = Some (wire k)) as Hwk by (unfold wires; rewrite list_lookup_fmap, lookup_seq_lt by lia; done).
  destruct (Hload k (wire k) tr w Hwk Htr Hw) as (_ & _ & Hd). rewrite Hd; [|apply final_settled|].
  - unfold budget. cbn [wire wire_feeds List.filter snd]. by replace (matches filter topic) with true by by vm_compute.
  - apply final_seen. by eapply list_elem_of_lookup_2.
Defined.

(** Two linked nodes hold each other's interest up. A client of [b] subscribes,
    [b] tells [a], which is interested now and tells all its links, [b] among
    them; when the client unsubscribes, [b] is still interested on behalf of
    [a], and says nothing. *)
Module MutualInterest.
Definition hello : Envelope := request 7 (Hello None).
(** A node with a link on channel 0 and a client on channel 1. *)
Definition joined : option (ConnectionContext * ConnectionContext * World) :=
  let '(c, w) := open_context None 0 world in
  r ← run (handle_hello c hello None) w;
  let '(client, w) := open_context None 1 r.2 in
  Some (r.1.1, client, w).

Definition said (w : World) : list Envelope := queued (chans_of w) 0.
Definition got (c : ConnectionContext) (e : Envelope) (w : World) : option World := snd <$> run (dispatch c e) w.
Definition told (c : ConnectionContext) (from : World) (w : World) : option World := e ← last (said from); got c e w.

Definition story : option (World * World * World * ConnectionContext) :=
  '(ca, _, a0) ← joined;
  '(cb, client, b0) ← joined;
  b1 ← got client (request 1 (Message.Subscribe filter false None false)) b0;
  a1 ← told ca b1 a0;
  b2 ← told cb a1 b1;
  b3 ← got client (request 2 (Message.Unsubscribe filter)) b2;
  Some (a1, b2, b3, client).
End MutualInterest.

Example mutual_interest_survives :
  match MutualInterest.story with
  | Some (a, before, b, client) =>
      forwarders_of (forwarders client) b = ∅ ∧ MutualInterest.said b = MutualInterest.said before
      ∧ is_interested (w_interest a) filter = true ∧ is_interested (w_interest b) filter = true
  | None => False
  end.
Proof. vm_compute. done. Qed.
