(* ===== verification/Gossip.v ===== *)
(** * Learning about peers from a link ([learn_peers] of
      [thoth-mesh-node/src/connection.rs])

    An announcement is recorded, dialed and passed on once: told a second time
    it changes nothing but the directory's order, so gossip dies out. *)

From S2P Require Import Prelude.
From S2P Require Import Text.
From S2P Require Import Runtime.
From S2P Require Import Message.
From S2P Require Import PeerDirectory.
From S2P Require Import MessageStore.
From S2P Require Import Broker.
From S2P Require Import DeadLetter.
From S2P Require Import PeerLinks.
From S2P Require Import Forwarder.
From S2P Require Import Async.
From S2P Require Import World.
From S2P Require Import Connection.
From S2P Require Import ConnectionSpec.

#[local] Open Scope nat_scope.

(** While the directory has room, recording only adds. *)
Lemma record_with_room p a s :
  PeerDirectory.wf s → length (order s) < DEFAULT_PEER_DIRECTORY_CAPACITY →
  (record p a s).1 = negb (bool_decide (p ∈ order s))
  ∧ (∀ q, q ∈ order (record p a s).2 ↔ q = p ∨ q ∈ order s)
  ∧ length (order (record p a s).2) = if bool_decide (p ∈ order s) then length (order s) else S (length (order s)).
Proof.
  intros Hwf Hroom. destruct (record_spec p a s Hwf) as (H1 & Ho & _). destruct Hwf as (Hnd & _ & _).
  pose proof (length_touch p _ Hnd) as Hl.
  assert (length (touch p (order s)) ≤ S (length (order s))) as Hle by (destruct (decide (p ∈ order s)); lia).
  rewrite window_all in Ho by lia. split; [done|]. rewrite Ho.
  split; [intros q; rewrite elem_of_touch; destruct (decide (q = p)); tauto|].
  rewrite Hl. by destruct (decide (p ∈ order s)); [rewrite bool_decide_true|rewrite bool_decide_false].
Qed.

Lemma we_should_dial_one (a b : PeerId) : a ≠ b → we_should_dial a b = negb (we_should_dial b a).
Proof.
  unfold we_should_dial. destruct a as [u], b as [v]. cbn. intros Hne.
  assert (u ≠ v) by congruence. destruct (Z.ltb_spec u v), (Z.ltb_spec v u); cbn; try done; lia.
Qed.

Section gossip.
Context `{Broadcast Envelope} `{Mpsc Envelope} `{MessageStore} `{Uuids}.

(** The addresses handed to the dialer. *)
Definition to_dial (n : PeerId) (l : list PeerAdvert) : list rstr :=
  advert_listen_addr <$> List.filter (λ a, we_should_dial n (advert_peer_id a)) l.

(** An advert that is news: about somebody else, not yet known. *)
Definition news (n : PeerId) (d : PeerDirectory) (p : PeerId) : Prop := p ≠ n ∧ p ∉ order d.

(** What the loop leaves, when everything fits. *)
Definition learned (n : PeerId) (l newly : list PeerAdvert) (d d' : PeerDirectory) : Prop :=
  PeerDirectory.wf d' ∧ length (order d') ≤ length (order d) + length l
  ∧ (∀ p, p ∈ order d' ↔ p ∈ order d ∨ p ≠ n ∧ p ∈ advert_peer_id <$> l)
  ∧ sublist newly l ∧ NoDup (advert_peer_id <$> newly)
  ∧ ∀ p, p ∈ advert_peer_id <$> newly ↔ news n d p ∧ p ∈ advert_peer_id <$> l.

(** One advert that is no news. *)
Lemma learned_skip n a l newly d d1 d' :
  (∀ p, p ∈ order d1 ↔ p ∈ order d) → length (order d1) ≤ S (length (order d)) →
  advert_peer_id a = n ∨ advert_peer_id a ∈ order d →
  learned n l newly d1 d' → learned n (a :: l) newly d d'.
Proof.
  intros Hd1 Hl1 Ha (Hwf & Hl & Ho & Hsub & Hnd & Hn). split; [done|]. split; [simpl; lia|].
  split; [intros p; rewrite Ho, Hd1, fmap_cons, elem_of_cons; naive_solver|].
  split; [by constructor|]. split; [done|]. intros p. rewrite Hn, fmap_cons, elem_of_cons. unfold news.
  rewrite Hd1. naive_solver.
Qed.

Lemma learned_add n a l newly d d1 d' :
  (∀ p, p ∈ order d1 ↔ p = advert_peer_id a ∨ p ∈ order d) → length (order d1) ≤ S (length (order d)) →
  news n d (advert_peer_id a) → learned n l newly d1 d' → learned n (a :: l) (a :: newly) d d'.
Proof.
  intros Hd1 Hl1 [Hself Ha] (Hwf & Hl & Ho & Hsub & Hnd & Hn). split; [done|]. split; [simpl; lia|].
  split; [intros p; rewrite Ho, Hd1, fmap_cons, elem_of_cons; naive_solver|].
  split; [by constructor|]. split.
  - rewrite fmap_cons. constructor; [|done]. rewrite Hn. unfold news. rewrite Hd1. naive_solver.
  - intros p. rewrite !fmap_cons, !elem_of_cons, Hn. unfold news. rewrite Hd1.
    destruct (decide (p = advert_peer_id a)) as [->|]; naive_solver.
Qed.

Lemma learn_loop_spec l w :
  PeerDirectory.wf (w_discover w) → length (order (w_discover w)) + length l ≤ DEFAULT_PEER_DIRECTORY_CAPACITY →
  ∃ newly d', run (learn_loop l) w
      = Some (newly, set_discovered (w_discovered w ++ to_dial (node_id (w_node w)) newly) (set_discover d' w))
    ∧ learned (node_id (w_node w)) l newly (w_discover w) d'.
Proof.
  revert w; induction l as [|a l IH]; intros w Hwf Hroom; cbn [learn_loop].
  { exists [], (w_discover w). split; [by rewrite app_nil_r; destruct w|].
    split; [done|]. split; [lia|]. split; [set_solver|]. split; [done|]. split; [constructor|]. set_solver. }
  simpl in Hroom. rewrite run_sync_bind. cbn [gets fst snd].
  destruct (bool_decide (advert_peer_id a = node_id (w_node w))) eqn:Hself.
  { apply bool_decide_eq_true in Hself. destruct (IH w Hwf ltac:(lia)) as (newly & d' & Hr & Hl).
    exists newly, d'. split; [exact Hr|]. apply (learned_skip _ _ _ _ _ (w_discover w)); [done|lia|by left|done]. }
  apply bool_decide_eq_false in Hself. rewrite run_sync_bind. unfold on_discover, on.
  destruct (record_with_room (advert_peer_id a) (advert_listen_addr a) (w_discover w) Hwf ltac:(lia)) as (Hnew & Ho1 & Hl1).
  pose proof (record_wf (advert_peer_id a) (advert_listen_addr a) _ Hwf) as Hwf1.
  destruct (record _ _ (w_discover w)) as [is_new d1]. cbn [fst snd] in *. subst is_new.
  case_bool_decide as Hin; cbn [negb].
  { destruct (IH (set_discover d1 w) Hwf1) as (newly & d' & Hr & Hl).
    { cbn. lia. }
    exists newly, d'. split; [exact Hr|]. apply (learned_skip _ _ _ _ _ d1); [|lia|by right|exact Hl].
    intros p. rewrite Ho1. naive_solver. }
  rewrite run_bind. set (w1 := if we_should_dial (node_id (w_node w)) (advert_peer_id a) then set_discovered (w_discovered w ++ [advert_listen_addr a]) (set_discover d1 w)
    else set_discover d1 w).
  assert (run (if we_should_dial (node_id (w_node w)) (advert_peer_id a)
    then sync (λ w, ((), set_discovered (w_discovered w ++ [advert_listen_addr a]) w)) else mret ()) (set_discover d1 w)
    = Some ((), w1)) as -> by (unfold w1; by destruct (we_should_dial _ _)).
  cbn [mbind option_bind fst snd]. rewrite run_bind.
  assert (w_discover w1 = d1 ∧ w_node w1 = w_node w) as [Hd1 Hn1] by (unfold w1; by destruct (we_should_dial _ _)).
  destruct (IH w1) as (newly & d' & Hr & Hl); [by rewrite Hd1|rewrite Hd1; lia|]. rewrite Hd1, Hn1 in Hl. rewrite Hn1 in Hr.
  rewrite Hr. cbn [mbind option_bind fst snd]. exists (a :: newly), d'. split.
  - f_equal. f_equal. unfold w1, to_dial. cbn. destruct (we_should_dial _ _); [|done]. cbn. by rewrite <-app_assoc.
  - apply (learned_add _ _ _ _ _ d1); [done|lia|done|exact Hl].
Qed.

(** An announcement to every link. *)
Lemma run_announce k w :
  run (sync (w ← get_st; e ← new_envelope k; on_hub (broadcast e (w_peer_links w)))) w
  = Some ((), set_hub (broadcast (Envelope.new (h_ids (w_hub w)) (node_id (w_node w)) k) (w_peer_links w)
      (fresh_envelope (node_id (w_node w)) k (w_hub w)).2).2 w).
Proof.
  rewrite run_sync. unfold mbind, ST_bind, get_st, new_envelope, on_hub, on, fresh_envelope.
  cbn [fst snd w_hub set_hub w_peer_links w_node]. by destruct (broadcast _ _ _) as [[] h'].
Qed.

(** C18: while the directory has room, an announcement teaches a node
    each peer it names once, itself never; what was news, first mention by
    first mention, is passed on in one announcement to every link, and of it
    the addresses this node has to dial are handed to the dialer, which of two
    nodes exactly one has to. Without news nothing is sent; so the same
    announcement again sends and dials nothing. *)
Theorem learn_peers_once (l : list PeerAdvert) (w : World) :
  let n := node_id (w_node w) in
  PeerDirectory.wf (w_discover w) → length (order (w_discover w)) + length l ≤ DEFAULT_PEER_DIRECTORY_CAPACITY →
  (∀ p, p ≠ n → we_should_dial n p = negb (we_should_dial p n))
  ∧ ∃ newly d' w', learned n l newly (w_discover w) d'
    ∧ run (learn_peers l) w = Some ((), w')
    ∧ w_discover w' = d' ∧ w_discovered w' = w_discovered w ++ to_dial n newly
    ∧ (newly = [] → w_hub w' = w_hub w)
    ∧ (newly ≠ [] → w_hub w' =
        (broadcast (Envelope.new (h_ids (w_hub w)) n (PeerAnnounce newly)) (w_peer_links w)
           (fresh_envelope n (PeerAnnounce newly) (w_hub w)).2).2)
    ∧ (length (order d') + length l ≤ DEFAULT_PEER_DIRECTORY_CAPACITY →
       ∃ w'', run (learn_peers l) w' = Some ((), w'')
         ∧ w_hub w'' = w_hub w' ∧ w_discovered w'' = w_discovered w').
Proof.
  intros n Hwf Hroom. split; [intros p Hp; by apply we_should_dial_one|].
  assert (∀ v newly v1, run (learn_loop l) v = Some (newly, v1) →
    run (learn_peers l) v = match newly with
      | [] => Some ((), v1)
      | _ => run (sync (w ← get_st; e ← new_envelope (PeerAnnounce newly); on_hub (broadcast e (w_peer_links w)))) v1
      end) as Hrun.
  { intros v newly v1 Hr. unfold learn_peers. rewrite run_bind, Hr. by destruct newly. }
  destruct (learn_loop_spec l w Hwf Hroom) as (newly & d' & Hr & Hl). apply Hrun in Hr. fold n in Hl, Hr.
  set (w1 := set_discovered _ (set_discover d' w)) in *.
  set (h := (broadcast (Envelope.new (h_ids (w_hub w)) n (PeerAnnounce newly)) (w_peer_links w)
    (fresh_envelope n (PeerAnnounce newly) (w_hub w)).2).2).
  exists newly, d', (if newly is [] then w1 else set_hub h w1).
  split; [done|]. split.
  { rewrite Hr. destruct newly as [|a newly]; [done|]. by rewrite run_announce. }
  split; [by destruct newly|]. split; [by destruct newly|]. split; [by intros ->|]. split; [by destruct newly|].
  set (w' := if newly is [] then w1 else set_hub h w1). intros Hroom'.
  assert (w_discover w' = d' ∧ w_node w' = w_node w) as [Hd' Hn'] by (unfold w'; by destruct newly).
  destruct Hl as (Hwf' & _ & Ho & _). destruct (learn_loop_spec l w') as (newly' & d'' & Hr' & _ & _ & _ & Hsub & _ & Hno);
    [by rewrite Hd'|by rewrite Hd'|].
  assert (newly' = []) as ->.
  { destruct newly' as [|a newly']; [done|]. destruct (Hno (advert_peer_id a)) as [[[Hself Ha] Hin] _]; [set_solver|].
    rewrite Hd', Hn' in *. destruct Ha. apply Ho. by right. }
  apply Hrun in Hr'. eexists. split; [exact Hr'|]. split; [done|]. cbn. by rewrite app_nil_r.
Qed.
End gossip.

Import SampleNode.

(** Three adverts, one of them about the node itself and one repeated. *)
Lemma learn_peers_once_witness :
  let advert p a := MkPeerAdvert (Sample.peer p) a in
  ∃ w', run (learn_peers [advert 9%Z (lit "me"); advert 12%Z (lit "b:1"); advert 12%Z (lit "b:1"); advert 3%Z (lit "c:1")])
      SampleNode.world = Some ((), w')
    ∧ length (w_discovered w') = 1.
Proof.
  intros advert.
  destruct (@learn_peers_once SampleNode.sample_broadcast SampleNode.sample_mpsc SampleNode.sample_store SampleNode.sample_uuids
    [advert 9%Z (lit "me"); advert 12%Z (lit "b:1"); advert 12%Z (lit "b:1"); advert 3%Z (lit "c:1")] SampleNode.world)
    as [_ (newly & d' & w' & Hl & Hr & _ & Hd & _)].
  - exact wf_new.
  - apply Nat.leb_le. vm_compute. reflexivity.
  - exists w'. split; [exact Hr|]. revert Hr. set (r := run _ SampleNode.world). intros Hr.
    assert (option_map (λ x, length (w_discovered x.2)) r = Some 1) as Hlen by (vm_compute; reflexivity).
    rewrite Hr in Hlen. by injection Hlen.
Defined.
