(* ===== verification/LinkUp.v ===== *)
(** * Becoming a peer link ([handle_hello], [admit_initial_peer] and
      [register_peer_link] of [thoth-mesh-node/src/connection.rs])

    Who is let in, and what the far end reads: the [Hello] its handshake waits
    for comes before the catch-up, which says only what a
    [--peer-topic-filter] lets it hear. *)

From S2P Require Import Prelude.
From S2P Require Import Text.
From S2P Require Import Filter.
From S2P Require Import Runtime.
From S2P Require Import Message.
From S2P Require Import Interest.
From S2P Require Import PeerDirectory.
From S2P Require Import Membership.
From S2P Require Import TopicAcl.
From S2P Require Import PeerTopicFilter.
From S2P Require Import MessageStore.
From S2P Require Import Broker.
From S2P Require Import Metrics.
From S2P Require Import DeadLetter.
From S2P Require Import PeerLinks.
From S2P Require Import Forwarder.
From S2P Require Import Async.
From S2P Require Import Access.
From S2P Require Import World.
From S2P Require Import Connection.
From S2P Require Import ConnectionSpec.
From S2P Require Import Handlers.

#[local] Open Scope nat_scope.

Section link_up.
Context `{Broadcast Envelope} `{Mpsc Envelope} `{MessageStore} `{Uuids} `{!MpscLaws Envelope}.

(** Only the hub changes, and the channel [out] gets messages that satisfy
    [P], if any. *)
Definition adds (out : nat) (P : Envelope → Prop) (w w' : World) : Prop :=
  ∃ h l, w' = set_hub h w ∧ queued (h_chans h) out = queued (h_chans (w_hub w)) out ++ l ∧ Forall P l.

Lemma adds_refl out P w : adds out P w w.
Proof. exists (w_hub w), []. split; [by destruct w|]. by rewrite app_nil_r. Qed.

Lemma adds_trans out P w1 w2 w3 : adds out P w1 w2 → adds out P w2 w3 → adds out P w1 w3.
Proof.
  intros (h & l & -> & Hq & Hl) (h' & l' & -> & Hq' & Hl'). exists h', (l ++ l'). split; [done|]. split.
  - rewrite Hq'. cbn. by rewrite Hq, app_assoc.
  - by apply Forall_app.
Qed.

Lemma offer_queued out (P : Envelope → Prop) sender e h :
  P e → ∃ l, queued (h_chans (offer sender e h).2) out = queued (h_chans h) out ++ l ∧ Forall P l.
Proof.
  intros He. unfold offer. cbn. destruct (try_send sender e (h_chans h)) as [[|] s'] eqn:Ht; cbn.
  - apply try_send_accepted in Ht as (_ & Hq & Ho & _). destruct (decide (out = sender)) as [->|Hne].
    + exists [e]. split; [done|]. by constructor.
    + exists []. rewrite Ho by done. by rewrite app_nil_r.
  - apply try_send_refused in Ht as ->. exists []. by rewrite app_nil_r.
Qed.

Lemma broadcast_queued out (P : Envelope → Prop) e s h :
  P e → ∃ l, queued (h_chans (broadcast e s h).2) out = queued (h_chans h) out ++ l ∧ Forall P l.
Proof.
  intros He. unfold broadcast. revert h. induction (link_sender <$> all_links s) as [|x xs IH]; intros h; cbn [for_each].
  { exists []. by rewrite app_nil_r. }
  destruct (offer_queued out P x e h He) as (l & Hq & Hl). destruct (IH (offer x e h).2) as (l' & Hq' & Hl').
  exists (l ++ l'). rewrite Hq', Hq, app_assoc. split; [done|]. by apply Forall_app.
Qed.

(** A new envelope, offered to one channel or to all links. *)
Lemma offer_new_adds out P k sender w :
  (∀ n i, P (Envelope.new n i k)) → adds out P w ((e ← new_envelope k; on_hub (offer sender e)) w).2.
Proof.
  intros Hk. unfold mbind, ST_bind, new_envelope, on_hub, on, fresh_envelope. cbn [fst snd w_hub set_hub].
  set (h0 := MkHub _ _ _ _). destruct (offer_queued out P sender _ h0 (Hk (h_ids (w_hub w)) (node_id (w_node w)))) as (l & Hq & Hl).
  eexists _, l. split; [reflexivity|]. by split.
Qed.

Lemma announce_adds out P k w :
  (∀ n i, P (Envelope.new n i k)) →
  adds out P w ((w ← get_st; e ← new_envelope k; on_hub (broadcast e (w_peer_links w))) w).2.
Proof.
  intros Hk. unfold mbind, ST_bind, get_st, new_envelope, on_hub, on, fresh_envelope.
  cbn [fst snd w_hub set_hub w_peer_links w_node]. set (h0 := MkHub _ _ _ _).
  destruct (broadcast_queued out P _ (w_peer_links w) h0 (Hk (h_ids (w_hub w)) (node_id (w_node w)))) as (l & Hq & Hl).
  destruct (broadcast _ (w_peer_links w) h0) as [[] h1] eqn:Hb. eexists h1, l. split; [reflexivity|]. by split.
Qed.

(** What a new link is told: interest it may hear about, and other peers. *)
Definition catch_up_message (interest : Interest) (ptf : option PeerTopicFilter) (principal : Principal) (e : Envelope) : Prop :=
  (∃ f, kind e = Message.Subscribe f false None false ∧ is_interested interest f = true
      ∧ interest_permitted ptf principal f = true)
  ∨ ∃ l, kind e = PeerAnnounce l.

Lemma catch_up_adds out principal ptf filters w :
  (∀ f, f ∈ filters → is_interested (w_interest w) f = true) →
  adds out (catch_up_message (w_interest w) ptf principal) w (catch_up out principal ptf filters w).2.
Proof.
  revert w; induction filters as [|f filters IH]; intros w Hf; [apply adds_refl|]. cbn [catch_up].
  rewrite st_bind. destruct (interest_permitted ptf principal f) eqn:Hp.
  - eapply adds_trans.
    { apply (offer_new_adds _ _ (Message.Subscribe f false None false) out). intros n i. left. exists f.
      split; [done|]. split; [apply Hf; constructor|done]. }
    destruct (offer_new_adds out (λ _, True) (Message.Subscribe f false None false) out w) as (h & l & -> & _); [done|].
    apply (IH (set_hub h w)). intros g Hg. apply Hf. by constructor.
  - apply IH. intros g Hg. apply Hf. by constructor.
Qed.

Lemma announce_known_adds out p principal interest ptf w :
  adds out (catch_up_message interest ptf principal) w (announce_known out p w).2.
Proof.
  unfold announce_known. rewrite st_bind. cbn [get_st fst snd]. destruct (snapshot_excluding (w_discover w) p); [apply adds_refl|].
  apply offer_new_adds. intros n i. right. by eexists.
Qed.

Lemma propagate_peer_adds out p a principal interest ptf w :
  adds out (catch_up_message interest ptf principal) w (propagate_peer p a w).2.
Proof. apply announce_adds. intros n i. right. by eexists. Qed.

(** The directory after the new peer has been recorded, if it is dialable. *)
Definition after_record (peer_id : PeerId) (addr : option rstr) (d : PeerDirectory) : PeerDirectory :=
  match addr with Some a => (record peer_id a d).2 | None => d end.

Lemma register_peer_link_spec p principal addr out dis w :
  ∃ w1, run (register_peer_link p principal addr out dis) w = Some ((p, out), w1)
    ∧ adds out (catch_up_message (w_interest w) (peer_topic_filter (w_acls w)) principal)
        (set_discover (after_record p addr (w_discover w))
          (set_peer_links (PeerLinks.register p out principal dis (w_peer_links w)) w)) w1.
Proof.
  set (P := catch_up_message (w_interest w) (peer_topic_filter (w_acls w)) principal).
  set (w0 := set_peer_links (PeerLinks.register p out principal dis (w_peer_links w)) w).
  unfold register_peer_link. do 2 rewrite run_sync_bind. cbn [gets fst snd]. change (on _ _ _ w).2 with w0.
  rewrite run_sync_bind. cbn [gets fst snd]. rewrite run_sync_bind.
  assert (adds out P w0 (catch_up out principal (peer_topic_filter (w_acls w)) (Interest.snapshot (w_interest w0)) w0).2) as (h1 & l1 & -> & Hq1 & Hl1).
  { apply (catch_up_adds out principal _ _ w0). intros f Hf. by apply elem_of_snapshot. }
  rewrite run_bind.
  assert (∃ w2, run (match addr with
      | Some a => is_new ← sync (on_discover (record p a)); if is_new : bool then sync (propagate_peer p a) else mret ()
      | None => mret ()
      end) (set_hub h1 w0) = Some ((), w2) ∧ adds out P (set_hub h1 (set_discover (after_record p addr (w_discover w)) w0)) w2)
    as (w2 & -> & Ha2).
  { destruct addr as [a|]; [|exists (set_hub h1 w0); split; [done|]; by destruct w; apply adds_refl].
    rewrite run_sync_bind. unfold on_discover, on. cbn [w_discover set_hub set_peer_links w0 after_record].
    destruct (record p a (w_discover w)) as [[|] d] eqn:Hrec; cbn [fst snd].
    - rewrite run_sync. eexists. split; [|apply (propagate_peer_adds out p a)]. f_equal. by destruct (propagate_peer _ _ _) as [[] ?].
    - eexists. split; [done|]. apply adds_refl. }
  cbn [mbind option_bind fst snd]. rewrite run_sync_bind. eexists. split; [reflexivity|].
  eapply adds_trans; [|apply announce_known_adds]. eapply adds_trans; [|exact Ha2].
  exists h1, l1. split; [done|]. split; [exact Hq1|done].
Qed.

(** ** [handle_hello] *)

Definition allows (c : ConnectionContext) (w : World) : bool := allowlist_permits (allow_peer (w_acls w)) (principal c).

(** A permitted connection is made the link of the peer. *)
Lemma link_up_spec p addr c w :
  allows c w = true →
  ∃ h l, run (link_up p addr c) w
      = Some (with_link (p, outgoing_tx c) c,
              set_hub h (set_discover (after_record p addr (w_discover w))
                (set_peer_links (after_link (peer_link_registration c)
                   (PeerLinks.register p (outgoing_tx c) (principal c) (disconnect c) (w_peer_links w))) w)))
    ∧ queued (h_chans h) (outgoing_tx c) = queued (h_chans (w_hub w)) (outgoing_tx c) ++ l
    ∧ Forall (catch_up_message (w_interest w) (peer_topic_filter (w_acls w)) (principal c)) l.
Proof.
  intros Ha. unfold link_up. rewrite run_bind.
  destruct (register_peer_link_spec p (principal c) addr (outgoing_tx c) (disconnect c) w) as (w2 & -> & h2 & l2 & -> & Hq2 & Hl2).
  cbn [mbind option_bind fst snd]. rewrite run_sync_bind. set (w2 := set_hub h2 _).
  assert (assign_link (p, outgoing_tx c) c w2
    = (with_link (p, outgoing_tx c) c, set_peer_links (after_link (peer_link_registration c) (w_peer_links w2)) w2)) as ->.
  { unfold assign_link. by destruct (peer_link_registration c). }
  cbn [fst snd]. rewrite run_sync_bind. set (w3 := set_peer_links _ w2).
  assert (recheck_allowed (with_link (p, outgoing_tx c) c) w3 = ((), w3)) as ->.
  { unfold recheck_allowed. change (allowlist_permits _ _) with (allows c w). by rewrite Ha. }
  exists h2, l2. done.
Qed.

(** C19: a [Hello] from a connection the allowlist does not permit changes
    nothing but the reply, one error naming it, and ends the connection. A
    permitted one makes it the link of the peer it names: marked connected,
    flagged, registered in place of an earlier registration of this
    connection, recorded when it is dialable; and what its channel gets first
    is the [Hello] with this node's address, then only interest it may hear
    about and announcements. *)
Theorem hello_gate (c : ConnectionContext) (e : Envelope) (addr : option rstr) (w : World) :
  roomy c w → is_closed (h_chans (w_hub w)) (outgoing_tx c) = false →
  ∃ c' w', run (handle_hello c e addr) w = Some ((c', allows c w), w')
    ∧ if allows c w then
        c' = with_link (sender e, outgoing_tx c) (with_identity (sender e) c)
        ∧ (∃ h, w' = set_hub h
             (set_discover (after_record (sender e) addr (w_discover w))
             (set_peer_links (after_link (peer_link_registration c)
                (PeerLinks.register (sender e) (outgoing_tx c) (principal c) (disconnect c) (w_peer_links w)))
             (set_is_peer (<[is_peer_flag c := true]> (w_is_peer w))
             (set_membership (mark_connected (sender e) addr (w_membership w)) w)))))
        ∧ ∃ rest, queued (h_chans (w_hub w')) (outgoing_tx c)
            = queued (h_chans (w_hub w)) (outgoing_tx c)
              ++ Envelope.new (h_ids (w_hub w)) (node_id (w_node w)) (Hello (my_listen_addr (w_node w))) :: rest
          ∧ Forall (catch_up_message (w_interest w) (peer_topic_filter (w_acls w)) (principal c)) rest
      else c' = c ∧ ∃ h', w' = set_hub h' w
        ∧ answered c (Message.Error (Some (Message.id e)) not_allowed) true (w_node w) (w_hub w) h'.
Proof.
  intros Hr Hopen. unfold handle_hello. rewrite run_sync_bind. cbn [allowed gets fst snd]. fold (allows c w).
  destruct (allows c w) eqn:Ha; cbn [negb].
  2:{ rewrite run_bind. destruct (run_reply c (Message.Error (Some (Message.id e)) not_allowed) w Hr) as (ok & h' & -> & Hans).
      exists c, (set_hub h' w). split; [done|]. split; [done|]. exists h'. split; [done|].
      destruct Hans as (H1' & H2' & H3' & Ht). destruct ok; [done|]. destruct Ht. congruence. }
  rewrite run_sync_bind. cbn [become_peer fst snd]. set (w1 := set_is_peer _ _). set (c1 := with_identity (sender e) c).
  rewrite run_sync_bind. cbn [gets fst snd]. rewrite run_bind.
  destruct (run_reply c1 (Hello (my_listen_addr (w_node w1))) w1 Hr) as (ok & h1 & -> & _ & _ & _ & Ht).
  destruct ok; [|by destruct Ht as [Hc _]; cbn in Hc; congruence]. destruct Ht as [_ Ht]. cbn [mbind option_bind fst snd negb].
  rewrite run_bind. destruct (link_up_spec (sender e) addr c1 (set_hub h1 w1) Ha) as (h2 & l2 & -> & Hq2 & Hl2).
  eexists _, _. split; [reflexivity|]. split; [done|]. split; [by exists h2|].
  exists l2. split; [|exact Hl2]. apply try_send_accepted in Ht as (_ & Hq1 & _).
  change (w_hub (set_hub h1 w1)) with h1 in Hq2. change (outgoing_tx c1) with (outgoing_tx c) in *.
  change (w_hub w1) with (w_hub w) in Hq1. cbn in Hq1. refine (eq_trans Hq2 _). by rewrite Hq1, <-app_assoc.
Qed.
End link_up.

Import SampleNode.

(** A first [Hello] on the sample node. *)
Lemma hello_gate_witness :
  let e := SampleNode.request 1 (Hello (Some (lit "far:7"))) in
  ∃ c' w', run (handle_hello SampleHandler.ctx e (Some (lit "far:7"))) SampleHandler.opened.2 = Some ((c', true), w')
    ∧ is_reachable (w_membership w') (Sample.peer 2) = true.
Proof.
  intros e.
  destruct (@hello_gate SampleNode.sample_broadcast SampleNode.sample_mpsc SampleNode.sample_store SampleNode.sample_uuids (Reference.ref_mpsc_laws Envelope)
    SampleHandler.ctx e (Some (lit "far:7")) SampleHandler.opened.2) as (c' & w' & Hr & Hw).
  - right. intros x. vm_compute. reflexivity.
  - vm_compute. reflexivity.
  - exists c', w'. destruct Hw as (_ & (h & ->) & _). split; [exact Hr|]. vm_compute. reflexivity.
Defined.

(** Two [Hello]s with different senders on one plain connection: the peer
    named first stays connected in the membership table after the connection
    has ended. *)
Module TwoHellos.
Import SampleNode.
Definition hello (n : Z) : Envelope := MkEnvelope PROTOCOL_VERSION (Sample.mid n) (Sample.peer n) (Hello None).
Definition after : option (() * World) :=
  run (run_connection (Sample.decode [hello 2; hello 3]) None 0 None [Incoming (Ok [0%Z]); Incoming (Ok [1%Z])]) world.
End TwoHellos.

Example second_hello_leaves_first_connected :
  match TwoHellos.after with
  | Some (_, w) => is_reachable (w_membership w) (Sample.peer 2) = true
      ∧ is_reachable (w_membership w) (Sample.peer 3) = false ∧ all_links (w_peer_links w) = []
  | None => False
  end.
Proof. vm_compute. done. Qed.
