(* ===== verification/Subscribing.v ===== *)
(** * Subscribing and unsubscribing ([handle_subscribe] and
      [handle_unsubscribe] of [thoth-mesh-node/src/connection.rs])

    Each handler run with nobody interleaving, by its verdict: what is
    registered and started, what is counted, what the connection is told first,
    and which links hear about it. *)

From S2P Require Import Prelude.
From S2P Require Import Text.
From S2P Require Import Topic.
From S2P Require Import Filter.
From S2P Require Import Runtime.
From S2P Require Import Message.
From S2P Require Import Interest.
From S2P Require Import TopicAcl.
From S2P Require Import PeerTopicFilter.
From S2P Require Import Groups.
From S2P Require Import MessageStore.
From S2P Require Import Broker.
From S2P Require Import Metrics.
From S2P Require Import Redelivery.
From S2P Require Import DeadLetter.
From S2P Require Import PeerLinks.
From S2P Require Import Forwarder.
From S2P Require Import Async.
From S2P Require Import Access.
From S2P Require Import World.
From S2P Require Import Connection.
From S2P Require Import ConnectionSpec.
From S2P Require Import Handlers.

#[local] Open Scope nat_scope.

Section subscribing.
Context `{Broadcast Envelope} `{Mpsc Envelope} `{MessageStore} `{Uuids} `{!MpscLaws Envelope}.

(** ** What the links hear *)

(** The links that may hear about a filter, by their channels. *)
Definition audience (w : World) (f : TopicFilter) : list nat :=
  link_sender <$> List.filter (λ l, interest_permitted (peer_topic_filter (w_acls w)) (link_principal l) f) (all_links (w_peer_links w)).

(** One message to each channel of [outs] that has room for it, and nothing
    else. *)
Definition told_each (outs : list nat) (e : Envelope) (s s' : mpsc_store Envelope) : Prop :=
  ∀ c, queued s' c = queued s c ++ (if bool_decide (c ∈ outs) && (try_send c e s).1 then [e] else []).

Lemma offers_told outs e h :
  NoDup outs →
  let h' := (for_each outs (λ sender, offer sender e) h).2 in
  h_broker h' = h_broker h ∧ h_metrics h' = h_metrics h ∧ h_ids h' = h_ids h ∧ told_each outs e (h_chans h) (h_chans h').
Proof.
  revert h; induction outs as [|x outs IH]; intros h; cbn [for_each].
  { intros _. split_and!; try done. intros c. by rewrite app_nil_r. }
  intros [Hx Hnd]%NoDup_cons. destruct (IH (offer x e h).2 Hnd) as (-> & -> & -> & Ht). do 3 (split; [done|]).
  intros c. rewrite Ht. unfold offer. cbn [snd h_chans]. destruct (try_send x e (h_chans h)) as [[|] s] eqn:He; cbn [snd].
  - pose proof (try_send_accepted _ _ _ _ He) as (_ & Hq & Hother & _). destruct (decide (c = x)) as [->|Hne].
    + rewrite Hq, He, bool_decide_false by done. rewrite bool_decide_true by by left. cbn. by rewrite app_nil_r.
    + rewrite Hother, (try_send_room x e _ s c e He) by done. do 2 f_equal.
      rewrite (bool_decide_ext (c ∈ outs) (c ∈ x :: outs)); [done|]. rewrite elem_of_cons. naive_solver.
  - pose proof (try_send_refused _ _ _ _ He) as ->. f_equal. destruct (decide (c = x)) as [->|Hne].
    + by rewrite He, !andb_false_r.
    + rewrite (bool_decide_ext (c ∈ outs) (c ∈ x :: outs)); [done|]. rewrite elem_of_cons. naive_solver.
Qed.

(** The announcement of a filter, or its withdrawal. *)
Definition announcement (f : TopicFilter) (now_interested : bool) : MessageKind :=
  if now_interested then Message.Subscribe f false None false else Message.Unsubscribe f.

Definition announced (w : World) (f : TopicFilter) (now_interested : bool) (h h' : Hub) : Prop :=
  h_broker h' = h_broker h ∧ h_metrics h' = h_metrics h ∧ h_ids h' = S (h_ids h)
  ∧ told_each (audience w f) (Envelope.new (h_ids h) (node_id (w_node w)) (announcement f now_interested)) (h_chans h) (h_chans h').

Lemma propagate_announces f b w :
  NoDup (link_sender <$> all_links (w_peer_links w)) →
  ∃ h, propagate_interest f b w = ((), set_hub h w) ∧ announced w f b (w_hub w) h.
Proof.
  intros Hnd. unfold propagate_interest, mbind, ST_bind, get_st, new_envelope, on_hub, on, fresh_envelope. cbn [fst snd w_hub set_hub w_acls w_peer_links w_node].
  set (h0 := MkHub _ _ _ _). set (e := Envelope.new _ _ _).
  assert (broadcast_interest e f (peer_topic_filter (w_acls w)) (w_peer_links w) h0
    = for_each (audience w f) (λ sender, offer sender e) h0) as ->.
  { unfold broadcast_interest, broadcast, audience, interest_permitted. destruct (peer_topic_filter (w_acls w)); [done|].
    assert (∀ ls : list Link, List.filter (λ _, true) ls = ls) as ->; [|done].
    clear. induction ls as [|l ls IH]; [done|]. cbn. by rewrite IH. }
  pose proof (NoDup_fmap_filter link_sender (λ l, interest_permitted (peer_topic_filter (w_acls w)) (link_principal l) f) _ Hnd) as Ha.
  destruct (offers_told (audience w f) e h0 Ha) as (Hb & Hm & Hi & Ht).
  destruct (for_each (audience w f) _ h0) as [[] h1]. exists h1. done.
Qed.

(** ** Subscribing *)

Inductive Verdict : Type :=
| Rejected (message : rstr)
| Unauthorized
| Repeated
| Granted.

Definition verdict (c : ConnectionContext) (f : TopicFilter) (ack : bool) (group : option rstr) (durable : bool) (w : World) : Verdict :=
  match (if durable then durable_rejection (has_store (h_broker (w_hub w))) ack group (peer_fingerprint c) f else None) with
  | Some message => Rejected message
  | None =>
      if filter_acl_permits (w_acls w) (is_peer c) (principal c) f TopicAcl.Subscribe then
        match forwarders_of (forwarders c) w !! f with Some _ => Repeated | None => Granted end
      else Unauthorized
  end.

Definition unauthorized (f : TopicFilter) : rstr := lit "not authorized to subscribe to " ++ Filter.as_str f.
Definition rejection_counter (c : ConnectionContext) : Metrics → Metrics :=
  if is_peer c then record_peer_topic_acl_rejection else record_topic_acl_rejection.

(** The task of a subscription without a group: it resumes from the
    subscriber's position, it waits for acknowledgements, or neither. *)
Definition task_for (c : ConnectionContext) (subscriber : PeerId) (f : TopicFilter) (ack durable : bool) (config : DeadLetterConfig) : Task :=
  match (if durable then as_topic f else None) with
  | Some topic => spawn_durable_forwarder f topic subscriber (outgoing_tx c) config
  | None =>
      if ack then spawn_ack_forwarder f (outgoing_tx c) DEFAULT_ACK_TIMEOUT DEFAULT_MAX_REDELIVERY_ATTEMPTS config
      else spawn_forwarder f (outgoing_tx c) config
  end.

(** What is started for it: a member of its group, or a task of its own. *)
Definition started (c : ConnectionContext) (subscriber : PeerId) (f : TopicFilter) (ack : bool) (group : option rstr) (durable : bool)
    (w : World) (s : Subscription) (tasks : list (option Task)) (b : Broker) : Prop :=
  match group with
  | Some g => s = Group g ∧ tasks = w_tasks w ∧ b = join_group f g (outgoing_tx c) ack (h_broker (w_hub w))
  | None =>
      let config := MkDeadLetterConfig (node_id (w_node w)) (dead_letter_topic (w_node w)) in
      s = World.Forwarder (length (w_tasks w)) (ack && negb durable)
      ∧ tasks = w_tasks w ++ [Some (task_for c subscriber f ack durable config)] ∧ b = h_broker (w_hub w)
  end.

(** The world once the subscription is registered and counted. *)
Definition subscribed (c : ConnectionContext) (f : TopicFilter) (s : Subscription) (tasks : list (option Task)) (b : Broker) (w : World) : World :=
  let h := w_hub w in
  set_interest (Interest.subscribe f (w_interest w)).2
    (with_forwarders (forwarders c) (<[f := s]> (forwarders_of (forwarders c) w))
      (set_tasks tasks (set_hub (MkHub b (h_chans h) (h_ids h) (h_metrics h)) w))).

Lemma insert_forwarder_spec c subscriber f ack group durable w :
  durable = false ∨ ack = false ∧ group = None →
  forwarders_of (forwarders c) w !! f = None →
  ∃ s tasks b, started c subscriber f ack group durable w s tasks b
    ∧ insert_forwarder c subscriber f ack group durable w
      = (true, with_forwarders (forwarders c) (<[f := s]> (forwarders_of (forwarders c) w))
                (set_tasks tasks (set_hub (MkHub b (h_chans (w_hub w)) (h_ids (w_hub w)) (h_metrics (w_hub w))) w))).
Proof.
  intros Hd Hnew. unfold insert_forwarder. rewrite st_bind. cbn [get_st fst snd]. rewrite Hnew, st_bind. unfold started.
  assert (∀ t, set_tasks t (set_hub (MkHub (h_broker (w_hub w)) (h_chans (w_hub w)) (h_ids (w_hub w)) (h_metrics (w_hub w))) w) = set_tasks t w)
    as Hhub by (intros t; by destruct w as [[] ? ? ? ? ? ? ? ? ? ? ? ? ? ?]).
  unfold start_subscription. destruct group as [g|].
  - eexists _, _, _. split; [done|]. cbn. by destruct w as [[] ? ? ? ? ? ? ? ? ? ? ? ? ? ?].
  - unfold task_for. exists (World.Forwarder (length (w_tasks w)) (ack && negb durable)).
    destruct durable; [destruct Hd as [?|[-> _]]; [done|]; destruct (as_topic f) as [topic|]|destruct ack];
      (eexists _, _; split; [done|]); rewrite Hhub; done.
Qed.

(** The links hear about it when nobody on this node was interested before. *)
Definition announces_gain (w : World) (f : TopicFilter) (ok : bool) (h h' : Hub) : Prop :=
  if ok && negb (is_interested (w_interest w) f) then announced w f true h h' else h' = h.

Lemma run_granted c e f w w1 :
  Interest.wf (w_interest w) → NoDup (link_sender <$> all_links (w_peer_links w)) → roomy c w1 →
  w_peer_links w1 = w_peer_links w → w_acls w1 = w_acls w → w_node w1 = w_node w →
  ∃ ok h1 h2,
    run (sent ← reply c (Message.Ack (Message.id e));
         if negb sent then mret false
         else _ ← (if (Interest.subscribe f (w_interest w)).1 : bool then sync (propagate_interest f true) else mret ()); mret true) w1
      = Some (ok, set_hub h2 w1)
    ∧ answered c (Message.Ack (Message.id e)) ok (w_node w) (w_hub w1) h1 ∧ announces_gain w f ok h1 h2.
Proof.
  intros Hi Hnd Hr Hl Ha Hn. rewrite run_bind. destruct (run_reply c (Message.Ack (Message.id e)) w1 Hr) as (ok & h1 & -> & Hans).
  rewrite Hn in Hans. cbn [mbind option_bind fst snd]. exists ok, h1. unfold announces_gain. destruct ok; cbn [negb andb]; [|by exists h1].
  rewrite is_interested_count, subscribe_answer, run_bind by done. destruct (Interest.count (w_interest w) f =? 0); cbn [negb].
  - rewrite run_sync. destruct (propagate_announces f true (set_hub h1 w1)) as (h2 & -> & Hp); [by cbn; rewrite Hl|].
    exists h2. split; [done|]. split; [done|]. unfold announced, audience in *. cbn in Hp. by rewrite Hl, Ha, Hn in Hp.
  - by exists h1.
Qed.

(** C14: what a subscribe comes to. A durable one that asks for what does not
    go together is refused, and one that the list of the connection's role does
    not permit; each gets one error naming its request, the second is counted,
    and nothing else changes. A repeated one is acknowledged and changes
    nothing. A granted one starts the task it asked for, or joins its group, is
    registered under its filter and counted; the connection is acknowledged
    first, and then, if nobody on the node was interested before, each link
    that may hear about the filter is told once. *)
Theorem subscribe_gate (c : ConnectionContext) (e : Envelope) (f : TopicFilter) (ack : bool) (group : option rstr) (durable : bool) (w : World) :
  roomy c w → Interest.wf (w_interest w) → NoDup (link_sender <$> all_links (w_peer_links w)) →
  ∃ ok w', run (handle_subscribe c e f ack group durable) w = Some (ok, w')
    ∧ match verdict c f ack group durable w with
      | Rejected message => ∃ h, w' = set_hub h w
          ∧ answered c (Message.Error (Some (Message.id e)) message) ok (w_node w) (w_hub w) h
      | Unauthorized => ∃ h, w' = set_hub h w
          ∧ answered c (Message.Error (Some (Message.id e)) (unauthorized f)) ok (w_node w)
              (DeadLetter.count (rejection_counter c) (w_hub w)).2 h
      | Repeated => ∃ h, w' = set_hub h w ∧ answered c (Message.Ack (Message.id e)) ok (w_node w) (w_hub w) h
      | Granted => ∃ s tasks b h1 h2, started c (sender e) f ack group durable w s tasks b
          ∧ let w1 := subscribed c f s tasks b w in
            w' = set_hub h2 w1 ∧ answered c (Message.Ack (Message.id e)) ok (w_node w) (w_hub w1) h1
            ∧ announces_gain w f ok h1 h2
      end.
Proof.
  intros Hr Hi Hnd. unfold handle_subscribe, verdict. rewrite run_sync_bind. cbn [gets fst snd].
  destruct (if durable then durable_rejection _ ack group (peer_fingerprint c) f else None) as [m|] eqn:Hrej.
  { destruct (run_reply c (Message.Error (Some (Message.id e)) m) w Hr) as (ok & h & -> & Ha). eexists ok, _. split; [done|]. by exists h. }
  rewrite run_sync_bind. cbn [may_subscribe gets fst snd].
  destruct (filter_acl_permits (w_acls w) (is_peer c) (principal c) f TopicAcl.Subscribe) eqn:Hp; cbn [negb].
  2:{ unfold refuse_subscribe. rewrite run_sync_bind. unfold count_rejection. fold (rejection_counter c).
      destruct (run_reply c (Message.Error (Some (Message.id e)) (unauthorized f)) (metric (rejection_counter c) w).2 Hr) as (ok & h & Hrun & Ha).
      eexists ok, _. split; [exact Hrun|]. by exists h. }
  rewrite run_sync_bind. destruct (forwarders_of (forwarders c) w !! f) as [s|] eqn:Hf.
  - assert (insert_forwarder c (sender e) f ack group durable w = (false, w)) as ->.
    { unfold insert_forwarder. rewrite st_bind. cbn [get_st fst snd]. by rewrite Hf. }
    cbn [fst snd]. rewrite run_ret_bind. cbn [negb]. rewrite run_ret_bind.
    destruct (run_reply c (Message.Ack (Message.id e)) w Hr) as (ok & h & Hrun & Ha). rewrite run_bind, Hrun. cbn [mbind option_bind fst snd].
    exists ok, (set_hub h w). destruct ok; (split; [done|]); by exists h.
  - destruct (insert_forwarder_spec c (sender e) f ack group durable w) as (s & tasks & b & Hs & ->); [|done|].
    { destruct durable; [right|by left]. unfold durable_rejection in Hrej. destruct ack; [done|]. split; [done|]. by destruct group. }
    cbn [fst snd]. rewrite run_sync_bind. cbn [may_subscribe gets fst snd]. cbn [w_acls with_forwarders set_forwarders set_tasks set_hub].
    rewrite Hp. cbn [negb]. rewrite run_sync_bind.
    destruct (run_granted c e f w (subscribed c f s tasks b w) Hi Hnd) as (ok & h1 & h2 & Hrun & Ha & Hg); [|done..|].
    + exact Hr.
    + exists ok, (set_hub h2 (subscribed c f s tasks b w)). split; [exact Hrun|]. by exists s, tasks, b, h1, h2.
Qed.

(** ** Unsubscribing *)

(** A forwarder out of its map and stopped: nothing is sent for it any more, and
    no channel, counter or other task is touched. *)
Definition removed (c : ConnectionContext) (f : TopicFilter) (s : Subscription) (w w1 : World) : Prop :=
  framed (with_forwarders (forwarders c) (delete f (forwarders_of (forwarders c) w)) w) w1
  ∧ stopped f (outgoing_tx c) s w1 ∧ w_interest w1 = w_interest w
  ∧ (∀ n, handle_of s ≠ Some n → w_tasks w1 !! n = w_tasks w !! n)
  ∧ h_chans (w_hub w1) = h_chans (w_hub w) ∧ h_ids (w_hub w1) = h_ids (w_hub w) ∧ h_metrics (w_hub w1) = h_metrics (w_hub w).

Lemma stop_subscription_hub f out s w :
  let h := w_hub (stop_subscription f out s w).2 in
  h_chans h = h_chans (w_hub w) ∧ h_ids h = h_ids (w_hub w) ∧ h_metrics h = h_metrics (w_hub w).
Proof.
  destruct s as [n a|g]; cbn [stop_subscription]; [|done]. unfold abort, end_task.
  destruct (w_tasks w !! n) as [[t|]|]; [|done..]. cbn. by destruct (task_phase t).
Qed.

Lemma remove_forwarder_spec c f s w :
  forwarders_of (forwarders c) w !! f = Some s →
  ∃ w1, remove_forwarder c f w = (true, w1) ∧ removed c f s w w1.
Proof.
  intros Hf. unfold remove_forwarder. rewrite st_bind. cbn [get_st fst snd]. rewrite Hf, st_bind. cbn [modify fst snd]. rewrite st_bind.
  set (w0 := with_forwarders (forwarders c) (delete f (forwarders_of (forwarders c) w)) w).
  destruct (stop_subscription_spec f (outgoing_tx c) s w0) as (Hfr & _ & Hi & Hst & Ht).
  pose proof (stop_subscription_hub f (outgoing_tx c) s w0) as (Hc & Hid & Hm). eexists. by split.
Qed.

(** The links hear about the loss of the last interest on this node. *)
Definition announces_loss (w : World) (f : TopicFilter) (ok : bool) (h h' : Hub) : Prop :=
  if ok && (Interest.count (w_interest w) f =? 1) then announced w f false h h' else h' = h.

Lemma run_release_interest f w :
  NoDup (link_sender <$> all_links (w_peer_links w)) →
  ∃ h, run (release_interest f) w = Some ((), set_interest (Interest.unsubscribe f (w_interest w)).2 (set_hub h w))
    ∧ announces_loss w f true (w_hub w) h.
Proof.
  intros Hnd. unfold release_interest, announces_loss. cbn [andb]. rewrite run_sync_bind, <-unsubscribe_answer. unfold on_interest, on.
  destruct (Interest.unsubscribe f (w_interest w)) as [lost i]. cbn [fst snd]. destruct lost.
  - rewrite run_sync. destruct (propagate_announces f false (set_interest i w) Hnd) as (h & -> & Ha). by exists h.
  - exists (w_hub w). split; [by destruct w|done].
Qed.

(** C15: what an unsubscribe comes to. The connection is acknowledged either way.
    Without a forwarder for the filter nothing else happens. With one, it has
    left its map and been stopped before the acknowledgement is sent; if that
    is sent, its count is released, and each link that may hear about the
    filter is told once if it was the last on the node. If the connection is
    gone by then, the count is not released. *)
Theorem unsubscribe_gate (c : ConnectionContext) (e : Envelope) (f : TopicFilter) (w : World) :
  roomy c w → NoDup (link_sender <$> all_links (w_peer_links w)) →
  ∃ ok w', run (handle_unsubscribe c e f) w = Some (ok, w')
    ∧ match forwarders_of (forwarders c) w !! f with
      | None => ∃ h, w' = set_hub h w ∧ answered c (Message.Ack (Message.id e)) ok (w_node w) (w_hub w) h
      | Some s => ∃ w1 h1 h2, removed c f s w w1
          ∧ answered c (Message.Ack (Message.id e)) ok (w_node w) (w_hub w1) h1 ∧ announces_loss w f ok h1 h2
          ∧ w' = set_interest (if ok then (Interest.unsubscribe f (w_interest w)).2 else w_interest w) (set_hub h2 w1)
      end.
Proof.
  intros Hr Hnd. unfold handle_unsubscribe. rewrite run_sync_bind. destruct (forwarders_of (forwarders c) w !! f) as [s|] eqn:Hf.
  - destruct (remove_forwarder_spec c f s w Hf) as (w1 & -> & Hw1). cbn [fst snd].
    pose proof Hw1 as ((h & i & t & ->) & _ & Hi & _ & Hc & _). cbn [w_interest set_tasks set_interest] in Hi. subst i.
    set (w1 := set_tasks t _) in *. rewrite run_bind. destruct (run_reply c (Message.Ack (Message.id e)) w1) as (ok & h1 & -> & Ha).
    { unfold roomy in *. by rewrite Hc. }
    cbn [mbind option_bind fst snd]. destruct ok; cbn [negb].
    + destruct (run_release_interest f (set_hub h1 w1) Hnd) as (h2 & Hrel & Hl). rewrite run_bind, Hrel. cbn [mbind option_bind fst snd].
      eexists true, _. split; [done|]. by exists w1, h1, h2.
    + exists false, (set_hub h1 w1). split; [done|]. exists w1, h1, h1. by split_and!.
  - assert (remove_forwarder c f w = (false, w)) as ->.
    { unfold remove_forwarder. rewrite st_bind. cbn [get_st fst snd]. by rewrite Hf. }
    cbn [fst snd]. rewrite run_bind. destruct (run_reply c (Message.Ack (Message.id e)) w Hr) as (ok & h & -> & Ha).
    cbn [mbind option_bind fst snd]. exists ok, (set_hub h w). destruct ok; (split; [done|]); by exists h.
Qed.
End subscribing.

Import SampleNode.

(** A subscription on the sample node. *)
Lemma subscribe_gate_witness :
  let e := request 1 (Message.Subscribe SampleNode.filter false None false) in
  ∃ w', run (handle_subscribe SampleHandler.ctx e SampleNode.filter false None false) SampleHandler.opened.2 = Some (true, w')
    ∧ Interest.count (w_interest w') SampleNode.filter = 1 ∧ length (w_tasks w') = 1.
Proof.
  intros e.
  destruct (@subscribe_gate SampleNode.sample_broadcast SampleNode.sample_mpsc SampleNode.sample_store SampleNode.sample_uuids (Reference.ref_mpsc_laws Envelope)
    SampleHandler.ctx e SampleNode.filter false None false SampleHandler.opened.2) as (ok & w' & Hr & Hw).
  - right. intros x. vm_compute. reflexivity.
  - apply interest_wf_new.
  - vm_compute. constructor.
  - change (verdict _ _ _ _ _ _) with Granted in Hw. cbv iota in Hw.
    destruct Hw as (s & tasks & b & h1 & h2 & (-> & -> & ->) & -> & (_ & _ & _ & Ha) & _). destruct ok.
    + eexists. split; [exact Hr|]. split; [vm_compute; reflexivity|reflexivity].
    + destruct Ha as [Ha _]. vm_compute in Ha. discriminate.
Defined.

(** ... and its end. *)
Lemma unsubscribe_gate_witness :
  let w := (advance 30 (staying None 0 [0]) SampleNode.world).2 in
  ∃ w', run (handle_unsubscribe SampleHandler.ctx (request 2 (Message.Unsubscribe SampleNode.filter)) SampleNode.filter) w = Some (true, w')
    ∧ Interest.count (w_interest w') SampleNode.filter = 0.
Proof.
  intros w.
  destruct (@unsubscribe_gate SampleNode.sample_broadcast SampleNode.sample_mpsc SampleNode.sample_store SampleNode.sample_uuids (Reference.ref_mpsc_laws Envelope)
    SampleHandler.ctx (request 2 (Message.Unsubscribe SampleNode.filter)) SampleNode.filter w) as (ok & w' & Hr & Hw).
  - right. intros x. vm_compute. reflexivity.
  - vm_compute. constructor.
  - assert (forwarders_of (forwarders SampleHandler.ctx) w !! SampleNode.filter = Some (World.Forwarder 0 false)) as Hf by (vm_compute; reflexivity).
    rewrite Hf in Hw. destruct Hw as (w1 & h1 & h2 & (_ & _ & _ & _ & Hc & _) & (_ & _ & _ & Ha) & _ & ->). destruct ok.
    + eexists. split; [exact Hr|]. vm_compute. reflexivity.
    + destruct Ha as [Ha _]. rewrite Hc in Ha. vm_compute in Ha. discriminate.
Defined.
