(* ===== verification/Peering.v ===== *)
(** * Outbound dialing ([thoth-mesh-node/src/peering.rs])

    One [Dial] per address, each a loop of [dial_peer_with_reconnect]: wait for
    one of the dial slots, connect and shake hands, hand the link over, sleep,
    again. Durations and instants are in nanoseconds. What a connect answers,
    and when, is the environment's. *)

From S2P Require Import Prelude.
From S2P Require Import Text.

#[local] Open Scope nat_scope.

Definition DEFAULT_MAX_CONCURRENT_DIALS : nat := 16.

Definition INITIAL_BACKOFF : Z := 500 * 10 ^ 6.
Definition MAX_BACKOFF : Z := 30 * 10 ^ 9.
Definition MIN_HEALTHY_DURATION : Z := 5 * 10 ^ 9.
Definition DIAL_TIMEOUT : Z := 10 * 10 ^ 9.

Definition next_backoff (previous connection_uptime : Z) : Z :=
  if (MIN_HEALTHY_DURATION <=? connection_uptime)%Z then INITIAL_BACKOFF else Z.min (previous * 2) MAX_BACKOFF.

(** Where the loop of one address is: in [acquire_owned], in
    [connect_and_handshake], in [handle_connection], in [sleep]. *)
Inductive Phase : Type :=
| Acquiring
| Connecting (since : Z)
| Linked
| Sleeping (until : Z).

Record Dial := MkDial {
  peer_addr : rstr;
  backoff : Z;
  attempt_start : Z;
  phase : Phase;
}.

(** The dials and the semaphore they share. *)
Record Dialer := MkDialer { dial_semaphore : nat; dials : list Dial }.

Definition new : Dialer := MkDialer DEFAULT_MAX_CONCURRENT_DIALS [].

(** [tokio::spawn(dial_peer_with_reconnect(peer_addr, …))] *)
Definition spawn (now : Z) (addr : rstr) (s : Dialer) : Dialer :=
  MkDialer (dial_semaphore s) (dials s ++ [MkDial addr INITIAL_BACKOFF now Acquiring]).

Definition spawn_seed_peers (now : Z) (seed_peers : list rstr) (s : Dialer) : Dialer :=
  fold_left (λ s addr, spawn now addr s) seed_peers s.
Definition spawn_discovery_dialer (now : Z) (discovered : list rstr) (s : Dialer) : Dialer :=
  fold_left (λ s addr, spawn now addr s) discovered s.

(** The end of an attempt: the next delay, from how long the attempt lasted. *)
Definition attempt_over (now : Z) (d : Dial) : Dial :=
  let delay := next_backoff (backoff d) (now - attempt_start d) in
  MkDial (peer_addr d) delay (attempt_start d) (Sleeping (now + delay)).

Definition in_phase (p : Phase) (d : Dial) : Dial := MkDial (peer_addr d) (backoff d) (attempt_start d) p.

(** What [connect_and_handshake] came to, under its timeout. *)
Inductive Outcome : Type :=
| Established
| Failed
| TimedOut.

(** What one dial does next; [None] when it has to wait. *)
Inductive Move : Type :=
| Acquire
| Finish (o : Outcome)
| Down
| Wake.

Definition move (m : Move) (now : Z) (permits : nat) (d : Dial) : option (nat * Dial) :=
  match m, phase d with
  | Acquire, Acquiring =>
      match permits with O => None | S permits' => Some (permits', in_phase (Connecting now) d) end
  | Finish Established, Connecting _ => Some (S permits, in_phase Linked d)
  | Finish Failed, Connecting since =>
      if (now - since <? DIAL_TIMEOUT)%Z then Some (S permits, attempt_over now d) else None
  | Finish TimedOut, Connecting since =>
      if (DIAL_TIMEOUT <=? now - since)%Z then Some (S permits, attempt_over now d) else None
  | Down, Linked => Some (permits, attempt_over now d)
  | Wake, Sleeping until =>
      if (until <=? now)%Z then Some (permits, MkDial (peer_addr d) (backoff d) now Acquiring) else None
  | _, _ => None
  end.

Definition dial_peer (i : nat) (m : Move) (now : Z) (s : Dialer) : option Dialer :=
  d ← dials s !! i;
  r ← move m now (dial_semaphore s) d;
  Some (MkDialer r.1 (<[i := r.2]> (dials s))).

(** Instants do not go back. *)
Inductive step : Z * Dialer → Z * Dialer → Prop :=
| StepSpawn now now' addr s : (now ≤ now')%Z → step (now, s) (now', spawn now' addr s)
| StepDial now now' i m s s' : (now ≤ now')%Z → dial_peer i m now' s = Some s' → step (now, s) (now', s').

Inductive reachable : Z * Dialer → Prop :=
| ReachNew now : reachable (now, new)
| ReachStep s s' : reachable s → step s s' → reachable s'.

(** ** Slots and delays *)

Definition connecting (s : Dialer) : nat :=
  length (List.filter (λ d, match phase d with Connecting _ => true | _ => false end) (dials s)).

(** The delay of a dial that is asleep, or the one its next attempt starts
    from. *)
Definition wf (s : Dialer) : Prop :=
  dial_semaphore s + connecting s = DEFAULT_MAX_CONCURRENT_DIALS
  ∧ Forall (λ d, INITIAL_BACKOFF ≤ backoff d ≤ MAX_BACKOFF)%Z (dials s).

Lemma next_backoff_bounds previous uptime :
  (INITIAL_BACKOFF ≤ previous ≤ MAX_BACKOFF → INITIAL_BACKOFF ≤ next_backoff previous uptime ≤ MAX_BACKOFF)%Z.
Proof. unfold next_backoff, INITIAL_BACKOFF, MAX_BACKOFF. destruct (_ <=? _)%Z; lia. Qed.

Definition busy (d : Dial) : nat := match phase d with Connecting _ => 1 | _ => 0 end.

Lemma move_spec m now permits d r d' :
  move m now permits d = Some (r, d') →
  r + busy d' = permits + busy d
  ∧ (INITIAL_BACKOFF ≤ backoff d ≤ MAX_BACKOFF → INITIAL_BACKOFF ≤ backoff d' ≤ MAX_BACKOFF)%Z.
Proof.
  unfold move, busy. destruct m as [|[]| |], (phase d); try done;
    repeat case_match; try done; intros [= <- <-]; cbn; split; try lia; try done; apply next_backoff_bounds.
Qed.

Lemma connecting_insert i d d' p (s : Dialer) q :
  dials s !! i = Some d →
  connecting (MkDialer p (<[i := d']> (dials s))) + busy d = connecting (MkDialer q (dials s)) + busy d'.
Proof.
  unfold connecting, busy. cbn. generalize (dials s). intros l. revert i.
  induction l as [|x l IH]; intros [|i] Hi; simplify_eq/=.
  - destruct (phase d), (phase d'); cbn; lia.
  - specialize (IH i Hi). destruct (phase x); cbn; lia.
Qed.

Lemma wf_step s s' : step s s' → wf s.2 → wf s'.2.
Proof.
  intros Hs [Hp Hb]. destruct Hs as [now now' addr s _|now now' i m s s' _ Hd]; cbn in *.
  - split; cbn.
    + unfold connecting in *. cbn. rewrite List.filter_app, length_app. cbn. lia.
    + apply Forall_app. split; [done|]. constructor; [|done]. cbn. unfold INITIAL_BACKOFF, MAX_BACKOFF. lia.
  - unfold dial_peer in Hd. destruct (dials s !! i) as [d|] eqn:Hi; [|done]. cbn in Hd.
    destruct (move m now' (dial_semaphore s) d) as [[p d']|] eqn:Hm; [|done]. cbn in Hd. injection Hd as <-.
    apply move_spec in Hm as [Hperm Hback]. split; cbn.
    + pose proof (connecting_insert i d d' p s (dial_semaphore s) Hi) as Hc. unfold connecting in *. cbn in *. lia.
    + apply Forall_insert; [done|]. apply Hback. exact (Forall_lookup_1 _ _ _ _ Hb Hi).
Qed.



(** The first delay after a first failed attempt is a second already. *)
Example first_retry_after_one_second : next_backoff INITIAL_BACKOFF 0 = (10 ^ 9)%Z.
Proof. reflexivity. Qed.

(** An attempt that ran into its timeout lasted longer than a healthy
    connection has to, so it resets the delay: a peer that accepts and stays
    silent is dialed again half a second later, every time. *)
Lemma timed_out_dial_resets_backoff d since now :
  phase d = Connecting since → (attempt_start d ≤ since)%Z → (DIAL_TIMEOUT ≤ now - since)%Z →
  ∀ permits, move (Finish TimedOut) now permits d
    = Some (S permits, MkDial (peer_addr d) INITIAL_BACKOFF (attempt_start d) (Sleeping (now + INITIAL_BACKOFF))).
Proof.
  intros Hp Hs Ht permits. unfold move. rewrite Hp. destruct (Z.leb_spec DIAL_TIMEOUT (now - since)); [|lia].
  unfold attempt_over, next_backoff. destruct (Z.leb_spec MIN_HEALTHY_DURATION (now - attempt_start d)); [done|].
  unfold MIN_HEALTHY_DURATION, DIAL_TIMEOUT in *. lia.
Qed.

(** So does the wait for a slot: a peer that refuses at once is dialed again
    half a second later when the dial had to wait five seconds for its slot. *)
Lemma slot_wait_resets_backoff d since now :
  phase d = Connecting since → (MIN_HEALTHY_DURATION ≤ since - attempt_start d)%Z → (since ≤ now < since + DIAL_TIMEOUT)%Z →
  ∀ permits, move (Finish Failed) now permits d
    = Some (S permits, MkDial (peer_addr d) INITIAL_BACKOFF (attempt_start d) (Sleeping (now + INITIAL_BACKOFF))).
Proof.
  intros Hp Hs Hn permits. unfold move. rewrite Hp. destruct (Z.ltb_spec (now - since) DIAL_TIMEOUT); [|lia].
  unfold attempt_over, next_backoff. by destruct (Z.leb_spec MIN_HEALTHY_DURATION (now - attempt_start d)); [|lia].
Qed.
