(* ===== verification/Reload.v ===== *)
(** * Applying a configuration reload ([spawn_reload_applier] of
      [thoth-mesh-node/src/lib.rs], [Reloadable] of [reload.rs]) *)

From S2P Require Import Prelude.
From S2P Require Import Text.
From S2P Require Import Topic.
From S2P Require Import Filter.
From S2P Require Import Runtime.
From S2P Require Import Message.
From S2P Require Import Interest.
From S2P Require Import TopicAcl.
From S2P Require Import PeerTopicFilter.
From S2P Require Import MessageStore.
From S2P Require Import Broker.
From S2P Require Import DeadLetter.
From S2P Require Import PeerLinks.
From S2P Require Import Forwarder.
From S2P Require Import Async.
From S2P Require Import Access.
From S2P Require Import World.
From S2P Require Import Connection.
From S2P Require Import ConnectionSpec.
From S2P Require Import Handlers.

#[local] Open Scope nat_scope.

(** [Reloadable::set] of each of the four. *)
Definition set_topic_acl (x : option TopicAcl) (a : ReloadableAcls) : ReloadableAcls :=
  MkReloadableAcls x (peer_topic_acl a) (allow_peer a) (peer_topic_filter a).
Definition set_peer_topic_acl (x : option TopicAcl) (a : ReloadableAcls) : ReloadableAcls :=
  MkReloadableAcls (topic_acl a) x (allow_peer a) (peer_topic_filter a).
Definition set_allow_peer (x : option (gset bytes)) (a : ReloadableAcls) : ReloadableAcls :=
  MkReloadableAcls (topic_acl a) (peer_topic_acl a) x (peer_topic_filter a).
Definition set_peer_topic_filter (x : option PeerTopicFilter) (a : ReloadableAcls) : ReloadableAcls :=
  MkReloadableAcls (topic_acl a) (peer_topic_acl a) (allow_peer a) x.

Section reload.
Context `{Broadcast Envelope} `{Mpsc Envelope} `{MessageStore} `{Uuids}.

Definition install (f : ReloadableAcls → ReloadableAcls) : ST World () := λ w, ((), set_acls (f (w_acls w)) w).

(** [disconnect_unless], and firing what it found. *)
Definition revoke_links (allowed : option (gset bytes)) : ST World () :=
  w ← get_st;
  for_each (PeerLinks.disconnect_unless (allowlist_permits allowed) (w_peer_links w)) (λ d, modify (notify_one d)).

Definition announce_interest : ST World () :=
  w ← get_st;
  on_hub (reconcile_interest (w_interest w) (node_id (w_node w)) (peer_topic_filter (w_acls w)) (w_peer_links w)).

(** One turn of the applier's loop, section by section. *)
Definition apply_reload (acls : ReloadableAcls) : Proc World () :=
  _ ← sync (install (set_topic_acl (topic_acl acls)));
  _ ← sync (install (set_peer_topic_acl (peer_topic_acl acls)));
  _ ← reconcile_topic_acls;
  _ ← sync (revoke_links (allow_peer acls));
  _ ← sync (install (set_allow_peer (allow_peer acls)));
  previous ← sync (gets (λ w, peer_topic_filter (w_acls w)));
  _ ← sync (install (set_peer_topic_filter (peer_topic_filter acls)));
  if bool_decide (previous = peer_topic_filter acls) then mret () else sync announce_interest.

(** Each reload in turn, until every sender is gone. *)
Fixpoint reload_applier (updates : list ReloadableAcls) : Proc World () :=
  match updates with
  | [] => mret ()
  | acls :: updates' => _ ← apply_reload acls; reload_applier updates'
  end.

(** ** What a reload does *)

Lemma notify_all_spec l w :
  ∃ n, (for_each l (λ d, modify (notify_one d)) w).2 = set_notified n w
    ∧ length n = length (w_notified w)
    ∧ ∀ d, d < length (w_notified w) → permit d (set_notified n w) = permit d w || bool_decide (d ∈ l).
Proof.
  revert w; induction l as [|d l IH]; intros w; cbn [for_each].
  { exists (w_notified w). split; [by destruct w|]. split; [done|]. intros d _. rewrite bool_decide_false by by apply not_elem_of_nil.
    by rewrite orb_false_r. }
  destruct (IH (notify_one d w)) as (n & Hn & Hl & Hp). exists n. split; [exact Hn|].
  cbn in Hl. rewrite length_insert in Hl. split; [done|]. intros d' Hd'.
  change (permit d' (set_notified n w)) with (permit d' (set_notified n (notify_one d w))).
  rewrite Hp by (cbn; by rewrite length_insert). unfold permit at 1, notify_one. cbn.
  destruct (decide (d = d')) as [->|Hne].
  - rewrite list_lookup_insert_eq by done. cbn. by rewrite bool_decide_true, orb_true_r by constructor.
  - rewrite list_lookup_insert_ne by done. f_equal. apply bool_decide_ext. rewrite elem_of_cons. naive_solver.
Qed.

Lemma reconcile_interest_broker interest n ptf s h :
  h_broker (reconcile_interest interest n ptf s h).2 = h_broker h.
Proof.
  unfold reconcile_interest. apply (for_each_inv (λ x, h_broker x = h_broker h)); [|done]. intros l h1 Hh1.
  apply (for_each_inv (λ x, h_broker x = h_broker h)); [|done]. intros f h2 Hh2.
  destruct (is_interested interest f); [|done]. destruct (reconcile_kind ptf (link_principal l) f); [|done].
  by rewrite st_bind.
Qed.

Lemma announce_interest_spec w :
  ∃ h, announce_interest w = ((), set_hub h w) ∧ h_broker h = h_broker (w_hub w).
Proof.
  unfold announce_interest, mbind, ST_bind, get_st, on_hub, on.
  pose proof (reconcile_interest_broker (w_interest w) (node_id (w_node w)) (peer_topic_filter (w_acls w)) (w_peer_links w)
    (w_hub w)) as Hb.
  destruct (reconcile_interest _ _ _ _ (w_hub w)) as [[] h]. by exists h.
Qed.

(** The sections of a reload in order, around the sweep. *)
Lemma run_apply_reload acls w w2 :
  let w1 := set_acls (set_peer_topic_acl (peer_topic_acl acls) (set_topic_acl (topic_acl acls) (w_acls w))) w in
  run reconcile_topic_acls w1 = Some ((), w2) → w_acls w2 = w_acls w1 →
  ∃ h, run (apply_reload acls) w = Some ((), set_hub h (set_acls acls (revoke_links (allow_peer acls) w2).2))
    ∧ h_broker h = h_broker (w_hub (revoke_links (allow_peer acls) w2).2).
Proof.
  intros w1 Hr Ha. unfold apply_reload. rewrite run_sync_bind, run_sync_bind, run_bind.
  change (install _ (install _ w).2).2 with w1. rewrite Hr. cbn [mbind option_bind fst snd].
  rewrite run_sync_bind. destruct (notify_all_spec (PeerLinks.disconnect_unless (allowlist_permits (allow_peer acls))
    (w_peer_links w2)) w2) as (n & Hn & _).
  assert ((revoke_links (allow_peer acls) w2).2 = set_notified n w2) as -> by exact Hn.
  rewrite !run_sync_bind. cbn [gets fst snd].
  set (w3 := (install _ (install _ (set_notified n w2)).2).2).
  assert (w3 = set_acls acls (set_notified n w2)) as ->.
  { unfold w3, install. cbn. unfold set_peer_topic_filter, set_allow_peer. rewrite Ha. cbn. by destruct acls. }
  destruct (bool_decide _).
  - by exists (w_hub w2).
  - rewrite run_sync. destruct (announce_interest_spec (set_acls acls (set_notified n w2))) as (h & -> & Hb). by exists h.
Qed.

(** A reload run alone. *)
Lemma apply_reload_spec (acls : ReloadableAcls) (w : World) :
  NoDup (entry_forwarders <$> World.snapshot (w_registry w)) →
  ∃ w', run (apply_reload acls) w = Some ((), w')
    ∧ w_acls w' = acls
    ∧ (∀ entry f s, entry ∈ World.snapshot (w_registry w) →
         forwarders_of (entry_forwarders entry) w' !! f = Some s
         ↔ forwarders_of (entry_forwarders entry) w !! f = Some s ∧ permitted acls w entry f = true)
    ∧ (∀ entry f s, entry ∈ World.snapshot (w_registry w) →
         forwarders_of (entry_forwarders entry) w !! f = Some s → permitted acls w entry f = false →
         stopped f (entry_outgoing_tx entry) s w')
    ∧ (w_peer_links w' = w_peer_links w ∧ w_registry w' = w_registry w ∧ w_is_peer w' = w_is_peer w ∧ w_node w' = w_node w)
    ∧ ∀ d, d < length (w_notified w) →
        permit d w' = permit d w
          || bool_decide (d ∈ PeerLinks.disconnect_unless (allowlist_permits (allow_peer acls)) (w_peer_links w)).
Proof.
  intros Hnd. set (w1 := set_acls (set_peer_topic_acl (peer_topic_acl acls) (set_topic_acl (topic_acl acls) (w_acls w))) w).
  destruct (reconcile_entries_spec (w_acls w1) (World.snapshot (w_registry w1)) w1 Hnd)
    as (w2 & Hr & _ & (h & i & t & fw & Hw2) & _ & Hk & Hst & _).
  destruct (run_apply_reload acls w w2) as (h' & Hrun & Hb).
  { unfold reconcile_topic_acls. by rewrite !run_sync_bind. }
  { by rewrite Hw2. }
  destruct (notify_all_spec (PeerLinks.disconnect_unless (allowlist_permits (allow_peer acls)) (w_peer_links w2)) w2)
    as (n & Hn & _ & Hp).
  assert ((revoke_links (allow_peer acls) w2).2 = set_notified n w2) as Hrev by exact Hn. rewrite Hrev in Hrun, Hb.
  eexists. split; [exact Hrun|]. split; [done|]. split; [exact Hk|]. split.
  { intros entry f s He Hf Hpf. eapply stopped_shrinks; [|by apply (Hst entry f s)]. apply shrinks_same; [done|].
    cbn. by rewrite Hb. }
  rewrite Hw2 in Hp |- *. split; [done|]. exact Hp.
Qed.

(** Reloads one after the other: the lists of the last one, and only the
    subscriptions they all permit. *)
Lemma reload_applier_spec (updates : list ReloadableAcls) (w : World) :
  NoDup (entry_forwarders <$> World.snapshot (w_registry w)) →
  ∃ w', run (reload_applier updates) w = Some ((), w')
    ∧ w_acls w' = unwrap_or (w_acls w) (last updates)
    ∧ (w_registry w' = w_registry w ∧ w_is_peer w' = w_is_peer w ∧ w_node w' = w_node w)
    ∧ ∀ entry f s, entry ∈ World.snapshot (w_registry w) →
        forwarders_of (entry_forwarders entry) w' !! f = Some s
        ↔ forwarders_of (entry_forwarders entry) w !! f = Some s ∧ Forall (λ a, permitted a w entry f = true) updates.
Proof.
  revert w; induction updates as [|a updates IH]; intros w Hnd; cbn [reload_applier].
  { exists w. split; [done|]. split; [done|]. split; [done|]. intros entry f s _. split; [|by intros [? _]]. intros Hf. by split. }
  destruct (apply_reload_spec a w Hnd) as (w1 & Hr1 & Ha1 & Hk1 & _ & (_ & Hreg1 & Hp1 & Hn1) & _).
  destruct (IH w1) as (w2 & Hr2 & Ha2 & (Hreg2 & Hp2 & Hn2) & Hk2); [by rewrite Hreg1|].
  exists w2. rewrite run_bind, Hr1. split; [exact Hr2|]. split; [|split; [split; [congruence|split; congruence]|]].
  { rewrite Ha2, Ha1. by destruct updates as [|b l] using rev_ind; [|rewrite last_snoc, app_comm_cons, last_snoc]. }
  intros entry f s He. rewrite Hk2 by by rewrite Hreg1. rewrite Hk1 by done. rewrite Forall_cons.
  assert (Forall (λ x, permitted x w1 entry f = true) updates ↔ Forall (λ x, permitted x w entry f = true) updates) as ->; [|tauto].
  apply Forall_iff. intros x. unfold permitted. by rewrite Hp1.
Qed.

(** C21: run to its end with nobody in between, a reload has installed
    all four lists; every connection is subscribed to exactly what it was and
    the new list of its role permits, what it lost has stopped; every link the
    new allowlist does not permit has its disconnect fired, and no other. *)
Theorem reload_applies (acls : ReloadableAcls) (w : World) :
  NoDup (entry_forwarders <$> World.snapshot (w_registry w)) →
  ∃ w', run (apply_reload acls) w = Some ((), w')
    ∧ w_acls w' = acls
    ∧ (∀ entry f s, entry ∈ World.snapshot (w_registry w) →
         forwarders_of (entry_forwarders entry) w' !! f = Some s
         ↔ forwarders_of (entry_forwarders entry) w !! f = Some s ∧ permitted acls w entry f = true)
    ∧ (∀ entry f s, entry ∈ World.snapshot (w_registry w) →
         forwarders_of (entry_forwarders entry) w !! f = Some s → permitted acls w entry f = false →
         stopped f (entry_outgoing_tx entry) s w')
    ∧ w_peer_links w' = w_peer_links w
    ∧ ∀ d, d < length (w_notified w) →
        permit d w' = permit d w
          || bool_decide (d ∈ PeerLinks.disconnect_unless (allowlist_permits (allow_peer acls)) (w_peer_links w)).
Proof.
  intros Hnd. destruct (apply_reload_spec acls w Hnd) as (w' & Hr & Ha & Hk & Hst & (Hl & _) & Hp). by exists w'.
Qed.
End reload.

(** ** A link that registers while its principal is revoked

    The applier looks for the links to disconnect before it installs the new
    allowlist. A connection that passed its first check and registers in
    between is not in what the applier saw, and its second check still reads
    the old list. *)

(** Two tasks, each in two stretches. *)
Lemma sched_two `{Broadcast Envelope} `{Mpsc Envelope} `{MessageStore} `{Uuids} (T : Proc World () → Prop) O E p q w n1 n2 n3 n4 :
  T p → T q →
  let s1 := advance n1 p w in
  let s2 := advance n2 q s1.2 in
  let s3 := advance n3 s1.1 s2.2 in
  let s4 := advance n4 s2.1 s3.2 in
  sched T O E ([], w) ([s3.1; s4.1], s4.2).
Proof.
  intros Hp Hq s1 s2 s3 s4.
  assert (∀ n ps1 x ps2 v s, sched T O E (ps1 ++ (advance n x v).1 :: ps2, (advance n x v).2) s →
    sched T O E (ps1 ++ x :: ps2, v) s) as Hrun.
  { intros n ps1 x ps2 v s. apply sched_trans, sched_advance. }
  eapply sched_trans; [eapply SchedTrans; [eapply SchedTrans; [constructor|by apply (SchedStart _ _ _ _ q)]|by apply (SchedStart _ _ _ _ p)]|].
  apply (Hrun n1 []), (Hrun n2 [s1.1]), (Hrun n3 []), (Hrun n4 [s3.1]). constructor.
Qed.

Import SampleNode.

Module RevokeRace.
Definition fp : bytes := replicate 32 1%Z.
Definition hello : Envelope := request 1 (Hello None).
Definition peer : Proc World () :=
  run_connection (Sample.decode [hello]) (Some fp) 0 None [Incoming (Ok [0%Z]); Revoked].
(** Nobody may link any more. *)
Definition closed : ReloadableAcls := MkReloadableAcls None None (Some ∅) None.
Definition reload : Proc World () := apply_reload closed.

Definition checked := advance 6 peer world.
Definition scanned := advance 6 reload checked.2.
Definition linked := advance 30 checked.1 scanned.2.
Definition installed := advance 30 scanned.1 linked.2.
Definition final : World := installed.2.
Definition task (p : Proc World ()) : Prop := connection_task (Sample.decode [hello]) p ∨ p = reload.
Definition never (w w' : World) : Prop := False.
End RevokeRace.

(** Afterwards everybody waits, the new list is installed, and a link it does
    not permit is registered with nothing to disconnect it. *)
Lemma reload_misses_a_link :
  sched RevokeRace.task RevokeRace.never RevokeRace.never ([], world)
    ([RevokeRace.linked.1; RevokeRace.installed.1], RevokeRace.final)
  ∧ parked RevokeRace.linked.1 ∧ RevokeRace.installed.1 = Ret ()
  ∧ allow_peer (w_acls RevokeRace.final) = Some ∅
  ∧ map (λ l, (link_principal l, permit (link_disconnect l) RevokeRace.final)) (all_links (w_peer_links RevokeRace.final))
    = [(Fp RevokeRace.fp, false)].
Proof.
  split; [|split; [|split; [|split]]].
  - apply (sched_two RevokeRace.task RevokeRace.never RevokeRace.never RevokeRace.peer RevokeRace.reload world 6 6 30 30);
      [left; by eexists _, _, _, _|by right].
  - apply (stuck_parked _ RevokeRace.final). vm_compute. reflexivity.
  - vm_compute. reflexivity.
  - vm_compute. reflexivity.
  - vm_compute. reflexivity.
Qed.

(** The new list takes a subscription away and leaves no link to revoke. *)
Lemma reload_applies_witness :
  ∃ w', run (apply_reload SampleHandler.closed_acl) (advance 30 (staying None 0 [0]) world).2 = Some ((), w')
    ∧ w_acls w' = SampleHandler.closed_acl ∧ forwarders_of 0 w' !! SampleNode.filter = None.
Proof.
  set (w := (advance 30 (staying None 0 [0]) world).2).
  assert (World.snapshot (w_registry w) = [MkConnectionEntry 0 Anonymous 0 0]) as Hsnap by by vm_compute.
  destruct (@reload_applies sample_broadcast sample_mpsc sample_store sample_uuids SampleHandler.closed_acl w)
    as (w' & Hr & Ha & Hk & _).
  - rewrite Hsnap. apply NoDup_singleton.
  - exists w'. split; [exact Hr|]. split; [exact Ha|].
    destruct (forwarders_of 0 w' !! SampleNode.filter) as [s|] eqn:Hs; [|done].
    apply (Hk (MkConnectionEntry 0 Anonymous 0 0)) in Hs as [_ Hp]; [vm_compute in Hp; discriminate|].
    rewrite Hsnap. apply list_elem_of_here.
Defined.
