(* ===== verification/Restart.v ===== *)
(** * Restarting from the on-disk store ([attach_store] and
      [rehydrate_from_store] of [thoth-mesh-node/src/lib.rs]) *)

From S2P Require Import Prelude.
From S2P Require Import Text.
From S2P Require Import Topic.
From S2P Require Import Filter.
From S2P Require Import Runtime.
From S2P Require Import Message.
From S2P Require Import Persistence.
From S2P Require Import SeenIds.
From S2P Require Import TopicChannel.
From S2P Require Import TopicMap.
From S2P Require Import MessageStore.
From S2P Require Import Broker.
From S2P Require Import BrokerSpec.
From S2P Require Import Publishing.

#[local] Open Scope nat_scope.

Section restart.
Context `{Broadcast Envelope} `{Mpsc Envelope} `{MessageStore}.

(** The broker to serve from, and the store to refill it from; [open] opens
    the store of a directory. *)
Definition attach_store (open : rstr → Result store_state io_error) (broker : Broker) (data_dir : option rstr) :
    Result (Broker * option store_state) io_error :=
  match data_dir with
  | None => Ok (broker, None)
  | Some dir => let? store := open dir in Ok (with_store store, Some store)
  end.

Definition rehydrate_from_store (store : store_state) : ST Broker (Result () io_error) := λ b,
  match load_recent DEFAULT_REPLAY_BUFFER_CAPACITY store with
  | Err e => (Err e, b)
  | Ok recent =>
      match load_retained store with
      | Err e => (Err e, b)
      | Ok retained =>
          (Ok (), ((_ ← for_each recent (λ p, rehydrate_buffer p.1 p.2);
                    for_each retained (λ p, rehydrate_retained p.1 p.2)) b).2)
      end
  end.

(** ** What a topic's channel holds *)

Context `{!BroadcastLaws Envelope}.

Definition channel_of (b : Broker) (t : Topic) : option TopicChannel := map (b_topics b) !! t ≫= λ a, b_heap b !! a.

(** The replay buffer and the retained message; nothing without a channel. *)
Definition held (b : Broker) (t : Topic) : list Envelope * option Envelope :=
  match channel_of b t with Some ch => (buffer ch, retained ch) | None => ([], None) end.

Definition topic_set (b : Broker) : gset Topic := dom (map (b_topics b)).

(** A topic's channel taken while the map has room: nothing else moves. *)
Lemma topic_channel_room t b :
  wf b → (t ∈ topic_set b ∨ size (topic_set b) < DEFAULT_TOPIC_MAP_CAPACITY) →
  let '(arc, b') := topic_channel t b in
  ∃ ch, b_heap b' !! arc = Some ch ∧ map (b_topics b') !! t = Some arc
    ∧ (buffer ch, retained ch) = held b t ∧ topic_set b' = topic_set b ∪ {[t]}
    ∧ (∀ t', t' ≠ t → channel_of b' t' = channel_of b t' ∧ map (b_topics b') !! t' ≠ Some arc).
Proof.
  intros Hwf Hroom. unfold topic_channel. destruct Hwf as (Ht & _). unfold topic_set in *. rewrite size_dom in Hroom.
  pose proof (get_or_insert_spec t (b_topics b) (b_heap b) (b_topic_evictions b) Ht) as Hs.
  unfold held, channel_of. destruct (map (b_topics b) !! t) as [a|] eqn:Ha.
  - unfold get_or_insert in *. rewrite Ha in *. cbn in *.
    destruct (touch_spec t (b_topics b) (proj2 (proj1 (proj2 Ht) t) (mk_is_Some _ _ Ha)) (proj1 Ht)) as [Hm _].
    rewrite Hm in *. destruct Hs as (_ & _ & Hlt & _ & Hown & _).
    apply lookup_lt_is_Some in Hlt as [ch Hch]. exists ch. split; [done|]. split; [done|].
    split; [by rewrite Hch|]. split; [apply elem_of_dom_2 in Ha; set_solver|].
    intros t' Hne. split; [done|]. intros Ht'%Hown. naive_solver.
  - pose proof (insert_spec t (b_topics b) (b_heap b) (b_topic_evictions b) Ht Ha) as Hi.
    destruct (get_or_insert t (b_topics b) (b_heap b) (b_topic_evictions b)) as [arc [[m h] ev]]. cbn in *.
    destruct Hi as (-> & -> & _ & Hcase). rewrite decide_True in Hcase.
    2:{ destruct Hroom as [Hin|]; [|done]. apply elem_of_dom in Hin as [? ?]. congruence. }
    destruct Hcase as [-> _]. exists TopicChannel.new. cbn.
    rewrite lookup_app_r, Nat.sub_diag by done. split; [done|]. rewrite lookup_insert_eq. split; [done|]. split; [done|].
    split; [rewrite dom_insert_L; set_solver|]. intros t' Hne. rewrite lookup_insert_ne by done.
    destruct (map (b_topics b) !! t') as [a|] eqn:Ha'; [|done]. apply Ht in Ha' as Hlt. cbn.
    rewrite lookup_app_l by done. split; [done|]. intros [= ->]. lia.
Qed.

(** Changing what a topic holds, not who listens. *)
Lemma update_held t (g : TopicChannel → TopicChannel) b :
  wf b → (t ∈ topic_set b ∨ size (topic_set b) < DEFAULT_TOPIC_MAP_CAPACITY) →
  (∀ ch, channel_sender (g ch) = channel_sender ch) →
  let b' := ((arc ← topic_channel t; on_channel () arc (λ ch, ((), g ch))) b).2 in
  wf b' ∧ topic_set b' = topic_set b ∪ {[t]}
  ∧ (∃ ch, (buffer ch, retained ch) = held b t ∧ held b' t = (buffer (g ch), retained (g ch)))
  ∧ ∀ t', t' ≠ t → held b' t' = held b t'.
Proof.
  intros Hwf Hroom Hg b'. unfold b'. rewrite st_bind.
  pose proof (topic_channel_spec t b Hwf) as Hspec. pose proof (topic_channel_room t b Hwf Hroom) as Hr.
  destruct (topic_channel t b) as [arc b1]. cbn [fst snd]. destruct Hspec as ([Hwf1 _] & _).
  destruct Hr as (ch & Hch & Ht & Hheld & Hset & Hother).
  assert (wf (on_channel () arc (λ ch, ((), g ch)) b1).2) as Hwf2.
  { apply on_channel_keeps; [done|]. intros c i q. unfold unread_queues. cbn. by rewrite Hg. }
  unfold on_channel in *. rewrite Hch in *. cbn [snd] in *. split; [done|]. split; [exact Hset|]. split.
  - exists ch. split; [done|]. unfold held, channel_of. cbn. rewrite Ht. cbn.
    by rewrite list_lookup_insert_eq by by eapply lookup_lt_Some.
  - intros t' Hne. destruct (Hother t' Hne) as [Hc Hm]. unfold held. rewrite <-Hc. unfold channel_of. cbn.
    destruct (map (b_topics b1) !! t') as [a|]; [|done]. cbn. by rewrite list_lookup_insert_ne by congruence.
Qed.

(** One loop of the rehydration: each key once, each topic updated by [g]. *)
Lemma update_all {A} (body : Topic * A → ST Broker ()) (g : A → list Envelope * option Envelope → list Envelope * option Envelope)
    (ok : A → Prop) (l : list (Topic * A)) b :
  (∀ t x b, wf b → ok x → (t ∈ topic_set b ∨ size (topic_set b) < DEFAULT_TOPIC_MAP_CAPACITY) →
     wf (body (t, x) b).2 ∧ topic_set (body (t, x) b).2 = topic_set b ∪ {[t]}
     ∧ held (body (t, x) b).2 t = g x (held b t) ∧ ∀ t', t' ≠ t → held (body (t, x) b).2 t' = held b t') →
  wf b → NoDup l.*1 → Forall (λ p, ok p.2) l →
  size (topic_set b ∪ list_to_set l.*1) ≤ DEFAULT_TOPIC_MAP_CAPACITY →
  let b' := (for_each l body b).2 in
  wf b' ∧ topic_set b' = topic_set b ∪ list_to_set l.*1
  ∧ ∀ t, held b' t = match (list_to_map l : gmap Topic A) !! t with Some x => g x (held b t) | None => held b t end.
Proof.
  intros Hbody. revert b. induction l as [|[t x] l IH]; intros b Hwf Hnd Hok Hsize; cbn.
  { split; [done|]. split; [by rewrite (right_id_L ∅ (∪))|]. intros t. done. }
  cbn in Hnd. apply NoDup_cons in Hnd as [Hni Hnd]. apply Forall_cons in Hok as [Hx Hok]. cbn in Hsize.
  destruct (Hbody t x b Hwf Hx) as (Hwf1 & Hset1 & Ht1 & Ho1).
  { destruct (decide (t ∈ topic_set b)) as [|Hn]; [by left|right].
    assert (size (topic_set b ∪ {[t]}) ≤ size (topic_set b ∪ ({[t]} ∪ list_to_set l.*1))) by (apply subseteq_size; clear; set_solver).
    assert (topic_set b ## {[t]}) as Hdisj by (intros u Hu ->%elem_of_singleton; contradiction).
    apply size_union in Hdisj as Hsz. rewrite size_singleton in Hsz. lia. }
  destruct (IH (body (t, x) b).2 Hwf1 Hnd Hok) as (Hwf2 & Hset2 & Hheld2).
  { rewrite Hset1, <-(assoc_L (∪)). done. }
  split; [done|]. split; [by rewrite Hset2, Hset1, <-(assoc_L (∪))|].
  intros t'. rewrite Hheld2. destruct (decide (t = t')) as [<-|Hne].
  - rewrite lookup_insert_eq. destruct (list_to_map l !! t) as [y|] eqn:Hy; [|done].
    apply elem_of_list_to_map_2 in Hy. destruct Hni. by apply (list_elem_of_fmap_2 fst) in Hy.
  - rewrite lookup_insert_ne by done. by rewrite Ho1.
Qed.

Lemma rehydrate_buffer_update t es b :
  wf b → es ≠ [] → (t ∈ topic_set b ∨ size (topic_set b) < DEFAULT_TOPIC_MAP_CAPACITY) →
  wf (rehydrate_buffer t es b).2 ∧ topic_set (rehydrate_buffer t es b).2 = topic_set b ∪ {[t]}
  ∧ held (rehydrate_buffer t es b).2 t
    = (window DEFAULT_REPLAY_BUFFER_CAPACITY ((held b t).1 ++ es), (held b t).2)
  ∧ ∀ t', t' ≠ t → held (rehydrate_buffer t es b).2 t' = held b t'.
Proof.
  intros Hwf Hes Hroom. unfold rehydrate_buffer. rewrite decide_False by done.
  destruct (update_held t (λ ch, MkTopicChannel (channel_sender ch)
    (window DEFAULT_REPLAY_BUFFER_CAPACITY (buffer ch ++ es)) (retained ch)) b Hwf Hroom ltac:(done))
    as (Hwf' & Hset & (ch & Hch & Hheld) & Hother).
  split; [exact Hwf'|]. split; [exact Hset|]. split; [|exact Hother]. by rewrite Hheld, <-Hch.
Qed.

Lemma rehydrate_retained_update t e b :
  wf b → (t ∈ topic_set b ∨ size (topic_set b) < DEFAULT_TOPIC_MAP_CAPACITY) →
  wf (rehydrate_retained t e b).2 ∧ topic_set (rehydrate_retained t e b).2 = topic_set b ∪ {[t]}
  ∧ held (rehydrate_retained t e b).2 t = ((held b t).1, Some e)
  ∧ ∀ t', t' ≠ t → held (rehydrate_retained t e b).2 t' = held b t'.
Proof.
  intros Hwf Hroom. unfold rehydrate_retained.
  destruct (update_held t (λ ch, MkTopicChannel (channel_sender ch) (buffer ch) (Some e)) b Hwf Hroom ltac:(done))
    as (Hwf' & Hset & (ch & Hch & Hheld) & Hother).
  split; [exact Hwf'|]. split; [exact Hset|]. split; [|exact Hother]. by rewrite Hheld, <-Hch.
Qed.

(** What a loaded table says of one topic. *)
Lemma loaded_lookup {A} (l : list (Topic * A)) (t : Topic) (o : option A) :
  NoDup l.*1 → (∀ x, (t, x) ∈ l ↔ o = Some x) → (list_to_map l : gmap Topic A) !! t = o.
Proof.
  intros Hnd Hin. destruct o as [x|].
  - by apply elem_of_list_to_map, Hin.
  - apply not_elem_of_list_to_map. intros ([t' x] & -> & Hx)%list_elem_of_fmap. by apply Hin in Hx.
Qed.

Context `{!MessageStoreLaws}.

Definition loaded_topics {A B} (l : list (Topic * A)) (k : list (Topic * B)) : gset Topic :=
  list_to_set l.*1 ∪ list_to_set k.*1.

(** A node that restarts on its data directory takes up
    where the store left off. When the store reads back and its topics fit the
    topic map, refilling a new broker succeeds, and then every topic's replay
    buffer is the last 256 messages the store holds for it, in order, and its
    retained message the one the store holds, none where it holds none; the
    broker is well formed. *)
Theorem restart_restores (store : store_state) l k :
  store_ok store →
  load_recent DEFAULT_REPLAY_BUFFER_CAPACITY store = Ok l →
  load_retained store = Ok k →
  size (loaded_topics l k) ≤ DEFAULT_TOPIC_MAP_CAPACITY →
  let '(answer, b) := rehydrate_from_store store (with_store store) in
  answer = Ok () ∧ wf b
  ∧ ∀ t, held b t = (window DEFAULT_REPLAY_BUFFER_CAPACITY (of_topic t (stored store)), retained_value store t).
Proof.
  intros Hok Hl Hk Hsize. unfold rehydrate_from_store. rewrite Hl, Hk. split; [done|]. rewrite st_bind.
  destruct (load_recent_ok _ _ _ Hok Hl) as [Hndl Hinl]. destruct (load_retained_ok _ _ Hok Hk) as [Hndk Hink].
  destruct broker_wf_new as [_ Hnew]. specialize (Hnew store).
  assert (topic_set (with_store store) = ∅) as Hempty by (unfold topic_set; cbn; by rewrite dom_empty_L).
  destruct (update_all (λ p, rehydrate_buffer p.1 p.2)
    (λ es h, (window DEFAULT_REPLAY_BUFFER_CAPACITY (h.1 ++ es), h.2)) (λ es, es ≠ []) l (with_store store))
    as (Hwf1 & Hset1 & Hheld1); [|done|done| | |].
  { intros t es b Hb Hes. by apply rehydrate_buffer_update. }
  { apply Forall_forall. intros [t es] Hin. by apply Hinl in Hin as [_ ?]. }
  { rewrite Hempty. etrans; [|exact Hsize]. apply subseteq_size. unfold loaded_topics. clear. set_solver. }
  destruct (for_each l (λ p, rehydrate_buffer p.1 p.2) (with_store store)) as [[] b1]. cbn [fst snd] in *.
  destruct (update_all (λ p, rehydrate_retained p.1 p.2) (λ e h, (h.1, Some e)) (λ _, True) k b1)
    as (Hwf2 & _ & Hheld2); [|done|done| | |].
  { intros t e b Hb _. by apply rehydrate_retained_update. }
  { by apply Forall_forall. }
  { rewrite Hset1, Hempty, (left_id_L ∅ (∪)). exact Hsize. }
  split; [done|]. intros t. rewrite Hheld2, Hheld1.
  rewrite (loaded_lookup k t (retained_value store t) Hndk) by (intros e; by rewrite Hink).
  set (w := window DEFAULT_REPLAY_BUFFER_CAPACITY (of_topic t (stored store))) in *.
  rewrite (loaded_lookup l t (if decide (w = []) then None else Some w) Hndl).
  2:{ intros es. rewrite Hinl. fold w. destruct (decide (w = [])); naive_solver congruence. }
  replace (held (with_store store) t) with ([] : list Envelope, None : option Envelope)
    by (unfold held, channel_of; cbn; by rewrite lookup_empty).
  cbn [fst snd app]. destruct (decide (w = [])) as [->|_]; [by destruct (retained_value store t)|].
  assert (window DEFAULT_REPLAY_BUFFER_CAPACITY w = w) as ->.
  { apply window_all. unfold w. rewrite length_window. lia. }
  by destruct (retained_value store t).
Qed.
End restart.

(** A node restarting on the file that [PersistenceSample.es] were appended to:
    ["b"] has three messages and the last of them retained, ["a"] two and
    nothing retained. *)
Module RestartSample.
Import Persistence Persistence.PersistenceSample.

#[local] Instance broadcast : Broadcast Envelope := Reference.ref_broadcast Envelope.
#[local] Instance broadcast_laws : BroadcastLaws Envelope := Reference.ref_broadcast_laws Envelope.
#[local] Instance mpsc : Mpsc Envelope := Reference.ref_mpsc Envelope.
#[local] Instance store : MessageStore := sqlite enc dec (λ _, []) (λ _, []) no_fault.
#[local] Instance store_laws : MessageStoreLaws := sqlite_laws enc dec (λ _, []) (λ _, []) no_fault (Sample.sample_codec es).

Definition file : SqliteStore := match append_all enc (λ _, []) no_fault es opened with Ok s => s | Err _ => opened end.
End RestartSample.

#[local] Existing Instances RestartSample.broadcast RestartSample.broadcast_laws RestartSample.mpsc
  RestartSample.store RestartSample.store_laws.

Lemma sample_file_ok : store_ok RestartSample.file.
Proof.
  apply (append_all_spec PersistenceSample.enc PersistenceSample.dec (λ _, [])
    PersistenceSample.no_fault (Sample.sample_codec _) PersistenceSample.es PersistenceSample.opened);
    [apply sample_opened_ok|apply sample_envelopes_ok|by vm_compute].
Qed.

Lemma sample_file_fits l k :
  load_recent DEFAULT_REPLAY_BUFFER_CAPACITY RestartSample.file = Ok l → load_retained RestartSample.file = Ok k →
  size (loaded_topics l k) ≤ DEFAULT_TOPIC_MAP_CAPACITY.
Proof. intros Hl Hk. apply Nat.leb_le. vm_compute in Hl, Hk. injection Hl as <-. injection Hk as <-. by vm_compute. Qed.

Lemma restart_restores_witness :
  let '(answer, b) := rehydrate_from_store RestartSample.file (with_store RestartSample.file) in
  answer = Ok ()
  ∧ held b (Sample.topic (lit "b"))
    = ([PersistenceSample.e 1 (lit "b") [7%Z]; PersistenceSample.e 3 (lit "b") []; PersistenceSample.e 4 (lit "b") [9%Z]],
       Some (PersistenceSample.e 4 (lit "b") [9%Z]))
  ∧ (held b (Sample.topic (lit "a"))).2 = None.
Proof.
  assert (is_ok (load_recent DEFAULT_REPLAY_BUFFER_CAPACITY RestartSample.file) && is_ok (load_retained RestartSample.file)
    = true) as [Hl' Hk']%andb_prop by by vm_compute.
  apply is_ok_true in Hl' as [l Hl], Hk' as [k Hk].
  pose proof (restart_restores RestartSample.file l k sample_file_ok Hl Hk (sample_file_fits l k Hl Hk)) as Hr.
  destruct (rehydrate_from_store _ _) as [answer b].
  destruct Hr as (-> & _ & Hheld). split; [done|]. rewrite !Hheld. split; by vm_compute.
Defined.

(** Two publishes with [retain] set on one topic, overlapping: the first gives
    way once the store has it, the second goes through, the first goes on. The
    broker retains the first, its store the second: a restart changes what a
    subscriber is shown, and the order of the replay buffer. *)
Example overlap_changes_on_restart :
  let b := PublishingSample.third.2.1 in
  let restarted := b_store b ≫= λ store, Some (rehydrate_from_store store (with_store store)).2 in
  held b PublishingSample.b = ([PublishingSample.e4; PublishingSample.e1], Some PublishingSample.e1)
  ∧ (λ b', held b' PublishingSample.b) <$> restarted
    = Some ([PublishingSample.e1; PublishingSample.e4], Some PublishingSample.e4).
Proof. split; apply (bool_decide_eq_true_1 _); by vm_compute. Qed.
