(* ===== verification/NodeConfig.v ===== *)
(** * The daemon's configuration ([thoth-mesh-node/src/main.rs], [config.rs])

    From the command line and the config file to the options a node starts
    with, and to the lists a [SIGHUP] reloads. An [io::Error] is what its
    message says. The TOML parser is a parameter, as is the conventional path;
    the file system is what reading a path answers at the moment. *)

From S2P Require Import Prelude.
From S2P Require Import Text.
From S2P Require Import Topic.
From S2P Require Import Runtime.
From S2P Require Import Fingerprint.
From S2P Require Import TopicAcl.
From S2P Require Import PeerTopicFilter.
From S2P Require Import RateLimit.
From S2P Require Import Access.

#[local] Open Scope nat_scope.

Definition DEFAULT_ADDR : rstr := lit "127.0.0.1:49500".

(** [config.rs]: what a file may give. *)
Module Config.
Record Config := MkConfig {
  addr : option rstr;
  log_level : option rstr;
  peer : list rstr;
  metrics_addr : option rstr;
  data_dir : option rstr;
  tls_cert : option rstr;
  tls_key : option rstr;
  tls_ca : option rstr;
  allow_peer : list rstr;
  topic_acl : list rstr;
  peer_topic_acl : list rstr;
  peer_topic_filter : list rstr;
  metrics_token_file : option rstr;
  persisted_message_ttl_secs : option Z;
  dead_letter_topic : option rstr;
  publish_rate_limit_per_sec : option Z;
  publish_rate_limit_burst : option Z;
}.

Definition default : Config :=
  MkConfig None None [] None None None None None [] [] [] [] None None None None None.
End Config.

(** [main.rs]: what the command line gives. *)
Module Cli.
Record Cli := MkCli {
  config : option rstr;
  addr : option rstr;
  log_level : option rstr;
  peers : list rstr;
  metrics_addr : option rstr;
  data_dir : option rstr;
  tls_cert : option rstr;
  tls_key : option rstr;
  tls_ca : option rstr;
  allow_peer : list rstr;
  topic_acl : list rstr;
  peer_topic_acl : list rstr;
  peer_topic_filter : list rstr;
  metrics_token_file : option rstr;
  persisted_message_ttl_secs : option Z;
  dead_letter_topic : option rstr;
  publish_rate_limit_per_sec : option Z;
  publish_rate_limit_burst : option Z;
}.
End Cli.

Record EffectiveConfig := MkEffectiveConfig {
  addr : rstr;
  log_level : rstr;
  peers : list rstr;
  metrics_addr : option rstr;
  data_dir : option rstr;
  tls_cert : option rstr;
  tls_key : option rstr;
  tls_ca : option rstr;
  allow_peer : list rstr;
  topic_acl : list rstr;
  peer_topic_acl : list rstr;
  peer_topic_filter : list rstr;
  metrics_token_file : option rstr;
  persisted_message_ttl_secs : option Z;
  dead_letter_topic : option rstr;
  publish_rate_limit_per_sec : option Z;
  publish_rate_limit_burst : option Z;
}.

Inductive ConfigError : Type :=
| TlsIncomplete
| AllowPeerWithoutTls
| TokenFileWithoutMetrics
| TtlWithoutDataDir
| BurstWithoutRate
| InvalidAllowPeer (raw : rstr) (e : ParseFingerprintError)
| InvalidTopicAcl (flag : rstr) (e : TopicAclParseError)
| InvalidPeerTopicFilter (e : PeerTopicFilterParseError)
| TokenFile (path : rstr) (e : io_error)
| TokenFileEmpty (path : rstr)
| InvalidDeadLetterTopic (raw : rstr) (e : TopicError)
| RateZero
| BurstZero
| InvalidToml (path : rstr) (e : rstr)
| Io (e : io_error)
| FileVanished (path : rstr) (e : io_error).

(** [if bad { return Err(e) }] *)
Definition reject_if (bad : bool) (e : ConfigError) : Result () ConfigError := if bad then Err e else Ok ().

Definition is_some {A} (o : option A) : bool := match o with Some _ => true | None => false end.
Definition is_empty {A} (l : list A) : bool := match l with [] => true | _ => false end.
(** [Option::or] *)
Definition or {A} (a b : option A) : option A := match a with Some _ => a | None => b end.

Definition merge_list (cli file : list rstr) : list rstr := if is_empty cli then file else cli.

Definition merge (cli : Cli.Cli) (file : Config.Config) : Result EffectiveConfig ConfigError :=
  let tls_cert := or (Cli.tls_cert cli) (Config.tls_cert file) in
  let tls_key := or (Cli.tls_key cli) (Config.tls_key file) in
  let tls_ca := or (Cli.tls_ca cli) (Config.tls_ca file) in
  let? _ := reject_if (negb (eqb (is_some tls_cert) (is_some tls_key) && eqb (is_some tls_key) (is_some tls_ca)))
              TlsIncomplete in
  let allow_peer := merge_list (Cli.allow_peer cli) (Config.allow_peer file) in
  let? _ := reject_if (negb (is_empty allow_peer) && negb (is_some tls_cert)) AllowPeerWithoutTls in
  let metrics_addr := or (Cli.metrics_addr cli) (Config.metrics_addr file) in
  let metrics_token_file := or (Cli.metrics_token_file cli) (Config.metrics_token_file file) in
  let? _ := reject_if (is_some metrics_token_file && negb (is_some metrics_addr)) TokenFileWithoutMetrics in
  let data_dir := or (Cli.data_dir cli) (Config.data_dir file) in
  let persisted_message_ttl_secs := or (Cli.persisted_message_ttl_secs cli) (Config.persisted_message_ttl_secs file) in
  let? _ := reject_if (is_some persisted_message_ttl_secs && negb (is_some data_dir)) TtlWithoutDataDir in
  let publish_rate_limit_per_sec := or (Cli.publish_rate_limit_per_sec cli) (Config.publish_rate_limit_per_sec file) in
  let publish_rate_limit_burst := or (Cli.publish_rate_limit_burst cli) (Config.publish_rate_limit_burst file) in
  let? _ := reject_if (is_some publish_rate_limit_burst && negb (is_some publish_rate_limit_per_sec)) BurstWithoutRate in
  Ok {|
    addr := unwrap_or DEFAULT_ADDR (or (Cli.addr cli) (Config.addr file));
    log_level := unwrap_or (lit "info") (or (Cli.log_level cli) (Config.log_level file));
    peers := merge_list (Cli.peers cli) (Config.peer file);
    metrics_addr := metrics_addr;
    data_dir := data_dir;
    tls_cert := tls_cert;
    tls_key := tls_key;
    tls_ca := tls_ca;
    allow_peer := allow_peer;
    topic_acl := merge_list (Cli.topic_acl cli) (Config.topic_acl file);
    peer_topic_acl := merge_list (Cli.peer_topic_acl cli) (Config.peer_topic_acl file);
    peer_topic_filter := merge_list (Cli.peer_topic_filter cli) (Config.peer_topic_filter file);
    metrics_token_file := metrics_token_file;
    persisted_message_ttl_secs := persisted_message_ttl_secs;
    dead_letter_topic := or (Cli.dead_letter_topic cli) (Config.dead_letter_topic file);
    publish_rate_limit_per_sec := publish_rate_limit_per_sec;
    publish_rate_limit_burst := publish_rate_limit_burst;
  |}.

(** The loop over [--allow-peer], and the [HashSet] it fills. *)
Fixpoint parse_allow_peers (raws : list rstr) (acc : gset bytes) : Result (gset bytes) ConfigError :=
  match raws with
  | [] => Ok acc
  | raw :: raws' =>
      let? fingerprint := map_err (InvalidAllowPeer raw) (parse_fingerprint raw) in
      parse_allow_peers raws' (acc ∪ {[fingerprint]})
  end.
Definition parse_allow_peer (raws : list rstr) : Result (option (gset bytes)) ConfigError :=
  if is_empty raws then Ok None else let? fingerprints := parse_allow_peers raws ∅ in Ok (Some fingerprints).

Definition parse_topic_acl (flag : rstr) (entries : list rstr) : Result (option TopicAcl) ConfigError :=
  if is_empty entries then Ok None
  else let? acl := map_err (InvalidTopicAcl flag) (TopicAcl.parse entries) in Ok (Some acl).

Definition parse_peer_topic_filter (entries : list rstr) : Result (option PeerTopicFilter) ConfigError :=
  if is_empty entries then Ok None
  else let? f := map_err InvalidPeerTopicFilter (PeerTopicFilter.parse entries) in Ok (Some f).

(** [TlsConfig] of [tls_config.rs]. *)
Record TlsConfig := MkTlsConfig { cert : rstr; key : rstr; ca : rstr; allowed_peers : option (gset bytes) }.

(** [NodeOptions], its [reload] receiver apart. *)
Record NodeOptions := MkNodeOptions {
  o_tls : option TlsConfig;
  o_topic_acl : option TopicAcl;
  o_peer_topic_acl : option TopicAcl;
  o_peer_topic_filter : option PeerTopicFilter;
  o_data_dir : option rstr;
  o_persisted_message_ttl : option Z;
  o_dead_letter_topic : option Topic;
  o_rate_limit : option RateLimitConfig;
}.

(** What a reload re-derives the lists from. *)
Record ReloadSource := MkReloadSource {
  config_path : option rstr;
  config_file_existed_at_startup : bool;
  cli_allow_peer : list rstr;
  cli_topic_acl : list rstr;
  cli_peer_topic_acl : list rstr;
  cli_peer_topic_filter : list rstr;
  tls_configured : bool;
}.

Inductive ReadResult : Type :=
| Contents (text : rstr)
| NotFound (e : io_error)
| Unreadable (e : io_error).

(** What the file system answers to [read_to_string] and [metadata]. *)
Record Fs := MkFs { read_to_string : rstr → ReadResult; metadata : rstr → Result () io_error }.

Section config.
Context (from_toml : rstr → Result Config.Config rstr) (default_path : option rstr).

Definition load (fs : Fs) (explicit : option rstr) : Result Config.Config ConfigError :=
  match or explicit default_path with
  | None => Ok Config.default
  | Some path =>
      match read_to_string fs path with
      | Contents contents => map_err (InvalidToml path) (from_toml contents)
      | NotFound _ => Ok Config.default
      | Unreadable err => Err (Io err)
      end
  end.

Definition metrics_token (fs : Fs) (file : option rstr) : Result (option rstr) ConfigError :=
  match file with
  | None => Ok None
  | Some path =>
      match read_to_string fs path with
      | Contents raw => let token := trim raw in
          if is_empty token then Err (TokenFileEmpty path) else Ok (Some token)
      | NotFound err
      | Unreadable err => Err (TokenFile path err)
      end
  end.

Definition parse_dead_letter_topic (o : option rstr) : Result (option Topic) ConfigError :=
  match o with
  | None => Ok None
  | Some raw => let? t := map_err (InvalidDeadLetterTopic raw) (Topic.from_str raw) in Ok (Some t)
  end.

Definition rate_limit (per_sec burst : option Z) : Result (option RateLimitConfig) ConfigError :=
  match per_sec, burst with
  | None, _ => Ok None
  | Some 0%Z, _ => Err RateZero
  | Some _, Some 0%Z => Err BurstZero
  | Some per_sec, burst => Ok (Some (MkRateLimitConfig per_sec (unwrap_or per_sec burst)))
  end.

(** The TLS flags, once all or none of them are given. *)
Definition tls_config (c : EffectiveConfig) (allowed_peers : option (gset bytes)) : option TlsConfig :=
  match tls_cert c, tls_key c, tls_ca c with
  | Some cert, Some key, Some ca => Some (MkTlsConfig cert key ca allowed_peers)
  | _, _, _ => None
  end.

(** [main], from the merged configuration to the options and the token. *)
Definition node_options (fs : Fs) (c : EffectiveConfig) : Result (NodeOptions * option rstr) ConfigError :=
  let? allowed_peers := parse_allow_peer (allow_peer c) in
  let tls := tls_config c allowed_peers in
  let? topic_acl := parse_topic_acl (lit "--topic-acl") (topic_acl c) in
  let? peer_topic_acl := parse_topic_acl (lit "--peer-topic-acl") (peer_topic_acl c) in
  let? peer_topic_filter := parse_peer_topic_filter (peer_topic_filter c) in
  let? token := metrics_token fs (metrics_token_file c) in
  let? dead_letter_topic := parse_dead_letter_topic (dead_letter_topic c) in
  let? rate_limit := rate_limit (publish_rate_limit_per_sec c) (publish_rate_limit_burst c) in
  Ok (MkNodeOptions tls topic_acl peer_topic_acl peer_topic_filter (data_dir c) (persisted_message_ttl_secs c)
        dead_letter_topic rate_limit, token).

(** [main] up to [run_with_tls]. *)
Definition main (fs : Fs) (cli : Cli.Cli) : Result (EffectiveConfig * NodeOptions * option rstr * ReloadSource) ConfigError :=
  let config_path := or (Cli.config cli) default_path in
  let existed := match config_path with Some path => is_ok (metadata fs path) | None => false end in
  let? file := load fs config_path in
  let? c := merge cli file in
  let? o := node_options fs c in
  Ok (c, o.1, o.2,
    MkReloadSource config_path existed (Cli.allow_peer cli) (Cli.topic_acl cli) (Cli.peer_topic_acl cli)
      (Cli.peer_topic_filter cli) (is_some (o_tls o.1))).

(** [None] is the panic of the [expect]. *)
Definition reload (fs : Fs) (source : ReloadSource) : option (Result ReloadableAcls ConfigError) :=
  let derive :=
    let? file := load fs (config_path source) in
    let allow_peer := merge_list (cli_allow_peer source) (Config.allow_peer file) in
    let? _ := reject_if (negb (is_empty allow_peer) && negb (tls_configured source)) AllowPeerWithoutTls in
    let? allow_peer := parse_allow_peer allow_peer in
    let? topic_acl := parse_topic_acl (lit "--topic-acl") (merge_list (cli_topic_acl source) (Config.topic_acl file)) in
    let? peer_topic_acl :=
      parse_topic_acl (lit "--peer-topic-acl") (merge_list (cli_peer_topic_acl source) (Config.peer_topic_acl file)) in
    let? peer_topic_filter :=
      parse_peer_topic_filter (merge_list (cli_peer_topic_filter source) (Config.peer_topic_filter file)) in
    Ok (MkReloadableAcls topic_acl peer_topic_acl allow_peer peer_topic_filter) in
  if config_file_existed_at_startup source then
    match config_path source with
    | None => None
    | Some path =>
        match metadata fs path with
        | Err err => Some (Err (FileVanished path err))
        | Ok _ => Some derive
        end
    end
  else Some derive.
End config.

(** ** Merging *)

(** Everything given on the command line that the file gives, unless it is
    there already. *)
Definition overlay (cli : Cli.Cli) (file : Config.Config) : Cli.Cli := {|
  Cli.config := Cli.config cli;
  Cli.addr := or (Cli.addr cli) (Config.addr file);
  Cli.log_level := or (Cli.log_level cli) (Config.log_level file);
  Cli.peers := merge_list (Cli.peers cli) (Config.peer file);
  Cli.metrics_addr := or (Cli.metrics_addr cli) (Config.metrics_addr file);
  Cli.data_dir := or (Cli.data_dir cli) (Config.data_dir file);
  Cli.tls_cert := or (Cli.tls_cert cli) (Config.tls_cert file);
  Cli.tls_key := or (Cli.tls_key cli) (Config.tls_key file);
  Cli.tls_ca := or (Cli.tls_ca cli) (Config.tls_ca file);
  Cli.allow_peer := merge_list (Cli.allow_peer cli) (Config.allow_peer file);
  Cli.topic_acl := merge_list (Cli.topic_acl cli) (Config.topic_acl file);
  Cli.peer_topic_acl := merge_list (Cli.peer_topic_acl cli) (Config.peer_topic_acl file);
  Cli.peer_topic_filter := merge_list (Cli.peer_topic_filter cli) (Config.peer_topic_filter file);
  Cli.metrics_token_file := or (Cli.metrics_token_file cli) (Config.metrics_token_file file);
  Cli.persisted_message_ttl_secs := or (Cli.persisted_message_ttl_secs cli) (Config.persisted_message_ttl_secs file);
  Cli.dead_letter_topic := or (Cli.dead_letter_topic cli) (Config.dead_letter_topic file);
  Cli.publish_rate_limit_per_sec := or (Cli.publish_rate_limit_per_sec cli) (Config.publish_rate_limit_per_sec file);
  Cli.publish_rate_limit_burst := or (Cli.publish_rate_limit_burst cli) (Config.publish_rate_limit_burst file);
|}.

(** What each refusal of a combination of settings says of them. *)
Definition unmet (e : ConfigError) (c : Cli.Cli) : Prop :=
  match e with
  | TlsIncomplete =>
      ¬ (is_Some (Cli.tls_cert c) ∧ is_Some (Cli.tls_key c) ∧ is_Some (Cli.tls_ca c)
         ∨ Cli.tls_cert c = None ∧ Cli.tls_key c = None ∧ Cli.tls_ca c = None)
  | AllowPeerWithoutTls => Cli.allow_peer c ≠ [] ∧ Cli.tls_cert c = None
  | TokenFileWithoutMetrics => is_Some (Cli.metrics_token_file c) ∧ Cli.metrics_addr c = None
  | TtlWithoutDataDir => is_Some (Cli.persisted_message_ttl_secs c) ∧ Cli.data_dir c = None
  | BurstWithoutRate => is_Some (Cli.publish_rate_limit_burst c) ∧ Cli.publish_rate_limit_per_sec c = None
  | _ => False
  end.

Lemma or_none_r {A} (a : option A) : or a None = a.
Proof. by destruct a. Qed.
Lemma merge_list_nil_r l : merge_list l [] = l.
Proof. by destruct l. Qed.
Lemma is_some_spec {A} (o : option A) : is_some o = true ↔ is_Some o.
Proof. destruct o; split; [by eexists|done|done|by intros []]. Qed.
Lemma is_empty_spec {A} (l : list A) : is_empty l = true ↔ l = [].
Proof. by destruct l. Qed.

Lemma reject_if_ok bad e {A} (k : Result A ConfigError) x :
  (let? _ := reject_if bad e in k) = Ok x ↔ bad = false ∧ k = Ok x.
Proof. destruct bad; cbn; [split; [done|by intros []]|naive_solver]. Qed.
Lemma merge_overlay cli file : merge cli file = merge (overlay cli file) Config.default.
Proof. unfold merge, overlay, Config.default. cbn. by rewrite !or_none_r, !merge_list_nil_r. Qed.

(** The five guards, of what the command line alone gives. *)
Lemma merge_cli_only c :
  match merge c Config.default with
  | Ok _ => ∀ e, ¬ unmet e c
  | Err e => unmet e c
  end.
Proof.
  unfold merge, Config.default. cbn. rewrite !or_none_r, !merge_list_nil_r.
  destruct c as [cfg ad ll ps ma dd tc tk ta ap acl pacl pf mt ttl dl rl bu]. cbn.
  destruct tc, tk, ta; cbn; try naive_solver.
  all: destruct ap; cbn; try (split; done); destruct mt, ma; cbn; try (split; [by eexists|done]);
    destruct ttl, dd; cbn; try (split; [by eexists|done]); destruct bu, rl; cbn; try (split; [by eexists|done]);
    intros []; cbn; naive_solver.
Qed.

(** A setting counts the same wherever it was given: the command line
    and the file merge to what a command line giving everything would, so the
    rules between settings hold across both sources. A refusal names a rule
    the merged settings break; settings that break none are accepted, and
    then a list is the command line's whole list or, without one, the
    file's. *)
Theorem merge_uniform (cli : Cli.Cli) (file : Config.Config) :
  merge cli file = merge (overlay cli file) Config.default
  ∧ (∀ e, merge cli file = Err e → unmet e (overlay cli file))
  ∧ ((∀ e, ¬ unmet e (overlay cli file)) → ∃ c, merge cli file = Ok c
      ∧ tls_config c None = (cert ← or (Cli.tls_cert cli) (Config.tls_cert file);
                             key ← or (Cli.tls_key cli) (Config.tls_key file);
                             ca ← or (Cli.tls_ca cli) (Config.tls_ca file);
                             Some (MkTlsConfig cert key ca None))
      ∧ (Cli.allow_peer cli ≠ [] → allow_peer c = Cli.allow_peer cli)
      ∧ (Cli.allow_peer cli = [] → allow_peer c = Config.allow_peer file)
      ∧ (Cli.topic_acl cli ≠ [] → topic_acl c = Cli.topic_acl cli)
      ∧ (Cli.topic_acl cli = [] → topic_acl c = Config.topic_acl file)
      ∧ (∀ a, Cli.addr cli = Some a → addr c = a)
      ∧ (Cli.addr cli = None → Config.addr file = None → addr c = DEFAULT_ADDR)).
Proof.
  split; [apply merge_overlay|]. pose proof (merge_cli_only (overlay cli file)) as Hm. rewrite <-merge_overlay in Hm.
  split; [by intros e He; rewrite He in Hm|]. intros Hmet.
  destruct (merge cli file) as [c|e] eqn:Hc; [|by destruct (Hmet e)]. exists c. split; [done|].
  unfold merge in Hc. rewrite !reject_if_ok in Hc. destruct Hc as (_ & _ & _ & _ & _ & [= <-]). cbn.
  split. { by destruct (or (Cli.tls_cert cli) _), (or (Cli.tls_key cli) _), (or (Cli.tls_ca cli) _). }
  unfold merge_list. destruct (Cli.allow_peer cli), (Cli.topic_acl cli), (Cli.addr cli), (Config.addr file); naive_solver.
Qed.

(** ** Reloading *)

(** The lists a node with these options starts with. *)
Definition acls_of (o : NodeOptions) : ReloadableAcls :=
  MkReloadableAcls (o_topic_acl o) (o_peer_topic_acl o) (o_tls o ≫= allowed_peers) (o_peer_topic_filter o).

Lemma and_then_ok {A B E} (r : Result A E) (f : A → Result B E) y :
  (let? x := r in f x) = Ok y ↔ ∃ x, r = Ok x ∧ f x = Ok y.
Proof. destruct r; cbn; naive_solver. Qed.

Section reload.
Context (from_toml : rstr → Result Config.Config rstr) (default_path : option rstr).

Lemma node_options_ok fs c o tok :
  node_options fs c = Ok (o, tok) →
  ∃ ap, parse_allow_peer (allow_peer c) = Ok ap ∧ o_tls o = tls_config c ap
    ∧ parse_topic_acl (lit "--topic-acl") (topic_acl c) = Ok (o_topic_acl o)
    ∧ parse_topic_acl (lit "--peer-topic-acl") (peer_topic_acl c) = Ok (o_peer_topic_acl o)
    ∧ parse_peer_topic_filter (peer_topic_filter c) = Ok (o_peer_topic_filter o)
    ∧ metrics_token fs (metrics_token_file c) = Ok tok
    ∧ parse_dead_letter_topic (dead_letter_topic c) = Ok (o_dead_letter_topic o)
    ∧ rate_limit (publish_rate_limit_per_sec c) (publish_rate_limit_burst c) = Ok (o_rate_limit o)
    ∧ o_data_dir o = data_dir c ∧ o_persisted_message_ttl o = persisted_message_ttl_secs c.
Proof.
  unfold node_options. intros (ap & Hap & (ta & Hta & (pa & Hpa & (pf & Hpf & (tk & Htk & (dl & Hdl &
    (rl & Hrl & [= <- <-])%and_then_ok)%and_then_ok)%and_then_ok)%and_then_ok)%and_then_ok)%and_then_ok)%and_then_ok.
  exists ap. done.
Qed.

(** What a start on the command line and a file comes to. *)
Lemma main_ok fs cli c o tok src :
  main from_toml default_path fs cli = Ok (c, o, tok, src) →
  let path := or (Cli.config cli) default_path in
  ∃ file, load from_toml default_path fs path = Ok file ∧ merge cli file = Ok c ∧ node_options fs c = Ok (o, tok)
    ∧ src = MkReloadSource path (match path with Some p => is_ok (metadata fs p) | None => false end)
        (Cli.allow_peer cli) (Cli.topic_acl cli) (Cli.peer_topic_acl cli) (Cli.peer_topic_filter cli)
        (is_some (o_tls o)).
Proof.
  unfold main. intros (file & Hf & (c' & Hm & ([o' tok'] & Ho & [= -> -> -> <-])%and_then_ok)%and_then_ok)%and_then_ok.
  exists file. done.
Qed.

Lemma merge_ok_lists cli file c :
  merge cli file = Ok c →
  (allow_peer c = [] ∨ is_Some (tls_cert c)) ∧ is_some (tls_cert c) = is_some (tls_config c None)
  ∧ allow_peer c = merge_list (Cli.allow_peer cli) (Config.allow_peer file)
  ∧ topic_acl c = merge_list (Cli.topic_acl cli) (Config.topic_acl file)
  ∧ peer_topic_acl c = merge_list (Cli.peer_topic_acl cli) (Config.peer_topic_acl file)
  ∧ peer_topic_filter c = merge_list (Cli.peer_topic_filter cli) (Config.peer_topic_filter file).
Proof.
  unfold merge. rewrite !reject_if_ok. intros (Ht & Ha & _ & _ & _ & [= <-]). cbn. unfold tls_config. cbn. split.
  - destruct (merge_list (Cli.allow_peer cli) _); [by left|right]. by destruct (or (Cli.tls_cert cli) _).
  - split; [|done]. by destruct (or (Cli.tls_cert cli) _), (or (Cli.tls_key cli) _), (or (Cli.tls_ca cli) _).
Qed.

Lemma tls_config_is_some c ap : is_some (tls_config c ap) = is_some (tls_config c None).
Proof. unfold tls_config. by destruct (tls_cert c), (tls_key c), (tls_ca c). Qed.

(** A reload on a file a node could start from. *)
Lemma reload_as_start fs0 fs1 cli c o tok src c1 o1 tok1 src1 :
  main from_toml default_path fs0 cli = Ok (c, o, tok, src) →
  main from_toml default_path fs1 cli = Ok (c1, o1, tok1, src1) →
  is_some (o_tls o1) = is_some (o_tls o) →
  (∀ path, config_file_existed_at_startup src = true → config_path src = Some path → is_ok (metadata fs1 path) = true) →
  reload from_toml default_path fs1 src = Some (Ok (acls_of o1)).
Proof.
  intros (_ & _ & _ & _ & ->)%main_ok (file & Hf & Hm & Ho & _)%main_ok Htls Hthere.
  apply node_options_ok in Ho as (ap & Hap & Ht & Hta & Hpa & Hpf & _).
  apply merge_ok_lists in Hm as (Hneed & Hcert & Eap & Eta & Epa & Epf).
  rewrite Eap in Hap. rewrite Eta in Hta. rewrite Epa in Hpa. rewrite Epf in Hpf. cbn in Hthere.
  assert (is_some (o_tls o) = is_some (tls_cert c1)) as Hsome by (by rewrite <-Htls, Ht, tls_config_is_some).
  unfold reload. cbn -[lit]. rewrite Hf. cbn -[lit]. rewrite Hap, Hta, Hpa, Hpf. cbn.
  assert (negb (is_empty (merge_list (Cli.allow_peer cli) (Config.allow_peer file))) && negb (is_some (o_tls o)) = false) as ->.
  { rewrite Hsome, <-Eap. destruct Hneed as [->|[x ->]]; [done|]. by rewrite andb_comm. }
  cbn. unfold acls_of. rewrite Ht.
  assert (tls_config c1 ap ≫= allowed_peers = ap) as ->.
  { rewrite Eap in Hneed. destruct Hneed as [Hnil|[x Hx]].
    - unfold parse_allow_peer in Hap. rewrite Hnil in Hap. injection Hap as <-. unfold tls_config. by repeat case_match.
    - rewrite Hx in Hcert. unfold tls_config in *. rewrite Hx in *. by destruct (tls_key c1), (tls_ca c1). }
  destruct (or (Cli.config cli) default_path) as [path|]; [|done].
  destruct (is_ok (metadata fs0 path)); [|done]. specialize (Hthere path eq_refl eq_refl).
  by destruct (metadata fs1 path).
Qed.

(** A reload installs what a restart would. It never panics; with
    the files as they were at startup it gives back the lists the node
    started with; with other files, whenever a node restarted on them would
    come up with TLS on or off as it is now, the reload succeeds with exactly
    that node's lists; and when the config file the node started from is gone
    the reload fails instead of clearing the lists that came from it. *)
Theorem reload_is_restart (fs0 fs1 : Fs) (cli : Cli.Cli) c o tok src :
  main from_toml default_path fs0 cli = Ok (c, o, tok, src) →
  reload from_toml default_path fs1 src ≠ None
  ∧ reload from_toml default_path fs0 src = Some (Ok (acls_of o))
  ∧ (∀ path, config_file_existed_at_startup src = true → config_path src = Some path →
       ∀ e, metadata fs1 path = Err e → reload from_toml default_path fs1 src = Some (Err (FileVanished path e)))
  ∧ ((∀ path, config_file_existed_at_startup src = true → config_path src = Some path → is_ok (metadata fs1 path) = true) →
     ∀ c1 o1 tok1 src1, main from_toml default_path fs1 cli = Ok (c1, o1, tok1, src1) →
       is_some (o_tls o1) = is_some (o_tls o) →
       reload from_toml default_path fs1 src = Some (Ok (acls_of o1))).
Proof.
  intros Hmain. pose proof Hmain as (file & _ & _ & _ & Hsrc)%main_ok. split; [|split; [|split]].
  - subst src. unfold reload. cbn. destruct (or _ _) as [path|]; [|done].
    destruct (is_ok (metadata fs0 path)); [|done]. by destruct (metadata fs1 path).
  - eapply reload_as_start; [exact Hmain|exact Hmain|done|]. subst src. cbn.
    intros path He Hp. by rewrite Hp in He.
  - intros path He Hp e Hmeta. unfold reload. by rewrite He, Hp, Hmeta.
  - intros Hthere c1 o1 tok1 src1 Hm1 Htls. by eapply reload_as_start.
Qed.
End reload.

(** ** What a node starts with *)

(** C39: a node starts only with options that mean something: it has
    TLS exactly when a certificate was given, an allowlist only with TLS and
    never an empty one; a rate and a burst that are not zero; a dead-letter
    topic that is a topic; a token that is not empty and, with one, an address
    to serve the metrics on; an age limit only with a store to expire from. *)
Theorem options_well_formed from_toml default_path (fs : Fs) (cli : Cli.Cli) c o tok src :
  main from_toml default_path fs cli = Ok (c, o, tok, src) →
  is_some (o_tls o) = is_some (tls_cert c)
  ∧ (∀ a, acls_of o = a → ∀ allowed, Access.allow_peer a = Some allowed → is_Some (o_tls o) ∧ allowed ≠ ∅)
  ∧ (∀ r, o_rate_limit o = Some r → per_sec r ≠ 0%Z ∧ burst r ≠ 0%Z)
  ∧ (∀ t, o_dead_letter_topic o = Some t → Topic.wf t)
  ∧ (∀ t, tok = Some t → t ≠ [] ∧ is_Some (metrics_addr c))
  ∧ (is_Some (o_persisted_message_ttl o) → is_Some (o_data_dir o)).
Proof.
  intros (file & _ & Hm & Ho & _)%main_ok. apply node_options_ok in Ho as (ap & Hap & Ht & _ & _ & _ & Htok & Hdl & Hrl & Hd & Httl).
  pose proof (merge_ok_lists _ _ _ Hm) as (_ & Hcert & _). split; [by rewrite Ht, tls_config_is_some|].
  unfold merge in Hm. rewrite !reject_if_ok in Hm. destruct Hm as (_ & _ & Hmt & Hdd & _ & [= Hc]).
  split; [|split; [|split; [|split]]].
  - intros a <- allowed. cbn. rewrite Ht. unfold tls_config. destruct (tls_cert c), (tls_key c), (tls_ca c); try done. cbn.
    intros ->. split; [by eexists|]. unfold parse_allow_peer in Hap. destruct (allow_peer c) as [|raw raws]; [done|].
    cbn in Hap. destruct (parse_fingerprint raw) as [fp|]; [|done]. cbn in Hap.
    apply and_then_ok in Hap as (x & Hx & [= ->]). intros ->.
    assert (∀ raws acc y, parse_allow_peers raws acc = Ok y → acc ⊆ y) as Hmono.
    { clear. induction raws as [|raw raws IH]; intros acc y; cbn; [by intros [= ->]|].
      destruct (parse_fingerprint raw); [|done]. cbn. intros ?%IH. set_solver. }
    apply Hmono in Hx. set_solver.
  - intros r Hr. rewrite Hr in Hrl. unfold rate_limit in Hrl.
    destruct (publish_rate_limit_per_sec c) as [[]|], (publish_rate_limit_burst c) as [[]|]; naive_solver.
  - intros t Hdt. rewrite Hdt in Hdl. unfold parse_dead_letter_topic in Hdl.
    destruct (dead_letter_topic c) as [raw|]; [|done]. destruct (Topic.from_str raw) as [t'|] eqn:Hp; [|done].
    injection Hdl as <-. by apply topic_from_str_ok in Hp as [_ ?].
  - intros t ->. unfold metrics_token in Htok. destruct (metrics_token_file c) as [path|] eqn:Hpath; [|done].
    destruct (read_to_string fs path) as [raw| |]; [|done..]. destruct (trim raw) eqn:Htrim; [done|]. injection Htok as <-.
    split; [done|]. rewrite <-Hc in Hpath |- *. cbn in Hpath |- *. rewrite Hpath in Hmt. cbn in Hmt.
    destruct (or (Cli.metrics_addr cli) _); [by eexists|done].
  - rewrite Hd, Httl, <-Hc. cbn. intros [x Hx]. rewrite Hx in Hdd. cbn in Hdd.
    destruct (or (Cli.data_dir cli) _); [by eexists|done].
Qed.

(** ** Witnesses *)

Module ConfigSample.
Definition cert_print : rstr := render (replicate 32 1%Z).
Definition toml (text : rstr) : Result Config.Config rstr :=
  Ok (Config.MkConfig None None [] None (Some (lit "/data")) None (Some (lit "key.pem")) (Some (lit "ca.pem"))
        [cert_print] [lit "anonymous|sub|status.public"] [] [] None (Some 60%Z) (Some (lit "dead")) None None).
Definition at_path (p : rstr) : ReadResult :=
  if bool_decide (p = lit "node.toml") then Contents [] else NotFound (lit "no such file").
Definition fs : Fs := MkFs at_path (λ p, if bool_decide (p = lit "node.toml") then Ok () else Err (lit "no such file")).
(** The file is gone. *)
Definition bare : Fs := MkFs (λ _, NotFound (lit "no such file")) (λ _, Err (lit "no such file")).
Definition cli : Cli.Cli :=
  Cli.MkCli (Some (lit "node.toml")) None None [] None None (Some (lit "cert.pem")) None None [] [] [] [] None None None
    (Some 10%Z) None.
Definition started := main toml None fs cli.
End ConfigSample.

(** A certificate on the command line with its key and authority in the file. *)
Lemma merge_uniform_witness :
  ∃ file c, ConfigSample.toml [] = Ok file ∧ merge ConfigSample.cli file = Ok c
    ∧ allow_peer c = [ConfigSample.cert_print].
Proof.
  eexists. destruct (merge_uniform ConfigSample.cli
    (match ConfigSample.toml [] with Ok f => f | Err _ => Config.default end)) as (_ & _ & Hok).
  destruct Hok as (c & Hc & _ & _ & Hl & _).
  - intros []; cbn; try tauto; intros Hu.
    + apply Hu. left. split; [by eexists|]. split; by eexists.
    + by destruct Hu.
    + by destruct Hu as [[? ?] _].
    + by destruct Hu as [_ ?].
    + by destruct Hu as [[? ?] _].
  - exists c. split; [done|]. split; [exact Hc|]. by apply Hl.
Defined.

Lemma reload_is_restart_witness :
  ∃ c o tok src, ConfigSample.started = Ok (c, o, tok, src)
    ∧ reload ConfigSample.toml None ConfigSample.fs src = Some (Ok (acls_of o))
    ∧ reload ConfigSample.toml None ConfigSample.bare src
      = Some (Err (FileVanished (lit "node.toml") (lit "no such file"))).
Proof.
  assert (is_ok ConfigSample.started = true) as ([[[c o] tok] src] & Hs)%is_ok_true by by vm_compute.
  exists c, o, tok, src. split; [exact Hs|].
  destruct (reload_is_restart ConfigSample.toml None ConfigSample.fs ConfigSample.bare ConfigSample.cli c o tok src Hs)
    as (_ & Hsame & Hgone & _). split; [exact Hsame|].
  destruct (main_ok _ _ _ _ _ _ _ _ Hs) as (_ & _ & _ & _ & ->). by apply Hgone.
Defined.

Lemma options_well_formed_witness :
  ∃ c o tok src, ConfigSample.started = Ok (c, o, tok, src) ∧ is_Some (o_rate_limit o)
    ∧ ∀ r, o_rate_limit o = Some r → burst r ≠ 0%Z.
Proof.
  assert (is_ok ConfigSample.started = true) as ([[[c o] tok] src] & Hs)%is_ok_true by by vm_compute.
  exists c, o, tok, src. split; [exact Hs|].
  destruct (options_well_formed ConfigSample.toml None ConfigSample.fs ConfigSample.cli c o tok src Hs) as (_ & _ & Hr & _).
  split; [|by intros r [_ ?]%Hr].
  assert (match ConfigSample.started with Ok (_, o, _, _) => is_some (o_rate_limit o) | Err _ => false end = true) as Hr'
    by by vm_compute.
  rewrite Hs in Hr'. by apply is_some_spec.
Defined.
