(* ===== verification/Tls.v ===== *)
(** * TLS ([thoth-mesh-tls/src/lib.rs], [stream.rs] and
      [thoth-mesh-node/src/tls_config.rs])

    From the three paths of a [TlsConfig] to the two configurations and the
    identity of a node, and the stream that is TLS or not. The PEM parser and
    [rustls] are a class of operations, [RustlsLaws] what the code relies on of
    them: what a trust store trusts and what a verifier and a configuration
    were built from. A certificate is its DER bytes. *)

From S2P Require Import Prelude.
From S2P Require Import Text.
From S2P Require Import Runtime.
From S2P Require Import Fingerprint.
From S2P Require Import NodeConfig.

#[local] Open Scope nat_scope.

(** [rustls_pki_types::pem::Error], as far as the code tells its cases apart. *)
Inductive PemError : Type :=
| NoItemsFound
| OtherPem (message : rstr).

Definition pem_error_text (e : PemError) : rstr :=
  match e with NoItemsFound => lit "no items found" | OtherPem m => m end.

(** [rustls::Error]: the code makes [General] ones. *)
Inductive RustlsError : Type :=
| General (message : rstr)
| OtherRustls (message : rstr).

Inductive TlsError : Type :=
| TlsIo (path : rstr) (source : io_error)
| NoCertificates (path : rstr)
| NoPrivateKey (path : rstr)
| Rustls (e : RustlsError).

(** ** The libraries *)

Class RustlsOps := {
  Key : Type;
  RootCertStore : Type;
  ClientCertVerifier : Type;
  ServerConfig : Type;
  ClientConfig : Type;
  pem_file_iter : rstr → Result (list (Result bytes PemError)) PemError;
  key_from_pem_file : rstr → Result Key PemError;
  rustls_error_text : RustlsError → rstr;
  empty_roots : RootCertStore;
  add_root : RootCertStore → bytes → option RootCertStore;
  (** [WebPkiClientVerifier::builder(roots)], with or without
      [allow_unauthenticated()], built. *)
  build_verifier : RootCertStore → bool → Result ClientCertVerifier rstr;
  with_single_cert : ClientCertVerifier → list bytes → Key → Result ServerConfig RustlsError;
  with_client_auth_cert : RootCertStore → list bytes → Key → Result ClientConfig RustlsError;
  with_no_client_auth : RootCertStore → ClientConfig;
}.

Class RustlsLaws `{RustlsOps} := {
  trusted : RootCertStore → list bytes;
  (** The roots a verifier checks against, and whether a client may come
      without a certificate. *)
  verifies : ClientCertVerifier → list bytes * bool;
  (** What a configuration verifies the far end with, and what it presents. *)
  server_terms : ServerConfig → list bytes * bool * (list bytes * Key);
  client_terms : ClientConfig → list bytes * option (list bytes * Key);
  empty_roots_spec : trusted empty_roots = [];
  add_root_spec r c r' : add_root r c = Some r' → trusted r' = trusted r ++ [c];
  build_verifier_spec r b v : build_verifier r b = Ok v → verifies v = (trusted r, b);
  with_single_cert_spec v cs k s : with_single_cert v cs k = Ok s → server_terms s = (verifies v, (cs, k));
  with_client_auth_cert_spec r cs k c : with_client_auth_cert r cs k = Ok c → client_terms c = (trusted r, Some (cs, k));
  with_no_client_auth_spec r : client_terms (with_no_client_auth r) = (trusted r, None);
}.

(** [collect::<Result<Vec<_>, _>>()]: the first error wins. *)
Fixpoint collect {A E} (l : list (Result A E)) : Result (list A) E :=
  match l with
  | [] => Ok []
  | Err e :: _ => Err e
  | Ok a :: l' => let? r := collect l' in Ok (a :: r)
  end.

Section tls.
Context `{RustlsOps}.

Definition tls_error_text (e : TlsError) : rstr :=
  match e with
  | TlsIo path source => lit "reading " ++ path ++ lit ": " ++ source
  | NoCertificates path => path ++ lit " contains no certificates"
  | NoPrivateKey path => path ++ lit " contains no private key"
  | Rustls e => lit "building TLS config: " ++ rustls_error_text e
  end.

Definition pem_error_to_io (e : PemError) : io_error := pem_error_text e.

Definition load_certs (path : rstr) : Result (list bytes) TlsError :=
  let? items := map_err (λ source, TlsIo path (pem_error_to_io source)) (pem_file_iter path) in
  let? certs := map_err (λ source, TlsIo path (pem_error_to_io source)) (collect items) in
  match certs with [] => Err (NoCertificates path) | _ => Ok certs end.

Definition load_private_key (path : rstr) : Result Key TlsError :=
  map_err (λ source, match source with
    | NoItemsFound => NoPrivateKey path
    | source => TlsIo path (pem_error_to_io source)
    end) (key_from_pem_file path).

Fixpoint add_roots (ca_certs : list bytes) (roots : RootCertStore) : Result RootCertStore TlsError :=
  match ca_certs with
  | [] => Ok roots
  | cert :: ca_certs' =>
      match add_root roots cert with
      | None => Err (Rustls (General (lit "invalid CA certificate")))
      | Some roots' => add_roots ca_certs' roots'
      end
  end.
Definition root_store (ca_certs : list bytes) : Result RootCertStore TlsError := add_roots ca_certs empty_roots.

Definition server_config (cert : list bytes) (key : Key) (ca_certs : list bytes) : Result ServerConfig TlsError :=
  let? roots := root_store ca_certs in
  let? verifier := map_err (λ err, Rustls (General err)) (build_verifier roots true) in
  map_err Rustls (with_single_cert verifier cert key).

Definition client_config (ca_certs : list bytes) (identity : option (list bytes * Key)) : Result ClientConfig TlsError :=
  let? roots := root_store ca_certs in
  match identity with
  | Some (cert, key) => map_err Rustls (with_client_auth_cert roots cert key)
  | None => Ok (with_no_client_auth roots)
  end.

(** ** [TlsConfig::build] *)

Definition to_io_error (e : TlsError) : io_error := tls_error_text e.

Definition build (sha256 : bytes → bytes) (tls : TlsConfig) : Result (ServerConfig * ClientConfig * bytes) io_error :=
  let? cert := map_err to_io_error (load_certs (cert tls)) in
  let? key := map_err to_io_error (load_private_key (key tls)) in
  let? ca := map_err to_io_error (load_certs (ca tls)) in
  let? own_fingerprint :=
    match head cert with
    | Some leaf => Ok (fingerprint sha256 leaf)
    | None => Err (NodeConfig.cert tls ++ lit " contains no certificates")
    end in
  let? server_cfg := map_err to_io_error (server_config cert key ca) in
  let? client_cfg := map_err to_io_error (client_config ca (Some (cert, key))) in
  Ok (server_cfg, client_cfg, own_fingerprint).

(** ** What is loaded *)

Lemma collect_ok {A E} (l : list (Result A E)) r : collect l = Ok r ↔ l = Ok <$> r.
Proof.
  revert r; induction l as [|[a|e] l IH]; intros r; cbn.
  - split; [by intros [= <-]|by destruct r].
  - destruct (collect l) as [r'|e] eqn:Hl; cbn.
    + split; [intros [= <-]; cbn; f_equal; by apply IH|]. destruct r as [|b r]; [done|]. intros [= -> Hr]. by apply IH in Hr as [= ->].
    + split; [done|]. destruct r as [|b r]; [done|]. intros [= -> Hr]. by apply IH in Hr.
  - split; [done|by destruct r].
Qed.

Lemma load_certs_ok path l : load_certs path = Ok l ↔ pem_file_iter path = Ok (Ok <$> l) ∧ l ≠ [].
Proof.
  unfold load_certs. destruct (pem_file_iter path) as [items|e]; cbn; [|by split; [|intros [? _]]].
  destruct (collect items) as [certs|e] eqn:Hc; cbn.
  - apply collect_ok in Hc as ->. assert (∀ k : list bytes, @Ok _ PemError <$> certs = Ok <$> k → certs = k) as Hinj.
    { clear. induction certs as [|c certs IH]; intros [|d k]; try done. intros [= -> Hk]. f_equal. by apply IH. }
    destruct certs as [|c certs]; cbn.
    + split; [done|]. intros [[= Hl] Hne]. destruct l; done.
    + split; [by intros [= <-]|]. intros [[= Hl] _]. f_equal. apply Hinj. by destruct l.
  - split; [done|]. intros [[= ->] _]. by rewrite (proj2 (collect_ok _ l) eq_refl) in Hc.
Qed.

Context `{!RustlsLaws}.

Lemma add_roots_trusts ca roots roots' : add_roots ca roots = Ok roots' → trusted roots' = trusted roots ++ ca.
Proof.
  revert roots; induction ca as [|c ca IH]; intros roots; cbn; [intros [= ->]; by rewrite app_nil_r|].
  destruct (add_root roots c) as [r|] eqn:Hr; [|done]. intros Hok%IH. rewrite Hok, (add_root_spec _ _ _ Hr), <-app_assoc. done.
Qed.

Lemma root_store_trusts ca roots : root_store ca = Ok roots → trusted roots = ca.
Proof. intros Hr%add_roots_trusts. by rewrite empty_roots_spec in Hr. Qed.

Lemma server_config_terms cs k ca s : server_config cs k ca = Ok s → server_terms s = (ca, true, (cs, k)).
Proof.
  unfold server_config. intros (roots & Hr%root_store_trusts & (v & Hv & Hs)%and_then_ok)%and_then_ok.
  destruct (build_verifier roots true) as [v'|] eqn:Hb; [|done]. injection Hv as <-.
  destruct (with_single_cert v' cs k) as [s'|] eqn:Hw; [|done]. injection Hs as <-.
  by rewrite (with_single_cert_spec _ _ _ _ Hw), (build_verifier_spec _ _ _ Hb), Hr.
Qed.

Lemma client_config_terms ca identity c : client_config ca identity = Ok c → client_terms c = (ca, identity).
Proof.
  unfold client_config. intros (roots & Hr%root_store_trusts & Hc)%and_then_ok. destruct identity as [[cs k]|].
  - destruct (with_client_auth_cert roots cs k) as [c'|] eqn:Hw; [|done]. injection Hc as <-.
    by rewrite (with_client_auth_cert_spec _ _ _ _ Hw), Hr.
  - injection Hc as <-. by rewrite with_no_client_auth_spec, Hr.
Qed.

(** C40: with TLS a node presents one identity and trusts one authority. When
    its three files build, both sides, accepting and dialing, trust exactly the
    certificates of the CA file and present the chain of the certificate file
    with its key; a client may come without a certificate; and the
    fingerprint the node is known by is that of the first certificate it
    presents. It fails, naming the file, when one of the three cannot be read
    or holds nothing, in that order, and otherwise only when [rustls] refuses
    the material. *)
Theorem tls_build_identity (sha256 : bytes → bytes) (tls : TlsConfig) :
  match build sha256 tls with
  | Ok (s, c, fp) => ∃ leaf rest k anchors,
      load_certs (cert tls) = Ok (leaf :: rest) ∧ load_private_key (key tls) = Ok k ∧ load_certs (ca tls) = Ok anchors
      ∧ server_terms s = (anchors, true, (leaf :: rest, k)) ∧ client_terms c = (anchors, Some (leaf :: rest, k))
      ∧ fp = fingerprint sha256 leaf
  | Err e => ∃ t, e = tls_error_text t
      ∧ (load_certs (cert tls) = Err t
         ∨ is_ok (load_certs (cert tls)) = true
           ∧ (load_private_key (key tls) = Err t
              ∨ is_ok (load_private_key (key tls)) = true ∧ (load_certs (ca tls) = Err t ∨ ∃ r, t = Rustls r)))
  end.
Proof.
  unfold build. destruct (load_certs (cert tls)) as [certs|e] eqn:Hcert; cbn; [|by exists e; split; [|left]].
  destruct (load_private_key (key tls)) as [k|e] eqn:Hkey; cbn; [|by exists e; split; [|right; split; [|left]]].
  destruct (load_certs (ca tls)) as [anchors|e] eqn:Hca; cbn; [|exists e; split; [done|right; split; [done|right; split; [done|by left]]]].
  pose proof Hcert as [_ Hne]%load_certs_ok. destruct certs as [|leaf rest]; [done|]. cbn.
  assert (∀ r, ∃ t, to_io_error (Rustls r) = tls_error_text t ∧ (@Ok (list bytes) TlsError (leaf :: rest) = Err t
    ∨ true = true ∧ (@Ok Key TlsError k = Err t ∨ true = true ∧ (@Ok (list bytes) TlsError anchors = Err t ∨ ∃ r, t = Rustls r)))) as Hno.
  { intros r. exists (Rustls r). split; [done|]. right. split; [done|]. right. split; [done|]. right. by exists r. }
  assert (∀ ca e, root_store ca = Err e → ∃ r, e = Rustls r) as Hroots.
  { intros l e. unfold root_store. generalize empty_roots as roots. induction l as [|c l IH]; intros roots; cbn; [done|].
    destruct (add_root roots c); [apply IH|]. intros [= <-]. by eexists. }
  destruct (server_config (leaf :: rest) k anchors) as [s|e] eqn:Hs; cbn.
  2:{ assert (∃ r, e = Rustls r) as [r ->]; [|apply Hno]. unfold server_config in Hs.
      destruct (root_store anchors) as [roots|e'] eqn:Hr; cbn in Hs; [|injection Hs as <-; by eapply Hroots].
      destruct (build_verifier roots true); cbn in Hs; [destruct (with_single_cert _ _ _); cbn in Hs|]; simplify_eq; by eexists. }
  destruct (client_config anchors (Some (leaf :: rest, k))) as [c|e] eqn:Hc; cbn.
  2:{ assert (∃ r, e = Rustls r) as [r ->]; [|apply Hno]. unfold client_config in Hc.
      destruct (root_store anchors) as [roots|e'] eqn:Hr; cbn in Hc; [|injection Hc as <-; by eapply Hroots].
      destruct (with_client_auth_cert _ _ _); cbn in Hc; simplify_eq; by eexists. }
  exists leaf, rest, k, anchors. split; [done|]. split; [done|]. split; [done|].
  split; [by apply server_config_terms|]. split; [by apply client_config_terms|done].
Qed.
End tls.

(** ** [MaybeTlsStream] *)

(** [str::rsplit_once]: at the last separator. *)
Fixpoint rsplit_once (sep : rchar) (s : rstr) : option (rstr * rstr) :=
  match s with
  | [] => None
  | c :: s' =>
      match rsplit_once sep s' with
      | Some (a, b) => Some (c :: a, b)
      | None => if (c =? sep)%Z then Some ([], s') else None
      end
  end.

Lemma rsplit_once_none sep s : sep ∉ s → rsplit_once sep s = None.
Proof.
  induction s as [|c s IH]; [done|]. rewrite not_elem_of_cons. intros [Hc Hs]. cbn. rewrite IH by done.
  destruct (Z.eqb_spec c sep); congruence.
Qed.
Lemma rsplit_once_app sep a b : sep ∉ b → rsplit_once sep (a ++ sep :: b) = Some (a, b).
Proof.
  intros Hb. induction a as [|c a IH]; cbn; [by rewrite rsplit_once_none, Z.eqb_refl|]. by rewrite IH.
Qed.

(** What a poll answers: [None] is [Poll::Pending]. *)
Class AsyncIo (S : Type) := {
  poll_read : nat → ST S (option (Result bytes io_error));
  poll_write : bytes → ST S (option (Result nat io_error));
  poll_flush : ST S (option (Result () io_error));
  poll_shutdown : ST S (option (Result () io_error));
}.

(** The sockets of the standard library and of [tokio_rustls]. *)
Class TlsStreams `{RustlsOps} := {
  TcpStream : Type;
  ServerTls : Type;
  ClientTls : Type;
  SocketAddr : Type;
  ServerName : Type;
  tcp_io :: AsyncIo TcpStream;
  server_io :: AsyncIo ServerTls;
  client_io :: AsyncIo ClientTls;
  accept_tls : ServerConfig → TcpStream → Result ServerTls io_error;
  connect_tls : ClientConfig → ServerName → TcpStream → Result ClientTls io_error;
  server_name : rstr → option ServerName;
  server_peer_certificates : ServerTls → option (list bytes);
  client_peer_certificates : ClientTls → option (list bytes);
  server_socket : ServerTls → TcpStream;
  client_socket : ClientTls → TcpStream;
  tcp_peer_addr : TcpStream → Result SocketAddr io_error;
}.

(** A completed handshake verified the chain the far end presented:
    [vouched anchors chain] when it may be for anybody, [vouched_as name] when
    for that name. *)
Class TlsStreamLaws `{TlsStreams} `{!RustlsLaws} := {
  vouched : list bytes → list bytes → Prop;
  vouched_as : ServerName → list bytes → list bytes → Prop;
  accept_tls_spec s tcp t chain :
    accept_tls s tcp = Ok t → server_peer_certificates t = Some chain →
    chain ≠ [] ∧ vouched (server_terms s).1.1 chain;
  connect_tls_spec c name tcp t :
    connect_tls c name tcp = Ok t →
    ∃ chain, client_peer_certificates t = Some chain ∧ chain ≠ [] ∧ vouched_as name (client_terms c).1 chain;
}.

Section stream.
Context `{TlsStreams}.

Inductive MaybeTlsStream : Type :=
| PlainStream (s : TcpStream)
| TlsServer (s : ServerTls)
| TlsClient (s : ClientTls).

Inductive TlsConnectError : Type :=
| InvalidServerName (name : rstr)
| HandshakeFailed (e : io_error).

Definition accept (acceptor : ServerConfig) (stream : TcpStream) : Result MaybeTlsStream io_error :=
  let? s := accept_tls acceptor stream in Ok (TlsServer s).

Definition host_of (addr : rstr) : rstr := match rsplit_once 58 addr with Some (host, _) => host | None => addr end.

Definition server_name_from_addr (addr : rstr) : Result ServerName TlsConnectError :=
  match server_name (host_of addr) with Some n => Ok n | None => Err (InvalidServerName (host_of addr)) end.

Definition connect (connector : ClientConfig) (stream : TcpStream) (addr : rstr) : Result MaybeTlsStream TlsConnectError :=
  let? name := server_name_from_addr addr in
  let? tls := map_err HandshakeFailed (connect_tls connector name stream) in
  Ok (TlsClient tls).

Definition peer_certificates (s : MaybeTlsStream) : option (list bytes) :=
  match s with
  | PlainStream _ => None
  | TlsServer s => server_peer_certificates s
  | TlsClient s => client_peer_certificates s
  end.

Definition peer_addr (s : MaybeTlsStream) : Result SocketAddr io_error :=
  match s with
  | PlainStream s => tcp_peer_addr s
  | TlsServer s => tcp_peer_addr (server_socket s)
  | TlsClient s => tcp_peer_addr (client_socket s)
  end.

(** Each poll goes to the stream inside. *)
Definition forward {A} (plain : ST TcpStream A) (srv : ST ServerTls A) (cli : ST ClientTls A) : ST MaybeTlsStream A := λ s,
  match s with
  | PlainStream s => let '(a, s) := plain s in (a, PlainStream s)
  | TlsServer s => let '(a, s) := srv s in (a, TlsServer s)
  | TlsClient s => let '(a, s) := cli s in (a, TlsClient s)
  end.
#[export] Instance stream_io : AsyncIo MaybeTlsStream := {|
  poll_read n := forward (poll_read n) (poll_read n) (poll_read n);
  poll_write b := forward (poll_write b) (poll_write b) (poll_write b);
  poll_flush := forward poll_flush poll_flush poll_flush;
  poll_shutdown := forward poll_shutdown poll_shutdown poll_shutdown;
|}.

(** The host of an address with a port. *)
Lemma host_of_addr host port : 58%Z ∉ port → host_of (host ++ 58%Z :: port) = host.
Proof. intros Hp. unfold host_of. by rewrite rsplit_once_app. Qed.

Context `{!RustlsLaws} `{!TlsStreamLaws}.

(** What a stream's certificates say about the far end. *)
Lemma accept_vouched s tcp stream :
  accept s tcp = Ok stream →
  match peer_certificates stream with
  | None => True
  | Some chain => chain ≠ [] ∧ vouched (server_terms s).1.1 chain
  end.
Proof.
  unfold accept. destruct (accept_tls s tcp) as [t|] eqn:Ha; [|done]. intros [= <-]. cbn.
  destruct (server_peer_certificates t) as [chain|] eqn:Hc; [|done]. by eapply accept_tls_spec.
Qed.

Lemma connect_vouched c tcp addr stream :
  connect c tcp addr = Ok stream →
  ∃ name chain, server_name (host_of addr) = Some name ∧ peer_certificates stream = Some chain
    ∧ chain ≠ [] ∧ vouched_as name (client_terms c).1 chain.
Proof.
  unfold connect, server_name_from_addr. destruct (server_name (host_of addr)) as [name|]; [|done]. cbn.
  destruct (connect_tls c name tcp) as [t|] eqn:Hc; [|done]. intros [= <-].
  destruct (connect_tls_spec _ _ _ _ Hc) as (chain & Hp & Hne & Hv). by exists name, chain.
Qed.
End stream.

(** An address with an IPv6 host keeps its brackets in the name that is
    verified. *)
Example ipv6_host_keeps_its_brackets : host_of (lit "[::1]:7000") = lit "[::1]".
Proof. reflexivity. Qed.

(** ** Operations that satisfy the laws

    A store is the list of its certificates, a configuration its terms; a chain
    is vouched for when it ends in a trusted certificate. A socket is the chain
    its far end will present. *)
Module SampleTls.
#[export] Instance rustls : RustlsOps := {|
  Key := Z;
  RootCertStore := list bytes;
  ClientCertVerifier := list bytes * bool;
  ServerConfig := list bytes * bool * (list bytes * Z);
  ClientConfig := list bytes * option (list bytes * Z);
  pem_file_iter path := if bool_decide (path = lit "ca.pem") then Ok [Ok [1%Z]]
    else if bool_decide (path = lit "cert.pem") then Ok [Ok [5%Z]; Ok [1%Z]] else Err NoItemsFound;
  key_from_pem_file path := if bool_decide (path = lit "key.pem") then Ok 7%Z else Err NoItemsFound;
  rustls_error_text e := match e with General m | OtherRustls m => m end;
  empty_roots := [];
  add_root r c := Some (r ++ [c]);
  build_verifier r b := Ok (r, b);
  with_single_cert v cs k := Ok (v, (cs, k));
  with_client_auth_cert r cs k := Ok (r, Some (cs, k));
  with_no_client_auth r := (r, None);
|}.

Program Definition laws_of : RustlsLaws (H := rustls) := {|
  trusted r := r;
  verifies v := v;
  server_terms s := s;
  client_terms c := c;
|}.
Solve All Obligations with (cbn; congruence).
#[export] Instance laws : RustlsLaws := laws_of.

Definition vouches (anchors chain : list bytes) : bool :=
  match last chain with Some x => bool_decide (x ∈ anchors) | None => false end.

Definition Chain : Type := option (list bytes).
#[export] Instance chain_io : AsyncIo Chain := {|
  poll_read n := mret None; poll_write b := mret None; poll_flush := mret None; poll_shutdown := mret None;
|}.
#[export] Instance streams : TlsStreams := {|
  TcpStream := Chain;
  ServerTls := Chain;
  ClientTls := Chain;
  SocketAddr := rstr;
  ServerName := rstr;
  accept_tls (s : ServerConfig) tcp :=
    match tcp with
    | Some chain => if vouches s.1.1 chain then Ok tcp else Err (lit "untrusted")
    | None => Ok None
    end;
  connect_tls (c : ClientConfig) name tcp :=
    match tcp with
    | Some chain => if vouches c.1 chain then Ok tcp else Err (lit "untrusted")
    | None => Err (lit "no certificate")
    end;
  server_name s := Some s;
  server_peer_certificates s := s;
  client_peer_certificates s := s;
  server_socket s := s;
  client_socket s := s;
  tcp_peer_addr _ := Ok (lit "peer");
|}.

Lemma vouches_not_nil anchors chain : vouches anchors chain = true → chain ≠ [].
Proof. by destruct chain. Qed.

Program Definition stream_laws_of : TlsStreamLaws (H0 := streams) := {|
  vouched anchors chain := vouches anchors chain = true;
  vouched_as name anchors chain := vouches anchors chain = true;
|}.
Next Obligation.
  intros s tcp t chain. cbn. destruct tcp as [ch|]; [|by intros [= <-]]. destruct (vouches s.1.1 ch) eqn:Hv; [|done].
  intros [= <-] [= ->]. split; [by eapply vouches_not_nil|done].
Qed.
Next Obligation.
  intros c name tcp t. cbn. destruct tcp as [ch|]; [|done]. destruct (vouches c.1 ch) eqn:Hv; [|done].
  intros [= <-]. exists ch. split; [done|]. split; [by eapply vouches_not_nil|done].
Qed.
#[export] Instance stream_laws : TlsStreamLaws := stream_laws_of.

Definition tls : TlsConfig := MkTlsConfig (lit "cert.pem") (lit "key.pem") (lit "ca.pem") None.
End SampleTls.

(** The sample's files build; the identity is that of the first certificate. *)
Example tls_build_sample : is_ok (@build SampleTls.rustls (λ c, c) SampleTls.tls) = true.
Proof. by vm_compute. Qed.
