(* ===== verification/Serve.v ===== *)
(** * From a socket to a connection ([accept_loop] of
      [thoth-mesh-node/src/lib.rs], [connect_and_handshake] of [peering.rs],
      [handle_connection] of [connection.rs])

    The two ways a connection begins: accepted, with TLS around it or not, and
    dialed, with the handshake done before it is handed over. The listener, the
    TCP connect and the reads and writes of whole buffers are the runtime's. *)

From S2P Require Import Prelude.
From S2P Require Import Text.
From S2P Require Import Runtime.
From S2P Require Import Fingerprint.
From S2P Require Import TopicAcl.
From S2P Require Import NodeConfig.
From S2P Require Import Tls.
From S2P Require Import Message.
From S2P Require Import Framing.
From S2P Require Import PeerDirectory.
From S2P Require Import Membership.
From S2P Require Import Handshake.
From S2P Require Import MessageStore.
From S2P Require Import Broker.
From S2P Require Import DeadLetter.
From S2P Require Import PeerLinks.
From S2P Require Import Forwarder.
From S2P Require Import Async.
From S2P Require Import Access.
From S2P Require Import World.
From S2P Require Import Connection.
From S2P Require Import ConnectionSpec.
From S2P Require Import Handlers.
From S2P Require Import LinkUp.

#[local] Open Scope nat_scope.

Section serve.
Context `{Broadcast Envelope} `{Mpsc Envelope} `{MessageStore} `{Uuids} `{TlsStreams}.
Context (sha256 : bytes → bytes) {CborError : Type} (into_writer : Envelope → Result bytes CborError)
  (from_reader : bytes → Result Envelope CborError).

(** The fingerprint of the leaf of the chain the far end presented. *)
Definition peer_fingerprint_of (stream : MaybeTlsStream) : option bytes :=
  chain ← peer_certificates stream; leaf ← head chain; Some (fingerprint sha256 leaf).

Definition handle_connection (stream : MaybeTlsStream) (out : nat) (initial_peer : option PeerInfo) (events : list Event) :
    Proc World () :=
  run_connection from_reader (peer_fingerprint_of stream) out initial_peer events.

(** ** Accepting *)

(** The task of an accepted socket. *)
Definition accepted_task (tls_acceptor : option ServerConfig) (socket : TcpStream) (out : nat) (events : list Event) :
    Proc World () :=
  match (match tls_acceptor with Some acceptor => accept acceptor socket | None => Ok (PlainStream socket) end) with
  | Err _ => mret ()
  | Ok socket => handle_connection socket out None events
  end.

(** What [listener.accept()] answers, with the channel and the events of the
    connection it becomes: the tasks spawned, and the error that ends the
    loop. *)
Fixpoint accept_loop (tls_acceptor : option ServerConfig) (accepted : list (Result (TcpStream * nat * list Event) io_error)) :
    list (Proc World ()) * option io_error :=
  match accepted with
  | [] => ([], None)
  | Err err :: _ => ([], Some err)
  | Ok (socket, out, events) :: accepted' =>
      let '(tasks, ended) := accept_loop tls_acceptor accepted' in
      (accepted_task tls_acceptor socket out events :: tasks, ended)
  end.

(** ** Dialing *)

Context (tcp_connect : rstr → Result TcpStream io_error).
Context (write_all : bytes → ST MaybeTlsStream (Result () io_error)) (read_exact : nat → ST MaybeTlsStream (Result bytes io_error)).

Record EstablishedDial := MkEstablishedDial { dial_stream : MaybeTlsStream; dial_info : PeerInfo }.

(** [n] is the index of the identifier the [Hello] draws. *)
Definition connect_and_handshake (n : nat) (peer_addr : rstr) (tls_connector : option ClientConfig) (node : Node) :
    option EstablishedDial :=
  match tcp_connect peer_addr with
  | Err _ => None
  | Ok tcp =>
      match (match tls_connector with Some connector => connect connector tcp peer_addr | None => Ok (PlainStream tcp) end) with
      | Err _ => None
      | Ok stream =>
          match dial_handshake write_all read_exact into_writer from_reader n (node_id node) (my_listen_addr node) stream with
          | (Err _, _) => None
          | (Ok info, stream) => Some (MkEstablishedDial stream info)
          end
      end
  end.

Definition dialed_task (n : nat) (peer_addr : rstr) (tls_connector : option ClientConfig) (node : Node) (out : nat)
    (events : list Event) : Proc World () :=
  match connect_and_handshake n peer_addr tls_connector node with
  | None => mret ()
  | Some established => handle_connection (dial_stream established) out (Some (dial_info established)) events
  end.

(** ** Who is at the other end *)

Context `{!RustlsLaws} `{!TlsStreamLaws}.
(** Reading and writing leave the session alone. *)
Context (write_session : ∀ b s, peer_certificates (write_all b s).2 = peer_certificates s)
  (read_session : ∀ n s, peer_certificates (read_exact n s).2 = peer_certificates s).

Lemma write_frame_session b s : peer_certificates (AsyncFraming.write_frame write_all b s).2 = peer_certificates s.
Proof.
  unfold AsyncFraming.write_frame. destruct (u32_try_from _) as [len|]; [|done]. destruct (_ >? _)%Z; [done|].
  unfold mbind, ST_bind. pose proof (write_session (to_be_bytes len) s) as H1'.
  destruct (write_all (to_be_bytes len) s) as [[u|e] s1]; cbn in *; [|done].
  pose proof (write_session b s1) as H2'. destruct (write_all b s1) as [[u'|e] s2]; cbn in *; congruence.
Qed.

Lemma read_frame_session s : peer_certificates (AsyncFraming.read_frame read_exact s).2 = peer_certificates s.
Proof.
  unfold AsyncFraming.read_frame, mbind, ST_bind. pose proof (read_session 4 s) as H1'.
  destruct (read_exact 4 s) as [[l|e] s1]; cbn in *; [|done]. destruct (_ >? _)%Z; [done|]. cbn.
  match goal with |- context [read_exact ?k s1] => pose proof (read_session k s1) as H2'; destruct (read_exact k s1) as [[b|e] s2] end;
    cbn in *; congruence.
Qed.
Lemma dial_handshake_session n me addr s :
  peer_certificates (dial_handshake write_all read_exact into_writer from_reader n me addr s).2 = peer_certificates s.
Proof.
  unfold dial_handshake, Handshake.send, recv_hello, mbind, ST_bind. destruct (Envelope.to_bytes _ _) as [b|e]; [|done].
  pose proof (write_frame_session b s) as H1'. unfold mbind, ST_bind.
  destruct (AsyncFraming.write_frame write_all b s) as [[u|e] s1]; cbn in *; [|done].
  pose proof (read_frame_session s1) as H2'. destruct (AsyncFraming.read_frame read_exact s1) as [[b'|e] s2]; cbn in *; [|congruence].
  destruct (Envelope.from_bytes _ _) as [e|e]; cbn; [destruct (kind e); cbn|]; congruence.
Qed.

(** The sockets accepted before the first error: each gets its task. *)
Fixpoint served (accepted : list (Result (TcpStream * nat * list Event) io_error)) : list (TcpStream * nat * list Event) :=
  match accepted with
  | Ok a :: accepted' => a :: served accepted'
  | _ => []
  end.

Lemma accept_loop_tasks tls_acceptor accepted :
  (accept_loop tls_acceptor accepted).1 = (λ a, accepted_task tls_acceptor a.1.1 a.1.2 a.2) <$> served accepted.
Proof.
  induction accepted as [|[[[socket out] events]|err] l IH]; [done| |done]. cbn.
  destruct (accept_loop tls_acceptor l) as [tasks ended]. cbn in *. by rewrite IH.
Qed.

(** Whom a stream is from: nobody, or the leaf of a chain it presented. *)
Definition known_by (stream : MaybeTlsStream) (anchored : list bytes → Prop) : Prop :=
  match peer_certificates stream with
  | Some (leaf :: rest) => peer_fingerprint_of stream = Some (fingerprint sha256 leaf) ∧ anchored (leaf :: rest)
  | _ => peer_fingerprint_of stream = None
  end.

(** C20: who a node with TLS talks to. A socket it accepts that fails the
    handshake never becomes a connection; one that passes it becomes one that
    is anonymous, or known by the fingerprint of the leaf of the chain presented,
    which the certificates of the CA file vouch for. A dial becomes a connection
    only when the TCP connect, the TLS handshake and the exchange of [Hello]s all
    succeed; it is never anonymous, and the chain is vouched for under the name
    of the host dialed. Without TLS every accepted socket becomes an anonymous
    connection. *)
Theorem tls_connections_vouched (tls : TlsConfig) s c own accepted n addr node out events :
  build sha256 tls = Ok (s, c, own) →
  ∃ anchors, load_certs (ca tls) = Ok anchors
  ∧ Forall2 (λ a p, let '(socket, o, es) := a in
       match accept s socket with
       | Err _ => p = mret ()
       | Ok stream => p = run_connection from_reader (peer_fingerprint_of stream) o None es ∧ known_by stream (vouched anchors)
       end) (served accepted) (accept_loop (Some s) accepted).1
  ∧ (let task := dialed_task n addr (Some c) node out events in
     match tcp_connect addr with
     | Err _ => task = mret ()
     | Ok tcp =>
         match connect c tcp addr with
         | Err _ => task = mret ()
         | Ok stream =>
             match (dial_handshake write_all read_exact into_writer from_reader n (node_id node) (my_listen_addr node) stream).1 with
             | Err _ => task = mret ()
             | Ok info => ∃ leaf rest name,
                 task = run_connection from_reader (Some (fingerprint sha256 leaf)) out (Some info) events
                 ∧ peer_certificates stream = Some (leaf :: rest)
                 ∧ server_name (host_of addr) = Some name ∧ vouched_as name anchors (leaf :: rest)
             end
         end
     end)
  ∧ (accept_loop None accepted).1 = (λ a, run_connection from_reader None a.1.2 None a.2) <$> served accepted.
Proof.
  unfold build. intros (cert & Hcert & (k & Hkey & (anchors & Hca & (fp & Hfp & (s' & Hs & (c' & Hc & Hout)%and_then_ok)%and_then_ok)%and_then_ok)%and_then_ok)%and_then_ok)%and_then_ok.
  injection Hout as -> -> _.
  assert (∀ A (r : Result A TlsError) a, map_err to_io_error r = Ok a → r = Ok a) as Hok by (intros A [x|x] y; cbn; congruence).
  apply Hok in Hs as Hs%server_config_terms. apply Hok in Hc as Hc%client_config_terms. apply Hok in Hca. exists anchors.
  split; [done|]. rewrite !accept_loop_tasks. split; [|split; [|done]].
  - apply Forall2_fmap_r, Forall_Forall2_diag, Forall_true. intros [[socket o] es]. unfold accepted_task.
    destruct (accept s socket) as [stream|] eqn:Ha; cbn; rewrite ?Ha; [|done]. split; [done|]. unfold known_by, peer_fingerprint_of.
    apply accept_vouched in Ha. rewrite Hs in Ha. cbn in Ha.
    destruct (peer_certificates stream) as [[|leaf rest]|]; cbn; [done| |done]. by split; [|apply Ha].
  - unfold dialed_task, connect_and_handshake. destruct (tcp_connect addr) as [tcp|]; [|done].
    destruct (connect c tcp addr) as [stream|] eqn:Hcon; [|done].
    pose proof (dial_handshake_session n (node_id node) (my_listen_addr node) stream) as Hses.
    destruct (dial_handshake _ _ _ _ _ _ _ stream) as [[info|e] stream']; [|done]. cbn in *.
    apply connect_vouched in Hcon as (name & chain & Hname & Hp & Hne & Hv). rewrite Hc in Hv. cbn in Hv.
    destruct chain as [|leaf rest]; [done|]. exists leaf, rest, name. split; [|done].
    unfold handle_connection, peer_fingerprint_of. by rewrite Hses, Hp.
Qed.

(** ** The link of a dial *)

Context `{!MpscLaws Envelope}.

(** A dialed connection becomes the link of the peer its certificate names,
    and only without one of the peer the handshake named: marked connected,
    flagged, registered, recorded when it is dialable, its channel given only
    interest it may hear about and announcements, with no second [Hello]. When
    the allowlist does not permit it nothing changes but one error, naming the
    peer's [Hello], and the connection does not start. *)
Theorem dialed_peer_admitted (c : ConnectionContext) (info : PeerInfo) (w : World) :
  roomy c w →
  let p := match peer_fingerprint c with Some fp => PeerId.from_fingerprint fp | None => peer_id info end in
  let addr := listen_addr info in
  ∃ c' w', run (admit_initial_peer c (peer_id info) addr (hello_id info)) w = Some ((c', allows c w), w')
    ∧ if allows c w then
        c' = with_link (p, outgoing_tx c) (with_identity p c)
        ∧ ∃ h rest, w' = set_hub h
             (set_discover (after_record p addr (w_discover w))
             (set_peer_links (after_link (peer_link_registration c)
                (PeerLinks.register p (outgoing_tx c) (principal c) (disconnect c) (w_peer_links w)))
             (set_is_peer (<[is_peer_flag c := true]> (w_is_peer w))
             (set_membership (mark_connected p addr (w_membership w)) w))))
          ∧ queued (h_chans h) (outgoing_tx c) = queued (h_chans (w_hub w)) (outgoing_tx c) ++ rest
          ∧ Forall (catch_up_message (w_interest w) (peer_topic_filter (w_acls w)) (principal c)) rest
      else c' = c ∧ ∃ ok h', w' = set_hub h' w
        ∧ answered c (Message.Error (Some (hello_id info)) not_allowed) ok (w_node w) (w_hub w) h'.
Proof.
  intros Hr p addr. unfold admit_initial_peer. rewrite run_sync_bind. cbn [allowed gets fst snd]. fold (allows c w).
  change (authenticated_sender c (peer_id info)) with p. destruct (allows c w) eqn:Ha; cbn [negb].
  2:{ rewrite run_bind. destruct (run_reply c (Message.Error (Some (hello_id info)) not_allowed) w Hr) as (ok & h' & -> & Hans).
      exists c, (set_hub h' w). split; [done|]. split; [done|]. by exists ok, h'. }
  rewrite run_sync_bind. cbn [become_peer fst snd]. set (w1 := set_is_peer _ _). rewrite run_bind.
  destruct (link_up_spec p addr (with_identity p c) w1 Ha) as (h & l & -> & Hq & Hl).
  eexists _, _. split; [reflexivity|]. split; [done|]. by exists h, l.
Qed.
End serve.

Module SampleServe.
Export SampleTls.
Export SampleNode.
Definition connects (addr : rstr) : Result TcpStream io_error := Ok (Some [[5%Z]; [1%Z]]).
Definition writes (b : bytes) : ST MaybeTlsStream (Result () io_error) := mret (Ok ()).
Definition reads (n : nat) : ST MaybeTlsStream (Result bytes io_error) := mret (Err []).
Definition terms := build (λ c : bytes, c) tls.
Definition sockets : list (Result (TcpStream * nat * list Event) io_error) :=
  [Ok (Some [[5%Z]; [1%Z]], 0, []); Ok (None, 1, []); Ok (Some [[6%Z]], 2, [])].
(** A dialed connection before its first message. *)
Definition dialed : ConnectionContext * World := open_context (Some [5%Z]) 0 world.
Definition info : PeerInfo := MkPeerInfo (Sample.peer 2) (Some (lit "far:7")) (Sample.mid 8).
End SampleServe.

Import SampleServe.

(** Three sockets: a vouched chain, none, and a chain nobody vouches for. *)
Lemma tls_connections_vouched_witness :
  ∃ s c own, terms = Ok (s, c, own)
  ∧ ∃ p, (accept_loop (λ c : bytes, c) (Sample.decode requests) (Some s) sockets).1
        = [run_connection (Sample.decode requests) (Some [5%Z]) 0 None []; p; mret ()].
Proof.
  assert (match terms with
    | Ok (s, _, _) =>
        match accept s (Some [[5%Z]; [1%Z]]) with
        | Ok stream => bool_decide (peer_fingerprint_of (λ c : bytes, c) stream = Some [5%Z])
        | Err _ => false
        end && negb (is_ok (accept s (Some [[6%Z]])))
    | Err _ => false
    end = true) as Hok by by vm_compute.
  destruct terms as [[[s c] own]|] eqn:Ht; [|done]. exists s, c, own. split; [done|]. apply andb_prop in Hok as [Hyes Hno%negb_true_iff].
  destruct (tls_connections_vouched (λ c : bytes, c) (Sample.encode requests) (Sample.decode requests) connects writes reads
    (λ _ _, eq_refl) (λ _ _, eq_refl) tls s c own sockets 0 (lit "far:7") node 0 [] Ht) as (anchors & Ha & Hp & _).
  apply Forall2_cons_inv_l in Hp as (p1 & tasks & H1 & Hp & ->).
  apply Forall2_cons_inv_l in Hp as (p2 & tasks' & _ & Hp & ->). apply Forall2_cons_inv_l in Hp as (p3 & tasks'' & H3 & Hp & ->).
  apply Forall2_nil_inv_l in Hp as ->. exists p2.
  match type of Hyes with match ?x with _ => _ end = true => destruct x as [stream|] end; [|done]. apply bool_decide_eq_true in Hyes. destruct H1 as [-> _].
  rewrite Hyes. match type of Hno with is_ok ?x = false => destruct x end; [done|]. by rewrite H3.
Defined.

(** The peer the certificate names, not the one the handshake named. *)
Lemma dialed_peer_admitted_witness :
  ∃ c' w', run (admit_initial_peer dialed.1 (peer_id info) (listen_addr info) (hello_id info)) dialed.2 = Some ((c', true), w')
    ∧ peer_identity c' = Some (PeerId.from_fingerprint [5%Z]).
Proof.
  destruct (@dialed_peer_admitted sample_broadcast sample_mpsc sample_store sample_uuids (Reference.ref_mpsc_laws Envelope)
    dialed.1 info dialed.2) as (c' & w' & Hr & Hw).
  - right. intros e. by vm_compute.
  - exists c', w'. destruct Hw as (-> & _). split; [exact Hr|done].
Defined.
