(* ===== verification/Utf8.v ===== *)
(** * UTF-8

    The bytes of a [str], and [String::from_utf8]: what the node reads from a
    socket as text and compares as bytes. *)

From S2P Require Import Prelude.
From S2P Require Import Text.

#[local] Open Scope Z_scope.

(** A Unicode scalar value. *)
Definition is_char (c : rchar) : Prop := 0 ≤ c < 0xD800 ∨ 0xDFFF < c ≤ 0x10FFFF.

Definition encode_char (c : rchar) : bytes :=
  if c <? 0x80 then [c]
  else if c <? 0x800 then [0xC0 + c / 64; 0x80 + c `mod` 64]
  else if c <? 0x10000 then [0xE0 + c / 4096; 0x80 + (c / 64) `mod` 64; 0x80 + c `mod` 64]
  else [0xF0 + c / 262144; 0x80 + (c / 4096) `mod` 64; 0x80 + (c / 64) `mod` 64; 0x80 + c `mod` 64].

(** [str::as_bytes] *)
Definition as_bytes (s : rstr) : bytes := concat (encode_char <$> s).

Definition continuation (b : Z) : bool := in_range 0x80 0xBF b.
(** The second bytes each lead byte of three and of four admits. *)
Definition lead3 (b0 b1 : Z) : bool :=
  (b0 =? 0xE0) && in_range 0xA0 0xBF b1 || (b0 =? 0xED) && in_range 0x80 0x9F b1
  || (in_range 0xE1 0xEC b0 || in_range 0xEE 0xEF b0) && continuation b1.
Definition lead4 (b0 b1 : Z) : bool :=
  (b0 =? 0xF0) && in_range 0x90 0xBF b1 || (b0 =? 0xF4) && in_range 0x80 0x8F b1
  || in_range 0xF1 0xF3 b0 && continuation b1.

Fixpoint from_utf8 (b : bytes) : option rstr :=
  match b with
  | [] => Some []
  | b0 :: t =>
      if in_range 0 0x7F b0 then cons b0 <$> from_utf8 t
      else match t with
      | [] => None
      | b1 :: t1 =>
          if in_range 0xC2 0xDF b0 && continuation b1 then cons ((b0 - 0xC0) * 64 + (b1 - 0x80)) <$> from_utf8 t1
          else match t1 with
          | [] => None
          | b2 :: t2 =>
              if lead3 b0 b1 && continuation b2
              then cons ((b0 - 0xE0) * 4096 + (b1 - 0x80) * 64 + (b2 - 0x80)) <$> from_utf8 t2
              else match t2 with
              | [] => None
              | b3 :: t3 =>
                  if lead4 b0 b1 && continuation b2 && continuation b3
                  then cons ((b0 - 0xF0) * 262144 + (b1 - 0x80) * 4096 + (b2 - 0x80) * 64 + (b3 - 0x80)) <$> from_utf8 t3
                  else None
              end
          end
      end
  end.

(** ** Round trip *)

Lemma in_range_true lo hi c : lo ≤ c ≤ hi → in_range lo hi c = true.
Proof. unfold in_range. lia. Qed.
Lemma in_range_false lo hi c : c < lo ∨ hi < c → in_range lo hi c = false.
Proof. unfold in_range. lia. Qed.

Lemma continuation_mod c : continuation (0x80 + c `mod` 64) = true.
Proof. apply in_range_true. pose proof (Z.mod_pos_bound c 64). lia. Qed.

Lemma from_encode_char c t : is_char c → from_utf8 (encode_char c ++ t) = cons c <$> from_utf8 t.
Proof.
  intros Hc. unfold encode_char, is_char in *.
  pose proof (Z.div_mod c 64 ltac:(lia)) as H64. pose proof (Z.mod_pos_bound c 64 ltac:(lia)).
  pose proof (Z.div_mod (c / 64) 64 ltac:(lia)) as H4096. pose proof (Z.mod_pos_bound (c / 64) 64 ltac:(lia)).
  pose proof (Z.div_mod (c / 4096) 64 ltac:(lia)) as Hbig. pose proof (Z.mod_pos_bound (c / 4096) 64 ltac:(lia)).
  rewrite Z.div_div in H4096, Hbig by lia. change (64 * 64) with 4096 in H4096. change (4096 * 64) with 262144 in Hbig.
  destruct (Z.ltb_spec c 0x80); [cbn [app from_utf8]; by rewrite in_range_true by lia|].
  destruct (Z.ltb_spec c 0x800); [|destruct (Z.ltb_spec c 0x10000)]; cbn [app from_utf8];
    rewrite (in_range_false 0 0x7F) by lia.
  - rewrite in_range_true, continuation_mod by lia. cbn [andb]. do 2 f_equal. lia.
  - rewrite (in_range_false 0xC2 0xDF), !continuation_mod by lia. cbn [andb].
    assert (lead3 (0xE0 + c / 4096) (0x80 + (c / 64) `mod` 64) = true) as ->.
    { unfold lead3, continuation, in_range. lia. }
    cbn [andb]. do 2 f_equal. lia.
  - rewrite (in_range_false 0xC2 0xDF) by lia. cbn [andb].
    assert (lead3 (0xF0 + c / 262144) (0x80 + (c / 4096) `mod` 64) = false) as ->.
    { unfold lead3, continuation, in_range. lia. }
    rewrite !continuation_mod. cbn [andb].
    assert (lead4 (0xF0 + c / 262144) (0x80 + (c / 4096) `mod` 64) = true) as ->.
    { unfold lead4, continuation, in_range. lia. }
    cbn [andb]. do 2 f_equal. lia.
Qed.

Lemma from_utf8_as_bytes s : Forall is_char s → from_utf8 (as_bytes s) = Some s.
Proof.
  induction 1 as [|c s Hc _ IH]; [done|]. unfold as_bytes. cbn [fmap list_fmap concat].
  rewrite from_encode_char by done. fold (as_bytes s). by rewrite IH.
Qed.

Lemma as_bytes_inj s t : Forall is_char s → Forall is_char t → as_bytes s = as_bytes t → s = t.
Proof. intros Hs Ht Heq. apply from_utf8_as_bytes in Hs, Ht. congruence. Qed.

Lemma as_bytes_app s t : as_bytes (s ++ t) = as_bytes s ++ as_bytes t.
Proof. unfold as_bytes. by rewrite fmap_app, concat_app. Qed.

(** [str::len] counts these bytes. *)
Lemma length_as_bytes s : length (as_bytes s) = str_len s.
Proof.
  unfold as_bytes, str_len. induction s as [|c s IH]; [done|]. cbn [fmap list_fmap concat sum_list_with].
  rewrite length_app, IH. f_equal. unfold encode_char, utf8_len. repeat case_match; done.
Qed.

(** An ASCII character is a byte of its own and occurs in no other. *)
Lemma encode_char_ascii c : 0 ≤ c < 0x80 → encode_char c = [c].
Proof. intros Hc. unfold encode_char. destruct (Z.ltb_spec c 0x80); [done|lia]. Qed.

Lemma elem_of_encode_char b c : is_char c → b < 0x80 → b ∈ encode_char c → c = b.
Proof.
  intros Hc Hb. unfold encode_char, is_char in *.
  assert (∀ x, 0 ≤ x `mod` 64) by (intros x; apply Z.mod_pos_bound; lia).
  assert (∀ d, 0 < d → 0 ≤ c / d) as Hdiv by (intros d Hd; apply Z.div_pos; lia).
  pose proof (H c). pose proof (H (c / 64)). pose proof (H (c / 4096)).
  pose proof (Hdiv 64 ltac:(lia)). pose proof (Hdiv 4096 ltac:(lia)). pose proof (Hdiv 262144 ltac:(lia)).
  repeat case_match; rewrite !elem_of_cons, elem_of_nil; lia.
Qed.

Lemma elem_of_as_bytes b s : Forall is_char s → b < 0x80 → b ∈ as_bytes s → b ∈ s.
Proof.
  intros Hs Hb Hin. unfold as_bytes in Hin. rewrite list_elem_of_In, in_concat in Hin. destruct Hin as (l & Hl & Hin).
  apply list_elem_of_In, list_elem_of_fmap in Hl as (c & -> & Hc). apply list_elem_of_In in Hin. rewrite Forall_forall in Hs.
  by apply elem_of_encode_char in Hin as <-; [|apply Hs|].
Qed.
