(* ===== verification/MetricsServer.v ===== *)
(** * The metrics and health endpoint
      ([thoth-mesh-node/src/metrics_server.rs], [health.rs])

    One request of the port that [--metrics-addr] opens: what is read from the
    socket, and the one response written before it is closed. *)

From S2P Require Import Prelude.
From S2P Require Import Text.
From S2P Require Import Utf8.
From S2P Require Import Runtime.
From S2P Require Import Message.
From S2P Require Import PeerDirectory.
From S2P Require Import Membership.
From S2P Require Import MessageStore.
From S2P Require Import Broker.
From S2P Require Import RateLimit.
From S2P Require Import Metrics.

#[local] Open Scope nat_scope.

(** [health.rs]: the flag behind every clone. *)
Module Readiness.
Definition Readiness : Type := bool.
Definition new : Readiness := false.
Definition mark_ready (_ : Readiness) : Readiness := true.
Definition is_ready (r : Readiness) : bool := r.
End Readiness.
Import Readiness(Readiness, is_ready).

(** What is left to read, and whether an error or the end of the stream
    follows. *)
Record Socket := MkSocket { incoming : bytes; ending : option io_error }.

(** The first line with its line feed, and what follows it. *)
Fixpoint take_line (b : bytes) : option (bytes * bytes) :=
  match b with
  | [] => None
  | c :: b' =>
      if (c =? 10)%Z then Some ([c], b')
      else match take_line b' with Some (l, rest) => Some (c :: l, rest) | None => None end
  end.

Definition utf8_line (b : bytes) : Result rstr io_error :=
  match from_utf8 b with Some s => Ok s | None => Err (lit "stream did not contain valid UTF-8") end.

(** [AsyncBufReadExt::read_line] *)
Definition read_line : ST Socket (Result rstr io_error) := λ s,
  match take_line (incoming s) with
  | Some (l, rest) => (utf8_line l, MkSocket rest (ending s))
  | None =>
      match ending s with
      | Some e => (Err e, MkSocket [] (Some e))
      | None => (utf8_line (incoming s), MkSocket [] None)
      end
  end.

(** [str::split_whitespace], [split_once] and [strip_prefix]. *)
Fixpoint split_by (p : rchar → bool) (s : rstr) : list rstr :=
  match s with
  | [] => [[]]
  | c :: s' =>
      if p c then [] :: split_by p s'
      else match split_by p s' with
           | seg :: segs => (c :: seg) :: segs
           | [] => [[c]]
           end
  end.
Definition split_whitespace (s : rstr) : list rstr :=
  List.filter (λ w, negb (bool_decide (w = []))) (split_by is_whitespace s).
Fixpoint split_once (sep : rchar) (s : rstr) : option (rstr * rstr) :=
  match s with
  | [] => None
  | c :: s' =>
      if (c =? sep)%Z then Some ([], s')
      else match split_once sep s' with Some (a, b) => Some (c :: a, b) | None => None end
  end.
Fixpoint strip_prefix (prefix s : rstr) : option rstr :=
  match prefix, s with
  | [], _ => Some s
  | p :: prefix', c :: s' => if (p =? c)%Z then strip_prefix prefix' s' else None
  | _ :: _, [] => None
  end.

Definition crlf : rstr := [13; 10]%Z.

Definition constant_time_eq (a b : bytes) : bool :=
  if negb (length a =? length b) then false
  else (fold_left (λ diff p, Z.lor diff (Z.lxor p.1 p.2)) (zip a b) 0 =? 0)%Z.

Definition write_response (status : Z) (reason extra_headers body : rstr) : rstr :=
  lit "HTTP/1.1 " ++ display_u64 status ++ lit " " ++ reason ++ crlf
  ++ lit "Content-Type: text/plain" ++ crlf
  ++ lit "Content-Length: " ++ display_u64 (Z.of_nat (str_len body)) ++ crlf
  ++ lit "Connection: close" ++ crlf
  ++ extra_headers ++ crlf ++ body.

Definition scrape_response (body : rstr) : rstr :=
  lit "HTTP/1.1 200 OK" ++ crlf
  ++ lit "Content-Type: text/plain; version=0.0.4" ++ crlf
  ++ lit "Content-Length: " ++ display_u64 (Z.of_nat (str_len body)) ++ crlf
  ++ lit "Connection: close" ++ crlf ++ crlf ++ body.

(** The loop over the headers; [None] when the fuel runs out. *)
Fixpoint read_headers (fuel : nat) (authorization : option rstr) (s : Socket) : option (Result (option rstr) io_error) :=
  match fuel with
  | O => None
  | S fuel' =>
      match read_line s with
      | (Err e, _) => Some (Err e)
      | (Ok line, s') =>
          if bool_decide (line = []) || bool_decide (line = crlf) || bool_decide (line = [10%Z]) then Some (Ok authorization)
          else
            read_headers fuel'
              match split_once 58 line with
              | Some (name, value) =>
                  if eq_ignore_ascii_case name (lit "authorization") then Some (trim value) else authorization
              | None => authorization
              end s'
      end
  end.

Section server.
Context `{Broadcast Envelope} `{Mpsc Envelope} `{MessageStore}.
Context (membership : Membership) (broker : Broker) (discover : PeerDirectory) (rate_limiter : option RateLimiter)
  (readiness : Readiness) (token : option rstr).

Definition authorized (authorization : option rstr) : bool :=
  match token with
  | None => true
  | Some expected =>
      match authorization ≫= strip_prefix (lit "Bearer ") with
      | Some presented => constant_time_eq (as_bytes presented) (as_bytes expected)
      | None => false
      end
  end.

(** The response to a request for [path]. *)
Definition respond (path : rstr) (authorization : option rstr) (metrics : Metrics) : rstr * Metrics :=
  if bool_decide (path = lit "/livez") then (write_response 200 (lit "OK") [] (lit "ok" ++ [newline]), metrics)
  else if bool_decide (path = lit "/readyz") then
    if is_ready readiness then (write_response 200 (lit "OK") [] (lit "ready" ++ [newline]), metrics)
    else (write_response 503 (lit "Service Unavailable") [] (lit "not ready" ++ [newline]), metrics)
  else if authorized authorization then
    (scrape_response (render_prometheus membership broker discover metrics rate_limiter), metrics)
  else
    (write_response 401 (lit "Unauthorized") (lit "WWW-Authenticate: Bearer" ++ crlf) (lit "unauthorized" ++ [newline]),
     record_metrics_auth_rejection metrics).

(** What is written to the socket, or the error that ends the connection. *)
Definition handle_request (socket : Socket) (metrics : Metrics) : option (Result rstr io_error * Metrics) :=
  match read_line socket with
  | (Err e, _) => Some (Err e, metrics)
  | (Ok request_line, socket') =>
      let target := unwrap_or [] (split_whitespace request_line !! 1) in
      let path := match split_once 63 target with Some (path, _) => path | None => target end in
      match read_headers (S (length (incoming socket'))) None socket' with
      | None => None
      | Some (Err e) => Some (Err e, metrics)
      | Some (Ok authorization) => let '(response, metrics') := respond path authorization metrics in
          Some (Ok response, metrics')
      end
  end.

(** The listener's loop: what it answers to each socket, in the order they are
    served, and the error of [accept] that ends it. A request that fails ends
    its own task only. *)
Fixpoint serve_metrics (accepted : list (Result Socket io_error)) (metrics : Metrics) :
    list (option (Result rstr io_error)) * option io_error * Metrics :=
  match accepted with
  | [] => ([], None, metrics)
  | Err e :: _ => ([], Some e, metrics)
  | Ok socket :: accepted' =>
      let '(answer, metrics1) :=
        match handle_request socket metrics with Some (r, m) => (Some r, m) | None => (None, metrics) end in
      let '(answers, ended, metrics2) := serve_metrics accepted' metrics1 in
      (answer :: answers, ended, metrics2)
  end.
End server.

(** ** Lemmas *)

Lemma constant_time_eq_spec a b : constant_time_eq a b = true ↔ a = b.
Proof.
  unfold constant_time_eq. destruct (Nat.eqb_spec (length a) (length b)) as [Hl|Hl]; cbn [negb].
  2:{ split; [done|]. by intros ->. }
  rewrite Z.eqb_eq.
  assert (∀ d, fold_left (λ diff p, Z.lor diff (Z.lxor p.1 p.2)) (zip a b) d = 0%Z ↔ d = 0%Z ∧ a = b) as Hfold.
  { clear -Hl. revert b Hl. induction a as [|x a IH]; intros [|y b] Hl d; try done; cbn; [tauto|].
    rewrite IH by (cbn in Hl; lia). rewrite Z.lor_eq_0_iff, Z.lxor_eq_0_iff. naive_solver. }
  rewrite Hfold. tauto.
Qed.

Lemma take_line_app l rest : 10%Z ∉ l → take_line (l ++ 10%Z :: rest) = Some (l ++ [10%Z], rest).
Proof.
  induction l as [|c l IH]; intros Hl; [done|]. apply not_elem_of_cons in Hl as [Hc Hl]. cbn.
  destruct (Z.eqb_spec c 10); [by subst|]. by rewrite IH.
Qed.

Lemma read_line_text l rest e :
  Forall is_char l → 10%Z ∉ l →
  read_line (MkSocket (as_bytes (l ++ [10%Z]) ++ rest) e) = (Ok (l ++ [10%Z]), MkSocket rest e).
Proof.
  intros Hl Hn. unfold read_line. cbn [incoming ending]. rewrite as_bytes_app. change (as_bytes [10%Z]) with [10%Z].
  rewrite <-app_assoc. cbn [app]. rewrite take_line_app by (intros Hin; by apply elem_of_as_bytes in Hin; [|done|lia]).
  unfold utf8_line. change (as_bytes l ++ [10%Z]) with (as_bytes l ++ as_bytes [10%Z]).
  rewrite <-as_bytes_app, from_utf8_as_bytes; [done|]. apply Forall_app. split; [done|].
  apply Forall_singleton. unfold is_char. lia.
Qed.

Lemma split_by_app p w c s :
  Forall (λ x, p x = false) w → p c = true → split_by p (w ++ c :: s) = w :: split_by p s.
Proof. intros Hw Hc. induction Hw as [|x w Hx _ IH]; cbn; [by rewrite Hc|]. by rewrite Hx, IH. Qed.

(** A token of the request line. *)
Definition token_text (w : rstr) : Prop := w ≠ [] ∧ Forall (λ c, is_char c ∧ is_whitespace c = false) w.

Lemma split_whitespace_token w s :
  token_text w → split_whitespace (w ++ 32%Z :: s) = w :: split_whitespace s.
Proof.
  intros [Hne Hw]. unfold split_whitespace. rewrite split_by_app; [|by eapply Forall_impl; [exact Hw|]; intros ? []|done].
  cbn. by rewrite bool_decide_false.
Qed.

Lemma token_no_lf w : token_text w → 10%Z ∉ w ∧ Forall is_char w.
Proof.
  intros [_ Hw]. split; [|by eapply Forall_impl; [exact Hw|]; intros ? []].
  intros Hin. rewrite Forall_forall in Hw. by apply Hw in Hin as [_ ?].
Qed.

Lemma split_once_app sep a b : sep ∉ a → split_once sep (a ++ sep :: b) = Some (a, b).
Proof.
  induction a as [|c a IH]; intros Ha; cbn; [by rewrite Z.eqb_refl|]. apply not_elem_of_cons in Ha as [Hc Ha].
  destruct (Z.eqb_spec c sep); [by subst|]. by rewrite IH.
Qed.

Lemma strip_prefix_spec p s r : strip_prefix p s = Some r ↔ s = p ++ r.
Proof.
  revert s; induction p as [|c p IH]; intros s; cbn; [naive_solver|]. destruct s as [|d s]; [done|].
  destruct (Z.eqb_spec c d) as [->|Hne]; [|naive_solver]. rewrite IH. naive_solver.
Qed.

(** A header line: its name, a colon, its value and the line's end. *)
Definition header_line (h : rstr * rstr) : rstr := h.1 ++ lit ":" ++ h.2 ++ crlf.
Definition header_text (h : rstr * rstr) : Prop :=
  Forall is_char h.1 ∧ Forall is_char h.2 ∧ 58%Z ∉ h.1 ∧ 10%Z ∉ h.1 ∧ 10%Z ∉ h.2.

(** The last [Authorization] header's value. *)
Definition authorization_of (headers : list (rstr * rstr)) : option rstr :=
  last ((λ h, trim h.2) <$> List.filter (λ h, eq_ignore_ascii_case h.1 (lit "authorization")) headers).

Lemma trim_start_ws_end s c : is_whitespace c = true → trim_start (reverse (s ++ [c])) = trim_start (reverse s).
Proof. intros Hc. rewrite reverse_app. cbn. by rewrite Hc. Qed.

Lemma trim_crlf s : trim (s ++ crlf) = trim s.
Proof.
  unfold trim, crlf. destruct (decide (Forall (λ c, is_whitespace c = true) s)) as [Hall|Hsome].
  - assert (∀ t, Forall (λ c, is_whitespace c = true) t → trim_start t = []) as Hnil.
    { clear. induction 1 as [|c t Hc _ IH]; [done|]. cbn. by rewrite Hc. }
    rewrite (Hnil s), (Hnil (s ++ _)); [done| |done]. apply Forall_app. split; [done|]. by repeat constructor.
  - assert (trim_start (s ++ [13; 10]%Z) = trim_start s ++ [13; 10]%Z) as ->.
    { clear -Hsome. induction s as [|c s IH]; [by destruct Hsome|]. cbn. destruct (is_whitespace c) eqn:Hc; [|done].
      apply IH. intros Hs. apply Hsome. by apply Forall_cons. }
    change [13; 10]%Z with ([13]%Z ++ [10]%Z). by rewrite app_assoc, (trim_start_ws_end _ 10%Z), (trim_start_ws_end _ 13%Z) by done.
Qed.

Lemma header_line_shape h : header_line h = (h.1 ++ 58%Z :: h.2 ++ [13%Z]) ++ [10%Z].
Proof.
  unfold header_line, crlf. change (lit ":") with [58%Z]. cbn.
  rewrite <-app_assoc. cbn. by rewrite <-app_assoc.
Qed.

Lemma take_line_length b l rest : take_line b = Some (l, rest) → length rest < length b.
Proof.
  revert l; induction b as [|c b IH]; intros l; [done|]. cbn. destruct (c =? 10)%Z; [intros [= _ <-]; lia|].
  destruct (take_line b) as [[l' rest']|]; [|done]. intros [= _ <-]. specialize (IH l' eq_refl). lia.
Qed.

(** The loop ends: a line that is not empty took at least a byte. *)
Lemma read_headers_total fuel auth s : length (incoming s) < fuel → is_Some (read_headers fuel auth s).
Proof.
  revert auth s; induction fuel as [|fuel IH]; intros auth s Hf; [lia|]. cbn [read_headers].
  destruct (read_line s) as [[line|e] s'] eqn:Hr; [|by eexists].
  destruct (bool_decide (line = [])) eqn:Hne; [by eexists|]. apply bool_decide_eq_false in Hne.
  destruct (_ || _); [by eexists|]. apply IH. unfold read_line in Hr.
  destruct (take_line (incoming s)) as [[l rest]|] eqn:Hl.
  - injection Hr as _ <-. cbn. apply take_line_length in Hl. lia.
  - destruct (ending s); [done|]. injection Hr as Hu <-. cbn. destruct (incoming s); [|cbn in Hf; lia].
    cbn in Hu. by injection Hu as <-.
Qed.

(** So a request always ends in a response or an error. *)
Lemma handle_request_total `{Broadcast Envelope} `{Mpsc Envelope} `{MessageStore}
    membership broker discover rate_limiter readiness token socket metrics :
  is_Some (handle_request membership broker discover rate_limiter readiness token socket metrics).
Proof.
  unfold handle_request. destruct (read_line socket) as [[line|e] s']; [|by eexists].
  destruct (read_headers_total (S (length (incoming s'))) None s') as [[auth|e] ->]; [lia| |by eexists].
  destruct (respond _ _ _ _ _ _ _ _ _). by eexists.
Qed.

Lemma read_headers_text headers rest e :
  Forall header_text headers →
  ∀ fuel auth, length headers < fuel →
  read_headers fuel auth (MkSocket (as_bytes (concat (header_line <$> headers) ++ crlf) ++ rest) e)
  = Some (Ok (match authorization_of headers with Some a => Some a | None => auth end)).
Proof.
  induction 1 as [|h headers (Hn & Hv & Hcolon & Hln & Hlv) _ IH]; intros [|fuel] auth Hf; try (cbn in Hf; lia).
  - cbn [read_headers fmap list_fmap concat app]. change crlf with ([13%Z] ++ [10%Z]).
    rewrite read_line_text; [done|apply Forall_singleton; unfold is_char; lia|]. rewrite list_elem_of_singleton. lia.
  - cbn [read_headers fmap list_fmap concat]. rewrite <-app_assoc, header_line_shape, as_bytes_app, <-app_assoc.
    rewrite read_line_text.
    + rewrite !bool_decide_false; cbn [orb].
      2-4: rewrite <-header_line_shape; unfold header_line; intros Heq; apply (f_equal (elem_of 58%Z)) in Heq;
        assert (58%Z ∈ h.1 ++ lit ":" ++ h.2 ++ crlf) as Hin by (rewrite !elem_of_app; right; left; constructor);
        rewrite Heq in Hin; clear -Hin; unfold crlf in Hin; rewrite ?elem_of_cons, ?elem_of_nil in Hin; naive_solver lia.
      rewrite <-app_assoc. cbn [app]. rewrite split_once_app by done. rewrite IH by (cbn in Hf; lia). f_equal. f_equal.
      unfold authorization_of. cbn [List.filter]. destruct (eq_ignore_ascii_case h.1 (lit "authorization")); [|done].
      cbn [fmap list_fmap]. rewrite last_cons. destruct (last _); [done|]. f_equal. rewrite <-app_assoc. apply trim_crlf.
    + apply Forall_app. split; [done|]. apply Forall_cons. split; [unfold is_char; lia|]. apply Forall_app. split; [done|].
      apply Forall_singleton. unfold is_char. lia.
    + rewrite elem_of_app, elem_of_cons, elem_of_app, list_elem_of_singleton. naive_solver lia.
Qed.

Definition request_text (method target version : rstr) (headers : list (rstr * rstr)) : rstr :=
  method ++ lit " " ++ target ++ lit " " ++ version ++ crlf ++ concat (header_line <$> headers) ++ crlf.

(** A request as HTTP spells it is read as it was meant. *)
Lemma handle_request_text `{Broadcast Envelope} `{Mpsc Envelope} `{MessageStore}
    membership broker discover rate_limiter readiness token method target version headers rest e metrics :
  token_text method → token_text target → token_text version → Forall header_text headers →
  handle_request membership broker discover rate_limiter readiness token
    (MkSocket (as_bytes (request_text method target version headers) ++ rest) e) metrics
  = let '(response, metrics') :=
      respond membership broker discover rate_limiter readiness token
        (match split_once 63 target with Some (path, _) => path | None => target end) (authorization_of headers) metrics in
    Some (Ok response, metrics').
Proof.
  intros Hm Ht Hv Hh. unfold handle_request, request_text.
  destruct (token_no_lf _ Hm) as [Lm Cm], (token_no_lf _ Ht) as [Lt Ct], (token_no_lf _ Hv) as [Lv Cv].
  assert (∀ tail, method ++ lit " " ++ target ++ lit " " ++ version ++ crlf ++ tail
    = ((method ++ 32%Z :: target ++ 32%Z :: version ++ [13%Z]) ++ [10%Z]) ++ tail) as ->.
  { intros tail. change (lit " ") with [32%Z]. unfold crlf. by repeat (rewrite <-app_assoc; cbn [app]). }
  rewrite as_bytes_app, <-app_assoc, read_line_text.
  2:{ repeat (apply Forall_app; split; [done|]; try (apply Forall_cons; split; [unfold is_char; lia|])).
      apply Forall_nil_2. }
  2:{ repeat rewrite elem_of_app || rewrite elem_of_cons. rewrite elem_of_nil. naive_solver lia. }
  rewrite <-app_assoc. cbn [app]. rewrite split_whitespace_token by done. rewrite <-app_assoc. cbn [app].
  rewrite split_whitespace_token by done. cbn [lookup list_lookup unwrap_or incoming].
  rewrite read_headers_text; [by destruct (authorization_of headers)|done|].
  rewrite length_app, as_bytes_app, length_app.
  apply Nat.lt_succ_r. rewrite <-Nat.add_assoc. etrans; [|apply Nat.le_add_r].
  clear. rewrite length_as_bytes. etrans; [|apply str_len_ge_length].
  induction headers as [|h headers IH]; [done|]. cbn [fmap list_fmap concat length]. rewrite length_app.
  assert (1 ≤ length (header_line h)) by (unfold header_line, crlf; rewrite !length_app; cbn; lia). lia.
Qed.

(** C38: what a request gets. [/livez] is answered with 200 and
    [/readyz] with 200 or 503 by the readiness, whatever the token and without
    touching a counter, a query string apart; any other path gets the render
    exactly when no token is configured or the last [Authorization] header is
    that very token as a bearer, and otherwise a 401 that is counted and
    carries no counter. A message of the request's body is never looked at. *)
Theorem scrape_needs_token `{Broadcast Envelope} `{Mpsc Envelope} `{MessageStore}
    membership broker discover rate_limiter readiness token method target version headers body e metrics :
  token_text method → token_text target → token_text version → Forall header_text headers →
  (∀ expected, token = Some expected → Forall is_char expected) →
  ∃ response metrics',
    handle_request membership broker discover rate_limiter readiness token
      (MkSocket (as_bytes (request_text method target version headers) ++ body) e) metrics = Some (Ok response, metrics')
    ∧ let path := match split_once 63 target with Some (path, _) => path | None => target end in
      (path = lit "/livez" → response = write_response 200 (lit "OK") [] (lit "ok" ++ [newline]) ∧ metrics' = metrics)
      ∧ (path = lit "/readyz" → metrics' = metrics
          ∧ response = (if is_ready readiness then write_response 200 (lit "OK") [] (lit "ready" ++ [newline])
                        else write_response 503 (lit "Service Unavailable") [] (lit "not ready" ++ [newline])))
      ∧ (path ≠ lit "/livez" → path ≠ lit "/readyz" →
          (token = None ∨ (∃ expected, token = Some expected
             ∧ authorization_of headers = Some (lit "Bearer " ++ expected))) ∧ metrics' = metrics
            ∧ response = scrape_response (render_prometheus membership broker discover metrics rate_limiter)
          ∨ (∃ expected, token = Some expected ∧ authorization_of headers ≠ Some (lit "Bearer " ++ expected))
            ∧ metrics' = record_metrics_auth_rejection metrics
            ∧ response = write_response 401 (lit "Unauthorized") (lit "WWW-Authenticate: Bearer" ++ crlf)
                (lit "unauthorized" ++ [newline])).
Proof.
  intros Hm Ht Hv Hh Htok. rewrite handle_request_text by done.
  set (path := match split_once 63 target with Some (path, _) => path | None => target end).
  assert (∀ a, authorization_of headers = Some a → Forall is_char a) as Hchar.
  { intros a Ha. unfold authorization_of in Ha. apply last_Some in Ha as [l Hl].
    assert (a ∈ l ++ [a]) as Hin by (apply elem_of_app; right; constructor). rewrite <-Hl in Hin.
    apply list_elem_of_fmap in Hin as ([n v] & -> & Hin). rewrite list_elem_of_In, filter_In, <-list_elem_of_In in Hin.
    destruct Hin as [Hin _]. rewrite Forall_forall in Hh. apply Hh in Hin as (_ & Hv' & _).
    unfold trim. assert (∀ s, Forall is_char s → Forall is_char (trim_start s)) as Htr.
    { clear. induction 1 as [|c s Hc Hs IH]; [done|]. cbn. destruct (is_whitespace c); [done|by constructor]. }
    by apply Forall_reverse, Htr, Forall_reverse, Htr. }
  assert (authorized token (authorization_of headers) = true
    ↔ token = None ∨ ∃ expected, token = Some expected ∧ authorization_of headers = Some (lit "Bearer " ++ expected)) as Hauth.
  { unfold authorized. destruct token as [expected|]; [|naive_solver].
    destruct (authorization_of headers) as [a|]; cbn [mbind option_bind]; [|naive_solver].
    destruct (strip_prefix (lit "Bearer ") a) as [presented|] eqn:Hp.
    - apply strip_prefix_spec in Hp as ->. specialize (Hchar _ eq_refl). apply Forall_app in Hchar as [_ Hchar].
      rewrite constant_time_eq_spec. split.
      + intros Heq%as_bytes_inj; [|done|by apply Htok]. right. exists expected. by subst.
      + intros [?|(x & [= ->] & [= Heq])]; [done|]. by subst.
    - split; [done|]. intros [?|(x & [= ->] & [= Heq])]; [done|].
      destruct (strip_prefix_spec (lit "Bearer ") a x) as [_ Hs]. rewrite Hs in Hp; done. }
  unfold respond. destruct (decide (path = lit "/livez")) as [Hl|Hl].
  { rewrite bool_decide_true by done. eexists _, _. split; [done|]. split; [done|]. split; [|done].
    intros Hr. rewrite Hl in Hr. discriminate. }
  rewrite (bool_decide_false (path = lit "/livez")) by done.
  destruct (decide (path = lit "/readyz")) as [Hr|Hr].
  { rewrite bool_decide_true by done. destruct (is_ready readiness); (eexists _, _; split; [done|]; split; [by intros ?|]; split; [done|];
      intros _ Hr'; by destruct Hr'). }
  rewrite bool_decide_false by done. destruct (authorized token (authorization_of headers)) eqn:Ha.
  - eexists _, _. split; [done|]. split; [done|]. split; [done|]. intros _ _. left. split; [by apply Hauth|done].
  - eexists _, _. split; [done|]. split; [done|]. split; [done|]. intros _ _. right. split; [|done].
    destruct token as [expected|]; [|done].
    exists expected. split; [done|]. intros Heq.
    assert (false = true); [|done]. apply Hauth. right. by exists expected.
Qed.

(** ** Witnesses *)

Lemma ascii_is_char s : forallb (in_range 0 127) s = true → Forall is_char s.
Proof.
  rewrite forallb_forall. intros Hs. apply Forall_forall. intros c Hc%list_elem_of_In%Hs. unfold in_range, is_char in *. lia.
Qed.

Lemma ascii_token w :
  w ≠ [] → forallb (λ c, in_range 0 127 c && negb (is_whitespace c)) w = true → token_text w.
Proof.
  intros Hne. rewrite forallb_forall. intros Hw. split; [done|]. apply Forall_forall.
  intros c [Hc Hs]%list_elem_of_In%Hw%andb_prop. split; [unfold in_range, is_char in *; lia|by apply negb_true_iff].
Qed.

Module ScrapeSample.
#[local] Instance broadcast : Broadcast Envelope := Reference.ref_broadcast Envelope.
#[local] Instance mpsc : Mpsc Envelope := Reference.ref_mpsc Envelope.
#[local] Instance store : MessageStore := ReferenceStore.ref_store.
Definition serve (readiness : Readiness) :=
  handle_request Membership.new Broker.new PeerDirectory.new None readiness (Some (lit "s3cret")).
Definition headers : list (rstr * rstr) := [(lit "Host", lit " localhost"); (lit "authorization", lit " Bearer s3cre")].
Definition socket : Socket := MkSocket (as_bytes (request_text (lit "GET") (lit "/metrics") (lit "HTTP/1.1") headers)) None.
End ScrapeSample.

(** A token one character short. *)
Lemma scrape_needs_token_witness :
  ∃ response, ScrapeSample.serve Readiness.new ScrapeSample.socket Metrics.new
    = Some (Ok response, record_metrics_auth_rejection Metrics.new).
Proof.
  destruct (@scrape_needs_token ScrapeSample.broadcast ScrapeSample.mpsc ScrapeSample.store
    Membership.new Broker.new PeerDirectory.new None Readiness.new (Some (lit "s3cret"))
    (lit "GET") (lit "/metrics") (lit "HTTP/1.1") ScrapeSample.headers [] None Metrics.new) as (response & m & Hr & _ & _ & Ho).
  1-3: by apply ascii_token; vm_compute.
  - repeat apply Forall_cons_2; try apply Forall_nil_2; (split; [by apply ascii_is_char|]; split; [by apply ascii_is_char|]);
      (split; [|split]); by apply (bool_decide_unpack _); vm_compute.
  - intros x [= <-]. by apply ascii_is_char.
  - specialize (Ho ltac:(done) ltac:(done)). destruct Ho as [[[?|(x & [= <-] & Ha)] _]|(_ & -> & _)]; [done|by vm_compute in Ha|]. exists response.
    rewrite app_nil_r in Hr. exact Hr.
Defined.
