(* ===== verification/Client.v ===== *)
(** * The command-line client ([thoth-mesh-cli/src/lib.rs], [config.rs])

    A session over one connection: what was written to it and what is left to
    read, the identifiers drawn, and what went to the two output streams,
    whose writes are taken to succeed. The CBOR codec, the connection's own
    writes and the texts of library errors are parameters; the lemmas on whole
    conversations are about a connection whose writes succeed. The interrupt of [subscribe] comes after a given
    number of messages; [request] is given how long each further message takes
    to arrive. *)

From S2P Require Import Prelude.
From S2P Require Import Text.
From S2P Require Import Utf8.
From S2P Require Import Topic.
From S2P Require Import Filter.
From S2P Require Import Runtime.
From S2P Require Import NodeConfig.
From S2P Require Import Message.
From S2P Require Import Framing.
From S2P Require Import Writer.
From S2P Require Import Tls.
From S2P Require Import Handshake.
From S2P Require Import Metrics.

#[local] Open Scope nat_scope.

Inductive OutputMode : Type := Text | Raw.

Inductive ClientError : Type :=
| InvalidTopic (raw : rstr) (e : TopicError)
| InvalidFilter (raw : rstr) (e : TopicFilterError)
| TlsHalf
| PermissionDenied (message : rstr)
| TimedOut (secs : Z)
| TlsFailed (e : TlsError)
| ConnectFailed (e : TlsConnectError)
| Other (message : rstr).

Record Session := MkSession {
  wire : duplex;
  next_id : nat;
  stdout : bytes;
  stderr : bytes;
}.

Definition Cmd (A : Type) : Type := ST Session (Result A ClientError).
Definition done_ok {A} (a : A) : Cmd A := λ s, (Ok a, s).
Definition fails {A} (e : ClientError) : Cmd A := λ s, (Err e, s).
Definition cmd_bind {A B} (m : Cmd A) (k : A → Cmd B) : Cmd B := λ s,
  match m s with
  | (Ok a, s') => k a s'
  | (Err e, s') => (Err e, s')
  end.
Notation "'let!' x ':=' r 'in' k" := (cmd_bind r (λ x, k))
  (at level 10, x name, r at level 100, k at level 200) : thoth_scope.

(** [String::from_utf8_lossy]: each maximal piece that no character starts
    with becomes one replacement character. *)
Definition REPLACEMENT : rchar := 0xFFFD.
Fixpoint from_utf8_lossy (b : bytes) : rstr :=
  match b with
  | [] => []
  | b0 :: t =>
      if in_range 0 0x7F b0 then b0 :: from_utf8_lossy t
      else match t with
      | [] => [REPLACEMENT]
      | b1 :: t1 =>
          if in_range 0xC2 0xDF b0 && continuation b1
          then ((b0 - 0xC0) * 64 + (b1 - 0x80))%Z :: from_utf8_lossy t1
          else if lead3 b0 b1 then
            match t1 with
            | [] => [REPLACEMENT]
            | b2 :: t2 =>
                if continuation b2
                then ((b0 - 0xE0) * 4096 + (b1 - 0x80) * 64 + (b2 - 0x80))%Z :: from_utf8_lossy t2
                else REPLACEMENT :: from_utf8_lossy t1
            end
          else if lead4 b0 b1 then
            match t1 with
            | [] => [REPLACEMENT]
            | b2 :: t2 =>
                if continuation b2 then
                  match t2 with
                  | [] => [REPLACEMENT]
                  | b3 :: t3 =>
                      if continuation b3
                      then ((b0 - 0xF0) * 262144 + (b1 - 0x80) * 4096 + (b2 - 0x80) * 64 + (b3 - 0x80))%Z
                             :: from_utf8_lossy t3
                      else REPLACEMENT :: from_utf8_lossy t2
                  end
                else REPLACEMENT :: from_utf8_lossy t1
            end
          else REPLACEMENT :: from_utf8_lossy t
      end
  end.

Definition print (b : bytes) : Cmd () := λ s, (Ok (), MkSession (wire s) (next_id s) (stdout s ++ b) (stderr s)).
Definition eprint (b : bytes) : Cmd () := λ s, (Ok (), MkSession (wire s) (next_id s) (stdout s) (stderr s ++ b)).
Definition println (s : rstr) : Cmd () := print (as_bytes (s ++ [newline])).
Definition eprintln (s : rstr) : Cmd () := eprint (as_bytes (s ++ [newline])).

Definition parse_topic (s : rstr) : Result Topic ClientError := map_err (InvalidTopic s) (Topic.from_str s).
Definition parse_filter (s : rstr) : Result TopicFilter ClientError := map_err (InvalidFilter s) (Filter.from_str s).

Section client.
Context `{Uuids} {CborError : Type} (into_writer : Envelope → Result bytes CborError)
  (from_reader : bytes → Result Envelope CborError).
Context (cbor_message : CborError → rstr) (framing_message : FramingError io_error → rstr).
Context (write_all : bytes → ST duplex (Result () io_error)).

Definition on_wire {A} (m : ST duplex A) : ST Session A := λ s,
  let '(a, d) := m (wire s) in (a, MkSession d (next_id s) (stdout s) (stderr s)).

Definition new_envelope (sender : PeerId) (kind : MessageKind) : Cmd Envelope := λ s,
  (Ok (Envelope.new (next_id s) sender kind), MkSession (wire s) (S (next_id s)) (stdout s) (stderr s)).

Definition send (envelope : Envelope) : Cmd () :=
  match Envelope.to_bytes into_writer envelope with
  | Err e => fails (Other (cbor_message e))
  | Ok b => λ s,
      let '(r, s') := on_wire (AsyncFraming.write_frame write_all b) s in
      (map_err (λ e, Other (framing_message e)) r, s')
  end.

Definition recv : Cmd Envelope := λ s,
  let '(r, s') := on_wire (AsyncFraming.read_frame duplex_read_exact) s in
  match r with
  | Err e => (Err (Other (framing_message e)), s')
  | Ok b => (map_err (λ e, Other (cbor_message e)) (Envelope.from_bytes from_reader b), s')
  end.

(** ** Subscribing *)

(** The first loop of [subscribe_all]; [pending] is its [HashSet]. *)
Fixpoint send_subscribes (sender : PeerId) (filters : list TopicFilter) (ack : bool) (group : option rstr)
    (durable : bool) (pending : gset MessageId) : Cmd (gset MessageId) :=
  match filters with
  | [] => done_ok pending
  | filter :: filters' =>
      let! envelope := new_envelope sender (Subscribe filter ack group durable) in
      let! _ := send envelope in
      send_subscribes sender filters' ack group durable ({[id envelope]} ∪ pending)
  end.

(** The second loop; [None] when the fuel runs out. *)
Fixpoint drain (fuel : nat) (pending : gset MessageId) (backlog : list Envelope) (s : Session) :
    option (Result (list Envelope) ClientError * Session) :=
  if decide (pending = ∅) then Some (Ok backlog, s)
  else match fuel with
  | O => None
  | S fuel' =>
      match recv s with
      | (Err e, s') => Some (Err e, s')
      | (Ok received, s') =>
          match kind received with
          | Ack in_reply_to =>
              if decide (in_reply_to ∈ pending) then drain fuel' (pending ∖ {[in_reply_to]}) backlog s'
              else drain fuel' pending backlog s'
          | Error (Some i) message =>
              if decide (i ∈ pending) then Some (Err (PermissionDenied message), s')
              else drain fuel' pending backlog s'
          | Publish _ _ _ _ _ _ => drain fuel' pending (backlog ++ [received]) s'
          | _ => drain fuel' pending backlog s'
          end
      end
  end.

(** A message that is read takes at least four bytes. *)
Definition drain_all (pending : gset MessageId) : Cmd (list Envelope) := λ s,
  unwrap_or (Ok [], s) (drain (S (length (wire s).2)) pending [] s).

Definition subscribe_all (sender : PeerId) (filters : list TopicFilter) (ack : bool) (group : option rstr)
    (durable : bool) : Cmd (list Envelope) :=
  let! pending := send_subscribes sender filters ack group durable ∅ in
  drain_all pending.

(** [print_if_publish]: the identifier of what it printed. *)
Definition print_if_publish (envelope : Envelope) (output : OutputMode) : Cmd (option MessageId) :=
  match kind envelope with
  | Publish topic payload _ content_type _ _ =>
      let hint := match content_type with Some ct => lit " (" ++ ct ++ lit ")" | None => [] end in
      let label := lit "[" ++ Topic.as_str topic ++ lit "]" ++ hint ++ lit " " in
      match output with
      | Text => let! _ := println (label ++ from_utf8_lossy payload) in done_ok (Some (id envelope))
      | Raw =>
          let! _ := eprintln (label ++ display_u64 (Z.of_nat (length payload)) ++ lit " bytes") in
          let! _ := print payload in
          done_ok (Some (id envelope))
      end
  | _ => done_ok None
  end.

Definition print_and_maybe_ack (sender : PeerId) (envelope : Envelope) (output : OutputMode) (ack : bool) : Cmd () :=
  let! printed := print_if_publish envelope output in
  match printed, ack with
  | Some i, true =>
      let! reply := new_envelope sender (Ack i) in
      send reply
  | _, _ => done_ok ()
  end.

Fixpoint print_backlog (sender : PeerId) (backlog : list Envelope) (output : OutputMode) (ack : bool) : Cmd () :=
  match backlog with
  | [] => done_ok ()
  | envelope :: backlog' =>
      let! _ := print_and_maybe_ack sender envelope output ack in
      print_backlog sender backlog' output ack
  end.

(** The [select!] loop: the interrupt comes after [ctrl_c] messages. *)
Fixpoint live (ctrl_c : nat) (sender : PeerId) (output : OutputMode) (ack : bool) : Cmd () :=
  match ctrl_c with
  | O => done_ok ()
  | S n =>
      let! envelope := recv in
      let! _ := print_and_maybe_ack sender envelope output ack in
      live n sender output ack
  end.

Definition subscribe_and_print (ctrl_c : nat) (sender : PeerId) (filters : list TopicFilter) (output : OutputMode)
    (ack : bool) (group : option rstr) (durable : bool) : Cmd () :=
  let! backlog := subscribe_all sender filters ack group durable in
  let banner := lit "Subscribed to " ++ join (lit ", ") (Filter.as_str <$> filters)
    ++ lit ". Waiting for messages (Ctrl-C to stop)..." in
  let! _ := match output with Text => println banner | Raw => eprintln banner end in
  let! _ := print_backlog sender backlog output ack in
  live ctrl_c sender output ack.

(** ** Requests *)

Definition hex_lower (d : Z) : rchar := if (d <? 10)%Z then (48 + d)%Z else (87 + d)%Z.
Definition hex (b : Z) : rstr := [hex_lower (b / 16); hex_lower (b `mod` 16)].

(** The text of the private reply topic, which the source [expect]s to parse. *)
Definition reply_topic (i : MessageId) : rstr := lit "reply." ++ concat (hex <$> MessageId.as_bytes i).

Definition is_reply (request : MessageId) (e : Envelope) : bool :=
  match kind e with
  | Publish _ _ _ _ _ (Some i) => bool_decide (i = request)
  | _ => false
  end.

(** The last loop of [request]: [remaining] until the deadline; each delay is
    how long the next message takes, none when no more comes. *)
Fixpoint await_reply (request : MessageId) (secs remaining : Z) (delays : list Z) : Cmd Envelope :=
  if (remaining <=? 0)%Z then fails (TimedOut secs)
  else match delays with
  | [] => fails (TimedOut secs)
  | d :: delays' =>
      if (remaining <? d)%Z then fails (TimedOut secs)
      else
        let! envelope := recv in
        if is_reply request envelope then done_ok envelope
        else await_reply request secs (remaining - d) delays'
  end.

(** [None] is the panic of the [expect]. The timeout is in nanoseconds. *)
Definition request (sender : PeerId) (topic : Topic) (payload : bytes) (content_type : option rstr) (secs : Z)
    (delays : list Z) (s : Session) : option (Result Envelope ClientError * Session) :=
  let s1 := MkSession (wire s) (S (next_id s)) (stdout s) (stderr s) in
  match Topic.from_str (reply_topic (MessageId.new (next_id s))) with
  | Err _ => None
  | Ok reply_to =>
      Some ((let! _ := subscribe_all sender [Filter.from_topic reply_to] false None false in
             let! request := new_envelope sender (Publish topic payload false content_type (Some reply_to) None) in
             let! _ := send request in
             await_reply (id request) secs (secs * 10 ^ 9) delays) s1)
  end.

(** [request_status] and [request_topics]: the first reply that answers. *)
Fixpoint recv_until {A} (fuel : nat) (answer : MessageKind → option A) (s : Session) : option (Result A ClientError * Session) :=
  match fuel with
  | O => None
  | S fuel' =>
      match recv s with
      | (Err e, s') => Some (Err e, s')
      | (Ok received, s') =>
          match answer (kind received) with
          | Some a => Some (Ok a, s')
          | None => recv_until fuel' answer s'
          end
      end
  end.
Definition recv_answer {A} (answer : MessageKind → option A) : Cmd A := λ s,
  unwrap_or (Err (Other []), s) (recv_until (S (length (wire s).2)) answer s).

Definition request_status (sender : PeerId) : Cmd (PeerId * option rstr * list PeerSummary * MetricsSummary) :=
  let! envelope := new_envelope sender StatusRequest in
  let! _ := send envelope in
  recv_answer (λ k,
    match k with
    | StatusReply in_reply_to node_id listen_addr peers metrics =>
        if decide (in_reply_to = id envelope) then Some (node_id, listen_addr, peers, metrics) else None
    | _ => None
    end).

Definition request_topics (sender : PeerId) : Cmd (list TopicSummary) :=
  let! envelope := new_envelope sender TopicsRequest in
  let! _ := send envelope in
  recv_answer (λ k,
    match k with
    | TopicsReply in_reply_to topics => if decide (in_reply_to = id envelope) then Some topics else None
    | _ => None
    end).
End client.

(** ** Reading and writing envelopes *)

Section lemmas.
Context `{Uuids} {CborError : Type} (into_writer : Envelope → Result bytes CborError)
  (from_reader : bytes → Result Envelope CborError).
Context (cbor_message : CborError → rstr) (framing_message : FramingError io_error → rstr).
Context (codec : codec_roundtrip into_writer from_reader).

#[local] Abbreviation send := (send into_writer cbor_message framing_message duplex_write_all).
#[local] Abbreviation recv := (recv from_reader cbor_message framing_message).
#[local] Abbreviation drain := (drain from_reader cbor_message framing_message).

#[local] Abbreviation encoded := (encoded into_writer).

Lemma send_ok e b s :
  encoded e b →
  send e s = (Ok (), MkSession ((wire s).1 ++ frame b, (wire s).2) (next_id s) (stdout s) (stderr s)).
Proof.
  intros [Hb Hl]. unfold send, Envelope.to_bytes. rewrite Hb. cbn [and_then]. unfold on_wire.
  destruct (wire s) as [out inp]. by rewrite duplex_write_frame.
Qed.

Lemma recv_ok e b out rest s :
  encoded e b → wire s = (out, frame b ++ rest) →
  recv s = (Ok e, MkSession (out, rest) (next_id s) (stdout s) (stderr s)).
Proof.
  intros [Hb Hl] Hw. unfold recv, on_wire. rewrite Hw, duplex_read_frame by done.
  unfold Envelope.from_bytes. by rewrite (codec e b).
Qed.

Lemma recv_consumes s e s' : recv s = (Ok e, s') → length (wire s').2 < length (wire s).2.
Proof.
  unfold recv, on_wire. destruct (wire s) as [out inp]. unfold AsyncFraming.read_frame, mbind, ST_bind, duplex_read_exact.
  unfold slice_read_exact at 1. cbn [snd fst]. destruct (Nat.ltb_spec (length inp) 4); [done|]. cbn [fst snd].
  destruct (_ >? _)%Z; [done|]. unfold slice_read_exact. destruct (_ <? _); [done|]. cbn.
  unfold Envelope.from_bytes. match goal with |- context [from_reader ?b] => destruct (from_reader b); [|done] end. intros [= _ <-]. cbn. rewrite !length_drop. lia.
Qed.

(** The loops end. *)
Lemma drain_total fuel pending backlog s : length (wire s).2 < fuel → is_Some (drain fuel pending backlog s).
Proof.
  revert pending backlog s; induction fuel as [|fuel IH]; intros pending backlog s Hf; [lia|]. cbn [Client.drain].
  destruct (decide (pending = ∅)); [by eexists|]. destruct (recv s) as [[e|e] s'] eqn:Hr; [|by eexists].
  apply recv_consumes in Hr. assert (∀ p b, is_Some (drain fuel p b s')) as Hgo by (intros; apply IH; lia).
  destruct (kind e) as [| | | |[]| | | | | |]; try apply Hgo; destruct (decide _); by try apply Hgo; try eexists.
Qed.

Lemma drain_all_eq pending s :
  drain (S (length (wire s).2)) pending [] s = Some (drain_all from_reader cbor_message framing_message pending s).
Proof.
  unfold drain_all. destruct (drain_total (S (length (wire s).2)) pending [] s) as [r Hr]; [lia|]. by rewrite Hr.
Qed.

Lemma recv_until_total {A} (answer : MessageKind → option A) fuel s :
  length (wire s).2 < fuel → is_Some (recv_until from_reader cbor_message framing_message fuel answer s).
Proof.
  revert s; induction fuel as [|fuel IH]; intros s Hf; [lia|]. cbn [recv_until].
  destruct (recv s) as [[e|e] s'] eqn:Hr; [|by eexists]. apply recv_consumes in Hr.
  destruct (answer (kind e)); [by eexists|]. apply IH. lia.
Qed.

(** ** The subscription handshake *)

Definition is_publish (e : Envelope) : bool := match kind e with Publish _ _ _ _ _ _ => true | _ => false end.
Definition payload_of (e : Envelope) : bytes := match kind e with Publish _ payload _ _ _ _ => payload | _ => [] end.
Definition pubs (l : list Envelope) : list Envelope := List.filter is_publish l.

(** These messages answer these requests: each is acknowledged, none refused,
    and the last acknowledgement is the last message. *)
Definition settles (ids : gset MessageId) (l : list Envelope) : Prop :=
  (∀ i, i ∈ ids → ∃ m, m ∈ l ∧ kind m = Ack i)
  ∧ (∀ m i t, m ∈ l → kind m = Error (Some i) t → i ∉ ids)
  ∧ (∀ p q, l = p ++ q → q ≠ [] → ∃ i, i ∈ ids ∧ ∀ m, m ∈ p → kind m ≠ Ack i).

Lemma settles_cons ids m l :
  settles ids (m :: l) → ids ≠ ∅ ∧ settles (match kind m with Ack i => ids ∖ {[i]} | _ => ids end) l.
Proof.
  intros (Hack & Herr & Hlast). split.
  { intros ->. destruct (Hlast [] (m :: l) eq_refl) as (i & ? & _); [done|]. set_solver. }
  split; [|split].
  - intros i Hi. destruct (Hack i) as (x & Hx & Hk); [destruct (kind m); set_solver|].
    apply elem_of_cons in Hx as [->|Hx]; [|by exists x]. rewrite Hk in Hi. set_solver.
  - intros x i t Hx Hk. assert (i ∉ ids) by (apply (Herr x i t); [by right|done]). destruct (kind m); set_solver.
  - intros p q -> Hq. destruct (Hlast (m :: p) q eq_refl Hq) as (i & Hi & Hno). exists i. split.
    + assert (kind m ≠ Ack i) by (apply Hno; left). destruct (kind m); try done. set_solver.
    + intros x Hx. apply Hno. by right.
Qed.

Lemma settles_nil ids : settles ids [] → ids = ∅.
Proof.
  intros (Hack & _). apply set_eq. intros i. split; [|done]. intros Hi. by destruct (Hack i Hi) as (m & ?%not_elem_of_nil & _).
Qed.

(** The loop reads them and no more, keeping what was published meanwhile. *)
Lemma drain_settled l bs : Forall2 encoded l bs →
  ∀ fuel pending backlog s out rest,
  settles pending l → wire s = (out, framed bs ++ rest) → length l < fuel →
  drain fuel pending backlog s
  = Some (Ok (backlog ++ pubs l), MkSession (out, rest) (next_id s) (stdout s) (stderr s)).
Proof.
  induction 1 as [|m b l bs Hb _ IH]; intros [|fuel] pending backlog s out rest Hs Hw Hf; try (cbn in Hf; lia).
  - apply settles_nil in Hs as ->. cbn [Client.drain pubs List.filter]. rewrite decide_True by done.
    rewrite app_nil_r. cbn in Hw. destruct s. cbn in *. by subst.
  - pose proof Hs as (_ & Herr & _). apply settles_cons in Hs as [Hne Hs]. cbn [Client.drain]. rewrite decide_False by done.
    rewrite framed_cons, <-app_assoc in Hw. rewrite (recv_ok m b out _ s Hb Hw).
    assert (∀ p bl, settles p l → drain fuel p bl (MkSession (out, framed bs ++ rest) (next_id s) (stdout s) (stderr s))
      = Some (Ok (bl ++ pubs l), MkSession (out, rest) (next_id s) (stdout s) (stderr s))) as Hgo.
    { intros p bl Hp. apply (IH fuel p bl (MkSession _ _ _ _) out rest Hp); [done|cbn in Hf; lia]. }
    cbn [pubs List.filter]. unfold is_publish at 1. destruct (kind m) as [| | | |[i|] t| | | | | |] eqn:Hk; try by apply Hgo.
    + rewrite (Hgo _ _ Hs), <-app_assoc. done.
    + destruct (decide _) as [Hin|Hni]; [by apply Hgo|]. apply Hgo. by rewrite difference_disjoint_L in Hs by set_solver.
    + rewrite decide_False; [by apply Hgo|]. apply (Herr m i t); [left|done].
Qed.

Fixpoint subscribe_envelopes (n : nat) (sender : PeerId) (filters : list TopicFilter) (ack : bool) (group : option rstr)
    (durable : bool) : list Envelope :=
  match filters with
  | [] => []
  | f :: filters' =>
      Envelope.new n sender (Subscribe f ack group durable) :: subscribe_envelopes (S n) sender filters' ack group durable
  end.

Lemma send_subscribes_ok sender filters ack group durable bs s pending :
  Forall2 encoded (subscribe_envelopes (next_id s) sender filters ack group durable) bs →
  send_subscribes into_writer cbor_message framing_message duplex_write_all sender filters ack group durable pending s
  = (Ok (list_to_set (id <$> subscribe_envelopes (next_id s) sender filters ack group durable) ∪ pending),
     MkSession ((wire s).1 ++ framed bs, (wire s).2) (next_id s + length filters) (stdout s) (stderr s)).
Proof.
  revert bs s pending. induction filters as [|f filters IH]; intros bs s pending Hbs.
  - apply Forall2_nil_inv_l in Hbs as ->. cbn. rewrite (left_id_L ∅ (∪)), app_nil_r, Nat.add_0_r. by destruct s as [[] ? ? ?].
  - cbn [subscribe_envelopes] in *. apply Forall2_cons_inv_l in Hbs as (b & bs' & Hb & Hbs & ->).
    cbn [send_subscribes]. unfold cmd_bind at 1, new_envelope at 1. unfold cmd_bind at 1. rewrite (send_ok _ b) by done.
    rewrite IH with (bs := bs') by exact Hbs. cbn [wire next_id stdout stderr fst snd fmap list_fmap list_to_set].
    rewrite framed_cons, <-app_assoc, (assoc_L (∪)), (comm_L (∪) _ {[_]}). cbn [length]. by rewrite Nat.add_succ_r.
Qed.

Lemma subscribe_all_settled sender filters ack group durable l bs cs out rest s :
  Forall2 encoded (subscribe_envelopes (next_id s) sender filters ack group durable) cs →
  Forall2 encoded l bs → wire s = (out, framed bs ++ rest) →
  settles (list_to_set (id <$> subscribe_envelopes (next_id s) sender filters ack group durable)) l →
  subscribe_all into_writer from_reader cbor_message framing_message duplex_write_all sender filters ack group durable s
  = (Ok (pubs l), MkSession (out ++ framed cs, rest) (next_id s + length filters) (stdout s) (stderr s)).
Proof.
  intros Hcs Hbs Hw Hs. unfold subscribe_all, cmd_bind. rewrite (send_subscribes_ok _ _ _ _ _ cs) by done.
  rewrite (right_id_L ∅ (∪)), Hw. cbn [fst snd]. set (s1 := MkSession _ _ _ _).
  pose proof (drain_all_eq (list_to_set (id <$> subscribe_envelopes (next_id s) sender filters ack group durable)) s1) as Hd.
  rewrite (drain_settled l bs Hbs _ _ _ s1 (out ++ framed cs) rest Hs) in Hd; [by injection Hd as <-|done|].
  cbn [wire s1 snd]. rewrite length_app. apply Forall2_length in Hbs. rewrite Hbs.
  pose proof (framed_length bs). lia.
Qed.

(** ** Printing *)

(** The acknowledgements of what was printed, in order. *)
Fixpoint ack_envelopes (n : nat) (sender : PeerId) (printed : list Envelope) : list Envelope :=
  match printed with
  | [] => []
  | e :: printed' => Envelope.new n sender (Ack (id e)) :: ack_envelopes (S n) sender printed'
  end.
Definition acks_of (ack : bool) (n : nat) (sender : PeerId) (l : list Envelope) : list Envelope :=
  if ack then ack_envelopes n sender (pubs l) else [].

Lemma acks_of_cons ack n sender e l :
  acks_of ack n sender (e :: l)
  = if is_publish e && ack then Envelope.new n sender (Ack (id e)) :: acks_of ack (S n) sender l else acks_of ack n sender l.
Proof. unfold acks_of, pubs. cbn. by destruct (is_publish e), ack. Qed.

#[local] Abbreviation print_and_maybe_ack := (print_and_maybe_ack into_writer cbor_message framing_message duplex_write_all).

Lemma print_one sender e ack cs rest s :
  Forall2 encoded (acks_of ack (next_id s) sender (e :: rest)) cs →
  ∃ c cs' err s', cs = c ++ cs' ∧ print_and_maybe_ack sender e Raw ack s = (Ok (), s')
    ∧ s' = MkSession ((wire s).1 ++ framed c, (wire s).2) (next_id s + length c) (stdout s ++ payload_of e) err
    ∧ Forall2 encoded (acks_of ack (next_id s') sender rest) cs'.
Proof.
  rewrite acks_of_cons. unfold Client.print_and_maybe_ack, print_if_publish, is_publish, payload_of.
  destruct (kind e) as [topic payload retain ct rt ir| | | | | | | | | |] eqn:Hk; cbn [andb];
    try (intros Hcs; eexists [], cs, (stderr s), s; split; [done|]; split; [by destruct ack|]; split; [|done];
         cbn; rewrite !app_nil_r, Nat.add_0_r; by destruct s as [[] ? ? ?]).
  destruct ack; intros Hcs.
  - apply Forall2_cons_inv_l in Hcs as (c & cs' & Hc & Hcs & ->). eexists [c], cs', _, _. split; [done|]. split.
    { cbn. unfold cmd_bind. cbn. rewrite (send_ok _ c) by done. reflexivity. }
    cbn. rewrite app_nil_r, Nat.add_1_r. split; [done|]. exact Hcs.
  - eexists [], cs, _, _. split; [done|]. split; [reflexivity|]. cbn.
    rewrite app_nil_r, Nat.add_0_r. split; [by destruct (wire s)|]. exact Hcs.
Qed.

Lemma print_backlog_ok sender ack l : ∀ cs tail s,
  Forall2 encoded (acks_of ack (next_id s) sender (l ++ tail)) cs →
  ∃ c cs' err s', cs = c ++ cs'
    ∧ print_backlog into_writer cbor_message framing_message duplex_write_all sender l Raw ack s = (Ok (), s')
    ∧ s' = MkSession ((wire s).1 ++ framed c, (wire s).2) (next_id s + length c) (stdout s ++ concat (payload_of <$> l)) err
    ∧ Forall2 encoded (acks_of ack (next_id s') sender tail) cs'.
Proof.
  induction l as [|e l IH]; intros cs tail s Hcs.
  - eexists [], cs, (stderr s), s. split; [done|]. split; [done|]. split; [|done].
    cbn. rewrite !app_nil_r, Nat.add_0_r. by destruct s as [[] ? ? ?].
  - cbn [app] in Hcs. apply print_one in Hcs as (c & cs1 & err & s1 & -> & Hp & -> & Hcs1).
    apply IH in Hcs1 as (c' & cs' & err' & s2 & -> & Hp' & -> & Hcs').
    eexists (c ++ c'), cs', err', _. split; [by rewrite app_assoc|]. split.
    { cbn [print_backlog]. unfold cmd_bind. rewrite Hp. exact Hp'. }
    cbn. rewrite framed_app, length_app, !app_assoc, Nat.add_assoc. split; [done|]. exact Hcs'.
Qed.

Lemma live_ok sender ack l bs : Forall2 encoded l bs → ∀ cs s out rest,
  Forall2 encoded (acks_of ack (next_id s) sender l) cs → wire s = (out, framed bs ++ rest) →
  ∃ err, live into_writer from_reader cbor_message framing_message duplex_write_all (length l) sender Raw ack s
    = (Ok (), MkSession (out ++ framed cs, rest) (next_id s + length cs) (stdout s ++ concat (payload_of <$> l)) err).
Proof.
  induction 1 as [|e b l bs Hb _ IH]; intros cs s out rest Hcs Hw.
  - exists (stderr s). unfold acks_of in Hcs. assert (cs = []) as -> by (destruct ack; by apply Forall2_nil_inv_l in Hcs).
    cbn in *. rewrite !app_nil_r, Nat.add_0_r. destruct s. cbn in *. by subst.
  - rewrite framed_cons, <-app_assoc in Hw. set (s0 := MkSession (out, framed bs ++ rest) (next_id s) (stdout s) (stderr s)).
    destruct (print_one sender e ack cs l s0 Hcs) as (c & cs1 & err & s1 & -> & Hp & -> & Hcs1).
    destruct (IH cs1 _ (out ++ framed c) rest Hcs1 eq_refl) as (err' & Hl). exists err'. cbn [length live].
    unfold cmd_bind at 1. rewrite (recv_ok e b out _ s Hb Hw). unfold cmd_bind at 1. fold s0. rewrite Hp, Hl. cbn.
    by rewrite framed_app, length_app, !app_assoc, Nat.add_assoc.
Qed.

Lemma payloads_pubs l : concat (payload_of <$> pubs l) = concat (payload_of <$> l).
Proof.
  induction l as [|e l IH]; [done|].
  change (pubs (e :: l)) with (if is_publish e then e :: pubs l else pubs l). cbn [fmap list_fmap concat].
  destruct (is_publish e) eqn:He; cbn [fmap list_fmap concat]; rewrite IH; [done|].
  unfold is_publish, payload_of in *. by destruct (kind e).
Qed.
Lemma pubs_idemp l : pubs (pubs l) = pubs l.
Proof. unfold pubs. induction l as [|e l IH]; [done|]. cbn. destruct (is_publish e) eqn:He; [|done]. cbn. by rewrite He, IH. Qed.

(** What [subscribe --output raw] writes. Once every filter is
    acknowledged and until the interrupt, standard output has exactly the
    payloads of the publishes that came in, in order and with nothing between
    them, those included that arrived while other filters were still waiting
    for their acknowledgement; with [--ack] each of them is acknowledged once,
    after it was printed, in that order; and nothing past the last message
    printed is consumed. *)
Theorem raw_output_is_the_payloads sender filters ack group durable m1 m2 bs1 bs2 subs acks out rest s :
  let requests := subscribe_envelopes (next_id s) sender filters ack group durable in
  Forall2 encoded requests subs →
  Forall2 encoded (acks_of ack (next_id s + length filters) sender (m1 ++ m2)) acks →
  Forall2 encoded m1 bs1 → Forall2 encoded m2 bs2 →
  wire s = (out, framed bs1 ++ framed bs2 ++ rest) →
  settles (list_to_set (id <$> requests)) m1 →
  ∃ n err, subscribe_and_print into_writer from_reader cbor_message framing_message duplex_write_all (length m2) sender filters Raw ack
      group durable s
    = (Ok (), MkSession (out ++ framed subs ++ framed acks, rest) n (stdout s ++ concat (payload_of <$> m1 ++ m2)) err).
Proof.
  intros requests Hsubs Hacks Hm1 Hm2 Hw Hs. unfold subscribe_and_print, cmd_bind at 1.
  rewrite (subscribe_all_settled sender filters ack group durable m1 bs1 subs out (framed bs2 ++ rest) s Hsubs Hm1 Hw Hs).
  unfold cmd_bind at 1. cbn [eprintln eprint wire next_id stdout stderr].
  unfold cmd_bind at 1. set (s1 := MkSession _ _ _ _).
  assert (Forall2 encoded (acks_of ack (next_id s1) sender (pubs m1 ++ m2)) acks) as Hacks1.
  { replace (acks_of ack (next_id s1) sender (pubs m1 ++ m2)) with (acks_of ack (next_id s + length filters) sender (m1 ++ m2));
      [done|]. unfold acks_of, pubs. rewrite !List.filter_app. fold (pubs m1) (pubs (pubs m1)). by rewrite pubs_idemp. }
  destruct (print_backlog_ok sender ack (pubs m1) acks m2 s1 Hacks1) as (c & cs & err & s2 & -> & Hp & -> & Hcs).
  rewrite Hp. destruct (live_ok sender ack m2 bs2 Hm2 cs _ (out ++ framed subs ++ framed c) rest Hcs) as (err' & Hl).
  { cbn. by rewrite !app_assoc. }
  eexists _, err'. rewrite Hl. cbn. rewrite framed_app, fmap_app, concat_app, payloads_pubs. by rewrite <-!app_assoc.
Qed.

(** ** Requests *)

Lemma hex_valid b : is_byte b → Forall (λ c, is_valid_topic_char c = true) (hex b).
Proof.
  intros Hb. unfold is_byte in Hb. assert (∀ d, (0 ≤ d < 16)%Z → is_valid_topic_char (hex_lower d) = true) as Hd.
  { intros d Hd. unfold hex_lower, is_valid_topic_char, is_ascii_alphanumeric, is_ascii_digit, is_ascii_upper, is_ascii_lower,
      in_range. destruct (Z.ltb_spec d 10); lia. }
  pose proof (Z.div_mod b 16 ltac:(lia)). pose proof (Z.mod_pos_bound b 16 ltac:(lia)).
  unfold hex. apply Forall_cons. split; [apply Hd; lia|]. apply Forall_singleton. apply Hd. lia.
Qed.

Lemma valid_str_len s : Forall (λ c, is_valid_topic_char c = true) s → str_len s = length s.
Proof.
  unfold str_len. induction 1 as [|c s Hc _ IH]; [done|]. cbn. rewrite IH. unfold utf8_len.
  unfold is_valid_topic_char, is_ascii_alphanumeric, is_ascii_digit, is_ascii_upper, is_ascii_lower, in_range in Hc.
  destruct (Z.ltb_spec c 0x80); lia.
Qed.

(** The [expect] on the reply topic never fires. *)
Lemma reply_topic_parses i : Topic.from_str (reply_topic i) = Ok (MkTopic (reply_topic i)).
Proof.
  assert (Forall (λ c, is_valid_topic_char c = true) (reply_topic i)) as Hv.
  { unfold reply_topic, MessageId.as_bytes. apply Forall_app. split; [by repeat constructor|].
    pose proof (be_split_bytes 16 (MessageId.uuid i)) as Hb. induction Hb as [|b bs Hb _ IH]; [done|].
    cbn [fmap list_fmap concat]. apply Forall_app. split; [by apply hex_valid|done]. }
  apply topic_from_str_ok. split; [done|]. apply topic_validate_ok. split; [done|]. split; [|by apply Forall_forall].
  rewrite valid_str_len by done. cbn [Topic.as_str]. unfold reply_topic. rewrite length_app.
  assert (∀ l, length (concat (hex <$> l)) = 2 * length l) as ->.
  { clear. induction l as [|b l IH]; [done|]. cbn [fmap list_fmap concat length]. rewrite length_app, IH. cbn. lia. }
  rewrite as_bytes_length. apply Nat.leb_le. by vm_compute.
Qed.

(** A publish that names the request. *)
Definition answers (request : MessageId) (e : Envelope) : Prop :=
  ∃ topic payload retain content_type reply_to,
    kind e = Publish topic payload retain content_type reply_to (Some request).

Lemma is_reply_spec request e : is_reply request e = true ↔ answers request e.
Proof.
  unfold is_reply, answers. destruct (kind e) as [t p r c rt [i|]| | | | | | | | | |]; try (split; [done|naive_solver]).
  rewrite bool_decide_eq_true. split; [intros ->; eauto 6|naive_solver].
Qed.

(** What [await_reply] does with the messages before the reply. *)
Lemma await_reply_spec req secs p bs : Forall2 encoded p bs → ∀ reply b dp d remaining s out rest delays,
  Forall (λ e, is_reply req e = false) p → length dp = length p → is_reply req reply = true → encoded reply b →
  (0 ≤ d)%Z → Forall (λ x, 0 ≤ x)%Z dp →
  wire s = (out, framed bs ++ frame b ++ rest) →
  let arrival := (foldr Z.add 0 dp + d)%Z in
  let answer := await_reply from_reader cbor_message framing_message req secs remaining (dp ++ d :: delays) s in
  ((arrival ≤ remaining)%Z → (foldr Z.add 0 dp < remaining)%Z →
     answer = (Ok reply, MkSession (out, rest) (next_id s) (stdout s) (stderr s)))
  ∧ ((remaining < arrival)%Z ∨ (remaining ≤ foldr Z.add 0 dp)%Z → answer.1 = Err (TimedOut secs))
  ∧ (wire answer.2).1 = out.
Proof.
  induction 1 as [|e b' p bs Hb' _ IH]; intros reply b dp d remaining s out rest delays Hp Hlen Hr Hb Hd Hdp Hw.
  - destruct dp; [|done]. cbn in *. destruct (Z.leb_spec remaining 0); [split; [lia|split; [done|cbn; by rewrite Hw]]|].
    destruct (Z.ltb_spec remaining d); [split; [lia|split; [done|cbn; by rewrite Hw]]|]. unfold cmd_bind.
    rewrite (recv_ok reply b out rest s Hb Hw), Hr. split; [done|]. split; [lia|done].
  - destruct dp as [|d0 dp]; [done|]. apply Forall_cons in Hp as [He Hp], Hdp as [Hd0 Hdp].
    assert (0 ≤ foldr Z.add 0 dp)%Z as Hsum by (clear -Hdp; induction Hdp; cbn; lia).
    cbn [app await_reply foldr]. destruct (Z.leb_spec remaining 0); [split; [lia|split; [done|cbn; by rewrite Hw]]|].
    destruct (Z.ltb_spec remaining d0); [split; [lia|split; [done|cbn; by rewrite Hw]]|]. unfold cmd_bind.
    rewrite framed_cons, <-app_assoc in Hw. rewrite (recv_ok e b' out _ s Hb' Hw), He.
    destruct (IH reply b dp d (remaining - d0)%Z
      (MkSession (out, framed bs ++ frame b ++ rest) (next_id s) (stdout s) (stderr s)) out rest delays Hp ltac:(by injection Hlen) Hr Hb Hd Hdp eq_refl) as (Hok & Hlate & Hout).
    split; [intros; by apply Hok; lia|]. split; [intros; apply Hlate; lia|exact Hout].
Qed.

(** A request subscribes to its own reply topic first and only
    publishes once that subscription is acknowledged, naming the topic, which
    always parses; the answer is then the first publish that names the request,
    whatever came before it, if it arrives within the timeout, and a timeout
    otherwise, however many other messages come. *)
Theorem request_gets_its_reply sender topic payload content_type secs m1 bs1 p bs2 reply b dp d delays sub pub out rest s :
  let reply_to := MkTopic (reply_topic (MessageId.new (next_id s))) in
  let subscribe := Envelope.new (S (next_id s)) sender (Subscribe (Filter.from_topic reply_to) false None false) in
  let publish := Envelope.new (S (S (next_id s))) sender (Publish topic payload false content_type (Some reply_to) None) in
  encoded subscribe sub → encoded publish pub → Forall2 encoded m1 bs1 → settles {[id subscribe]} m1 →
  Forall2 encoded p bs2 → Forall (λ e, ¬ answers (id publish) e) p → length dp = length p →
  encoded reply b → answers (id publish) reply → Forall (λ x, 0 ≤ x)%Z (dp ++ [d]) →
  wire s = (out, framed bs1 ++ framed bs2 ++ frame b ++ rest) →
  let arrival := (foldr Z.add 0 dp + d)%Z in
  ∃ answer s', request into_writer from_reader cbor_message framing_message duplex_write_all sender topic payload content_type secs
      (dp ++ d :: delays) s = Some (answer, s')
    ∧ (wire s').1 = out ++ frame sub ++ frame pub
    ∧ ((arrival ≤ secs * 10 ^ 9)%Z → (foldr Z.add 0 dp < secs * 10 ^ 9)%Z → answer = Ok reply ∧ (wire s').2 = rest)
    ∧ ((secs * 10 ^ 9 < arrival)%Z ∨ (secs * 10 ^ 9 ≤ foldr Z.add 0 dp)%Z → answer = Err (TimedOut secs)).
Proof.
  intros reply_to subscribe publish Hsub Hpub Hm1 Hs Hp Hno Hlen Hb Hr Hd Hw arrival.
  unfold request. rewrite reply_topic_parses. fold reply_to. set (s1 := MkSession _ _ _ _).
  unfold cmd_bind at 1.
  rewrite (subscribe_all_settled sender [Filter.from_topic reply_to] false None false m1 bs1 [sub] out
    (framed bs2 ++ frame b ++ rest) s1); [|by constructor|done|done|]; cycle 1.
  { cbn. by rewrite (right_id_L ∅ (∪)). }
  unfold cmd_bind at 1. cbn [new_envelope next_id s1 length wire stdout stderr]. rewrite Nat.add_1_r. fold publish.
  unfold cmd_bind at 1. rewrite (send_ok publish pub) by done. cbn [wire fst snd next_id stdout stderr].
  apply is_reply_spec in Hr.
  assert (Forall (λ e, is_reply (id publish) e = false) p) as Hnone.
  { eapply Forall_impl; [exact Hno|]. intros e He. destruct (is_reply (id publish) e) eqn:Hi; [|done]. by apply is_reply_spec in Hi. }
  set (s2 := MkSession _ _ _ _). apply Forall_app in Hd as [Hdp Hd]. apply Forall_cons in Hd as [Hd _].
  destruct (await_reply_spec (id publish) secs p bs2 Hp reply b dp d (secs * 10 ^ 9) s2 _ rest delays Hnone Hlen Hr Hb Hd Hdp
    eq_refl) as (H1 & H2 & H3).
  destruct (await_reply _ _ _ _ _ _ _ s2) as [answer s']. cbn in H2, H3. exists answer, s'. split; [done|].
  split; [rewrite H3; cbn; by rewrite app_nil_r, <-!app_assoc|]. split; [|exact H2].
  intros Ha Hl. pose proof (H1 Ha Hl) as [= -> ->]. done.
Qed.
End lemmas.

(** ** Witnesses *)

(** A check of [settles]. *)
Fixpoint acked_by (ids : gset MessageId) (l : list Envelope) : bool :=
  match l with
  | [] => bool_decide (ids = ∅)
  | m :: l' => negb (bool_decide (ids = ∅)) && acked_by (match kind m with Ack i => ids ∖ {[i]} | _ => ids end) l'
  end.
Definition refuses (ids : gset MessageId) (m : Envelope) : bool :=
  match kind m with Error (Some i) _ => bool_decide (i ∈ ids) | _ => false end.

Lemma acked_by_sound ids l :
  acked_by ids l = true →
  (∀ i, i ∈ ids → ∃ m, m ∈ l ∧ kind m = Ack i)
  ∧ (∀ p q, l = p ++ q → q ≠ [] → ∃ i, i ∈ ids ∧ ∀ m, m ∈ p → kind m ≠ Ack i).
Proof.
  revert ids; induction l as [|m l IH]; intros ids; cbn [acked_by].
  { rewrite bool_decide_eq_true. intros ->. split; [set_solver|]. by intros [] []. }
  rewrite andb_true_iff, negb_true_iff, bool_decide_eq_false. intros [Hne [Hack Hlast]%IH]. split.
  - intros i Hi. destruct (decide (kind m = Ack i)) as [Hk|Hk]; [exists m; split; [left|done]|].
    destruct (Hack i) as (x & Hx & Hkx); [destruct (kind m); try done; set_solver|]. exists x. split; [by right|done].
  - intros [|x p] q Heq Hq.
    + apply set_choose_L in Hne as [i Hi]. exists i. split; [done|]. by intros m' ?%not_elem_of_nil.
    + injection Heq as <- ->. destruct (Hlast p q eq_refl Hq) as (i & Hi & Hno). exists i. split.
      * destruct (kind m); try done. set_solver.
      * intros y [->|Hy]%elem_of_cons; [|by apply Hno]. intros Hk. rewrite Hk in Hi. set_solver.
Qed.

Lemma settles_checked ids l : acked_by ids l && negb (existsb (refuses ids) l) = true → settles ids l.
Proof.
  rewrite andb_true_iff, negb_true_iff. intros [[Hack Hlast]%acked_by_sound Hno]. split; [done|]. split; [|done].
  intros m i t Hm Hk Hi. assert (existsb (refuses ids) l = true); [|congruence].
  apply existsb_exists. exists m. split; [by apply list_elem_of_In|]. unfold refuses. rewrite Hk. by apply bool_decide_eq_true.
Qed.

Module ClientSample.
#[local] Instance uuids : Uuids := Reference.ref_uuids.
Definition me := Sample.peer 7.
Definition filters : list TopicFilter := [Sample.filter (lit "a"); Sample.filter (lit "b.+")].
Definition requests := subscribe_envelopes 0 me filters true None false.
Definition news (n : Z) (payload : bytes) : Envelope := Sample.publish n (lit "a") payload false.
Definition from_node (n : Z) (k : MessageKind) : Envelope := MkEnvelope 1 (Sample.mid n) (Sample.peer 1) k.
(** The first filter is acknowledged and delivers before the second is. *)
Definition m1 := [from_node 100 (Ack (MessageId.new 0)); news 101 [200%Z]; from_node 102 (Ack (MessageId.new 1))].
Definition m2 := [news 103 [201%Z; 0%Z]; from_node 104 (Ack (Sample.mid 9))].
Definition acks := acks_of true 2 me (m1 ++ m2).
Definition all := requests ++ acks ++ m1 ++ m2.
Definition bytes_of (e : Envelope) : bytes := match Sample.encode all e with Ok b => b | Err _ => [] end.
Definition start : Session := MkSession ([], framed (bytes_of <$> m1) ++ framed (bytes_of <$> m2)) 0 [] [].
End ClientSample.

Lemma raw_output_is_the_payloads_witness :
  let B := ClientSample.uuids in
  ∃ s', subscribe_and_print (Sample.encode ClientSample.all) (Sample.decode ClientSample.all) (λ _, []) (λ _, []) duplex_write_all 2
      ClientSample.me ClientSample.filters Raw true None false ClientSample.start = (Ok (), s')
    ∧ stdout s' = [200; 201; 0]%Z.
Proof.
  intros B.
  assert (∀ l, forallb (λ e, is_ok (Sample.encode ClientSample.all e)
      && (Z.of_nat (length (ClientSample.bytes_of e)) <=? MAX_FRAME_LEN)%Z) l = true →
    Forall2 (encoded (Sample.encode ClientSample.all)) l (ClientSample.bytes_of <$> l)) as Henc.
  { intros l Hl. rewrite forallb_forall in Hl. apply Forall2_fmap_r, Forall_Forall2_diag, Forall_forall.
    intros e He%list_elem_of_In%Hl. apply andb_prop in He as [Hok Hlen]. split; [|by apply Z.leb_le].
    unfold ClientSample.bytes_of. by destruct (Sample.encode _ e). }
  destruct (raw_output_is_the_payloads (Sample.encode ClientSample.all) (Sample.decode ClientSample.all) (λ _, []) (λ _, [])
    (Sample.sample_codec _) ClientSample.me ClientSample.filters true None false ClientSample.m1 ClientSample.m2
    (ClientSample.bytes_of <$> ClientSample.m1) (ClientSample.bytes_of <$> ClientSample.m2)
    (ClientSample.bytes_of <$> ClientSample.requests) (ClientSample.bytes_of <$> ClientSample.acks) [] []
    ClientSample.start) as (n & err & Hrun).
  1-4: by apply Henc; vm_compute.
  - cbn [wire ClientSample.start]. by rewrite app_nil_r.
  - apply settles_checked. by vm_compute.
  - eexists. split; [exact Hrun|]. by vm_compute.
Defined.

Module RequestSample.
#[local] Instance uuids : Uuids := Reference.ref_uuids.
Definition me := Sample.peer 7.
Definition reply_to := MkTopic (reply_topic (MessageId.new 0)).
Definition subscribe := Envelope.new 1 me (Subscribe (Filter.from_topic reply_to) false None false).
Definition publish := Envelope.new 2 me (Publish (Sample.topic (lit "svc")) [1%Z] false None (Some reply_to) None).
Definition m1 := [MkEnvelope 1 (Sample.mid 50) (Sample.peer 1) (Ack (id subscribe))].
Definition other := Sample.publish 51 (lit "a") [2%Z] false.
Definition reply := MkEnvelope 1 (Sample.mid 52) (Sample.peer 2) (Publish reply_to [3%Z] false None None (Some (id publish))).
Definition all := subscribe :: publish :: m1 ++ [other; reply].
Definition bytes_of (e : Envelope) : bytes := match Sample.encode all e with Ok b => b | Err _ => [] end.
Definition start : Session :=
  MkSession ([], framed (bytes_of <$> m1) ++ framed (bytes_of <$> [other]) ++ frame (bytes_of reply) ++ []) 0 [] [].
End RequestSample.

(** An unrelated publish after a second, the reply half a second later, within
    two seconds. *)
Lemma request_gets_its_reply_witness :
  let B := RequestSample.uuids in
  ∃ s', request (Sample.encode RequestSample.all) (Sample.decode RequestSample.all) (λ _, []) (λ _, [])
      duplex_write_all RequestSample.me (Sample.topic (lit "svc")) [1%Z] None 2 [10 ^ 9; 5 * 10 ^ 8]%Z RequestSample.start
    = Some (Ok RequestSample.reply, s').
Proof.
  intros B.
  assert (∀ e, is_ok (Sample.encode RequestSample.all e)
      && (Z.of_nat (length (RequestSample.bytes_of e)) <=? MAX_FRAME_LEN)%Z = true →
    encoded (Sample.encode RequestSample.all) e (RequestSample.bytes_of e)) as Henc.
  { intros e [Hok Hlen]%andb_prop. split; [|by apply Z.leb_le]. unfold RequestSample.bytes_of. by destruct (Sample.encode _ e). }
  destruct (request_gets_its_reply (Sample.encode RequestSample.all) (Sample.decode RequestSample.all) (λ _, []) (λ _, [])
    (Sample.sample_codec _) RequestSample.me (Sample.topic (lit "svc")) [1%Z] None 2
    RequestSample.m1 (RequestSample.bytes_of <$> RequestSample.m1) [RequestSample.other]
    (RequestSample.bytes_of <$> [RequestSample.other]) RequestSample.reply (RequestSample.bytes_of RequestSample.reply)
    [10 ^ 9]%Z (5 * 10 ^ 8)%Z [] (RequestSample.bytes_of RequestSample.subscribe) (RequestSample.bytes_of RequestSample.publish)
    [] [] RequestSample.start) as (answer & s' & Hrun & _ & Hok & _).
  1-2: by apply Henc; vm_compute.
  - apply Forall2_cons. split; [by apply Henc; vm_compute|constructor].
  - apply settles_checked. by vm_compute.
  - apply Forall2_cons. split; [by apply Henc; vm_compute|constructor].
  - apply Forall_singleton. intros (? & ? & ? & ? & ? & ?). done.
  - done.
  - by apply Henc; vm_compute.
  - by repeat eexists.
  - cbn. repeat constructor; lia.
  - done.
  - exists s'. destruct Hok as [-> _]; [done|done|exact Hrun].
Defined.
