(* ===== verification/EndToEnd.v ===== *)
(** * From a publish to a terminal

    The node's side of a connection ([Delivery]) and the client at its other end
    ([Client]) together: what [thoth subscribe --output raw] prints. *)

From S2P Require Import Prelude.
From S2P Require Import Text.
From S2P Require Import Filter.
From S2P Require Import Runtime.
From S2P Require Import Message.
From S2P Require Import Framing.
From S2P Require Import Writer.
From S2P Require Import Handshake.
From S2P Require Import MessageStore.
From S2P Require Import Broker.
From S2P Require Import BrokerSpec.
From S2P Require Import Metrics.
From S2P Require Import DeadLetter.
From S2P Require Import Forwarder.
From S2P Require Import Delivery.
From S2P Require Import Client.

#[local] Open Scope nat_scope.

Section end_to_end.
Context `{Broadcast Envelope} `{MpscReceiver Envelope} `{MessageStore} `{Uuids}.
Context `{!BroadcastLaws Envelope} `{!MpscLaws Envelope} `{!MpscReceiverLaws Envelope}.
Context {CborError : Type} (into_writer : Envelope → Result bytes CborError) (from_reader : bytes → Result Envelope CborError).
Context (cbor_message : CborError → rstr) (framing_message : FramingError io_error → rstr).
Context (codec : codec_roundtrip into_writer from_reader).
#[local] Abbreviation encoded := (encoded into_writer).

(** Nothing is published to the connection but by its forwarder. *)
Definition only_subscription (l : Line) : Prop := ∀ e, (false, e) ∈ l_accepted l → is_publish e = false.

Lemma payloads_forwarded a :
  (∀ e, (false, e) ∈ a → is_publish e = false) → concat (payload_of <$> a.*2) = concat (payload_of <$> forwarded a).
Proof.
  intros Ha. induction a as [|[b e] a IH]; [done|].
  assert (concat (payload_of <$> a.*2) = concat (payload_of <$> forwarded a)) as Heq
    by (apply IH; intros x Hx; apply Ha; by right). destruct b; cbn.
  - f_equal. exact Heq.
  - assert (is_publish e = false) as He by (apply Ha; left). unfold is_publish in He.
    assert (payload_of e = []) as -> by (unfold payload_of; by destruct (kind e)). exact Heq.
Qed.

(** C1: from a publish to a terminal, for a subscription that does not wait for
    acknowledgements, whose filter has room in its map, and that is the only one
    that publishes to its connection. When its forwarder and the connection's
    writer have nothing left to do, and a client at the other end, whose own
    writes succeed, subscribed and reads until the last message, its standard
    output has gained exactly the payloads of what the subscription is owed, in
    order and with nothing between them, whatever acknowledgements and other
    replies came in between. It is owed the backlog and every new publish that
    its filter matched since, each once; only a lag of the forwarder, which falls
    behind by more than its channel holds, takes from that what it had not sent by
    then and the backlog it subscribes to again does not hold (ADR-0024). *)
Theorem terminal_shows_the_stream (t t1 : Task) (h h1 : Hub) (l : Line) sender filters ack group durable m1 m2 subs acks out s :
  BrokerSpec.wf (h_broker h) → Filter.wf (task_filter t) → sub_room (h_broker h) (task_filter t) → once t = true →
  start_task t h = Continues t1 h1 → rtc (line_step into_writer (task_out t)) (line_start (task_out t) t1 h1) l →
  settled (task_out t) l → only_subscription l →
  let requests := subscribe_envelopes (next_id s) sender filters ack group durable in
  (l_accepted l).*2 = m1 ++ m2 → settles (list_to_set (id <$> requests)) m1 →
  Forall2 encoded requests subs → Forall2 encoded (acks_of ack (next_id s + length filters) sender (m1 ++ m2)) acks →
  wire s = (out, l_wire l) →
  ∃ n err, subscribe_and_print into_writer from_reader cbor_message framing_message duplex_write_all (length m2) sender filters Raw ack
      group durable s
    = (Ok (), MkSession (out ++ framed subs ++ framed acks, []) n (stdout s ++ concat (payload_of <$> l_due l)) err).
Proof.
  intros Hwf Hf Hroom Ho Hs Hl Hset Honly requests Hm Hsettles Hsubs Hacks Hw.
  assert (line_ok into_writer (task_filter t) (task_out t) l) as Hok.
  { eapply line_steps_ok; [exact Hf|exact Hl|]. by eapply line_start_ok. }
  destruct (line_frames into_writer _ _ l Hok) as (received & rest & bs & Ha & Hbs & Hwire & _ & Hall).
  destruct (Hall Hset) as [-> Hdue]. rewrite app_nil_r in Ha. subst received. rewrite Hm in Hbs.
  apply Forall2_app_inv_l in Hbs as (bs1 & bs2 & Hbs1 & Hbs2 & ->).
  destruct (raw_output_is_the_payloads into_writer from_reader cbor_message framing_message codec sender filters ack group durable
    m1 m2 bs1 bs2 subs acks out [] s Hsubs Hacks Hbs1 Hbs2) as (n & err & Hrun); [|done|].
  { by rewrite Hw, Hwire, framed_app, app_nil_r. }
  exists n, err. rewrite Hrun, <-Hm, (payloads_forwarded _ Honly), Hdue. done.
Qed.
End end_to_end.

(** A client subscribes to [a]; the node acknowledges and a message is
    published. *)
Module EndSample.
Import SampleLine.
Definition me := Sample.peer 7.
Definition filters : list TopicFilter := [Sample.filter (lit "a")].
Definition requests := subscribe_envelopes 0 me filters false None false.
Definition reply : Envelope := MkEnvelope 1 (Sample.mid 100) (Sample.peer 9) (Ack (MessageId.new 0)).
Definition all := requests ++ [reply; e].
Definition encode := Sample.encode all.

Definition replied : Hub :=
  MkHub (h_broker started.2) (try_send 0 reply (h_chans started.2)).2 (h_ids started.2) (h_metrics started.2).
Definition wire1 : bytes := (turn encode replied []).2.2.
Definition published : Hub :=
  let h := turned encode replied [] in
  let x := exec op (h_broker h, h_chans h) in MkHub x.1 x.2 (h_ids h) (h_metrics h).
Definition read := next (started.1, published).
Definition sent := next read.
Definition line : Line :=
  MkLine (turned encode sent.2 wire1) (Some sent.1) (turn encode sent.2 wire1).2.2 false
    (([(false, reply)] ++ sends started.1) ++ sends read.1) [e].

Lemma line_reached : rtc (line_step encode 0) (line_start 0 started.1 started.2) line.
Proof.
  eapply rtc_l; [apply (LineSend encode 0 0 reply true started.2 replied (Some started.1) [] false [] []); reflexivity|].
  eapply rtc_l; [apply (writes encode replied (Some started.1) []); by vm_compute|].
  eapply rtc_l.
  { apply (LineOp encode 0 op (turned encode replied []) published [] (Some started.1) wire1 false [(false, reply)] []);
      [by intros x r _ _|reflexivity..]. }
  eapply rtc_l; [apply (forwards encode (started.1, published)); by vm_compute|].
  eapply rtc_l; [apply (forwards encode read); by vm_compute|]. apply rtc_once, writes. by vm_compute.
Qed.

Definition session : Session := MkSession ([], l_wire line) 0 [] [].
End EndSample.
Import SampleLine.

Lemma terminal_shows_the_stream_witness :
  ∃ s', subscribe_and_print EndSample.encode (Sample.decode EndSample.all) (λ _, []) (λ _, []) duplex_write_all 1
      EndSample.me EndSample.filters Raw false None false EndSample.session = (Ok (), s')
    ∧ stdout s' = [7%Z].
Proof.
  destruct SampleLine.laws as (Hwf & Hf & Hroom).
  destruct (terminal_shows_the_stream EndSample.encode (Sample.decode EndSample.all) (λ _, []) (λ _, [])
    (Sample.sample_codec EndSample.all) SampleLine.forwarder SampleLine.started.1 SampleLine.hub SampleLine.started.2 EndSample.line
    EndSample.me EndSample.filters false None false [EndSample.reply] [SampleLine.e] [[0%Z]] [] [] EndSample.session)
    as (n & err & Hrun); [done..| | | | | | | | |].
  - exact EndSample.line_reached.
  - split; [done|]. split; [vm_compute; reflexivity|]. eexists _, _. split; [reflexivity|].
    split; [vm_compute; reflexivity|]. split; vm_compute; reflexivity.
  - intros x. cbn. intros [[= ->]|[[=]|[]%elem_of_nil]%elem_of_cons]%elem_of_cons. reflexivity.
  - reflexivity.
  - apply settles_checked. vm_compute. reflexivity.
  - constructor; [|constructor]. split; [vm_compute; reflexivity|vm_compute; discriminate].
  - constructor.
  - reflexivity.
  - eexists. split; [exact Hrun|]. vm_compute. reflexivity.
Defined.
