(* ===== verification/ClientOptions.v ===== *)
(** * What the client connects with ([run], [ConnectionOptions] and
      [build_connector] of [thoth-mesh-cli/src/lib.rs], [config.rs])

    Up to the connection: the command is checked, the config file is read and
    merged under the flags, the TLS material is loaded. The TOML parser is a
    parameter. *)

From S2P Require Import Prelude.
From S2P Require Import Text.
From S2P Require Import Topic.
From S2P Require Import Filter.
From S2P Require Import Runtime.
From S2P Require Import Fingerprint.
From S2P Require Import NodeConfig.
From S2P Require Import Tls.
From S2P Require Import Message.
From S2P Require Import Client.

(** [config.rs]: what a file may give. *)
Module Config.
Record Config := MkConfig { addr : option rstr; tls_ca : option rstr; tls_cert : option rstr; tls_key : option rstr }.
Definition default : Config := MkConfig None None None None.
End Config.

(** [completions] never gets here. *)
Inductive Command : Type :=
| CmdPublish (topic payload : rstr) (retain : bool) (content_type : option rstr)
| CmdRequest (topic payload : rstr) (content_type : option rstr) (output : OutputMode) (timeout_secs : Z)
| CmdSubscribe (filters : list rstr) (output : OutputMode) (ack : bool) (group : option rstr) (durable : bool)
| CmdStatus
| CmdTopics.

Module Cli.
Record Cli := MkCli {
  addr : option rstr;
  config : option rstr;
  tls_ca : option rstr;
  tls_cert : option rstr;
  tls_key : option rstr;
  command : Command;
}.
End Cli.

Record ConnectionOptions := MkConnectionOptions {
  addr : rstr;
  tls_ca : option rstr;
  tls_cert : option rstr;
  tls_key : option rstr;
}.

Definition merge (cli : Cli.Cli) (config : Config.Config) : Result ConnectionOptions ClientError :=
  let tls_cert := or (Cli.tls_cert cli) (Config.tls_cert config) in
  let tls_key := or (Cli.tls_key cli) (Config.tls_key config) in
  if negb (eqb (is_some tls_cert) (is_some tls_key)) then Err TlsHalf
  else Ok {|
    addr := unwrap_or DEFAULT_ADDR (or (Cli.addr cli) (Config.addr config));
    tls_ca := or (Cli.tls_ca cli) (Config.tls_ca config);
    tls_cert := tls_cert;
    tls_key := tls_key;
  |}.

Fixpoint parse_filters (filters : list rstr) : Result (list TopicFilter) ClientError :=
  match filters with
  | [] => Ok []
  | f :: filters' => let? f := parse_filter f in let? fs := parse_filters filters' in Ok (f :: fs)
  end.

(** The check of the command before anything is dialed. *)
Definition check_command (c : Command) : Result () ClientError :=
  match c with
  | CmdPublish topic _ _ _ | CmdRequest topic _ _ _ _ => let? _ := parse_topic topic in Ok ()
  | CmdSubscribe filters _ _ _ _ => let? _ := parse_filters filters in Ok ()
  | CmdStatus | CmdTopics => Ok ()
  end.

Section options.
Context (from_toml : rstr → Result Config.Config rstr) (default_path : option rstr).

Definition load (fs : Fs) (explicit : option rstr) : Result Config.Config ClientError :=
  match or explicit default_path with
  | None => Ok Config.default
  | Some path =>
      match read_to_string fs path with
      | Contents contents =>
          map_err (λ err, Other (lit "parsing config file " ++ path ++ lit ": " ++ err)) (from_toml contents)
      | NotFound _ => Ok Config.default
      | Unreadable err => Err (Other err)
      end
  end.

(** [run] before it connects. *)
Definition prepare (fs : Fs) (cli : Cli.Cli) : Result ConnectionOptions ClientError :=
  let? _ := check_command (Cli.command cli) in
  let? config := load fs (Cli.config cli) in
  merge cli config.

Context `{RustlsOps} (sha256 : bytes → bytes).

Definition build_connector (opts : ConnectionOptions) : Result (option ClientConfig * option bytes) ClientError :=
  match tls_ca opts with
  | None => Ok (None, None)
  | Some ca_path =>
      let? ca := map_err TlsFailed (load_certs ca_path) in
      let? identity :=
        match tls_cert opts, tls_key opts with
        | Some cert_path, Some key_path =>
            let? certs := map_err TlsFailed (load_certs cert_path) in
            let? key := map_err TlsFailed (load_private_key key_path) in Ok (Some (certs, key))
        | _, _ => Ok None
        end in
      let own_fingerprint := match identity with Some (c :: _, _) => Some (fingerprint sha256 c) | _ => None end in
      let? config := map_err TlsFailed (client_config ca identity) in
      Ok (Some config, own_fingerprint)
  end.

(** [n] is the index of the identifier drawn without a certificate. *)
Definition sender_of `{Uuids} (n : nat) (own_fingerprint : option bytes) : PeerId :=
  match own_fingerprint with Some fp => PeerId.from_fingerprint fp | None => PeerId.new n end.

(** What is dialed was asked for correctly: every topic and filter of the
    command parses, and a certificate is never without its key. *)
Lemma prepare_ok fs cli opts :
  prepare fs cli = Ok opts →
  is_some (tls_cert opts) = is_some (tls_key opts)
  ∧ (∀ a, Cli.addr cli = Some a → addr opts = a)
  ∧ match Cli.command cli with
    | CmdPublish topic _ _ _ | CmdRequest topic _ _ _ _ => Topic.wf (MkTopic topic)
    | CmdSubscribe filters _ _ _ _ => ∀ f, f ∈ filters → is_ok (Filter.from_str f) = true
    | CmdStatus | CmdTopics => True
    end.
Proof.
  unfold prepare. intros (u & Hc & (config & _ & Hm)%and_then_ok)%and_then_ok. split; [|split].
  - unfold merge in Hm. destruct (negb _) eqn:Ht; [done|]. injection Hm as <-. cbn.
    by apply negb_false_iff, eqb_prop in Ht.
  - intros a Ha. unfold merge in Hm. destruct (negb _); [done|]. injection Hm as <-. cbn. by rewrite Ha.
  - destruct (Cli.command cli) as [topic| topic|filters| |]; try done; cbn in Hc.
    1,2: apply and_then_ok in Hc as (t & Ht & _); unfold parse_topic in Ht;
      destruct (Topic.from_str topic) as [t'|] eqn:Hp; [|done]; by apply topic_from_str_ok in Hp as [-> ?].
    apply and_then_ok in Hc as (l & Hl & _). revert l Hl. induction filters as [|f filters IH]; intros l Hl g.
    { by intros ?%not_elem_of_nil. }
    cbn in Hl. apply and_then_ok in Hl as (f' & Hf & (fs' & Hfs & _)%and_then_ok).
    intros [->|Hg]%elem_of_cons; [|by eapply IH]. unfold parse_filter in Hf. by destruct (Filter.from_str f).
Qed.
End options.
