(* ===== verification/Startup.v ===== *)
(** * Bringing a node up ([Shared::new_with_discovery] of
      [thoth-mesh-node/src/shared.rs], [run_with_tls],
      [serve_with_tls] and [spawn_with_tls] of [lib.rs])

    From the options to the state the accept loop starts with, for the three
    entry points: [run_with_tls] binds its own listeners, [serve_with_tls] is
    given one, [spawn_with_tls] does not wait for the store to be read back.
    [n] is the index of the identifier drawn first, [chans] the channels of
    the process and [now] the monotonic clock. *)

From S2P Require Import Prelude.
From S2P Require Import Text.
From S2P Require Import Peering.
From S2P Require Import Topic.
From S2P Require Import Filter.
From S2P Require Import Runtime.
From S2P Require Import Fingerprint.
From S2P Require Import NodeConfig.
From S2P Require Import Tls.
From S2P Require Import MetricsServer.
From S2P Require Import Message.
From S2P Require Import Persistence.
From S2P Require Import Interest.
From S2P Require Import PeerDirectory.
From S2P Require Import Membership.
From S2P Require Import SeenIds.
From S2P Require Import TopicChannel.
From S2P Require Import TopicMap.
From S2P Require Import MessageStore.
From S2P Require Import Metrics.
From S2P Require Import Broker.
From S2P Require Import BrokerSpec.
From S2P Require Import RateLimit.
From S2P Require Import Redelivery.
From S2P Require Import DeadLetter.
From S2P Require Import PeerLinks.
From S2P Require Import Async.
From S2P Require Import Access.
From S2P Require Import World.
From S2P Require Import Restart.

#[local] Open Scope nat_scope.

Section startup.
Context `{Broadcast Envelope} `{Mpsc Envelope} `{MessageStore} `{Uuids}.

Definition new_with_discovery (i : PeerId) (my_listen_addr : option rstr) (chans : mpsc_store Envelope) (drawn : nat) (now : Z) : World :=
  MkWorld (MkHub Broker.new chans drawn Metrics.new) Membership.new Interest.new PeerLinks.new new_registry PeerDirectory.new []
    (MkReloadableAcls None None None None) None [] [] [] [] now (MkNode i my_listen_addr None).

Definition set_broker (b : Broker) (w : World) : World :=
  set_hub (MkHub b (h_chans (w_hub w)) (h_ids (w_hub w)) (h_metrics (w_hub w))) w.
Definition set_node (x : Node) (w : World) : World :=
  MkWorld (w_hub w) (w_membership w) (w_interest w) (w_peer_links w) (w_registry w) (w_discover w)
    (w_discovered w) (w_acls w) (w_rate_limiter w) (w_forwarders w) (w_is_peer w) (w_notified w) (w_tasks w)
    (w_clock w) x.

Context `{!RustlsOps}.
Context (open : rstr → Result store_state io_error) (sha256 : bytes → bytes).

(** What a node that has come up is: its state, whether it says it is ready,
    the two sides of TLS, the tasks it spawned and its dials. *)
Inductive BackgroundTask : Type :=
| TtlSweeper (ttl : Z) (config : DeadLetterConfig)
| WorkQueueSweeper (config : DeadLetterConfig)
| DiscoveryDialer
| ReloadApplier (updates : list ReloadableAcls)
| Rehydration
| MetricsEndpoint {TcpListener : Type} (listener : TcpListener) (token : option rstr).

Record Up := MkUp {
  up_world : World;
  up_ready : Readiness.Readiness;
  up_tls : option (ServerConfig * ClientConfig);
  up_background : list BackgroundTask;
  up_dials : Dialer;
}.

(** The node's identity and its allowlist, with TLS. *)
Definition apply_tls (tls : option TlsConfig) (w : World) : Result (World * option (ServerConfig * ClientConfig)) io_error :=
  match tls with
  | None => Ok (w, None)
  | Some tls =>
      let? built := build sha256 tls in
      let '(acceptor, connector, own_fingerprint) := built in
      let node := w_node w in
      let acls := w_acls w in
      Ok (set_node (MkNode (PeerId.from_fingerprint own_fingerprint) (my_listen_addr node) (dead_letter_topic node))
            (set_acls (MkReloadableAcls (topic_acl acls) (peer_topic_acl acls) (allowed_peers tls) (peer_topic_filter acls)) w),
          Some (acceptor, connector))
  end.

Definition apply_options (options : NodeOptions) (w : World) : World :=
  let acls := MkReloadableAcls (o_topic_acl options) (o_peer_topic_acl options) (allow_peer (w_acls w)) (o_peer_topic_filter options) in
  let node := MkNode (node_id (w_node w)) (my_listen_addr (w_node w)) (o_dead_letter_topic options) in
  set_node node (set_rate_limiter (RateLimit.new <$> o_rate_limit options) (set_acls acls w)).

(** The state before it is refilled, and the store to refill it from. *)
Definition prepare (options : NodeOptions) (my_listen_addr : option rstr) (chans : mpsc_store Envelope) (n : nat) (now : Z) :
    Result (World * option store_state * option (ServerConfig * ClientConfig)) io_error :=
  let w := new_with_discovery (PeerId.new n) my_listen_addr chans (S n) now in
  let? attached := attach_store open (h_broker (w_hub w)) (o_data_dir options) in
  let? secured := apply_tls (o_tls options) (set_broker attached.1 w) in
  Ok (apply_options options secured.1, attached.2, secured.2).

Definition maybe_spawn_ttl_sweeper (store : option store_state) (persisted_message_ttl : option Z) (config : DeadLetterConfig) :
    list BackgroundTask :=
  match store, persisted_message_ttl with
  | Some _, Some ttl => [TtlSweeper ttl config]
  | _, _ => []
  end.

Definition spawn_reload_applier (reload : option (list ReloadableAcls)) : list BackgroundTask :=
  match reload with None => [] | Some updates => [ReloadApplier updates] end.

(** [reload]: what the reload channel will bring, when there is one. *)
Definition background (options : NodeOptions) (reload : option (list ReloadableAcls)) (store : option store_state) (w : World) :
    list BackgroundTask :=
  let config := MkDeadLetterConfig (node_id (w_node w)) (o_dead_letter_topic options) in
  maybe_spawn_ttl_sweeper store (o_persisted_message_ttl options) config
    ++ [WorkQueueSweeper config; DiscoveryDialer] ++ spawn_reload_applier reload.

Definition dial_seeds (seed_peers : list rstr) (now : Z) (up : Up) : Up :=
  MkUp (up_world up) (up_ready up) (up_tls up) (up_background up) (spawn_seed_peers now seed_peers (up_dials up)).

(** Up to the accept loop, the rehydration awaited. *)
Definition come_up (options : NodeOptions) (reload : option (list ReloadableAcls)) (my_listen_addr : option rstr)
    (chans : mpsc_store Envelope) (n : nat) (now : Z) : Result Up io_error :=
  let? prepared := prepare options my_listen_addr chans n now in
  let '(w, store, tls) := prepared in
  let? w :=
    match store with
    | None => Ok w
    | Some store =>
        let '(answer, b) := rehydrate_from_store store (h_broker (w_hub w)) in
        let? _ := answer in Ok (set_broker b w)
    end in
  Ok (MkUp w (Readiness.mark_ready Readiness.new) tls (background options reload store w) Peering.new).

Definition serve_with_tls (seed_peers : list rstr) (options : NodeOptions) (reload : option (list ReloadableAcls))
    (my_listen_addr : option rstr) (chans : mpsc_store Envelope) (n : nat) (now : Z) : Result Up io_error :=
  let? up := come_up options reload my_listen_addr chans n now in Ok (dial_seeds seed_peers now up).

(** [bind] and [local_addr] are the operating system's. *)
Definition run_with_tls {TcpListener : Type} (bind : rstr → Result TcpListener io_error)
    (local_addr : TcpListener → Result rstr io_error) (addr : rstr) (seed_peers : list rstr) (metrics_addr : option rstr)
    (options : NodeOptions) (reload : option (list ReloadableAcls)) (metrics_token : option rstr)
    (chans : mpsc_store Envelope) (n : nat) (now : Z) : Result Up io_error :=
  let? listener := bind addr in
  let my_listen_addr := match local_addr listener with Ok a => Some a | Err _ => None end in
  let? up := come_up options reload my_listen_addr chans n now in
  let? endpoint :=
    match metrics_addr with
    | None => Ok []
    | Some metrics_addr => let? metrics_listener := bind metrics_addr in Ok [MetricsEndpoint metrics_listener metrics_token]
    end in
  Ok (dial_seeds seed_peers now
        (MkUp (up_world up) (up_ready up) (up_tls up) (up_background up ++ endpoint) (up_dials up))).

(** The rehydration is left to a task of its own, and the readiness with it. *)
Definition spawn_with_tls (seed_peers : list rstr) (options : NodeOptions) (reload : option (list ReloadableAcls))
    (my_listen_addr : option rstr) (chans : mpsc_store Envelope) (n : nat) (now : Z) : Result Up io_error :=
  let? prepared := prepare options my_listen_addr chans n now in
  let '(w, store, tls) := prepared in
  let '(ready, rehydration) :=
    match store with
    | Some _ => (Readiness.new, [Rehydration])
    | None => (Readiness.mark_ready Readiness.new, [])
    end in
  Ok (dial_seeds seed_peers now
        (MkUp w ready tls (rehydration ++ background options reload store w) Peering.new)).

(** [NodeOptions::default()], and the node it starts. *)
Definition default_options : NodeOptions := MkNodeOptions None None None None None None None None.
Definition spawn (seed_peers : list rstr) := spawn_with_tls seed_peers default_options None.
Definition serve (seed_peers : list rstr) := serve_with_tls seed_peers default_options None.
(** [run]. *)
Definition run_node {TcpListener : Type} (bind : rstr → Result TcpListener io_error) (local_addr : TcpListener → Result rstr io_error)
    (addr : rstr) (seed_peers : list rstr) (metrics_addr : option rstr) :=
  run_with_tls bind local_addr addr seed_peers metrics_addr default_options None None.

(** ** The tasks in the background *)

(** One store, shared with the broker: each read sees what has been persisted
    by then. *)
Definition read_store {A} (load : store_state → Result A io_error) : ST (World * Readiness.Readiness) (Result A io_error) :=
  gets (λ s, match b_store (h_broker (w_hub s.1)) with Some store => load store | None => Err [] end).
Definition rehydrate (f : ST Broker ()) : ST (World * Readiness.Readiness) () :=
  modify (λ s, (set_broker (f (h_broker (w_hub s.1))).2 s.1, s.2)).

Fixpoint each {W A} (l : list A) (body : A → Proc W ()) : Proc W () :=
  match l with [] => mret () | x :: l' => _ ← body x; each l' body end.

(** The task of [spawn_with_tls]: [rehydrate_from_store] section by section,
    and ready whatever came of it. *)
Definition rehydration_task : Proc (World * Readiness.Readiness) () :=
  recent ← sync (read_store (load_recent DEFAULT_REPLAY_BUFFER_CAPACITY));
  _ ← match recent with
      | Err _ => mret ()
      | Ok recent =>
          retained ← sync (read_store load_retained);
          match retained with
          | Err _ => mret ()
          | Ok retained =>
              _ ← each recent (λ p, sync (rehydrate (rehydrate_buffer p.1 p.2)));
              each retained (λ p, sync (rehydrate (rehydrate_retained p.1 p.2)))
          end
      end;
  sync (modify (λ s, (s.1, Readiness.mark_ready s.2))).

(** A sweep at each tick of an interval whose first is at [due], for as many
    ticks as there are wall clocks, in nanoseconds. *)
Fixpoint ttl_sweeper (config : DeadLetterConfig) (ttl due : Z) (walls : list Z) : Proc World () :=
  match walls with
  | [] => mret ()
  | wall :: walls' =>
      Act (λ w, (due <=? w_clock w)%Z) (λ w, on_hub (Ttl.sweep_once config wall ttl (w_clock w)) w)
        (λ _, ttl_sweeper config ttl (due + Ttl.SWEEP_INTERVAL) walls')
  end.

Fixpoint work_queue_sweeper (config : DeadLetterConfig) (due : Z) (ticks : nat) : Proc World () :=
  match ticks with
  | O => mret ()
  | S ticks' =>
      Act (λ w, (due <=? w_clock w)%Z)
        (λ w, on_hub (WorkQueue.sweep_once config (w_clock w) DEFAULT_ACK_TIMEOUT DEFAULT_MAX_REDELIVERY_ATTEMPTS) w)
        (λ _, work_queue_sweeper config (due + sweep_interval DEFAULT_ACK_TIMEOUT) ticks')
  end.

(** ** What it starts with *)

Context `{!BroadcastLaws Envelope} `{!MessageStoreLaws}.

(** What every topic holds at the start: what the store does, with one. *)
Definition held_at_start (o : option store_state) (t : Topic) : list Envelope * option Envelope :=
  match o with
  | None => ([], None)
  | Some store => (window DEFAULT_REPLAY_BUFFER_CAPACITY (of_topic t (stored store)), retained_value store t)
  end.

(** The topics of a store that opens and reads fit the topic map. *)
Definition fits (store : store_state) : Prop :=
  ∀ l k, load_recent DEFAULT_REPLAY_BUFFER_CAPACITY store = Ok l → load_retained store = Ok k →
    size (loaded_topics l k) ≤ DEFAULT_TOPIC_MAP_CAPACITY.

Lemma rehydrate_answer store b :
  match rehydrate_from_store store b with
  | (Ok _, _) => ∃ l k, load_recent DEFAULT_REPLAY_BUFFER_CAPACITY store = Ok l ∧ load_retained store = Ok k
  | (Err e, _) => load_recent DEFAULT_REPLAY_BUFFER_CAPACITY store = Err e ∨ load_retained store = Err e
  end.
Proof.
  unfold rehydrate_from_store. destruct (load_recent _ store) as [l|]; [|by left].
  destruct (load_retained store) as [k|]; [by exists l, k|by right].
Qed.

(** The store's part: what [attach_store] and [rehydrate_from_store] come to. *)
Lemma attached_restores store l k :
  store_ok store → fits store → load_recent DEFAULT_REPLAY_BUFFER_CAPACITY store = Ok l → load_retained store = Ok k →
  ∃ b, rehydrate_from_store store (with_store store) = (Ok (), b) ∧ BrokerSpec.wf b ∧ ∀ t, held b t = held_at_start (Some store) t.
Proof.
  intros Hok Hfits Hl Hk. pose proof (restart_restores store l k Hok Hl Hk (Hfits l k Hl Hk)) as Hr.
  destruct (rehydrate_from_store store (with_store store)) as [answer b]. destruct Hr as (-> & Hwf & Hheld).
  exists b. split; [done|]. split; [done|exact Hheld].
Qed.

Lemma seed_dials seeds now :
  Peering.peer_addr <$> dials (spawn_seed_peers now seeds Peering.new) = seeds ∧ connecting (spawn_seed_peers now seeds Peering.new) = 0.
Proof.
  assert (∀ s, connecting s = 0 → Peering.peer_addr <$> dials (spawn_seed_peers now seeds s) = (Peering.peer_addr <$> dials s) ++ seeds
    ∧ connecting (spawn_seed_peers now seeds s) = 0) as Hs; [|by destruct (Hs Peering.new eq_refl)].
  induction seeds as [|a seeds IH]; intros s Hc; [cbn; by rewrite app_nil_r|].
  change (spawn_seed_peers now (a :: seeds) s) with (spawn_seed_peers now seeds (Peering.spawn now a s)).
  destruct (IH (Peering.spawn now a s)) as [-> ->].
  - unfold connecting, Peering.spawn. cbn. rewrite List.filter_app, length_app. unfold connecting in Hc. by rewrite Hc.
  - split; [|done]. unfold Peering.spawn. cbn. by rewrite fmap_app, <-app_assoc.
Qed.

Lemma new_serves_nothing : BrokerSpec.wf Broker.new ∧ ∀ t, held Broker.new t = held_at_start None t.
Proof. split; [apply broker_wf_new|]. intros t. unfold held, channel_of. cbn. by rewrite lookup_empty. Qed.


(** ** The rehydration left to the background *)

Lemma prepared_store options addr chans n now w store tls :
  prepare options addr chans n now = Ok (w, store, tls) → b_store (h_broker (w_hub w)) = store.
Proof.
  unfold prepare, attach_store. destruct (o_data_dir options) as [dir|]; [destruct (open dir) as [st|]; [|done]|]; cbn.
  all: unfold apply_tls; destruct (o_tls options) as [t|]; [destruct (build sha256 t) as [[[s c] fp]|]; [|done]|]; cbn; by intros [= <- <- _].
Qed.

Lemma run_each {A} (f : A → ST Broker ()) l w r :
  run (each l (λ x, sync (rehydrate (f x)))) (w, r) = Some ((), (set_broker (for_each l f (h_broker (w_hub w))).2 w, r)).
Proof.
  revert w; induction l as [|x l IH]; intros w; cbn [each for_each]; [by destruct w, w_hub|].
  rewrite run_sync_bind. cbn [rehydrate modify fst snd]. rewrite IH. by cbn.
Qed.

Lemma run_rehydration w r store :
  b_store (h_broker (w_hub w)) = Some store →
  run rehydration_task (w, r)
  = Some ((), (match rehydrate_from_store store (h_broker (w_hub w)) with (Ok _, b) => set_broker b w | (Err _, _) => w end,
               Readiness.mark_ready r)).
Proof.
  intros Hs. unfold rehydration_task, rehydrate_from_store. rewrite run_sync_bind. cbn [read_store gets fst snd]. rewrite Hs.
  destruct (load_recent _ store) as [recent|e]; [|done]. rewrite run_bind, run_sync_bind. cbn [read_store gets fst snd]. rewrite Hs.
  destruct (load_retained store) as [retained|e]; [|done]. rewrite run_bind, run_each. cbn [mbind option_bind fst snd]. rewrite run_each.
  cbn [mbind option_bind fst snd]. rewrite run_sync, st_bind. done.
Qed.

(** The task among others: it takes its next section, or somebody else does
    anything to the world. Nobody else touches the readiness. *)
Inductive beside : relation (Proc (World * Readiness.Readiness) () * (World * Readiness.Readiness)) :=
| BesideSection X ready (f : ST (World * Readiness.Readiness) X) k s :
    ready s = true → beside (Act ready f k, s) (k (f s).1, (f s).2)
| BesideOther p w w' r : beside (p, (w, r)) (p, (w', r)).

(** It never waits and leaves the readiness alone; and it sets that in its last
    section and in no other. *)
Fixpoint quiet {A} (p : Proc (World * Readiness.Readiness) A) : Prop :=
  match p with
  | Ret _ => True
  | Act ready f k => ∀ s, ready s = true ∧ (f s).2.2 = s.2 ∧ quiet (k (f s).1)
  end.
Fixpoint late (p : Proc (World * Readiness.Readiness) ()) : Prop :=
  match p with
  | Ret _ => False
  | Act ready f k => ∀ s, ready s = true
      ∧ ((f s).2.2 = s.2 ∧ late (k (f s).1) ∨ k (f s).1 = Ret () ∧ Readiness.is_ready (f s).2.2 = true)
  end.

Lemma startup_quiet_bind {A B} (p : Proc (World * Readiness.Readiness) A) (g : A → Proc _ B) :
  quiet p → (∀ a, quiet (g a)) → quiet (p ≫= g).
Proof. intros Hp Hg. induction p as [a|X ready f k IH]; [apply Hg|]. intros s. destruct (Hp s) as (Hr & Hs & Hk). do 2 (split; [done|]). by apply IH. Qed.
Lemma late_bind {A} (p : Proc (World * Readiness.Readiness) A) g : quiet p → (∀ a, late (g a)) → late (p ≫= g).
Proof. intros Hp Hg. induction p as [a|X ready f k IH]; [apply Hg|]. intros s. destruct (Hp s) as (Hr & Hs & Hk). split; [done|]. left. split; [done|]. by apply IH. Qed.

Lemma quiet_each {A} (l : list A) (f : A → ST Broker ()) : quiet (each l (λ x, sync (rehydrate (f x)))).
Proof. induction l as [|x l IH]; [done|]. apply startup_quiet_bind; [done|auto]. Qed.

Lemma rehydration_late : late rehydration_task.
Proof.
  apply late_bind; [done|]. intros [recent|e]; (apply late_bind; [|intros []; split; [done|by right]]); [|done].
  apply startup_quiet_bind; [done|]. intros [retained|e]; [|done]. apply startup_quiet_bind; [apply quiet_each|]. intros []. apply quiet_each.
Qed.

(** Ready once it has ended, and not before. *)
Definition on_time (x : Proc (World * Readiness.Readiness) () * (World * Readiness.Readiness)) : Prop :=
  Readiness.is_ready x.2.2 = true ∧ x.1 = Ret () ∨ Readiness.is_ready x.2.2 = false ∧ late x.1.

Lemma beside_on_time x y : rtc beside x y → on_time x → on_time y.
Proof.
  induction 1 as [|x y z Hstep _ IH]; [done|]. intros Hx. apply IH. revert Hx.
  destruct Hstep as [X ready f k s Hr|p w w' r]; [|done]. intros [[_ ?]|[Hn Hl]]; [done|]. unfold on_time in *. cbn [fst snd] in *.
  destruct (Hl s) as [_ [[-> Hk]|[-> Hk]]]; auto.
Qed.

Lemma beside_ready w p s :
  rtc beside (rehydration_task, (w, Readiness.new)) (p, s) →
  (Readiness.is_ready s.2 = true ↔ p = Ret ()) ∧ (p ≠ Ret () → stuck p s = false).
Proof.
  intros Hs%beside_on_time; [|right; split; [done|exact rehydration_late]].
  destruct Hs as [[Hr Hp]|[Hr Hl]]; cbn [fst snd] in *; rewrite Hr; [by subst p|]. split; [split; [done|]; by intros ->|].
  intros _. destruct p as [|X ready f k]; [done|]. cbn. by destruct (Hl s) as [-> _].
Qed.

(** The [expect] of [spawn]. *)
Lemma spawn_never_fails seeds addr chans n now : is_ok (spawn seeds addr chans n now) = true.
Proof. done. Qed.


End startup.

#[local] Existing Instances RestartSample.broadcast RestartSample.broadcast_laws RestartSample.mpsc
  RestartSample.store RestartSample.store_laws SampleTls.rustls.

Module StartupSample.
Definition chans : mpsc_store Envelope := (∅ : gmap nat (Reference.Chan Envelope)).
End StartupSample.


(** Serving while the store is read back. A message with [retain] set is
    published to ["b"] after the task of [spawn_with_tls] has read both tables
    and before it has refilled the broker: the store keeps it as the retained
    one, but the broker ends with the older one in its slot, and with the newer
    message first in the replay buffer. *)
Module LateRehydration.
Import PersistenceSample.
Definition b := Sample.topic (lit "b").
Definition older : Envelope := e 1 (lit "b") [7%Z].
Definition newer : Envelope := e 4 (lit "b") [9%Z].
Definition file : SqliteStore := match append_all enc (λ _, []) no_fault [older] opened with Ok s => s | Err _ => opened end.
Definition options := MkNodeOptions None None None None (Some (lit "/data")) None None None.
Definition spawned := spawn_with_tls (λ _, Ok file) (λ b, b) (H2 := Reference.ref_uuids) [] options None None StartupSample.chans 0 0.
Definition interleaved : option (World * Readiness.Readiness) :=
  match spawned with
  | Ok up =>
      let '(task, (w, r)) := advance 2 rehydration_task (up_world up, up_ready up) in
      snd <$> run task ((on_hub (hub_publish b newer 0) w).2, r)
  | Err _ => None
  end.
End LateRehydration.

Import LateRehydration.

Example late_rehydration_goes_back :
  ∃ w store, interleaved = Some (w, true) ∧ b_store (h_broker (w_hub w)) = Some store
  ∧ retained_value store b = Some newer ∧ of_topic b (stored store) = [older; newer]
  ∧ held (h_broker (w_hub w)) b = ([newer; older], Some older).
Proof.
  assert (match interleaved with
    | Some (w, true) => match b_store (h_broker (w_hub w)) with
        | Some store => bool_decide (retained_value store b = Some newer) && bool_decide (of_topic b (stored store) = [older; newer])
          && bool_decide (held (h_broker (w_hub w)) b = ([newer; older], Some older))
        | None => false
        end
    | _ => false
    end = true) as Hc by by vm_compute.
  destruct interleaved as [[w []]|]; [|done..]. destruct (b_store (h_broker (w_hub w))) as [store|] eqn:Hs; [|done].
  apply andb_prop in Hc as [[H1%bool_decide_eq_true H2%bool_decide_eq_true]%andb_prop H3%bool_decide_eq_true].
  exists w, store. split_and!; done.
Qed.
