(* ===== verification/Daemon.v ===== *)
(** * The process ([spawn_sighup_reloader] and [main] of
      [thoth-mesh-node/src/main.rs])

    From the command line and the config file to a running node, and from a
    [SIGHUP] to the lists it enforces. What the file system holds at each
    signal is given: [hups]. *)

From S2P Require Import Prelude.
From S2P Require Import Text.
From S2P Require Import Topic.
From S2P Require Import Filter.
From S2P Require Import Runtime.
From S2P Require Import TopicAcl.
From S2P Require Import Fingerprint.
From S2P Require Import NodeConfig.
From S2P Require Import Tls.
From S2P Require Import Message.
From S2P Require Import Persistence.
From S2P Require Import MessageStore.
From S2P Require Import Broker.
From S2P Require Import Forwarder.
From S2P Require Import Async.
From S2P Require Import Access.
From S2P Require Import World.
From S2P Require Import Connection.
From S2P Require Import ConnectionSpec.
From S2P Require Import Handlers.
From S2P Require Import Reload.
From S2P Require Import Restart.
From S2P Require Import Startup.

#[local] Open Scope nat_scope.

Inductive DaemonError : Type :=
| Misconfigured (e : ConfigError)
| Failed (e : io_error).

Section daemon.
Context `{Broadcast Envelope} `{Mpsc Envelope} `{MessageStore} `{Uuids} `{RustlsOps}.
Context (from_toml : rstr → Result Config.Config rstr) (default_path : option rstr).
Context (open : rstr → Result store_state io_error) (sha256 : bytes → bytes).
Context {TcpListener : Type} (bind : rstr → Result TcpListener io_error) (local_addr : TcpListener → Result rstr io_error).

(** What the task sends, a signal at a time; its end when [reload] panics. *)
Fixpoint sighup_loop (source : ReloadSource) (hups : list Fs) : list ReloadableAcls :=
  match hups with
  | [] => []
  | fs :: hups' =>
      match reload from_toml default_path fs source with
      | None => []
      | Some (Err _) => sighup_loop source hups'
      | Some (Ok acls) => acls :: sighup_loop source hups'
      end
  end.

(** [installed]: what [signal] answers. *)
Definition spawn_sighup_reloader (installed : Result () io_error) (source : ReloadSource) (hups : list Fs) :
    option (list ReloadableAcls) :=
  match installed with
  | Err _ => None
  | Ok _ => Some (sighup_loop source hups)
  end.

Definition daemon (fs : Fs) (cli : Cli.Cli) (installed : Result () io_error) (hups : list Fs) (chans : mpsc_store Envelope)
    (n : nat) (now : Z) : Result Up DaemonError :=
  let? configured := map_err Misconfigured (main from_toml default_path fs cli) in
  let '(c, options, metrics_token, source) := configured in
  map_err Failed (run_with_tls open sha256 bind local_addr (addr c) (peers c) (metrics_addr c) options
    (spawn_sighup_reloader installed source hups) metrics_token chans n now).

(** ** What a signal comes to *)

(** The value a [watch] channel holds is the last one sent: a receiver may miss
    others, never that one. *)
Definition watched (sent seen : list ReloadableAcls) : Prop := seen `sublist_of` sent ∧ last seen = last sent.

Definition reloaded (source : ReloadSource) (fs : Fs) : option ReloadableAcls :=
  match reload from_toml default_path fs source with Some (Ok acls) => Some acls | _ => None end.

Lemma sighup_loop_reloads fs cli c o tok source hups :
  main from_toml default_path fs cli = Ok (c, o, tok, source) → sighup_loop source hups = omap (reloaded source) hups.
Proof.
  intros (file & _ & _ & _ & Hsrc)%main_ok.
  assert (∀ fs', reload from_toml default_path fs' source ≠ None) as Hnone.
  { intros fs'. subst source. unfold reload. cbn. destruct (or _ _) as [path|]; [|done].
    destruct (is_ok (metadata fs path)); [|done]. by destruct (metadata fs' path). }
  induction hups as [|fs' hups IH]; [done|]. cbn [sighup_loop omap list_omap]. unfold reloaded at 1. specialize (Hnone fs').
  destruct (reload from_toml default_path fs' source) as [[acls|e]|]; [by rewrite IH|exact IH|done].
Qed.

Lemma come_up_acls options rl a chans n now up :
  come_up open sha256 options rl a chans n now = Ok up →
  w_acls (up_world up) = acls_of options
  ∧ ∃ l, up_background up = l ++ Startup.spawn_reload_applier rl.
Proof.
  unfold come_up, prepare. intros ([[w store] tls] & (attached & _ & ([w1 tls1] & Htls & [= <- <- <-])%and_then_ok)%and_then_ok & Hup)%and_then_ok.
  apply and_then_ok in Hup as (w2 & Hw2 & [= <-]). cbn. split.
  - assert (w_acls w2 = w_acls (apply_options options w1)) as ->.
    { destruct (attached.2) as [store|]; [|by injection Hw2 as <-].
      destruct (rehydrate_from_store store _) as [[u|e] b]; cbn in Hw2; [|done]. by injection Hw2 as <-. }
    unfold acls_of. cbn. f_equal. unfold apply_tls in Htls. destruct (o_tls options) as [t|]; [|by injection Htls as <- _].
    apply and_then_ok in Htls as ([[s c] fp] & _ & [= <- _]). done.
  - eexists. unfold background. by rewrite app_assoc.
Qed.

(** C22: a signal is a restart. A node enforces from the start the lists its
    command line and its config file give. Once the reloads of the signals it
    has been sent are applied, with nobody in between and whichever of them the
    channel has coalesced, it enforces those of the file at the last signal
    whose file a node could be restarted on with TLS as it is, as long as the
    later ones fail; if all failed, those it has; and every connection keeps
    exactly the subscriptions that all the lists applied since permit. *)
Theorem hangup_is_restart (fs : Fs) (cli : Cli.Cli) (hups : list Fs) chans n now up :
  daemon fs cli (Ok ()) hups chans n now = Ok up →
  ∃ c o tok source, main from_toml default_path fs cli = Ok (c, o, tok, source)
    ∧ w_acls (up_world up) = acls_of o ∧ ReloadApplier (omap (reloaded source) hups) ∈ up_background up
    ∧ ∀ seen w, watched (omap (reloaded source) hups) seen → w_acls w = acls_of o →
      NoDup (entry_forwarders <$> World.snapshot (w_registry w)) →
      ∃ w', run (reload_applier seen) w = Some ((), w')
        ∧ (∀ entry f s, entry ∈ World.snapshot (w_registry w) →
             forwarders_of (entry_forwarders entry) w' !! f = Some s
             ↔ forwarders_of (entry_forwarders entry) w !! f = Some s ∧ Forall (λ a, permitted a w entry f = true) seen)
        ∧ (Forall (λ fs', reloaded source fs' = None) hups → w_acls w' = acls_of o)
        ∧ ∀ before fs' after c' o' tok' source', hups = before ++ fs' :: after →
            (∀ path, config_path source = Some path → is_ok (metadata fs' path) = true) →
            main from_toml default_path fs' cli = Ok (c', o', tok', source') →
            is_some (o_tls o') = is_some (o_tls o) →
            Forall (λ fs', reloaded source fs' = None) after →
            w_acls w' = acls_of o'.
Proof.
  unfold daemon. intros ([[[c o] tok] source] & Hmain & Hup)%and_then_ok.
  assert (main from_toml default_path fs cli = Ok (c, o, tok, source)) as Hm by by destruct (main _ _ _ _); simplify_eq/=.
  assert (∃ r, run_with_tls open sha256 bind local_addr (addr c) (peers c) (metrics_addr c) o
    (spawn_sighup_reloader (Ok ()) source hups) tok chans n now = Ok r ∧ r = up) as (? & Hrun & ->).
  { destruct (run_with_tls _ _ _ _ _ _ _ _ _ _ _ _ _) as [r|]; [|done]. injection Hup as <-. by exists r. }
  unfold run_with_tls in Hrun. apply and_then_ok in Hrun as (listener & _ & (come & Hcome & (endpoint & _ & [= <-])%and_then_ok)%and_then_ok).
  apply come_up_acls in Hcome as (Hacls & l & Hback). cbn.
  exists c, o, tok, source. split; [done|]. split; [done|]. split.
  { rewrite Hback. cbn. rewrite (sighup_loop_reloads _ _ _ _ _ _ _ Hm), !elem_of_app. left. right. by left. }
  intros seen w [_ Hlast] Hw Hnd. destruct (reload_applier_spec seen w Hnd) as (w' & Hr & Ha & _ & Hk).
  exists w'. split; [exact Hr|]. split; [exact Hk|]. rewrite Ha, Hlast, Hw.
  assert (∀ l, Forall (λ fs', reloaded source fs' = None) l → omap (reloaded source) l = []) as Hnil.
  { clear. induction 1 as [|x l Hx _ IH]; [done|]. cbn. by rewrite Hx. }
  split; [by intros ->%Hnil|]. intros before fs' after c' o' tok' source' -> Hthere Hm' Htls Hafter.
  rewrite omap_app. cbn. rewrite (Hnil after Hafter). unfold reloaded at 2.
  rewrite (reload_as_start from_toml default_path fs fs' cli c o tok source c' o' tok' source' Hm Hm' Htls) by (intros path _; apply Hthere).
  by rewrite last_snoc.
Qed.
End daemon.

#[local] Existing Instances RestartSample.broadcast RestartSample.broadcast_laws RestartSample.mpsc
  RestartSample.store RestartSample.store_laws SampleTls.rustls.

(** A node on the config file of the sample and the store of the restart's. The
    file is there at the first signal, gone at the second. *)
Module DaemonSample.
#[export] Instance uuids : Uuids := Reference.ref_uuids.
Definition hups : list Fs := [ConfigSample.fs; ConfigSample.bare].
Definition started : Result Up DaemonError :=
  daemon ConfigSample.toml None (λ _, Ok RestartSample.file) (λ b, b) (λ a, Ok a) (λ a : rstr, Ok a)
    ConfigSample.fs ConfigSample.cli (Ok ()) hups StartupSample.chans 0 0.
End DaemonSample.
Import DaemonSample.

Lemma hangup_is_restart_witness :
  ∃ up updates w', started = Ok up ∧ length updates = 1 ∧ ReloadApplier updates ∈ up_background up
    ∧ run (reload_applier updates) (up_world up) = Some ((), w') ∧ w_acls w' = w_acls (up_world up).
Proof.
  assert (is_ok started = true) as [up Hup]%is_ok_true by by vm_compute.
  assert (match started with Ok up => bool_decide (World.snapshot (w_registry (up_world up)) = []) | Err _ => false end = true) as Hreg
    by by vm_compute.
  rewrite Hup in Hreg. apply bool_decide_eq_true in Hreg.
  assert (match ConfigSample.started with
    | Ok (_, o, _, s) => (length (omap (reloaded ConfigSample.toml None s) hups) =? 1) && negb (is_some (reloaded ConfigSample.toml None s ConfigSample.bare))
    | Err _ => false end = true) as Hone by by vm_compute.
  pose proof Hup as (c & o & tok & source & Hm & Ha & Hb & Hall)%hangup_is_restart.
  unfold ConfigSample.started in Hone. rewrite Hm in Hone. apply andb_prop in Hone as [Hone%Nat.eqb_eq Hbare%negb_true_iff].
  destruct (Hall _ (up_world up) (conj (reflexivity _) eq_refl) Ha) as (w' & Hr & _ & _ & Hlast); [rewrite Hreg; constructor|].
  eexists up, _, w'. split; [done|]. split; [exact Hone|]. split; [done|]. split; [exact Hr|]. rewrite Ha.
  eapply (Hlast [] ConfigSample.fs [ConfigSample.bare]); [done| |exact Hm|done|].
  - destruct (main_ok _ _ _ _ _ _ _ _ Hm) as (_ & _ & _ & _ & ->). by intros path [= <-].
  - constructor; [|constructor]. by destruct (reloaded _ _ _ _).
Defined.
