(* ===== verification/ClientRun.v ===== *)
(** * The client's commands from start to end ([run] and the printing of
      [thoth-mesh-cli/src/lib.rs])

    What [ClientOptions] prepares, the connection it opens and the command of
    [Client] that runs on it. Of an open stream, what the node will have sent
    is the environment's. A [None] is the panic of [request]. *)

From S2P Require Import Prelude.
From S2P Require Import Text.
From S2P Require Import Utf8.
From S2P Require Import Topic.
From S2P Require Import Filter.
From S2P Require Import Runtime.
From S2P Require Import NodeConfig.
From S2P Require Import Tls.
From S2P Require Import Message.
From S2P Require Import Framing.
From S2P Require Import Writer.
From S2P Require Import Handshake.
From S2P Require Import Metrics.
From S2P Require Import Client.
From S2P Require Import ClientOptions.

#[local] Open Scope nat_scope.
#[local] Open Scope thoth_scope.

(** [{:<32}] *)
Definition pad (width : nat) (s : rstr) : rstr := s ++ replicate (width - length s) 32%Z.

(** The name and value of each row of the table. *)
Definition status_rows (m : MetricsSummary) : list (rstr * Z) :=
  [(lit "peers_connected", peers_connected m);
   (lit "messages_published", messages_published m);
   (lit "forwarder_lag_total", forwarder_lag_total m);
   (lit "topic_acl_rejections_total", topic_acl_rejections_total m);
   (lit "metrics_auth_rejections_total", metrics_auth_rejections_total m);
   (lit "peer_topic_acl_rejections_total", peer_topic_acl_rejections_total m);
   (lit "replayed_messages_total", replayed_messages_total m);
   (lit "lag_recovered_total", lag_recovered_total m);
   (lit "topic_evictions_total", topic_evictions_total m);
   (lit "pattern_evictions_total", pattern_evictions_total m);
   (lit "membership_evictions_total", membership_evictions_total m);
   (lit "peer_directory_evictions_total", peer_directory_evictions_total m);
   (lit "redelivered_messages_total", redelivered_messages_total m);
   (lit "delivery_ack_timeouts_total", delivery_ack_timeouts_total m);
   (lit "persist_failures_total", persist_failures_total m);
   (lit "expired_messages_total", expired_messages_total m);
   (lit "dead_lettered_messages_total", dead_lettered_messages_total m);
   (lit "publish_rate_limit_rejections_total", publish_rate_limit_rejections_total m);
   (lit "rate_limit_principal_evictions_total", rate_limit_principal_evictions_total m)].

Definition status_row (row : rstr * Z) : rstr := lit "  " ++ pad 32 row.1 ++ lit " " ++ display_u64 row.2.

Fixpoint print_lines (lines : list rstr) : Cmd () :=
  match lines with
  | [] => done_ok ()
  | l :: lines' => let! _ := println l in print_lines lines'
  end.

Section run.
Context `{Uuids} {CborError : Type} (into_writer : Envelope → Result bytes CborError)
  (from_reader : bytes → Result Envelope CborError).
Context (cbor_message : CborError → rstr) (framing_message : FramingError io_error → rstr).
Context (write_all : bytes → ST duplex (Result () io_error)) (debug_uuid : Z → rstr).

(** [{:?}] of a [PeerId], a derived [Debug] around the crate's. *)
Definition debug_peer (p : PeerId) : rstr := lit "PeerId(" ++ debug_uuid (PeerId.uuid p) ++ lit ")".

Definition peer_line (p : PeerSummary) : rstr :=
  lit "  " ++ debug_peer (summary_peer_id p) ++ lit "  "
  ++ match summary_listen_addr p with Some addr => addr | None => lit "(no listen address)" end.

Definition status_lines (reply : PeerId * option rstr * list PeerSummary * MetricsSummary) : list rstr :=
  let '(node_id, listen_addr, peers, metrics) := reply in
  [lit "Node " ++ debug_peer node_id;
   match listen_addr with
   | Some addr => lit "Listening on " ++ addr
   | None => lit "Not accepting inbound connections"
   end;
   newline :: lit "Connected peers (" ++ display_u64 (Z.of_nat (length peers)) ++ lit "):"]
  ++ (peer_line <$> peers) ++ [newline :: lit "Metrics:"] ++ (status_row <$> status_rows metrics).

Definition print_status (reply : PeerId * option rstr * list PeerSummary * MetricsSummary) : Cmd () :=
  print_lines (status_lines reply).

Definition topic_line (t : TopicSummary) : rstr :=
  lit "  " ++ pad 32 (Topic.as_str (topic_summary_topic t))
  ++ lit " subscribers=" ++ display_u64 (topic_summary_subscribers t)
  ++ lit " messages_buffered=" ++ display_u64 (topic_summary_messages_buffered t).

Definition topics_lines (topics : list TopicSummary) : list rstr :=
  match topics with
  | [] => [lit "No active topics."]
  | _ => (lit "Active topics (" ++ display_u64 (Z.of_nat (length topics)) ++ lit "):") :: (topic_line <$> topics)
  end.
Definition print_topics (topics : list TopicSummary) : Cmd () := print_lines (topics_lines topics).

Definition status_and_print (sender : PeerId) : Cmd () :=
  let! reply := request_status into_writer from_reader cbor_message framing_message write_all sender in
  print_status reply.

Definition topics_and_print (sender : PeerId) : Cmd () :=
  let! topics := request_topics into_writer from_reader cbor_message framing_message write_all sender in
  print_topics topics.

(** ** [run] *)

(** What standard input holds, when the interrupt comes, how long each message
    takes. *)
Context (stdin : Result bytes io_error) (ctrl_c : nat) (delays : list Z).

Definition read_payload (arg : rstr) : Cmd bytes :=
  if bool_decide (arg = lit "-")
  then match stdin with Ok b => done_ok b | Err e => fails (Other e) end
  else done_ok (as_bytes arg).

Definition request_and_print (sender : PeerId) (topic : Topic) (payload : bytes) (content_type : option rstr)
    (output : OutputMode) (timeout_secs : Z) (s : Session) : option (Result () ClientError * Session) :=
  match request into_writer from_reader cbor_message framing_message write_all sender topic payload content_type timeout_secs delays s with
  | None => None
  | Some (Err e, s') => Some (Err e, s')
  | Some (Ok reply, s') => Some ((let! _ := print_if_publish reply output in done_ok ()) s')
  end.

Definition lift {A} (r : Result A ClientError) : Cmd A := λ s, (r, s).

(** The [match] on the command, once connected. *)
Definition execute (sender : PeerId) (c : Command) (s : Session) : option (Result () ClientError * Session) :=
  match c with
  | CmdPublish topic payload retain content_type =>
      Some ((let! topic := lift (parse_topic topic) in
             let! payload := read_payload payload in
             let! envelope := new_envelope sender (Publish topic payload retain content_type None None) in
             send into_writer cbor_message framing_message write_all envelope) s)
  | CmdRequest topic payload content_type output timeout_secs =>
      match (let! topic := lift (parse_topic topic) in
             let! payload := read_payload payload in
             done_ok (topic, payload)) s with
      | (Err e, s') => Some (Err e, s')
      | (Ok (topic, payload), s') => request_and_print sender topic payload content_type output timeout_secs s'
      end
  | CmdSubscribe filters output ack group durable =>
      Some ((let! filters := lift (parse_filters filters) in
             subscribe_and_print into_writer from_reader cbor_message framing_message write_all ctrl_c sender filters output ack
               group durable) s)
  | CmdStatus => Some (status_and_print sender s)
  | CmdTopics => Some (topics_and_print sender s)
  end.

Context (from_toml : rstr → Result Config.Config rstr) (default_path : option rstr).
Context `{TlsStreams} (sha256 : bytes → bytes) (tcp_connect : rstr → Result TcpStream io_error) (node_sends : MaybeTlsStream → bytes).

#[local] Abbreviation prepare := (prepare from_toml default_path).
#[local] Abbreviation build_connector := (build_connector sha256).

(** [run] up to the open connection: the fingerprint of the client's
    certificate and what the node sends. *)
Definition connect (fs : Fs) (cli : Cli.Cli) : Result (option bytes * bytes) ClientError :=
  let? conn_opts := prepare fs cli in
  let? tls := build_connector conn_opts in
  let? tcp := map_err Other (tcp_connect (addr conn_opts)) in
  let? stream :=
    match tls.1 with
    | Some connector => map_err ConnectFailed (Tls.connect connector tcp (addr conn_opts))
    | None => Ok (PlainStream tcp)
    end in
  Ok (tls.2, node_sends stream).

(** There is no session before the connection is open. *)
Definition run (fs : Fs) (cli : Cli.Cli) : option (Result () ClientError * option Session) :=
  match connect fs cli with
  | Err e => Some (Err e, None)
  | Ok (own_fingerprint, incoming) =>
      let drawn := match own_fingerprint with Some _ => 0 | None => 1 end in
      match execute (sender_of 0 own_fingerprint) (Cli.command cli) (MkSession ([], incoming) drawn [] []) with
      | None => None
      | Some (r, s) => Some (r, Some s)
      end
  end.

(** ** Printing *)

Definition unlines (lines : list rstr) : rstr := concat ((λ l, l ++ [newline]) <$> lines).

Lemma print_lines_ok lines s :
  print_lines lines s = (Ok (), MkSession (wire s) (next_id s) (stdout s ++ as_bytes (unlines lines)) (stderr s)).
Proof.
  revert s; induction lines as [|l lines IH]; intros s; [cbn; rewrite app_nil_r; by destruct s|].
  cbn [print_lines]. unfold cmd_bind, println, print. rewrite IH. cbn [wire next_id stdout stderr].
  unfold unlines. cbn [fmap list_fmap concat]. by rewrite (as_bytes_app (l ++ _)), app_assoc.
Qed.

End run.

(** ** Waiting for an answer, on a connection whose writes succeed *)

Section answers.
Context `{Uuids} {CborError : Type} (into_writer : Envelope → Result bytes CborError)
  (from_reader : bytes → Result Envelope CborError).
Context (cbor_message : CborError → rstr) (framing_message : FramingError io_error → rstr) (debug_uuid : Z → rstr).
Context (codec : codec_roundtrip into_writer from_reader).
#[local] Abbreviation encoded := (encoded into_writer).
#[local] Abbreviation recv_answer := (recv_answer from_reader cbor_message framing_message).

Lemma recv_until_first {A} (answer : MessageKind → option A) l bs e b a rest :
  Forall2 encoded l bs → Forall (λ m, answer (kind m) = None) l → encoded e b → answer (kind e) = Some a →
  ∀ fuel s out, wire s = (out, framed bs ++ frame b ++ rest) → length l < fuel →
  recv_until from_reader cbor_message framing_message fuel answer s
  = Some (Ok a, MkSession (out, rest) (next_id s) (stdout s) (stderr s)).
Proof.
  intros Hl Hno Hb He. induction Hl as [|m c l bs Hc _ IH]; intros [|fuel] s out Hw Hf; try (cbn in Hf; lia); cbn [recv_until].
  - by rewrite (recv_ok into_writer from_reader cbor_message framing_message codec e b out rest s Hb Hw), He.
  - rewrite framed_cons, <-app_assoc in Hw. apply Forall_cons in Hno as [Hm Hno].
    rewrite (recv_ok into_writer from_reader cbor_message framing_message codec m c out _ s Hc Hw), Hm.
    by rewrite (IH Hno fuel _ out) by (done || cbn in Hf; lia).
Qed.

(** The first message that answers is returned, whatever came before it. *)
Lemma recv_answer_first {A} (answer : MessageKind → option A) l bs e b a s out rest :
  Forall2 encoded l bs → Forall (λ m, answer (kind m) = None) l → encoded e b → answer (kind e) = Some a →
  wire s = (out, framed bs ++ frame b ++ rest) →
  recv_answer answer s = (Ok a, MkSession (out, rest) (next_id s) (stdout s) (stderr s)).
Proof.
  intros Hl Hno Hb He Hw. unfold Client.recv_answer.
  rewrite (recv_until_first answer l bs e b a rest Hl Hno Hb He _ s out Hw); [done|].
  rewrite Hw. cbn [snd]. rewrite !length_app. pose proof (framed_length bs). apply Forall2_length in Hl. lia.
Qed.

(** What [status] prints for a reply and what it leaves unread. *)
Lemma status_and_print_ok sender node_id listen_addr peers metrics l bs e b c s out rest :
  let request := Envelope.new (next_id s) sender StatusRequest in
  encoded request c → Forall2 encoded l bs → encoded e b →
  kind e = StatusReply (id request) node_id listen_addr peers metrics →
  Forall (λ m, ∀ n a p x, kind m ≠ StatusReply (id request) n a p x) l →
  wire s = (out, framed bs ++ frame b ++ rest) →
  status_and_print into_writer from_reader cbor_message framing_message duplex_write_all debug_uuid sender s
  = (Ok (), MkSession (out ++ frame c, rest) (S (next_id s))
       (stdout s ++ as_bytes (unlines (status_lines debug_uuid (node_id, listen_addr, peers, metrics)))) (stderr s)).
Proof.
  intros request Hc Hl Hb He Hno Hw. unfold status_and_print, request_status. unfold cmd_bind at 1 2. cbn [new_envelope].
  fold request. unfold cmd_bind at 1. rewrite (send_ok into_writer cbor_message framing_message request c _ Hc), Hw.
  cbn [wire fst snd next_id stdout stderr]. set (s1 := MkSession _ _ _ _).
  rewrite (recv_answer_first _ l bs e b (node_id, listen_addr, peers, metrics) s1 (out ++ frame c) rest Hl); [| |done| |reflexivity].
  - unfold print_status, print_topics. by rewrite print_lines_ok.
  - eapply Forall_impl; [exact Hno|]. intros m Hm. destruct (kind m) eqn:Hk; try done.
    rewrite decide_False; [done|]. intros ->. by eapply Hm.
  - rewrite He. by rewrite decide_True.
Qed.

Lemma topics_and_print_ok sender topics l bs e b c s out rest :
  let request := Envelope.new (next_id s) sender TopicsRequest in
  encoded request c → Forall2 encoded l bs → encoded e b →
  kind e = TopicsReply (id request) topics →
  Forall (λ m, ∀ ts, kind m ≠ TopicsReply (id request) ts) l →
  wire s = (out, framed bs ++ frame b ++ rest) →
  topics_and_print into_writer from_reader cbor_message framing_message duplex_write_all sender s
  = (Ok (), MkSession (out ++ frame c, rest) (S (next_id s))
       (stdout s ++ as_bytes (unlines (topics_lines topics))) (stderr s)).
Proof.
  intros request Hc Hl Hb He Hno Hw. unfold topics_and_print, request_topics. unfold cmd_bind at 1 2. cbn [new_envelope].
  fold request. unfold cmd_bind at 1. rewrite (send_ok into_writer cbor_message framing_message request c _ Hc), Hw.
  cbn [wire fst snd next_id stdout stderr]. set (s1 := MkSession _ _ _ _).
  rewrite (recv_answer_first _ l bs e b topics s1 (out ++ frame c) rest Hl); [| |done| |reflexivity].
  - unfold print_status, print_topics. by rewrite print_lines_ok.
  - eapply Forall_impl; [exact Hno|]. intros m Hm. destruct (kind m) eqn:Hk; try done.
    rewrite decide_False; [done|]. intros ->. by eapply Hm.
  - rewrite He. by rewrite decide_True.
Qed.

End answers.

(** ** Publishing *)

(** What [AsyncWriteExt::write_all] documents: it sends a prefix of its argument,
    all of it when it succeeds. *)
Definition writes_prefixes (write_all : bytes → ST duplex (Result () io_error)) : Prop :=
  ∀ b out inp, ∃ sent, (write_all b (out, inp)).2 = (out ++ sent, inp) ∧ sent `prefix_of` b
    ∧ ((write_all b (out, inp)).1 = Ok () → sent = b).

Lemma duplex_writes_prefixes : writes_prefixes duplex_write_all.
Proof. intros b out inp. by exists b. Qed.

Section publishing.
Context `{Uuids} {CborError : Type} (into_writer : Envelope → Result bytes CborError)
  (from_reader : bytes → Result Envelope CborError).
Context (cbor_message : CborError → rstr) (framing_message : FramingError io_error → rstr).
Context (write_all : bytes → ST duplex (Result () io_error)) (debug_uuid : Z → rstr).
Context (stdin : Result bytes io_error) (ctrl_c : nat) (delays : list Z).
Context (from_toml : rstr → Result Config.Config rstr) (default_path : option rstr).
Context `{TlsStreams} (sha256 : bytes → bytes) (tcp_connect : rstr → Result TcpStream io_error) (node_sends : MaybeTlsStream → bytes).
Context (codec : codec_roundtrip into_writer from_reader) (Hwrites : writes_prefixes write_all).
#[local] Abbreviation encoded := (encoded into_writer).
#[local] Abbreviation read_payload := (read_payload stdin).
#[local] Abbreviation write_frame := (AsyncFraming.write_frame write_all).
#[local] Abbreviation execute := (execute into_writer from_reader cbor_message framing_message write_all debug_uuid stdin ctrl_c delays).
#[local] Abbreviation connect := (connect from_toml default_path sha256 tcp_connect node_sends).
#[local] Abbreviation run := (run into_writer from_reader cbor_message framing_message write_all debug_uuid stdin ctrl_c delays
  from_toml default_path sha256 tcp_connect node_sends).

(** The payload an argument stands for. *)
Definition payload_is (arg : rstr) (p : bytes) : Prop :=
  if decide (arg = lit "-") then stdin = Ok p else p = as_bytes arg.

(** The message that publishes [p], the next that this process makes. *)
Definition publish_envelope (own_fingerprint : option bytes) (topic : rstr) (p : bytes) (retain : bool)
    (content_type : option rstr) : Envelope :=
  Envelope.new (match own_fingerprint with Some _ => 0 | None => 1 end) (sender_of 0 own_fingerprint)
    (Publish (MkTopic topic) p retain content_type None None).

Lemma read_payload_spec arg s :
  (∃ p, payload_is arg p ∧ read_payload arg s = (Ok p, s)) ∨ (∃ e, (∀ p, ¬ payload_is arg p) ∧ read_payload arg s = (Err e, s)).
Proof.
  unfold ClientRun.read_payload, payload_is. destruct (decide (arg = lit "-")) as [->|Hne].
  - rewrite bool_decide_true by done. destruct stdin as [p|e]; [left; by exists p|right; by eexists].
  - rewrite bool_decide_false by done. left. by exists (as_bytes arg).
Qed.

Lemma payload_is_unique arg p q : payload_is arg p → payload_is arg q → p = q.
Proof. unfold payload_is. destruct (decide _); congruence. Qed.

(** A frame is written up to where a write fails. *)
Lemma write_frame_prefix b out inp :
  ∃ sent, (write_frame b (out, inp)).2 = (out ++ sent, inp) ∧ sent `prefix_of` frame b
    ∧ ((write_frame b (out, inp)).1 = Ok () → sent = frame b).
Proof.
  unfold AsyncFraming.write_frame, u32_try_from.
  assert (∀ x, (∃ sent, (out, inp) = (out ++ sent, inp) ∧ sent `prefix_of` frame b
    ∧ (Err x = @Ok () (FramingError io_error) () → sent = frame b))) as Hno
    by (intros x; exists []; rewrite app_nil_r; split; [done|]; split; [apply prefix_nil|done]).
  destruct (_ <=? _)%Z; [|apply Hno]. destruct (_ >? _)%Z; [apply Hno|]. rewrite st_bind. unfold frame.
  destruct (Hwrites (to_be_bytes (Z.of_nat (length b))) out inp) as (s1 & Hw1 & Hp1 & Ha1).
  destruct (write_all _ (out, inp)) as [[[]|e] d1]; cbn [fst snd] in *; subst d1; [|exists s1; split; [done|]; split; [by apply prefix_app_r|done]].
  rewrite Ha1 by done. rewrite st_bind. destruct (Hwrites b (out ++ to_be_bytes (Z.of_nat (length b))) inp) as (s2 & Hw2 & Hp2 & Ha2).
  destruct (write_all b _) as [[[]|e] d2]; cbn [fst snd] in *; subst d2; eexists; (split; [by rewrite <-app_assoc|]);
    (split; [by apply prefix_app|]); [|done]. intros _. by rewrite Ha2.
Qed.

(** What [send] does with a message that fits a frame, and with one that does
    not. *)
Lemma send_spec e b s :
  encoded e b →
  ∃ sent, Client.send into_writer cbor_message framing_message write_all e s
    = (map_err (λ x, Other (framing_message x)) (write_frame b (wire s)).1,
       MkSession ((wire s).1 ++ sent, (wire s).2) (next_id s) (stdout s) (stderr s))
    ∧ sent `prefix_of` frame b ∧ ((write_frame b (wire s)).1 = Ok () → sent = frame b).
Proof.
  intros [Hb Hl]. unfold Client.send, Envelope.to_bytes, on_wire. rewrite Hb. cbn [and_then]. destruct (wire s) as [out inp] eqn:Hw.
  destruct (write_frame_prefix b out inp) as (sent & Hs & Hp & Ha). exists sent.
  destruct (write_frame b (out, inp)) as [r d]. cbn in *. by subst d.
Qed.

Lemma send_unencoded e s :
  (∀ b, ¬ encoded e b) → ∃ err, Client.send into_writer cbor_message framing_message write_all e s = (Err err, s).
Proof.
  intros Hno. unfold Client.send, Envelope.to_bytes. destruct (into_writer e) as [b|err] eqn:Hb; cbn [and_then map_err]; [|by eexists].
  assert (MAX_FRAME_LEN < Z.of_nat (length b))%Z as Hgt.
  { apply Z.lt_nge. intros Hle. by apply (Hno b). }
  unfold on_wire, AsyncFraming.write_frame, u32_try_from. destruct (_ <=? _)%Z; [|by eexists; destruct s as [[]]].
  destruct (Z.gtb_spec (Z.of_nat (length b)) MAX_FRAME_LEN); [|lia]. by eexists; destruct s as [[]].
Qed.

Lemma encodable_dec e : (∃ b, encoded e b) ∨ ∀ b, ¬ encoded e b.
Proof.
  unfold Writer.encoded. destruct (into_writer e) as [b|err]; [|right; by intros b [? _]].
  destruct (Z.le_gt_cases (Z.of_nat (length b)) MAX_FRAME_LEN); [left; by exists b|right].
  intros b' [[= <-] ?]. lia.
Qed.

Lemma execute_publish sender topic payload retain content_type s :
  Topic.from_str topic = Ok (MkTopic topic) →
  let e p := Envelope.new (next_id s) sender (Publish (MkTopic topic) p retain content_type None None) in
  ∃ r s', execute sender (CmdPublish topic payload retain content_type) s = Some (r, s')
    ∧ ((∃ p b sent, payload_is payload p ∧ encoded (e p) b
          ∧ r = map_err (λ x, Other (framing_message x)) (write_frame b (wire s)).1
          ∧ s' = MkSession ((wire s).1 ++ sent, (wire s).2) (S (next_id s)) (stdout s) (stderr s)
          ∧ sent `prefix_of` frame b ∧ ((write_frame b (wire s)).1 = Ok () → sent = frame b))
       ∨ r ≠ Ok () ∧ (wire s').1 = (wire s).1 ∧ ∀ p b, payload_is payload p → ¬ encoded (e p) b).
Proof.
  intros Ht e. cbn [ClientRun.execute]. unfold cmd_bind at 1, lift, parse_topic. rewrite Ht. cbn [map_err]. unfold cmd_bind at 1.
  destruct (read_payload_spec payload s) as [(p & Hp & ->)|(err & Hno & ->)]; cycle 1.
  { eexists _, s. split; [done|]. right. split; [done|]. split; [done|]. intros p b Hp. by apply Hno in Hp. }
  unfold cmd_bind at 1. cbn [new_envelope]. fold (e p). set (s1 := MkSession (wire s) (S (next_id s)) (stdout s) (stderr s)).
  destruct (encodable_dec (e p)) as [[b Hb]|Hno].
  - destruct (send_spec (e p) b s1 Hb) as (sent & -> & Hpre & Hall). eexists _, _. split; [done|]. left. by exists p, b, sent.
  - destruct (send_unencoded (e p) s1 Hno) as [err ->]. eexists _, _. split; [done|]. right. do 2 (split; [done|]).
    intros q b Hq. by rewrite (payload_is_unique _ _ _ Hq Hp).
Qed.

Lemma connect_topic fs cli topic payload retain content_type x :
  connect fs cli = Ok x → Cli.command cli = CmdPublish topic payload retain content_type →
  Topic.wf (MkTopic topic) ∧ Topic.from_str topic = Ok (MkTopic topic).
Proof.
  unfold ClientRun.connect, ClientOptions.prepare. intros (opts & (u & Hc & _)%and_then_ok & _)%and_then_ok Hcli.
  rewrite Hcli in Hc. cbn in Hc. apply and_then_ok in Hc as (t & Ht & _). unfold parse_topic in Ht.
  destruct (Topic.from_str topic) as [t'|] eqn:Hp; [|done]. pose proof Hp as [-> ?]%topic_from_str_ok. done.
Qed.

(** C23: [publish] as a whole. It succeeds exactly when the command and the
    options are valid, the connection opens, the payload can be read, the
    message fits a frame and the connection takes the frame. Then it has sent
    that frame and nothing else, which the node decodes as that message: a valid
    topic, the payload of the argument or all of standard input, the identity of
    the certificate if there is one; and it prints nothing. When a write fails
    the command fails with the framing error, after a prefix of that frame; when
    it fails before there is a frame, it has sent nothing. *)
Theorem publish_command fs cli topic payload retain content_type :
  Cli.command cli = CmdPublish topic payload retain content_type →
  let message fp incoming b := ∃ p, connect fs cli = Ok (fp, incoming) ∧ payload_is payload p
    ∧ encoded (publish_envelope fp topic p retain content_type) b in
  ∃ r os, run fs cli = Some (r, os)
    ∧ (r = Ok () ↔ ∃ fp incoming b, message fp incoming b ∧ (write_frame b ([], incoming)).1 = Ok ())
    ∧ (∀ fp incoming b, message fp incoming b →
         r = map_err (λ x, Other (framing_message x)) (write_frame b ([], incoming)).1
         ∧ ∃ s sent, os = Some s ∧ wire s = (sent, incoming) ∧ sent `prefix_of` frame b ∧ (r = Ok () → sent = frame b)
             ∧ stdout s = [] ∧ stderr s = []
         ∧ Topic.wf (MkTopic topic)
         ∧ ∃ p, payload_is payload p ∧ from_reader b = Ok (publish_envelope fp topic p retain content_type))
    ∧ ((∀ fp incoming b, ¬ message fp incoming b) → ∀ s, os = Some s → (wire s).1 = []).
Proof.
  intros Hc message. unfold ClientRun.run. destruct (connect fs cli) as [[fp incoming]|err] eqn:Ho; cycle 1.
  { eexists _, _. split; [done|]. split; [|split; [|done]]; [split; [done|]|]; subst message.
    - by intros (fp & incoming & b & (p & ? & _) & _).
    - by intros fp incoming b (p & ? & _). }
  destruct (connect_topic _ _ _ _ _ _ _ Ho Hc) as [Hwf Ht]. rewrite Hc. set (s0 := MkSession _ _ _ _).
  assert (∀ p b, encoded (publish_envelope fp topic p retain content_type) b → payload_is payload p → message fp incoming b) as Hmsg.
  { intros p b Hb Hp. by exists p. }
  assert (∀ fp' incoming' b', message fp' incoming' b' → fp' = fp ∧ incoming' = incoming
    ∧ ∃ p, payload_is payload p ∧ encoded (publish_envelope fp topic p retain content_type) b') as Hinv.
  { intros fp' incoming' b' (p & [= <- <-] & Hp & Hb). do 2 (split; [done|]). by exists p. }
  destruct (execute_publish (sender_of 0 fp) topic payload retain content_type s0 Ht)
    as (r & s' & -> & [(p & b & sent & Hp & Hb & -> & -> & Hpre & Hall)|(Hr & Hw & Hno)]).
  - assert (∀ fp' incoming' b', message fp' incoming' b' → fp' = fp ∧ incoming' = incoming ∧ b' = b) as Hone.
    { intros fp' incoming' b' (-> & -> & q & Hq & Hb' & _)%Hinv. do 2 (split; [done|]). rewrite (payload_is_unique _ _ _ Hq Hp) in Hb'.
      destruct Hb as [Hb _]. change (into_writer (publish_envelope fp topic p retain content_type) = Ok b) in Hb. congruence. }
    assert (∀ x : Result () (FramingError io_error), map_err (λ e, Other (framing_message e)) x = Ok () ↔ x = Ok ()) as Hok
      by (intros [[]|]; cbn; split; done).
    eexists _, _. split; [done|]. split; [|split].
    + rewrite Hok. split; [intros Hx; exists fp, incoming, b; split; [by eapply Hmsg|done]|].
      by intros (? & ? & ? & (-> & -> & ->)%Hone & Hx).
    + intros ? ? ? (-> & -> & ->)%Hone. split; [done|]. eexists _, sent. split; [done|]. do 2 (split; [done|]). rewrite Hok. do 4 (split; [done|]).
      exists p. split; [done|]. by apply codec, Hb.
    + intros Hnone. exfalso. by eapply Hnone, Hmsg.
  - assert (∀ fp' incoming' b', ¬ message fp' incoming' b') as Hnone
      by (intros ? ? ? (-> & -> & q & Hq & Hb)%Hinv; by apply (Hno q b' Hq)).
    eexists _, _. split; [done|]. split; [|split].
    + split; [done|]. intros (? & ? & ? & Hm & _). by apply Hnone in Hm.
    + intros ? ? ? Hm. by apply Hnone in Hm.
    + by intros _ s [= <-].
Qed.
End publishing.

(** ** Witnesses *)

Module RunSample.
Export SampleTls.
#[local] Instance uuids : Uuids := Reference.ref_uuids.
Definition cli : Cli.Cli :=
  Cli.MkCli None None (Some (lit "ca.pem")) (Some (lit "cert.pem")) (Some (lit "key.pem"))
    (CmdPublish (lit "weather.now") (lit "-") true None).
Definition fingerprint : bytes := replicate 32 171%Z.
Definition message : Envelope := publish_envelope (Some fingerprint) (lit "weather.now") [1; 255]%Z true None.
Definition fs : Fs := MkFs (λ _, NotFound []) (λ _, Err []).
Definition node (addr : rstr) : Result TcpStream io_error := Ok (Some [[5%Z]; [1%Z]]).

(** A connection that breaks once [n] bytes are sent. *)
Definition breaks_after (n : nat) (b : bytes) : ST duplex (Result () io_error) := λ s,
  (if length s.1 + length b <=? n then Ok () else Err (lit "broken pipe"), (s.1 ++ take (n - length s.1) b, s.2)).

Lemma breaks_writes n : writes_prefixes (breaks_after n).
Proof.
  intros b out inp. exists (take (n - length out) b). split; [done|]. split; [apply prefix_take|]. cbn.
  destruct (Nat.leb_spec (length out + length b) n); [|done]. intros _. apply take_ge. lia.
Qed.

(** The node sends nothing. *)
Definition run (n : nat) :=
  run (Sample.encode [message]) (Sample.decode [message]) (λ _, []) (λ _, []) (breaks_after n) (λ _, []) (Ok [1; 255]%Z) 0 []
    (λ _, Err []) None (λ _, fingerprint) node (λ _, []) fs cli.
End RunSample.
Import SampleTls.
#[local] Existing Instance RunSample.uuids.

(** Standard input is published under the identity of a certificate; a
    connection that breaks in the frame gets the front of it. *)
Lemma publish_command_witness :
  (∃ s, RunSample.run 5 = Some (Ok (), Some s) ∧ wire s = ([0; 0; 0; 1; 0]%Z, []))
  ∧ ∃ r s, RunSample.run 4 = Some (r, Some s) ∧ r ≠ Ok () ∧ (wire s).1 `prefix_of` [0; 0; 0; 1; 0]%Z.
Proof.
  split.
  - destruct (publish_command (Sample.encode [RunSample.message]) (Sample.decode [RunSample.message]) (λ _, []) (λ _, [])
      (RunSample.breaks_after 5) (λ _, []) (Ok [1; 255]%Z) 0 [] (λ _, Err []) None (λ _, RunSample.fingerprint) RunSample.node (λ _, [])
      (Sample.sample_codec _) (RunSample.breaks_writes 5) RunSample.fs RunSample.cli (lit "weather.now") (lit "-") true None eq_refl)
      as (r & os & Hrun & Hok & Hsent & _).
    destruct (Hsent (Some RunSample.fingerprint) [] [0%Z]) as (-> & s & sent & -> & Hs & _ & Hall & _).
    { exists [1; 255]%Z. do 2 (split; [by vm_compute|]). by split; vm_compute. }
    exists s. split; [exact Hrun|]. by rewrite Hs, Hall.
  - destruct (publish_command (Sample.encode [RunSample.message]) (Sample.decode [RunSample.message]) (λ _, []) (λ _, [])
      (RunSample.breaks_after 4) (λ _, []) (Ok [1; 255]%Z) 0 [] (λ _, Err []) None (λ _, RunSample.fingerprint) RunSample.node (λ _, [])
      (Sample.sample_codec _) (RunSample.breaks_writes 4) RunSample.fs RunSample.cli (lit "weather.now") (lit "-") true None eq_refl)
      as (r & os & Hrun & Hok & Hsent & _).
    destruct (Hsent (Some RunSample.fingerprint) [] [0%Z]) as (-> & s & sent & -> & Hs & Hpre & _).
    { exists [1; 255]%Z. do 2 (split; [by vm_compute|]). by split; vm_compute. }
    eexists _, s. split; [exact Hrun|]. split; [by vm_compute|]. by rewrite Hs.
Defined.
